(* ===== verification/_CoqProject ===== *)
-Q . S2P
Prelude.v
GoStrings.v
Labgob.v
LabgobCheck.v
Persister.v
RaftState.v
RaftRpc.v
RaftLeader.v
RaftPeer.v
RaftCluster.v
RaftLinks.v
RaftReplication.v
RaftChains.v
RaftQuorums.v
RaftInvariant.v
RaftSteps.v
RaftVotes.v
RaftAppends.v
RaftEntries.v
RaftSafety.v
RaftApply.v
RaftFeed.v
RaftReplExamples.v
RaftSafetyExamples.v
RaftExamples.v
RaftService.v
KvServer.v
KvReplica.v
KvRaft.v
KvClerk.v
KvSession.v
KvExamples.v
KvRaftExamples.v
MrWorker.v
MrCoordinator.v
MrSystem.v
MrApps.v
MrExamples.v
ShardCtrler.v
ShardRebalance.v
ShardConfigs.v
CtrlRaft.v
ShardExamples.v
CtrlRaftExamples.v
ShardKv.v
ShardGroup.v
ShardClerk.v
ShardWorld.v
ShardKvExamples.v
Labrpc.v
HarnessNet.v
RaftHarness.v
ServiceHarness.v
ShardHarness.v
CtrlerHarness.v
RaftOracle.v
RaftTested.v
RaftTestedExamples.v
ServiceHarnessExamples.v
ShardHarnessExamples.v
LabrpcExamples.v
PorcBitset.v
PorcModel.v
PorcList.v
PorcPath.v
PorcSearch.v
PorcHistory.v
PorcEvents.v
PorcCheck.v
PorcVisual.v
PorcKv.v
PorcExamples.v
