(* ===== verification/Prelude.v ===== *)
(** * The 6.824 labs: a verification library

    The repository holds the labs of a distributed-systems course in Go: Raft,
    a replicated key/value store on Raft, a configuration service and a sharded
    key/value store on top of both, MapReduce, and the infrastructure of the
    labs: an encoder, a simulated network and the linearizability checker
    Porcupine with which the key/value stores are tested.  This library models
    these programs as functions and step relations and proves what makes them
    correct.  All paths below are under [src/src/].

    ** How the parts fit together

    A Raft peer ([raft/raft.go]) keeps its term, vote and log in a persister
    and hands committed commands and snapshots to its service.  The key/value
    server ([kvraft/server.go]) and the configuration service
    ([shardctrler/server.go]) are such services: a handler starts a command in
    Raft, waits on a channel for its index, and the apply loop executes what
    Raft delivers.  The shard servers ([shardkv/server.go]) do the same in
    groups; each group polls the configuration service and the groups move
    shards among themselves.  Clerks retry over servers until one answers.
    Histories of the clerks are given to Porcupine ([porcupine/], [models/]).
    MapReduce ([mr/]) is separate: a coordinator hands out tasks to workers.

    ** The files

    - [Prelude]: the outcome of running Go code (a value, [log.Fatal], a panic,
      blocking), slices indexed by Go integers, majorities, tactics, generic
      list lemmas.  [GoStrings]: what the code uses of [strings], [strconv] and of
      the UTF-8 encoding of Go strings, and what [encoding/json] makes of a string.
    - [Labgob] ([labgob/labgob.go]): encoding as a list of typed messages, and the
      two checks that warn about lower-case fields and non-default values;
      [Persister] ([raft/persister.go]).
    - [RaftState] ([raft/raft.go], [raft/RaftState.go]): the peer as the record
      [Raft]; log access relative to the snapshot boundary, [persist],
      [readPersist], [Make].  [RaftRpc]: the handlers [RequestVote],
      [AppendEntries], [InstallSnapshot] and the service calls [Snapshot],
      [CondInstallSnapshot], [Start].  [RaftLeader]: the critical sections of the
      goroutines (elections, replication, heartbeats, commit scan, apply loop).
      [RaftPeer]: every schedule of one peer's critical sections.  [RaftCluster]:
      peers, vote requests and replies in flight, restarts.  [RaftService]: the
      type class through which services use a peer, and its laws.
    - [RaftReplication]: the cluster with the goroutines and messages that replicate
      the log; [RaftLinks] is what a log says about who created its entries.
      [RaftChains] (entries by index and term, each with the one before it) and
      [RaftQuorums] (what a majority acknowledged) are the vocabulary of the safety
      proof, [RaftInvariant] its invariant, [RaftSteps], [RaftVotes], [RaftAppends]
      and [RaftEntries] the steps that keep it, [RaftSafety] what follows.
      [RaftApply]: the one sequence of commands that a cluster delivers; [RaftFeed]:
      its way through [applyCh] to a service.
    - [KvServer], [KvReplica], [KvClerk] ([kvraft/]): the server, what the servers
      together promise, the clerk.  [KvSession]: clerks, requests and answers in
      flight and handlers at the servers.  [KvRaft]: the servers on the peers of a
      cluster, as one system.
    - [ShardCtrler], [ShardRebalance], [ShardConfigs] ([shardctrler/]): the
      configuration service with its rebalancing, its correctness, the invariant
      of the configurations and the clerk.  [CtrlRaft]: the configuration servers
      on the peers of a cluster, as one system.
    - [ShardKv] ([shardkv/server.go], [shardkv/server_shard_transfer.go]): the shard
      server with a heap of shared maps.  [ShardGroup]: the state machine of a
      group by value, which the heap version refines.  [ShardWorld]: groups,
      configurations and messages in flight.  [ShardClerk] ([shardkv/client.go]).
    - [MrWorker] ([mr/worker.go], [main/mrsequential.go]), [MrCoordinator]
      ([mr/coordinator.go]), [MrSystem]: a job with crashing workers and reports that
      overlap, [MrApps] ([mrapps/]): the eight applications, and what their jobs compute.
    - [PorcBitset], [PorcModel], [PorcList], [PorcPath], [PorcSearch],
      [PorcHistory], [PorcEvents], [PorcCheck] ([porcupine/]), [PorcKv]
      ([models/kv.go]), [PorcVisual] ([porcupine/visualization.go]): the checker,
      from bitsets and the linked list up to the exported functions.
    - [Labrpc] ([labrpc/labrpc.go]): the simulated network.
    - The testers: [HarnessNet] is what they share; [RaftHarness] ([raft/config.go])
      with its connections, [RaftOracle] what its checks mean, [RaftTested] the
      tester on a Raft cluster; [ServiceHarness] ([kvraft/config.go]);
      [CtrlerHarness] ([shardctrler/config.go]), the same operations at configuration
      servers with the ones that differ; [ShardHarness] ([shardkv/config.go]).
    - [*Examples]: the theorems at concrete inputs, and runs that show which of
      their conditions are needed.

    ** How code is modelled

    A struct is a record with the source's field names (prefixed where two
    structs share one), an enumeration an inductive type, a Go [int] a [Z]
    (the code counts terms, indices and ids, which stay far below 2^63; 64-bit
    words of bitsets and the 32-bit hash are kept at their width), a map a
    [gmap], a slice a list.  A handler that holds a lock throughout is one
    function; code that releases its lock is split at the releases, and the
    pieces are interleaved by a step relation: the commit scan reads a term, counts and
    writes in three sections ([scanTerm], [scanCount], [commitWrite]), a new leader sets
    its indices and then its flag ([leaderInit], [leaderReady]), the apply loop checks
    and then reads the entries ([applyCheck], [applyBegin]), a report to the MapReduce
    coordinator is one section per rename and per task it looks at ([reportSection]),
    the shard tester starts and shuts down a server in pieces ([startLocked],
    [startInstance], [registerServer]; [shutdownCut], [shutdownNil]).  Maps and nodes that several
    places share are addresses in an explicit heap.  What depends on chance or on
    the scheduler (timeouts, [rand], the order of map iteration, message loss,
    the kill flag) is an argument of the definition or a choice of the step
    relation, so that theorems hold for every outcome.  Code outside the
    repository is a class of what it promises: [GobType] and [GobSize]
    ([encoding/gob]), [GoSort], [StringSort] and [TimeSort] ([sort]); the table behind
    [unicode.IsLetter] and the methods that reflection lists are arguments.

    ** What the theorems show

    - Raft: well-formedness and durability of a peer in every schedule, one
      vote per term, at most one leader per term ([election_safety]), the
      AppendEntries merge, totality of the handlers, the commit rule, the
      order of application; for the cluster [log_matching], [leader_completeness]
      and [state_machine_safety].
    - Key/value: exactly-once execution against a plain map, agreement of the
      servers, correct replies, progress of the apply loop and of clerks; clerks that
      retry get every call executed once, in order, with the result of one place of
      the log between call and return ([clerks_linearizable]); the
      servers on a Raft cluster behave as servers fed from one log
      ([kvraft_refines]), so that the theorems about the latter hold of them.
    - Configurations: rebalancing is complete, balanced and minimal; replicas
      agree although each visits its maps in its own order; the servers on a Raft
      cluster execute one log ([ctrlraft_refines]), and what two of them have executed
      is the beginning of one history ([ctrlraft_one_history]).
    - Shards: at most one group serves a shard, and whoever serves it holds
      exactly the writes executed so far; the heap refines the values.
    - MapReduce: the distributed job computes what the sequential one does; the
      word count counts ([wc_job]) and the indexer indexes ([indexer_job]); no
      section of a report fails ([mr_report_total]).
    - Porcupine: the search terminates, answers [true] exactly for linearizable
      histories, and for the key/value model checking key by key is exact with
      respect to the very map the servers refine ([kv_check_correct]: on a history
      that is not empty, whichever answer other than [Unknown] comes, and one comes
      unless the timeout is first); the
      visualization accepts whatever the verbose check reports.
    - Network: a call that returns true executed its handler once and brings
      back its reply, a call that returns false executed it at most once; the
      counters of the network count the calls ([rpc_total_exact]).
    - Testers: the readers of [applyCh] accept exactly the consistent deliveries
      ([applier_exact]), and those of a Raft cluster are ([tester_accepts]);
      connections are those the test asked for ([harness_connectivity],
      [partition_spec], [ctrl_partition_leader]); the names that the shard tester
      announces lead to the servers they name ([announced_reachable]), shutting a
      server down cuts it off but for the ends it made itself ([shutdown_spec]), and
      with groups of more or fewer than three servers [make_config] or [makeClient]
      panics ([tester_needs_three]).

    Several theorems hold only under a condition on the run (no restart after
    a snapshot, no election started by a leader, no LEAVE_SHARD that takes effect on a
    shard that is not leaving, no writes by a worker that was given up, no handler that
    answers for another command than its own, keys and values in valid UTF-8).  Each condition is there because the
    code goes wrong without it; the [*Examples] files and [RaftCluster] contain
    the runs.  Leader completeness and state machine safety are about runs in which
    no service takes a snapshot ([sbenign] of [RaftSteps]): a snapshot erases the
    saved log and vote, and installing one can keep a conflicting tail
    ([install_keeps_conflicting_tail]), which is also why [log_matching] has a
    condition on InstallSnapshot; they further assume that the count and the write of
    a commit scan and a heartbeat reply find the peer still leading the term
    ([commit_scan_crash], [stale_heartbeat_commits] show why).  The theorems about
    services on a Raft cluster ([kvraft_refines], [kvraft_storage], [ctrlraft_refines],
    [ctrlraft_one_history], [tester_accepts]) are about the same runs.

    ** Fuel

    Loops that are not structural take fuel, with a theorem that a given amount
    is enough: [joinFuel] (the square of the number of shards plus one) for the balancing loop, one
    round over the servers for a clerk whose service answers, the number of
    nodes for [length_], the number of types for [checkType], and for the
    linearizability search an amount that exists for every history (the search
    tree is finite).

    ** Not modelled

    Sleeps and timers as durations (they are scheduling), the time limits of tests,
    debug output and what the testers print, random seeds, command-line mains, plugin
    loading, RPC listeners over sockets, the HTML template and JSON output of the
    visualization, the registration of types with [encoding/gob], and reflection
    (the types and methods it finds are data of the models).  The shard groups are
    not composed with their Raft clusters: a command of theirs holds the address of a
    map of the process, which goes on changing after the command was executed, so that
    a peer can send an entry other than the one it committed
    ([pulled_map_aliases_log]); their system takes one committed log of values per
    group as what Raft should deliver. *)

From stdpp Require Export base gmap list numbers strings relations sorting.
From Stdlib Require Export ZArith Lia.

#[export] Set Default Goal Selector "!".

(** ** The outcome of running Go code

    [log.Fatal*] terminates the process, a runtime error (index out of range,
    nil dereference) panics, and a send on a full buffered channel blocks the
    goroutine together with the locks it holds.  Every operation that can do
    one of these returns an [outcome]. *)
Inductive outcome (A : Type) : Type :=
  | Ret (a : A)
  | Fatal
  | Panic
  | Block.
Arguments Ret {A} a.
Arguments Fatal {A}.
Arguments Panic {A}.
Arguments Block {A}.

#[export] Instance outcome_ret : MRet outcome := @Ret.
#[export] Instance outcome_bind : MBind outcome := λ A B f m,
  match m with
  | Ret a => f a
  | Fatal => Fatal
  | Panic => Panic
  | Block => Block
  end.

#[export] Instance outcome_eq_dec `{EqDecision A} : EqDecision (outcome A).
Proof. solve_decision. Defined.

Definition is_Ret {A} (m : outcome A) : Prop := ∃ a, m = Ret a.

Lemma bind_Ret {A B} (m : outcome A) (f : A → outcome B) b :
  m ≫= f = Ret b ↔ ∃ a, m = Ret a ∧ f a = Ret b.
Proof.
  split; [destruct m; cbn; naive_solver|].
  by intros (a & -> & H).
Qed.

Lemma bind_assoc {A B D} (m : outcome A) (f : A → outcome B) (g : B → outcome D) :
  (m ≫= f) ≫= g = m ≫= (λ x, f x ≫= g).
Proof. by destruct m. Qed.

(** ** Slices indexed by Go [int]s *)

Definition zlen {A} (l : list A) : Z := Z.of_nat (length l).

(** [l[i]]: panics outside [0, len). *)
Definition slice_get {A} (l : list A) (i : Z) : outcome A :=
  if (i <? 0)%Z then Panic else
  match l !! Z.to_nat i with Some x => Ret x | None => Panic end.

(** [l[i] = x]: panics outside [0, len). *)
Definition slice_set {A} (l : list A) (i : Z) (x : A) : outcome (list A) :=
  if (0 <=? i)%Z && (i <? zlen l)%Z then Ret (<[Z.to_nat i := x]> l) else Panic.

(** [l[a:b]] with [b <= len(l)], the only use made of it: panics when
    [a < 0], [b < a] or [b > len]. *)
Definition slice_sub {A} (l : list A) (a b : Z) : outcome (list A) :=
  if (0 <=? a)%Z && (a <=? b)%Z && (b <=? zlen l)%Z
  then Ret (take (Z.to_nat (b - a)) (drop (Z.to_nat a) l)) else Panic.

Section slices.
Context {A : Type}.
Implicit Types (l : list A) (x : A) (i : Z).
Local Open Scope Z_scope.

Lemma zlen_nonneg l : 0 <= zlen l.
Proof. unfold zlen. lia. Qed.

Lemma zlen_nil : zlen (@nil A) = 0.
Proof. done. Qed.

Lemma zlen_cons x l : zlen (x :: l) = zlen l + 1.
Proof. unfold zlen. cbn. lia. Qed.

Lemma zlen_app l1 l2 : zlen (l1 ++ l2) = zlen l1 + zlen l2.
Proof. unfold zlen. rewrite length_app. lia. Qed.

Lemma zlen_take l i : 0 <= i <= zlen l → zlen (take (Z.to_nat i) l) = i.
Proof. unfold zlen. rewrite length_take. lia. Qed.

Lemma zlen_drop l i : 0 <= i <= zlen l → zlen (drop (Z.to_nat i) l) = zlen l - i.
Proof. unfold zlen. rewrite length_drop. lia. Qed.

Lemma slice_get_Ret l i x :
  slice_get l i = Ret x ↔ 0 <= i ∧ l !! Z.to_nat i = Some x.
Proof.
  unfold slice_get. destruct (Z.ltb_spec i 0).
  - split; [done|]. lia.
  - destruct (l !! Z.to_nat i) eqn:E; naive_solver.
Qed.

Lemma slice_get_in_range l i :
  0 <= i < zlen l → ∃ x, slice_get l i = Ret x.
Proof.
  intros Hi. destruct (lookup_lt_is_Some_2 l (Z.to_nat i)) as [x Hx].
  { unfold zlen in Hi. lia. }
  exists x. rewrite slice_get_Ret. split; [lia|done].
Qed.

Lemma slice_set_Ret l i x l' :
  slice_set l i x = Ret l' ↔ 0 <= i < zlen l ∧ l' = <[Z.to_nat i := x]> l.
Proof.
  unfold slice_set. destruct (Z.leb_spec 0 i), (Z.ltb_spec i (zlen l)); cbn;
    split; try done; try lia; naive_solver.
Qed.

Lemma slice_sub_Ret l a b l' :
  slice_sub l a b = Ret l' ↔
  0 <= a <= b ∧ b <= zlen l ∧ l' = take (Z.to_nat (b - a)) (drop (Z.to_nat a) l).
Proof.
  unfold slice_sub.
  destruct (Z.leb_spec 0 a), (Z.leb_spec a b), (Z.leb_spec b (zlen l)); cbn;
    split; try done; try lia; naive_solver.
Qed.

Lemma slice_sub_lookup l a b l' (k : nat) :
  slice_sub l a b = Ret l' → Z.of_nat k < b - a →
  l' !! k = l !! (Z.to_nat a + k)%nat.
Proof.
  intros (Ha & Hb & ->)%slice_sub_Ret Hk.
  rewrite lookup_take_lt by lia. by rewrite lookup_drop.
Qed.

Lemma slice_sub_length l a b l' :
  slice_sub l a b = Ret l' → zlen l' = b - a.
Proof.
  intros (Ha & Hb & ->)%slice_sub_Ret. unfold zlen in *.
  rewrite length_take, length_drop. lia.
Qed.
End slices.

(** [count > len(peers)/2] with Go's integer division is a strict majority. *)
Lemma majority_lt (n c : Z) : (n / 2 < c ↔ n < 2 * c)%Z.
Proof. pose proof (Z.div_mod n 2). pose proof (Z.mod_pos_bound n 2). lia. Qed.

(** Two strict majorities of [n] peers have a peer in common. *)
Lemma quorum_overlap (n : nat) (q1 q2 : list nat) :
  NoDup q1 → NoDup q2 → (∀ p, p ∈ q1 → p < n) → (∀ p, p ∈ q2 → p < n) →
  n < 2 * length q1 → n < 2 * length q2 → ∃ p, p ∈ q1 ∧ p ∈ q2.
Proof.
  intros H1 H2 Hr1 Hr2 Hl1 Hl2.
  destruct (decide (Exists (λ p, p ∈ q2) q1)) as [(p & ? & ?)%Exists_exists|Hno]; [by exists p|].
  exfalso. rewrite <- Forall_Exists_neg, Forall_forall in Hno.
  assert (NoDup (q1 ++ q2)) as Hnd by (apply NoDup_app; auto).
  assert (q1 ++ q2 ⊆+ seq 0 n) as Hsub.
  { apply NoDup_submseteq; [done|]. intros p Hp. rewrite elem_of_app in Hp.
    rewrite elem_of_seq. destruct Hp as [Hp|Hp]; [apply Hr1 in Hp|apply Hr2 in Hp]; lia. }
  apply submseteq_length in Hsub. rewrite length_app, length_seq in Hsub. lia.
Qed.

(** ** Lists *)

Lemma StronglySorted_impl_in {A} (R R' : relation A) (l : list A) :
  (∀ x y, x ∈ l → y ∈ l → R x y → R' x y) → StronglySorted R l → StronglySorted R' l.
Proof.
  intros HR. induction 1 as [|x l Hs IH Hx]; constructor.
  - apply IH. intros. apply HR; [by constructor|by constructor|done].
  - rewrite Forall_forall in Hx |- *. intros y Hy. apply HR; [by constructor|by constructor|eauto].
Qed.

Lemma filter_iff_in {A} (P Q : A → Prop) `{!∀ x, Decision (P x), !∀ x, Decision (Q x)} (l : list A) :
  (∀ x, x ∈ l → P x ↔ Q x) → filter P l = filter Q l.
Proof.
  induction l as [|x l IH]; intros HPQ; [done|]. rewrite !filter_cons.
  assert (P x ↔ Q x) by (apply HPQ; by constructor). rewrite IH by (intros; apply HPQ; by constructor).
  repeat case_decide; tauto.
Qed.

Lemma filter_all_in {A} (P : A → Prop) `{!∀ x, Decision (P x)} (l : list A) :
  (∀ x, x ∈ l → P x) → filter P l = l.
Proof.
  induction l as [|x l IH]; intros HP; [done|].
  rewrite filter_cons_True, IH; [done|..]; intros; apply HP; by constructor.
Qed.

(** The value of a computation that returned. *)
Definition returned {A} (m : outcome A) : option A :=
  match m with Ret a => Some a | _ => None end.

Create HintDb go.
#[export] Hint Resolve zlen_nonneg : go.
Create Rewrite HintDb zlen.
#[export] Hint Rewrite @zlen_nil @zlen_cons @zlen_app : zlen.

(** ** Tactics *)

(** Turns boolean comparisons on [Z] in hypotheses into propositions. *)
Ltac zbool :=
  repeat match goal with
  | H : andb _ _ = true |- _ => apply andb_true_iff in H as [? ?]
  | H : orb _ _ = false |- _ => apply orb_false_iff in H as [? ?]
  | H : andb _ _ = false |- _ => apply andb_false_iff in H
  | H : orb _ _ = true |- _ => apply orb_true_iff in H
  | H : negb _ = true |- _ => apply negb_true_iff in H
  | H : negb _ = false |- _ => apply negb_false_iff in H
  | H : (_ <? _)%Z = true |- _ => apply Z.ltb_lt in H
  | H : (_ <? _)%Z = false |- _ => apply Z.ltb_ge in H
  | H : (_ <=? _)%Z = true |- _ => apply Z.leb_le in H
  | H : (_ <=? _)%Z = false |- _ => apply Z.leb_gt in H
  | H : (_ =? _)%Z = true |- _ => apply Z.eqb_eq in H
  | H : (_ =? _)%Z = false |- _ => apply Z.eqb_neq in H
  end.

(** Inverts a hypothesis that says a monadic computation returned. *)
Ltac go_inv :=
  repeat (simplify_eq/=;
    match goal with
    | H : mbind _ _ = Ret _ |- _ => apply bind_Ret in H as (? & ? & ?)
    | H : (if ?b then _ else _) = Ret _ |- _ => destruct b eqn:?
    | H : (match ?b with _ => _ end) = Ret _ |- _ => destruct b eqn:?
    | H : mret _ = Ret _ |- _ => unfold mret, outcome_ret in H
    | H : (_, _) = (_, _) |- _ => injection H as ? ?
    end); simplify_eq/=; zbool; simplify_eq/=.
