(* ===== verification/GoStrings.v ===== *)
(** * GoStrings: what the programs use of Go's strings

    [strings.Join], [strings.FieldsFunc] on the runes of a string, [sort.Strings], and
    names that end in numbers.  A string is its bytes; [range] over a string decodes
    UTF-8 as the language defines it: a byte that starts no valid encoding is the rune
    U+FFFD of width one.  Decimal numbers ([strconv.Itoa], [%d]) are [pretty].

    [jsonString] is what [encoding/json] makes of a string.  [FieldsFunc_valid]: the words of
    any text are valid UTF-8.  [decode_encode]: decoding inverts the encoding of RFC 3629.  [runes_bytes]: no byte
    is lost.  [fields_spec]: [FieldsFunc] splits a string into its maximal runs. *)

From stdpp Require Import pretty.
From Stdlib Require Import Ascii.
From S2P Require Import Prelude.
Local Open Scope Z_scope.

(** ** Names that end in numbers *)

Definition noDash (s : string) : Prop := "-"%char ∉ String.list_ascii_of_string s.

Lemma append_cons c s t : String c s +:+ t = String c (s +:+ t).
Proof. done. Qed.
Lemma append_nil t : "" +:+ t = t.
Proof. done. Qed.

Lemma list_ascii_app s t :
  String.list_ascii_of_string (s +:+ t) = String.list_ascii_of_string s ++ String.list_ascii_of_string t.
Proof.
  induction s as [|c s IH]; [done|]. rewrite append_cons. cbn. by rewrite IH.
Qed.

(** A string is split in one way at its last dash. *)
Lemma last_dash s t s' t' :
  noDash t → noDash t' → s +:+ "-" +:+ t = s' +:+ "-" +:+ t' → s = s' ∧ t = t'.
Proof.
  intros Ht Ht'. revert s'. induction s as [|c s IH]; intros [|c' s']; rewrite ?append_cons, ?append_nil; intros [=]; subst.
  - done.
  - destruct Ht. unfold noDash. rewrite list_ascii_app. cbn. set_solver.
  - destruct Ht'. unfold noDash. rewrite list_ascii_app. cbn. set_solver.
  - by destruct (IH s') as [-> ->].
Qed.

Lemma noDash_go x s : noDash s → noDash (pretty_N_go x s).
Proof.
  revert s. induction (N.lt_wf_0 x) as [x _ IH]; intros s Hs.
  destruct (decide (x = 0)%N) as [->|Hx]; [done|]. rewrite pretty_N_go_step by lia.
  apply IH; [apply N.div_lt; lia|]. unfold noDash in *. cbn. intros [E|?]%elem_of_cons; [|done].
  unfold pretty_N_char in E. by repeat case_match.
Qed.

Lemma noDash_pretty (i : nat) : noDash (pretty i).
Proof.
  unfold pretty, pretty_nat, pretty, pretty_N. case_decide; [|by apply noDash_go, not_elem_of_nil].
  unfold noDash. cbn. set_solver.
Qed.

Lemma pretty_Z_nat (n : nat) : pretty (Z.of_nat n) = pretty n.
Proof. destruct n as [|n]; [by vm_compute|]. unfold pretty, pretty_Z, pretty_nat. reflexivity. Qed.

Lemma append_inj_r s t t' : s +:+ t = s +:+ t' → t = t'.
Proof. induction s as [|c s IH]; [done|]. rewrite !append_cons. intros [= H]. by apply IH. Qed.

(** ** Runes *)

Definition byteZ (c : ascii) : Z := Z.of_nat (nat_of_ascii c).
Definition RuneError : Z := 0xFFFD.

(** The bytes that may follow the first byte of an encoding, and how many there are. *)
Definition width (b0 : Z) : nat :=
  if b0 <? 0x80 then 1 else
  if (0xC2 <=? b0) && (b0 <=? 0xDF) then 2 else
  if (0xE0 <=? b0) && (b0 <=? 0xEF) then 3 else
  if (0xF0 <=? b0) && (b0 <=? 0xF4) then 4 else 0.
Definition secondLow (b0 : Z) : Z := if b0 =? 0xE0 then 0xA0 else if b0 =? 0xF0 then 0x90 else 0x80.
Definition secondHigh (b0 : Z) : Z := if b0 =? 0xED then 0x9F else if b0 =? 0xF4 then 0x8F else 0xBF.
Definition within (lo hi b : Z) : bool := (lo <=? b) && (b <=? hi).

(** The rune at the front, and its width. *)
Definition decodeRune (bs : list Z) : Z * nat :=
  match bs with
  | [] => (RuneError, 0%nat)
  | b0 :: rest =>
      let second := within (secondLow b0) (secondHigh b0) in
      let next := within 0x80 0xBF in
      match width b0, rest with
      | 1%nat, _ => (b0, 1%nat)
      | 2%nat, b1 :: _ => if next b1 then (b0 mod 32 * 64 + b1 mod 64, 2%nat) else (RuneError, 1%nat)
      | 3%nat, b1 :: b2 :: _ =>
          if second b1 && next b2 then (b0 mod 16 * 4096 + b1 mod 64 * 64 + b2 mod 64, 3%nat) else (RuneError, 1%nat)
      | 4%nat, b1 :: b2 :: b3 :: _ =>
          if second b1 && next b2 && next b3
          then (b0 mod 8 * 262144 + b1 mod 64 * 4096 + b2 mod 64 * 64 + b3 mod 64, 4%nat) else (RuneError, 1%nat)
      | _, _ => (RuneError, 1%nat)
      end
  end.

(** The encoding that RFC 3629 defines. *)
Definition encodeRune (r : Z) : list Z :=
  if r <? 0x80 then [r] else
  if r <? 0x800 then [0xC0 + r / 64; 0x80 + r mod 64] else
  if r <? 0x10000 then [0xE0 + r / 4096; 0x80 + r / 64 mod 64; 0x80 + r mod 64] else
  [0xF0 + r / 262144; 0x80 + r / 4096 mod 64; 0x80 + r / 64 mod 64; 0x80 + r mod 64].
Definition scalarValue (r : Z) : Prop := 0 <= r < 0xD800 ∨ 0xE000 <= r < 0x110000.

Lemma within_true lo hi b : within lo hi b = true ↔ lo <= b <= hi.
Proof. unfold within. rewrite andb_true_iff, !Z.leb_le. done. Qed.

(** [for _, r := range s]: the runes with their bytes; each turn takes at least one
    byte, so that the number of bytes is enough fuel. *)
Fixpoint runesLoop (fuel : nat) (s : list ascii) : list (Z * list ascii) :=
  match fuel, s with
  | S fuel', _ :: _ =>
      let '(r, w) := decodeRune (byteZ <$> s) in (r, take w s) :: runesLoop fuel' (drop w s)
  | _, _ => []
  end.
Definition runes (s : string) : list (Z * list ascii) :=
  let l := String.list_ascii_of_string s in runesLoop (length l) l.

(** A string after [Encode] and [Decode] of [encoding/json]: a byte that starts no valid
    encoding has become U+FFFD, everything else is as before. *)
Definition asciiOf (b : Z) : ascii := ascii_of_nat (Z.to_nat b).
Definition encoded (r : Z) : list ascii := asciiOf <$> encodeRune r.
Definition jsonString (s : string) : string :=
  String.string_of_list_ascii (concat ((λ x, encoded x.1) <$> runes s)).
Definition validUtf8 (s : string) : Prop := jsonString s = s.

(** ** Splitting *)

(** The loop of [strings.FieldsFunc]: [cur] is the word that [start] begins. *)
Fixpoint fieldsLoop (f : Z → bool) (cur : option (list ascii)) (l : list (Z * list ascii)) : list (list ascii) :=
  match l with
  | [] => match cur with Some w => [w] | None => [] end
  | (r, b) :: l =>
      if f r then match cur with Some w => w :: fieldsLoop f None l | None => fieldsLoop f None l end
      else fieldsLoop f (Some (default [] cur ++ b)) l
  end.
Definition FieldsFunc (f : Z → bool) (s : string) : list string :=
  String.string_of_list_ascii <$> fieldsLoop f None (runes s).

(** [strings.Join]. *)
Fixpoint Join (l : list string) (sep : string) : string :=
  match l with
  | [] => ""
  | [s] => s
  | s :: l => s +:+ sep +:+ Join l sep
  end.

(** [sort.Strings]: bytewise order. *)
Class StringSort := {
  sortStrings : list string → list string;
  sortStrings_perm l : sortStrings l ≡ₚ l;
  sortStrings_sorted l : StronglySorted String.le (sortStrings l);
}.

(** ** Decoding *)

Lemma width_spec b0 :
  (0xC2 <= b0 <= 0xDF → width b0 = 2%nat) ∧ (0xE0 <= b0 <= 0xEF → width b0 = 3%nat) ∧
  (0xF0 <= b0 <= 0xF4 → width b0 = 4%nat).
Proof. unfold width. split_and!; intros H; repeat case_match; try done; lia. Qed.

Lemma decode_encode r rest :
  scalarValue r → decodeRune (encodeRune r ++ rest) = (r, length (encodeRune r)).
Proof.
  unfold scalarValue. intros Hr. unfold encodeRune.
  destruct (Z.ltb_spec r 0x80) as [H1|H1]; [|destruct (Z.ltb_spec r 0x800) as [H2|H2];
    [|destruct (Z.ltb_spec r 0x10000) as [H3|H3]]]; cbn [app length decodeRune].
  - unfold width. by rewrite (proj2 (Z.ltb_lt r 0x80)).
  - rewrite (proj1 (width_spec _)) by (Z.to_euclidean_division_equations; lia).
    rewrite (proj2 (within_true _ _ _)) by (Z.to_euclidean_division_equations; lia).
    f_equal. Z.to_euclidean_division_equations; lia.
  - rewrite (proj1 (proj2 (width_spec _))) by (Z.to_euclidean_division_equations; lia).
    assert (0x80 + r / 64 mod 64 = 0x80 + r / 64 - r / 4096 * 64) as E1 by (Z.to_euclidean_division_equations; lia).
    rewrite !(proj2 (within_true _ _ _)).
    + cbn [andb]. f_equal. Z.to_euclidean_division_equations; lia.
    + Z.to_euclidean_division_equations; lia.
    + rewrite E1. unfold secondLow, secondHigh. repeat case_match; Z.to_euclidean_division_equations; lia.
  - rewrite (proj2 (proj2 (width_spec _))) by (Z.to_euclidean_division_equations; lia).
    assert (0x80 + r / 4096 mod 64 = 0x80 + r / 4096 - r / 262144 * 64) as E1 by (Z.to_euclidean_division_equations; lia).
    rewrite !(proj2 (within_true _ _ _)).
    + cbn [andb]. f_equal. Z.to_euclidean_division_equations; lia.
    + Z.to_euclidean_division_equations; lia.
    + Z.to_euclidean_division_equations; lia.
    + rewrite E1. unfold secondLow, secondHigh. repeat case_match; Z.to_euclidean_division_equations; lia.
Qed.

(** A rune takes at least one byte, and not more than there are. *)
Lemma decodeRune_width bs : bs ≠ [] → (1 <= (decodeRune bs).2 <= length bs)%nat.
Proof.
  destruct bs as [|b0 rest]; [done|]. intros _. cbn [decodeRune length].
  destruct (width b0) as [|[|[|[|[|k]]]]], rest as [|b1 [|b2 [|b3 rest]]]; cbn [length snd]; try (cbn; lia);
    case_match; cbn; lia.
Qed.

Lemma runesLoop_spec fuel s :
  (length s <= fuel)%nat → concat (runesLoop fuel s).*2 = s ∧ Forall (λ x, x.2 ≠ []) (runesLoop fuel s).
Proof.
  revert s. induction fuel as [|fuel IH]; intros s Hlen; [by destruct s; [|cbn in Hlen; lia]|].
  destruct s as [|c s]; [done|]. cbn [runesLoop].
  pose proof (decodeRune_width (byteZ <$> c :: s)) as Hw. destruct (decodeRune (byteZ <$> c :: s)) as [r w].
  rewrite length_fmap in Hw. cbn [snd] in Hw. specialize (Hw ltac:(done)).
  destruct (IH (drop w (c :: s))) as [E Hf]; [rewrite length_drop; cbn in *; lia|]. split.
  - rewrite fmap_cons. cbn [concat snd]. rewrite E. apply take_drop.
  - constructor; [|done]. cbn [snd]. destruct w; [lia|]. done.
Qed.

(** The runes of a string are its bytes, in order. *)
Lemma runes_bytes s : concat (runes s).*2 = String.list_ascii_of_string s ∧ Forall (λ x, x.2 ≠ []) (runes s).
Proof. by apply runesLoop_spec. Qed.

(** In a string of ASCII characters every byte is a rune. *)
Lemma runes_ascii s :
  (∀ c, c ∈ String.list_ascii_of_string s → byteZ c < 0x80) →
  runes s = (λ c, (byteZ c, [c])) <$> String.list_ascii_of_string s.
Proof.
  unfold runes. generalize (String.list_ascii_of_string s) as l. induction l as [|c l IH]; intros Hc; [done|].
  cbn [length runesLoop]. rewrite fmap_cons. cbn [decodeRune].
  assert (byteZ c < 0x80) as H by (apply Hc; by left). unfold width. rewrite (proj2 (Z.ltb_lt _ _) H).
  change (drop 1 (c :: l)) with l. rewrite IH; [done|]. intros x Hx. apply Hc. by right.
Qed.

(** ** Valid text *)

Lemma byteZ_range c : 0 <= byteZ c < 256.
Proof. unfold byteZ. pose proof (nat_ascii_bounded c). lia. Qed.

Lemma asciiOf_byteZ c : asciiOf (byteZ c) = c.
Proof. unfold asciiOf, byteZ. by rewrite Nat2Z.id, ascii_nat_embedding. Qed.

Lemma byteZ_asciiOf b : 0 <= b < 256 → byteZ (asciiOf b) = b.
Proof. intros Hb. unfold asciiOf, byteZ. rewrite nat_ascii_embedding; lia. Qed.

Lemma encodeRune_range r : scalarValue r → Forall (λ b, 0 <= b < 256) (encodeRune r).
Proof.
  unfold scalarValue, encodeRune. intros Hr.
  repeat case_match; repeat constructor; Z.to_euclidean_division_equations; lia.
Qed.

Lemma encodeRune_ne r : encodeRune r ≠ [].
Proof. unfold encodeRune. by repeat case_match. Qed.

(** The encodings of two, three and four bytes. *)
Lemma encode2 b0 b1 :
  0xC2 <= b0 <= 0xDF → 0x80 <= b1 <= 0xBF →
  let r := b0 mod 32 * 64 + b1 mod 64 in scalarValue r ∧ encodeRune r = [b0; b1].
Proof.
  intros H0 H1 r. subst r. unfold scalarValue, encodeRune.
  rewrite (proj2 (Z.ltb_ge _ 0x80)), (proj2 (Z.ltb_lt _ 0x800)) by (Z.to_euclidean_division_equations; lia).
  split; [|repeat f_equal]; Z.to_euclidean_division_equations; lia.
Qed.

Lemma encode3 b0 b1 b2 :
  0xE0 <= b0 <= 0xEF → secondLow b0 <= b1 <= secondHigh b0 → 0x80 <= b2 <= 0xBF →
  let r := b0 mod 16 * 4096 + b1 mod 64 * 64 + b2 mod 64 in scalarValue r ∧ encodeRune r = [b0; b1; b2].
Proof.
  intros H0 H1 H2 r. subst r. unfold secondLow, secondHigh in H1.
  assert (0x80 <= b1 <= 0xBF ∧ (b0 = 0xE0 → 0xA0 <= b1) ∧ (b0 = 0xED → b1 <= 0x9F)) as (Hr & Hlo & Hhi)
    by (repeat case_match; lia). clear H1. unfold scalarValue, encodeRune.
  rewrite (proj2 (Z.ltb_ge _ 0x80)), (proj2 (Z.ltb_ge _ 0x800)), (proj2 (Z.ltb_lt _ 0x10000))
    by (Z.to_euclidean_division_equations; lia).
  split; [|repeat f_equal]; Z.to_euclidean_division_equations; lia.
Qed.

Lemma encode4 b0 b1 b2 b3 :
  0xF0 <= b0 <= 0xF4 → secondLow b0 <= b1 <= secondHigh b0 → 0x80 <= b2 <= 0xBF → 0x80 <= b3 <= 0xBF →
  let r := b0 mod 8 * 262144 + b1 mod 64 * 4096 + b2 mod 64 * 64 + b3 mod 64 in
  scalarValue r ∧ encodeRune r = [b0; b1; b2; b3].
Proof.
  intros H0 H1 H2 H3 r. subst r. unfold secondLow, secondHigh in H1.
  assert (0x80 <= b1 <= 0xBF ∧ (b0 = 0xF0 → 0x90 <= b1) ∧ (b0 = 0xF4 → b1 <= 0x8F)) as (Hr & Hlo & Hhi)
    by (repeat case_match; lia). clear H1. unfold scalarValue, encodeRune.
  rewrite (proj2 (Z.ltb_ge _ 0x80)), (proj2 (Z.ltb_ge _ 0x800)), (proj2 (Z.ltb_ge _ 0x10000))
    by (Z.to_euclidean_division_equations; lia).
  split; [|repeat f_equal]; Z.to_euclidean_division_equations; lia.
Qed.

(** Decoding gives U+FFFD, or a scalar value whose encoding was there. *)
Lemma encode_decode b0 rest r w :
  0 <= b0 < 256 → decodeRune (b0 :: rest) = (r, w) →
  r = RuneError ∨ scalarValue r ∧ encodeRune r = take w (b0 :: rest).
Proof.
  intros H0. cbn [decodeRune]. unfold width. fold (within 0xC2 0xDF b0) (within 0xE0 0xEF b0) (within 0xF0 0xF4 b0).
  destruct (Z.ltb_spec b0 0x80) as [H1|H1].
  { intros [= <- <-]. right. unfold scalarValue, encodeRune. rewrite (proj2 (Z.ltb_lt b0 0x80)) by done. split; [lia|done]. }
  destruct (within 0xC2 0xDF b0) eqn:E2; [|destruct (within 0xE0 0xEF b0) eqn:E3; [|destruct (within 0xF0 0xF4 b0) eqn:E4]].
  - apply within_true in E2. destruct rest as [|b1 rest]; [by intros [= <- <-]; left|].
    destruct (within 0x80 0xBF b1) eqn:E; intros [= <- <-]; [|by left]. apply within_true in E. right. by apply encode2.
  - apply within_true in E3. destruct rest as [|b1 [|b2 rest]]; [by intros [= <- <-]; left..|].
    destruct (_ && _) eqn:E; intros [= <- <-]; [|by left].
    apply andb_true_iff in E as [Ha%within_true Hb%within_true]. right. by apply encode3.
  - apply within_true in E4. destruct rest as [|b1 [|b2 [|b3 rest]]]; [by intros [= <- <-]; left..|].
    destruct (_ && _ && _) eqn:E; intros [= <- <-]; [|by left].
    apply andb_true_iff in E as [[Ha%within_true Hb%within_true]%andb_true_iff Hc%within_true]. right. by apply encode4.
  - intros [= <- <-]. by left.
Qed.

(** The rune of a string is U+FFFD, or its bytes are its encoding. *)
Definition wellEncoded (x : Z * list ascii) : Prop := scalarValue x.1 ∧ encoded x.1 = x.2.

Lemma runesLoop_encoded fuel s : Forall (λ x, x.1 = RuneError ∨ wellEncoded x) (runesLoop fuel s).
Proof.
  revert s. induction fuel as [|fuel IH]; intros [|c s]; cbn [runesLoop]; [done..|].
  destruct (decodeRune (byteZ <$> c :: s)) as [r w] eqn:E. constructor; [|apply IH]. rewrite fmap_cons in E.
  destruct (encode_decode _ _ _ _ (byteZ_range c) E) as [?|[Hs He]]; [by left|right]. split; [done|].
  unfold encoded. cbn [fst snd]. rewrite He, <- fmap_cons, fmap_take, <- list_fmap_compose. f_equal.
  rewrite (list_fmap_ext _ id); [apply list_fmap_id|]. intros i x _. apply asciiOf_byteZ.
Qed.

(** Encoded scalar values are read back. *)
Lemma runesLoop_concat rs fuel :
  Forall scalarValue rs → (length (concat (encoded <$> rs)) <= fuel)%nat →
  runesLoop fuel (concat (encoded <$> rs)) = (λ r, (r, encoded r)) <$> rs.
Proof.
  intros Hrs. revert fuel. induction Hrs as [|r rs Hr Hrs IH]; intros fuel Hlen; [by destruct fuel|].
  rewrite fmap_cons in *. cbn [concat] in *. rewrite length_app in Hlen.
  assert (length (encoded r) ≠ 0%nat) as Hne.
  { unfold encoded. rewrite length_fmap. pose proof (encodeRune_ne r). by destruct (encodeRune r). }
  assert (byteZ <$> encoded r = encodeRune r) as Hback.
  { unfold encoded. rewrite <- list_fmap_compose. pose proof (encodeRune_range r Hr) as Hf.
    induction Hf as [|b l Hb _ IHl]; [done|]. rewrite fmap_cons, IHl. cbn. by rewrite byteZ_asciiOf. }
  destruct fuel as [|fuel]; [lia|].
  destruct (encoded r ++ concat (encoded <$> rs)) as [|c l] eqn:E.
  { apply app_eq_nil in E as [E _]. by rewrite E in Hne. }
  cbn [runesLoop]. rewrite <- E, fmap_app, Hback, decode_encode by done.
  replace (length (encodeRune r)) with (length (encoded r)) by (unfold encoded; by rewrite length_fmap).
  rewrite take_app_length, drop_app_length, IH by lia. done.
Qed.

Lemma encoded_valid l : Forall wellEncoded l → validUtf8 (String.string_of_list_ascii (concat l.*2)).
Proof.
  intros Hl. unfold validUtf8, jsonString, runes. rewrite String.list_ascii_of_string_of_list_ascii.
  assert (l.*2 = encoded <$> l.*1) as ->.
  { induction Hl as [|x l [_ Hx] _ IH]; [done|]. rewrite !fmap_cons, IH. by f_equal. }
  rewrite runesLoop_concat; [|by induction Hl as [|x l [Hx _] _ IH]; constructor|done].
  by rewrite <- list_fmap_compose.
Qed.

(** ** Maximal runs *)

(** [ws] are the maximal runs of runes that do not satisfy [f]. *)
Inductive fieldsOf (f : Z → bool) : list (Z * list ascii) → list (list ascii) → Prop :=
  | fo_end seps : Forall (λ x, f x.1 = true) seps → fieldsOf f seps []
  | fo_word seps w rest ws :
      Forall (λ x, f x.1 = true) seps → w ≠ [] → Forall (λ x, f x.1 = false) w →
      (∀ x rest', rest = x :: rest' → f x.1 = true) → fieldsOf f rest ws →
      fieldsOf f (seps ++ w ++ rest) (concat w.*2 :: ws).

Lemma fieldsLoop_seps f seps l :
  Forall (λ x, f x.1 = true) seps → fieldsLoop f None (seps ++ l) = fieldsLoop f None l.
Proof. induction 1 as [|[r b] seps Hx _ IH]; [done|]. cbn in *. by rewrite Hx. Qed.

Lemma fieldsLoop_word f w l cur :
  w ≠ [] → Forall (λ x, f x.1 = false) w →
  fieldsLoop f cur (w ++ l) = fieldsLoop f (Some (default [] cur ++ concat w.*2)) l.
Proof.
  intros Hne Hw. revert cur Hne. induction Hw as [|[r b] w Hx Hw IH]; intros cur Hne; [done|]. cbn in Hx |- *. rewrite Hx.
  destruct w as [|y w]; [cbn; by rewrite app_nil_r|]. rewrite IH by done. cbn. by rewrite <- (assoc_L (++)).
Qed.

Lemma fieldsLoop_stop f w l :
  (∀ x l', l = x :: l' → f x.1 = true) → fieldsLoop f (Some w) l = w :: fieldsLoop f None l.
Proof. destruct l as [|[r b] l]; intros H; [done|]. cbn. by rewrite (H (r, b) l eq_refl : f r = true). Qed.

Lemma fieldsOf_total f l : ∃ ws, fieldsOf f l ws.
Proof.
  induction l as [|x l [ws IH]]; [exists []; by constructor|].
  destruct (f x.1) eqn:Hx; destruct IH as [seps Hs|seps w rest ws Hs Hne Hw Hrest IH].
  - exists []. constructor. by constructor.
  - exists (concat w.*2 :: ws). apply (fo_word f (x :: seps)); try done. by constructor.
  - exists [concat [x].*2]. apply (fo_word f [] [x]); try done; [by constructor| |by constructor].
    intros y l' ->. by inversion Hs.
  - destruct seps as [|y seps].
    + exists (concat (x :: w).*2 :: ws). apply (fo_word f [] (x :: w)); try done. by constructor.
    + exists (concat [x].*2 :: concat w.*2 :: ws). apply (fo_word f [] [x] ((y :: seps) ++ w ++ rest)); try done.
      * by constructor.
      * intros z l' [= -> _]. by inversion Hs.
      * by apply fo_word.
Qed.

(** The loop finds the maximal runs, and there is only one way to cut the string. *)
Lemma fields_spec f l ws : fieldsOf f l ws ↔ ws = fieldsLoop f None l.
Proof.
  assert (∀ l ws, fieldsOf f l ws → ws = fieldsLoop f None l) as Hdet.
  { clear l ws. induction 1 as [seps Hs|seps w rest ws Hs Hne Hw Hrest Hf IH].
    - rewrite <- (app_nil_r seps), fieldsLoop_seps by done. done.
    - rewrite fieldsLoop_seps, fieldsLoop_word, fieldsLoop_stop by done. by rewrite IH. }
  split; [apply Hdet|]. intros ->. destruct (fieldsOf_total f l) as [ws H]. by rewrite <- (Hdet _ _ H).
Qed.

(** The words are valid text when an invalid byte separates words. *)
Lemma FieldsFunc_valid f s w : f RuneError = true → w ∈ FieldsFunc f s → validUtf8 w.
Proof.
  intros Hf (bs & -> & Hbs)%list_elem_of_fmap. revert bs Hbs. rewrite <- list.Forall_forall.
  assert (Forall (λ x, x.1 = RuneError ∨ wellEncoded x) (runes s)) as Hall by apply runesLoop_encoded.
  pose proof (proj2 (fields_spec f (runes s) _) eq_refl) as Hfo. revert Hall.
  induction Hfo as [seps Hs|seps v rest ws Hs Hne Hv Hrest Hfo IH]; intros Hall; [constructor|].
  apply Forall_app in Hall as [_ [Hv' Hrest']%Forall_app]. constructor; [|by apply IH].
  apply encoded_valid, list.Forall_forall. intros x Hx. rewrite list.Forall_forall in Hv, Hv'.
  destruct (Hv' x Hx) as [E|?]; [|done]. specialize (Hv x Hx). cbn in Hv. rewrite E in Hv. congruence.
Qed.

(** ** Sorted strings *)

#[export] Instance sortStrings_proper {SS : StringSort} : Proper ((≡ₚ) ==> (=)) sortStrings.
Proof.
  intros l1 l2 H. apply (StronglySorted_unique String.le); [apply sortStrings_sorted..|].
  by rewrite !sortStrings_perm.
Qed.

Definition mergeStrings : StringSort := {|
  sortStrings := merge_sort String.le;
  sortStrings_perm l := merge_sort_Permutation String.le l;
  sortStrings_sorted l := StronglySorted_merge_sort String.le l |}.
