(* ===== verification/Labgob.v ===== *)
(** * Labgob: the encoder and decoder of [src/src/labgob/labgob.go]

    [LabEncoder.Encode] appends one gob message to a buffer and
    [LabDecoder.Decode] reads the next one, failing at the end of the buffer
    or when the message does not have the type of the destination.  A buffer
    is therefore the list of the messages written to it; [V] is the type of
    the messages a package writes, and [GobType V T] says how a Go value of
    type [T] is one of them.  The warnings of [checkValue] and [checkDefault]
    do not influence the data and are left out. *)

From S2P Require Import Prelude.

(** What [encoding/gob] promises for a type [T]: a decoded message gives the
    encoded value back. *)
Class GobType (V T : Type) := {
  gob_inj : T → V;
  gob_prj : V → option T;
  gob_prj_inj : ∀ t, gob_prj (gob_inj t) = Some t;
}.

(** How many bytes [encoding/gob] uses for a message: at least one. *)
Class GobSize (V : Type) := {
  gob_size : V → Z;
  gob_size_pos : ∀ v, (0 < gob_size v)%Z;
}.

Section codec.
Context {V T : Type} `{!GobType V T}.

(** [enc.Encode(e)] on a [bytes.Buffer]. *)
Definition Encode (e : T) (w : list V) : list V := w ++ [gob_inj e].

(** [dec.Decode(&e)]: [None] is a non-nil error. *)
Definition Decode (r : list V) : option (T * list V) :=
  match r with
  | [] => None
  | v :: r' => e ← gob_prj v; Some (e, r')
  end.

Lemma Decode_Encode_cons (e : T) (r : list V) :
  Decode (gob_inj e :: r) = Some (e, r).
Proof. cbn. by rewrite gob_prj_inj. Qed.

(** A sequence of values, each its own message. *)
Definition EncodeAll (es : list T) (w : list V) : list V :=
  foldl (λ w e, Encode e w) w es.

Fixpoint DecodeN (n : nat) (r : list V) : option (list T * list V) :=
  match n with
  | O => Some ([], r)
  | S n' => '(e, r1) ← Decode r; '(es, r2) ← DecodeN n' r1; Some (e :: es, r2)
  end.

Lemma EncodeAll_app es w : EncodeAll es w = w ++ (gob_inj <$> es).
Proof.
  revert w. induction es as [|e es IH]; intros w.
  - cbn. by rewrite app_nil_r.
  - change (EncodeAll es (Encode e w) = w ++ (gob_inj <$> e :: es)).
    rewrite IH. unfold Encode. by rewrite <- app_assoc.
Qed.

Lemma DecodeN_EncodeAll es r :
  DecodeN (length es) ((gob_inj <$> es) ++ r) = Some (es, r).
Proof.
  induction es as [|e es IH]; [done|]. cbn. by rewrite gob_prj_inj; cbn; rewrite IH.
Qed.
End codec.

(** The number of bytes in a buffer. *)
Fixpoint buffer_size {V} `{!GobSize V} (b : list V) : Z :=
  match b with
  | [] => 0
  | v :: b' => gob_size v + buffer_size b'
  end.

Lemma buffer_size_nonneg {V} `{!GobSize V} (b : list V) : (0 <= buffer_size b)%Z.
Proof.
  induction b as [|v b IH]; cbn; [done|]. pose proof (gob_size_pos v). lia.
Qed.

Lemma buffer_size_zero {V} `{!GobSize V} (b : list V) :
  buffer_size b = 0%Z ↔ b = [].
Proof.
  split; [|by intros ->]. destruct b as [|v b]; [done|]. cbn.
  pose proof (gob_size_pos v). pose proof (buffer_size_nonneg b). lia.
Qed.
