(* ===== verification/LabgobCheck.v ===== *)
(** * LabgobCheck: the checks of [src/src/labgob/labgob.go]

    [checkType] walks over the types a value consists of and complains about
    fields with lower-case names, which gob does not send; [checkDefault] walks
    over a value and complains about values other than the default, which gob
    does not overwrite.  [reflect.Type]s are numbers: [types] says what each is
    made of and may be cyclic.  [isUpper] is [unicode.IsUpper] of the first
    rune of a name.  A pointer is an address of [heap], so values may be cyclic
    too.

    [check_type_exact]: the walk over types ends, visits exactly the types that
    can be reached, each once, and counts their lower-case fields.
    [check_default_exact]: the walk over a value ends, counts nothing exactly
    if what can be reached in two steps has its default value, and warns only
    if nothing was counted before. *)

From S2P Require Import Prelude.
Local Open Scope Z_scope.

Inductive TypeDesc :=
  | TStruct (fields : list (string * nat))
  | TElem (elem : nat)
  | TMap (key elem : nat)
  | TBasic.

(** The package's variables, [checked] with the latest type first, and the
    names it complained about. *)
Record Checks := mkChecks { checked : list nat; errorCount : Z; printed : list string }.

(** ** [checkType] *)

Section types.
Context (types : list TypeDesc) (isUpper : string → bool).
Implicit Types (t : nat) (st : Checks).

Definition complain (name : string) st : Checks :=
  if isUpper name then st
  else mkChecks (checked st) (errorCount st + 1) (printed st ++ [name]).

(** The loop over the fields of a struct. *)
Fixpoint fieldsLoop (checkType : nat → Checks → outcome Checks)
    (fields : list (string * nat)) st : outcome Checks :=
  match fields with
  | [] => Ret st
  | f :: fields => st ← checkType f.2 (complain f.1 st); fieldsLoop checkType fields st
  end.

(** [fuel] bounds the depth of the recursion; a type that is not described
    panics. *)
Fixpoint checkType (fuel t : nat) st : outcome Checks :=
  match fuel with
  | O => Block
  | S fuel =>
      if decide (t ∈ checked st) then Ret st else
      let st := mkChecks (t :: checked st) (errorCount st) (printed st) in
      match types !! t with
      | None => Panic
      | Some (TStruct fields) => fieldsLoop (checkType fuel) fields st
      | Some (TElem elem) => checkType fuel elem st
      | Some (TMap key elem) => st ← checkType fuel elem st; checkType fuel key st
      | Some TBasic => Ret st
      end
  end.

(** ** What it computes *)

Definition successors t : list nat :=
  match types !! t with
  | Some (TStruct fields) => fields.*2
  | Some (TElem elem) => [elem]
  | Some (TMap key elem) => [elem; key]
  | _ => []
  end.

Definition lowerIn (fields : list (string * nat)) : Z :=
  zlen (filter (λ f, isUpper f.1 = false) fields).

Definition lowerFields t : Z :=
  match types !! t with
  | Some (TStruct fields) => lowerIn fields
  | _ => 0
  end.

Definition sumLower (ts : list nat) : Z := foldr (λ t n, lowerFields t + n) 0 ts.

Definition edge t u : Prop := u ∈ successors t.

(** Every type that is mentioned is described. *)
Definition closedTypes : Prop :=
  ∀ t u, (t < length types)%nat → edge t u → (u < length types)%nat.

(** The state between two calls: the types below a checked one are checked. *)
Definition settled st : Prop :=
  NoDup (checked st) ∧ ∀ t u, t ∈ checked st → edge t u → u ∈ checked st.

(** The types still to be visited. *)
Definition unvisited st : nat := length (filter (λ t, t ∉ checked st) (seq 0 (length types))).

(** What a walk from the types [ts] does. *)
Definition walked (ts : list nat) st (extra : Z) st' : Prop := ∃ new,
  checked st' = new ++ checked st ∧ NoDup (checked st') ∧
  errorCount st' = errorCount st + extra + sumLower new ∧
  (∀ u, u ∈ new → ∃ t, t ∈ ts ∧ rtc edge t u) ∧
  (∀ u v, u ∈ new → edge u v → v ∈ checked st') ∧
  (∀ t, t ∈ ts → t ∈ checked st').

Lemma sumLower_app ts us : sumLower (ts ++ us) = sumLower ts + sumLower us.
Proof. induction ts; simpl; lia. Qed.

Lemma walked_refl ts st :
  NoDup (checked st) → (∀ t, t ∈ ts → t ∈ checked st) → walked ts st 0 st.
Proof.
  intros Hnd Hin. exists []. split_and!; [done..|simpl; lia| | |done]; set_solver.
Qed.

Lemma walked_trans ts us st1 e1 st2 e2 st3 :
  walked ts st1 e1 st2 → walked us st2 e2 st3 → walked (ts ++ us) st1 (e1 + e2) st3.
Proof.
  intros (n1 & H1 & N1 & E1 & R1 & C1 & I1) (n2 & H2 & N2 & E2 & R2 & C2 & I2).
  exists (n2 ++ n1). rewrite sumLower_app.
  assert (∀ u, u ∈ checked st2 → u ∈ checked st3) as Hsub by (rewrite H2; set_solver).
  split; [by rewrite H2, H1, (assoc_L (++))|]. split; [done|]. split; [lia|]. split_and!.
  - intros u [(t & ? & ?)%R2|(t & ? & ?)%R1]%elem_of_app; exists t; set_solver.
  - intros u v [Hu|Hu]%elem_of_app He; [by eapply C2|]. by eapply Hsub, C1.
  - intros t [Ht|Ht]%elem_of_app; auto.
Qed.

(** A complaint is part of what the walk counts. *)
Lemma walked_complain ts name st e st' :
  walked ts (complain name st) e st' →
  walked ts st ((if isUpper name then 0 else 1) + e) st'.
Proof.
  unfold complain. destruct (isUpper name); [done|].
  intros (new & ? & ? & Hc & Hr). exists new. split_and!; try done; try apply Hr.
  simpl in Hc. lia.
Qed.

(** Visiting a type and walking on from its successors. *)
Lemma walked_visit t st st' :
  walked (successors t) (mkChecks (t :: checked st) (errorCount st) (printed st))
    (lowerFields t) st' →
  walked [t] st 0 st'.
Proof.
  intros (new & H1 & N1 & E1 & R1 & C1 & I1). simpl in *.
  exists (new ++ [t]). rewrite sumLower_app. simpl.
  split_and!; [by rewrite H1, <-(assoc_L (++))|done|lia|..].
  - intros u [Hu| ->%list_elem_of_singleton]%elem_of_app.
    + destruct (R1 u Hu) as (x & Hx & ?). exists t. split; [set_solver|].
      by eapply rtc_l.
    + exists t. split; [set_solver|done].
  - intros u v [Hu| ->%list_elem_of_singleton]%elem_of_app; [by apply C1|apply I1].
  - intros u ->%list_elem_of_singleton. rewrite H1. set_solver.
Qed.

Lemma unvisited_mono st st' :
  (∀ t, t ∈ checked st → t ∈ checked st') → (unvisited st' ≤ unvisited st)%nat.
Proof.
  intros Hsub. unfold unvisited. generalize (seq 0 (length types)).
  intros l. induction l as [|x l IH]; [done|]. rewrite !filter_cons.
  repeat case_decide; simpl; try lia. naive_solver.
Qed.

Lemma unvisited_visit t st n ps :
  t ∉ checked st → (t < length types)%nat →
  (unvisited (mkChecks (t :: checked st) n ps) < unvisited st)%nat.
Proof.
  intros Hn Hlt. unfold unvisited. simpl.
  assert (t ∈ seq 0 (length types)) as Hin by (apply elem_of_seq; lia).
  revert Hin. generalize (seq 0 (length types)). intros l.
  induction l as [|x l IH]; [by rewrite elem_of_nil|]. rewrite !filter_cons.
  assert (length (filter (λ u, u ∉ t :: checked st) l)
          ≤ length (filter (λ u, u ∉ checked st) l))%nat as Hle.
  { clear. induction l as [|y l IH]; [done|]. rewrite !filter_cons.
    repeat case_decide; simpl; try lia. set_solver. }
  intros [<-|Hin]%elem_of_cons.
  - rewrite decide_False by set_solver. rewrite decide_True by done. simpl. lia.
  - specialize (IH Hin). repeat case_decide; simpl; try lia. set_solver.
Qed.

Lemma walked_unvisited ts st e st' : walked ts st e st' → (unvisited st' ≤ unvisited st)%nat.
Proof.
  intros (new & Hc & _). apply unvisited_mono. intros t Ht. rewrite Hc. set_solver.
Qed.

Lemma complain_checked name st : checked (complain name st) = checked st.
Proof. unfold complain. by destruct (isUpper name). Qed.

Lemma lowerIn_cons f fields :
  lowerIn (f :: fields) = (if isUpper f.1 then 0 else 1) + lowerIn fields.
Proof.
  unfold lowerIn, zlen. rewrite filter_cons.
  destruct (isUpper f.1); case_decide; simpl; try done; lia.
Qed.

(** The loop over the fields, for any walk that ends on few enough types. *)
Lemma fieldsLoop_spec walk bound fields st :
  (∀ t st, (t < length types)%nat → NoDup (checked st) → (unvisited st < bound)%nat →
     ∃ st', walk t st = Ret st' ∧ walked [t] st 0 st') →
  (∀ t, t ∈ fields.*2 → (t < length types)%nat) →
  NoDup (checked st) → (unvisited st < bound)%nat →
  ∃ st', fieldsLoop walk fields st = Ret st' ∧ walked (fields.*2) st (lowerIn fields) st'.
Proof.
  intros Hwalk. revert st. induction fields as [|f fields IH]; intros st Hin Hnd Hb; simpl.
  { exists st. split; [done|]. apply walked_refl; [done|]. intros ?. by rewrite elem_of_nil. }
  destruct (Hwalk f.2 (complain f.1 st)) as (st1 & -> & Hw1); simpl in *.
  { set_solver. } { by rewrite complain_checked. }
  { unfold unvisited. by rewrite complain_checked. }
  apply walked_complain in Hw1.
  assert (NoDup (checked st1)) by (by destruct Hw1 as (?&?&?&_)).
  pose proof (walked_unvisited _ _ _ _ Hw1).
  destruct (IH st1) as (st2 & Heq & Hw2); [set_solver|done|lia|].
  exists st2. split; [done|]. rewrite lowerIn_cons.
  replace (_ + lowerIn fields) with ((if isUpper f.1 then 0 else 1) + 0 + lowerIn fields) by lia.
  by apply (walked_trans [f.2] _ _ _ st1).
Qed.

Hypothesis Hclosed : closedTypes.

Lemma checkType_walked fuel t st :
  (t < length types)%nat → NoDup (checked st) → (unvisited st < fuel)%nat →
  ∃ st', checkType fuel t st = Ret st' ∧ walked [t] st 0 st'.
Proof.
  revert t st. induction fuel as [|fuel IH]; intros t st Hlt Hnd Hf; [lia|]. simpl.
  destruct (decide (t ∈ checked st)) as [Hin|Hn].
  { exists st. split; [done|]. apply walked_refl; [done|]. intros u. set_solver. }
  destruct (lookup_lt_is_Some_2 types t Hlt) as [d Hd]. rewrite Hd.
  pose proof (unvisited_visit t st (errorCount st) (printed st) Hn Hlt) as Hless.
  set (st1 := mkChecks (t :: checked st) (errorCount st) (printed st)) in *.
  assert (NoDup (checked st1)) as Hnd1 by (by apply NoDup_cons).
  assert (∀ u, u ∈ successors t → (u < length types)%nat) as Hs
    by (intros u; by apply Hclosed).
  enough (∃ st', _ = Ret st' ∧ walked (successors t) st1 (lowerFields t) st')
    as (st' & Heq & Hw) by (exists st'; split; [exact Heq|by apply walked_visit]).
  unfold successors, lowerFields in *. rewrite Hd in *.
  destruct d as [fields|elem|key elem|].
  - apply (fieldsLoop_spec _ fuel); auto with lia.
  - apply IH; [|done|lia]. set_solver.
  - destruct (IH elem st1) as (st2 & -> & Hw1); [set_solver|done|lia|].
    assert (NoDup (checked st2)) by (by destruct Hw1 as (?&?&?&_)).
    pose proof (walked_unvisited _ _ _ _ Hw1). simpl.
    destruct (IH key st2) as (st3 & Heq & Hw2); [set_solver|done|lia|].
    exists st3. split; [done|]. by apply (walked_trans [elem] [key] _ 0 st2 0).
  - exists st1. split; [done|]. apply walked_refl; [done|].
    intros u. by rewrite elem_of_nil.
Qed.

(** C40. With as much fuel as there are types and one more, [checkType] returns;
    the types it adds to [checked] are those that can be reached from [t],
    none is there twice, and [errorCount] grows by the number of lower-case
    fields of the types that are new. *)
Theorem check_type_exact t st :
  (t < length types)%nat → settled st →
  ∃ st', checkType (S (length types)) t st = Ret st' ∧ settled st' ∧
    (∀ u, u ∈ checked st' ↔ u ∈ checked st ∨ rtc edge t u) ∧
    errorCount st' = errorCount st + sumLower (checked st') - sumLower (checked st).
Proof.
  intros Hlt [Hnd Hcl].
  assert (unvisited st < S (length types))%nat.
  { apply Nat.lt_succ_r. etrans; [apply length_filter|]. by rewrite length_seq. }
  destruct (checkType_walked (S (length types)) t st)
    as (st' & Heq & new & Hc & Hnd' & He & Hr & Hs & Hroot); [done..|].
  assert (∀ u v, u ∈ checked st' → edge u v → v ∈ checked st') as Hcl'.
  { intros u v Hu Huv. rewrite Hc in Hu. apply elem_of_app in Hu as [Hu|Hu]; [by eapply Hs|].
    rewrite Hc. apply elem_of_app. right. by eapply Hcl. }
  exists st'. split; [done|]. split; [done|]. split.
  - intros u. split.
    + rewrite Hc. intros [Hu|Hu]%elem_of_app; [|by left].
      destruct (Hr u Hu) as (x & ->%list_elem_of_singleton & ?). by right.
    + intros [Hu|Hu]; [rewrite Hc; set_solver|].
      assert (t ∈ checked st') as Ht by (apply Hroot; set_solver).
      clear -Hu Ht Hcl'. induction Hu; [done|]. eauto.
  - rewrite He, Hc, sumLower_app. lia.
Qed.
End types.

(** ** [checkDefault] *)

(** A [reflect.Value]: a basic value is its type's name and whether it is the
    type's zero value; slices, maps and the like are not looked into. *)
#[warnings="-register-all"]
Inductive Value :=
  | VStruct (fields : list (string * Value))
  | VPtr (elem : option nat)
  | VBasic (tname : string) (isZero : bool)
  | VOther.

Section values.
Context (heap : nat → Value).
Implicit Types (v : Value) (st : Checks) (name : string).

Definition fieldName name field : string :=
  if decide (name = "") then field else name +:+ "." +:+ field.

(** A value other than the default was found. *)
Definition nonDefault (tname name : string) st : Checks :=
  mkChecks (checked st) (errorCount st + 1)
    (if errorCount st <? 1
     then printed st ++ [if decide (name = "") then tname else name] else printed st).

Fixpoint defaultFields (walk : Value → string → Checks → outcome Checks) name
    (fields : list (string * Value)) st : outcome Checks :=
  match fields with
  | [] => Ret st
  | f :: fields =>
      st ← walk f.2 (fieldName name f.1) st; defaultFields walk name fields st
  end.

Fixpoint checkDefault1 (fuel : nat) v (depth : Z) name st : outcome Checks :=
  match fuel with
  | O => Block
  | S fuel =>
      if 3 <? depth then Ret st else
      match v with
      | VStruct fields =>
          defaultFields (λ v, checkDefault1 fuel v (depth + 1)) name fields st
      | VPtr None => Ret st
      | VPtr (Some elem) => checkDefault1 fuel (heap elem) (depth + 1) name st
      | VBasic tname isZero => Ret (if isZero then st else nonDefault tname name st)
      | VOther => Ret st
      end
  end.

(** [None] is a nil interface.  Four levels are all it looks at. *)
Definition checkDefault (value : option Value) st : outcome Checks :=
  match value with
  | None => Ret st
  | Some v => checkDefault1 4 v 1 "" st
  end.

(** ** What it computes *)

(** [w] is a field of [v] or what [v] points to. *)
Inductive part : Value → Value → Prop :=
  | part_field fields f : f ∈ fields → part (VStruct fields) f.2
  | part_elem a : part (VPtr (Some a)) (heap a).

(** Every basic value at most [n] parts below [v] is the zero value. *)
Definition defaultBelow (n : nat) v : Prop :=
  ∀ k tname isZero, (k ≤ n)%nat → nsteps part k v (VBasic tname isZero) → isZero = true.

(** What a walk does, whether or not it finds what it looks for. *)
Definition counted (clean : Prop) st st' : Prop :=
  checked st' = checked st ∧ errorCount st ≤ errorCount st' ∧
  (errorCount st' = errorCount st ↔ clean) ∧
  (errorCount st' = errorCount st → st' = st) ∧
  (1 ≤ errorCount st → printed st' = printed st) ∧
  (errorCount st < errorCount st' → errorCount st = 0 →
   ∃ what, printed st' = printed st ++ [what]).

Lemma counted_refl (clean : Prop) st : clean → counted clean st st.
Proof. intros. unfold counted. split_and!; try done. lia. Qed.

Lemma counted_trans c1 c2 st1 st2 st3 :
  0 ≤ errorCount st1 →
  counted c1 st1 st2 → counted c2 st2 st3 → counted (c1 ∧ c2) st1 st3.
Proof.
  intros H0 (A1 & A2 & A3 & A4 & A5 & A6) (B1 & B2 & B3 & B4 & B5 & B6).
  unfold counted. split_and!; [congruence|lia| | | |].
  - split; [intros; split; [apply A3; lia|apply B3; lia]|].
    intros [?%A3 ?%B3]. lia.
  - intros. rewrite B4, A4 by lia. done.
  - intros. rewrite B5, A5 by lia. done.
  - intros Hlt Hz. destruct (decide (errorCount st2 = errorCount st1)) as [He|He].
    + rewrite (A4 He) in *. apply B6; lia.
    + rewrite B5 by lia. apply A6; lia.
Qed.

Lemma counted_iff c1 c2 st st' : (c1 ↔ c2) → counted c1 st st' → counted c2 st st'.
Proof. intros Hc (A1 & A2 & A3 & A). unfold counted. rewrite <-Hc. done. Qed.

Lemma defaultFields_counted (walk : Value → string → Checks → outcome Checks)
    (clean : Value → Prop) name fields st :
  (∀ v name st, 0 ≤ errorCount st →
     ∃ st', walk v name st = Ret st' ∧ counted (clean v) st st') →
  0 ≤ errorCount st →
  ∃ st', defaultFields walk name fields st = Ret st' ∧
    counted (∀ f, f ∈ fields → clean f.2) st st'.
Proof.
  intros Hw. revert st. induction fields as [|f fields IH]; intros st H0; simpl.
  { exists st. split; [done|]. apply counted_refl. intros f. by rewrite elem_of_nil. }
  destruct (Hw f.2 (fieldName name f.1) st H0) as (st1 & -> & Hc1). simpl.
  destruct (IH st1) as (st2 & -> & Hc2); [destruct Hc1 as (_ & ? & _); lia|].
  exists st2. split; [done|].
  eapply counted_iff; [|by eapply counted_trans]. set_solver.
Qed.

(** [k] levels of a value are looked at. *)
Definition cleanAt (k : nat) v : Prop :=
  match k with O => True | S n => defaultBelow n v end.

(** A value that is not basic is default if its parts are. *)
Lemma cleanAt_parts k v :
  (∀ tname z, v ≠ VBasic tname z) →
  cleanAt (S k) v ↔ ∀ w, part v w → cleanAt k w.
Proof.
  intros Hv. simpl. split.
  - intros Hd w Hw. destruct k as [|n]; [done|]. intros k tname z Hk Hs.
    apply (Hd (S k) tname); [lia|]. by econstructor.
  - intros Hd k' tname z Hk Hs. destruct k' as [|k']; inversion Hs; subst.
    { by destruct (Hv tname z). }
    destruct k as [|n]; [lia|]. eapply Hd; [done| |done]. lia.
Qed.

Lemma cleanAt_basic k tname z : cleanAt (S k) (VBasic tname z) ↔ z = true.
Proof.
  simpl. split; [intros Hd; apply (Hd 0%nat tname); [lia|constructor]|].
  intros -> k' tname' z' _ Hs. destruct k'; inversion Hs as [|???? Hp]; [by subst|].
  inversion Hp.
Qed.

Lemma nonDefault_counted tname name st :
  counted False st (nonDefault tname name st).
Proof.
  unfold counted, nonDefault. simpl. split_and!; [done|lia|lia|lia| |].
  - intros. by rewrite (proj2 (Z.ltb_ge _ _)) by lia.
  - intros _ ->. simpl. eauto.
Qed.

Lemma checkDefault1_counted k v name st :
  0 ≤ errorCount st →
  ∃ st', checkDefault1 (S k) v (4 - Z.of_nat k) name st = Ret st' ∧ counted (cleanAt k v) st st'.
Proof.
  revert v name st. induction k as [|k IH]; intros v name st H0.
  { exists st. split; [done|]. by apply counted_refl. }
  remember (S k) as fuel. simpl. rewrite (proj2 (Z.ltb_ge _ _)) by lia. subst fuel.
  replace (4 - Z.of_nat (S k) + 1) with (4 - Z.of_nat k) by lia.
  destruct v as [fields|[a|]|tname z|].
  - destruct (defaultFields_counted (λ v, checkDefault1 (S k) v (4 - Z.of_nat k))
      (cleanAt k) name fields st) as (st' & Heq & Hc); [done..|].
    exists st'. split; [done|]. eapply counted_iff; [|done].
    rewrite cleanAt_parts by done. split.
    + intros Hf w Hw. inversion Hw; subst. by apply Hf.
    + intros Hp f Hf. by apply Hp, part_field.
  - destruct (IH (heap a) name st H0) as (st' & Heq & Hc).
    exists st'. split; [done|]. eapply counted_iff; [|done].
    rewrite cleanAt_parts by done. split.
    + intros Ha w Hw. by inversion Hw.
    + intros Hp. by apply Hp, part_elem.
  - exists st. split; [done|]. apply counted_refl, cleanAt_parts; [done|].
    intros w Hw. inversion Hw.
  - eexists. split; [done|]. eapply counted_iff; [symmetry; apply cleanAt_basic|].
    destruct z; [by apply counted_refl|].
    eapply counted_iff; [|apply nonDefault_counted]. by split.
  - exists st. split; [done|]. apply counted_refl, cleanAt_parts; [done|].
    intros w Hw. inversion Hw.
Qed.

(** [checkDefault] returns for every value, cyclic ones too, and leaves the
    checked types alone.  The count stays the same exactly if every basic
    value at most two fields or pointers away is its type's zero value; a
    warning is printed only by the first walk that finds something, and only
    one. *)
Theorem check_default_exact v st :
  0 ≤ errorCount st →
  ∃ st', checkDefault (Some v) st = Ret st' ∧ checked st' = checked st ∧
    errorCount st ≤ errorCount st' ∧
    (errorCount st' = errorCount st ↔ defaultBelow 2 v) ∧
    (printed st' = printed st ∨
     errorCount st = 0 ∧ ¬ defaultBelow 2 v ∧ ∃ what, printed st' = printed st ++ [what]).
Proof.
  intros H0. destruct (checkDefault1_counted 3 v "" st H0)
    as (st' & Heq & Hch & Hle & Hiff & Hsame & Hold & Hnew).
  exists st'. split_and!; [done..|]. simpl in Hiff.
  destruct (decide (errorCount st' = errorCount st)) as [He|He].
  { left. by rewrite Hsame. }
  destruct (decide (1 ≤ errorCount st)); [left; auto|].
  right. split_and!; [lia| |apply Hnew; lia]. by rewrite <-Hiff.
Qed.
End values.

(** ** Examples *)

(** A node of a linked list, with a field that gob does not send. *)
Definition nodeTypes : list TypeDesc :=
  [TStruct [("Next", 1%nat); ("val", 2%nat); ("Tags", 3%nat)]; TElem 0%nat; TBasic;
   TMap 2%nat 0%nat].

Definition startsUpper (s : string) : bool :=
  match s with
  | String c _ => let n := Z.of_nat (Ascii.nat_of_ascii c) in (65 <=? n) && (n <=? 90)
  | EmptyString => false
  end.

Definition noChecks : Checks := mkChecks [] 0 [].

Lemma nodeTypes_closed : closedTypes nodeTypes.
Proof.
  intros t u Ht Hu. simpl in Ht. unfold edge, successors in Hu.
  do 4 (destruct t as [|t]; [simpl in *; set_solver by lia|]). lia.
Qed.

Lemma check_type_exact_witness :
  closedTypes nodeTypes ∧ (0 < length nodeTypes)%nat ∧ settled nodeTypes noChecks ∧
  checkType nodeTypes startsUpper 5 0 noChecks = Ret (mkChecks [3; 2; 1; 0]%nat 1 ["val"]) ∧
  ∃ st', checkType nodeTypes startsUpper 5 0 noChecks = Ret st' ∧ settled nodeTypes st' ∧
    (∀ u, u ∈ checked st' ↔ u ∈ checked noChecks ∨ rtc (edge nodeTypes) 0%nat u) ∧
    errorCount st' = errorCount noChecks + sumLower nodeTypes startsUpper (checked st')
      - sumLower nodeTypes startsUpper (checked noChecks).
Proof.
  assert (settled nodeTypes noChecks) as Hs by (split; [constructor|set_solver]).
  split; [exact nodeTypes_closed|]. split; [simpl; lia|]. split; [exact Hs|].
  split; [reflexivity|].
  apply (check_type_exact nodeTypes startsUpper nodeTypes_closed 0 noChecks); [simpl; lia|exact Hs].
Defined.

(** A node that points to itself. *)
Definition ring (a : nat) : Value := VStruct [("Next", VPtr (Some 0%nat)); ("Val", VBasic "int" false)].

Lemma check_default_exact_witness :
  checkDefault ring (Some (ring 0)) noChecks = Ret (mkChecks [] 1 ["Val"]) ∧
  ∃ st', checkDefault ring (Some (ring 0)) noChecks = Ret st' ∧ checked st' = checked noChecks ∧
    errorCount noChecks ≤ errorCount st' ∧
    (errorCount st' = errorCount noChecks ↔ defaultBelow ring 2 (ring 0)) ∧
    (printed st' = printed noChecks ∨
     errorCount noChecks = 0 ∧ ¬ defaultBelow ring 2 (ring 0) ∧
       ∃ what, printed st' = printed noChecks ++ [what]).
Proof.
  split; [reflexivity|]. apply (check_default_exact ring (ring 0) noChecks). simpl. lia.
Defined.
