(* ===== verification/Persister.v ===== *)
(** * Persister: the stable storage of [src/src/raft/persister.go]

    Two byte buffers, each operation atomic under [ps.mu].  [RV] is the type
    of the messages Raft writes into its state, [SV] the type of those the
    service writes into its snapshots; a nil slice is the empty buffer.
    [clone] copies a slice, which in a language of values is the identity. *)

From S2P Require Import Prelude Labgob.

Section persister.
Context {RV SV : Type}.

Record Persister := mkPersister {
  raftstate : list RV;
  snapshot : list SV;
}.

Definition MakePersister : Persister := mkPersister [] [].

Definition Copy (ps : Persister) : Persister :=
  mkPersister (raftstate ps) (snapshot ps).

Definition SaveRaftState (ps : Persister) (state : list RV) : Persister :=
  mkPersister state (snapshot ps).

Definition ReadRaftState (ps : Persister) : list RV := raftstate ps.

Definition SaveStateAndSnapshot (ps : Persister) (state : list RV) (snap : list SV) : Persister :=
  mkPersister state snap.

Definition ReadSnapshot (ps : Persister) : list SV := snapshot ps.

Definition RaftStateSize `{!GobSize RV} (ps : Persister) : Z := buffer_size (raftstate ps).

Definition SnapshotSize `{!GobSize SV} (ps : Persister) : Z := buffer_size (snapshot ps).
End persister.
Arguments Persister : clear implicits.
