(* ===== verification/RaftState.v ===== *)
(** * RaftState: the data of a Raft peer, its log and its persistent state

    Models [src/src/raft/RaftState.go] and the data types, log accessors,
    [persist], [readPersist] and [Make] of [src/src/raft/raft.go].

    Go [int]s are unbounded integers here (terms and indices are only ever
    incremented by one).  [C] is the dynamic type of the commands a service
    puts into the log, a nil command is [None]; [SV] is the type of the gob
    messages in a service snapshot.  [peers] is the number of RPC end points.
    [applyNotifyCh] is the number of tokens queued in that channel, whose
    capacity is 500.  The locks are not data: each operation below is one
    critical section of the source. *)

From S2P Require Import Prelude Labgob Persister.
Local Open Scope Z_scope.

(** [candidateState], [leaderState], [followerState] of RaftState.go. *)
Inductive role := candidateState | leaderState | followerState.

#[export] Instance role_eq_dec : EqDecision role.
Proof. solve_decision. Defined.

Record RaftState := mkRaftState {
  state : role;
  currentTerm : Z;
  votedFor : Z;
  resetElectionTimer : bool;
}.

Definition isState (rs : RaftState) (s : role) : bool := bool_decide (state rs = s).

Definition MakeRaftState : RaftState := mkRaftState followerState 0 (-1) false.

Section raft.
Context {C SV : Type}.

Record LogEntry := mkLogEntry {
  le_Term : Z;
  le_Command : option C;
}.

(** The gob messages [persist] writes. *)
Inductive RaftGob :=
  | RInt (z : Z)
  | REntry (e : LogEntry).

#[global] Instance RaftGob_int : GobType RaftGob Z := {|
  gob_inj := RInt;
  gob_prj v := match v with RInt z => Some z | _ => None end;
  gob_prj_inj z := eq_refl |}.

#[global] Instance RaftGob_entry : GobType RaftGob LogEntry := {|
  gob_inj := REntry;
  gob_prj v := match v with REntry e => Some e | _ => None end;
  gob_prj_inj e := eq_refl |}.

Record Raft := mkRaft {
  me : Z;
  peers : nat;
  dead : bool;
  raftState : RaftState;
  log : list LogEntry;
  lastIncludedIndex : Z;
  lastIncludedTerm : Z;
  commitIndex : Z;
  lastApplied : Z;
  nextIndex : list Z;
  matchIndex : list Z;
  leaderInitDone : bool;
  applyNotifyCh : Z;
  persister : Persister RaftGob SV;
}.

(** What a peer sends to its service through [applyCh]. *)
Inductive ApplyMsg :=
  | CommandMsg (Command : option C) (CommandIndex : Z)
  | SnapshotMsg (Snapshot : list SV) (SnapshotTerm SnapshotIndex : Z).

(** Assignments to the fields of a peer. *)
Definition set_dead (v : bool) (rf : Raft) : Raft :=
  mkRaft (me rf) (peers rf) v (raftState rf) (log rf) (lastIncludedIndex rf)
    (lastIncludedTerm rf) (commitIndex rf) (lastApplied rf) (nextIndex rf)
    (matchIndex rf) (leaderInitDone rf) (applyNotifyCh rf) (persister rf).
Definition set_raftState (v : RaftState) (rf : Raft) : Raft :=
  mkRaft (me rf) (peers rf) (dead rf) v (log rf) (lastIncludedIndex rf)
    (lastIncludedTerm rf) (commitIndex rf) (lastApplied rf) (nextIndex rf)
    (matchIndex rf) (leaderInitDone rf) (applyNotifyCh rf) (persister rf).
Definition set_log (v : list LogEntry) (rf : Raft) : Raft :=
  mkRaft (me rf) (peers rf) (dead rf) (raftState rf) v (lastIncludedIndex rf)
    (lastIncludedTerm rf) (commitIndex rf) (lastApplied rf) (nextIndex rf)
    (matchIndex rf) (leaderInitDone rf) (applyNotifyCh rf) (persister rf).
Definition set_lastIncluded (i t : Z) (rf : Raft) : Raft :=
  mkRaft (me rf) (peers rf) (dead rf) (raftState rf) (log rf) i t
    (commitIndex rf) (lastApplied rf) (nextIndex rf) (matchIndex rf)
    (leaderInitDone rf) (applyNotifyCh rf) (persister rf).
Definition set_commitIndex (v : Z) (rf : Raft) : Raft :=
  mkRaft (me rf) (peers rf) (dead rf) (raftState rf) (log rf) (lastIncludedIndex rf)
    (lastIncludedTerm rf) v (lastApplied rf) (nextIndex rf)
    (matchIndex rf) (leaderInitDone rf) (applyNotifyCh rf) (persister rf).
Definition set_lastApplied (v : Z) (rf : Raft) : Raft :=
  mkRaft (me rf) (peers rf) (dead rf) (raftState rf) (log rf) (lastIncludedIndex rf)
    (lastIncludedTerm rf) (commitIndex rf) v (nextIndex rf)
    (matchIndex rf) (leaderInitDone rf) (applyNotifyCh rf) (persister rf).
Definition set_peerIndex (next match_ : list Z) (rf : Raft) : Raft :=
  mkRaft (me rf) (peers rf) (dead rf) (raftState rf) (log rf) (lastIncludedIndex rf)
    (lastIncludedTerm rf) (commitIndex rf) (lastApplied rf) next
    match_ (leaderInitDone rf) (applyNotifyCh rf) (persister rf).
Definition set_leaderInitDone (v : bool) (rf : Raft) : Raft :=
  mkRaft (me rf) (peers rf) (dead rf) (raftState rf) (log rf) (lastIncludedIndex rf)
    (lastIncludedTerm rf) (commitIndex rf) (lastApplied rf) (nextIndex rf)
    (matchIndex rf) v (applyNotifyCh rf) (persister rf).
Definition set_applyNotifyCh (v : Z) (rf : Raft) : Raft :=
  mkRaft (me rf) (peers rf) (dead rf) (raftState rf) (log rf) (lastIncludedIndex rf)
    (lastIncludedTerm rf) (commitIndex rf) (lastApplied rf) (nextIndex rf)
    (matchIndex rf) (leaderInitDone rf) v (persister rf).
Definition set_persister (v : Persister RaftGob SV) (rf : Raft) : Raft :=
  mkRaft (me rf) (peers rf) (dead rf) (raftState rf) (log rf) (lastIncludedIndex rf)
    (lastIncludedTerm rf) (commitIndex rf) (lastApplied rf) (nextIndex rf)
    (matchIndex rf) (leaderInitDone rf) (applyNotifyCh rf) v.

(** Assignments to fields of [rf.raftState]. *)
Definition set_state (s : role) (rf : Raft) : Raft :=
  set_raftState (mkRaftState s (currentTerm (raftState rf))
    (votedFor (raftState rf)) (resetElectionTimer (raftState rf))) rf.
Definition set_term_vote (t v : Z) (rf : Raft) : Raft :=
  set_raftState (mkRaftState (state (raftState rf)) t v
    (resetElectionTimer (raftState rf))) rf.
Definition set_reset (b : bool) (rf : Raft) : Raft :=
  set_raftState (mkRaftState (state (raftState rf)) (currentTerm (raftState rf))
    (votedFor (raftState rf)) b) rf.

Definition GetState (rf : Raft) : Z * bool :=
  (currentTerm (raftState rf), isState (raftState rf) leaderState).

Definition Kill (rf : Raft) : Raft := set_dead true rf.
Definition killed (rf : Raft) : bool := dead rf.

(** [rf.applyNotifyCh <- 0] on a channel of capacity 500. *)
Definition notifyApply (rf : Raft) : outcome Raft :=
  if applyNotifyCh rf <? 500
  then Ret (set_applyNotifyCh (applyNotifyCh rf + 1) rf) else Block.

(** ** The log *)

Definition getLogLength (rf : Raft) : Z := lastIncludedIndex rf + zlen (log rf).

Definition getTermOfLog (rf : Raft) (index : Z) : outcome Z :=
  if getLogLength rf <=? index then Fatal
  else if index <? lastIncludedIndex rf then Fatal
  else if index =? lastIncludedIndex rf then Ret (lastIncludedTerm rf)
  else e ← slice_get (log rf) (index - lastIncludedIndex rf); Ret (le_Term e).

Definition getLog (rf : Raft) (index : Z) : outcome LogEntry :=
  if getLogLength rf <=? index then Fatal
  else if index <=? lastIncludedIndex rf then Fatal
  else slice_get (log rf) (index - lastIncludedIndex rf).

Definition getLogs (rf : Raft) (start end_ : Z) : outcome (list LogEntry) :=
  if getLogLength rf <? end_ then Fatal
  else if start <=? lastIncludedIndex rf then Fatal
  else slice_sub (log rf) (start - lastIncludedIndex rf) (end_ - lastIncludedIndex rf).

Definition getLogsFrom (rf : Raft) (start : Z) : outcome (list LogEntry) :=
  getLogs rf start (getLogLength rf).

(** [for start < rf.getLogLength() { left = append(left, rf.getLog(start)); start += 1 }],
    the loop of [Snapshot] and [InstallSnapshot], with the number of its
    iterations as fuel. *)
Fixpoint collectLogs (fuel : nat) (rf : Raft) (start : Z) : outcome (list LogEntry) :=
  match fuel with
  | O => Ret []
  | S fuel' =>
      if start <? getLogLength rf then
        e ← getLog rf start; es ← collectLogs fuel' rf (start + 1); Ret (e :: es)
      else Ret []
  end.
Definition leftLogFrom (rf : Raft) (start : Z) : outcome (list LogEntry) :=
  collectLogs (Z.to_nat (getLogLength rf - start)) rf start.

(** ** Persistence *)

Definition encodeState (rf : Raft) : list RaftGob :=
  let w := Encode (currentTerm (raftState rf)) [] in
  let w := Encode (votedFor (raftState rf)) w in
  let w := Encode (lastIncludedIndex rf) w in
  let w := Encode (lastIncludedTerm rf) w in
  let w := Encode (zlen (log rf)) w in
  EncodeAll (log rf) w.

Definition persist (rf : Raft) : Raft :=
  set_persister (SaveRaftState (persister rf) (encodeState rf)) rf.

(** The [Decode] calls of [readPersist]: a failure is [log.Fatalln], and
    [make([]LogEntry, logLength)] panics on a negative length. *)
Definition decodeState (data : list RaftGob) : outcome (Z * Z * Z * Z * list LogEntry) :=
  match
    '(term, d) ← Decode (T:=Z) data;
    '(voted, d) ← Decode (T:=Z) d;
    '(lii, d) ← Decode (T:=Z) d;
    '(lit, d) ← Decode (T:=Z) d;
    '(logLength, d) ← Decode (T:=Z) d;
    Some (term, voted, lii, lit, logLength, d)
  with
  | None => Fatal
  | Some (term, voted, lii, lit, logLength, d) =>
      if logLength <? 0 then Panic else
      match DecodeN (T:=LogEntry) (Z.to_nat logLength) d with
      | None => Fatal
      | Some (entries, _) => Ret (term, voted, lii, lit, entries)
      end
  end.

Definition readPersist (data : list RaftGob) (rf : Raft) : outcome Raft :=
  match data with
  | [] => Ret rf
  | _ =>
      '(term, voted, lii, lit, entries) ← decodeState data;
      Ret (set_log entries (set_lastIncluded lii lit (set_term_vote term voted rf)))
  end.

(** The state [Make] builds before it reads the persister and starts the
    goroutines [mainLoop] and [applyLoop]. *)
Definition initRaft (n : nat) (id : Z) (ps : Persister RaftGob SV) : Raft :=
  mkRaft id n false MakeRaftState [mkLogEntry 0 None] 0 0 0 0 [] [] false 0 ps.

Definition Make (n : nat) (id : Z) (ps : Persister RaftGob SV) : outcome Raft :=
  rf ← readPersist (ReadRaftState ps) (initRaft n id ps);
  if 0 <? lastIncludedIndex rf
  then Ret (set_lastApplied (lastIncludedIndex rf) (set_commitIndex (lastIncludedIndex rf) rf))
  else Ret rf.

(** ** The persistent part of a peer and well-formedness *)

(** Figure 2's persistent state, with the snapshot boundary. *)
Definition hardState (rf : Raft) : Z * Z * Z * Z * list LogEntry :=
  (currentTerm (raftState rf), votedFor (raftState rf),
   lastIncludedIndex rf, lastIncludedTerm rf, log rf).

(** A restart from the persister would recover the persistent state. *)
Definition durable (rf : Raft) : Prop :=
  ∃ rf', Make (peers rf) (me rf) (persister rf) = Ret rf' ∧ hardState rf' = hardState rf.

(** The snapshot boundary is at a committed and applied index, and the log
    keeps its dummy entry in front. *)
Record raft_wf (rf : Raft) : Prop := {
  wf_log : 1 <= zlen (log rf);
  wf_lii : 0 <= lastIncludedIndex rf;
  wf_commit : lastIncludedIndex rf <= commitIndex rf;
  wf_applied : lastIncludedIndex rf <= lastApplied rf;
  wf_term0 : lastIncludedIndex rf = 0 → lastIncludedTerm rf = 0;
  wf_term : 0 <= currentTerm (raftState rf);
}.
End raft.
Arguments LogEntry : clear implicits.
Arguments RaftGob : clear implicits.
Arguments Raft : clear implicits.
Arguments ApplyMsg : clear implicits.

Create HintDb raft.
#[export] Hint Unfold set_dead set_raftState set_log set_lastIncluded set_commitIndex
  set_lastApplied set_peerIndex set_leaderInitDone set_applyNotifyCh set_persister
  set_state set_term_vote set_reset persist : raft.

(** Unfolds field assignments and computes the projections. *)
Ltac raft_cbn :=
  autounfold with raft;
  cbn [me peers dead raftState log lastIncludedIndex lastIncludedTerm commitIndex
       lastApplied nextIndex matchIndex leaderInitDone applyNotifyCh persister
       state currentTerm votedFor resetElectionTimer].

Section lemmas.
Context {C SV : Type}.
Implicit Types rf : Raft C SV.

(** *** Log accessors *)

Lemma getTermOfLog_Ret rf i t :
  getTermOfLog rf i = Ret t →
  lastIncludedIndex rf <= i < getLogLength rf.
Proof. unfold getTermOfLog. intros H. go_inv; lia. Qed.

Lemma getTermOfLog_in_range rf i :
  lastIncludedIndex rf <= i < getLogLength rf → is_Ret (getTermOfLog rf i).
Proof.
  intros Hi. unfold getTermOfLog, is_Ret.
  destruct (Z.leb_spec (getLogLength rf) i); [lia|].
  destruct (Z.ltb_spec i (lastIncludedIndex rf)); [lia|].
  destruct (Z.eqb_spec i (lastIncludedIndex rf)); [by eexists|].
  destruct (slice_get_in_range (log rf) (i - lastIncludedIndex rf)) as [e He].
  { unfold getLogLength in *. lia. }
  exists (le_Term e). by rewrite He.
Qed.

Lemma getTermOfLog_boundary rf :
  1 <= zlen (log rf) → getTermOfLog rf (lastIncludedIndex rf) = Ret (lastIncludedTerm rf).
Proof.
  intros Hl. unfold getTermOfLog, getLogLength.
  destruct (Z.leb_spec (lastIncludedIndex rf + zlen (log rf)) (lastIncludedIndex rf)); [lia|].
  by rewrite Z.ltb_irrefl, Z.eqb_refl.
Qed.

Lemma getLog_in_range rf i :
  lastIncludedIndex rf < i < getLogLength rf →
  ∃ e, log rf !! Z.to_nat (i - lastIncludedIndex rf) = Some e ∧ getLog rf i = Ret e.
Proof.
  intros Hi. unfold getLog.
  destruct (Z.leb_spec (getLogLength rf) i); [lia|].
  destruct (Z.leb_spec i (lastIncludedIndex rf)); [lia|].
  destruct (slice_get_in_range (log rf) (i - lastIncludedIndex rf)) as [e He].
  { unfold getLogLength in *. lia. }
  exists e. split; [|done]. by apply slice_get_Ret in He as [_ ?].
Qed.

Lemma collectLogs_spec rf n start :
  lastIncludedIndex rf < start → Z.of_nat n = getLogLength rf - start →
  collectLogs n rf start = Ret (drop (Z.to_nat (start - lastIncludedIndex rf)) (log rf)).
Proof.
  revert start. induction n as [|n IH]; intros start Hs Hn; cbn.
  - rewrite drop_ge; [done|]. unfold getLogLength, zlen in Hn. lia.
  - destruct (Z.ltb_spec start (getLogLength rf)); [|lia].
    destruct (getLog_in_range rf start) as (e & He & ->); [lia|]. cbn.
    rewrite IH by lia. cbn.
    rewrite (drop_S _ _ _ He). do 3 f_equal. lia.
Qed.

(** The loop that keeps the tail of the log collects exactly the entries
    from [start] on, and never runs into the accessors' fatal branches. *)
Lemma leftLogFrom_spec rf start :
  lastIncludedIndex rf < start →
  leftLogFrom rf start = Ret (drop (Z.to_nat (start - lastIncludedIndex rf)) (log rf)).
Proof.
  intros Hs. unfold leftLogFrom.
  destruct (Z.le_gt_cases (getLogLength rf) start) as [Hle|Hgt].
  - replace (Z.to_nat (getLogLength rf - start)) with 0%nat by lia. cbn.
    rewrite drop_ge; [done|]. unfold getLogLength, zlen in Hle. lia.
  - apply collectLogs_spec; lia.
Qed.

(** *** Persistence *)

Lemma encodeState_cons rf :
  encodeState rf =
    RInt (currentTerm (raftState rf)) :: RInt (votedFor (raftState rf)) ::
    RInt (lastIncludedIndex rf) :: RInt (lastIncludedTerm rf) ::
    RInt (zlen (log rf)) :: (REntry <$> log rf).
Proof. unfold encodeState. by rewrite EncodeAll_app. Qed.

Lemma decodeState_encodeState rf : decodeState (encodeState rf) = Ret (hardState rf).
Proof.
  rewrite encodeState_cons. unfold decodeState. cbn -[DecodeN].
  pose proof (zlen_nonneg (log rf)). destruct (Z.ltb_spec (zlen (log rf)) 0); [lia|].
  replace (Z.to_nat (zlen (log rf))) with (length (log rf)) by (unfold zlen; lia).
  pose proof (DecodeN_EncodeAll (V:=RaftGob C) (log rf) []) as E.
  rewrite app_nil_r in E. cbn in E. by rewrite E.
Qed.

Lemma Make_hardState n id (ps : Persister (RaftGob C) SV) rf rf' :
  raftstate ps = encodeState rf → Make n id ps = Ret rf' → hardState rf' = hardState rf.
Proof.
  unfold Make, ReadRaftState. intros Hps.
  assert (∃ v r, raftstate ps = v :: r) as (v & r & E)
    by (rewrite Hps, encodeState_cons; eauto).
  unfold readPersist. rewrite E, <- E, Hps, decodeState_encodeState. cbn.
  intros H. by destruct (0 <? lastIncludedIndex rf); simplify_eq.
Qed.

Lemma Make_Ret n id (ps : Persister (RaftGob C) SV) rf :
  raftstate ps = encodeState rf → is_Ret (Make n id ps).
Proof.
  unfold Make, ReadRaftState. intros Hps.
  assert (∃ v r, raftstate ps = v :: r) as (v & r & E)
    by (rewrite Hps, encodeState_cons; eauto).
  unfold readPersist. rewrite E, <- E, Hps, decodeState_encodeState. cbn.
  destruct (0 <? lastIncludedIndex rf); by eexists.
Qed.

Lemma persisted_durable rf : raftstate (persister rf) = encodeState rf → durable rf.
Proof.
  intros H. destruct (Make_Ret (peers rf) (me rf) _ _ H) as [rf' Hrf'].
  exists rf'. split; [done|]. by eapply Make_hardState.
Qed.

Lemma persist_durable rf : durable (persist rf).
Proof. by apply persisted_durable. Qed.

Lemma durable_frame rf rf' :
  durable rf → peers rf' = peers rf → me rf' = me rf →
  persister rf' = persister rf → hardState rf' = hardState rf → durable rf'.
Proof. intros (r & Hr & Hh) Hp Hm Hps Hhs. exists r. by rewrite Hp, Hm, Hps, Hhs. Qed.

(** *** The empty persister *)

Lemma Make_empty n id (snap : list SV) :
  Make (C:=C) n id (mkPersister [] snap) = Ret (initRaft n id (mkPersister [] snap)).
Proof. done. Qed.
End lemmas.

#[export] Hint Resolve persist_durable getTermOfLog_in_range : raft.
