(* ===== verification/RaftRpc.v ===== *)
(** * RaftRpc: the RPC handlers and the service-facing operations of a peer

    Models [RequestVote], [AppendEntries], [InstallSnapshot], [Snapshot],
    [CondInstallSnapshot] and [Start] of [src/src/raft/raft.go].  A handler
    takes the peer and the decoded arguments and gives the peer after the
    handler's critical section and the reply.  gob does not transmit empty
    slices, so a nil and an empty [Entries] arrive alike, as []. *)

From S2P Require Import Prelude Labgob Persister RaftState.
Local Open Scope Z_scope.

Record RequestVoteArgs := mkRequestVoteArgs {
  rv_Term : Z; rv_CandidateId : Z; rv_LastLogIndex : Z; rv_LastLogTerm : Z;
}.
Record RequestVoteReply := mkRequestVoteReply { rvr_Term : Z; rvr_VoteGranted : bool }.

Record AppendEntriesReply := mkAppendEntriesReply {
  aer_Term : Z; aer_Success : bool; aer_NextRetryStartIndex : Z;
}.
Record InstallSnapshotReply := mkInstallSnapshotReply { isr_Term : Z }.

Section rpc.
Context {C SV : Type}.
Implicit Types rf : Raft C SV.

Record AppendEntriesArgs := mkAppendEntriesArgs {
  ae_Term : Z; ae_LeaderId : Z; ae_Entries : list (LogEntry C);
  ae_PrevLogIndex : Z; ae_PrevLogTerm : Z; ae_LeaderCommit : Z;
}.

Record InstallSnapshotArgs := mkInstallSnapshotArgs {
  is_Term : Z; is_LeaderId : Z; is_LastIncludedIndex : Z; is_LastIncludedTerm : Z;
  is_Data : list SV;
}.

(** "update term and become follower if needed", followed by [persist()]:
    the block every RPC handler and reply handler starts with. *)
Definition updateTerm (t : Z) rf : Raft C SV :=
  persist (set_raftState (mkRaftState followerState t (-1)
    (resetElectionTimer (raftState rf))) rf).

(** ** RequestVote *)

(** [isNewerThanMe]: the candidate's log is at least as up to date. *)
Definition isNewerThanMe rf (args : RequestVoteArgs) : outcome bool :=
  if getLogLength rf =? 1 then Ret true else
  t ← getTermOfLog rf (getLogLength rf - 1);
  Ret ((t <? rv_LastLogTerm args) ||
       ((rv_LastLogTerm args =? t) && (getLogLength rf - 1 <=? rv_LastLogIndex args))).

Definition RequestVote rf (args : RequestVoteArgs) : outcome (Raft C SV * RequestVoteReply) :=
  if currentTerm (raftState rf) <=? rv_Term args then
    let rf := if currentTerm (raftState rf) <? rv_Term args
              then updateTerm (rv_Term args) rf else rf in
    let vf := votedFor (raftState rf) in
    if (vf =? -1) || (vf =? rv_CandidateId args) then
      newer ← isNewerThanMe rf args;
      if newer : bool then
        let rf := persist (set_reset true
                    (set_term_vote (currentTerm (raftState rf)) (rv_CandidateId args) rf)) in
        Ret (rf, mkRequestVoteReply (currentTerm (raftState rf)) true)
      else Ret (rf, mkRequestVoteReply (currentTerm (raftState rf)) false)
    else Ret (rf, mkRequestVoteReply (currentTerm (raftState rf)) false)
  else Ret (rf, mkRequestVoteReply (currentTerm (raftState rf)) false).

(** ** AppendEntries *)

(** The loop that looks for the first index of the conflicting term:
    [for tempIndex > 1 && tempIndex >= rf.lastIncludedIndex &&
     rf.getTermOfLog(tempIndex) == conflictTerm { tempIndex -= 1 }].
    [Z.to_nat tempIndex] iterations are enough, the index is positive. *)
Fixpoint conflictLoop (fuel : nat) rf (conflictTerm tempIndex : Z) : outcome Z :=
  match fuel with
  | O => Ret tempIndex
  | S fuel' =>
      if (1 <? tempIndex) && (lastIncludedIndex rf <=? tempIndex) then
        t ← getTermOfLog rf tempIndex;
        if t =? conflictTerm then conflictLoop fuel' rf conflictTerm (tempIndex - 1)
        else Ret tempIndex
      else Ret tempIndex
  end.

(** The loop that copies [args.Entries] into the log, entry [i] at index
    [args.PrevLogIndex+1+i]: append past the end, cut at a conflict. *)
Fixpoint copyEntries rf (index : Z) (entries : list (LogEntry C)) : outcome (Raft C SV) :=
  match entries with
  | [] => Ret rf
  | e :: es =>
      if getLogLength rf - 1 <? index then
        copyEntries (set_log (log rf ++ [e]) rf) (index + 1) es
      else
        t ← getTermOfLog rf index;
        if t =? le_Term e then copyEntries rf (index + 1) es
        else
          kept ← slice_sub (log rf) 0 (index - lastIncludedIndex rf);
          copyEntries (set_log (kept ++ [e]) rf) (index + 1) es
  end.

(** [args.PrevLogIndex] is past the log, or holds another term. *)
Definition prevMismatch rf (args : AppendEntriesArgs) : outcome bool :=
  if getLogLength rf - 1 <? ae_PrevLogIndex args then Ret true
  else if 0 <=? ae_PrevLogIndex args then
    t ← getTermOfLog rf (ae_PrevLogIndex args); Ret (negb (t =? ae_PrevLogTerm args))
  else Ret false.

(** [reply.NextRetryStartIndex] of a reply that reports a mismatch. *)
Definition nextRetry rf (args : AppendEntriesArgs) : outcome Z :=
  if getLogLength rf - 1 <? ae_PrevLogIndex args then Ret (getLogLength rf) else
  conflictTerm ← getTermOfLog rf (ae_PrevLogIndex args);
  if ae_PrevLogIndex args =? 0 then Fatal else
  conflictLoop (Z.to_nat (ae_PrevLogIndex args)) rf conflictTerm (ae_PrevLogIndex args).

(** The term, role and timer updates at the top of the handler. *)
Definition appendPrologue rf (args : AppendEntriesArgs) : Raft C SV :=
  let rf := if currentTerm (raftState rf) <? ae_Term args
            then updateTerm (ae_Term args) rf else rf in
  let rf := if isState (raftState rf) candidateState
               && (currentTerm (raftState rf) <=? ae_Term args)
            then set_state followerState rf else rf in
  set_reset true rf.

(** [if args.Entries != nil { ... rf.persist() }]. *)
Definition storeEntries rf (args : AppendEntriesArgs) : outcome (Raft C SV) :=
  match ae_Entries args with
  | [] => Ret rf
  | es => rf ← copyEntries rf (ae_PrevLogIndex args + 1) es; Ret (persist rf)
  end.

(** The part under [commitMutex]. *)
Definition advanceCommit rf (leaderCommit : Z) : outcome (Raft C SV) :=
  if commitIndex rf <? leaderCommit then
    notifyApply (set_commitIndex
      (if leaderCommit <? getLogLength rf - 1 then leaderCommit else getLogLength rf - 1) rf)
  else Ret rf.

Definition AppendEntries rf (args : AppendEntriesArgs) : outcome (Raft C SV * AppendEntriesReply) :=
  let rf := appendPrologue rf args in
  let term := currentTerm (raftState rf) in
  if ae_Term args <? term then Ret (rf, mkAppendEntriesReply term false 0)
  else if ae_PrevLogIndex args <? lastIncludedIndex rf then
    Ret (rf, mkAppendEntriesReply term false (lastIncludedIndex rf + 1))
  else
    mismatch ← prevMismatch rf args;
    if mismatch : bool then
      next ← nextRetry rf args; Ret (rf, mkAppendEntriesReply term false next)
    else
      rf ← storeEntries rf args;
      rf ← advanceCommit rf (ae_LeaderCommit args);
      Ret (rf, mkAppendEntriesReply term true 0).

(** ** Snapshots *)

Definition CondInstallSnapshot (lastIncludedTerm lastIncludedIndex : Z) (snap : list SV) : bool :=
  true.

(** [rf.persist(); var data []byte; rf.readPersist(data);
     rf.persister.SaveStateAndSnapshot(data, snap)]: [data] is nil, reading
    it does nothing, and it is what replaces the Raft state just saved. *)
Definition saveSnapshot rf (snap : list SV) : outcome (Raft C SV) :=
  let rf := persist rf in
  let data : list (RaftGob C) := [] in
  rf ← readPersist data rf;
  Ret (set_persister (SaveStateAndSnapshot (persister rf) data snap) rf).

Definition Snapshot rf (index : Z) (snap : list SV) : outcome (Raft C SV) :=
  if killed rf then Ret rf
  else if index <=? lastIncludedIndex rf then Ret rf
  else if commitIndex rf <? index then Ret rf
  else if lastApplied rf <? index then Ret rf
  else
    leftLog ← leftLogFrom rf index;
    term ← getTermOfLog rf index;
    saveSnapshot (set_log leftLog (set_lastIncluded index term rf)) snap.

(** The message is the one put on [applyCh]. *)
Definition InstallSnapshot rf (args : InstallSnapshotArgs) :
    outcome (Raft C SV * InstallSnapshotReply * option (ApplyMsg C SV)) :=
  if currentTerm (raftState rf) <=? is_Term args then
    let rf := if currentTerm (raftState rf) <? is_Term args
              then updateTerm (is_Term args) rf else rf in
    let lii := is_LastIncludedIndex args in
    if (lastIncludedIndex rf <? lii) && (lastApplied rf <? lii) then
      kept ← leftLogFrom rf (lii + 1);
      let rf := set_log (mkLogEntry 0 None :: kept)
                  (set_lastIncluded lii (is_LastIncludedTerm args) rf) in
      let rf := if commitIndex rf <? lii then set_commitIndex lii rf else rf in
      let rf := if lastApplied rf <? lii then set_lastApplied lii rf else rf in
      rf ← saveSnapshot rf (is_Data args);
      Ret (rf, mkInstallSnapshotReply (currentTerm (raftState rf)),
           Some (SnapshotMsg (is_Data args) (lastIncludedTerm rf) (lastIncludedIndex rf)))
    else Ret (rf, mkInstallSnapshotReply (currentTerm (raftState rf)), None)
  else Ret (rf, mkInstallSnapshotReply (currentTerm (raftState rf)), None).

(** ** Start

    A leader whose [leaderMain] has not initialised [nextIndex] yet makes
    the caller sleep and look again: [Block] says that this look found no
    answer.  [sendAppendEntriesToAll] is started with the term returned. *)
Definition Start rf (command : C) : outcome (Raft C SV * (Z * Z * bool)) :=
  if isState (raftState rf) leaderState then
    if leaderInitDone rf then
      let rf := persist (set_log
                  (log rf ++ [mkLogEntry (currentTerm (raftState rf)) (Some command)]) rf) in
      match_ ← slice_set (matchIndex rf) (me rf) (getLogLength rf - 1);
      next ← slice_set (nextIndex rf) (me rf) (getLogLength rf);
      let rf := set_peerIndex next match_ rf in
      Ret (rf, (getLogLength rf - 1, currentTerm (raftState rf), true))
    else Block
  else Ret (rf, (getLogLength rf - 1, currentTerm (raftState rf), false)).
End rpc.
Arguments AppendEntriesArgs : clear implicits.
Arguments InstallSnapshotArgs : clear implicits.

(** ** Reference definitions *)

(** What storing [entries] after a matching prefix should leave of the [tail]
    of the log: entries that agree on the term are kept, the first that
    disagrees is cut with all that follows. *)
Fixpoint mergeTail {C} (tail entries : list (LogEntry C)) {struct entries} : list (LogEntry C) :=
  match entries, tail with
  | [], _ => tail
  | _, [] => entries
  | e :: es, x :: tl => if le_Term x =? le_Term e then x :: mergeTail tl es else entries
  end.

(** [cand] is at least as up to date as [mine]: later last term, or the same
    last term and no shorter (Raft paper, section 5.4.1). *)
Definition upToDate (candTerm candIndex myTerm myIndex : Z) : Prop :=
  myTerm < candTerm ∨ (candTerm = myTerm ∧ myIndex <= candIndex).

Arguments appendPrologue : simpl never.
Arguments updateTerm : simpl never.

Section rpc_lemmas.
Context {C SV : Type}.
Implicit Types (rf : Raft C SV) (es tail : list (LogEntry C)).

(** *** The log after AppendEntries *)

Lemma mergeTail_nil_l es : mergeTail [] es = es.
Proof. by destruct es. Qed.

(** The merged log holds the terms of the entries sent. *)
Lemma mergeTail_terms tail es :
  (le_Term <$> take (length es) (mergeTail tail es)) = (le_Term <$> es).
Proof.
  revert tail. induction es as [|e es IH]; intros tail; cbn; [done|].
  destruct tail as [|x tail]; cbn; [by rewrite firstn_all|].
  destruct (Z.eqb_spec (le_Term x) (le_Term e)) as [Ht|Ht]; cbn.
  - by rewrite IH, Ht.
  - by rewrite firstn_all.
Qed.

(** A request whose entries are all present leaves the tail alone. *)
Lemma mergeTail_present tail es :
  (le_Term <$> es) `prefix_of` (le_Term <$> tail) → mergeTail tail es = tail.
Proof.
  revert tail. induction es as [|e es IH]; intros tail Hp; [done|].
  destruct tail as [|x tail]; [by apply prefix_nil_not in Hp|].
  cbn in *. apply prefix_cons_inv_1 in Hp as Ht. apply prefix_cons_inv_2 in Hp.
  rewrite Ht, Z.eqb_refl. by rewrite IH.
Qed.

Lemma mergeTail_length tail es : (length es <= length (mergeTail tail es))%nat.
Proof.
  revert tail. induction es as [|e es IH]; intros tail; cbn; [lia|].
  destruct tail as [|x tail]; cbn; [lia|].
  destruct (le_Term x =? le_Term e); cbn; [|lia]. specialize (IH tail). lia.
Qed.

Lemma getTermOfLog_lookup rf i e :
  lastIncludedIndex rf < i → log rf !! Z.to_nat (i - lastIncludedIndex rf) = Some e →
  getTermOfLog rf i = Ret (le_Term e).
Proof.
  intros Hi He. apply lookup_lt_Some in He as Hlt.
  unfold getTermOfLog, getLogLength, zlen.
  destruct (Z.leb_spec (lastIncludedIndex rf + Z.of_nat (length (log rf))) i); [lia|].
  destruct (Z.ltb_spec i (lastIncludedIndex rf)); [lia|].
  destruct (Z.eqb_spec i (lastIncludedIndex rf)); [lia|].
  assert (slice_get (log rf) (i - lastIncludedIndex rf) = Ret e) as ->; [|done].
  apply slice_get_Ret. split; [lia|done].
Qed.

Lemma copyEntries_end rf index es :
  index = getLogLength rf → copyEntries rf index es = Ret (set_log (log rf ++ es) rf).
Proof.
  revert rf index. induction es as [|e es IH]; intros rf index ->; cbn.
  - rewrite app_nil_r. by destruct rf.
  - destruct (Z.ltb_spec (getLogLength rf - 1) (getLogLength rf)); [|lia].
    rewrite IH.
    + raft_cbn. by rewrite <- app_assoc.
    + unfold getLogLength. raft_cbn. autorewrite with zlen. lia.
Qed.

Lemma copyEntries_spec rf index es :
  lastIncludedIndex rf < index <= getLogLength rf →
  let k := Z.to_nat (index - lastIncludedIndex rf) in
  copyEntries rf index es =
    Ret (set_log (take k (log rf) ++ mergeTail (drop k (log rf)) es) rf).
Proof.
  cbn zeta. revert index. induction es as [|e es IH]; intros index Hi.
  { cbn. rewrite take_drop. by destruct rf. }
  cbn [copyEntries]. unfold getLogLength, zlen in Hi.
  destruct (Z.ltb_spec (getLogLength rf - 1) index) as [Hgt|Hle].
  { unfold getLogLength, zlen in Hgt.
    rewrite copyEntries_end.
    - raft_cbn. rewrite drop_ge, take_ge by lia. cbn. by rewrite <- app_assoc.
    - unfold getLogLength. raft_cbn. unfold zlen. rewrite length_app. cbn. lia. }
  unfold getLogLength, zlen in Hle.
  destruct (lookup_lt_is_Some_2 (log rf) (Z.to_nat (index - lastIncludedIndex rf)))
    as [x Hx]; [lia|].
  rewrite (getTermOfLog_lookup rf index x) by (done || lia). cbn.
  rewrite (drop_S _ _ _ Hx). cbn [mergeTail].
  destruct (Z.eqb_spec (le_Term x) (le_Term e)) as [Ht|Ht].
  - rewrite IH by (unfold getLogLength, zlen; lia).
    replace (Z.to_nat (index + 1 - lastIncludedIndex rf))
      with (S (Z.to_nat (index - lastIncludedIndex rf))) by lia.
    rewrite (take_S_r _ _ _ Hx). by rewrite <- app_assoc.
  - unfold slice_sub. rewrite Z.sub_0_r. cbn.
    destruct (Z.leb_spec 0 (index - lastIncludedIndex rf)); [|lia].
    destruct (Z.leb_spec (index - lastIncludedIndex rf) (zlen (log rf))) as [_|Hz];
      [|unfold zlen in Hz; lia].
    cbn. rewrite drop_0, copyEntries_end.
    + raft_cbn. by rewrite <- app_assoc.
    + unfold getLogLength. raft_cbn. unfold zlen.
      rewrite length_app, length_take. cbn. lia.
Qed.

(** *** Frames: what the prologue of a handler leaves alone *)

(** Everything but the role, term, vote, timer and persister. *)
Definition sameLog rf rf' : Prop :=
  me rf' = me rf ∧ peers rf' = peers rf ∧ log rf' = log rf ∧
  lastIncludedIndex rf' = lastIncludedIndex rf ∧
  lastIncludedTerm rf' = lastIncludedTerm rf ∧
  commitIndex rf' = commitIndex rf ∧ lastApplied rf' = lastApplied rf ∧
  nextIndex rf' = nextIndex rf ∧ matchIndex rf' = matchIndex rf ∧
  leaderInitDone rf' = leaderInitDone rf ∧ applyNotifyCh rf' = applyNotifyCh rf.

Lemma appendPrologue_sameLog rf (args : AppendEntriesArgs C) : sameLog rf (appendPrologue rf args).
Proof.
  unfold appendPrologue, updateTerm, sameLog. repeat case_match; by raft_cbn.
Qed.

Lemma appendPrologue_term rf (args : AppendEntriesArgs C) :
  currentTerm (raftState (appendPrologue rf args)) =
    Z.max (currentTerm (raftState rf)) (ae_Term args).
Proof.
  unfold appendPrologue, updateTerm.
  destruct (Z.ltb_spec (currentTerm (raftState rf)) (ae_Term args));
    repeat case_match; raft_cbn; lia.
Qed.

Lemma getTermOfLog_sameLog rf rf' i :
  sameLog rf rf' → getTermOfLog rf' i = getTermOfLog rf i.
Proof.
  intros (_&_&Hl&Hi&Ht&_). unfold getTermOfLog, getLogLength. by rewrite Hl, Hi, Ht.
Qed.

Lemma getLogLength_sameLog rf rf' : sameLog rf rf' → getLogLength rf' = getLogLength rf.
Proof. intros (_&_&Hl&Hi&_). unfold getLogLength. by rewrite Hl, Hi. Qed.

(** *** The conflict index *)

Lemma conflictLoop_spec rf ct fuel i :
  1 <= i < getLogLength rf → (Z.to_nat i <= fuel)%nat →
  ∃ j, conflictLoop fuel rf ct i = Ret j ∧ 1 <= j <= i ∧
    (j = i ∨ ∀ k, j < k <= i → getTermOfLog rf k = Ret ct).
Proof.
  revert i. induction fuel as [|fuel IH]; intros i Hi Hf; cbn; [lia|].
  destruct (Z.ltb_spec 1 i), (Z.leb_spec (lastIncludedIndex rf) i); cbn;
    [|exists i; split_and!; auto; lia..].
  destruct (getTermOfLog_in_range rf i) as [t Ht]; [lia|]. rewrite Ht. cbn.
  destruct (Z.eqb_spec t ct) as [->|]; [|exists i; split_and!; auto; lia].
  destruct (IH (i - 1)) as (j & Hj & Hr & Hk); [lia..|].
  exists j. split_and!; [done|lia..|]. right. intros k Hk'.
  destruct (decide (k = i)) as [->|]; [done|].
  destruct Hk as [->|Hk]; [lia|]. apply Hk. lia.
Qed.

(** *** AppendEntries, branch by branch *)

Lemma storeEntries_spec rf (args : AppendEntriesArgs C) :
  lastIncludedIndex rf <= ae_PrevLogIndex args < getLogLength rf →
  let k := Z.to_nat (ae_PrevLogIndex args + 1 - lastIncludedIndex rf) in
  ∃ rf', storeEntries rf args = Ret rf' ∧
    rf' = (if decide (ae_Entries args = []) then rf
           else persist (set_log (take k (log rf) ++ mergeTail (drop k (log rf)) (ae_Entries args)) rf)).
Proof.
  intros Hp k. unfold storeEntries. destruct (ae_Entries args) as [|e es] eqn:E.
  - rewrite decide_True by done. by eexists.
  - rewrite copyEntries_spec by (unfold getLogLength in *; lia).
    rewrite decide_False by done. by eexists.
Qed.

Lemma storeEntries_log rf (args : AppendEntriesArgs C) rf' :
  lastIncludedIndex rf <= ae_PrevLogIndex args < getLogLength rf →
  storeEntries rf args = Ret rf' →
  let k := Z.to_nat (ae_PrevLogIndex args + 1 - lastIncludedIndex rf) in
  log rf' = take k (log rf) ++ mergeTail (drop k (log rf)) (ae_Entries args).
Proof.
  intros Hp. destruct (storeEntries_spec rf args Hp) as (r & -> & ->).
  intros [= <-]. case_decide as E; [|done].
  rewrite E. cbn. by rewrite take_drop.
Qed.

Lemma prevMismatch_false rf (args : AppendEntriesArgs C) :
  0 <= ae_PrevLogIndex args → prevMismatch rf args = Ret false →
  lastIncludedIndex rf <= ae_PrevLogIndex args < getLogLength rf ∧
  getTermOfLog rf (ae_PrevLogIndex args) = Ret (ae_PrevLogTerm args).
Proof.
  unfold prevMismatch. intros H0 H. destruct (Z.leb_spec 0 (ae_PrevLogIndex args)); [|lia].
  go_inv. split; [by eapply getTermOfLog_Ret|done].
Qed.

(** The three ways AppendEntries ends. *)
Inductive appendResult rf (args : AppendEntriesArgs C) : Raft C SV → AppendEntriesReply → Prop :=
  | append_stale rf0 :
      rf0 = appendPrologue rf args → ae_Term args < currentTerm (raftState rf) →
      appendResult rf args rf0 (mkAppendEntriesReply (currentTerm (raftState rf)) false 0)
  | append_mismatch rf0 next :
      rf0 = appendPrologue rf args → currentTerm (raftState rf) <= ae_Term args →
      (ae_PrevLogIndex args < lastIncludedIndex rf ∧ next = lastIncludedIndex rf + 1 ∨
       lastIncludedIndex rf <= ae_PrevLogIndex args ∧
       prevMismatch rf0 args = Ret true ∧ nextRetry rf0 args = Ret next) →
      appendResult rf args rf0 (mkAppendEntriesReply (ae_Term args) false next)
  | append_stored rf0 rf1 rf2 :
      rf0 = appendPrologue rf args → currentTerm (raftState rf) <= ae_Term args →
      lastIncludedIndex rf <= ae_PrevLogIndex args →
      prevMismatch rf0 args = Ret false → storeEntries rf0 args = Ret rf1 →
      advanceCommit rf1 (ae_LeaderCommit args) = Ret rf2 →
      appendResult rf args rf2 (mkAppendEntriesReply (ae_Term args) true 0).

Lemma AppendEntries_result rf args rf' reply :
  AppendEntries rf args = Ret (rf', reply) → appendResult rf args rf' reply.
Proof.
  pose proof (appendPrologue_term rf args) as Ht.
  pose proof (appendPrologue_sameLog rf args) as (_&_&_&Hi&_).
  unfold AppendEntries. cbn zeta. rewrite Ht, Hi. intros H. go_inv.
  - replace (Z.max _ _) with (currentTerm (raftState rf)) by lia.
    econstructor; [done|lia].
  - replace (Z.max _ _) with (ae_Term args) by lia.
    econstructor; [done|lia|]. left. lia.
  - replace (Z.max _ _) with (ae_Term args) by lia.
    econstructor; [done|lia|]. right. split_and!; done || lia.
  - replace (Z.max _ _) with (ae_Term args) by lia.
    eapply append_stored; done || lia.
Qed.

(** Everything a successful AppendEntries did. *)
Lemma AppendEntries_stored rf args rf' reply :
  raft_wf rf → AppendEntries rf args = Ret (rf', reply) → aer_Success reply = true →
  let k := Z.to_nat (ae_PrevLogIndex args + 1 - lastIncludedIndex rf) in
  currentTerm (raftState rf) <= ae_Term args ∧
  lastIncludedIndex rf <= ae_PrevLogIndex args < getLogLength rf ∧
  getTermOfLog rf (ae_PrevLogIndex args) = Ret (ae_PrevLogTerm args) ∧
  log rf' = take k (log rf) ++ mergeTail (drop k (log rf)) (ae_Entries args) ∧
  lastIncludedIndex rf' = lastIncludedIndex rf ∧
  lastIncludedTerm rf' = lastIncludedTerm rf ∧
  lastApplied rf' = lastApplied rf ∧
  raftState rf' = raftState (appendPrologue rf args) ∧
  commitIndex rf' = (if commitIndex rf <? ae_LeaderCommit args
                     then Z.min (ae_LeaderCommit args) (getLogLength rf' - 1)
                     else commitIndex rf) ∧
  persister rf' = (if decide (ae_Entries args = []) then persister (appendPrologue rf args)
                   else SaveRaftState (persister (appendPrologue rf args)) (encodeState rf')).
Proof.
  intros Hwf H Hs k. apply AppendEntries_result in H.
  destruct H as [|?|rf0 rf1 rf2 -> Ht Hp Hm Hst Hc]; try done. clear Hs.
  pose proof (appendPrologue_sameLog rf args) as Hsame.
  apply prevMismatch_false in Hm as [Hr Hterm]; [|pose proof (wf_lii _ Hwf); lia].
  rewrite (getTermOfLog_sameLog rf) in Hterm by done.
  destruct (storeEntries_spec (appendPrologue rf args) args) as (r & Hr' & Hreq); [done|].
  pose proof (storeEntries_log _ _ _ Hr Hst) as Hlog.
  rewrite (getLogLength_sameLog rf) in Hr by done.
  rewrite Hst in Hr'. injection Hr' as <-.
  destruct Hsame as (_&_&Hl&Hi&Hit&Hci&Hla&_). rewrite Hi, Hl in Hlog. fold k in Hlog.
  assert (commitIndex rf1 = commitIndex rf) as Hc1 by (rewrite Hreq; by case_decide).
  assert (sameHard : lastIncludedIndex rf1 = lastIncludedIndex rf ∧
    lastIncludedTerm rf1 = lastIncludedTerm rf ∧ lastApplied rf1 = lastApplied rf ∧
    raftState rf1 = raftState (appendPrologue rf args) ∧
    persister rf1 = (if decide (ae_Entries args = []) then persister (appendPrologue rf args)
       else SaveRaftState (persister (appendPrologue rf args)) (encodeState rf1))).
  { rewrite Hreq. case_decide; by raft_cbn. }
  destruct sameHard as (H1 & H2 & H3 & H4 & H5). clear Hreq Hst.
  unfold advanceCommit, notifyApply in Hc. rewrite Hc1 in Hc.
  destruct (commitIndex rf <? ae_LeaderCommit args) eqn:E; go_inv.
  - split_and!; try done; try lia. unfold getLogLength. raft_cbn.
    destruct (Z.ltb_spec (ae_LeaderCommit args) (lastIncludedIndex rf1 + zlen (log rf1) - 1)); lia.
  - split_and!; done || lia.
Qed.

Lemma mergeTail_take_length k (l es : list (LogEntry C)) :
  (k <= length l)%nat → (k <= length (take k l ++ mergeTail (drop k l) es))%nat.
Proof. intros Hk. rewrite length_app, length_take. lia. Qed.

End rpc_lemmas.

(** ** AppendEntries *)
Section append_theorems.
Context {C SV : Type}.
Implicit Types (rf : Raft C SV) (args : AppendEntriesArgs C).

(** C19. A successful AppendEntries found the leader's previous entry in the
    follower's log, and leaves the log as the reference merge of the tail
    after it with the entries sent, which it then contains; the snapshot
    boundary stays put. *)
Theorem AppendEntries_log_spec rf args rf' reply :
  raft_wf rf → AppendEntries rf args = Ret (rf', reply) → aer_Success reply = true →
  let k := Z.to_nat (ae_PrevLogIndex args + 1 - lastIncludedIndex rf) in
  getTermOfLog rf (ae_PrevLogIndex args) = Ret (ae_PrevLogTerm args) ∧
  log rf' = take k (log rf) ++ mergeTail (drop k (log rf)) (ae_Entries args) ∧
  (le_Term <$> take (length (ae_Entries args)) (drop k (log rf'))) = (le_Term <$> ae_Entries args) ∧
  lastIncludedIndex rf' = lastIncludedIndex rf ∧ lastIncludedTerm rf' = lastIncludedTerm rf.
Proof.
  intros Hwf H Hs k.
  destruct (AppendEntries_stored _ _ _ _ Hwf H Hs) as (_ & Hr & Ht & Hl & Hi & Hit & _).
  fold k in Hl. split_and!; try done.
  rewrite Hl, drop_app_length'; [by apply mergeTail_terms|].
  rewrite length_take. unfold getLogLength, zlen in Hr. lia.
Qed.

(** A delayed request whose entries the follower already holds does not
    shorten the follower's log. *)
Theorem AppendEntries_keeps_newer rf args rf' reply :
  raft_wf rf → AppendEntries rf args = Ret (rf', reply) → aer_Success reply = true →
  (le_Term <$> ae_Entries args) `prefix_of`
    (le_Term <$> drop (Z.to_nat (ae_PrevLogIndex args + 1 - lastIncludedIndex rf)) (log rf)) →
  log rf' = log rf.
Proof.
  intros Hwf H Hs Hp.
  destruct (AppendEntries_stored _ _ _ _ Hwf H Hs) as (_ & _ & _ & -> & _).
  rewrite mergeTail_present by done. apply take_drop.
Qed.

(** C32. On a well-formed peer the handler returns for every request of a
    well-behaved leader (whose dummy entry at index 0 has term 0), as long
    as the notification channel has room: no fatal branch, no index out of
    range. *)
Theorem AppendEntries_total rf args :
  raft_wf rf → (ae_PrevLogIndex args = 0 → ae_PrevLogTerm args = 0) →
  applyNotifyCh rf < 500 → is_Ret (AppendEntries rf args).
Proof.
  intros Hwf H0 Hroom. unfold AppendEntries. cbn zeta.
  pose proof (appendPrologue_sameLog rf args) as Hsame.
  set (rf0 := appendPrologue rf args) in *. clearbody rf0.
  pose proof (getLogLength_sameLog _ _ Hsame) as Hlen.
  assert (∀ i, getTermOfLog rf0 i = getTermOfLog rf i) as Hterm
    by (intros; by apply getTermOfLog_sameLog).
  pose proof Hsame as (_&_&Hl&Hi&Hit&Hci&Hla&_&_&_&Hn).
  destruct Hwf as [Hwl Hwi Hwc Hwa Hw0 _].
  destruct (_ <? _); [by eexists|].
  destruct (Z.ltb_spec (ae_PrevLogIndex args) (lastIncludedIndex rf0)) as [|Hge]; [by eexists|].
  rewrite Hi in Hge. unfold prevMismatch.
  destruct (Z.ltb_spec (getLogLength rf0 - 1) (ae_PrevLogIndex args)) as [Hgt|Hle]; cbn.
  { unfold nextRetry. destruct (Z.ltb_spec (getLogLength rf0 - 1) (ae_PrevLogIndex args));
      [by eexists|lia]. }
  destruct (Z.leb_spec 0 (ae_PrevLogIndex args)); [|lia].
  destruct (getTermOfLog_in_range rf (ae_PrevLogIndex args)) as [t Ht]; [lia|].
  rewrite Hterm, Ht. cbn.
  destruct (Z.eqb_spec t (ae_PrevLogTerm args)) as [->|Hne]; cbn.
  - destruct (storeEntries_spec rf0 args) as (r & -> & Hr); [lia|]. cbn.
    assert (applyNotifyCh r = applyNotifyCh rf) as Hn1
      by (rewrite Hr; case_decide; raft_cbn; done).
    unfold advanceCommit, notifyApply.
    destruct (_ <? _); [|by eexists].
    raft_cbn. rewrite Hn1. destruct (Z.ltb_spec (applyNotifyCh rf) 500); [by eexists|lia].
  - unfold nextRetry. destruct (Z.ltb_spec (getLogLength rf0 - 1) (ae_PrevLogIndex args)); [lia|].
    rewrite Hterm, Ht. cbn. destruct (Z.eqb_spec (ae_PrevLogIndex args) 0) as [E|].
    + exfalso. apply Hne. rewrite (H0 E). replace (ae_PrevLogIndex args)
        with (lastIncludedIndex rf) in Ht by lia.
      rewrite getTermOfLog_boundary in Ht by done. injection Ht as <-. apply Hw0. lia.
    + destruct (conflictLoop_spec rf0 t (Z.to_nat (ae_PrevLogIndex args)) (ae_PrevLogIndex args))
        as (j & -> & _); [lia..|]. by eexists.
Qed.

(** C33. The index a refused leader is told to retry from is never 0 (which the
    leader treats as fatal): it is just past the follower's snapshot, or at
    most the refused [PrevLogIndex], so that retries make progress. *)
Theorem AppendEntries_retry_bounds rf args rf' reply :
  raft_wf rf → AppendEntries rf args = Ret (rf', reply) → aer_Success reply = false →
  currentTerm (raftState rf) <= ae_Term args →
  1 <= aer_NextRetryStartIndex reply <= getLogLength rf ∧
  (aer_NextRetryStartIndex reply <= ae_PrevLogIndex args ∨
   ae_PrevLogIndex args < lastIncludedIndex rf ∧
   aer_NextRetryStartIndex reply = lastIncludedIndex rf + 1).
Proof.
  intros Hwf H Hs Hterm. apply AppendEntries_result in H.
  pose proof (appendPrologue_sameLog rf args) as Hsame.
  pose proof (getLogLength_sameLog _ _ Hsame) as Hlen.
  destruct Hwf as [Hwl Hwi _ _ _ _].
  destruct H as [|rf0 next -> _ Hnext|]; cbn in *; [lia| |done].
  destruct Hnext as [[Hlt ->]|(Hge & Hm & Hn)].
  { unfold getLogLength. split; [lia|]. right. lia. }
  unfold nextRetry in Hn. rewrite Hlen in Hn.
  destruct (Z.ltb_spec (getLogLength rf - 1) (ae_PrevLogIndex args)) as [Hgt|Hle].
  { injection Hn as <-. unfold getLogLength in *. split; [lia|]. left. lia. }
  go_inv. edestruct (conflictLoop_spec (appendPrologue rf args)) as (j & Hj & Hr & _);
    [| |rewrite Hj in *; simplify_eq]; lia.
Qed.

(** The commit index never goes back while the log holds the committed
    entries, and follows the leader's up to the last entry of the log. *)
Theorem AppendEntries_commit rf args rf' reply :
  raft_wf rf → AppendEntries rf args = Ret (rf', reply) →
  commitIndex rf < getLogLength rf' →
  commitIndex rf <= commitIndex rf' < getLogLength rf' ∧
  (aer_Success reply = false → commitIndex rf' = commitIndex rf) ∧
  (aer_Success reply = true → commitIndex rf < ae_LeaderCommit args →
   commitIndex rf' = Z.min (ae_LeaderCommit args) (getLogLength rf' - 1)).
Proof.
  intros Hwf H Hlen. destruct (aer_Success reply) eqn:Hs.
  - destruct (AppendEntries_stored _ _ _ _ Hwf H Hs) as (_&_&_&_&_&_&_&_&Hc&_).
    destruct (Z.ltb_spec (commitIndex rf) (ae_LeaderCommit args)); split_and!; done || lia.
  - apply AppendEntries_result in H. pose proof (appendPrologue_sameLog rf args) as Hsame.
    assert (commitIndex rf' = commitIndex rf) as ->; [|split_and!; done || lia].
    destruct Hsame as (_&_&_&_&_&Hc&_).
    by destruct H as [? -> _|? ? -> _ _|].
Qed.
End append_theorems.

(** ** RequestVote *)
Section vote_theorems.
Context {C SV : Type}.
Implicit Types rf : Raft C SV.

(** [isNewerThanMe] decides the paper's up-to-date comparison. *)
Lemma isNewerThanMe_spec rf args :
  raft_wf rf → 0 <= rv_LastLogTerm args → 0 <= rv_LastLogIndex args →
  ∃ t b, getTermOfLog rf (getLogLength rf - 1) = Ret t ∧ isNewerThanMe rf args = Ret b ∧
    (b = true ↔ upToDate (rv_LastLogTerm args) (rv_LastLogIndex args) t (getLogLength rf - 1)).
Proof.
  intros [Hwl Hwi _ _ Hw0 _] Ht0 Hi0. unfold isNewerThanMe, upToDate.
  destruct (Z.eqb_spec (getLogLength rf) 1) as [E|].
  - assert (lastIncludedIndex rf = 0) as E0 by (unfold getLogLength in E; lia).
    exists 0, true. split_and!; [|done|].
    + rewrite E, <- (Hw0 E0). replace (1 - 1) with (lastIncludedIndex rf) by lia.
      by apply getTermOfLog_boundary.
    + rewrite E. split; [|done]. lia.
  - destruct (getTermOfLog_in_range rf (getLogLength rf - 1)) as [t Ht].
    { unfold getLogLength. lia. }
    rewrite Ht. cbn. eexists _, _. split_and!; [done..|].
    rewrite orb_true_iff, andb_true_iff, Z.ltb_lt, Z.eqb_eq, Z.leb_le. lia.
Qed.

Lemma updateTerm_sameLog t rf : sameLog rf (updateTerm t rf).
Proof. unfold updateTerm, sameLog. by raft_cbn. Qed.

Lemma updateTerm_raftState t rf :
  raftState (updateTerm t rf) =
    mkRaftState followerState t (-1) (resetElectionTimer (raftState rf)).
Proof. done. Qed.

Lemma updateTerm_durable t rf : durable (updateTerm t rf).
Proof. apply persist_durable. Qed.

Lemma updateTerm_wf t rf : raft_wf rf → 0 <= t → raft_wf (updateTerm t rf).
Proof. intros [] Ht. by constructor. Qed.

(** C31. RequestVote always answers, and grants its vote exactly when the request
    is not from an older term, no other candidate got the vote of that term,
    and the candidate's log is at least as up to date as the voter's; a
    granted vote is the candidate's, in the candidate's term, and is on
    stable storage when the reply leaves. *)
Theorem RequestVote_spec rf args :
  raft_wf rf → 0 <= rv_LastLogTerm args → 0 <= rv_LastLogIndex args →
  ∃ rf' reply t, RequestVote rf args = Ret (rf', reply) ∧
    getTermOfLog rf (getLogLength rf - 1) = Ret t ∧
    (rvr_VoteGranted reply = true ↔
      currentTerm (raftState rf) <= rv_Term args ∧
      (currentTerm (raftState rf) < rv_Term args ∨ votedFor (raftState rf) = -1 ∨
       votedFor (raftState rf) = rv_CandidateId args) ∧
      upToDate (rv_LastLogTerm args) (rv_LastLogIndex args) t (getLogLength rf - 1)) ∧
    (rvr_VoteGranted reply = true →
      votedFor (raftState rf') = rv_CandidateId args ∧ durable rf') ∧
    rvr_Term reply = currentTerm (raftState rf') ∧
    currentTerm (raftState rf') = Z.max (currentTerm (raftState rf)) (rv_Term args) ∧
    log rf' = log rf ∧ commitIndex rf' = commitIndex rf.
Proof.
  intros Hwf Ht0 Hi0. unfold RequestVote.
  destruct (Z.leb_spec (currentTerm (raftState rf)) (rv_Term args)) as [Hle|Hgt].
  2: { destruct (isNewerThanMe_spec rf args Hwf Ht0 Hi0) as (t & b & Ht & _).
       eexists _, _, t. split_and!; try done; cbn; [|lia]. split; [done|lia]. }
  set (rf1 := if currentTerm (raftState rf) <? rv_Term args
              then updateTerm (rv_Term args) rf else rf).
  assert (raft_wf rf1 ∧ sameLog rf rf1 ∧ currentTerm (raftState rf1) = rv_Term args ∧
    (votedFor (raftState rf1) = -1 ∨ votedFor (raftState rf1) = rv_CandidateId args ↔
     currentTerm (raftState rf) < rv_Term args ∨ votedFor (raftState rf) = -1 ∨
     votedFor (raftState rf) = rv_CandidateId args)) as (Hwf1 & Hs & Hc1 & Hv1).
  { subst rf1. destruct (Z.ltb_spec (currentTerm (raftState rf)) (rv_Term args)).
    - rewrite updateTerm_raftState. split_and!.
      + apply updateTerm_wf; [done|]. pose proof (wf_term _ Hwf). lia.
      + apply updateTerm_sameLog.
      + done.
      + cbn. tauto.
    - split_and!; [done|by split_and!|lia|]. split; [tauto|]. intros [|]; [lia|done]. }
  clearbody rf1.
  destruct (isNewerThanMe_spec rf1 args Hwf1 Ht0 Hi0) as (t & b & Ht & Hb & Hiff).
  rewrite (getTermOfLog_sameLog rf) in Ht by done.
  rewrite (getLogLength_sameLog rf) in Ht, Hiff by done.
  destruct Hs as (_&_&Hlog&_&_&Hcom&_).
  destruct ((votedFor (raftState rf1) =? -1)
            || (votedFor (raftState rf1) =? rv_CandidateId args)) eqn:Hvote.
  - rewrite orb_true_iff, !Z.eqb_eq, Hv1 in Hvote.
    rewrite Hb. cbn. destruct b.
    + eexists _, _, t. split_and!; try done; cbn; [tauto| |lia].
      intros _. split; [done|]. apply persist_durable.
    + eexists _, _, t. split_and!; try done; cbn; [|lia].
      split; [done|]. intros (_ & _ & Hu). by apply Hiff in Hu.
  - rewrite orb_false_iff, !Z.eqb_neq in Hvote.
    eexists _, _, t. split_and!; try done; cbn; [|lia].
    split; [done|]. intros (_ & Hv & _). apply Hv1 in Hv. tauto.
Qed.
End vote_theorems.

(** ** Snapshots and Start *)
Section snapshot_theorems.
Context {C SV : Type}.
Implicit Types (rf : Raft C SV) (snap : list SV).

(** The guards under which Snapshot does anything. *)
Definition snapshotAccepts rf index : Prop :=
  dead rf = false ∧ lastIncludedIndex rf < index ∧ index <= commitIndex rf ∧
  index <= lastApplied rf.

Lemma Snapshot_accepted rf index snap :
  snapshotAccepts rf index → index < getLogLength rf →
  ∃ t, getTermOfLog rf index = Ret t ∧
    Snapshot rf index snap = Ret (set_persister (mkPersister [] snap)
      (set_log (drop (Z.to_nat (index - lastIncludedIndex rf)) (log rf))
        (set_lastIncluded index t rf))).
Proof.
  intros (Hd & Hi & Hc & Ha) Hlen. unfold Snapshot, killed. rewrite Hd.
  destruct (getTermOfLog_in_range rf index) as [t Ht]; [lia|]. exists t. split; [done|].
  destruct (Z.leb_spec index (lastIncludedIndex rf)); [lia|].
  destruct (Z.ltb_spec (commitIndex rf) index); [lia|].
  destruct (Z.ltb_spec (lastApplied rf) index); [lia|].
  rewrite leftLogFrom_spec by done. cbn. by rewrite Ht.
Qed.

Lemma Snapshot_refused rf index snap :
  ¬ snapshotAccepts rf index → Snapshot rf index snap = Ret rf.
Proof.
  unfold snapshotAccepts, Snapshot, killed. intros H. destruct (dead rf); [done|].
  destruct (Z.leb_spec index (lastIncludedIndex rf)); [done|].
  destruct (Z.ltb_spec (commitIndex rf) index); [done|].
  destruct (Z.ltb_spec (lastApplied rf) index); [done|]. exfalso. apply H. split_and!; done || lia.
Qed.

Lemma getLog_drop rf index t snap i :
  lastIncludedIndex rf <= index → index < i →
  getLog (set_persister (mkPersister [] snap)
    (set_log (drop (Z.to_nat (index - lastIncludedIndex rf)) (log rf))
      (set_lastIncluded index t rf))) i = getLog rf i.
Proof.
  intros Hi Hlt. unfold getLog, getLogLength, slice_get. raft_cbn.
  rewrite lookup_drop. unfold zlen. rewrite length_drop.
  destruct (Z.leb_spec (index + Z.of_nat (length (log rf) - Z.to_nat (index - lastIncludedIndex rf))) i),
    (Z.leb_spec (lastIncludedIndex rf + Z.of_nat (length (log rf))) i); try lia; [done|].
  destruct (Z.leb_spec i index), (Z.leb_spec i (lastIncludedIndex rf)); try lia.
  destruct (Z.ltb_spec (i - index) 0), (Z.ltb_spec (i - lastIncludedIndex rf) 0); try lia.
  by replace (Z.to_nat (index - lastIncludedIndex rf) + Z.to_nat (i - index))%nat
    with (Z.to_nat (i - lastIncludedIndex rf)) by lia.
Qed.

(** An accepted snapshot moves the boundary to its index and changes nothing
    else that the peer can observe of its log: same length, same entries and
    terms from the boundary on, same indices, same term and vote. *)
Theorem Snapshot_transparent rf index snap :
  snapshotAccepts rf index → index < getLogLength rf →
  ∃ rf', Snapshot rf index snap = Ret rf' ∧
    lastIncludedIndex rf' = index ∧ getLogLength rf' = getLogLength rf ∧
    (∀ i, index < i → getLog rf' i = getLog rf i) ∧
    (∀ i, index <= i < getLogLength rf → getTermOfLog rf' i = getTermOfLog rf i) ∧
    raftState rf' = raftState rf ∧ commitIndex rf' = commitIndex rf ∧
    lastApplied rf' = lastApplied rf ∧ ReadSnapshot (persister rf') = snap.
Proof.
  intros Hacc Hlen. destruct (Snapshot_accepted rf index snap Hacc Hlen) as (t & Ht & ->).
  destruct Hacc as (_ & Hi & _). eexists. split; [done|].
  assert (getLogLength (set_persister (mkPersister [] snap)
    (set_log (drop (Z.to_nat (index - lastIncludedIndex rf)) (log rf))
      (set_lastIncluded index t rf))) = getLogLength rf) as Hlen'.
  { unfold getLogLength in *. raft_cbn. unfold zlen in *. rewrite length_drop. lia. }
  split_and!; try done.
  - intros i Hlt. apply getLog_drop; lia.
  - intros i Hr. destruct (decide (i = index)) as [->|Hne].
    + rewrite Ht. unfold getTermOfLog. rewrite Hlen'. raft_cbn.
      destruct (Z.leb_spec (getLogLength rf) index); [lia|].
      by rewrite Z.ltb_irrefl, Z.eqb_refl.
    + destruct (getLog_in_range rf i) as (e & He & Hg); [lia|].
      rewrite (getTermOfLog_lookup rf i e) by (done || lia).
      apply getTermOfLog_lookup; raft_cbn; [lia|]. rewrite lookup_drop, <- He.
      f_equal. lia.
Qed.

(** An accepted snapshot erases the Raft state on stable storage: a restart
    before the next [persist] comes up in term 0, without its vote, its log
    and its snapshot index. *)
Theorem Snapshot_loses_state rf index snap rf' :
  snapshotAccepts rf index → Snapshot rf index snap = Ret rf' →
  ReadRaftState (persister rf') = [] ∧
  Make (peers rf') (me rf') (persister rf') =
    Ret (initRaft (peers rf) (me rf) (mkPersister [] snap)).
Proof.
  intros Hacc H. destruct (Z.lt_ge_cases index (getLogLength rf)) as [Hlt|Hge].
  - destruct (Snapshot_accepted rf index snap Hacc Hlt) as (t & _ & E).
    rewrite E in H. injection H as <-. split; [done|]. raft_cbn. apply Make_empty.
  - destruct Hacc as (Hd & Hi & Hc & Ha). unfold Snapshot, killed in H. rewrite Hd in H.
    go_inv; try lia. apply getTermOfLog_Ret in H0. lia.
Qed.

(** What an accepted snapshot from the leader leaves of a peer [rf] that is
    already in the leader's term. *)
Definition installed rf (args : InstallSnapshotArgs SV) (kept : list (LogEntry C)) : Raft C SV :=
  mkRaft (me rf) (peers rf) (dead rf) (raftState rf) (mkLogEntry 0 None :: kept)
    (is_LastIncludedIndex args) (is_LastIncludedTerm args)
    (Z.max (commitIndex rf) (is_LastIncludedIndex args)) (is_LastIncludedIndex args)
    (nextIndex rf) (matchIndex rf) (leaderInitDone rf) (applyNotifyCh rf)
    (mkPersister [] (is_Data args)).

Lemma InstallSnapshot_cases rf args :
  let rf1 := if currentTerm (raftState rf) <? is_Term args
             then updateTerm (is_Term args) rf else rf in
  let lii := is_LastIncludedIndex args in
  InstallSnapshot rf args =
    if (currentTerm (raftState rf) <=? is_Term args)
       && (lastIncludedIndex rf1 <? lii) && (lastApplied rf1 <? lii) then
      Ret (installed rf1 args (drop (Z.to_nat (lii + 1 - lastIncludedIndex rf1)) (log rf1)),
           mkInstallSnapshotReply (currentTerm (raftState rf1)),
           Some (SnapshotMsg (is_Data args) (is_LastIncludedTerm args) lii))
    else Ret (rf1, mkInstallSnapshotReply (currentTerm (raftState rf1)), None).
Proof.
  cbn zeta. unfold InstallSnapshot.
  destruct (Z.leb_spec (currentTerm (raftState rf)) (is_Term args)) as [Hle|Hgt].
  2: { destruct (Z.ltb_spec (currentTerm (raftState rf)) (is_Term args)); [lia|done]. }
  generalize (if currentTerm (raftState rf) <? is_Term args
              then updateTerm (is_Term args) rf else rf) as rf1. intros rf1.
  destruct (Z.ltb_spec (lastIncludedIndex rf1) (is_LastIncludedIndex args)); [|done].
  destruct (Z.ltb_spec (lastApplied rf1) (is_LastIncludedIndex args)) as [Ha|]; [|done].
  rewrite leftLogFrom_spec by lia. unfold installed. destruct rf1. cbn in *.
  apply Z.ltb_lt in Ha. destruct (Z.ltb_spec commitIndex (is_LastIncludedIndex args)); cbn.
  - rewrite Ha, Z.max_r by lia. done.
  - rewrite Ha, Z.max_l by lia. done.
Qed.

(** InstallSnapshot answers every request, adopts a newer term, and when the
    snapshot is ahead of both the peer's own snapshot and what it has
    applied, moves the boundary, [commitIndex] and [lastApplied] to it, keeps
    exactly the log entries after it and hands the snapshot to the service. *)
Theorem InstallSnapshot_spec rf args :
  raft_wf rf →
  ∃ rf' reply msg, InstallSnapshot rf args = Ret (rf', reply, msg) ∧
    isr_Term reply = Z.max (currentTerm (raftState rf)) (is_Term args) ∧
    (if decide (currentTerm (raftState rf) <= is_Term args ∧
                lastIncludedIndex rf < is_LastIncludedIndex args ∧
                lastApplied rf < is_LastIncludedIndex args)
     then lastIncludedIndex rf' = is_LastIncludedIndex args ∧
          getTermOfLog rf' (is_LastIncludedIndex args) = Ret (is_LastIncludedTerm args) ∧
          (∀ i, is_LastIncludedIndex args < i < getLogLength rf → getLog rf' i = getLog rf i) ∧
          getLogLength rf' = Z.max (getLogLength rf) (is_LastIncludedIndex args + 1) ∧
          commitIndex rf' = Z.max (commitIndex rf) (is_LastIncludedIndex args) ∧
          lastApplied rf' = is_LastIncludedIndex args ∧
          msg = Some (SnapshotMsg (is_Data args) (is_LastIncludedTerm args) (is_LastIncludedIndex args))
     else sameLog rf rf' ∧ msg = None).
Proof.
  intros Hwf. pose proof (InstallSnapshot_cases rf args) as E. cbn zeta in E.
  set (rf1 := if currentTerm (raftState rf) <? is_Term args then _ else _) in E.
  assert (sameLog rf rf1 ∧
    currentTerm (raftState rf1) = Z.max (currentTerm (raftState rf)) (is_Term args)) as [Hs Ht].
  { subst rf1. destruct (Z.ltb_spec (currentTerm (raftState rf)) (is_Term args)).
    - split; [apply updateTerm_sameLog|]. rewrite updateTerm_raftState. cbn. lia.
    - split; [by split_and!|lia]. }
  clearbody rf1. pose proof Hs as (_ & _ & Hl & Hi & _ & Hc & Ha & _).
  rewrite Hi, Ha in E. destruct Hwf as [Hwl Hwi _ Hwa _ _].
  destruct (Z.leb_spec (currentTerm (raftState rf)) (is_Term args)),
    (Z.ltb_spec (lastIncludedIndex rf) (is_LastIncludedIndex args)),
    (Z.ltb_spec (lastApplied rf) (is_LastIncludedIndex args)); cbn in E;
    eexists _, _, _; (split; [exact E|]); (split; [done|]);
    (rewrite decide_False by lia; done) || rewrite decide_True by done.
  rewrite Hl. split_and!; try done.
  - apply (getTermOfLog_boundary (installed _ _ _)). cbn. rewrite zlen_cons.
    pose proof (zlen_nonneg (drop (Z.to_nat (is_LastIncludedIndex args + 1 - lastIncludedIndex rf)) (log rf))).
    lia.
  - intros i Hr. destruct (getLog_in_range rf i) as (e & He & ->); [lia|].
    unfold getLogLength, zlen in Hr.
    destruct (getLog_in_range (installed rf1 args
      (drop (Z.to_nat (is_LastIncludedIndex args + 1 - lastIncludedIndex rf)) (log rf))) i)
      as (e' & He' & ->).
    { unfold getLogLength, zlen. cbn. rewrite length_drop. lia. }
    cbn in He'. replace (Z.to_nat (i - is_LastIncludedIndex args))
      with (S (Z.to_nat (i - is_LastIncludedIndex args - 1))) in He' by lia.
    match type of He' with (_ :: ?l) !! S ?n = _ => change (l !! n = Some e') in He' end.
    rewrite lookup_drop in He'.
    replace (Z.to_nat (is_LastIncludedIndex args + 1 - lastIncludedIndex rf) +
      Z.to_nat (i - is_LastIncludedIndex args - 1))%nat
      with (Z.to_nat (i - lastIncludedIndex rf)) in He' by lia. congruence.
  - unfold getLogLength, zlen. cbn. rewrite length_drop. lia.
  - cbn. lia.
Qed.

(** Start on an initialised leader appends exactly one entry, in the
    leader's term, at the index it returns, persists it, and counts itself
    as holding it; on any other peer it changes nothing and says so. *)
Theorem Start_spec rf (command : C) :
  raft_wf rf → 0 <= me rf < zlen (matchIndex rf) → zlen (nextIndex rf) = zlen (matchIndex rf) →
  leaderInitDone rf = true →
  ∃ rf' index isLeader,
    Start rf command = Ret (rf', (index, currentTerm (raftState rf), isLeader)) ∧
    isLeader = isState (raftState rf) leaderState ∧
    if isLeader : bool then
      index = getLogLength rf ∧ getLogLength rf' = index + 1 ∧
      getLog rf' index = Ret (mkLogEntry (currentTerm (raftState rf)) (Some command)) ∧
      (∀ i, i < index → getLog rf' i = getLog rf i) ∧
      slice_get (matchIndex rf') (me rf) = Ret index ∧
      slice_get (nextIndex rf') (me rf) = Ret (index + 1) ∧ durable rf'
    else rf' = rf ∧ index = getLogLength rf - 1.
Proof.
  intros Hwf Hme Hlen Hinit. unfold Start. destruct (isState _ _); [|by eexists _, _, false].
  rewrite Hinit.
  set (e := mkLogEntry (currentTerm (raftState rf)) (Some command)).
  assert (∀ rf0 : Raft C SV, log rf0 = log rf ++ [e] → lastIncludedIndex rf0 = lastIncludedIndex rf →
    getLogLength rf0 = getLogLength rf + 1 ∧
    getLog rf0 (getLogLength rf) = Ret e ∧
    (∀ i, i < getLogLength rf → getLog rf0 i = getLog rf i)) as Happ.
  { intros rf0 Hl Hi. unfold getLog, getLogLength, slice_get, zlen. rewrite Hl, Hi.
    rewrite length_app. cbn. pose proof (wf_log _ Hwf) as Hwl. unfold zlen in Hwl.
    split_and!; [lia| |].
    - repeat case_match; zbool; try lia.
      + rewrite lookup_app_r in * by lia.
        replace (_ - _)%nat with 0%nat in * by lia. naive_solver.
      + rewrite lookup_app_r in * by lia.
        replace (_ - _)%nat with 0%nat in * by lia. naive_solver.
    - intros i Hlt. destruct (Z.leb_spec (lastIncludedIndex rf + Z.of_nat (length (log rf) + 1)) i),
        (Z.leb_spec (lastIncludedIndex rf + Z.of_nat (length (log rf))) i); try lia.
      repeat case_match; zbool; try lia; try done;
        rewrite lookup_app_l in * by lia; congruence. }
  destruct (Happ (persist (set_log (log rf ++ [e]) rf))) as (Hl1 & _ & _); [done..|].
  raft_cbn. unfold slice_set.
  destruct (Z.leb_spec 0 (me rf)); [|lia].
  destruct (Z.ltb_spec (me rf) (zlen (matchIndex rf))); [|lia].
  destruct (Z.ltb_spec (me rf) (zlen (nextIndex rf))); [|lia]. cbn.
  match goal with |- ∃ _ _ _, Ret (?r, _) = _ ∧ _ => destruct (Happ r) as (Hl2 & Hg & Hi); [done..|] end.
  eexists _, _, true. split; [done|]. split; [done|]. rewrite Hl2.
  replace (getLogLength rf + 1 - 1) with (getLogLength rf) by lia.
  split_and!; try done; raft_cbn.
  - apply slice_get_Ret. split; [lia|]. rewrite list_lookup_insert_eq by (unfold zlen in *; lia).
    f_equal. unfold getLogLength. raft_cbn. autorewrite with zlen. lia.
  - apply slice_get_Ret. split; [lia|]. rewrite list_lookup_insert_eq by (unfold zlen in *; lia).
    f_equal. unfold getLogLength. raft_cbn. autorewrite with zlen. lia.
  - by apply persisted_durable.
Qed.
End snapshot_theorems.
