(* ===== verification/RaftLeader.v ===== *)
(** * RaftLeader: the goroutines of a Raft peer

    Models the parts of [src/src/raft/raft.go] that run in goroutines of the
    peer: the senders and their reply handling ([sendAppendEntries],
    [sendInstallSnapshot], [sendHeartbeatToAll], [sendAppendEntriesToAll],
    [sendRequestVoteToAll]), [tryIncrementCommitIndex], [leaderMain],
    [doElection], [followerMain] and [applyLoop].  A definition is the code
    between taking the peer's locks and releasing them; what the goroutine
    does next (stop, send again, start another goroutine) is part of the
    result.  Sleeps and log output are left out. *)

From S2P Require Import Prelude Labgob Persister RaftState RaftRpc.
Local Open Scope Z_scope.

Section leader.
Context {C SV : Type}.
Implicit Types rf : Raft C SV.

(** What a sender goroutine does after a critical section. *)
Inductive senderNext :=
  | SendStop
  | SendAppend (to : Z) (args : AppendEntriesArgs C)
  | SendSnapshot (to : Z) (args : InstallSnapshotArgs SV).

(** [rf.raftState.currentTerm == term && rf.raftState.isState(leaderState)]:
    the check before every send and after every reply. *)
Definition stillLeader rf (term : Z) : bool :=
  (currentTerm (raftState rf) =? term) && isState (raftState rf) leaderState.

Definition snapshotArgs rf (term : Z) : InstallSnapshotArgs SV :=
  mkInstallSnapshotArgs term (me rf) (lastIncludedIndex rf) (lastIncludedTerm rf)
    (ReadSnapshot (persister rf)).

(** [rf.matchIndex[to] = m; rf.nextIndex[to] = m + 1]. *)
Definition setMatch rf (to m : Z) : outcome (Raft C SV) :=
  match_ ← slice_set (matchIndex rf) to m;
  next ← slice_set (nextIndex rf) to (m + 1);
  Ret (set_peerIndex next match_ rf).

(** The update after a successful reply: only forward. *)
Definition raiseMatch rf (to m : Z) : outcome (Raft C SV) :=
  old ← slice_get (matchIndex rf) to;
  if old <? m then setMatch rf to m else Ret rf.

(** The body of [sendAppendEntries] after [Call] returned [ok]. *)
Definition sendAppendEntries_reply rf (to : Z) (args : AppendEntriesArgs C)
    (reply : AppendEntriesReply) : outcome (Raft C SV * senderNext) :=
  if negb (stillLeader rf (ae_Term args)) then Ret (rf, SendStop) else
  let leaderTermSmaller := currentTerm (raftState rf) <? aer_Term reply in
  let rf := if leaderTermSmaller then updateTerm (aer_Term reply) rf else rf in
  if aer_Success reply then
    rf ← raiseMatch rf to (ae_PrevLogIndex args + zlen (ae_Entries args));
    Ret (rf, SendStop)
  else if leaderTermSmaller then Ret (rf, SendStop)
  else if aer_NextRetryStartIndex reply =? 0 then Fatal
  else if aer_NextRetryStartIndex reply <=? lastIncludedIndex rf then
    Ret (rf, SendSnapshot to (snapshotArgs rf (currentTerm (raftState rf))))
  else
    next ← slice_set (nextIndex rf) to (aer_NextRetryStartIndex reply);
    let rf := set_peerIndex next (matchIndex rf) rf in
    let prev := aer_NextRetryStartIndex reply - 1 in
    prevTerm ← (if 0 <=? prev then getTermOfLog rf prev else Ret (ae_PrevLogTerm args));
    entries ← getLogsFrom rf (aer_NextRetryStartIndex reply);
    Ret (rf, SendAppend to (mkAppendEntriesArgs (ae_Term args) (ae_LeaderId args) entries
                              prev prevTerm (ae_LeaderCommit args))).

(** The AppendEntries sent from index [next] on, or the snapshot when the
    entry before it is gone. *)
Definition appendArgsFrom rf (thisTerm to next : Z) : outcome senderNext :=
  let prev := next - 1 in
  if prev <? lastIncludedIndex rf then Ret (SendSnapshot to (snapshotArgs rf thisTerm)) else
  prevTerm ← getTermOfLog rf prev;
  entries ← getLogsFrom rf next;
  Ret (SendAppend to (mkAppendEntriesArgs thisTerm (me rf) entries prev prevTerm (commitIndex rf))).

(** The body of [sendInstallSnapshot] after [Call] returned [ok]. *)
Definition sendInstallSnapshot_reply rf (to : Z) (args : InstallSnapshotArgs SV)
    (reply : InstallSnapshotReply) : outcome (Raft C SV * senderNext) :=
  if negb (stillLeader rf (is_Term args)) then Ret (rf, SendStop)
  else if currentTerm (raftState rf) <? isr_Term reply then
    Ret (updateTerm (isr_Term reply) rf, SendStop)
  else
    rf ← setMatch rf to (is_LastIncludedIndex args);
    next ← appendArgsFrom rf (is_Term args) to (is_LastIncludedIndex args + 1);
    Ret (rf, next).

(** One round of [sendHeartbeatToAll]: the arguments, the same for every
    peer, and the handling of a reply. *)
Definition heartbeatArgs rf (thisTerm : Z) : outcome (AppendEntriesArgs C) :=
  let prev := getLogLength rf - 1 in
  prevTerm ← getTermOfLog rf prev;
  Ret (mkAppendEntriesArgs thisTerm (me rf) [] prev prevTerm (commitIndex rf)).

(** The loop waits for another reply. *)
Definition heartbeatWaits rf (thisTerm replyCount : Z) : bool :=
  negb ((thisTerm <? currentTerm (raftState rf)) || negb (isState (raftState rf) leaderState))
  && negb (replyCount =? Z.of_nat (peers rf) - 1).

Definition heartbeat_reply rf (from : Z) (args : AppendEntriesArgs C)
    (reply : AppendEntriesReply) : outcome (Raft C SV) :=
  let rf := if currentTerm (raftState rf) <? aer_Term reply
            then updateTerm (aer_Term reply) rf else rf in
  if aer_Success reply then raiseMatch rf from (ae_PrevLogIndex args) else Ret rf.

(** [sendAppendEntriesToAll]: what is sent to each peer. *)
Definition sendTo rf (thisTerm i : Z) : outcome (list senderNext) :=
  if i =? me rf then Ret [] else
  next ← slice_get (nextIndex rf) i;
  if next <=? getLogLength rf - 1
  then m ← appendArgsFrom rf thisTerm i next; Ret [m] else Ret [].

Fixpoint sendToEach rf (thisTerm : Z) (ids : list Z) : outcome (list senderNext) :=
  match ids with
  | [] => Ret []
  | i :: ids' => m ← sendTo rf thisTerm i; ms ← sendToEach rf thisTerm ids'; Ret (m ++ ms)
  end.

Definition sendAppendEntriesToAll rf (thisTerm : Z) : outcome (list senderNext) :=
  sendToEach rf thisTerm (seqZ 0 (Z.of_nat (peers rf))).

(** ** tryIncrementCommitIndex *)

(** The bounds of a scan: log length, term and commit index; [None] ends
    the goroutine. *)
Definition commitScanBegin rf : option (Z * Z * Z) :=
  if isState (raftState rf) leaderState
  then Some (getLogLength rf, currentTerm (raftState rf), commitIndex rf) else None.

(** [for j := 0; j < len(rf.peers); j++ { if rf.matchIndex[j] >= i { count += 1 } }] *)
Fixpoint countMatch (matchIndex : list Z) (i : Z) (ids : list Z) : outcome Z :=
  match ids with
  | [] => Ret 0
  | j :: ids' =>
      m ← slice_get matchIndex j;
      n ← countMatch matchIndex i ids';
      Ret (if i <=? m then n + 1 else n)
  end.

(** An iteration for index [i] is three critical sections, with the other
    goroutines in between: under [logMutex], the next value of [i] and whether
    the entry is of the term of the scan; *)
Definition scanTerm rf (thisTerm i : Z) : outcome (Z * bool) :=
  if i <=? lastIncludedIndex rf then Ret (lastIncludedIndex rf + 1, false) else
  nowLogTerm ← getTermOfLog rf i;
  Ret (i + 1, nowLogTerm =? thisTerm).

(** under [peerLogMutex], the count; *)
Definition scanCount rf (i : Z) : outcome Z :=
  countMatch (matchIndex rf) i (seqZ 0 (Z.of_nat (peers rf))).

(** and under [commitMutex], the new commit index. *)
Definition commitWrite rf (i count : Z) : outcome (Raft C SV) :=
  if (Z.of_nat (peers rf) / 2 <? count) && (commitIndex rf <? i)
  then notifyApply (set_commitIndex i rf) else Ret rf.

(** ** Elections *)

(** What [leaderMain] does before its first heartbeat: the indices, under
    [peerLogMutex] and [logMutex], and then the flag, under
    [leaderInitMutex]. *)
Definition leaderInit rf : Raft C SV :=
  set_peerIndex (replicate (peers rf) (getLogLength rf)) (replicate (peers rf) 0) rf.
Definition leaderReady rf : Raft C SV := set_leaderInitDone true rf.

(** The critical section of [doElection]: it does not look at [state]. *)
Definition doElection rf : Raft C SV :=
  persist (set_term_vote (currentTerm (raftState rf) + 1) (me rf) rf).

Definition requestVoteArgs rf (thisTerm : Z) : outcome RequestVoteArgs :=
  t ← getTermOfLog rf (getLogLength rf - 1);
  Ret (mkRequestVoteArgs thisTerm (me rf) (getLogLength rf - 1) t).

(** The loop of [sendRequestVoteToAll] on a received reply: [None] breaks
    out, otherwise the peer and the new vote count.  A reply that is not
    [ok] makes the goroutine send the same request again. *)
Definition voteReply rf (thisTerm grantedVoteSum : Z) (ok : bool) (reply : RequestVoteReply) :
    option (Raft C SV * Z) :=
  if (thisTerm <? currentTerm (raftState rf)) || negb (isState (raftState rf) candidateState)
  then None
  else if ok then
    let rf := if currentTerm (raftState rf) <? rvr_Term reply
              then updateTerm (rvr_Term reply) rf else rf in
    if rvr_VoteGranted reply then
      let sum := grantedVoteSum + 1 in
      if (Z.of_nat (peers rf) / 2 <? sum) && isState (raftState rf) candidateState
      then Some (set_leaderInitDone false (set_state leaderState rf), sum)
      else Some (rf, sum)
    else Some (rf, grantedVoteSum)
  else Some (rf, grantedVoteSum).

(** One turn of the timer loop of [followerMain]: the counter after [i++]. *)
Definition followerTick rf (i : Z) : Raft C SV * Z :=
  if resetElectionTimer (raftState rf) then (set_reset false rf, 0 + 1) else (rf, i + 1).

(** The end of [followerMain]. *)
Definition followerTimeout rf : Raft C SV := set_state candidateState rf.

(** What [mainLoop] calls for the role it read, and how far [leaderMain] has
    come: called, with its indices initialised, and sending heartbeats. *)
Inductive mainBranch := RunLeader | LeaderIndexed | LeaderBeats | RunElection | RunFollower.
Definition mainLoop rf : option mainBranch :=
  if killed rf then None else
  Some (match state (raftState rf) with
        | leaderState => RunLeader
        | candidateState => RunElection
        | followerState => RunFollower
        end).

(** ** applyLoop *)

(** Receiving a token and the first critical section, which sets
    [needUpdate], with [nextApplied := rf.lastApplied + 1] after it. *)
Definition applyCheck rf : outcome (Raft C SV * option Z) :=
  if applyNotifyCh rf =? 0 then Block else
  let needUpdate := lastApplied rf <? commitIndex rf in
  Ret (set_applyNotifyCh (applyNotifyCh rf - 1) rf,
       if needUpdate then Some (lastApplied rf + 1) else None).

(** The second critical section, entered later: the entries to apply, or
    nothing when a snapshot has taken them. *)
Definition applyBegin rf (nextApplied : Z) : outcome (option (list (LogEntry C))) :=
  if nextApplied <? lastIncludedIndex rf then Ret None else
  toBeApplied ← getLogs rf nextApplied (commitIndex rf + 1);
  Ret (Some toBeApplied).

(** The messages sent on [applyCh], outside the locks. *)
Definition applyMsgs (nextApplied : Z) (entries : list (LogEntry C)) : list (ApplyMsg C SV) :=
  imap (λ i e, CommandMsg (le_Command e) (Z.of_nat i + nextApplied)) entries.

(** [rf.lastApplied += len(toBeApplied)], after the last message. *)
Definition applyEnd rf (entries : list (LogEntry C)) : Raft C SV :=
  set_lastApplied (lastApplied rf + zlen entries) rf.
End leader.
Arguments senderNext : clear implicits.

(** ** What leaders send *)

(** [args] is a consecutive piece of the log of [rf] that reaches its end,
    preceded by the matching (index, term) pair. *)
Definition sliceOf {C SV} (rf : Raft C SV) (args : AppendEntriesArgs C) : Prop :=
  lastIncludedIndex rf <= ae_PrevLogIndex args ∧
  getTermOfLog rf (ae_PrevLogIndex args) = Ret (ae_PrevLogTerm args) ∧
  ae_Entries args = drop (Z.to_nat (ae_PrevLogIndex args + 1 - lastIncludedIndex rf)) (log rf).

Section logs_from.
Context {C SV : Type}.
Implicit Types rf : Raft C SV.

Lemma getLogsFrom_Ret rf next es :
  getLogsFrom rf next = Ret es →
  lastIncludedIndex rf < next <= getLogLength rf ∧
  es = drop (Z.to_nat (next - lastIncludedIndex rf)) (log rf).
Proof.
  unfold getLogsFrom, getLogs. intros H. go_inv.
  apply slice_sub_Ret in H as (H1 & H2 & ->).
  unfold getLogLength in *. split; [lia|]. apply take_ge. rewrite length_drop.
  unfold zlen in *. lia.
Qed.

Lemma getLogsFrom_in_range rf next :
  lastIncludedIndex rf < next <= getLogLength rf → is_Ret (getLogsFrom rf next).
Proof.
  intros Hr. unfold getLogsFrom, getLogs.
  destruct (Z.ltb_spec (getLogLength rf) (getLogLength rf)); [lia|].
  destruct (Z.leb_spec next (lastIncludedIndex rf)); [lia|].
  eexists. apply slice_sub_Ret. unfold getLogLength, zlen in *. split_and!; done || lia.
Qed.
End logs_from.

Ltac inv_logsFrom :=
  match goal with H : getLogsFrom _ _ = Ret _ |- _ => apply getLogsFrom_Ret in H as [? ->] end.

Section leader_lemmas.
Context {C SV : Type}.
Implicit Types rf : Raft C SV.

Lemma setMatch_Ret rf to m rf' :
  setMatch rf to m = Ret rf' →
  0 <= to < zlen (matchIndex rf) ∧ to < zlen (nextIndex rf) ∧
  rf' = set_peerIndex (<[Z.to_nat to := m + 1]> (nextIndex rf))
                      (<[Z.to_nat to := m]> (matchIndex rf)) rf.
Proof.
  unfold setMatch. intros H. apply bind_Ret in H as (l1 & H1 & H).
  apply bind_Ret in H as (l2 & H2 & [= <-]).
  apply slice_set_Ret in H1 as [? ->]. apply slice_set_Ret in H2 as [? ->].
  split_and!; done || lia.
Qed.

(** [raiseMatch] only ever raises entries of [matchIndex]. *)
Lemma raiseMatch_Ret rf to m rf' :
  raiseMatch rf to m = Ret rf' →
  ∃ old, matchIndex rf !! Z.to_nat to = Some old ∧
    matchIndex rf' = <[Z.to_nat to := Z.max old m]> (matchIndex rf) ∧
    (old < m → nextIndex rf' = <[Z.to_nat to := m + 1]> (nextIndex rf)) ∧
    (m <= old → rf' = rf) ∧ log rf' = log rf ∧ raftState rf' = raftState rf.
Proof.
  unfold raiseMatch. intros H. apply bind_Ret in H as (old & Hold & H).
  apply slice_get_Ret in Hold as [? Hold]. exists old. split; [done|].
  destruct (Z.ltb_spec old m).
  - apply setMatch_Ret in H as (_ & _ & ->). rewrite Z.max_r by lia.
    split_and!; try done; lia.
  - injection H as <-. rewrite Z.max_l by lia. rewrite list_insert_id by done.
    split_and!; try done; lia.
Qed.

Lemma seqZ_S k n :
  seqZ (Z.of_nat k) (Z.of_nat (S n)) = Z.of_nat k :: seqZ (Z.of_nat (S k)) (Z.of_nat n).
Proof. rewrite seqZ_cons by lia. f_equal. f_equal; lia. Qed.

Lemma countMatch_from l i k n c :
  countMatch l i (seqZ (Z.of_nat k) (Z.of_nat n)) = Ret c →
  c = Z.of_nat (length (filter (λ m, i <= m) (take n (drop k l)))).
Proof.
  revert k c. induction n as [|n IH]; intros k c; [cbn; by intros [= <-]|].
  rewrite seqZ_S. cbn [countMatch]. intros H.
  apply bind_Ret in H as (m & Hm & H). apply bind_Ret in H as (c' & Hc & [= <-]).
  apply slice_get_Ret in Hm as [_ Hm]. rewrite Nat2Z.id in Hm.
  apply IH in Hc as ->. rewrite (drop_S _ _ _ Hm). cbn [take].
  rewrite filter_cons. destruct (Z.leb_spec i m).
  - rewrite decide_True by done. cbn [length]. lia.
  - rewrite decide_False by lia. done.
Qed.

Lemma countMatch_spec l i n c :
  countMatch l i (seqZ 0 (Z.of_nat n)) = Ret c →
  c = Z.of_nat (length (filter (λ m, i <= m) (take n l))).
Proof. apply (countMatch_from l i 0 n c). Qed.

Lemma countMatch_in_range l i k n :
  (k + n <= length l)%nat → is_Ret (countMatch l i (seqZ (Z.of_nat k) (Z.of_nat n))).
Proof.
  revert k. induction n as [|n IH]; intros k Hk; [by eexists|].
  rewrite seqZ_S. cbn [countMatch].
  destruct (slice_get_in_range l (Z.of_nat k)) as [m ->]; [unfold zlen; lia|]. cbn.
  destruct (IH (S k)) as [c ->]; [lia|]. by eexists.
Qed.

Lemma appendArgsFrom_sliceOf rf term to next to' args :
  appendArgsFrom rf term to next = Ret (SendAppend to' args) →
  sliceOf rf args ∧ ae_Term args = term ∧ ae_PrevLogIndex args = next - 1 ∧
  ae_LeaderCommit args = commitIndex rf.
Proof.
  unfold appendArgsFrom, sliceOf. intros H. go_inv.
  inv_logsFrom.
  split_and!; try done; try lia. do 2 f_equal. lia.
Qed.
End leader_lemmas.

Section leader_theorems.
Context {C SV : Type}.
Implicit Types rf : Raft C SV.

(** Whatever a leader puts into an AppendEntries request, for a new command,
    after a refusal, after a snapshot or as a heartbeat, is a consecutive
    piece of its own log that reaches to the end of it (and, for heartbeats,
    is empty), behind the matching previous entry. *)
Theorem leader_requests_are_slices rf rf' thisTerm to args oldargs reply sargs sreply ids :
  raft_wf rf →
  (∀ ms, sendToEach rf thisTerm ids = Ret ms → SendAppend to args ∈ ms → sliceOf rf args) ∧
  (sendAppendEntries_reply rf to oldargs reply = Ret (rf', SendAppend to args) →
    sliceOf rf' args ∧ log rf' = log rf) ∧
  (sendInstallSnapshot_reply rf to sargs sreply = Ret (rf', SendAppend to args) →
    sliceOf rf' args ∧ log rf' = log rf) ∧
  (heartbeatArgs rf thisTerm = Ret args → sliceOf rf args).
Proof.
  intros [Hl Hlii _ _ _ _]. split_and!.
  - induction ids as [|i ids IH]; cbn; intros ms Hms Hin; [injection Hms as <-; by apply not_elem_of_nil in Hin|].
    apply bind_Ret in Hms as (m & Hm & Hms). apply bind_Ret in Hms as (ms' & Hms' & [= <-]).
    apply elem_of_app in Hin as [Hin|Hin]; [|by eapply IH].
    unfold sendTo in Hm. go_inv; try by apply not_elem_of_nil in Hin.
    apply list_elem_of_singleton in Hin as <-. by eapply appendArgsFrom_sliceOf.
  - unfold sendAppendEntries_reply. intros H.
    destruct (negb _); [done|]. destruct (currentTerm _ <? _); cbn zeta in H; go_inv; [|lia].
    inv_logsFrom.
    split; [|done]. unfold sliceOf. cbn. raft_cbn. split_and!; [lia|done|].
    do 2 f_equal. lia.
  - unfold sendInstallSnapshot_reply. intros H. go_inv.
    match goal with H : setMatch _ _ _ = _ |- _ => apply setMatch_Ret in H as (_ & _ & ->) end.
    split; [|done]. by eapply appendArgsFrom_sliceOf.
  - unfold heartbeatArgs, sliceOf. intros H. go_inv. unfold getLogLength in *.
    split_and!; [lia|done|]. symmetry. apply drop_ge. unfold zlen in *. lia.
Qed.

(** Replies to AppendEntries and to heartbeats never lower an entry of
    [matchIndex]; a successful reply raises it to what the request proved. *)
Theorem matchIndex_monotone rf rf' next to args reply :
  stillLeader rf (ae_Term args) = true → aer_Term reply <= currentTerm (raftState rf) →
  sendAppendEntries_reply rf to args reply = Ret (rf', next) ∨
  heartbeat_reply rf to args reply = Ret rf' ∧ ae_Entries args = [] →
  ∀ j old, matchIndex rf !! j = Some old →
    ∃ new, matchIndex rf' !! j = Some new ∧ old <= new ∧
      (j = Z.to_nat to → aer_Success reply = true →
         new = Z.max old (ae_PrevLogIndex args + zlen (ae_Entries args))) ∧
      (j ≠ Z.to_nat to → new = old).
Proof.
  intros Hl Ht Hcase j old Hj.
  assert (∀ m, aer_Success reply = true → m = ae_PrevLogIndex args + zlen (ae_Entries args) →
    raiseMatch rf to m = Ret rf' →
    ∃ new, matchIndex rf' !! j = Some new ∧ old <= new ∧
      (j = Z.to_nat to → aer_Success reply = true →
         new = Z.max old (ae_PrevLogIndex args + zlen (ae_Entries args))) ∧
      (j ≠ Z.to_nat to → new = old)) as Hraise.
  { intros m Hs Hm Hr. apply raiseMatch_Ret in Hr as (o & Ho & -> & _).
    destruct (decide (j = Z.to_nat to)) as [->|Hne].
    - rewrite Hj in Ho. injection Ho as <-. apply lookup_lt_Some in Hj.
      rewrite list_lookup_insert_eq by done. eexists. split_and!; [done|lia| |done].
      intros _ _. by rewrite Hm.
    - rewrite list_lookup_insert_ne by done. exists old. split_and!; done || lia. }
  unfold sendAppendEntries_reply, heartbeat_reply in Hcase. rewrite Hl in Hcase. cbn in Hcase.
  destruct (Z.ltb_spec (currentTerm (raftState rf)) (aer_Term reply)); [lia|].
  destruct (aer_Success reply) eqn:Hs.
  - destruct Hcase as [H'|[H' He]].
    + apply bind_Ret in H' as (r & Hr & [= -> _]). by eapply Hraise.
    + eapply Hraise; [done| |done]. rewrite He, zlen_nil. lia.
  - exists old. assert (matchIndex rf' = matchIndex rf) as ->; [|split_and!; done || lia].
    destruct Hcase as [H'|[[= <-] _]]; [|done]. by go_inv.
Qed.

(** The commit rule, with the three sections of an iteration at three
    moments [rf0], [rf1], [rf2] of the peer: the write advances the commit
    index, to [i], exactly when a strict majority of [matchIndex] covered [i] at the
    count and [i] is not yet committed; it is reached only if the log had an
    entry of the scanned term at [i]; it touches nothing but the commit index
    and the notification channel. *)
Theorem commit_rule rf0 rf1 rf2 thisTerm i i' count rf' :
  length (matchIndex rf1) = peers rf1 → peers rf2 = peers rf1 →
  scanTerm rf0 thisTerm i = Ret (i', true) → scanCount rf1 i = Ret count →
  commitWrite rf2 i count = Ret rf' →
  let holders := length (filter (λ m, i <= m) (matchIndex rf1)) in
  lastIncludedIndex rf0 < i ∧ getTermOfLog rf0 i = Ret thisTerm ∧ i' = i + 1 ∧
  (commitIndex rf' ≠ commitIndex rf2 ↔ commitIndex rf2 < i ∧ (peers rf2 < 2 * holders)%nat) ∧
  (commitIndex rf' ≠ commitIndex rf2 → commitIndex rf' = i) ∧
  log rf' = log rf2 ∧ raftState rf' = raftState rf2.
Proof.
  intros Hlen Hpeers Ht Hc Hr holders. unfold scanTerm in Ht.
  destruct (Z.leb_spec i (lastIncludedIndex rf0)); [done|].
  apply bind_Ret in Ht as (t & Ht & [= <- ->%Z.eqb_eq]).
  do 3 (split; [done|]). apply countMatch_spec in Hc. rewrite take_ge in Hc by lia.
  fold holders in Hc. subst count. unfold commitWrite, notifyApply in Hr.
  pose proof (majority_lt (Z.of_nat (peers rf2)) (Z.of_nat holders)) as Hmaj.
  clearbody holders.
  destruct (Z.ltb_spec (Z.of_nat (peers rf2) / 2) (Z.of_nat holders)),
    (Z.ltb_spec (commitIndex rf2) i); cbn in Hr; go_inv; raft_cbn;
    (split_and!; try done; try lia);
    (split; [intros ?; first [congruence | split_and!; done || lia]|intros (? & ?); lia]).
Qed.
End leader_theorems.

(** ** Applying committed entries *)
Section apply_theorems.
Context {C SV : Type}.
Implicit Types rf : Raft C SV.

(** With a token in the channel, a well-formed peer that has committed
    entries to apply finds that out; and if its log then holds the committed
    entries, of which there may be more by now, it sends its service exactly
    the entries after [lastApplied] up to [commitIndex], in order and with their
    indices, and [lastApplied] then is [commitIndex]. *)
Theorem apply_in_order rf rf1 :
  applyNotifyCh rf ≠ 0 → lastApplied rf < commitIndex rf →
  raft_wf rf1 → lastApplied rf1 = lastApplied rf → commitIndex rf <= commitIndex rf1 < getLogLength rf1 →
  (∃ rf', applyCheck rf = Ret (rf', Some (lastApplied rf + 1))) ∧
  ∃ entries, applyBegin rf1 (lastApplied rf + 1) = Ret (Some entries) ∧
    zlen entries = commitIndex rf1 - lastApplied rf ∧
    (∀ k : nat, Z.of_nat k < zlen entries →
       ∃ e, getLog rf1 (lastApplied rf + 1 + Z.of_nat k) = Ret e ∧
         applyMsgs (SV:=SV) (lastApplied rf + 1) entries !! k =
           Some (CommandMsg (le_Command e) (lastApplied rf + 1 + Z.of_nat k))) ∧
    lastApplied (applyEnd rf1 entries) = commitIndex rf1.
Proof.
  intros Htok Hneed [Hwl Hwi Hwc Hwa _ _] Ea Hap. split.
  { unfold applyCheck. destruct (Z.eqb_spec (applyNotifyCh rf) 0); [done|].
    destruct (Z.ltb_spec (lastApplied rf) (commitIndex rf)); [|lia]. by eexists. }
  rewrite <- Ea in *. unfold applyBegin.
  destruct (Z.ltb_spec (lastApplied rf1 + 1) (lastIncludedIndex rf1)); [lia|].
  unfold getLogs, getLogLength in *.
  destruct (Z.ltb_spec (lastIncludedIndex rf1 + zlen (log rf1)) (commitIndex rf1 + 1)); [lia|].
  destruct (Z.leb_spec (lastApplied rf1 + 1) (lastIncludedIndex rf1)); [lia|].
  set (a := lastApplied rf1 + 1 - lastIncludedIndex rf1).
  set (b := commitIndex rf1 + 1 - lastIncludedIndex rf1).
  assert (∃ es, slice_sub (log rf1) a b = Ret es) as [es Hes].
  { eexists. apply slice_sub_Ret. split_and!; [lia..|done]. }
  rewrite Hes. cbn. exists es. split; [done|].
  pose proof (slice_sub_length _ _ _ _ Hes) as Hlen.
  split_and!; [lia| |raft_cbn; lia].
  intros k Hk. pose proof (slice_sub_lookup _ _ _ _ k Hes ltac:(lia)) as Hlk.
  destruct (lookup_lt_is_Some_2 es k) as [e He]; [unfold zlen in Hk; lia|].
  exists e. split.
  - destruct (getLog_in_range rf1 (lastApplied rf1 + 1 + Z.of_nat k)) as (e' & He' & ->).
    { unfold getLogLength. lia. }
    rewrite Hlk in He. replace (Z.to_nat a + k)%nat with
      (Z.to_nat (lastApplied rf1 + 1 + Z.of_nat k - lastIncludedIndex rf1)) in He by lia.
    congruence.
  - unfold applyMsgs. rewrite list_lookup_imap, He. cbn. do 2 f_equal. lia.
Qed.
End apply_theorems.

(** ** Interleavings that go wrong

    Concrete runs of the definitions above, each a schedule of critical
    sections that the locks of the source allow. *)

Definition mkEntry (t c : Z) : LogEntry Z := mkLogEntry t (Some c).

(** A peer of a cluster of three with the given role, term and log. *)
Definition peerOf (id : Z) (s : role) (term vote : Z) (l : list (LogEntry Z))
    (commit applied : Z) (next match_ : list Z) : Raft Z Z :=
  mkRaft id 3 false (mkRaftState s term vote false) (mkLogEntry 0 None :: l) 0 0
    commit applied next match_ true 1 (mkPersister [] []).

(** [applyLoop] has taken entries 1 and 2 and is sending them when a snapshot
    of index 5 is installed: [lastApplied] becomes 5 and then, when
    [applyLoop] adds the 2 entries it sent, 7, two past everything that was
    committed; entries 6 and 7 are never delivered. *)
Example apply_install_race :
  let rf := peerOf 1 followerState 2 0 [mkEntry 1 10; mkEntry 1 11] 2 0 [] [] in
  ∃ rf1 n es rf2 reply msg,
    applyCheck rf = Ret (rf1, Some n) ∧ applyBegin rf1 n = Ret (Some es) ∧
    InstallSnapshot rf1 (mkInstallSnapshotArgs 2 0 5 2 [99]) = Ret (rf2, reply, msg) ∧
    commitIndex (applyEnd rf2 es) = 5 ∧ lastApplied (applyEnd rf2 es) = 7.
Proof. cbn zeta. eexists _, _, _, _, _, _. split_and!; reflexivity. Qed.

(** A scan of [tryIncrementCommitIndex] that started with four entries in the
    log reaches index 3 after a new leader's AppendEntries has cut the log
    back to index 1: [getTermOfLog] ends the process. *)
Example commit_scan_crash :
  let rf := peerOf 0 leaderState 1 0 [mkEntry 1 10; mkEntry 1 11; mkEntry 1 12] 0 0 [4; 1; 1] [3; 0; 0] in
  ∃ rf1 reply,
    commitScanBegin rf = Some (4, 1, 0) ∧
    AppendEntries rf (mkAppendEntriesArgs 2 1 [mkEntry 2 20] 0 0 0) = Ret (rf1, reply) ∧
    getLogLength rf1 = 2 ∧ scanTerm rf1 1 3 = Fatal.
Proof. cbn zeta. eexists _, _. split_and!; reflexivity. Qed.

(** A reply to a heartbeat of term 1 that is handled when the peer leads term
    3 raises the [matchIndex] of term 3, and the next scan commits an entry
    of term 3 before any peer has answered a request of that term. *)
Example stale_heartbeat_commits :
  let rf := peerOf 0 leaderState 3 0 [mkEntry 3 30] 0 0 [2; 1; 1] [1; 0; 0] in
  let args := mkAppendEntriesArgs 1 0 [] 1 1 0 in
  let reply := mkAppendEntriesReply 1 true 0 in
  ∃ rf1 n rf2,
    heartbeat_reply rf 1 args reply = Ret rf1 ∧
    scanTerm rf1 3 1 = Ret (2, true) ∧ scanCount rf1 1 = Ret n ∧
    commitWrite rf1 1 n = Ret rf2 ∧ commitIndex rf2 = 1.
Proof. cbn zeta. eexists _, _, _. split_and!; reflexivity. Qed.

(** A reply to InstallSnapshot sets [matchIndex] back to the index of the
    snapshot, below what AppendEntries replies had proved. *)
Example snapshot_reply_lowers_match :
  let rf := peerOf 0 leaderState 1 0 [mkEntry 1 10; mkEntry 1 11; mkEntry 1 12] 0 0 [4; 4; 1] [3; 3; 0] in
  ∃ rf1 next,
    sendInstallSnapshot_reply rf 1 (mkInstallSnapshotArgs 1 0 1 1 []) (mkInstallSnapshotReply 1)
      = Ret (rf1, next) ∧
    matchIndex rf = [3; 3; 0] ∧ matchIndex rf1 = [3; 1; 0].
Proof. cbn zeta. eexists _, _. split_and!; reflexivity. Qed.
