(* ===== verification/RaftPeer.v ===== *)
(** * RaftPeer: one peer under every schedule of its critical sections

    [exec] runs one critical section of a peer, whichever goroutine or RPC it
    belongs to, with arbitrary arguments from the network; [OpRestart] is a
    crash followed by [Make] on the same persister.  The theorems are
    invariants of every such schedule. *)

From S2P Require Import Prelude Labgob Persister RaftState RaftRpc RaftLeader.
Local Open Scope Z_scope.

Section peer.
Context {C SV : Type}.
Implicit Types rf : Raft C SV.

Inductive peerOp :=
  | OpRequestVote (args : RequestVoteArgs)
  | OpAppendEntries (args : AppendEntriesArgs C)
  | OpInstallSnapshot (args : InstallSnapshotArgs SV)
  | OpSnapshot (index : Z) (snap : list SV)
  | OpStart (command : C)
  | OpAppendReply (to : Z) (args : AppendEntriesArgs C) (reply : AppendEntriesReply)
  | OpSnapshotReply (to : Z) (args : InstallSnapshotArgs SV) (reply : InstallSnapshotReply)
  | OpHeartbeatReply (from : Z) (args : AppendEntriesArgs C) (reply : AppendEntriesReply)
  | OpCommitWrite (i count : Z)
  | OpLeaderInit
  | OpLeaderReady
  | OpElection
  | OpVoteReply (thisTerm sum : Z) (ok : bool) (reply : RequestVoteReply)
  | OpTick (i : Z)
  | OpTimeout
  | OpApplyCheck
  | OpApplyEnd (entries : list (LogEntry C))
  | OpKill
  | OpRestart.

Definition exec (op : peerOp) rf : outcome (Raft C SV) :=
  match op with
  | OpRequestVote args => '(rf, _) ← RequestVote rf args; Ret rf
  | OpAppendEntries args => '(rf, _) ← AppendEntries rf args; Ret rf
  | OpInstallSnapshot args => '(rf, _, _) ← InstallSnapshot rf args; Ret rf
  | OpSnapshot index snap => Snapshot rf index snap
  | OpStart command => '(rf, _) ← Start rf command; Ret rf
  | OpAppendReply to args reply => '(rf, _) ← sendAppendEntries_reply rf to args reply; Ret rf
  | OpSnapshotReply to args reply => '(rf, _) ← sendInstallSnapshot_reply rf to args reply; Ret rf
  | OpHeartbeatReply from args reply => heartbeat_reply rf from args reply
  | OpCommitWrite i count => commitWrite rf i count
  | OpLeaderInit => Ret (leaderInit rf)
  | OpLeaderReady => Ret (leaderReady rf)
  | OpElection => Ret (doElection rf)
  | OpVoteReply thisTerm sum ok reply =>
      match voteReply rf thisTerm sum ok reply with
      | Some (rf', _) => Ret rf'
      | None => Ret rf
      end
  | OpTick i => Ret (followerTick rf i).1
  | OpTimeout => Ret (followerTimeout rf)
  | OpApplyCheck => '(rf, _) ← applyCheck rf; Ret rf
  | OpApplyEnd entries => Ret (applyEnd rf entries)
  | OpKill => Ret (Kill rf)
  | OpRestart => Make (peers rf) (me rf) (persister rf)
  end.

(** The two operations that replace the saved Raft state by nothing. *)
Definition savesSnapshot (op : peerOp) : bool :=
  match op with OpSnapshot _ _ | OpInstallSnapshot _ => true | _ => false end.

Inductive reach : Raft C SV → Prop :=
  | reach_init n id snap : reach (initRaft n id (mkPersister [] snap))
  | reach_step rf op rf' : reach rf → exec op rf = Ret rf' → reach rf'.

(** What the persister holds is nothing or the state of a well-formed peer. *)
Definition raft_ok rf : Prop :=
  raft_wf rf ∧
  (raftstate (persister rf) = [] ∨
   ∃ r : Raft C SV, raft_wf r ∧ raftstate (persister rf) = encodeState r).
End peer.
Arguments peerOp : clear implicits.

Section peer_lemmas.
Context {C SV : Type}.
Implicit Types rf : Raft C SV.

(** *** Role, term and vote *)

(** How a critical section other than granting a vote, starting an election
    or winning one can change role, term and vote. *)
Inductive voteStep rf rf' : Prop :=
  | vs_same :
      currentTerm (raftState rf') = currentTerm (raftState rf) →
      votedFor (raftState rf') = votedFor (raftState rf) →
      (state (raftState rf') = leaderState → state (raftState rf) = leaderState) →
      voteStep rf rf'
  | vs_newer :
      currentTerm (raftState rf) < currentTerm (raftState rf') →
      votedFor (raftState rf') = -1 → state (raftState rf') = followerState →
      voteStep rf rf'.

Lemma voteStep_refl rf rf' : raftState rf' = raftState rf → voteStep rf rf'.
Proof. intros E. apply vs_same; rewrite E; done. Qed.

Lemma voteStep_update t rf rf' :
  currentTerm (raftState rf) < t → raftState rf' = raftState (updateTerm t rf) → voteStep rf rf'.
Proof. intros Ht E. apply vs_newer; rewrite E, updateTerm_raftState; done. Qed.

Lemma voteStep_maybe t rf rf' :
  raftState rf' = raftState (if currentTerm (raftState rf) <? t then updateTerm t rf else rf) →
  voteStep rf rf'.
Proof.
  destruct (Z.ltb_spec (currentTerm (raftState rf)) t).
  - by apply voteStep_update.
  - by apply voteStep_refl.
Qed.

Lemma raiseMatch_frame rf to m rf' :
  raiseMatch rf to m = Ret rf' → ∃ next match_, rf' = set_peerIndex next match_ rf.
Proof.
  unfold raiseMatch. intros H. apply bind_Ret in H as (old & _ & H).
  destruct (old <? m).
  - apply setMatch_Ret in H as (_ & _ & ->). by eexists _, _.
  - injection H as <-. exists (nextIndex rf), (matchIndex rf). by destruct rf.
Qed.

(** *** Persistent state *)

(** Keeps the persistent state and what is saved of it. *)
Definition quiet rf rf' : Prop :=
  me rf' = me rf ∧ peers rf' = peers rf ∧ persister rf' = persister rf ∧
  hardState rf' = hardState rf.

Definition persisted rf : Prop := raftstate (persister rf) = encodeState rf.

Lemma encodeState_hardState rf rf' :
  hardState rf' = hardState rf → encodeState rf' = encodeState rf.
Proof.
  intros H. rewrite !encodeState_cons. unfold hardState in H.
  injection H as H1 H2 H3 H4 H5. by rewrite H1, H2, H3, H4, H5.
Qed.

Lemma persisted_quiet rf rf' : persisted rf → quiet rf rf' → persisted rf'.
Proof.
  unfold persisted. intros Hp (_ & _ & -> & Hh). by rewrite (encodeState_hardState rf).
Qed.

(** Saves the persistent state whenever it changes it. *)
Definition saves rf rf' : Prop :=
  me rf' = me rf ∧ peers rf' = peers rf ∧ (quiet rf rf' ∨ persisted rf').

Lemma saves_quiet rf rf1 rf2 : saves rf rf1 → quiet rf1 rf2 → saves rf rf2.
Proof.
  intros (Hm & Hn & Hs) Hq. pose proof Hq as (Hm2 & Hn2 & Hp2 & Hh2).
  split_and!; [congruence..|]. destruct Hs as [(_ & _ & Hp & Hh)|Hp].
  - left. unfold quiet. split_and!; congruence.
  - right. by eapply persisted_quiet.
Qed.

Lemma quiet_saves rf rf' : quiet rf rf' → saves rf rf'.
Proof. intros Hq. pose proof Hq as (? & ? & _). split_and!; auto. Qed.

Lemma saves_refl rf : saves rf rf.
Proof. by apply quiet_saves. Qed.

Lemma saves_maybe t rf : saves rf (if currentTerm (raftState rf) <? t then updateTerm t rf else rf).
Proof. case_match; [|apply saves_refl]. split_and!; [done..|]. by right. Qed.

Lemma saves_durable rf rf' : saves rf rf' → durable rf → durable rf'.
Proof.
  intros (Hm & Hn & [Hq|Hp]) Hd.
  - destruct Hq as (_ & _ & Hps & Hh). by eapply durable_frame.
  - by apply persisted_durable.
Qed.

(** *** Well-formedness *)

(** Keeps the log and lowers nothing that the invariant bounds from below. *)
Definition grows rf rf' : Prop :=
  log rf' = log rf ∧ lastIncludedIndex rf' = lastIncludedIndex rf ∧
  lastIncludedTerm rf' = lastIncludedTerm rf ∧ commitIndex rf <= commitIndex rf' ∧
  lastApplied rf <= lastApplied rf' ∧ currentTerm (raftState rf) <= currentTerm (raftState rf').

Lemma grows_wf rf rf' : grows rf rf' → raft_wf rf → raft_wf rf'.
Proof.
  intros (Hl & Hi & Ht & Hc & Ha & Hterm) []. constructor; rewrite ?Hl, ?Hi, ?Ht; done || lia.
Qed.

Lemma grows_trans rf1 rf2 rf3 : grows rf1 rf2 → grows rf2 rf3 → grows rf1 rf3.
Proof.
  intros (?&?&?&?&?&?) (?&?&?&?&?&?). unfold grows. split_and!; congruence || lia.
Qed.

Lemma grows_maybe t rf : grows rf (if currentTerm (raftState rf) <? t then updateTerm t rf else rf).
Proof.
  destruct (Z.ltb_spec (currentTerm (raftState rf)) t); unfold grows, updateTerm; raft_cbn;
    split_and!; done || lia.
Qed.
End peer_lemmas.

(** Proves [grows], [saves] or [quiet] of field assignments. *)
Ltac peer_frame :=
  unfold grows, quiet, hardState, updateTerm; raft_cbn; split_and!; done || lia.

Section peer_ops.
Context {C SV : Type}.
Implicit Types rf : Raft C SV.

(** The operation saves what it changes of the persistent state, keeps the
    peer well-formed, and neither votes nor wins an election. *)
Definition calm rf rf' : Prop :=
  saves rf rf' ∧ (raft_wf rf → raft_wf rf') ∧ voteStep rf rf'.

Lemma calm_frame rf rf' :
  quiet rf rf' → grows rf rf' →
  (state (raftState rf') = leaderState → state (raftState rf) = leaderState) → calm rf rf'.
Proof.
  intros Hq Hg Hst. split_and!; [by apply quiet_saves|by apply grows_wf|].
  destruct Hq as (_ & _ & _ & Hh). unfold hardState in Hh. injection Hh as Ht Hv _ _ _.
  by apply vs_same.
Qed.

(** The term update, followed by something that leaves the role, the
    persistent state and its saved copy alone. *)
Lemma calm_maybe t rf rf' :
  let rf1 := if currentTerm (raftState rf) <? t then updateTerm t rf else rf in
  quiet rf1 rf' → grows rf1 rf' → raftState rf' = raftState rf1 → calm rf rf'.
Proof.
  intros rf1 Hq Hg E. split_and!.
  - eapply saves_quiet; [|done]. apply saves_maybe.
  - apply grows_wf. eapply grows_trans; [|done]. apply grows_maybe.
  - eapply voteStep_maybe. done.
Qed.

Lemma RequestVote_effect rf args rf' reply :
  RequestVote rf args = Ret (rf', reply) →
  saves rf rf' ∧ grows rf rf' ∧
  rvr_Term reply = currentTerm (raftState rf') ∧
  if rvr_VoteGranted reply then
    currentTerm (raftState rf) <= rv_Term args ∧
    currentTerm (raftState rf') = rv_Term args ∧
    votedFor (raftState rf') = rv_CandidateId args ∧
    (currentTerm (raftState rf) = rv_Term args →
      votedFor (raftState rf) = -1 ∨ votedFor (raftState rf) = rv_CandidateId args) ∧
    (state (raftState rf') = leaderState →
      currentTerm (raftState rf) = rv_Term args ∧ state (raftState rf) = leaderState)
  else voteStep rf rf'.
Proof.
  unfold RequestVote. intros H.
  destruct (Z.leb_spec (currentTerm (raftState rf)) (rv_Term args)) as [Hle|].
  2: { injection H as <- <-. cbn. split_and!; [apply saves_refl|peer_frame|done|by apply voteStep_refl]. }
  pose proof (saves_maybe (rv_Term args) rf) as Hs.
  pose proof (grows_maybe (rv_Term args) rf) as Hg.
  pose proof (voteStep_maybe (rv_Term args) rf _ eq_refl) as Hv.
  set (rf1 := if currentTerm (raftState rf) <? rv_Term args then _ else _) in *.
  assert (currentTerm (raftState rf1) = rv_Term args) as Ht.
  { subst rf1. destruct (Z.ltb_spec (currentTerm (raftState rf)) (rv_Term args)); [done|lia]. }
  assert (currentTerm (raftState rf) = rv_Term args → raftState rf1 = raftState rf) as Hsame.
  { subst rf1. destruct (Z.ltb_spec (currentTerm (raftState rf)) (rv_Term args)); [lia|done]. }
  clearbody rf1.
  destruct ((_ =? _) || _) eqn:Hvote; [|by injection H as <- <-].
  apply bind_Ret in H as (b & _ & H). destruct b; [|by injection H as <- <-].
  injection H as <- <-. cbn. destruct Hs as (Hm & Hn & _). split_and!.
  - split_and!; [done..|]. by right.
  - eapply grows_trans; [done|]. peer_frame.
  - done.
  - done.
  - done.
  - done.
  - intros E. rewrite (Hsame E) in Hvote. zbool. destruct Hvote; zbool; auto.
  - intros Hl. destruct Hv as [Hct _ Hst|_ _ Hf]; [|by rewrite Hf in Hl].
    split; [lia|]. by apply Hst.
Qed.

Lemma appendPrologue_quiet rf (args : AppendEntriesArgs C) :
  let rf1 := if currentTerm (raftState rf) <? ae_Term args
             then updateTerm (ae_Term args) rf else rf in
  quiet rf1 (appendPrologue rf args) ∧ grows rf1 (appendPrologue rf args).
Proof.
  intros rf1. unfold appendPrologue. fold rf1. clearbody rf1. case_match; split; peer_frame.
Qed.

Lemma appendPrologue_voteStep rf (args : AppendEntriesArgs C) rf' :
  raftState rf' = raftState (appendPrologue rf args) → voteStep rf rf'.
Proof.
  unfold appendPrologue. intros E.
  destruct (Z.ltb_spec (currentTerm (raftState rf)) (ae_Term args)).
  - apply vs_newer; rewrite E; case_match; unfold updateTerm; raft_cbn; done.
  - apply vs_same; rewrite E; case_match; unfold updateTerm; by raft_cbn.
Qed.

Lemma AppendEntries_calm rf args rf' reply :
  AppendEntries rf args = Ret (rf', reply) → raft_wf rf → calm rf rf'.
Proof.
  intros H Hwf. pose proof (appendPrologue_quiet rf args) as [Hq Hg].
  assert (saves rf (appendPrologue rf args)) as Hs
    by (eapply saves_quiet; [apply saves_maybe|done]).
  assert (grows rf (appendPrologue rf args)) as Hgr
    by (eapply grows_trans; [apply grows_maybe|done]).
  destruct (aer_Success reply) eqn:E.
  2: { assert (rf' = appendPrologue rf args) as ->
         by (apply AppendEntries_result in H; by destruct H).
       split_and!; [done|by apply grows_wf|by eapply appendPrologue_voteStep]. }
  pose proof H as Hres. apply AppendEntries_result in Hres.
  destruct Hres as [| |rf0 rf1 rf2 -> _ _ _ Hst Hc]; try done.
  destruct (AppendEntries_stored _ _ _ _ Hwf H E)
    as (Ht & Hr & _ & Hl & Hi & Hit & Ha & Hrs & Hci & Hps).
  split_and!; [| |by eapply appendPrologue_voteStep].
  - assert (me rf2 = me rf1 ∧ peers rf2 = peers rf1) as [Hm2 Hn2]
      by (unfold advanceCommit, notifyApply in Hc; clear - Hc; by go_inv).
    assert (me rf1 = me rf ∧ peers rf1 = peers rf) as [Hm1 Hn1].
    { pose proof (appendPrologue_sameLog rf args) as (Hm0 & Hn0 & Hl0 & Hi0 & _).
      destruct (storeEntries_spec (appendPrologue rf args) args) as (r & Hr' & Hreq).
      { unfold getLogLength in *. rewrite Hl0, Hi0. done. }
      rewrite Hst in Hr'. injection Hr' as <-. rewrite Hreq. case_decide; raft_cbn; done. }
    split_and!; [congruence..|]. case_decide as He.
    + destruct Hs as (_ & _ & Hs). unfold quiet, persisted in *.
      assert (hardState rf2 = hardState (appendPrologue rf args)) as Hh.
      { pose proof (appendPrologue_sameLog rf args) as (_ & _ & Hl0 & Hi0 & Ht0 & _).
        unfold hardState. rewrite Hrs, Hi, Hit, Hl, He, Hl0, Hi0, Ht0.
        destruct (drop _ _) eqn:Hd; cbn; rewrite <- Hd, take_drop; done. }
      destruct Hs as [(_ & _ & Hp & Hh')|Hp].
      * left. split_and!; congruence.
      * right. rewrite Hps, Hp. symmetry. by apply encodeState_hardState.
    + right. unfold persisted. by rewrite Hps.
  - intros _. destruct Hwf as [Hwl Hwi Hwc Hwa Hw0 Hwt]. unfold getLogLength in *.
    assert (1 <= zlen (log rf2)) as Hl1.
    { rewrite Hl, zlen_app, zlen_take by lia. pose proof (zlen_nonneg
        (mergeTail (drop (Z.to_nat (ae_PrevLogIndex args + 1 - lastIncludedIndex rf)) (log rf))
           (ae_Entries args))). lia. }
    constructor; rewrite ?Hi, ?Hit, ?Ha, ?Hrs, ?appendPrologue_term; try done; try lia.
    rewrite Hci. destruct (Z.ltb_spec (commitIndex rf) (ae_LeaderCommit args)); lia.
Qed.

Lemma Start_calm rf command rf' r : Start rf command = Ret (rf', r) → calm rf rf'.
Proof.
  unfold Start. intros H. destruct (isState _ _); [|injection H as <- _; by apply calm_frame; [| |tauto]].
  destruct (leaderInitDone rf); [|done].
  apply bind_Ret in H as (m & _ & H). apply bind_Ret in H as (n & _ & [= <- _]).
  split_and!.
  - split_and!; [done..|]. by right.
  - intros []. constructor; raft_cbn; try done. rewrite zlen_app.
    pose proof (zlen_nonneg [mkLogEntry (currentTerm (raftState rf)) (Some command)]). lia.
  - by apply voteStep_refl.
Qed.

Lemma raise_calm rf t to m rf' :
  raiseMatch (if currentTerm (raftState rf) <? t then updateTerm t rf else rf) to m = Ret rf' →
  calm rf rf'.
Proof. intros (n & l & ->)%raiseMatch_frame. apply (calm_maybe t); [peer_frame..|done]. Qed.

Lemma appendReply_calm rf rf' to args reply next :
  sendAppendEntries_reply rf to args reply = Ret (rf', next) → calm rf rf'.
Proof.
  unfold sendAppendEntries_reply. intros H.
  destruct (negb _); [injection H as <- _; apply calm_frame; done || peer_frame|].
  destruct (aer_Success reply).
  { apply bind_Ret in H as (r & Hr & [= -> _]). by eapply raise_calm. }
  apply (calm_maybe (aer_Term reply)); destruct (_ <? _);
    (try (injection H as <- _; done || peer_frame)); go_inv; done || peer_frame.
Qed.

Lemma snapshotReply_calm rf rf' to args reply next :
  sendInstallSnapshot_reply rf to args reply = Ret (rf', next) → calm rf rf'.
Proof.
  unfold sendInstallSnapshot_reply. intros H.
  destruct (negb _); [injection H as <- _; apply calm_frame; done || peer_frame|].
  apply (calm_maybe (isr_Term reply)); cbn zeta; revert H;
    destruct (currentTerm (raftState rf) <? isr_Term reply); intros H;
    try (injection H as <- _; done || peer_frame);
    apply bind_Ret in H as (r & (_ & _ & ->)%setMatch_Ret & H);
    apply bind_Ret in H as (? & _ & [= <- _]); done || peer_frame.
Qed.

Lemma heartbeatReply_calm rf rf' from args reply :
  heartbeat_reply rf from args reply = Ret rf' → calm rf rf'.
Proof.
  unfold heartbeat_reply. intros H. destruct (aer_Success reply); [by eapply raise_calm|].
  injection H as <-. by apply (calm_maybe (aer_Term reply)); [|peer_frame|].
Qed.

Lemma commitWrite_calm rf i count rf' : commitWrite rf i count = Ret rf' → calm rf rf'.
Proof.
  unfold commitWrite, notifyApply. intros H. go_inv; apply calm_frame; done || peer_frame.
Qed.

Lemma applyCheck_calm rf rf' r : applyCheck rf = Ret (rf', r) → calm rf rf'.
Proof. unfold applyCheck. intros H. go_inv; apply calm_frame; done || peer_frame. Qed.

Lemma applyEnd_calm rf entries : calm rf (applyEnd rf entries).
Proof.
  unfold applyEnd. pose proof (zlen_nonneg entries). apply calm_frame; done || peer_frame.
Qed.

Lemma local_calm rf i :
  calm rf (leaderInit rf) ∧ calm rf (leaderReady rf) ∧ calm rf (followerTick rf i).1 ∧
  calm rf (followerTimeout rf) ∧ calm rf (Kill rf).
Proof.
  unfold leaderInit, leaderReady, followerTick, followerTimeout, Kill.
  split_and!; try case_match; apply calm_frame; done || peer_frame.
Qed.

(** A reply in [sendRequestVoteToAll] is calm, except that the candidate may
    become the leader of the term it is in. *)
Lemma voteReply_effect rf term sum ok reply rf' sum' :
  voteReply rf term sum ok reply = Some (rf', sum') →
  calm rf rf' ∧ sum <= sum' ∧
    (sum' ≠ sum → sum' = sum + 1 ∧ ok = true ∧ rvr_VoteGranted reply = true) ∨
  saves rf rf' ∧ (raft_wf rf → raft_wf rf') ∧ ok = true ∧ rvr_VoteGranted reply = true ∧
    sum' = sum + 1 ∧ Z.of_nat (peers rf) < 2 * sum' ∧
    currentTerm (raftState rf) <= term ∧ state (raftState rf) = candidateState ∧
    currentTerm (raftState rf') = currentTerm (raftState rf) ∧
    votedFor (raftState rf') = votedFor (raftState rf) ∧ state (raftState rf') = leaderState.
Proof.
  unfold voteReply. intros H.
  destruct ((term <? _) || negb (isState (raftState rf) candidateState)) eqn:Hg; [done|].
  apply orb_false_iff in Hg as [Hterm Hcand]. apply Z.ltb_ge in Hterm.
  apply negb_false_iff, bool_decide_eq_true in Hcand.
  assert (calm rf rf) as Hrefl by (apply calm_frame; done || peer_frame).
  destruct ok; [|injection H as <- <-; left; split_and!; [done|lia|done]].
  set (rf1 := if currentTerm (raftState rf) <? rvr_Term reply then _ else _) in H.
  assert (calm rf rf1) as Hcalm by (apply (calm_maybe (rvr_Term reply)); [done|peer_frame|done]).
  assert (peers rf1 = peers rf) as Hn by (subst rf1; by case_match).
  destruct (rvr_VoteGranted reply).
  2: { injection H as <- <-. left. split_and!; [done|lia|done]. }
  destruct ((Z.of_nat (peers rf1) / 2 <? sum + 1) && isState (raftState rf1) candidateState) eqn:Hm.
  2: { injection H as <- <-. left. split_and!; [done|lia|done]. }
  injection H as <- <-. right. apply andb_true_iff in Hm as [Hmaj Hst].
  apply Z.ltb_lt, majority_lt in Hmaj. apply bool_decide_eq_true in Hst. rewrite Hn in Hmaj.
  destruct Hcalm as (Hs & Hwf & [Ht Hv _|_ _ Hf]); [|by rewrite Hf in Hst].
  split; [eapply saves_quiet; [done|]; peer_frame|].
  split_and!; try done. intros Hw. eapply grows_wf; [|by apply Hwf]. peer_frame.
Qed.

Lemma Snapshot_effect rf index snap rf' :
  Snapshot rf index snap = Ret rf' →
  (raft_wf rf → raft_wf rf') ∧ voteStep rf rf' ∧ me rf' = me rf ∧ peers rf' = peers rf ∧
  (rf' = rf ∨ raftstate (persister rf') = []).
Proof.
  intros H. unfold Snapshot in H.
  destruct (killed rf); [injection H as <-; split_and!; auto using voteStep_refl|].
  destruct (Z.leb_spec index (lastIncludedIndex rf)); [injection H as <-; split_and!; auto using voteStep_refl|].
  destruct (Z.ltb_spec (commitIndex rf) index); [injection H as <-; split_and!; auto using voteStep_refl|].
  destruct (Z.ltb_spec (lastApplied rf) index); [injection H as <-; split_and!; auto using voteStep_refl|].
  rewrite leftLogFrom_spec in H by done. cbn in H.
  apply bind_Ret in H as (t & Ht & [= <-]). apply getTermOfLog_Ret in Ht.
  split_and!; try done; [|by apply voteStep_refl|by right].
  intros []. constructor; raft_cbn; try done; try lia.
  rewrite zlen_drop; unfold getLogLength in *; lia.
Qed.

Lemma InstallSnapshot_effect rf args rf' reply msg :
  InstallSnapshot rf args = Ret (rf', reply, msg) → raft_wf rf →
  raft_wf rf' ∧ voteStep rf rf' ∧ me rf' = me rf ∧ peers rf' = peers rf ∧
  (saves rf rf' ∨ raftstate (persister rf') = []).
Proof.
  intros H Hwf. rewrite InstallSnapshot_cases in H.
  pose proof (voteStep_maybe (is_Term args) rf _ eq_refl) as Hv.
  pose proof (saves_maybe (is_Term args) rf) as Hs.
  pose proof (grows_wf _ _ (grows_maybe (is_Term args) rf) Hwf) as Hwf1.
  cbn zeta in H. set (rf1 := if currentTerm (raftState rf) <? is_Term args then _ else _) in *.
  clearbody rf1. pose proof Hs as (Hm & Hn & _).
  destruct ((_ && _) && _) eqn:Hg; [|injection H as <- _ _; split_and!; auto].
  zbool. injection H as <- _ _. split_and!; try done; [| |by right].
  - destruct Hwf1. constructor; cbn; try done; try lia.
    rewrite zlen_cons. pose proof (zlen_nonneg (drop
      (Z.to_nat (is_LastIncludedIndex args + 1 - lastIncludedIndex rf1)) (log rf1))). lia.
  - destruct Hv; [by apply vs_same|by apply vs_newer].
Qed.

Lemma Make_wf n id (ps : Persister (RaftGob C) SV) rf' :
  (raftstate ps = [] ∨ ∃ r : Raft C SV, raft_wf r ∧ raftstate ps = encodeState r) →
  Make n id ps = Ret rf' → raft_wf rf' ∧ persister rf' = ps ∧ me rf' = id ∧ peers rf' = n ∧
  state (raftState rf') = followerState.
Proof.
  destruct ps as [rs snap]. cbn. intros [->|(r & Hwf & ->)] H.
  - rewrite Make_empty in H. injection H as <-. by split_and!.
  - pose proof (Make_hardState n id (mkPersister (encodeState r) snap) r rf' eq_refl H) as Hh.
    unfold Make, ReadRaftState, readPersist in H. cbn [raftstate] in H.
    destruct (encodeState r) as [|v d] eqn:E; [by rewrite encodeState_cons in E|].
    rewrite <- E, decodeState_encodeState in H. unfold hardState in H. cbn in H. rewrite <- E.
    destruct Hwf. destruct (Z.ltb_spec 0 (lastIncludedIndex r)); injection H as <-;
      split_and!; try done; constructor; cbn; try done; lia.
Qed.
End peer_ops.

Section peer_theorems.
Context {C SV : Type}.
Implicit Types rf : Raft C SV.

(** Every operation but a restart: what happens to the persister, to
    well-formedness, and to term and vote. *)
Definition termVote rf rf' : Prop :=
  currentTerm (raftState rf) <= currentTerm (raftState rf') ∧
  (currentTerm (raftState rf') = currentTerm (raftState rf) →
   votedFor (raftState rf) ≠ -1 → votedFor (raftState rf') = votedFor (raftState rf)).

Lemma voteStep_termVote rf rf' : voteStep rf rf' → termVote rf rf'.
Proof. intros [Ht Hv _|Ht _ _]; split; [lia|done|lia|lia]. Qed.

Lemma calm_facts rf rf' :
  calm rf rf' → raft_wf rf → saves rf rf' ∧ raft_wf rf' ∧ termVote rf rf'.
Proof.
  intros (Hs & Hw & Hv) Hwf. split; [done|]. split; [by apply Hw|].
  by apply voteStep_termVote.
Qed.

Lemma exec_facts rf op rf' :
  raft_wf rf → exec op rf = Ret rf' → op ≠ OpRestart →
  raft_wf rf' ∧ termVote rf rf' ∧
  (saves rf rf' ∨ savesSnapshot op = true ∧ raftstate (persister rf') = []).
Proof.
  intros Hwf H Hop.
  assert (∀ r, calm rf r → raft_wf r ∧ termVote rf r ∧
    (saves rf r ∨ savesSnapshot op = true ∧ raftstate (persister r) = [])) as Hcalm.
  { intros r Hc. destruct (calm_facts _ _ Hc Hwf) as (? & ? & ?). auto. }
  destruct op; cbn [exec savesSnapshot] in *; try done;
    repeat match goal with
    | H : mbind _ _ = Ret _ |- _ =>
        apply bind_Ret in H as ([? ?] & H & ?); simplify_eq
    | H : (let '(_, _) := ?p in _) = Ret _ |- _ => destruct p; simplify_eq
    end.
  - apply RequestVote_effect in H as (Hs & Hg & _ & Hv).
    split; [by eapply grows_wf|]. split; [|by left].
    destruct (rvr_VoteGranted _); [|by apply voteStep_termVote].
    destruct Hv as (Hle & Ht & Hv & Hsame & _). split; [lia|].
    intros E Hne. destruct Hsame; congruence.
  - eapply Hcalm, AppendEntries_calm; eauto.
  - apply InstallSnapshot_effect in H as (? & ?%voteStep_termVote & _ & _ & [?|?]); auto.
  - apply Snapshot_effect in H as (? & ?%voteStep_termVote & _ & _ & [->|?]);
      split_and!; auto using saves_refl.
  - by eapply Hcalm, Start_calm.
  - by eapply Hcalm, appendReply_calm.
  - by eapply Hcalm, snapshotReply_calm.
  - by eapply Hcalm, heartbeatReply_calm.
  - by eapply Hcalm, commitWrite_calm.
  - injection H as <-. apply Hcalm, (local_calm rf 0).
  - injection H as <-. apply Hcalm, (local_calm rf 0).
  - injection H as <-. unfold doElection. split; [eapply grows_wf; [|done]; peer_frame|].
    split; [unfold termVote; raft_cbn; lia|].
    left. split_and!; [done..|]. by right.
  - destruct (voteReply _ _ _ _ _) as [[r s]|] eqn:E; injection H as <-.
    + apply voteReply_effect in E as [(Hc & _)|(Hs & Hw & _ & _ & _ & _ & _ & _ & Ht & Hv & _)];
        [by apply Hcalm|]. split; [by apply Hw|]. split; [split; [lia|done]|by left].
    + split; [done|]. split; [split; [lia|done]|left; apply saves_refl].
  - injection H as <-. apply Hcalm, (local_calm rf i).
  - injection H as <-. apply Hcalm, (local_calm rf 0).
  - by eapply Hcalm, applyCheck_calm.
  - injection H as <-. apply Hcalm, applyEnd_calm.
  - injection H as <-. apply Hcalm, (local_calm rf 0).
Qed.

Lemma Make_frame n id (ps : Persister (RaftGob C) SV) rf' :
  Make n id ps = Ret rf' →
  me rf' = id ∧ peers rf' = n ∧ persister rf' = ps ∧ state (raftState rf') = followerState.
Proof.
  unfold Make, readPersist. intros H. apply bind_Ret in H as (r & Hr & H).
  assert (me r = id ∧ peers r = n ∧ persister r = ps ∧ state (raftState r) = followerState) as Hf.
  { destruct (ReadRaftState ps); [by injection Hr as <-|].
    apply bind_Ret in Hr as ([[[[? ?] ?] ?] ?] & _ & [= <-]). done. }
  destruct (_ <? _); injection H as <-; done.
Qed.

Lemma Make_recovered n id (ps : Persister (RaftGob C) SV) rf rf' :
  Make n id ps = Ret rf' → hardState rf' = hardState rf → raft_wf rf → raft_wf rf'.
Proof.
  intros H Hh []. unfold hardState in Hh. injection Hh as Ht Hv Hi Hit Hlog.
  assert (lastIncludedIndex rf' <= commitIndex rf' ∧ lastIncludedIndex rf' <= lastApplied rf') as [].
  { clear - H. unfold Make, readPersist in H. apply bind_Ret in H as (r & Hr & H).
    assert (commitIndex r = 0 ∧ lastApplied r = 0) as [].
    { destruct (ReadRaftState ps); [by injection Hr as <-|].
      apply bind_Ret in Hr as ([[[[? ?] ?] ?] ?] & _ & [= <-]). done. }
    destruct (Z.ltb_spec 0 (lastIncludedIndex r)); injection H as <-; raft_cbn; lia. }
  constructor; congruence || lia || by rewrite Hi, Hit.
Qed.

Lemma isRestart (op : peerOp C SV) : {op = OpRestart} + {op ≠ OpRestart}.
Proof. destruct op; (by left) || (by right). Defined.

Lemma raft_ok_exec rf op rf' : raft_ok rf → exec op rf = Ret rf' → raft_ok rf'.
Proof.
  intros [Hwf Hp] H. destruct (isRestart op) as [->|Hop].
  - cbn in H. destruct (Make_wf _ _ _ _ Hp H) as (Hwf' & Hps & _).
    split; [done|]. by rewrite Hps.
  - destruct (exec_facts rf op rf' Hwf H Hop) as (Hwf' & _ & Hs). split; [done|].
    destruct Hs as [(_ & _ & [(_ & _ & Hq & _)|Hq])|[_ Hq]].
    + by rewrite Hq.
    + right. by exists rf'.
    + by left.
Qed.

(** C21. In every schedule of critical sections, snapshots and restarts, a peer
    stays well-formed: its snapshot boundary is committed and applied, its
    log keeps the entry in front, its term is not negative. *)
Theorem reach_wf rf : reach rf → raft_wf rf.
Proof.
  intros H. assert (raft_ok rf) as [Hwf _]; [|done].
  induction H as [n id snap|rf op rf' _ IH H]; [|by eapply raft_ok_exec].
  split; [|by left]. constructor; cbn; done || lia.
Qed.

(** C23. A peer that could recover its term, vote and log from its persister
    still can after any operation that does not save a snapshot, a crash
    and restart included. *)
Theorem durable_preserved rf op rf' :
  raft_wf rf → savesSnapshot op = false → durable rf → exec op rf = Ret rf' → durable rf'.
Proof.
  intros Hwf Hsnap Hd H. destruct (isRestart op) as [->|Hop].
  - cbn in H. destruct (Make_frame _ _ _ _ H) as (Hm & Hn & Hp & _).
    exists rf'. by rewrite Hm, Hn, Hp.
  - destruct (exec_facts rf op rf' Hwf H Hop) as (_ & _ & [Hs|[Hs _]]); [|congruence].
    by eapply saves_durable.
Qed.

(** Terms never go back, and within a term a vote once given is never given
    to another candidate; across a restart this needs the state on stable
    storage. *)
Theorem vote_stable rf op rf' :
  raft_wf rf → (op = OpRestart → durable rf) → exec op rf = Ret rf' → termVote rf rf'.
Proof.
  intros Hwf Hd H. destruct (isRestart op) as [->|Hop].
  - destruct (Hd eq_refl) as (r & Hr & Hh). cbn in H. rewrite Hr in H. injection H as ->.
    unfold hardState in Hh. injection Hh as Ht Hv _ _ _. split; [lia|done].
  - by destruct (exec_facts rf op rf' Hwf H Hop) as (_ & Htv & _).
Qed.
End peer_theorems.
