(* ===== verification/RaftCluster.v ===== *)
(** * RaftCluster: elections in a cluster of peers

    A cluster of [n] peers, each stepping through the critical sections of
    RaftPeer, with the vote requests and replies in flight and the running
    [sendRequestVoteToAll] goroutines.  The network may delay, drop, reorder
    and duplicate; AppendEntries and InstallSnapshot may arrive with any
    arguments at any time.  [mainLoop] reads the role of its peer in one
    critical section and [doElection] acts on it in a later one, as in the
    source. *)

From S2P Require Import Prelude Labgob Persister RaftState RaftRpc RaftLeader RaftPeer.
Local Open Scope Z_scope.

(** A [sendRequestVoteToAll(thisTerm)] goroutine of peer [el_owner]:
    [el_pending] are the peers whose [Call] has not come back [ok] yet. *)
Record Election := mkElection {
  el_owner : nat; el_term : Z; el_pending : list nat; el_sum : Z;
}.

Section cluster.
Context {C SV : Type}.

Record Cluster := mkCluster {
  nodes : list (Raft C SV);
  (** the branch each [mainLoop] last chose *)
  mains : list (option mainBranch);
  elections : list Election;
  requests : list (nat * RequestVoteArgs);
  replies : list (nat * RequestVoteArgs * RequestVoteReply);
  (** history of the votes given: voter, term, candidate *)
  votes : list (nat * Z * Z);
}.

Inductive label :=
  | LNode (p : nat) (op : peerOp C SV)
  | LMain (p : nat)
  | LElect (p : nat)
  | LSendVote (g to : nat)
  | LDeliver (k : nat)
  | LVoteReply (g k : nat)
  | LVoteLost (g : nat)
  | LRestart (p : nat).

(** The operations of a peer that are not part of an election. *)
Definition nonVoting (op : peerOp C SV) : bool :=
  match op with
  | OpRequestVote _ | OpElection | OpVoteReply _ _ _ _ | OpRestart => false
  | _ => true
  end.

Definition others (n p : nat) : list nat := filter (λ q, q ≠ p) (seq 0 n).

(** A reply (or a lost call) reaches goroutine [g]. *)
Definition countReply (c : Cluster) (g : nat) (e : Election) (from : option nat)
    (reply : RequestVoteReply) : option Cluster :=
  rf ← nodes c !! el_owner e;
  match voteReply rf (el_term e) (el_sum e) (bool_decide (is_Some from)) reply with
  | None => Some (mkCluster (nodes c) (mains c) (delete g (elections c))
                   (requests c) (replies c) (votes c))
  | Some (rf', sum') =>
      let pending := match from with
                     | Some v => filter (λ q, q ≠ v) (el_pending e)
                     | None => el_pending e
                     end in
      Some (mkCluster (<[el_owner e := rf']> (nodes c)) (mains c)
             (<[g := mkElection (el_owner e) (el_term e) pending sum']> (elections c))
             (requests c) (replies c) (votes c))
  end.

Definition cstep (l : label) (c : Cluster) : option Cluster :=
  match l with
  | LNode p op =>
      rf ← nodes c !! p;
      if nonVoting op then
        rf' ← returned (exec op rf);
        Some (mkCluster (<[p := rf']> (nodes c)) (mains c) (elections c)
               (requests c) (replies c) (votes c))
      else None
  | LMain p =>
      rf ← nodes c !! p;
      Some (mkCluster (nodes c) (<[p := mainLoop rf]> (mains c)) (elections c)
             (requests c) (replies c) (votes c))
  | LElect p =>
      rf ← nodes c !! p;
      branch ← mains c !! p;
      match branch with
      | Some RunElection =>
          let rf' := doElection rf in
          let t := currentTerm (raftState rf') in
          Some (mkCluster (<[p := rf']> (nodes c)) (<[p := None]> (mains c))
                 (mkElection p t (others (length (nodes c)) p) 1 :: elections c)
                 (requests c) (replies c) ((p, t, me rf) :: votes c))
      | _ => None
      end
  | LSendVote g to =>
      e ← elections c !! g;
      rf ← nodes c !! el_owner e;
      args ← returned (requestVoteArgs rf (el_term e));
      if decide (to ∈ el_pending e) then
        Some (mkCluster (nodes c) (mains c) (elections c) ((to, args) :: requests c)
               (replies c) (votes c))
      else None
  | LDeliver k =>
      '(p, args) ← requests c !! k;
      rf ← nodes c !! p;
      '(rf', reply) ← returned (RequestVote rf args);
      Some (mkCluster (<[p := rf']> (nodes c)) (mains c) (elections c) (requests c)
             ((p, args, reply) :: replies c)
             (if rvr_VoteGranted reply then (p, rv_Term args, rv_CandidateId args) :: votes c
              else votes c))
  | LVoteReply g k =>
      e ← elections c !! g;
      '(v, args, reply) ← replies c !! k;
      if decide (v ∈ el_pending e ∧ rv_CandidateId args = Z.of_nat (el_owner e) ∧
                 rv_Term args = el_term e)
      then countReply c g e (Some v) reply else None
  | LVoteLost g =>
      e ← elections c !! g;
      countReply c g e None (mkRequestVoteReply 0 false)
  | LRestart p =>
      rf ← nodes c !! p;
      rf' ← returned (Make (peers rf) (me rf) (persister rf));
      Some (mkCluster (<[p := rf']> (nodes c)) (<[p := None]> (mains c))
             (filter (λ e, el_owner e ≠ p) (elections c))
             (requests c) (replies c) (votes c))
  end.

Fixpoint crun (ls : list label) (c : Cluster) : option Cluster :=
  match ls with
  | [] => Some c
  | l :: ls' => c' ← cstep l c; crun ls' c'
  end.

Definition initCluster (n : nat) (snaps : nat → list SV) : Cluster :=
  mkCluster ((λ p, initRaft n (Z.of_nat p) (mkPersister [] (snaps p))) <$> seq 0 n)
    (replicate n None) [] [] [] [].

(** Peer [p] leads term [t]. *)
Definition leads (c : Cluster) (p : nat) (t : Z) : Prop :=
  ∃ rf, nodes c !! p = Some rf ∧ state (raftState rf) = leaderState ∧
        currentTerm (raftState rf) = t.

(** Steps that neither start an election on a peer that has meanwhile become
    leader nor restart one whose saved Raft state a snapshot replaced. *)
Definition benign (l : label) (c : Cluster) : Prop :=
  match l with
  | LElect p => ∀ rf, nodes c !! p = Some rf → state (raftState rf) ≠ leaderState
  | LRestart p => ∀ rf, nodes c !! p = Some rf → durable rf
  | _ => True
  end.

Inductive benignRun : Cluster → Cluster → Prop :=
  | benign_refl c : benignRun c c
  | benign_step c1 c2 c3 l :
      benign l c1 → cstep l c1 = Some c2 → benignRun c2 c3 → benignRun c1 c3.
End cluster.
Arguments Cluster : clear implicits.
Arguments label : clear implicits.

(** ** The invariant behind election safety *)
Section safety.
Context {C SV : Type}.
Implicit Types (c : Cluster C SV) (rf : Raft C SV).

(** A strict majority of the cluster voted for [p] in term [t]. *)
Definition majorityFor c (p : nat) (t : Z) : Prop :=
  ∃ q, NoDup q ∧ (∀ v, v ∈ q → (v < length (nodes c))%nat) ∧
    (length (nodes c) < 2 * length q)%nat ∧ ∀ v, v ∈ q → (v, t, Z.of_nat p) ∈ votes c.

(** The votes a goroutine has counted: its own and those of [voters], none
    of which it waits for any more. *)
Definition electionOk c (e : Election) : Prop :=
  (∃ rf, nodes c !! el_owner e = Some rf ∧ el_term e <= currentTerm (raftState rf)) ∧
  (el_owner e, el_term e, Z.of_nat (el_owner e)) ∈ votes c ∧
  ∃ voters, NoDup (el_owner e :: voters ++ el_pending e) ∧
    (∀ v, v ∈ voters ++ el_pending e → (v < length (nodes c))%nat) ∧
    el_sum e = 1 + Z.of_nat (length voters) ∧
    ∀ v, v ∈ voters → (v, el_term e, Z.of_nat (el_owner e)) ∈ votes c.

Record cinv c : Prop := {
  inv_node : ∀ p rf, nodes c !! p = Some rf →
    raft_wf rf ∧ me rf = Z.of_nat p ∧ peers rf = length (nodes c);
  inv_votes : ∀ p t x, (p, t, x) ∈ votes c → x ≠ -1 ∧
    ∃ rf, nodes c !! p = Some rf ∧ t <= currentTerm (raftState rf) ∧
      (t = currentTerm (raftState rf) → votedFor (raftState rf) = x);
  inv_once : ∀ p t x y, (p, t, x) ∈ votes c → (p, t, y) ∈ votes c → x = y;
  inv_requests : ∀ p args, (p, args) ∈ requests c → rv_CandidateId args ≠ -1;
  inv_replies : ∀ p args reply, (p, args, reply) ∈ replies c →
    rvr_VoteGranted reply = true → (p, rv_Term args, rv_CandidateId args) ∈ votes c;
  inv_elections : ∀ e, e ∈ elections c → electionOk c e;
  inv_leader : ∀ p rf, nodes c !! p = Some rf → state (raftState rf) = leaderState →
    majorityFor c p (currentTerm (raftState rf));
}.

(** *** Preservation under a change of one node *)

Lemma nodes_update c p rf rf' q r :
  nodes c !! p = Some rf → <[p := rf']> (nodes c) !! q = Some r →
  q = p ∧ r = rf' ∨ q ≠ p ∧ nodes c !! q = Some r.
Proof.
  intros Hp Hq. destruct (decide (q = p)) as [->|Hne].
  - rewrite list_lookup_insert_eq in Hq by (by eapply lookup_lt_Some). left. by simplify_eq.
  - rewrite list_lookup_insert_ne in Hq by done. by right.
Qed.

Lemma majorityFor_mono c c' p t :
  length (nodes c') = length (nodes c) → (∀ v, v ∈ votes c → v ∈ votes c') →
  majorityFor c p t → majorityFor c' p t.
Proof.
  intros Hl Hv (q & Hnd & Hr & Hm & Hq). exists q. rewrite Hl. split_and!; auto.
Qed.

(** A node changes from [rf] to [rf']; [new] are the votes it gives. *)
Record nodeUpdate c (p : nat) rf rf' (new : list (nat * Z * Z)) : Prop := {
  nu_node : nodes c !! p = Some rf;
  nu_wf : raft_wf rf';
  nu_me : me rf' = me rf;
  nu_peers : peers rf' = peers rf;
  nu_term : currentTerm (raftState rf) <= currentTerm (raftState rf');
  nu_vote : currentTerm (raftState rf') = currentTerm (raftState rf) →
    votedFor (raftState rf) ≠ -1 → votedFor (raftState rf') = votedFor (raftState rf);
  nu_new : ∀ v, v ∈ new → v = (p, currentTerm (raftState rf'), votedFor (raftState rf')) ∧
    votedFor (raftState rf') ≠ -1;
  nu_leader : state (raftState rf') = leaderState →
    majorityFor c p (currentTerm (raftState rf'));
}.

Lemma electionOk_update c p rf rf' new ms es rq rp e :
  nodeUpdate c p rf rf' new → electionOk c e →
  electionOk (mkCluster (<[p := rf']> (nodes c)) ms es rq rp (new ++ votes c)) e.
Proof.
  intros Hu ((r & Hr & Ht) & Hself & voters & Hnd & Hrng & Hsum & Hv).
  unfold electionOk. cbn. rewrite length_insert. split_and!.
  - destruct (decide (el_owner e = p)) as [E|Hne].
    + exists rf'. rewrite E. split; [by eapply list_lookup_insert_eq, lookup_lt_Some, (nu_node _ _ _ _ _ Hu)|].
      pose proof (nu_node _ _ _ _ _ Hu). pose proof (nu_term _ _ _ _ _ Hu). simplify_eq. lia.
    + exists r. by rewrite list_lookup_insert_ne.
  - apply elem_of_app. by right.
  - exists voters. split_and!; try done. intros v Hin. apply elem_of_app. right. by apply Hv.
Qed.

Lemma cinv_update c p rf rf' new ms es rq rp :
  cinv c → nodeUpdate c p rf rf' new →
  (∀ e, e ∈ es → electionOk (mkCluster (<[p := rf']> (nodes c)) ms es rq rp (new ++ votes c)) e) →
  (∀ q args, (q, args) ∈ rq → rv_CandidateId args ≠ -1) →
  (∀ q args reply, (q, args, reply) ∈ rp → rvr_VoteGranted reply = true →
     (q, rv_Term args, rv_CandidateId args) ∈ new ++ votes c) →
  cinv (mkCluster (<[p := rf']> (nodes c)) ms es rq rp (new ++ votes c)).
Proof.
  intros Hc [Hn Hwf Hme Hpe Ht Hvt Hnew Hl] Hes Hrq Hrp.
  assert (∀ t x, (p, t, x) ∈ votes c → x ≠ -1 ∧ t <= currentTerm (raftState rf) ∧
    (t = currentTerm (raftState rf) → votedFor (raftState rf) = x)) as Hold.
  { intros t x Hin. destruct (inv_votes _ Hc _ _ _ Hin) as (? & r & Hr & ? & ?).
    by simplify_eq. }
  constructor; cbn; try done.
  - intros q r Hq. rewrite length_insert.
    destruct (nodes_update c p rf rf' q r Hn Hq) as [[-> ->]|[_ Hq']].
    + destruct (inv_node _ Hc _ _ Hn) as (_ & ? & ?). split_and!; congruence.
    + by apply (inv_node _ Hc).
  - intros q t x [Hin|Hin]%elem_of_app.
    + apply Hnew in Hin as [[= -> -> ->] ?]. split; [done|]. exists rf'.
      split_and!; [|lia|done]. by eapply list_lookup_insert_eq, lookup_lt_Some.
    + destruct (inv_votes _ Hc _ _ _ Hin) as (Hx & r & Hr & Hle & Heq). split; [done|].
      destruct (decide (q = p)) as [->|Hne].
      * simplify_eq. exists rf'. split; [by eapply list_lookup_insert_eq, lookup_lt_Some|].
        split; [lia|]. intros E. assert (t = currentTerm (raftState rf)) as E' by lia.
        rewrite <- (Heq E') in Hx |- *. apply Hvt; [lia|done].
      * exists r. by rewrite list_lookup_insert_ne.
  - assert (∀ q t x y, (q, t, x) ∈ new → (q, t, y) ∈ votes c → x = y) as Hmix.
    { intros q t x y [[= -> -> ->] Hx]%Hnew Hin. destruct (Hold _ _ Hin) as (Hy & Hle & Heq).
      assert (currentTerm (raftState rf') = currentTerm (raftState rf)) as E by lia.
      rewrite <- (Heq E). rewrite <- (Heq E) in Hy. by apply Hvt. }
    intros q t x y [H1|H1]%elem_of_app [H2|H2]%elem_of_app.
    + apply Hnew in H1 as [[= -> -> ->] _]. by apply Hnew in H2 as [[= ->] _].
    + by eapply Hmix.
    + symmetry. by eapply Hmix.
    + by eapply (inv_once _ Hc).
  - intros q r Hq Hlead.
    apply (majorityFor_mono c); cbn; [apply length_insert|intros v; rewrite elem_of_app; auto|].
    destruct (nodes_update c p rf rf' q r Hn Hq) as [[-> ->]|[_ Hq']]; [by apply Hl|].
    by apply (inv_leader _ Hc).
Qed.

(** *** Preservation, step by step *)

Lemma exec_voteStep op rf rf' :
  raft_wf rf → nonVoting op = true → exec op rf = Ret rf' →
  raft_wf rf' ∧ voteStep rf rf' ∧ me rf' = me rf ∧ peers rf' = peers rf.
Proof.
  intros Hwf Hnv H.
  assert (∀ r, calm rf r → raft_wf r ∧ voteStep rf r ∧ me r = me rf ∧ peers r = peers rf) as Hcalm.
  { intros r ((Hm & Hn & _) & Hw & Hv). auto. }
  destruct op; cbn [exec nonVoting] in *; try done;
    repeat match goal with
    | H : mbind _ _ = Ret _ |- _ => apply bind_Ret in H as ([? ?] & H & ?); simplify_eq
    | H : (let '(_, _) := ?p in _) = Ret _ |- _ => destruct p; simplify_eq
    end.
  - eapply Hcalm, AppendEntries_calm; eauto.
  - apply InstallSnapshot_effect in H as (? & ? & ? & ? & _); auto.
  - apply Snapshot_effect in H as (? & ? & ? & ? & _); auto.
  - by eapply Hcalm, Start_calm.
  - by eapply Hcalm, appendReply_calm.
  - by eapply Hcalm, snapshotReply_calm.
  - by eapply Hcalm, heartbeatReply_calm.
  - by eapply Hcalm, commitWrite_calm.
  - injection H as <-. apply Hcalm, (local_calm rf 0).
  - injection H as <-. apply Hcalm, (local_calm rf 0).
  - injection H as <-. apply Hcalm, (local_calm rf i).
  - injection H as <-. apply Hcalm, (local_calm rf 0).
  - by eapply Hcalm, applyCheck_calm.
  - injection H as <-. apply Hcalm, applyEnd_calm.
  - injection H as <-. apply Hcalm, (local_calm rf 0).
Qed.

Lemma voteStep_nodeUpdate c p rf rf' :
  cinv c → nodes c !! p = Some rf → raft_wf rf' → me rf' = me rf → peers rf' = peers rf →
  voteStep rf rf' → nodeUpdate c p rf rf' [].
Proof.
  intros Hc Hn Hwf Hme Hpe Hv. pose proof (voteStep_termVote _ _ Hv) as [Ht Hvt].
  constructor; try done.
  - intros v Hin. by apply not_elem_of_nil in Hin.
  - intros Hl. destruct Hv as [E _ Hst|_ _ Hf]; [|by rewrite Hf in Hl].
    rewrite E. apply (inv_leader _ Hc); auto.
Qed.

Lemma cinv_node c p op c' : cinv c → cstep (LNode p op) c = Some c' → cinv c'.
Proof.
  intros Hc H. cbn in H. apply bind_Some in H as (rf & Hn & H).
  destruct (nonVoting op) eqn:Hnv; [|done].
  destruct (exec op rf) as [rf'| | |] eqn:E; cbn in H; try done. injection H as <-.
  destruct (inv_node _ Hc _ _ Hn) as (Hwf & _).
  destruct (exec_voteStep op rf rf' Hwf Hnv E) as (Hwf' & Hv & Hm & Hp).
  pose proof (voteStep_nodeUpdate c p rf rf' Hc Hn Hwf' Hm Hp Hv) as Hu.
  apply (cinv_update c p rf rf' []); try done.
  - intros e He. eapply electionOk_update; [done|]. by apply (inv_elections _ Hc).
  - apply (inv_requests _ Hc).
  - apply (inv_replies _ Hc).
Qed.

Lemma others_spec n p q : q ∈ others n p ↔ (q < n)%nat ∧ q ≠ p.
Proof. unfold others. rewrite list_elem_of_filter, elem_of_seq. split; intros []; split; done || lia. Qed.

Lemma others_NoDup n p : NoDup (p :: others n p).
Proof.
  constructor; [rewrite others_spec; tauto|]. unfold others. apply NoDup_filter, NoDup_seq.
Qed.

Lemma cinv_elect c p c' :
  cinv c → benign (LElect p) c → cstep (LElect p) c = Some c' → cinv c'.
Proof.
  intros Hc Hb H. cbn in H. apply bind_Some in H as (rf & Hn & H).
  apply bind_Some in H as (br & _ & H). destruct br as [[]|]; try done. injection H as <-.
  destruct (inv_node _ Hc _ _ Hn) as (Hwf & Hme & Hpe). specialize (Hb _ Hn).
  set (t := currentTerm (raftState (doElection rf))).
  assert (nodeUpdate c p rf (doElection rf) [(p, t, me rf)]) as Hu.
  { constructor; try done; unfold doElection in *; raft_cbn; try lia.
    - eapply grows_wf; [|done]. peer_frame.
    - intros v ->%list_elem_of_singleton. split; [done|]. lia. }
  apply (cinv_update c p rf (doElection rf) [(p, t, me rf)]); try done.
  - intros e [->|He]%elem_of_cons.
    + unfold electionOk. cbn. rewrite length_insert. split_and!.
      * exists (doElection rf). split; [|apply Z.le_refl].
        by eapply list_lookup_insert_eq, lookup_lt_Some.
      * rewrite <- Hme. apply elem_of_cons. by left.
      * exists []. cbn. split_and!; [apply others_NoDup| |done|].
        -- intros v Hv. by apply others_spec in Hv as [? _].
        -- intros v Hv. by apply not_elem_of_nil in Hv.
    + eapply electionOk_update; [done|]. by apply (inv_elections _ Hc).
  - apply (inv_requests _ Hc).
  - intros q args reply Hin Hg. apply elem_of_cons. right. by eapply (inv_replies _ Hc).
Qed.

Lemma cinv_deliver c k c' : cinv c → cstep (LDeliver k) c = Some c' → cinv c'.
Proof.
  intros Hc H. cbn in H. apply bind_Some in H as ([p args] & Hk & H).
  apply bind_Some in H as (rf & Hn & H).
  destruct (RequestVote rf args) as [[rf' reply]| | |] eqn:E; cbn in H; try done. injection H as <-.
  destruct (inv_node _ Hc _ _ Hn) as (Hwf & Hme & Hpe).
  apply list_elem_of_lookup_2 in Hk. pose proof (inv_requests _ Hc _ _ Hk) as Hcand.
  destruct (RequestVote_effect _ _ _ _ E) as ((Hm' & Hp' & _) & Hg & _ & Hv).
  set (new := if rvr_VoteGranted reply then [(p, rv_Term args, rv_CandidateId args)] else []).
  assert (nodeUpdate c p rf rf' new) as Hu.
  { subst new. destruct (rvr_VoteGranted reply).
    - destruct Hv as (Hle & Ht & Hvt & Hsame & Hlead). constructor; try done.
      + by eapply grows_wf.
      + lia.
      + intros Et Hne. destruct Hsame; congruence.
      + intros v ->%list_elem_of_singleton. split; congruence.
      + intros [Et Hst]%Hlead. rewrite Ht, <- Et. by apply (inv_leader _ Hc).
    - apply voteStep_nodeUpdate; try done. by eapply grows_wf. }
  replace (if rvr_VoteGranted reply then (p, rv_Term args, rv_CandidateId args) :: votes c
           else votes c) with (new ++ votes c) by (subst new; by destruct (rvr_VoteGranted reply)).
  apply (cinv_update c p rf rf' new); try done.
  - intros e He. eapply electionOk_update; [done|]. by apply (inv_elections _ Hc).
  - apply (inv_requests _ Hc).
  - intros q a r [[= -> -> ->]|Hin]%elem_of_cons Hgr; apply elem_of_app.
    + left. subst new. rewrite Hgr. by apply list_elem_of_singleton.
    + right. by eapply (inv_replies _ Hc).
Qed.

Lemma cinv_sendVote c g to c' : cinv c → cstep (LSendVote g to) c = Some c' → cinv c'.
Proof.
  intros Hc H. cbn in H. apply bind_Some in H as (e & _ & H).
  apply bind_Some in H as (rf & Hn & H). apply bind_Some in H as (args & Ha & H).
  case_decide; [|done]. injection H as <-. destruct (inv_node _ Hc _ _ Hn) as (_ & Hme & _).
  destruct Hc as [? ? ? Hrq ? ? ?]. constructor; try done.
  intros q a [[= -> ->]|Hin]%elem_of_cons; [|by eapply Hrq].
  unfold requestVoteArgs in Ha. destruct (getTermOfLog _ _); cbn in Ha; try done.
  injection Ha as <-. cbn. lia.
Qed.

Lemma cinv_elections c es ms :
  cinv c → (∀ e, e ∈ es → e ∈ elections c) →
  cinv (mkCluster (nodes c) ms es (requests c) (replies c) (votes c)).
Proof. intros [? ? ? ? ? He ?] Hes. constructor; try done. intros e Hin. apply He. by apply Hes. Qed.

(** Counting the vote of [v]. *)
Lemma electionOk_count c e v :
  electionOk c e → v ∈ el_pending e → (v, el_term e, Z.of_nat (el_owner e)) ∈ votes c →
  electionOk c (mkElection (el_owner e) (el_term e) (filter (λ q, q ≠ v) (el_pending e))
    (el_sum e + 1)) ∧
  (Z.of_nat (length (nodes c)) < 2 * (el_sum e + 1) → majorityFor c (el_owner e) (el_term e)).
Proof.
  intros (Howner & Hself & voters & Hnd & Hr & Hsum & Hv) Hpend Hvote.
  apply NoDup_cons in Hnd as [Hno Hnd]. apply NoDup_app in Hnd as (Hnd1 & Hdis & Hnd2).
  assert (v ∉ voters) as Hnv by (intros Hin; by apply (Hdis v)).
  assert (NoDup (el_owner e :: v :: voters)) as Hq.
  { rewrite !NoDup_cons. split_and!; [|done|done]. intros [E|Hin]%elem_of_cons.
    - apply Hno, elem_of_app. right. by rewrite E.
    - apply Hno, elem_of_app. by left. }
  assert (∀ w, w ∈ el_owner e :: v :: voters → (w, el_term e, Z.of_nat (el_owner e)) ∈ votes c) as Hall.
  { intros w [->|[->|Hin]%elem_of_cons]%elem_of_cons; auto. }
  split.
  - split; [done|]. split; [done|]. exists (v :: voters). cbn. split_and!.
    + apply NoDup_cons in Hq as [Ho Hq]. rewrite app_comm_cons. apply NoDup_cons. split.
      { intros [Hin|[_ Hin]%list_elem_of_filter]%elem_of_app; [done|].
        apply Hno, elem_of_app. by right. }
      apply NoDup_app. split_and!; [done| |by apply NoDup_filter].
      intros w [->|Hw]%elem_of_cons [Hne Hin]%list_elem_of_filter; [done|by apply (Hdis w)].
    + intros w [->|[Hw|[_ Hw]%list_elem_of_filter]%elem_of_app]%elem_of_cons;
        apply Hr, elem_of_app; auto.
    + lia.
    + intros w [->|Hin]%elem_of_cons; auto.
  - intros Hmaj. exists (el_owner e :: v :: voters). split_and!; [done| |cbn; lia|done].
    intros w [->|[->|Hin]%elem_of_cons]%elem_of_cons.
    + destruct Howner as (r & Hlook & _). by eapply lookup_lt_Some.
    + apply Hr, elem_of_app. by right.
    + apply Hr, elem_of_app. by left.
Qed.

Lemma electionOk_drop c e pending :
  electionOk c e → pending `sublist_of` el_pending e →
  electionOk c (mkElection (el_owner e) (el_term e) pending (el_sum e)).
Proof.
  intros (Howner & Hself & voters & Hnd & Hr & Hsum & Hv) Hsub. split; [done|]. split; [done|].
  exists voters. cbn. split_and!; try done.
  - eapply sublist_NoDup; [done|]. by apply sublist_skip, sublist_app.
  - intros v [Hin|Hin]%elem_of_app; apply Hr, elem_of_app; [by left|right].
    by eapply elem_of_sublist.
Qed.

Definition pendingAfter (e : Election) (from : option nat) : list nat :=
  match from with Some v => filter (λ q, q ≠ v) (el_pending e) | None => el_pending e end.

Lemma countReply_ok c e rf from reply rf' sum' :
  cinv c → e ∈ elections c → nodes c !! el_owner e = Some rf →
  (∀ v, from = Some v → v ∈ el_pending e ∧
    (rvr_VoteGranted reply = true → (v, el_term e, Z.of_nat (el_owner e)) ∈ votes c)) →
  voteReply rf (el_term e) (el_sum e) (bool_decide (is_Some from)) reply = Some (rf', sum') →
  nodeUpdate c (el_owner e) rf rf' [] ∧
  electionOk c (mkElection (el_owner e) (el_term e) (pendingAfter e from) sum').
Proof.
  intros Hc He Hn Hfrom H. destruct (inv_node _ Hc _ _ Hn) as (Hwf & Hme & Hpe).
  pose proof (inv_elections _ Hc _ He) as Hok.
  assert (∀ v, from = Some v → rvr_VoteGranted reply = true →
    electionOk c (mkElection (el_owner e) (el_term e) (pendingAfter e from) (el_sum e + 1)) ∧
    (Z.of_nat (length (nodes c)) < 2 * (el_sum e + 1) → majorityFor c (el_owner e) (el_term e)))
    as Hcount.
  { intros v -> Hg. destruct (Hfrom v eq_refl) as [Hp Hv]. by apply electionOk_count; auto. }
  apply voteReply_effect in H as [(Hcalm & Hle & Hsum)|
    (Hs & Hw & Hsome & Hg & -> & Hmaj & Hterm & _ & Ht & Hv & Hl)].
  - pose proof Hcalm as ((Hm' & Hp' & _) & Hw & Hvs). split.
    { apply voteStep_nodeUpdate; auto. }
    destruct (decide (sum' = el_sum e)) as [->|Hne].
    + apply electionOk_drop; [done|]. unfold pendingAfter. destruct from; [|done].
      apply sublist_filter.
    + destruct (Hsum Hne) as (-> & [v Hv]%bool_decide_eq_true & Hg). by apply (Hcount v).
  - apply bool_decide_eq_true in Hsome as [v Hfv]. destruct (Hcount v Hfv Hg) as [Hok' Hmf].
    split; [|done]. destruct Hs as (Hm' & Hp' & _). rewrite Hpe in Hmaj.
    destruct Hok as ((r & Hr & Hlow) & _). simplify_eq.
    constructor; try done; [by apply Hw|lia| |].
    + intros w Hin. by apply not_elem_of_nil in Hin.
    + intros _. replace (currentTerm (raftState rf')) with (el_term e) by lia. by apply Hmf.
Qed.

Lemma cinv_countReply c g e from reply c' :
  cinv c → elections c !! g = Some e →
  (∀ v, from = Some v → v ∈ el_pending e ∧
    (rvr_VoteGranted reply = true → (v, el_term e, Z.of_nat (el_owner e)) ∈ votes c)) →
  countReply c g e from reply = Some c' → cinv c'.
Proof.
  intros Hc Hg Hfrom H. unfold countReply in H. apply bind_Some in H as (rf & Hn & H).
  pose proof (list_elem_of_lookup_2 _ _ _ Hg) as He.
  destruct (voteReply _ _ _ _ _) as [[rf' sum']|] eqn:E.
  2: { injection H as <-. apply cinv_elections; [done|].
       intros x Hx. eapply elem_of_sublist; [done|]. apply sublist_delete. }
  injection H as <-. fold (pendingAfter e from).
  destruct (countReply_ok c e rf from reply rf' sum' Hc He Hn Hfrom E) as [Hu Hok].
  apply (cinv_update c (el_owner e) rf rf' []); try done;
    [|apply (inv_requests _ Hc)|apply (inv_replies _ Hc)].
  intros x Hx. eapply electionOk_update; [done|].
  apply list_elem_of_lookup in Hx as [j Hj]. destruct (decide (j = g)) as [->|Hne].
  - rewrite list_lookup_insert_eq in Hj by (by eapply lookup_lt_Some). by simplify_eq.
  - rewrite list_lookup_insert_ne in Hj by done.
    by eapply (inv_elections _ Hc), list_elem_of_lookup_2.
Qed.

Lemma cinv_restart c p c' :
  cinv c → benign (LRestart p) c → cstep (LRestart p) c = Some c' → cinv c'.
Proof.
  intros Hc Hb H. cbn in H. apply bind_Some in H as (rf & Hn & H).
  destruct (Hb rf Hn) as (r & Hr & Hh). rewrite Hr in H. cbn in H. injection H as <-.
  destruct (inv_node _ Hc _ _ Hn) as (Hwf & Hme & Hpe).
  destruct (Make_frame _ _ _ _ Hr) as (Hm' & Hp' & Hps & Hst).
  pose proof Hh as Hh'. unfold hardState in Hh'. injection Hh' as Ht Hv Hi Hit Hlog.
  assert (nodeUpdate c p rf r []) as Hu.
  { constructor; try done; try lia.
    - by eapply Make_recovered.
    - intros v Hin. by apply not_elem_of_nil in Hin.
    - by rewrite Hst. }
  apply (cinv_update c p rf r []); try done;
    [|apply (inv_requests _ Hc)|apply (inv_replies _ Hc)].
  intros e [_ He]%list_elem_of_filter. eapply electionOk_update; [done|].
  by apply (inv_elections _ Hc).
Qed.

Lemma cinv_step l c c' : cinv c → benign l c → cstep l c = Some c' → cinv c'.
Proof.
  intros Hc Hb H. destruct l as [p op|p|p|g to|k|g k|g|p].
  - by eapply cinv_node.
  - cbn in H. apply bind_Some in H as (rf & _ & [= <-]). by apply cinv_elections.
  - by eapply cinv_elect.
  - by eapply cinv_sendVote.
  - by eapply cinv_deliver.
  - cbn in H. apply bind_Some in H as (e & He & H). apply bind_Some in H as ([[v args] reply] & Hk & H).
    case_decide as Hd; [|done]. destruct Hd as (Hp & Hcand & Hterm).
    eapply cinv_countReply; [done..| |done]. intros w [= <-]. split; [done|]. intros Hg.
    rewrite <- Hcand, <- Hterm. eapply (inv_replies _ Hc); [|done]. by eapply list_elem_of_lookup_2.
  - cbn in H. apply bind_Some in H as (e & He & H).
    eapply cinv_countReply; [done..| |done]. by intros v [=].
  - by eapply cinv_restart.
Qed.

Lemma cinv_run c c' : benignRun c c' → cinv c → cinv c'.
Proof. induction 1; eauto using cinv_step. Qed.

Lemma cinv_init n (snaps : nat → list SV) : cinv (initCluster (C := C) n snaps).
Proof.
  constructor; cbn; try (intros; by match goal with H : _ ∈ [] |- _ => apply not_elem_of_nil in H end).
  - intros p rf Hp. rewrite length_fmap, length_seq.
    apply list_lookup_fmap_Some in Hp as (q & -> & [-> Hq]%lookup_seq).
    split_and!; done.
  - intros p rf Hp. apply list_lookup_fmap_Some in Hp as (q & -> & _). done.
Qed.

(** Votes and the number of peers do not change under the history's feet. *)
Lemma step_mono l c c' :
  cstep l c = Some c' →
  length (nodes c') = length (nodes c) ∧ ∀ v, v ∈ votes c → v ∈ votes c'.
Proof.
  intros H. destruct l; cbn in H; unfold countReply in H;
    repeat (case_match || case_decide || apply bind_Some in H as (? & ? & H)); simplify_eq/=;
    rewrite ?length_insert; split; try done; intros v Hv; apply elem_of_cons; by right.
Qed.

Lemma run_mono c c' :
  benignRun c c' → length (nodes c') = length (nodes c) ∧ ∀ v, v ∈ votes c → v ∈ votes c'.
Proof.
  induction 1 as [|c1 c2 c3 l _ H _ [IHl IHv]]; [done|].
  apply step_mono in H as [Hl Hv]. split; [congruence|auto].
Qed.

Lemma majorityFor_agree c p q t : cinv c → majorityFor c p t → majorityFor c q t → p = q.
Proof.
  intros Hc (Q1 & Hnd1 & Hr1 & Hm1 & Hv1) (Q2 & Hnd2 & Hr2 & Hm2 & Hv2).
  destruct (quorum_overlap _ Q1 Q2 Hnd1 Hnd2 Hr1 Hr2 Hm1 Hm2) as (v & H1 & H2).
  pose proof (inv_once _ Hc _ _ _ _ (Hv1 v H1) (Hv2 v H2)). lia.
Qed.

Lemma leads_majority c p t : cinv c → leads c p t → majorityFor c p t.
Proof. intros Hc (rf & Hn & Hl & <-). by apply (inv_leader _ Hc). Qed.

Lemma leads_agree c1 c2 p q t :
  cinv c1 → benignRun c1 c2 → leads c1 p t → leads c2 q t → p = q.
Proof.
  intros Hc1 H2 Hp Hq. pose proof (cinv_run _ _ H2 Hc1) as Hc2. destruct (run_mono _ _ H2) as [Hl Hv].
  apply (majorityFor_agree c2 p q t Hc2); [|by apply leads_majority].
  eapply majorityFor_mono; [done..|]. by apply leads_majority.
Qed.

(** C4. Election safety over time: two peers that lead the same term, at the
    same or at different moments of a run, are the same peer. *)
Theorem election_safety n (snaps : nat → list SV) c1 c2 p q t :
  benignRun (initCluster n snaps) c1 → benignRun c1 c2 →
  leads c1 p t → leads c2 q t → p = q.
Proof.
  intros H1 H2. apply leads_agree; [|done]. exact (cinv_run _ _ H1 (cinv_init n snaps)).
Qed.
End safety.

(** ** What the two conditions of [benign] exclude *)

Definition roles {C SV} (c : Cluster C SV) : list (role * Z) :=
  (λ rf, (state (raftState rf), currentTerm (raftState rf))) <$> nodes c.

(** [mainLoop] of peer 0 reads [candidateState], the last vote arrives and
    makes peer 0 leader of term 1, and then [doElection] runs and raises the
    term of the leader to 2. *)
Definition electionRace : list (label unit unit) :=
  [LNode 0 OpTimeout; LMain 0; LElect 0; LSendVote 0 1; LDeliver 0; LMain 0; LVoteReply 0 0;
   LElect 0;
   LNode 1 OpTimeout; LMain 1; LElect 1; LSendVote 0 2; LDeliver 0; LVoteReply 0 0].

(** Peer 2 votes for peer 0 in term 1, applies and snapshots an entry, and
    restarts: it has forgotten term and vote and votes for peer 1. *)
Definition snapshotAmnesia : list (label unit unit) :=
  [LNode 0 OpTimeout; LMain 0; LElect 0; LSendVote 0 2; LDeliver 0; LVoteReply 0 0;
   LNode 2 (OpAppendEntries (mkAppendEntriesArgs 1 0 [mkLogEntry 1 (Some tt)] 0 0 1));
   LNode 2 OpApplyCheck; LNode 2 (OpApplyEnd [mkLogEntry 1 (Some tt)]); LNode 2 (OpSnapshot 1 []);
   LRestart 2;
   LNode 1 OpTimeout; LMain 1; LElect 1; LSendVote 0 2; LDeliver 0; LVoteReply 0 0].

(** Two leaders of term 2: the first one was leader of term 1 when its
    pending [doElection] ran, and nobody voted for it in term 2. *)
Example election_race_two_leaders :
  roles <$> crun electionRace (initCluster 3 (λ _, [])) =
  Some [(leaderState, 2); (leaderState, 2); (followerState, 2)].
Proof. vm_compute. reflexivity. Qed.

(** Two leaders of term 1: the voter they share lost its saved state to a
    snapshot between the two votes. *)
Example snapshot_amnesia_two_leaders :
  roles <$> crun snapshotAmnesia (initCluster 3 (λ _, [])) =
  Some [(leaderState, 1); (leaderState, 1); (followerState, 1)].
Proof. vm_compute. reflexivity. Qed.
