(* ===== verification/RaftLinks.v ===== *)
(** * RaftLinks: logs as chains of entries

    An entry of a Raft log is known by its index and term.  A history of
    created entries says for each of them which term its predecessor has and
    which command it carries; [linked] says that a piece of a log follows the
    history.  The lemmas say that every operation of a peer turns linked logs
    into linked logs, that every request a peer sends carries a linked piece,
    and when role and log of a peer can change. *)

From S2P Require Import Prelude Labgob Persister RaftState RaftRpc RaftLeader RaftPeer.
Local Open Scope Z_scope.

(** ** Chains *)

(** (index, term) of an entry gives the term before it and its command. *)
Abbreviation History C := (gmap (Z * Z) (Z * option C)).

Section links.
Context {C : Type}.
Implicit Types (es tl : list (LogEntry C)) (i t u : Z) (cr : History C).

(** [es] are the entries after index [i], whose term is [t]. *)
Fixpoint linked cr i t es : Prop :=
  match es with
  | [] => True
  | e :: es => cr !! (i + 1, le_Term e) = Some (t, le_Command e) ∧ linked cr (i + 1) (le_Term e) es
  end.

(** The term [n] entries further on. *)
Definition termIn t es (n : nat) : option Z :=
  match n with O => Some t | S m => le_Term <$> es !! m end.

Lemma linked_mono cr cr' i t es : cr ⊆ cr' → linked cr i t es → linked cr' i t es.
Proof.
  intros Hsub. revert i t. induction es as [|e es IH]; cbn; [done|]. intros i t [H1 H2].
  split; [by eapply lookup_weaken|by apply IH].
Qed.

Lemma linked_drop cr i t es n u :
  linked cr i t es → termIn t es n = Some u → linked cr (i + Z.of_nat n) u (drop n es).
Proof.
  revert i t es. induction n as [|n IH]; intros i t es Hl Hu.
  { injection Hu as <-. by rewrite Z.add_0_r. }
  destruct es as [|e es]; [done|]. destruct Hl as [_ Hl]. cbn [drop].
  replace (i + Z.of_nat (S n)) with (i + 1 + Z.of_nat n) by lia.
  eapply IH; [done|]. destruct n; done.
Qed.

Lemma linked_splice cr i t es n u tl :
  linked cr i t es → termIn t es n = Some u → linked cr (i + Z.of_nat n) u tl →
  linked cr i t (take n es ++ tl).
Proof.
  revert i t es. induction n as [|n IH]; intros i t es Hl Hu Htl.
  { injection Hu as <-. by rewrite Z.add_0_r in Htl. }
  destruct es as [|e es]; [done|]. destruct Hl as [Hc Hl]. split; [done|].
  eapply IH; [done|by destruct n|]. by replace (i + 1 + Z.of_nat n) with (i + Z.of_nat (S n)) by lia.
Qed.

Lemma linked_merge cr i t tail es :
  linked cr i t tail → linked cr i t es → linked cr i t (mergeTail tail es).
Proof.
  revert i t tail. induction es as [|e es IH]; intros i t tail Ht He; [done|].
  destruct tail as [|x tail]; [done|]. cbn.
  destruct (Z.eqb_spec (le_Term x) (le_Term e)) as [E|]; [|done].
  destruct Ht as [Hx Ht], He as [_ He]. split; [done|]. apply IH; [done|]. by rewrite E.
Qed.

Lemma linked_lookup cr i t es n e :
  linked cr i t es → es !! n = Some e →
  ∃ u, termIn t es n = Some u ∧ cr !! (i + Z.of_nat n + 1, le_Term e) = Some (u, le_Command e).
Proof.
  intros Hl He. assert (is_Some (termIn t es n)) as [u Hu].
  { destruct n as [|n]; [by eexists|]. cbn. apply fmap_is_Some, lookup_lt_is_Some.
    apply lookup_lt_Some in He. lia. }
  exists u. split; [done|]. pose proof (linked_drop _ _ _ _ _ _ Hl Hu) as Hd.
  rewrite (drop_S _ _ _ He) in Hd. apply Hd.
Qed.
End links.

(** ** The log of a peer *)
Section logs.
Context {C SV : Type}.
Implicit Types (rf : Raft C SV) (cr : History C).

Definition linkedLog cr rf : Prop :=
  linked cr (lastIncludedIndex rf) (lastIncludedTerm rf) (drop 1 (log rf)).

(** Log and boundary stay as they are. *)
Definition logSame rf rf' : Prop :=
  log rf' = log rf ∧ lastIncludedIndex rf' = lastIncludedIndex rf ∧
  lastIncludedTerm rf' = lastIncludedTerm rf.

Lemma logSame_refl rf : logSame rf rf.
Proof. done. Qed.

Lemma logSame_trans rf1 rf2 rf3 : logSame rf1 rf2 → logSame rf2 rf3 → logSame rf1 rf3.
Proof. intros (?&?&?) (?&?&?). unfold logSame. split_and!; congruence. Qed.

Lemma logSame_linked cr rf rf' : logSame rf rf' → linkedLog cr rf → linkedLog cr rf'.
Proof. intros (Hl & Hi & Ht). unfold linkedLog. by rewrite Hl, Hi, Ht. Qed.

Lemma logSame_length rf rf' : logSame rf rf' → getLogLength rf' = getLogLength rf.
Proof. intros (Hl & Hi & Ht). unfold getLogLength. by rewrite Hl, Hi. Qed.

Lemma logSame_maybe t rf : logSame rf (if currentTerm (raftState rf) <? t then updateTerm t rf else rf).
Proof. by case_match. Qed.

Lemma grows_logSame rf rf' : grows rf rf' → logSame rf rf'.
Proof. intros (? & ? & ? & _). done. Qed.

Lemma getTermOfLog_termIn rf i u :
  getTermOfLog rf i = Ret u →
  termIn (lastIncludedTerm rf) (drop 1 (log rf)) (Z.to_nat (i - lastIncludedIndex rf)) = Some u.
Proof.
  intros H. pose proof (getTermOfLog_Ret _ _ _ H) as Hr. unfold getTermOfLog in H. go_inv; try lia.
  - by rewrite Z.sub_diag.
  - match goal with H : slice_get _ _ = _ |- _ => apply slice_get_Ret in H as [_ H] end.
    destruct (Z.to_nat (i - lastIncludedIndex rf)) as [|n] eqn:E; [lia|]. cbn.
    rewrite lookup_drop. cbn. by rewrite H.
Qed.

Lemma termIn_getTermOfLog rf n u :
  1 <= zlen (log rf) → termIn (lastIncludedTerm rf) (drop 1 (log rf)) n = Some u →
  getTermOfLog rf (lastIncludedIndex rf + Z.of_nat n) = Ret u.
Proof.
  intros Hl H. destruct n as [|n]; cbn in H.
  - injection H as <-. rewrite Z.add_0_r. by apply getTermOfLog_boundary.
  - apply fmap_Some in H as (e & He & ->). rewrite lookup_drop in He.
    apply getTermOfLog_lookup; [lia|]. by replace (Z.to_nat _) with (1 + n)%nat by lia.
Qed.

Lemma getLog_Ret rf i e :
  getLog rf i = Ret e →
  lastIncludedIndex rf < i < getLogLength rf ∧ log rf !! Z.to_nat (i - lastIncludedIndex rf) = Some e.
Proof.
  unfold getLog. intros H. go_inv. apply slice_get_Ret in H as [_ H]. split; [lia|done].
Qed.

(** What the history says about an entry of a linked log. *)
Lemma linkedLog_getLog cr rf i e :
  raft_wf rf → linkedLog cr rf → getLog rf i = Ret e →
  ∃ u, getTermOfLog rf (i - 1) = Ret u ∧ cr !! (i, le_Term e) = Some (u, le_Command e).
Proof.
  intros Hwf Hl [Hr He]%getLog_Ret.
  destruct (Z.to_nat (i - lastIncludedIndex rf)) as [|n] eqn:E; [lia|].
  assert (drop 1 (log rf) !! n = Some e) as He' by (by rewrite lookup_drop).
  destruct (linked_lookup _ _ _ _ _ _ Hl He') as (u & Hu & Hc). exists u.
  replace i with (lastIncludedIndex rf + Z.of_nat n + 1) by lia. split; [|done].
  replace (_ + 1 - 1) with (lastIncludedIndex rf + Z.of_nat n) by lia.
  apply termIn_getTermOfLog; [apply (wf_log _ Hwf)|done].
Qed.

(** The piece of a log after index [i]. *)
Lemma linkedLog_from cr rf i u :
  linkedLog cr rf → getTermOfLog rf i = Ret u →
  linked cr i u (drop (Z.to_nat (i + 1 - lastIncludedIndex rf)) (log rf)).
Proof.
  intros Hl Hu. pose proof (getTermOfLog_Ret _ _ _ Hu) as Hr.
  pose proof (linked_drop _ _ _ _ _ _ Hl (getTermOfLog_termIn _ _ _ Hu)) as H.
  rewrite drop_drop in H. rewrite Z2Nat.id in H by lia.
  replace (Z.to_nat (i + 1 - lastIncludedIndex rf))
    with (1 + Z.to_nat (i - lastIncludedIndex rf))%nat by lia.
  by replace (lastIncludedIndex rf + (i - lastIncludedIndex rf)) with i in H by lia.
Qed.

Lemma sliceOf_linked cr rf args :
  linkedLog cr rf → sliceOf rf args →
  linked cr (ae_PrevLogIndex args) (ae_PrevLogTerm args) (ae_Entries args).
Proof. intros Hl (_ & Ht & ->). by apply linkedLog_from. Qed.

(** *** Operations that change the log *)

Lemma AppendEntries_linked cr rf args rf' reply :
  raft_wf rf → AppendEntries rf args = Ret (rf', reply) → linkedLog cr rf →
  linked cr (ae_PrevLogIndex args) (ae_PrevLogTerm args) (ae_Entries args) → linkedLog cr rf'.
Proof.
  intros Hwf H Hl Hes. destruct (aer_Success reply) eqn:Hs.
  2: { assert (rf' = appendPrologue rf args) as -> by (apply AppendEntries_result in H; by destruct H).
       eapply logSame_linked; [|done]. destruct (appendPrologue_sameLog rf args) as (_&_&?&?&?&_). done. }
  destruct (AppendEntries_stored _ _ _ _ Hwf H Hs) as (_ & Hr & Ht & Hlog & Hi & Hit & _).
  unfold linkedLog. rewrite Hi, Hit, Hlog.
  pose proof (linkedLog_from _ _ _ _ Hl Ht) as Htail.
  set (k := Z.to_nat (ae_PrevLogIndex args + 1 - lastIncludedIndex rf)) in *.
  assert (drop 1 (take k (log rf) ++ mergeTail (drop k (log rf)) (ae_Entries args)) =
    take (Z.to_nat (ae_PrevLogIndex args - lastIncludedIndex rf)) (drop 1 (log rf)) ++
    mergeTail (drop k (log rf)) (ae_Entries args)) as ->.
  { rewrite drop_app_le by (rewrite length_take; unfold getLogLength, zlen in *; lia).
    rewrite take_drop_commute. f_equal. f_equal. f_equal. lia. }
  eapply linked_splice; [done|by apply getTermOfLog_termIn|].
  replace (lastIncludedIndex rf + _) with (ae_PrevLogIndex args) by lia.
  by apply linked_merge.
Qed.

Lemma Snapshot_linked cr rf index snap rf' :
  Snapshot rf index snap = Ret rf' → linkedLog cr rf →
  linkedLog cr rf' ∧ getLogLength rf' = getLogLength rf ∧ raftState rf' = raftState rf.
Proof.
  intros H Hl. unfold Snapshot in H. case_match; [by injection H as <-|].
  destruct (Z.leb_spec index (lastIncludedIndex rf)); [by injection H as <-|].
  case_match; [by injection H as <-|]. case_match; [by injection H as <-|].
  rewrite leftLogFrom_spec in H by done. cbn in H.
  apply bind_Ret in H as (t & Ht & [= <-]). split_and!; [|unfold getLogLength|done]; raft_cbn.
  - pose proof (linkedLog_from _ _ _ _ Hl Ht) as Hd. unfold linkedLog. raft_cbn.
    rewrite drop_drop. by replace (_ + 1)%nat with (Z.to_nat (index + 1 - lastIncludedIndex rf)) by lia.
  - apply getTermOfLog_Ret in Ht. unfold getLogLength in *. rewrite zlen_drop by lia. lia.
Qed.

(** The tail that an adopted snapshot keeps has to follow the snapshot. *)
Definition installAgrees rf (args : InstallSnapshotArgs SV) : Prop :=
  lastIncludedIndex rf < is_LastIncludedIndex args → is_LastIncludedIndex args < getLogLength rf - 1 →
  getTermOfLog rf (is_LastIncludedIndex args) = Ret (is_LastIncludedTerm args).

Lemma InstallSnapshot_linked cr rf args rf' reply msg :
  InstallSnapshot rf args = Ret (rf', reply, msg) → installAgrees rf args →
  linkedLog cr rf → linkedLog cr rf'.
Proof.
  intros H Hag Hl. rewrite InstallSnapshot_cases in H. cbn zeta in H.
  pose proof (logSame_maybe (is_Term args) rf) as Hs.
  set (rf1 := if currentTerm (raftState rf) <? is_Term args then _ else _) in *. clearbody rf1.
  destruct ((_ && _) && _) eqn:Hg; [|injection H as <- _ _; by eapply logSame_linked].
  injection H as <- _ _. destruct Hs as (Hl1 & Hi1 & Ht1). zbool. unfold linkedLog. cbn.
  rewrite Hl1, Hi1 in *.
  destruct (decide (is_LastIncludedIndex args < getLogLength rf - 1)) as [Hlt|Hge].
  - apply linkedLog_from; [done|]. apply Hag; lia.
  - rewrite drop_0, drop_ge; [done|]. unfold getLogLength, zlen in *. lia.
Qed.

(** A leader's new entry. *)
Lemma Start_effect rf command rf' r :
  Start rf command = Ret (rf', r) → raft_wf rf →
  raftState rf' = raftState rf ∧
  if r.2 then
    state (raftState rf) = leaderState ∧ r.1 = (getLogLength rf, currentTerm (raftState rf)) ∧
    lastIncludedIndex rf' = lastIncludedIndex rf ∧ lastIncludedTerm rf' = lastIncludedTerm rf ∧
    log rf' = log rf ++ [mkLogEntry (currentTerm (raftState rf)) (Some command)]
  else rf' = rf.
Proof.
  unfold Start. intros H Hwf. destruct (isState _ _) eqn:Hs; [|by injection H as <- <-].
  destruct (leaderInitDone rf); [|done].
  apply bind_Ret in H as (m & _ & H). apply bind_Ret in H as (n & _ & [= <- <-]).
  apply bool_decide_eq_true in Hs. split; [done|]. split; [done|]. split; [|done].
  cbn. f_equal. unfold getLogLength. raft_cbn.
  rewrite zlen_app. unfold zlen. cbn [length]. lia.
Qed.

Lemma Start_linked cr rf rf' e u :
  raft_wf rf → linkedLog cr rf → getTermOfLog rf (getLogLength rf - 1) = Ret u →
  cr !! (getLogLength rf, le_Term e) = Some (u, le_Command e) →
  lastIncludedIndex rf' = lastIncludedIndex rf → lastIncludedTerm rf' = lastIncludedTerm rf →
  log rf' = log rf ++ [e] → linkedLog cr rf'.
Proof.
  intros Hwf Hl Hu Hc Hi Ht Hlog. unfold linkedLog. rewrite Hi, Ht, Hlog.
  pose proof (wf_log _ Hwf) as H1. unfold getLogLength, zlen in *.
  rewrite drop_app_le by lia.
  rewrite <- (firstn_all (drop 1 (log rf))) at 1. rewrite length_drop.
  apply getTermOfLog_termIn in Hu.
  eapply linked_splice; [done| |].
  - rewrite <- Hu. f_equal. lia.
  - cbn. split; [|done]. rewrite <- Hc. f_equal. f_equal. lia.
Qed.
End logs.

(** ** Roles *)
Section roles.
Context {C SV : Type}.
Implicit Types (rf : Raft C SV).

(** A leader stays leader as long as its term stays; a follower stays
    follower. *)
Definition roleStep rf rf' : Prop :=
  (state (raftState rf) = leaderState → currentTerm (raftState rf') = currentTerm (raftState rf) →
     state (raftState rf') = leaderState) ∧
  (state (raftState rf) = followerState → state (raftState rf') = followerState).

Definition still rf rf' : Prop := logSame rf rf' ∧ roleStep rf rf'.

Lemma roleStep_same rf rf' : state (raftState rf') = state (raftState rf) → roleStep rf rf'.
Proof. intros E. unfold roleStep. by rewrite E. Qed.

Lemma roleStep_maybe t rf rf' :
  raftState rf' = raftState (if currentTerm (raftState rf) <? t then updateTerm t rf else rf) →
  roleStep rf rf'.
Proof.
  intros E. destruct (Z.ltb_spec (currentTerm (raftState rf)) t).
  - unfold roleStep. rewrite E, updateTerm_raftState. cbn. split; [lia|done].
  - apply roleStep_same. by rewrite E.
Qed.

Lemma roleStep_prologue rf (args : AppendEntriesArgs C) rf' :
  raftState rf' = raftState (appendPrologue rf args) → roleStep rf rf'.
Proof.
  intros E. pose proof (appendPrologue_term rf args) as Ht. rewrite <- E in Ht.
  assert (currentTerm (raftState rf) < ae_Term args → state (raftState rf') = followerState) as Hnew.
  { intros Hlt%Z.ltb_lt. rewrite E. unfold appendPrologue. rewrite Hlt. by destruct (_ && _). }
  destruct (decide (currentTerm (raftState rf) < ae_Term args)) as [Hlt|Hge].
  { split; [intros; lia|auto]. }
  unfold appendPrologue, isState in E. rewrite (proj2 (Z.ltb_ge _ _)) in E by lia.
  unfold roleStep. rewrite E.
  destruct (state (raftState rf)) eqn:Es; cbn; raft_cbn; rewrite ?Es; try done.
Qed.

Lemma still_maybe t rf rf' :
  let rf1 := if currentTerm (raftState rf) <? t then updateTerm t rf else rf in
  raftState rf' = raftState rf1 → logSame rf1 rf' → still rf rf'.
Proof.
  intros rf1 E Hl. split; [|by eapply roleStep_maybe].
  eapply logSame_trans; [apply logSame_maybe|done].
Qed.

Lemma AppendEntries_role rf args rf' reply :
  AppendEntries rf args = Ret (rf', reply) → raft_wf rf → roleStep rf rf'.
Proof.
  intros H Hwf. eapply roleStep_prologue. destruct (aer_Success reply) eqn:E.
  - destruct (AppendEntries_stored _ _ _ _ Hwf H E) as (_&_&_&_&_&_&_&?&_). done.
  - apply AppendEntries_result in H. by destruct H as [?|?|]; subst.
Qed.

(** A leader's log does not change unless entries of its own term arrive. *)
Lemma AppendEntries_log_same rf args rf' reply :
  AppendEntries rf args = Ret (rf', reply) → raft_wf rf →
  ae_Term args < currentTerm (raftState rf) ∨ ae_Entries args = [] → logSame rf rf'.
Proof.
  intros H Hwf Hor. destruct (aer_Success reply) eqn:E.
  - destruct (AppendEntries_stored _ _ _ _ Hwf H E) as (Ht & _ & _ & Hl & ? & ? & _).
    destruct Hor as [?|He]; [lia|]. rewrite He in Hl. cbn in Hl. rewrite take_drop in Hl. done.
  - assert (rf' = appendPrologue rf args) as -> by (apply AppendEntries_result in H; by destruct H).
    by destruct (appendPrologue_sameLog rf args) as (_&_&?&?&?&_).
Qed.

Lemma InstallSnapshot_role rf args rf' reply msg :
  InstallSnapshot rf args = Ret (rf', reply, msg) → roleStep rf rf'.
Proof.
  intros H. rewrite InstallSnapshot_cases in H. cbn zeta in H. apply (roleStep_maybe (is_Term args)).
  destruct (_ && _); by injection H as <- _ _.
Qed.

Lemma InstallSnapshot_log_same rf args rf' reply msg :
  InstallSnapshot rf args = Ret (rf', reply, msg) →
  is_Term args < currentTerm (raftState rf) → logSame rf rf'.
Proof.
  intros H Ht. rewrite InstallSnapshot_cases in H. cbn zeta in H.
  rewrite (proj2 (Z.leb_gt _ _)) in H by done. injection H as <- _ _. apply logSame_maybe.
Qed.

Lemma RequestVote_still rf args rf' reply : RequestVote rf args = Ret (rf', reply) → still rf rf'.
Proof.
  intros H. split; [by eapply grows_logSame, RequestVote_effect|].
  unfold RequestVote in H. destruct (Z.leb_spec (currentTerm (raftState rf)) (rv_Term args));
    [|injection H as <- _; by apply roleStep_same].
  assert (∀ r, state (raftState r) = state (raftState (if currentTerm (raftState rf) <? rv_Term args
    then updateTerm (rv_Term args) rf else rf)) → currentTerm (raftState r) = rv_Term args →
    roleStep rf r) as Hr.
  { intros r Es Et. unfold roleStep. rewrite Es, Et.
    destruct (Z.ltb_spec (currentTerm (raftState rf)) (rv_Term args)); [|done].
    rewrite updateTerm_raftState. cbn. split; [lia|done]. }
  assert (currentTerm (raftState (if currentTerm (raftState rf) <? rv_Term args
    then updateTerm (rv_Term args) rf else rf)) = rv_Term args) as Ht.
  { destruct (Z.ltb_spec (currentTerm (raftState rf)) (rv_Term args)); [done|lia]. }
  destruct (_ || _); [|injection H as <- _; by apply Hr].
  apply bind_Ret in H as (b & _ & H). destruct b; injection H as <- _; by apply Hr.
Qed.

Lemma voteReply_still rf term sum ok reply rf' sum' :
  voteReply rf term sum ok reply = Some (rf', sum') →
  logSame rf rf' ∧ state (raftState rf) = candidateState.
Proof.
  unfold voteReply. intros H. destruct (_ || negb _) eqn:Hg; [done|].
  apply orb_false_iff in Hg as [_ Hc]. apply negb_false_iff, bool_decide_eq_true in Hc.
  split; [|done]. destruct ok; [|by injection H as <- _].
  pose proof (logSame_maybe (rvr_Term reply) rf) as Hs.
  destruct (rvr_VoteGranted reply); [destruct (_ && _)|]; by injection H as <- _.
Qed.

(** *** Replies, and what is sent after them *)

(** [m] was put together from the log of [rf] for a goroutine of [term]. *)
Definition sentFrom rf (term to : Z) (m : senderNext C SV) : Prop :=
  match m with
  | SendStop => True
  | SendAppend to' args => to' = to ∧ ae_Term args = term ∧ sliceOf rf args
  | SendSnapshot to' args => to' = to ∧ args = snapshotArgs rf term
  end.

Lemma appendArgsFrom_sent rf term to next m :
  appendArgsFrom rf term to next = Ret m → sentFrom rf term to m.
Proof.
  intros H. destruct m as [|to' args|to' args]; [done| |].
  - pose proof H as (Hs & Ht & _)%appendArgsFrom_sliceOf. split; [|done].
    unfold appendArgsFrom in H. by go_inv.
  - unfold appendArgsFrom in H. by go_inv.
Qed.

Lemma sendToEach_sent rf term ids ms m :
  sendToEach rf term ids = Ret ms → m ∈ ms → ∃ to, to ∈ ids ∧ to ≠ me rf ∧ sentFrom rf term to m.
Proof.
  revert ms. induction ids as [|i ids IH]; cbn; intros ms Hms Hin.
  { injection Hms as <-. by apply not_elem_of_nil in Hin. }
  apply bind_Ret in Hms as (m1 & Hm & Hms). apply bind_Ret in Hms as (ms' & Hms' & [= <-]).
  apply elem_of_app in Hin as [Hin|Hin].
  - unfold sendTo in Hm. go_inv; try by apply not_elem_of_nil in Hin.
    apply list_elem_of_singleton in Hin as ->. exists i. split; [set_solver|]. split; [done|].
    by eapply appendArgsFrom_sent.
  - destruct (IH _ Hms' Hin) as (to & ? & ?). exists to. set_solver.
Qed.

Lemma appendReply_sent rf rf' to args reply m :
  raft_wf rf → sendAppendEntries_reply rf to args reply = Ret (rf', m) →
  still rf rf' ∧ (m ≠ SendStop → stillLeader rf (ae_Term args) = true ∧
                    raftState rf' = raftState rf ∧ sentFrom rf' (ae_Term args) to m).
Proof.
  unfold sendAppendEntries_reply. intros Hwf%wf_lii H.
  destruct (stillLeader rf (ae_Term args)) eqn:Hst; cbn [negb] in H.
  2: { injection H as <- <-. split; [|done]. split; [done|by apply roleStep_same]. }
  unfold stillLeader in Hst. apply andb_true_iff in Hst as [Ht%Z.eqb_eq _].
  destruct (aer_Success reply).
  { apply bind_Ret in H as (r & (n & l & ->)%raiseMatch_frame & [= <- <-]).
    split; [|done]. by apply (still_maybe (aer_Term reply)). }
  split.
  - apply (still_maybe (aer_Term reply)); destruct (_ <? _); go_inv; done.
  - intros Hm. destruct (_ <? _); [by injection H as _ <-|]. split; [done|].
    cbn zeta in H. destruct (aer_NextRetryStartIndex reply =? 0); [done|].
    destruct (Z.leb_spec (aer_NextRetryStartIndex reply) (lastIncludedIndex rf)).
    { injection H as <- <-. split; [done|]. cbn. by rewrite Ht. }
    go_inv; [|lia]. inv_logsFrom. split; [done|]. cbn. unfold sliceOf. cbn. raft_cbn.
    split_and!; try done; [lia|]. do 2 f_equal. lia.
Qed.

Lemma snapshotReply_sent rf rf' to args reply m :
  sendInstallSnapshot_reply rf to args reply = Ret (rf', m) →
  still rf rf' ∧ (m ≠ SendStop → stillLeader rf (is_Term args) = true ∧
                    raftState rf' = raftState rf ∧ sentFrom rf' (is_Term args) to m).
Proof.
  unfold sendInstallSnapshot_reply. intros H.
  destruct (stillLeader rf (is_Term args)); cbn [negb] in H.
  2: { injection H as <- <-. split; [|done]. split; [done|by apply roleStep_same]. }
  destruct (currentTerm (raftState rf) <? isr_Term reply) eqn:E.
  { injection H as <- <-. split; [|done]. apply (still_maybe (isr_Term reply)); by rewrite E. }
  apply bind_Ret in H as (r & (_ & _ & ->)%setMatch_Ret & H).
  apply bind_Ret in H as (m' & Hm%appendArgsFrom_sent & [= <- <-]).
  split; [|done]. split; [done|by apply roleStep_same].
Qed.

Lemma heartbeatReply_still rf rf' from args reply :
  heartbeat_reply rf from args reply = Ret rf' → still rf rf'.
Proof.
  unfold heartbeat_reply. intros H. apply (still_maybe (aer_Term reply)); cbn zeta in *;
    (destruct (aer_Success reply); [apply raiseMatch_frame in H as (? & ? & ->)|injection H as <-]); done.
Qed.

Lemma heartbeatArgs_sent rf term args :
  heartbeatArgs rf term = Ret args →
  ae_Entries args = [] ∧ ae_Term args = term.
Proof. unfold heartbeatArgs. intros H. by go_inv. Qed.

(** *** Everything else *)

(** The critical sections that neither belong to an election nor handle a
    message nor change the log. *)
Definition internalOp (op : peerOp C SV) : bool :=
  match op with
  | OpCommitWrite _ _ | OpLeaderInit | OpLeaderReady | OpTick _ | OpApplyCheck | OpApplyEnd _ | OpKill => true
  | _ => false
  end.

Lemma internal_still op rf rf' : internalOp op = true → exec op rf = Ret rf' → still rf rf'.
Proof.
  intros Hop H. destruct op; try done; cbn [exec] in H;
    unfold commitWrite, notifyApply, applyCheck, followerTick in H;
    go_inv; try case_match; (split; [done|by apply roleStep_same]).
Qed.

Lemma doElection_still rf : still rf (doElection rf).
Proof. split; [done|]. by apply roleStep_same. Qed.
End roles.
