(* ===== verification/RaftReplication.v ===== *)
(** * RaftReplication: log replication in a cluster of peers

    The cluster of RaftCluster, with the goroutines that replicate the log and
    the AppendEntries and InstallSnapshot messages they send.  A message that
    was sent may arrive late, often or never, and so may its reply.  [rstep]
    runs one critical section of one goroutine or handler; [log_matching] holds
    of every run of it.

    [Start] leaves behind a goroutine [sendAppendEntriesToAll(term)] that puts
    its requests together later, [leaderMain] leaves behind goroutines
    [sendHeartbeatToAll(term)]; both act without looking at the role of the
    peer again, as in the source.  Only [sendAppendEntries] and
    [sendInstallSnapshot] look, before every [Call].  An iteration of
    [tryIncrementCommitIndex] and the start of [leaderMain] are several critical
    sections each, with any other steps in between.  The entries of a request are the log's
    entries when it was put together: in the source they are a slice of the
    log's array until [labrpc] has encoded them. *)

From S2P Require Import Prelude Labgob Persister RaftState RaftRpc RaftLeader RaftPeer RaftCluster RaftLinks.
Local Open Scope Z_scope.

Section replication.
Context {C SV : Type}.
Implicit Types (c : Cluster C SV) (rf : Raft C SV) (cr : History C).

(** An AppendEntries request and who handles its reply: the loop of
    [sendHeartbeatToAll] or [sendAppendEntries]. *)
Record AppendMsg := mkAppendMsg {
  am_from : nat; am_to : Z; am_beat : bool; am_args : AppendEntriesArgs C;
}.
Record SnapshotMessage := mkSnapshotMessage {
  sm_from : nat; sm_to : Z; sm_args : InstallSnapshotArgs SV;
}.

Record Msgs := mkMsgs {
  (** [sendAppendEntriesToAll(term)] and [sendHeartbeatToAll(term)] of a peer *)
  broadcasts : list (nat * Z);
  heartbeats : list (nat * Z);
  (** [sendAppendEntries] and [sendInstallSnapshot] with their arguments *)
  appendCalls : list AppendMsg;
  snapshotCalls : list SnapshotMessage;
  (** iterations of [tryIncrementCommitIndex], by peer, term and index: before
      counting, and with the count before the write *)
  scans : list (nat * Z * Z);
  counts : list (nat * Z * Z * Z);
  (** sent, with the replies *)
  appends : list AppendMsg;
  appendReplies : list (AppendMsg * AppendEntriesReply);
  snapshots : list SnapshotMessage;
  snapshotReplies : list (SnapshotMessage * InstallSnapshotReply);
}.

(** [created] is the history of the entries that leaders created. *)
Record World := mkWorld { cl : Cluster C SV; msgs : Msgs; created : History C }.
Implicit Types (w : World) (ms : Msgs).

Inductive rlabel :=
  | RCluster (l : label C SV)
  | RTimeout (p : nat)
  | RStart (p : nat) (command : C)
  | RBroadcast (k : nat)
  | RHeartbeat (p : nat)
  | RBeat (k : nat)
  | RLeaderInit (p : nat)
  | RLeaderReady (p : nat)
  | RScanTerm (p : nat) (term i : Z)
  | RScanCount (k : nat)
  | RScanWrite (k : nat)
  | RCallAppend (k : nat)
  | RCallSnapshot (k : nat)
  | RAppend (k : nat)
  | RAppendReply (k : nat)
  | RSnapshot (k : nat)
  | RSnapshotReply (k : nat)
  | RRestart (p : nat).

(** The steps of a cluster that are not refined here. *)
Definition kept (l : label C SV) : bool :=
  match l with
  | LNode _ (OpSnapshot _ _) => true
  | LNode _ (OpCommitWrite _ _) | LNode _ OpLeaderInit | LNode _ OpLeaderReady => false
  | LNode _ op => internalOp op
  | LRestart _ => false
  | _ => true
  end.

Definition setNode c (p : nat) rf : Cluster C SV :=
  mkCluster (<[p := rf]> (nodes c)) (mains c) (elections c) (requests c) (replies c) (votes c).
Definition setMain c (p : nat) (b : option mainBranch) : Cluster C SV :=
  mkCluster (nodes c) (<[p := b]> (mains c)) (elections c) (requests c) (replies c) (votes c).

Definition addAppend (m : AppendMsg) ms : Msgs :=
  mkMsgs (broadcasts ms) (heartbeats ms) (appendCalls ms) (snapshotCalls ms) (scans ms) (counts ms)
    (m :: appends ms) (appendReplies ms) (snapshots ms) (snapshotReplies ms).
Definition addSnapshot (m : SnapshotMessage) ms : Msgs :=
  mkMsgs (broadcasts ms) (heartbeats ms) (appendCalls ms) (snapshotCalls ms) (scans ms) (counts ms)
    (appends ms) (appendReplies ms) (m :: snapshots ms) (snapshotReplies ms).
Definition addAppendReply (r : AppendMsg * AppendEntriesReply) ms : Msgs :=
  mkMsgs (broadcasts ms) (heartbeats ms) (appendCalls ms) (snapshotCalls ms) (scans ms) (counts ms)
    (appends ms) (r :: appendReplies ms) (snapshots ms) (snapshotReplies ms).
Definition addSnapshotReply (r : SnapshotMessage * InstallSnapshotReply) ms : Msgs :=
  mkMsgs (broadcasts ms) (heartbeats ms) (appendCalls ms) (snapshotCalls ms) (scans ms) (counts ms)
    (appends ms) (appendReplies ms) (snapshots ms) (r :: snapshotReplies ms).
Definition setGoroutines (bs hs : list (nat * Z)) ms : Msgs :=
  mkMsgs bs hs (appendCalls ms) (snapshotCalls ms) (scans ms) (counts ms)
    (appends ms) (appendReplies ms) (snapshots ms) (snapshotReplies ms).
Definition setCalls (acs : list AppendMsg) (scs : list SnapshotMessage) ms : Msgs :=
  mkMsgs (broadcasts ms) (heartbeats ms) acs scs (scans ms) (counts ms)
    (appends ms) (appendReplies ms) (snapshots ms) (snapshotReplies ms).
Definition setScans (scs : list (nat * Z * Z)) (cts : list (nat * Z * Z * Z)) ms : Msgs :=
  mkMsgs (broadcasts ms) (heartbeats ms) (appendCalls ms) (snapshotCalls ms) scs cts
    (appends ms) (appendReplies ms) (snapshots ms) (snapshotReplies ms).

(** What a sender of peer [p] decided to send. *)
Definition send (p : nat) (m : senderNext C SV) ms : Msgs :=
  match m with
  | SendStop => ms
  | SendAppend to args =>
      setCalls (mkAppendMsg p to false args :: appendCalls ms) (snapshotCalls ms) ms
  | SendSnapshot to args =>
      setCalls (appendCalls ms) (mkSnapshotMessage p to args :: snapshotCalls ms) ms
  end.
Definition sendAll (p : nat) (l : list (senderNext C SV)) ms : Msgs := foldr (send p) ms l.

(** A heartbeat to every other peer. *)
Definition beatTo (p : nat) (args : AppendEntriesArgs C) (q : nat) : AppendMsg :=
  mkAppendMsg p (Z.of_nat q) true args.
Definition beatAll (p n : nat) (args : AppendEntriesArgs C) ms : Msgs :=
  foldr (λ q, addAppend (beatTo p args q)) ms (others n p).

Definition rstep (l : rlabel) w : option World :=
  let '(mkWorld c ms cr) := w in
  match l with
  | RCluster l => if kept l then c' ← cstep l c; Some (mkWorld c' ms cr) else None
  | RTimeout p =>
      rf ← nodes c !! p;
      branch ← mains c !! p;
      match branch with
      | Some RunFollower => Some (mkWorld (setMain (setNode c p (followerTimeout rf)) p None) ms cr)
      | _ => None
      end
  | RStart p command =>
      rf ← nodes c !! p;
      '(rf', (index, term, isLeader)) ← returned (Start rf command);
      if isLeader : bool then
        prev ← returned (getTermOfLog rf (getLogLength rf - 1));
        Some (mkWorld (setNode c p rf') (setGoroutines ((p, term) :: broadcasts ms) (heartbeats ms) ms)
               (<[(index, term) := (prev, Some command)]> cr))
      else Some (mkWorld (setNode c p rf') ms cr)
  | RBroadcast k =>
      '(p, term) ← broadcasts ms !! k;
      rf ← nodes c !! p;
      sent ← returned (sendAppendEntriesToAll rf term);
      Some (mkWorld c (sendAll p sent (setGoroutines (delete k (broadcasts ms)) (heartbeats ms) ms)) cr)
  | RHeartbeat p =>
      rf ← nodes c !! p;
      branch ← mains c !! p;
      match branch with
      | Some LeaderBeats =>
          Some (mkWorld c (setGoroutines (broadcasts ms)
                             ((p, currentTerm (raftState rf)) :: heartbeats ms) ms) cr)
      | _ => None
      end
  | RBeat k =>
      '(p, term) ← heartbeats ms !! k;
      rf ← nodes c !! p;
      args ← returned (heartbeatArgs rf term);
      Some (mkWorld c (beatAll p (length (nodes c)) args
                         (setGoroutines (broadcasts ms) (delete k (heartbeats ms)) ms)) cr)
  | RLeaderInit p =>
      rf ← nodes c !! p;
      branch ← mains c !! p;
      match branch with
      | Some RunLeader =>
          Some (mkWorld (setMain (setNode c p (leaderInit rf)) p (Some LeaderIndexed)) ms cr)
      | _ => None
      end
  | RLeaderReady p =>
      rf ← nodes c !! p;
      branch ← mains c !! p;
      match branch with
      | Some LeaderIndexed =>
          Some (mkWorld (setMain (setNode c p (leaderReady rf)) p (Some LeaderBeats)) ms cr)
      | _ => None
      end
  | RScanTerm p term i =>
      rf ← nodes c !! p;
      '(_, same) ← returned (scanTerm rf term i);
      Some (mkWorld c (if same : bool then setScans ((p, term, i) :: scans ms) (counts ms) ms else ms) cr)
  | RScanCount k =>
      '(p, term, i) ← scans ms !! k;
      rf ← nodes c !! p;
      count ← returned (scanCount rf i);
      Some (mkWorld c (setScans (delete k (scans ms)) ((p, term, i, count) :: counts ms) ms) cr)
  | RScanWrite k =>
      '(p, _, i, count) ← counts ms !! k;
      rf ← nodes c !! p;
      rf' ← returned (commitWrite rf i count);
      Some (mkWorld (setNode c p rf') (setScans (scans ms) (delete k (counts ms)) ms) cr)
  | RCallAppend k =>
      m ← appendCalls ms !! k;
      rf ← nodes c !! am_from m;
      Some (mkWorld c (if stillLeader rf (ae_Term (am_args m)) then addAppend m ms
                       else setCalls (delete k (appendCalls ms)) (snapshotCalls ms) ms) cr)
  | RCallSnapshot k =>
      m ← snapshotCalls ms !! k;
      rf ← nodes c !! sm_from m;
      Some (mkWorld c (if stillLeader rf (is_Term (sm_args m)) then addSnapshot m ms
                       else setCalls (appendCalls ms) (delete k (snapshotCalls ms)) ms) cr)
  | RAppend k =>
      m ← appends ms !! k;
      rf ← nodes c !! Z.to_nat (am_to m);
      '(rf', reply) ← returned (AppendEntries rf (am_args m));
      Some (mkWorld (setNode c (Z.to_nat (am_to m)) rf') (addAppendReply (m, reply) ms) cr)
  | RAppendReply k =>
      '(m, reply) ← appendReplies ms !! k;
      rf ← nodes c !! am_from m;
      if am_beat m then
        rf' ← returned (heartbeat_reply rf (am_to m) (am_args m) reply);
        Some (mkWorld (setNode c (am_from m) rf') ms cr)
      else
        '(rf', next) ← returned (sendAppendEntries_reply rf (am_to m) (am_args m) reply);
        Some (mkWorld (setNode c (am_from m) rf') (send (am_from m) next ms) cr)
  | RSnapshot k =>
      m ← snapshots ms !! k;
      rf ← nodes c !! Z.to_nat (sm_to m);
      '(rf', reply, _) ← returned (InstallSnapshot rf (sm_args m));
      Some (mkWorld (setNode c (Z.to_nat (sm_to m)) rf') (addSnapshotReply (m, reply) ms) cr)
  | RSnapshotReply k =>
      '(m, reply) ← snapshotReplies ms !! k;
      rf ← nodes c !! sm_from m;
      '(rf', next) ← returned (sendInstallSnapshot_reply rf (sm_to m) (sm_args m) reply);
      Some (mkWorld (setNode c (sm_from m) rf') (send (sm_from m) next ms) cr)
  | RRestart p =>
      c' ← cstep (LRestart p) c;
      Some (mkWorld c' (setCalls (filter (λ m, am_from m ≠ p) (appendCalls ms))
                          (filter (λ m, sm_from m ≠ p) (snapshotCalls ms))
                          (setGoroutines (filter (λ g, g.1 ≠ p) (broadcasts ms))
                             (filter (λ g, g.1 ≠ p) (heartbeats ms))
                             (setScans (filter (λ g, g.1.1 ≠ p) (scans ms))
                                (filter (λ g, g.1.1.1 ≠ p) (counts ms)) ms))) cr)
  end.

Fixpoint rrun (ls : list rlabel) w : option World :=
  match ls with
  | [] => Some w
  | l :: ls' => w' ← rstep l w; rrun ls' w'
  end.

Definition initWorld (n : nat) (snaps : nat → list SV) : World :=
  mkWorld (initCluster n snaps) (mkMsgs [] [] [] [] [] [] [] [] [] []) ∅.

(** Beside the conditions of election safety: a snapshot is installed only
    if the entries it leaves after it follow it. *)
Definition rbenign (l : rlabel) w : Prop :=
  match l with
  | RCluster l => benign l (cl w)
  | RSnapshot k => ∀ m rf, snapshots (msgs w) !! k = Some m → nodes (cl w) !! Z.to_nat (sm_to m) = Some rf →
      installAgrees rf (sm_args m)
  | RRestart p => benign (LRestart p) (cl w)
  | _ => True
  end.

Inductive rbenignRun : World → World → Prop :=
  | rbenign_refl w : rbenignRun w w
  | rbenign_step w1 w2 w3 l :
      rbenign l w1 → rstep l w1 = Some w2 → rbenignRun w2 w3 → rbenignRun w1 w3.
End replication.
Arguments World : clear implicits.
Arguments Msgs : clear implicits.
Arguments rlabel : clear implicits.

(** ** The invariant behind log matching *)
Section matching.
Context {C SV : Type}.
Implicit Types (c : Cluster C SV) (rf r : Raft C SV) (cr : History C) (w : World C SV) (ms : Msgs C SV).

Definition appendOk c cr (m : AppendMsg (C := C)) : Prop :=
  0 <= am_to m ∧ am_to m ≠ Z.of_nat (am_from m) ∧
  linked cr (ae_PrevLogIndex (am_args m)) (ae_PrevLogTerm (am_args m)) (ae_Entries (am_args m)) ∧
  (ae_Entries (am_args m) = [] ∨ majorityFor c (am_from m) (ae_Term (am_args m))).

Definition snapshotOk c (m : SnapshotMessage (SV := SV)) : Prop :=
  0 <= sm_to m ∧ sm_to m ≠ Z.of_nat (sm_from m) ∧ majorityFor c (sm_from m) (is_Term (sm_args m)).

(** What is on its way carries linked entries of an elected leader. *)
Record msgsOk c cr ms : Prop := {
  mo_broadcast p t : (p, t) ∈ broadcasts ms → majorityFor c p t;
  mo_call m : m ∈ appendCalls ms → appendOk c cr m;
  mo_scall m : m ∈ snapshotCalls ms → snapshotOk c m;
  mo_append m : m ∈ appends ms → appendOk c cr m;
  mo_reply m a : (m, a) ∈ appendReplies ms → m ∈ appends ms;
  mo_snapshot m : m ∈ snapshots ms → snapshotOk c m;
  mo_sreply m a : (m, a) ∈ snapshotReplies ms → m ∈ snapshots ms;
}.

(** The logs are linked, and the entries of a term were created by the one
    leader of the term, who has them all as long as it leads and cannot win the
    term again. *)
Record nodesOk c cr : Prop := {
  no_log p rf : nodes c !! p = Some rf → linkedLog cr rf;
  no_creator i t x : cr !! (i, t) = Some x →
    ∃ p rf, nodes c !! p = Some rf ∧ majorityFor c p t ∧ t <= currentTerm (raftState rf) ∧
      (currentTerm (raftState rf) = t → state (raftState rf) = leaderState ∨
         ∀ e, e ∈ elections c → el_owner e = p → el_term e ≠ t);
  no_leader p rf i x : nodes c !! p = Some rf → state (raftState rf) = leaderState →
    cr !! (i, currentTerm (raftState rf)) = Some x → i < getLogLength rf;
  no_mains p rf : nodes c !! p = Some rf → mains c !! p = Some (Some RunFollower) →
    state (raftState rf) = followerState;
}.

Definition rinv w : Prop :=
  cinv (cl w) ∧ nodesOk (cl w) (created w) ∧ msgsOk (cl w) (created w) (msgs w).

(** *** Messages *)

Lemma msgsOk_mono c c' cr cr' ms :
  length (nodes c') = length (nodes c) → (∀ v, v ∈ votes c → v ∈ votes c') → cr ⊆ cr' →
  msgsOk c cr ms → msgsOk c' cr' ms.
Proof.
  intros Hl Hv Hcr [Hb Hc Hsc Ha Hr Hs Hsr].
  assert (∀ p t, majorityFor c p t → majorityFor c' p t) as Hm by (intros; by eapply majorityFor_mono).
  assert (∀ m, appendOk c cr m → appendOk c' cr' m) as Hao.
  { intros m (H1 & H2 & H3 & H4). split_and!; [done..|by eapply linked_mono|]. destruct H4; auto. }
  assert (∀ m, snapshotOk c m → snapshotOk c' m) as Hso by (intros m (? & ? & ?); split_and!; auto).
  constructor; eauto.
Qed.

Lemma msgsOk_append c cr ms m : msgsOk c cr ms → appendOk c cr m → msgsOk c cr (addAppend m ms).
Proof.
  intros [Hb Hc Hsc Ha Hr Hs Hsr] Hm. constructor; cbn; try done.
  - by intros m' [->|?]%elem_of_cons; auto.
  - intros m' r' ?%Hr. by apply elem_of_cons; right.
Qed.

Lemma msgsOk_snapshot c cr ms m : msgsOk c cr ms → snapshotOk c m → msgsOk c cr (addSnapshot m ms).
Proof.
  intros [Hb Hc Hsc Ha Hr Hs Hsr] Hm. constructor; cbn; try done.
  - by intros m' [->|?]%elem_of_cons; auto.
  - intros m' r' ?%Hsr. by apply elem_of_cons; right.
Qed.

Lemma msgsOk_goroutines c cr ms bs hs :
  msgsOk c cr ms → (∀ p t, (p, t) ∈ bs → majorityFor c p t) → msgsOk c cr (setGoroutines bs hs ms).
Proof. intros [Hb Hc Hsc Ha Hr Hs Hsr] Hbs. by constructor. Qed.

Lemma msgsOk_calls c cr ms acs scs :
  msgsOk c cr ms → (∀ m, m ∈ acs → appendOk c cr m) → (∀ m, m ∈ scs → snapshotOk c m) →
  msgsOk c cr (setCalls acs scs ms).
Proof. intros [Hb Hc Hsc Ha Hr Hs Hsr] ??. by constructor. Qed.

Lemma msgsOk_scans c cr ms scs cts : msgsOk c cr ms → msgsOk c cr (setScans scs cts ms).
Proof. intros [Hb Hc Hsc Ha Hr Hs Hsr]. by constructor. Qed.

(** A message put together by a goroutine of an elected leader. *)
Lemma msgsOk_send c cr ms p rf term to m :
  msgsOk c cr ms → linkedLog cr rf → 0 <= to → to ≠ Z.of_nat p → sentFrom rf term to m →
  (m ≠ SendStop → majorityFor c p term) → msgsOk c cr (send p m ms).
Proof.
  intros Hms Hl H0 Hto Hsent Hmaj. destruct m as [|to' args|to' args]; [done| |]; cbn in *.
  - destruct Hsent as (-> & <- & Hsl). apply msgsOk_calls; [done| |apply (mo_scall _ _ _ Hms)].
    intros m' [->|?]%elem_of_cons; [|by apply (mo_call _ _ _ Hms)].
    split_and!; [done..|by eapply sliceOf_linked|]. right. by apply Hmaj.
  - destruct Hsent as (-> & ->). apply msgsOk_calls; [done|apply (mo_call _ _ _ Hms)|].
    intros m' [->|?]%elem_of_cons; [|by apply (mo_scall _ _ _ Hms)].
    split_and!; [done..|]. by apply Hmaj.
Qed.

(** *** A change of one node *)

Lemma nodesOk_update c c' cr p rf rf' :
  nodesOk c cr → nodes c !! p = Some rf → nodes c' = <[p := rf']> (nodes c) →
  (∀ v, v ∈ votes c → v ∈ votes c') → linkedLog cr rf' →
  currentTerm (raftState rf) <= currentTerm (raftState rf') →
  (∀ e, e ∈ elections c' →
     (∃ e0, e0 ∈ elections c ∧ el_owner e0 = el_owner e ∧ el_term e0 = el_term e) ∨
     el_owner e = p ∧ currentTerm (raftState rf) < el_term e) →
  (state (raftState rf) = leaderState → currentTerm (raftState rf') = currentTerm (raftState rf) →
     state (raftState rf') = leaderState ∨ ∀ e, e ∈ elections c' → el_owner e ≠ p) →
  (∀ i x, state (raftState rf') = leaderState → cr !! (i, currentTerm (raftState rf')) = Some x →
     i < getLogLength rf') →
  (∀ q r, nodes c' !! q = Some r → mains c' !! q = Some (Some RunFollower) →
     state (raftState r) = followerState) →
  nodesOk c' cr.
Proof.
  intros [Hlog Hcre Hlead Hmain] Hp Hn' Hv Hl Ht Hel Hrole Hlead' Hmain'.
  assert (length (nodes c') = length (nodes c)) as Hlen by (rewrite Hn'; apply length_insert).
  constructor; [| | |done].
  - rewrite Hn'. intros q r [[_ ->]|[_ Hq]]%(nodes_update c p rf); [done|by eapply Hlog|done].
  - intros i t x Hx. destruct (Hcre i t x Hx) as (q & r & Hq & Hmaj & Hle & Hst).
    assert (majorityFor c' q t) as Hmaj' by (by eapply majorityFor_mono).
    destruct (decide (q = p)) as [->|Hne].
    + simplify_eq. exists p, rf'. rewrite Hn'.
      split; [by eapply list_lookup_insert_eq, lookup_lt_Some|]. split; [done|]. split; [lia|].
      intros Et. assert (currentTerm (raftState rf) = t) as Eo by lia.
      destruct (Hst Eo) as [Hld|Hno].
      * destruct (Hrole Hld) as [?|Hgone]; [lia|by left|].
        right. intros e He Ho _. by eapply Hgone.
      * right. intros e [(e0 & He0 & Eo0 & Et0)|[_ Hlt]]%Hel Ho; [|lia].
        rewrite <- Et0. apply Hno; [done|congruence].
    + exists q, r. rewrite Hn'. split; [by rewrite list_lookup_insert_ne|]. split; [done|]. split; [done|].
      intros Et. destruct (Hst Et) as [?|Hno]; [by left|]. right.
      intros e [(e0 & He0 & Eo0 & Et0)|[Ho' _]]%Hel Ho; [|congruence].
      rewrite <- Et0. apply Hno; [done|congruence].
  - rewrite Hn'. intros q r i x [[_ ->]|[_ Hq]]%(nodes_update c p rf); [by eauto| |done].
    intros ??. by eapply Hlead.
Qed.

(** The common case: role and vote behave, and a leader does not lose
    entries. *)
Lemma nodesOk_set c cr p rf rf' :
  nodesOk c cr → nodes c !! p = Some rf → linkedLog cr rf' → voteStep rf rf' → roleStep rf rf' →
  (state (raftState rf) = leaderState → currentTerm (raftState rf') = currentTerm (raftState rf) →
     getLogLength rf <= getLogLength rf') →
  nodesOk (setNode c p rf') cr.
Proof.
  intros Hok Hp Hl Hv [Hr1 Hr2] Hlen.
  apply (nodesOk_update c _ cr p rf rf'); cbn; try done.
  - destruct (voteStep_termVote _ _ Hv). done.
  - intros e He. left. by exists e.
  - intros ??. left. auto.
  - intros i x Hst Hx. destruct Hv as [Et _ Hs|_ _ Hf]; [|by rewrite Hf in Hst].
    specialize (Hs Hst). rewrite Et in Hx. pose proof (no_leader _ _ Hok p rf i x Hp Hs Hx).
    specialize (Hlen Hs Et). lia.
  - intros q r [[-> ->]|[_ Hq]]%(nodes_update c p rf); [|by apply (no_mains _ _ Hok)|done].
    intros Hm. apply Hr2. by apply (no_mains _ _ Hok p).
Qed.

Lemma nodesOk_still c cr p rf rf' :
  nodesOk c cr → nodes c !! p = Some rf → still rf rf' → voteStep rf rf' → nodesOk (setNode c p rf') cr.
Proof.
  intros Hok Hp [Hs Hr] Hv. eapply nodesOk_set; [done..| |done|done|].
  - eapply logSame_linked; [done|]. by apply (no_log _ _ Hok p).
  - intros _ _. by rewrite (logSame_length _ _ Hs).
Qed.

(** Nothing of the nodes changes. *)
Lemma nodesOk_frame c c' cr :
  nodesOk c cr → nodes c' = nodes c → (∀ v, v ∈ votes c → v ∈ votes c') →
  (∀ e, e ∈ elections c' → e ∈ elections c) →
  (∀ q r, nodes c !! q = Some r → mains c' !! q = Some (Some RunFollower) →
     state (raftState r) = followerState) →
  nodesOk c' cr.
Proof.
  intros [Hlog Hcre Hlead Hmain] Hn Hv Hel Hm. constructor; try (rewrite Hn; done); try done.
  intros i t x Hx. destruct (Hcre i t x Hx) as (q & r & Hq & Hmaj & Hle & Hst).
  exists q, r. split_and!; [by rewrite Hn| |done|].
  - eapply majorityFor_mono; [by rewrite Hn|done..].
  - intros Et. destruct (Hst Et) as [?|Hno]; [by left|]. right. intros e ?%Hel. by apply Hno.
Qed.

(** *** Elections *)

Lemma main_reset (bs : list (option mainBranch)) p q b :
  <[p := None]> bs !! q = Some (Some b) → q ≠ p ∧ bs !! q = Some (Some b).
Proof. intros [(_ & ? & _)|[? ?]]%list_lookup_insert_Some; [done|auto]. Qed.

Lemma nodesOk_elect c cr p c' :
  nodesOk c cr → benign (LElect p) c → cstep (LElect p) c = Some c' → nodesOk c' cr.
Proof.
  intros Hok Hb H. cbn in H. apply bind_Some in H as (rf & Hp & H).
  apply bind_Some in H as (b & Hm & H). destruct b as [[]|]; try done. injection H as <-.
  specialize (Hb rf Hp). destruct (doElection_still rf) as [Hs _].
  apply (nodesOk_update c _ cr p rf (doElection rf)); cbn; try done.
  - intros v Hv. by apply elem_of_cons; right.
  - eapply logSame_linked; [done|]. by apply (no_log _ _ Hok p).
  - lia.
  - intros e [->|He]%elem_of_cons; [right; split; [done|cbn; lia]|]. left. by exists e.
  - intros q r Hq Hmq. apply main_reset in Hmq as [Hne Hmq].
    rewrite list_lookup_insert_ne in Hq by done. by apply (no_mains _ _ Hok q).
Qed.

Lemma nodesOk_deliver c cr k c' :
  nodesOk c cr → cstep (LDeliver k) c = Some c' → nodesOk c' cr.
Proof.
  intros Hok H. cbn in H. apply bind_Some in H as ([p args] & _ & H).
  apply bind_Some in H as (rf & Hp & H).
  destruct (RequestVote rf args) as [[rf' reply]| | |] eqn:E; cbn in H; try done. injection H as <-.
  destruct (RequestVote_still _ _ _ _ E) as [Hs [Hr1 Hr2]].
  destruct (RequestVote_effect _ _ _ _ E) as (_ & Hg & _ & Hv).
  apply (nodesOk_update c _ cr p rf rf'); cbn; try done.
  - intros v Hin. destruct (rvr_VoteGranted reply); [by apply elem_of_cons; right|done].
  - eapply logSame_linked; [done|]. by apply (no_log _ _ Hok p).
  - by destruct Hg as (_ & _ & _ & _ & _ & ?).
  - intros e He. left. by exists e.
  - intros ??. left. auto.
  - intros i x Hst Hx. rewrite (logSame_length _ _ Hs).
    assert (state (raftState rf) = leaderState ∧
            currentTerm (raftState rf') = currentTerm (raftState rf)) as [Hl Et].
    { destruct (rvr_VoteGranted reply).
      - destruct Hv as (_ & Ht & _ & _ & [E1 ?]%(λ f, f Hst)). split; [done|]. by rewrite Ht, E1.
      - destruct Hv as [Et _ Hf|_ _ Hf]; [auto|by rewrite Hf in Hst]. }
    rewrite Et in Hx. by eapply (no_leader _ _ Hok p).
  - intros q r [[-> ->]|[_ Hq]]%(nodes_update c p rf); [|by apply (no_mains _ _ Hok)|done].
    intros Hm. apply Hr2. by apply (no_mains _ _ Hok p).
Qed.

(** A peer that wins a term finds no entries of the term. *)
Lemma nodesOk_fresh c c' cr p rf e i x :
  cinv c' → nodesOk c cr → nodes c !! p = Some rf → state (raftState rf) = candidateState →
  length (nodes c') = length (nodes c) → (∀ v, v ∈ votes c → v ∈ votes c') →
  e ∈ elections c → el_owner e = p → el_term e = currentTerm (raftState rf) →
  majorityFor c' p (el_term e) → cr !! (i, el_term e) = Some x → False.
Proof.
  intros Hc' Hok Hp Hcand Hlen Hv He Ho Ht Hmaj Hx.
  destruct (no_creator _ _ Hok _ _ _ Hx) as (q & r & Hq & Hmq & _ & Hst).
  assert (q = p) as -> by (eapply majorityFor_agree; [done| |done]; by eapply majorityFor_mono).
  simplify_eq. destruct (Hst (eq_sym Ht)) as [Hl|Hno]; [congruence|]. by apply (Hno e).
Qed.

Lemma nodesOk_count c cr g e from reply c' :
  cinv c → cinv c' → nodesOk c cr → elections c !! g = Some e →
  countReply c g e from reply = Some c' → nodesOk c' cr.
Proof.
  intros Hc Hc' Hok Hg H. unfold countReply in H. apply bind_Some in H as (rf & Hp & H).
  pose proof (list_elem_of_lookup_2 _ _ _ Hg) as He.
  destruct (voteReply _ _ _ _ _) as [[rf' sum']|] eqn:E.
  2: { injection H as <-. apply (nodesOk_frame c); cbn; try done; [|apply (no_mains _ _ Hok)].
       intros x Hx. eapply elem_of_sublist; [done|]. apply sublist_delete. }
  injection H as <-. destruct (voteReply_still _ _ _ _ _ _ _ E) as [Hs Hcand].
  destruct (inv_elections _ Hc _ He) as ((r & Hr & Hle) & _). simplify_eq.
  set (c' := mkCluster _ _ _ _ _ _) in *.
  apply (nodesOk_update c _ cr (el_owner e) rf rf'); cbn; try done.
  - eapply logSame_linked; [done|]. by apply (no_log _ _ Hok (el_owner e)).
  - apply voteReply_effect in E as [((_ & _ & ?) & _)|(_ & _ & _ & _ & _ & _ & _ & _ & -> & _)]; [|lia].
    by eapply voteStep_termVote.
  - intros x Hx. left. apply list_elem_of_lookup in Hx as [j Hj].
    destruct (decide (j = g)) as [->|Hne].
    + rewrite list_lookup_insert_eq in Hj by (by eapply lookup_lt_Some). simplify_eq. by exists e.
    + rewrite list_lookup_insert_ne in Hj by done. exists x. split; [by eapply list_elem_of_lookup_2|done].
  - by rewrite Hcand.
  - intros i x Hst Hx. exfalso.
    apply voteReply_effect in E as [((_ & _ & Hv) & _)|
      (_ & _ & _ & _ & _ & _ & Hterm & _ & Et & _)].
    { destruct Hv as [_ _ Hf|_ _ Hf]; [apply Hf in Hst|]; congruence. }
    assert (el_term e = currentTerm (raftState rf)) as Ee by lia.
    assert (nodes c' !! el_owner e = Some rf') as Hn'
      by (by eapply list_lookup_insert_eq, lookup_lt_Some).
    pose proof (inv_leader _ Hc' _ _ Hn' Hst) as Hmaj. rewrite Et, <- Ee in Hmaj, Hx.
    by eapply (nodesOk_fresh c c' cr _ rf e); [..|apply length_insert| | | | | |].
  - intros q r [[-> ->]|[_ Hq]]%(nodes_update c (el_owner e) rf); [|by apply (no_mains _ _ Hok)|done].
    intros Hm. pose proof (no_mains _ _ Hok _ _ Hp Hm). congruence.
Qed.

(** *** The steps *)

Lemma exec_set c p op rf rf' :
  cinv c → nodes c !! p = Some rf → nonVoting op = true → exec op rf = Ret rf' →
  cinv (setNode c p rf') ∧ voteStep rf rf' ∧ raft_wf rf.
Proof.
  intros Hc Hp Hnv H. destruct (inv_node _ Hc _ _ Hp) as (Hwf & _).
  split; [|split; [by eapply exec_voteStep|done]].
  apply (cinv_node c p op); [done|]. cbn -[exec nonVoting]. rewrite Hp. cbn -[exec nonVoting].
  by rewrite Hnv, H.
Qed.

Lemma setNode_msgs c p rf cr ms : msgsOk c cr ms → msgsOk (setNode c p rf) cr ms.
Proof. intros H. eapply msgsOk_mono; [..|done]; [apply length_insert|done|done]. Qed.

Lemma rinv_cluster c ms cr l c' :
  rinv (mkWorld c ms cr) → benign l c → kept l = true → cstep l c = Some c' → rinv (mkWorld c' ms cr).
Proof.
  intros (Hc & Hok & Hms) Hb Hk H. cbn in *.
  assert (cinv c') as Hc' by (by eapply cinv_step). destruct (step_mono _ _ _ H) as [Hlen Hv].
  split; [done|]. split; cbn; [|by eapply msgsOk_mono].
  destruct l as [p op|p|p|g to|k|g k|g|p]; [| |by eapply nodesOk_elect| |by eapply nodesOk_deliver| | |done].
  - assert (nonVoting op = true) as Hnv by (by destruct op).
    cbn in H. rewrite Hnv in H. apply bind_Some in H as (rf & Hp & H).
    destruct (exec op rf) as [rf'| | |] eqn:E; cbn in H; try done. injection H as <-.
    destruct (exec_set c p op rf rf' Hc Hp Hnv E) as (_ & Hvs & Hwf).
    destruct (internalOp op) eqn:Hi; [eapply nodesOk_still; [done..| |done]; by eapply internal_still|].
    destruct op; try done. cbn in E.
    destruct (Snapshot_linked cr _ _ _ _ E (no_log _ _ Hok p rf Hp)) as (Hl & Hlen' & Hrs).
    eapply nodesOk_set; try done; [apply roleStep_same; by rewrite Hrs|lia].
  - cbn in H. apply bind_Some in H as (rf & Hp & [= <-]).
    apply (nodesOk_frame c); cbn; try done. intros q r Hq Hm. destruct (decide (q = p)) as [->|Hne].
    + apply list_lookup_insert_Some in Hm as [(_ & Hm & _)|[? _]]; [|done]. simplify_eq.
      unfold mainLoop in Hm. destruct (killed rf); [done|]. by destruct (state (raftState rf)).
    + rewrite list_lookup_insert_ne in Hm by done. by apply (no_mains _ _ Hok q).
  - cbn in H. apply bind_Some in H as (e & _ & H). apply bind_Some in H as (rf & _ & H).
    apply bind_Some in H as (args & _ & H). case_decide; [|done]. injection H as <-.
    apply (nodesOk_frame c); cbn; try done. apply (no_mains _ _ Hok).
  - cbn in H. apply bind_Some in H as (e & He & H). apply bind_Some in H as ([[v args] reply] & _ & H).
    case_decide; [|done]. exact (nodesOk_count c cr g e _ _ c' Hc Hc' Hok He H).
  - cbn in H. apply bind_Some in H as (e & He & H). exact (nodesOk_count c cr g e _ _ c' Hc Hc' Hok He H).
Qed.

(** A leader creates an entry at the end of its log. *)
Lemma nodesOk_create c cr p rf rf' e u :
  cinv c → nodesOk c cr → nodes c !! p = Some rf → state (raftState rf) = leaderState →
  raftState rf' = raftState rf → getTermOfLog rf (getLogLength rf - 1) = Ret u →
  lastIncludedIndex rf' = lastIncludedIndex rf → lastIncludedTerm rf' = lastIncludedTerm rf →
  log rf' = log rf ++ [e] → le_Term e = currentTerm (raftState rf) →
  let cr' := <[(getLogLength rf, le_Term e) := (u, le_Command e)]> cr in
  cr ⊆ cr' ∧ nodesOk (setNode c p rf') cr'.
Proof.
  intros Hc Hok Hp Hst Hrs Hu Hi Ht Hl He cr'. destruct (inv_node _ Hc _ _ Hp) as (Hwf & _).
  assert (cr ⊆ cr') as Hsub.
  { apply insert_subseteq. destruct (cr !! _) eqn:Ecr; [|done]. rewrite He in Ecr.
    pose proof (no_leader _ _ Hok p rf _ _ Hp Hst Ecr). lia. }
  assert (getLogLength rf' = getLogLength rf + 1) as Hlen.
  { unfold getLogLength. rewrite Hi, Hl, zlen_app. unfold zlen. cbn. lia. }
  assert (majorityFor c p (currentTerm (raftState rf))) as Hmaj by (by apply (inv_leader _ Hc p rf)).
  assert (∀ q t, majorityFor c q t → majorityFor (setNode c p rf') q t) as Hmono
    by (intros; eapply majorityFor_mono; [apply length_insert|done..]).
  split; [done|]. constructor.
  - intros q r [[_ ->]|[_ Hq]]%(nodes_update c p rf); [| |done].
    + eapply Start_linked; try done; [|by apply lookup_insert_eq].
      eapply linked_mono; [done|]. by apply (no_log _ _ Hok p).
    + eapply linked_mono; [done|]. by apply (no_log _ _ Hok q).
  - intros i t x [[[= <- <-] _]|[_ Hx]]%lookup_insert_Some.
    { exists p, rf'. split; [by eapply list_lookup_insert_eq, lookup_lt_Some|].
      rewrite He, Hrs. split; [by apply Hmono|]. split; [lia|by left]. }
    destruct (no_creator _ _ Hok _ _ _ Hx) as (q & r & Hq & Hmq & Hle & Hs).
    destruct (decide (q = p)) as [->|Hne].
    + simplify_eq. exists p, rf'. rewrite Hrs.
      split; [by eapply list_lookup_insert_eq, lookup_lt_Some|]. auto.
    + exists q, r. split; [cbn; by rewrite list_lookup_insert_ne|]. auto.
  - intros q r i x Hq Hs [[[= <- Et] _]|[_ Hx]]%lookup_insert_Some.
    all: destruct (nodes_update c p rf rf' q r Hp Hq) as [[-> ->]|[Hne Hq']].
    + lia.
    + exfalso. apply Hne. eapply majorityFor_agree; [done| |done].
      rewrite <- He, Et. by apply (inv_leader _ Hc q r).
    + rewrite Hrs in Hx. pose proof (no_leader _ _ Hok p rf _ _ Hp Hst Hx). lia.
    + by eapply (no_leader _ _ Hok q).
  - intros q r [[-> ->]|[_ Hq]]%(nodes_update c p rf); [rewrite Hrs; by apply (no_mains _ _ Hok p)| |done].
    by apply (no_mains _ _ Hok q).
Qed.

Lemma rinv_start c ms cr p command w' :
  rinv (mkWorld c ms cr) → rstep (RStart p command) (mkWorld c ms cr) = Some w' →
  rinv w' ∧ cr ⊆ created w'.
Proof.
  intros (Hc & Hok & Hms) H. cbn in *. apply bind_Some in H as (rf & Hp & H).
  destruct (Start rf command) as [[rf' [[index term] b]]| | |] eqn:E; cbn in H; try done.
  assert (exec (OpStart command) rf = Ret rf') as Ex by (cbn; by rewrite E).
  destruct (exec_set c p (OpStart command) rf rf' Hc Hp eq_refl Ex) as (Hc' & Hvs & Hwf).
  destruct (Start_effect _ _ _ _ E Hwf) as [Hrs Hb]. cbn in Hb. destruct b.
  2: { subst rf'. injection H as <-. split; [|done]. split; [done|]. split; [|by apply setNode_msgs].
       by eapply nodesOk_still. }
  destruct Hb as (Hst & [= -> ->] & Hi & Ht & Hl).
  destruct (getTermOfLog rf (getLogLength rf - 1)) as [prev| | |] eqn:Eprev; cbn in H; try done.
  injection H as <-.
  destruct (nodesOk_create c cr p rf rf' (mkLogEntry (currentTerm (raftState rf)) (Some command)) prev)
    as [Hsub Hok']; try done.
  split; [|done]. split; [done|]. split; [done|]. cbn.
  apply msgsOk_goroutines; cbn.
  - apply setNode_msgs. by eapply msgsOk_mono.
  - intros q t [[= -> ->]|Hin]%elem_of_cons; (eapply majorityFor_mono; [apply length_insert|done|]).
    + by apply (inv_leader _ Hc p rf).
    + by eapply (mo_broadcast _ _ _ Hms).
Qed.

Lemma rinv_append c ms cr k w' :
  rinv (mkWorld c ms cr) → rstep (RAppend k) (mkWorld c ms cr) = Some w' → rinv w' ∧ created w' = cr.
Proof.
  intros (Hc & Hok & Hms) H. cbn in *. apply bind_Some in H as (m & Hk & H).
  apply bind_Some in H as (rf & Hp & H). set (p := Z.to_nat (am_to m)) in *.
  destruct (AppendEntries rf (am_args m)) as [[rf' reply]| | |] eqn:E; cbn in H; try done.
  injection H as <-. split; [|done]. apply list_elem_of_lookup_2 in Hk.
  destruct (mo_append _ _ _ Hms m Hk) as (H0 & Hto & Hlink & Hmaj).
  assert (exec (OpAppendEntries (am_args m)) rf = Ret rf') as Ex by (cbn; by rewrite E).
  destruct (exec_set c p (OpAppendEntries (am_args m)) rf rf' Hc Hp eq_refl Ex) as (Hc' & Hvs & Hwf).
  split; [done|]. split; cbn.
  - eapply nodesOk_set; try done.
    + eapply AppendEntries_linked; try done. by apply (no_log _ _ Hok p).
    + by eapply AppendEntries_role.
    + intros Hst Et. rewrite (logSame_length rf rf'); [done|]. eapply AppendEntries_log_same; [done..|].
      destruct Hmaj as [?|Hmaj]; [by right|left].
      destruct (Z.lt_trichotomy (ae_Term (am_args m)) (currentTerm (raftState rf))) as [?|[Ee|Hgt]]; [done| |].
      * exfalso. apply Hto. rewrite Ee in Hmaj.
        rewrite (majorityFor_agree c (am_from m) p _ Hc Hmaj (inv_leader _ Hc p rf Hp Hst)). lia.
      * exfalso. pose proof (appendPrologue_term rf (am_args m)) as Hpt.
        assert (currentTerm (raftState rf') = currentTerm (raftState (appendPrologue rf (am_args m)))) as Hrs.
        { destruct (aer_Success reply) eqn:Es.
          - destruct (AppendEntries_stored _ _ _ _ Hwf E Es) as (_&_&_&_&_&_&_&->&_). done.
          - apply AppendEntries_result in E. by destruct E as [?|?|]; subst. }
        lia.
  - apply (setNode_msgs c p rf') in Hms. destruct Hms as [Hb Hca Hsc Ha Hr Hs Hsr]. constructor; try done.
    intros m' r' [[= -> ->]|Hin]%elem_of_cons; [done|by eapply Hr].
Qed.

Lemma rinv_install c ms cr k w' :
  rinv (mkWorld c ms cr) → rbenign (RSnapshot k) (mkWorld c ms cr) →
  rstep (RSnapshot k) (mkWorld c ms cr) = Some w' → rinv w' ∧ created w' = cr.
Proof.
  intros (Hc & Hok & Hms) Hb H. cbn in *. apply bind_Some in H as (m & Hk & H).
  apply bind_Some in H as (rf & Hp & H). set (p := Z.to_nat (sm_to m)) in *.
  destruct (InstallSnapshot rf (sm_args m)) as [[[rf' reply] msg]| | |] eqn:E; cbn in H; try done.
  injection H as <-. split; [|done]. specialize (Hb m rf Hk Hp). apply list_elem_of_lookup_2 in Hk.
  destruct (mo_snapshot _ _ _ Hms m Hk) as (H0 & Hto & Hmaj).
  assert (exec (OpInstallSnapshot (sm_args m)) rf = Ret rf') as Ex by (cbn; by rewrite E).
  destruct (exec_set c p (OpInstallSnapshot (sm_args m)) rf rf' Hc Hp eq_refl Ex) as (Hc' & Hvs & Hwf).
  split; [done|]. split; cbn.
  - eapply nodesOk_set; try done.
    + eapply InstallSnapshot_linked; try done. by apply (no_log _ _ Hok p).
    + by eapply InstallSnapshot_role.
    + intros Hst Et. rewrite (logSame_length rf rf'); [done|]. eapply InstallSnapshot_log_same; [done|].
      destruct (Z.lt_trichotomy (is_Term (sm_args m)) (currentTerm (raftState rf))) as [?|[Ee|Hgt]]; [done| |].
      * exfalso. apply Hto. rewrite Ee in Hmaj.
        rewrite (majorityFor_agree c (sm_from m) p _ Hc Hmaj (inv_leader _ Hc p rf Hp Hst)). lia.
      * exfalso. rewrite InstallSnapshot_cases in E. cbn zeta in E.
        rewrite (proj2 (Z.ltb_lt _ _) Hgt) in E.
        assert (currentTerm (raftState rf') = is_Term (sm_args m)); [|lia].
        destruct (_ && _); by injection E as <- _ _.
  - apply (setNode_msgs c p rf') in Hms. destruct Hms as [Hbr Hca Hsc Ha Hr Hs Hsr]. constructor; try done.
    intros m' r' [[= -> ->]|Hin]%elem_of_cons; [done|by eapply Hsr].
Qed.

(** A goroutine of a peer handles a reply and may send another message. *)
Lemma rinv_reply c ms cr op p rf rf' term to m :
  rinv (mkWorld c ms cr) → nodes c !! p = Some rf → nonVoting op = true → exec op rf = Ret rf' →
  0 <= to → to ≠ Z.of_nat p → still rf rf' →
  (m ≠ SendStop → stillLeader rf term = true ∧ raftState rf' = raftState rf ∧ sentFrom rf' term to m) →
  rinv (mkWorld (setNode c p rf') (send p m ms) cr).
Proof.
  intros (Hc & Hok & Hms) Hp Hnv Ex H0 Hto Hs Hm. cbn in *.
  destruct (exec_set c p op rf rf' Hc Hp Hnv Ex) as (Hc' & Hvs & Hwf).
  assert (nodesOk (setNode c p rf') cr) as Hok' by (by eapply nodesOk_still).
  split; [done|]. split; [done|]. cbn. apply (setNode_msgs c p rf') in Hms.
  assert (linkedLog cr rf') as Hl.
  { apply (no_log _ _ Hok' p). by eapply list_lookup_insert_eq, lookup_lt_Some. }
  assert (m = SendStop ∨ m ≠ SendStop) as [->|Hne] by (destruct m; auto); [done|].
  destruct (Hm Hne) as ([Et Hst]%andb_true_iff & Hrs & Hsent).
  apply Z.eqb_eq in Et. apply bool_decide_eq_true in Hst.
  eapply msgsOk_send; try done. intros _. eapply majorityFor_mono; [apply length_insert|done|].
  rewrite <- Et. by apply (inv_leader _ Hc p rf).
Qed.

Lemma rinv_appendReply c ms cr k w' :
  rinv (mkWorld c ms cr) → rstep (RAppendReply k) (mkWorld c ms cr) = Some w' → rinv w' ∧ created w' = cr.
Proof.
  intros Hinv H. pose proof Hinv as (Hc & Hok & Hms). cbn in *.
  apply bind_Some in H as ([m reply] & Hk & H). apply bind_Some in H as (rf & Hp & H).
  apply list_elem_of_lookup_2, (mo_reply _ _ _ Hms) in Hk.
  destruct (mo_append _ _ _ Hms m Hk) as (H0 & Hto & _). destruct (inv_node _ Hc _ _ Hp) as (Hwf & _).
  destruct (am_beat m).
  - destruct (heartbeat_reply rf _ _ _) as [rf'| | |] eqn:E; cbn in H; try done. injection H as <-.
    split; [|done]. apply (rinv_reply c ms cr (OpHeartbeatReply (am_to m) (am_args m) reply)
      (am_from m) rf rf' 0 (am_to m) SendStop); try done. by eapply heartbeatReply_still.
  - destruct (sendAppendEntries_reply rf _ _ _) as [[rf' next]| | |] eqn:E; cbn in H; try done.
    injection H as <-. split; [|done]. destruct (appendReply_sent _ _ _ _ _ _ Hwf E) as [Hs Hn].
    apply (rinv_reply c ms cr (OpAppendReply (am_to m) (am_args m) reply)
      (am_from m) rf rf' (ae_Term (am_args m)) (am_to m) next); try done. cbn. by rewrite E.
Qed.

Lemma rinv_snapshotReply c ms cr k w' :
  rinv (mkWorld c ms cr) → rstep (RSnapshotReply k) (mkWorld c ms cr) = Some w' → rinv w' ∧ created w' = cr.
Proof.
  intros Hinv H. pose proof Hinv as (Hc & Hok & Hms). cbn in *.
  apply bind_Some in H as ([m reply] & Hk & H). apply bind_Some in H as (rf & Hp & H).
  apply list_elem_of_lookup_2, (mo_sreply _ _ _ Hms) in Hk.
  destruct (mo_snapshot _ _ _ Hms m Hk) as (H0 & Hto & _).
  destruct (sendInstallSnapshot_reply rf _ _ _) as [[rf' next]| | |] eqn:E; cbn in H; try done.
  injection H as <-. split; [|done]. destruct (snapshotReply_sent _ _ _ _ _ _ E) as [Hs Hn].
  apply (rinv_reply c ms cr (OpSnapshotReply (sm_to m) (sm_args m) reply)
    (sm_from m) rf rf' (is_Term (sm_args m)) (sm_to m) next); try done. cbn. by rewrite E.
Qed.

Lemma rinv_broadcast c ms cr k w' :
  rinv (mkWorld c ms cr) → rstep (RBroadcast k) (mkWorld c ms cr) = Some w' → rinv w' ∧ created w' = cr.
Proof.
  intros (Hc & Hok & Hms) H. cbn in *. apply bind_Some in H as ([p term] & Hk & H).
  apply bind_Some in H as (rf & Hp & H).
  destruct (sendAppendEntriesToAll rf term) as [sent| | |] eqn:E; cbn in H; try done. injection H as <-.
  split; [|done]. split; [done|]. split; [done|]. cbn.
  pose proof (mo_broadcast _ _ _ Hms _ _ (list_elem_of_lookup_2 _ _ _ Hk)) as Hmaj.
  assert (∀ m, m ∈ sent → ∃ to, 0 <= to ∧ to ≠ Z.of_nat p ∧ sentFrom rf term to m) as Hsent.
  { intros m Hm. destruct (sendToEach_sent _ _ _ _ _ E Hm) as (to & Hin & Hne & ?).
    destruct (inv_node _ Hc _ _ Hp) as (_ & Hme & _). apply elem_of_seqZ in Hin.
    exists to. split_and!; [lia|congruence|done]. }
  clear E. induction sent as [|m sent IH]; cbn.
  - apply msgsOk_goroutines; [done|]. intros q t Hin. eapply (mo_broadcast _ _ _ Hms).
    eapply elem_of_sublist; [done|]. apply sublist_delete.
  - destruct (Hsent m) as (to & ? & ? & ?); [by left|].
    eapply msgsOk_send; try done; [|by apply (no_log _ _ Hok p)].
    apply IH. intros m' Hm'. apply Hsent. by right.
Qed.

Lemma rinv_beat c ms cr k w' :
  rinv (mkWorld c ms cr) → rstep (RBeat k) (mkWorld c ms cr) = Some w' → rinv w' ∧ created w' = cr.
Proof.
  intros (Hc & Hok & Hms) H. cbn in *. apply bind_Some in H as ([p term] & Hk & H).
  apply bind_Some in H as (rf & Hp & H).
  destruct (heartbeatArgs rf term) as [args| | |] eqn:E; cbn in H; try done. injection H as <-.
  split; [|done]. split; [done|]. split; [done|]. cbn. unfold beatAll.
  apply heartbeatArgs_sent in E as [Hes _].
  assert (∀ q, q ∈ others (length (nodes c)) p → q ≠ p) as Hoth by (intros q; by intros [? _]%list_elem_of_filter).
  induction (others (length (nodes c)) p) as [|q qs IH]; cbn.
  - apply msgsOk_goroutines; [done|]. apply (mo_broadcast _ _ _ Hms).
  - apply msgsOk_append; [apply IH; set_solver|]. unfold appendOk. cbn. rewrite Hes.
    assert (q ≠ p) by set_solver. split_and!; [lia|lia|done|by left].
Qed.

Lemma rinv_timeout c ms cr p w' :
  rinv (mkWorld c ms cr) → rstep (RTimeout p) (mkWorld c ms cr) = Some w' → rinv w' ∧ created w' = cr.
Proof.
  intros (Hc & Hok & Hms) H. cbn in *. apply bind_Some in H as (rf & Hp & H).
  apply bind_Some in H as (b & Hm & H). destruct b as [[]|]; try done. injection H as <-.
  pose proof (no_mains _ _ Hok p rf Hp Hm) as Hst.
  destruct (exec_set c p OpTimeout rf (followerTimeout rf) Hc Hp eq_refl eq_refl) as (Hc' & Hvs & Hwf).
  split; [|done]. split; [by destruct Hc'|]. split; cbn.
  - apply (nodesOk_update c _ cr p rf (followerTimeout rf)); cbn; try done.
    + by apply (no_log _ _ Hok p).
    + intros e He. left. by exists e.
    + congruence.
    + intros q r Hq Hmq. apply main_reset in Hmq as [Hne Hmq].
      rewrite list_lookup_insert_ne in Hq by done. by apply (no_mains _ _ Hok q).
  - eapply msgsOk_mono; [..|done]; [apply length_insert|done|done].
Qed.

(** [leaderMain] goes on. *)
Lemma rinv_leaderMain c ms cr p rf op rf' b :
  rinv (mkWorld c ms cr) → nodes c !! p = Some rf → internalOp op = true → exec op rf = Ret rf' →
  b ≠ RunFollower → rinv (mkWorld (setMain (setNode c p rf') p (Some b)) ms cr).
Proof.
  intros (Hc & Hok & Hms) Hp Hi E Hb. cbn in Hc, Hok, Hms.
  assert (nonVoting op = true) as Hnv by (by destruct op).
  destruct (exec_set c p op rf rf' Hc Hp Hnv E) as (Hc' & Hvs & Hwf).
  split; [by destruct Hc'|].
  split; cbn; [|by eapply msgsOk_mono; [..|done]; [apply length_insert|..]].
  assert (nodesOk (setNode c p rf') cr) as Hok' by (eapply nodesOk_still; [done..| |done]; by eapply internal_still).
  apply (nodesOk_frame (setNode c p rf')); cbn; try done.
  intros q r Hq Hm. apply list_lookup_insert_Some in Hm as [(_ & [= ?] & _)|[Hne Hm]]; [done|].
  rewrite list_lookup_insert_ne in Hq by done. by apply (no_mains _ _ Hok q).
Qed.

Lemma rinv_scanWrite c ms cr k w' :
  rinv (mkWorld c ms cr) → rstep (RScanWrite k) (mkWorld c ms cr) = Some w' → rinv w' ∧ created w' = cr.
Proof.
  intros (Hc & Hok & Hms) H. cbn in *. apply bind_Some in H as ([[[p t] i] n] & _ & H).
  apply bind_Some in H as (rf & Hp & H).
  destruct (commitWrite rf i n) as [rf'| | |] eqn:E; cbn in H; try done. injection H as <-.
  destruct (exec_set c p (OpCommitWrite i n) rf rf' Hc Hp eq_refl E) as (Hc' & Hvs & Hwf).
  split; [|done]. split; [done|]. split; [|by apply msgsOk_scans, setNode_msgs].
  eapply nodesOk_still; [done..| |done]. by eapply (internal_still (OpCommitWrite i n)).
Qed.

Lemma rinv_restart c ms cr p w' :
  rinv (mkWorld c ms cr) → benign (LRestart p) c →
  rstep (RRestart p) (mkWorld c ms cr) = Some w' → rinv w' ∧ created w' = cr.
Proof.
  intros (Hc & Hok & Hms) Hb H. cbn -[cstep] in H. apply bind_Some in H as (c' & H & [= <-]).
  split; [|done]. pose proof (cinv_step _ _ _ Hc Hb H) as Hc'. destruct (step_mono _ _ _ H) as [Hlen Hv].
  split; [done|]. cbn in H. apply bind_Some in H as (rf & Hp & H). cbn in Hok, Hms.
  destruct (Hb rf Hp) as (r & Hr & Hh). rewrite Hr in H. cbn in H. injection H as <-.
  destruct (Make_frame _ _ _ _ Hr) as (_ & _ & _ & Hst).
  unfold hardState in Hh. injection Hh as Ht _ Hi Hit Hlog. split; cbn.
  - apply (nodesOk_update c _ cr p rf r); cbn; try done.
    + eapply logSame_linked; [|by apply (no_log _ _ Hok p)]. done.
    + lia.
    + intros e [_ He]%list_elem_of_filter. left. by exists e.
    + intros _ _. right. by intros e [He _]%list_elem_of_filter.
    + by rewrite Hst.
    + intros q x Hq Hmq. apply main_reset in Hmq as [Hne Hmq].
      rewrite list_lookup_insert_ne in Hq by done. by apply (no_mains _ _ Hok q).
  - eapply msgsOk_mono in Hms; [|done..]. apply msgsOk_calls; [apply msgsOk_goroutines; [by apply msgsOk_scans|]|..].
    + intros q t [_ Hin]%list_elem_of_filter. by eapply (mo_broadcast _ _ _ Hms).
    + intros m [_ Hin]%list_elem_of_filter. by apply (mo_call _ _ _ Hms).
    + intros m [_ Hin]%list_elem_of_filter. by apply (mo_scall _ _ _ Hms).
Qed.

Lemma rinv_call c ms cr k w' :
  rinv (mkWorld c ms cr) →
  rstep (RCallAppend k) (mkWorld c ms cr) = Some w' ∨ rstep (RCallSnapshot k) (mkWorld c ms cr) = Some w' →
  rinv w' ∧ created w' = cr.
Proof.
  intros (Hc & Hok & Hms) H. cbn in *.
  assert (∀ A (l : list A) x, x ∈ delete k l → x ∈ l) as Hdel
    by (intros A l x Hx; eapply elem_of_sublist; [done|apply sublist_delete]).
  destruct H as [H|H]; apply bind_Some in H as (m & Hk & H); apply bind_Some in H as (rf & _ & [= <-]);
    (split; [|done]); (split; [done|]); (split; [done|]); cbn; apply list_elem_of_lookup_2 in Hk; case_match.
  - apply msgsOk_append; [done|]. by apply (mo_call _ _ _ Hms).
  - apply msgsOk_calls; [done| |apply (mo_scall _ _ _ Hms)]. intros m' ?%Hdel. by apply (mo_call _ _ _ Hms).
  - apply msgsOk_snapshot; [done|]. by apply (mo_scall _ _ _ Hms).
  - apply msgsOk_calls; [done|apply (mo_call _ _ _ Hms)|]. intros m' ?%Hdel. by apply (mo_scall _ _ _ Hms).
Qed.

Lemma rinv_step l w w' :
  rinv w → rbenign l w → rstep l w = Some w' → rinv w' ∧ created w ⊆ created w'.
Proof.
  intros Hinv Hb H. destruct w as [c ms cr].
  assert (∀ w2, rinv w2 ∧ created w2 = cr → rinv w2 ∧ created (mkWorld c ms cr) ⊆ created w2) as Hsame
    by (by intros w2 [? ->]).
  destruct l.
  - cbn -[cstep] in H. destruct (kept l) eqn:Hk; [|done]. apply bind_Some in H as (c' & H & [= <-]).
    apply Hsame. split; [by eapply rinv_cluster|done].
  - by eapply Hsame, rinv_timeout.
  - by eapply rinv_start.
  - by eapply Hsame, rinv_broadcast.
  - cbn in H. apply bind_Some in H as (rf & _ & H). apply bind_Some in H as (b & _ & H).
    destruct b as [[]|]; try done. injection H as <-. apply Hsame. split; [|done].
    destruct Hinv as (? & ? & Hms). split; [done|]. split; [done|].
    apply msgsOk_goroutines; [done|]. apply (mo_broadcast _ _ _ Hms).
  - by eapply Hsame, rinv_beat.
  - cbn in H. apply bind_Some in H as (rf & Hp & H). apply bind_Some in H as (b & _ & H).
    destruct b as [[]|]; try done. injection H as <-. apply Hsame. split; [|done].
    by apply (rinv_leaderMain _ _ _ _ rf OpLeaderInit).
  - cbn in H. apply bind_Some in H as (rf & Hp & H). apply bind_Some in H as (b & _ & H).
    destruct b as [[]|]; try done. injection H as <-. apply Hsame. split; [|done].
    by apply (rinv_leaderMain _ _ _ _ rf OpLeaderReady).
  - cbn in H. apply bind_Some in H as (rf & _ & H). apply bind_Some in H as ([j b] & _ & [= <-]).
    apply Hsame. split; [|done]. destruct Hinv as (? & ? & ?). split; [done|]. split; [done|].
    cbn. case_match; [by apply msgsOk_scans|done].
  - cbn in H. apply bind_Some in H as ([[p t] i] & _ & H). apply bind_Some in H as (rf & _ & H).
    apply bind_Some in H as (n & _ & [= <-]). apply Hsame. split; [|done].
    destruct Hinv as (? & ? & ?). split; [done|]. split; [done|]. by apply msgsOk_scans.
  - by eapply Hsame, rinv_scanWrite.
  - eapply Hsame, rinv_call; [done|by left].
  - eapply Hsame, rinv_call; [done|by right].
  - by eapply Hsame, rinv_append.
  - by eapply Hsame, rinv_appendReply.
  - by eapply Hsame, rinv_install.
  - by eapply Hsame, rinv_snapshotReply.
  - by eapply Hsame, rinv_restart.
Qed.

Lemma rinv_run w w' : rbenignRun w w' → rinv w → rinv w' ∧ created w ⊆ created w'.
Proof.
  induction 1 as [|w1 w2 w3 l Hb H _ IH]; [done|]. intros Hw.
  destruct (rinv_step _ _ _ Hw Hb H) as [Hw2 ?]. destruct (IH Hw2). split; [done|by etrans].
Qed.

Lemma rinv_init n (snaps : nat → list SV) : rinv (initWorld (C := C) n snaps).
Proof.
  split; [apply cinv_init|]. split; cbn.
  - constructor; cbn.
    + intros p rf Hp. by apply list_lookup_fmap_Some in Hp as (q & -> & _).
    + intros i t x Hx. by rewrite lookup_empty in Hx.
    + intros p rf i x _ _ Hx. by rewrite lookup_empty in Hx.
    + intros p rf Hp. by apply list_lookup_fmap_Some in Hp as (q & -> & _).
  - constructor; cbn; intros; by match goal with H : _ ∈ [] |- _ => apply not_elem_of_nil in H end.
Qed.

(** *** Log matching *)

Lemma getTermOfLog_entry rf i t :
  getTermOfLog rf i = Ret t → lastIncludedIndex rf < i → ∃ e, getLog rf i = Ret e ∧ le_Term e = t.
Proof.
  intros Ht Hi. pose proof (getTermOfLog_Ret _ _ _ Ht) as Hr.
  destruct (getLog_in_range rf i) as (e & He & Hg); [lia|]. exists e. split; [done|].
  rewrite (getTermOfLog_lookup rf i e) in Ht by done. by injection Ht.
Qed.

(** Two entries with the same index and term are the same, and so are the
    terms before them. *)
Lemma linkedLog_same cr rf1 rf2 i t :
  raft_wf rf1 → raft_wf rf2 → linkedLog cr rf1 → linkedLog cr rf2 →
  getTermOfLog rf1 i = Ret t → getTermOfLog rf2 i = Ret t →
  lastIncludedIndex rf1 < i → lastIncludedIndex rf2 < i →
  getLog rf1 i = getLog rf2 i ∧
  ∃ u, getTermOfLog rf1 (i - 1) = Ret u ∧ getTermOfLog rf2 (i - 1) = Ret u.
Proof.
  intros Hw1 Hw2 Hl1 Hl2 Ht1 Ht2 Hi1 Hi2.
  destruct (getTermOfLog_entry _ _ _ Ht1 Hi1) as ([t1 c1] & Hg1 & <-).
  destruct (getTermOfLog_entry _ _ _ Ht2 Hi2) as ([t2 c2] & Hg2 & Et). cbn in Et. subst t2.
  destruct (linkedLog_getLog _ _ _ _ Hw1 Hl1 Hg1) as (u & Hu1 & Hc1).
  destruct (linkedLog_getLog _ _ _ _ Hw2 Hl2 Hg2) as (u' & Hu2 & Hc2). cbn in *.
  rewrite Hc1 in Hc2. injection Hc2 as <- <-. split; [by rewrite Hg1, Hg2|]. by exists u.
Qed.

Lemma linkedLog_agree cr rf1 rf2 n i t :
  raft_wf rf1 → raft_wf rf2 → linkedLog cr rf1 → linkedLog cr rf2 →
  getTermOfLog rf1 i = Ret t → getTermOfLog rf2 i = Ret t →
  lastIncludedIndex rf1 <= i - Z.of_nat n → lastIncludedIndex rf2 <= i - Z.of_nat n →
  ∃ u, getTermOfLog rf1 (i - Z.of_nat n) = Ret u ∧ getTermOfLog rf2 (i - Z.of_nat n) = Ret u.
Proof.
  intros Hw1 Hw2 Hl1 Hl2. revert i t. induction n as [|n IH]; intros i t H1 H2 Hi1 Hi2.
  - rewrite Z.sub_0_r. by exists t.
  - destruct (linkedLog_same cr rf1 rf2 i t) as (_ & u & Hu1 & Hu2); [done..|lia|lia|].
    replace (i - Z.of_nat (S n)) with (i - 1 - Z.of_nat n) in * by lia. by eapply IH.
Qed.

(** C6. If the logs of two peers, at the same or at different moments, have entries of one
    term at an index, they have the same entries and terms at every earlier index that
    both still have.  Snapshots are included.  Conditions, each of which the code can
    violate and which are reported as defects: no peer starts an election after it has
    become leader, no peer restarts after a snapshot overwrote its saved state, and no
    snapshot is installed over a log whose entries after the snapshot do not follow it. *)
Theorem log_matching n (snaps : nat → list SV) w1 w2 p q rf1 rf2 i t j :
  rbenignRun (initWorld n snaps) w1 → rbenignRun w1 w2 →
  nodes (cl w1) !! p = Some rf1 → nodes (cl w2) !! q = Some rf2 →
  getTermOfLog rf1 i = Ret t → getTermOfLog rf2 i = Ret t →
  lastIncludedIndex rf1 <= j <= i → lastIncludedIndex rf2 <= j →
  (∃ u, getTermOfLog rf1 j = Ret u ∧ getTermOfLog rf2 j = Ret u) ∧
  (lastIncludedIndex rf1 < j → lastIncludedIndex rf2 < j →
   ∃ e, getLog rf1 j = Ret e ∧ getLog rf2 j = Ret e).
Proof.
  intros H1 H2 Hp Hq Ht1 Ht2 Hj1 Hj2.
  destruct (rinv_run _ _ H1 (rinv_init n snaps)) as [Hw1 _].
  destruct (rinv_run _ _ H2 Hw1) as [(Hc2 & Hok2 & _) Hsub]. destruct Hw1 as (Hc1 & Hok1 & _).
  destruct (inv_node _ Hc1 _ _ Hp) as (Hwf1 & _). destruct (inv_node _ Hc2 _ _ Hq) as (Hwf2 & _).
  pose proof (linked_mono _ _ _ _ _ Hsub (no_log _ _ Hok1 _ _ Hp)) as Hl1.
  pose proof (no_log _ _ Hok2 _ _ Hq) as Hl2.
  destruct (linkedLog_agree (created w2) rf1 rf2 (Z.to_nat (i - j)) i t)
    as (u & Hu1 & Hu2); [done..|lia|lia|].
  replace (i - Z.of_nat (Z.to_nat (i - j))) with j in * by lia. split; [by exists u|].
  intros Hlt1 Hlt2. destruct (linkedLog_same (created w2) rf1 rf2 j u) as [Hg _]; [done..|].
  destruct (getTermOfLog_entry _ _ _ Hu1 Hlt1) as (e & He & _). exists e. by rewrite <- Hg, He.
Qed.
End matching.
