(* ===== verification/RaftChains.v ===== *)
(** * RaftChains: ancestors of log entries

    [onChain cr j u i t]: in the history [cr], the log that ends with the entry
    of term [u] at index [j] has term [t] at index [i].  A log is the chain of
    its last entry; two logs share what is below a common entry; a follower
    that accepts entries keeps every entry of the chains it has in common with
    the sender. *)

From S2P Require Import Prelude Labgob Persister RaftState RaftRpc RaftLeader RaftPeer RaftLinks.
Local Open Scope Z_scope.

Section chains.
Context {C : Type}.
Implicit Types (cr : History C) (es tail : list (LogEntry C)).

Inductive onChain cr : Z → Z → Z → Z → Prop :=
  | oc_here j u : onChain cr j u j u
  | oc_down j u v x i t :
      cr !! (j, u) = Some (v, x) → onChain cr (j - 1) v i t → onChain cr j u i t.

(** Indices start at 1 and terms do not fall. *)
Definition orderly cr : Prop :=
  ∀ i t u x, cr !! (i, t) = Some (u, x) → 1 <= i ∧ 0 <= u <= t.

Lemma onChain_le cr j u i t : onChain cr j u i t → i <= j.
Proof. induction 1; lia. Qed.

Lemma onChain_inv cr j u i t :
  onChain cr j u i t →
  j = i ∧ u = t ∨ i < j ∧ ∃ v x, cr !! (j, u) = Some (v, x) ∧ onChain cr (j - 1) v i t.
Proof.
  destruct 1 as [|j u v x i t Hc H]; [by left|right].
  apply onChain_le in H as Hle. split; [lia|]. by exists v, x.
Qed.

Lemma onChain_fun cr j u i t t' : onChain cr j u i t → onChain cr j u i t' → t = t'.
Proof.
  induction 1 as [j u|j u v x i t Hc H IH]; intros H'; apply onChain_inv in H' as [[E E']|[Hlt H']].
  - done.
  - lia.
  - apply onChain_le in H. lia.
  - destruct H' as (v' & x' & Hc' & H'). rewrite Hc in Hc'. simplify_eq. by apply IH.
Qed.

Lemma onChain_trans cr j u i t h s :
  onChain cr j u i t → onChain cr i t h s → onChain cr j u h s.
Proof. induction 1; [done|]. intros. eapply oc_down; eauto. Qed.

(** Of two entries of a chain the lower one is on the chain of the upper one. *)
Lemma onChain_split cr j u i t h s :
  onChain cr j u i t → onChain cr j u h s → h <= i → onChain cr i t h s.
Proof.
  induction 1 as [j u|j u v x i t Hc H IH]; intros H' Hle; [done|].
  apply onChain_inv in H' as [[E E']|[Hlt (v' & x' & Hc' & H')]].
  - apply onChain_le in H. lia.
  - rewrite Hc in Hc'. simplify_eq. by apply IH.
Qed.

Lemma onChain_mono cr cr' j u i t : cr ⊆ cr' → onChain cr j u i t → onChain cr' j u i t.
Proof.
  intros Hsub. induction 1; [constructor|]. eapply oc_down; [|done]. by eapply lookup_weaken.
Qed.

Lemma onChain_term cr j u i t : orderly cr → onChain cr j u i t → t <= u.
Proof.
  intros Ho. induction 1 as [|j u v x i t Hc H IH]; [lia|]. apply Ho in Hc as [_ ?]. lia.
Qed.

(** *** Pieces of logs *)

Lemma linked_onChain cr i t es n m u v :
  linked cr i t es → (n <= m)%nat → termIn t es n = Some u → termIn t es m = Some v →
  onChain cr (i + Z.of_nat m) v (i + Z.of_nat n) u.
Proof.
  intros Hl. revert v. induction m as [|m IH]; intros v Hle Hu Hv.
  { assert (n = 0%nat) as -> by lia. rewrite Hu in Hv. injection Hv as <-. constructor. }
  destruct (decide (n = S m)) as [->|Hne].
  { rewrite Hu in Hv. injection Hv as <-. constructor. }
  cbn in Hv. apply fmap_Some in Hv as (e & He & ->).
  destruct (linked_lookup _ _ _ _ _ _ Hl He) as (w & Hw & Hc).
  eapply oc_down.
  - by replace (i + Z.of_nat (S m)) with (i + Z.of_nat m + 1) by lia.
  - replace (i + Z.of_nat (S m) - 1) with (i + Z.of_nat m) by lia. apply IH; [lia|done..].
Qed.

(** *** Merging *)

Lemma mergeTail_keep tail es n e :
  tail !! n = Some e →
  (∀ m x y, (m <= n)%nat → tail !! m = Some x → es !! m = Some y → le_Term x = le_Term y) →
  mergeTail tail es !! n = Some e.
Proof.
  revert tail n. induction es as [|y es IH]; intros tail n He Hag; [done|].
  destruct tail as [|x tail]; [done|]. cbn.
  rewrite (Hag 0%nat x y), Z.eqb_refl by (done || lia).
  destruct n as [|n]; [done|]. cbn in *. apply IH; [done|].
  intros m x' y' Hm Hx Hy. apply (Hag (S m)); [lia|done..].
Qed.

Lemma mergeTail_cases tail es :
  mergeTail tail es = tail ∨ length (mergeTail tail es) = length es.
Proof.
  revert tail. induction es as [|y es IH]; intros tail; [by left|].
  destruct tail as [|x tail]; [by right|]. cbn. case_match; [|by right].
  destruct (IH tail) as [->|E]; [by left|right]. cbn. by rewrite E.
Qed.
End chains.

(** ** Logs without a snapshot *)
Section holds.
Context {C SV : Type}.
Implicit Types (rf : Raft C SV) (cr : History C) (args : AppendEntriesArgs C).

(** The log of [rf] has term [t] at index [i]. *)
Definition holds rf (i t : Z) : Prop := getTermOfLog rf i = Ret t.

(** No snapshot has been taken. *)
Definition whole rf : Prop := lastIncludedIndex rf = 0 ∧ lastIncludedTerm rf = 0.

(** The last position of a request. *)
Definition endIndex args : Z := ae_PrevLogIndex args + zlen (ae_Entries args).
Definition endTerm args : Z :=
  default (ae_PrevLogTerm args) (termIn (ae_PrevLogTerm args) (ae_Entries args) (length (ae_Entries args))).

Lemma holds_range rf i t : holds rf i t → lastIncludedIndex rf <= i < getLogLength rf.
Proof. apply getTermOfLog_Ret. Qed.

Lemma holds_fun rf i t t' : holds rf i t → holds rf i t' → t = t'.
Proof. unfold holds. congruence. Qed.

Lemma holds_0 rf : raft_wf rf → whole rf → holds rf 0 0.
Proof.
  intros Hwf [Hi Ht]. pose proof (getTermOfLog_boundary rf (wf_log _ Hwf)) as H.
  unfold holds. by rewrite Hi, Ht in H.
Qed.

Lemma holds_some rf i : whole rf → 0 <= i < getLogLength rf → ∃ t, holds rf i t.
Proof. intros [Hi _] Hr. apply getTermOfLog_in_range. lia. Qed.

Lemma holds_logSame rf rf' i t : logSame rf rf' → holds rf' i t ↔ holds rf i t.
Proof.
  intros (Hl & Hi & Ht). unfold holds, getTermOfLog, getLogLength. by rewrite Hl, Hi, Ht.
Qed.

Lemma holds_termIn rf i t :
  raft_wf rf → whole rf → 0 <= i → holds rf i t ↔ termIn 0 (drop 1 (log rf)) (Z.to_nat i) = Some t.
Proof.
  intros Hwf [Hi Ht] H0. split.
  - intros H%getTermOfLog_termIn. rewrite Hi, Ht, Z.sub_0_r in H. done.
  - intros H. rewrite <- Ht in H. apply termIn_getTermOfLog in H; [|apply (wf_log _ Hwf)].
    rewrite Hi, Z.add_0_l, Z2Nat.id in H by lia. done.
Qed.

Lemma holds_onChain cr rf j u i t :
  raft_wf rf → whole rf → linkedLog cr rf → holds rf j u → holds rf i t → i <= j → onChain cr j u i t.
Proof.
  intros Hwf Hw Hl Hj Hi Hle. pose proof (holds_range _ _ _ Hi) as Hr. pose proof Hw as [Ei Et].
  apply holds_termIn in Hj; [|done..|lia]. apply holds_termIn in Hi; [|done..|lia].
  unfold linkedLog in Hl. rewrite Ei, Et in Hl.
  pose proof (linked_onChain _ _ _ _ (Z.to_nat i) (Z.to_nat j) _ _ Hl ltac:(lia) Hi Hj) as H.
  by rewrite !Z2Nat.id in H by lia.
Qed.

Lemma onChain_holds cr rf j u i t :
  orderly cr → raft_wf rf → whole rf → linkedLog cr rf → holds rf j u → onChain cr j u i t → holds rf i t.
Proof.
  intros Ho Hwf Hw Hl Hj. induction 1 as [|j u v x i t Hc H IH]; [done|]. apply IH.
  destruct (Ho _ _ _ _ Hc) as [H1 _]. destruct Hw as [Ei _].
  destruct (getTermOfLog_in_range rf j) as [u' Hu']; [by apply (holds_range _ _ _ Hj)|].
  destruct (getLog_in_range rf j) as (e & He & Hg); [apply holds_range in Hj; lia|].
  rewrite (getTermOfLog_lookup rf j e) in Hu' by (done || lia). injection Hu' as Eu.
  assert (u = le_Term e) as ->.
  { unfold holds in Hj. rewrite (getTermOfLog_lookup rf j e) in Hj by (done || lia). by injection Hj. }
  destruct (linkedLog_getLog _ _ _ _ Hwf Hl Hg) as (w & Hw & Hc'). rewrite Hc in Hc'. by simplify_eq.
Qed.

(** *** What a follower keeps and what it gains *)

Lemma endTerm_termIn args :
  termIn (ae_PrevLogTerm args) (ae_Entries args) (length (ae_Entries args)) = Some (endTerm args).
Proof.
  unfold endTerm. destruct (ae_Entries args) as [|e es]; [done|]. cbn [length termIn].
  destruct (lookup_lt_is_Some_2 (e :: es) (length es)) as [x Hx]; [cbn; lia|]. by rewrite Hx.
Qed.

(** Every position of a request is on the chain of its end. *)
Lemma request_onChain cr args n t :
  linked cr (ae_PrevLogIndex args) (ae_PrevLogTerm args) (ae_Entries args) →
  termIn (ae_PrevLogTerm args) (ae_Entries args) n = Some t →
  onChain cr (endIndex args) (endTerm args) (ae_PrevLogIndex args + Z.of_nat n) t.
Proof.
  intros Hl Hn. unfold endIndex, zlen. eapply linked_onChain; [done| |done|apply endTerm_termIn].
  destruct n as [|n]; [lia|]. cbn in Hn. apply fmap_Some in Hn as (e & He & _).
  by apply lookup_lt_Some in He.
Qed.

(** The log a successful AppendEntries leaves, as terms after index 0. *)
Lemma stored_termIn rf args rf' reply :
  raft_wf rf → whole rf → AppendEntries rf args = Ret (rf', reply) → aer_Success reply = true →
  ∃ k : nat, ae_PrevLogIndex args = Z.of_nat k ∧ (k < length (log rf))%nat ∧
    log rf' = take (S k) (log rf) ++ mergeTail (drop (S k) (log rf)) (ae_Entries args).
Proof.
  intros Hwf [Hi _] H Hs. destruct (AppendEntries_stored _ _ _ _ Hwf H Hs) as (_ & Hr & _ & Hl & _).
  exists (Z.to_nat (ae_PrevLogIndex args)). rewrite Hi in *. unfold getLogLength, zlen in Hr.
  split_and!; [lia..|]. rewrite Hl. by replace (Z.to_nat (ae_PrevLogIndex args + 1 - 0))
    with (S (Z.to_nat (ae_PrevLogIndex args))) by lia.
Qed.

Lemma holds_lookup rf i e :
  whole rf → log rf !! i = Some e → (0 < i)%nat → holds rf (Z.of_nat i) (le_Term e).
Proof.
  intros [Hi _] He H0. apply getTermOfLog_lookup; rewrite Hi; [lia|].
  by replace (Z.to_nat (Z.of_nat i - 0)) with i by lia.
Qed.

Lemma holds_entry rf i t :
  whole rf → holds rf i t → 0 < i → ∃ e, log rf !! Z.to_nat i = Some e ∧ le_Term e = t.
Proof.
  intros [Ei _] H H0. pose proof (holds_range _ _ _ H) as Hr.
  destruct (getLog_in_range rf i) as (e & He & _); [lia|]. rewrite Ei, Z.sub_0_r in He.
  exists e. split; [done|]. unfold holds in H.
  rewrite (getTermOfLog_lookup rf i e) in H; [by injection H|lia|by rewrite Ei, Z.sub_0_r].
Qed.

Lemma AppendEntries_whole rf args rf' reply :
  raft_wf rf → AppendEntries rf args = Ret (rf', reply) → whole rf → whole rf'.
Proof.
  intros Hwf H [Hi Ht]. destruct (aer_Success reply) eqn:Es.
  - destruct (AppendEntries_stored _ _ _ _ Hwf H Es) as (_&_&_&_&Hi'&Ht'&_). split; congruence.
  - assert (rf' = appendPrologue rf args) as -> by (apply AppendEntries_result in H; by destruct H).
    destruct (appendPrologue_sameLog rf args) as (_&_&_&?&?&_). split; congruence.
Qed.

(** A position that is comparable with the end of the request survives. *)
Lemma AppendEntries_keeps cr rf args rf' reply i t :
  raft_wf rf → whole rf → AppendEntries rf args = Ret (rf', reply) → linkedLog cr rf →
  linked cr (ae_PrevLogIndex args) (ae_PrevLogTerm args) (ae_Entries args) → holds rf i t →
  onChain cr (endIndex args) (endTerm args) i t ∨ onChain cr i t (endIndex args) (endTerm args) →
  holds rf' i t.
Proof.
  intros Hwf Hw H Hl Hes Hi Hcmp. destruct (aer_Success reply) eqn:Es.
  2: { assert (rf' = appendPrologue rf args) as -> by (apply AppendEntries_result in H; by destruct H).
       eapply holds_logSame; [|done]. by destruct (appendPrologue_sameLog rf args) as (_&_&?&?&?&_). }
  pose proof (AppendEntries_whole _ _ _ _ Hwf H Hw) as Hw'.
  destruct (stored_termIn _ _ _ _ Hwf Hw H Es) as (k & Ek & Hk & Hlog).
  pose proof (holds_range _ _ _ Hi) as Hr. rewrite (proj1 Hw) in Hr.
  destruct (decide (i = 0)) as [->|Hne].
  { rewrite (holds_fun rf 0 t 0 Hi (holds_0 _ Hwf Hw)). apply holds_0; [|done].
    destruct (AppendEntries_calm _ _ _ _ H Hwf) as (_ & Hwf' & _). by apply Hwf'. }
  destruct (holds_entry _ _ _ Hw Hi) as (e & He & <-); [lia|].
  replace i with (Z.of_nat (Z.to_nat i)) by lia. apply holds_lookup; [done| |lia]. rewrite Hlog.
  destruct (decide (Z.to_nat i < S k)%nat) as [Hlt|Hge].
  { rewrite lookup_app_l by (rewrite length_take; lia). by rewrite lookup_take_lt. }
  rewrite lookup_app_r by (rewrite length_take; lia). rewrite length_take, Nat.min_l by lia.
  set (n := (Z.to_nat i - S k)%nat).
  assert (drop (S k) (log rf) !! n = Some e) as Hn.
  { rewrite lookup_drop. subst n. by replace (S k + (Z.to_nat i - S k))%nat with (Z.to_nat i) by lia. }
  apply mergeTail_keep; [done|]. intros m x y Hm Hx Hy. rewrite lookup_drop in Hx.
  apply holds_lookup in Hx; [|done|lia].
  assert (onChain cr i (le_Term e) (Z.of_nat (S k + m)) (le_Term x)) as H1
    by (eapply holds_onChain; try done; lia).
  assert (onChain cr (endIndex args) (endTerm args) (Z.of_nat (S k + m)) (le_Term y)) as H2.
  { replace (Z.of_nat (S k + m)) with (ae_PrevLogIndex args + Z.of_nat (S m)) by lia.
    apply request_onChain; [done|]. cbn. by rewrite Hy. }
  destruct Hcmp as [Hcmp|Hcmp].
  - exact (onChain_fun _ _ _ _ _ _ (onChain_trans _ _ _ _ _ _ _ Hcmp H1) H2).
  - exact (onChain_fun _ _ _ _ _ _ H1 (onChain_trans _ _ _ _ _ _ _ Hcmp H2)).
Qed.

(** After success the follower has the end of the request. *)
Lemma AppendEntries_end rf args rf' reply :
  raft_wf rf → whole rf → AppendEntries rf args = Ret (rf', reply) → aer_Success reply = true →
  holds rf' (endIndex args) (endTerm args).
Proof.
  intros Hwf Hw H Es. pose proof (AppendEntries_whole _ _ _ _ Hwf H Hw) as Hw'.
  destruct (AppendEntries_stored _ _ _ _ Hwf H Es) as (_ & _ & Ht & _).
  destruct (stored_termIn _ _ _ _ Hwf Hw H Es) as (k & Ek & Hk & Hlog).
  unfold endIndex. pose proof (endTerm_termIn args) as He.
  assert (ae_Entries args = [] ∨ ∃ n, length (ae_Entries args) = S n) as [Ees|[n En]]
    by (destruct (ae_Entries args); eauto).
  - rewrite Ees in He |- *. cbn in He. injection He as <-. rewrite Z.add_0_r.
    eapply holds_logSame; [|exact Ht]. eapply AppendEntries_log_same; [done..|by right].
  - unfold zlen. rewrite En, Ek in *. cbn in He. apply fmap_Some in He as (y & Hy & ->).
    pose proof (mergeTail_terms (drop (S k) (log rf)) (ae_Entries args)) as Hm. rewrite En in Hm.
    assert ((le_Term <$> take (S n) (mergeTail (drop (S k) (log rf)) (ae_Entries args))) !! n
      = Some (le_Term y)) as Hx by (rewrite Hm, list_lookup_fmap, Hy; done).
    rewrite list_lookup_fmap, lookup_take_lt in Hx by lia.
    apply fmap_Some in Hx as (x & Hx & ->).
    replace (Z.of_nat k + Z.of_nat (S n)) with (Z.of_nat (S k + n)) by lia.
    apply holds_lookup; [done| |lia]. rewrite Hlog, lookup_app_r by (rewrite length_take; lia).
    rewrite length_take, Nat.min_l by lia. by replace (S k + n - S k)%nat with n by lia.
Qed.

(** The log ends as before or where the request ends. *)
Lemma AppendEntries_last rf args rf' reply :
  raft_wf rf → whole rf → AppendEntries rf args = Ret (rf', reply) →
  logSame rf rf' ∨ aer_Success reply = true ∧ getLogLength rf' = endIndex args + 1.
Proof.
  intros Hwf Hw H. destruct (aer_Success reply) eqn:Es.
  2: { left. assert (rf' = appendPrologue rf args) as -> by (apply AppendEntries_result in H; by destruct H).
       by destruct (appendPrologue_sameLog rf args) as (_&_&?&?&?&_). }
  pose proof (AppendEntries_whole _ _ _ _ Hwf H Hw) as Hw'.
  destruct (stored_termIn _ _ _ _ Hwf Hw H Es) as (k & Ek & Hk & Hlog).
  destruct (mergeTail_cases (drop (S k) (log rf)) (ae_Entries args)) as [E|E].
  - left. rewrite E, take_drop in Hlog. destruct Hw, Hw'. unfold logSame. split_and!; congruence.
  - right. split; [done|]. unfold getLogLength, endIndex, zlen. rewrite (proj1 Hw'), Hlog, length_app, length_take, E.
    lia.
Qed.
End holds.
