(* ===== verification/RaftQuorums.v ===== *)
(** * RaftQuorums: acknowledged, blocked and committed entries

    The vocabulary in which the safety of the replicated log is stated: which
    peer has acknowledged how much of the log of the leader of a term, which
    entries a majority has, and which ones no majority can get any more.  All of
    it is monotone along the steps of a cluster ([evolves]). *)

From S2P Require Import Prelude Labgob Persister RaftState RaftRpc RaftLeader RaftPeer RaftCluster RaftLinks RaftReplication RaftChains.
Local Open Scope Z_scope.

(** For each term that was won: the winner, and the last index and term of its
    log when it won. *)
Abbreviation Wins := (gmap Z (nat * Z * Z)).

Section quorums.
Context {C SV : Type}.
Implicit Types (c : Cluster C SV) (rf : Raft C SV) (cr : History C) (w : World C SV) (ms : Msgs C SV).
Implicit Types (wn : Wins) (v p : nat) (i k t u : Z).

(** Peer [p] cannot become leader of term [t] any more (it may lead it). *)
Definition decided c p t : Prop :=
  ∃ rf, nodes c !! p = Some rf ∧
    (t < currentTerm (raftState rf) ∨
     t = currentTerm (raftState rf) ∧
       (state (raftState rf) = leaderState ∨ ∀ e, e ∈ elections c → el_owner e = p → el_term e ≠ t)).

(** Position (k, u) is the end of the log of [p] at some time at which it led
    [t]: where it won, or an entry it created. *)
Definition leaderEnd wn cr t p k u : Prop :=
  ∃ b s, wn !! t = Some (p, b, s) ∧ (k = b ∧ u = s ∨ u = t ∧ is_Some (cr !! (k, t))).

#[export] Instance leaderEnd_dec wn cr t p k u : Decision (leaderEnd wn cr t p k u).
Proof.
  destruct (wn !! t) as [[[q b] s]|] eqn:E.
  - destruct (decide (q = p ∧ (k = b ∧ u = s ∨ u = t ∧ is_Some (cr !! (k, t))))) as [[-> H]|H].
    + left. by exists b, s.
    + right. intros (b' & s' & E' & H'). simplify_eq. by apply H.
  - right. by intros (b & s & E' & _); simplify_eq.
Defined.

(** The reply of [v] says that it has the log of the leader of [t] up to [i]. *)
Definition ack wn cr v t i (mr : AppendMsg (C := C) * AppendEntriesReply) : Prop :=
  aer_Success mr.2 = true ∧ am_to mr.1 = Z.of_nat v ∧ ae_Term (am_args mr.1) = t ∧
  i <= endIndex (am_args mr.1) ∧
  leaderEnd wn cr t (am_from mr.1) (endIndex (am_args mr.1)) (endTerm (am_args mr.1)).

(** A leader has what it created. *)
Definition selfAck wn cr v t i : Prop :=
  fst <$> (fst <$> wn !! t) = Some v ∧ map_Exists (λ it _, it.2 = t ∧ i <= it.1) cr.

Definition acked wn cr ms v t i : Prop :=
  Exists (ack wn cr v t i) (appendReplies ms) ∨ selfAck wn cr v t i.

#[export] Instance ack_dec wn cr v t i mr : Decision (ack wn cr v t i mr).
Proof. apply _. Defined.
#[export] Instance selfAck_dec wn cr v t i : Decision (selfAck wn cr v t i).
Proof. apply _. Defined.
#[export] Instance acked_dec wn cr ms v t i : Decision (acked wn cr ms v t i).
Proof. apply _. Defined.

Definition quorum c (Q : list nat) : Prop :=
  NoDup Q ∧ (∀ v, v ∈ Q → (v < length (nodes c))%nat) ∧ (length (nodes c) < 2 * length Q)%nat.

(** A majority has entry (i, t). *)
Definition committed w wn i t : Prop :=
  is_Some (created w !! (i, t)) ∧
  ∃ Q, quorum (cl w) Q ∧ ∀ v, v ∈ Q → acked wn (created w) (msgs w) v t i.

(** A majority is past term [t] without having acknowledged (i, t). *)
Definition blocked w wn i t : Prop :=
  ∃ Q, quorum (cl w) Q ∧ ∀ v, v ∈ Q →
    (∃ rf, nodes (cl w) !! v = Some rf ∧ t < currentTerm (raftState rf)) ∧
    ¬ acked wn (created w) (msgs w) v t i.

(** Position (k, u) is below an entry committed in a term up to [T]. *)
Definition commitPos w wn T k u : Prop :=
  k = 0 ∧ u = 0 ∨ ∃ i t, committed w wn i t ∧ t <= T ∧ onChain (created w) i t k u.

Lemma quorums_meet c Q1 Q2 : quorum c Q1 → quorum c Q2 → ∃ v, v ∈ Q1 ∧ v ∈ Q2.
Proof. intros (?&?&?) (?&?&?). by eapply quorum_overlap. Qed.

Lemma committed_not_blocked w wn i t : committed w wn i t → blocked w wn i t → False.
Proof.
  intros (_ & Q1 & HQ1 & H1) (Q2 & HQ2 & H2).
  destruct (quorums_meet _ _ _ HQ1 HQ2) as (v & Hv1 & Hv2). apply (H2 v Hv2). by apply H1.
Qed.

Lemma majorityFor_quorum c p t :
  majorityFor c p t → ∃ Q, quorum c Q ∧ ∀ v, v ∈ Q → (v, t, Z.of_nat p) ∈ votes c.
Proof. intros (Q & ? & ? & ? & ?). by exists Q. Qed.

Lemma ack_i wn cr v t i i' mr : i' <= i → ack wn cr v t i mr → ack wn cr v t i' mr.
Proof. intros Hle (? & ? & ? & ? & ?). split_and!; try done. lia. Qed.

Lemma acked_le wn cr ms v t i i' : i' <= i → acked wn cr ms v t i → acked wn cr ms v t i'.
Proof.
  intros Hle [H|[Ho H]].
  - left. eapply Exists_impl; [done|]. intros mr. by apply ack_i.
  - right. split; [done|]. destruct H as (it & x & Hx & ? & ?). exists it, x. split_and!; try done. lia.
Qed.

(** *** Steps *)

Lemma leaderEnd_mono wn wn' cr cr' t p k u :
  wn ⊆ wn' → cr ⊆ cr' → leaderEnd wn cr t p k u → leaderEnd wn' cr' t p k u.
Proof.
  intros Hw Hc (b & s & Hb & H). exists b, s. split; [by eapply lookup_weaken|].
  destruct H as [?|[? [x Hx]]]; [by left|right]. split; [done|]. exists x. by eapply lookup_weaken.
Qed.

(** The histories only grow. *)
Record later w wn w' wn' : Prop := {
  lt_length : length (nodes (cl w')) = length (nodes (cl w));
  lt_created : created w ⊆ created w';
  lt_wins : wn ⊆ wn';
  lt_replies x : x ∈ appendReplies (msgs w) → x ∈ appendReplies (msgs w');
}.

Lemma later_refl w wn : later w wn w wn.
Proof. done. Qed.

Lemma later_trans w1 wn1 w2 wn2 w3 wn3 :
  later w1 wn1 w2 wn2 → later w2 wn2 w3 wn3 → later w1 wn1 w3 wn3.
Proof. intros [] []. constructor; [congruence|by etrans|by etrans|auto]. Qed.

Section later.
Context (w w' : World C SV) (wn wn' : Wins) (Hlt : later w wn w' wn').

Lemma acked_later v t i :
  acked wn (created w) (msgs w) v t i → acked wn' (created w') (msgs w') v t i.
Proof.
  destruct Hlt. intros [H|[Ho H]].
  - left. apply Exists_exists in H as (mr & Hin & Ha). apply Exists_exists. exists mr.
    split; [by auto|]. destruct Ha as (?&?&?&?&?). split_and!; try done. by eapply leaderEnd_mono.
  - right. split.
    + destruct (wn !! t) as [x|] eqn:E; [|done]. by rewrite (lookup_weaken _ _ _ _ E lt_wins0).
    + destruct H as (it & x & Hx & ?). exists it, x. split; [by eapply lookup_weaken|done].
Qed.

Lemma quorum_later Q : quorum (cl w) Q → quorum (cl w') Q.
Proof. unfold quorum. by rewrite (lt_length _ _ _ _ Hlt). Qed.

Lemma committed_later i t : committed w wn i t → committed w' wn' i t.
Proof.
  intros ([x Hx] & Q & HQ & H). split; [exists x; by eapply lookup_weaken; [|apply Hlt]|].
  exists Q. split; [by apply quorum_later|]. intros v Hv. by apply acked_later, H.
Qed.

Lemma commitPos_later T T' k u : T <= T' → commitPos w wn T k u → commitPos w' wn' T' k u.
Proof.
  intros HT [?|(i & t & Hc & Ht & Ho)]; [by left|right]. exists i, t.
  split_and!; [by apply committed_later|lia|]. eapply onChain_mono; [|done]. apply Hlt.
Qed.
End later.

(** What every step of the cluster keeps; [created] and the wins are the
    histories before and after it. *)
Record evolves w wn w' wn' : Prop := {
  ev_length : length (nodes (cl w')) = length (nodes (cl w));
  ev_votes x : x ∈ votes (cl w) → x ∈ votes (cl w');
  ev_term p rf : nodes (cl w) !! p = Some rf →
    ∃ rf', nodes (cl w') !! p = Some rf' ∧ currentTerm (raftState rf) <= currentTerm (raftState rf') ∧
      (state (raftState rf) = leaderState → currentTerm (raftState rf') = currentTerm (raftState rf) →
       state (raftState rf') = leaderState ∨ ∀ e, e ∈ elections (cl w') → el_owner e ≠ p);
  ev_elections e : e ∈ elections (cl w') →
    (∃ e0, e0 ∈ elections (cl w) ∧ el_owner e0 = el_owner e ∧ el_term e0 = el_term e) ∨
    ∃ rf, nodes (cl w) !! el_owner e = Some rf ∧ currentTerm (raftState rf) < el_term e;
  ev_created : created w ⊆ created w';
  ev_wins : wn ⊆ wn';
  ev_replies x : x ∈ appendReplies (msgs w) → x ∈ appendReplies (msgs w');
  (** whoever is past a term acknowledges nothing of it any more *)
  ev_acked v rf t i : nodes (cl w) !! v = Some rf → t < currentTerm (raftState rf) →
    acked wn' (created w') (msgs w') v t i → acked wn (created w) (msgs w) v t i;
}.

Section mono.
Context (w w' : World C SV) (wn wn' : Wins) (Hev : evolves w wn w' wn').

Lemma evolves_later : later w wn w' wn'.
Proof. by destruct Hev. Qed.

Lemma acked_mono v t i :
  acked wn (created w) (msgs w) v t i → acked wn' (created w') (msgs w') v t i.
Proof. apply (acked_later _ _ _ _ evolves_later). Qed.

Lemma quorum_mono Q : quorum (cl w) Q → quorum (cl w') Q.
Proof. apply (quorum_later _ _ _ _ evolves_later). Qed.

Lemma committed_mono i t : committed w wn i t → committed w' wn' i t.
Proof. apply (committed_later _ _ _ _ evolves_later). Qed.

Lemma commitPos_mono T T' k u : T <= T' → commitPos w wn T k u → commitPos w' wn' T' k u.
Proof. apply (commitPos_later _ _ _ _ evolves_later). Qed.

Lemma blocked_mono i t : blocked w wn i t → blocked w' wn' i t.
Proof.
  intros (Q & HQ & H). exists Q. split; [by apply quorum_mono|]. intros v Hv.
  destruct (H v Hv) as [(rf & Hn & Ht) Hna]. split.
  - destruct (ev_term _ _ _ _ Hev _ _ Hn) as (rf' & ? & ? & _). exists rf'. split; [done|lia].
  - intros Ha. by eapply Hna, (ev_acked _ _ _ _ Hev).
Qed.

Lemma decided_mono p t : decided (cl w) p t → decided (cl w') p t.
Proof.
  intros (rf & Hn & Hd). destruct (ev_term _ _ _ _ Hev _ _ Hn) as (rf' & Hn' & Ht & Hr).
  exists rf'. split; [done|].
  destruct (decide (t < currentTerm (raftState rf'))) as [|Hge]; [by left|right].
  destruct Hd as [|[-> Hd]]; [lia|]. split; [lia|]. destruct Hd as [Hl|Hno].
  - destruct (Hr Hl) as [?|Hgone]; [lia|by left|right]. intros e He Ho. by destruct (Hgone e He).
  - right. intros e [(e0 & He0 & Eo & Et)|(r & Hr0 & Hlt)]%(ev_elections _ _ _ _ Hev) Ho.
    + rewrite <- Et. apply Hno; [done|congruence].
    + rewrite Ho in Hr0. simplify_eq. lia.
Qed.
End mono.
End quorums.
