(* ===== verification/RaftInvariant.v ===== *)
(** * RaftInvariant: the invariant behind the safety of the replicated log

    What holds of the peers, of the histories of created entries and won terms,
    of the messages and of the votes of a cluster that takes no snapshots, and
    which of it survives a step by itself.  RaftSafety goes through the steps. *)

From S2P Require Import Prelude Labgob Persister RaftState RaftRpc RaftLeader RaftPeer RaftCluster RaftLinks RaftReplication RaftChains RaftQuorums.
Local Open Scope Z_scope.

Section invariant.
Context {C SV : Type}.
Implicit Types (c : Cluster C SV) (rf : Raft C SV) (cr : History C) (w : World C SV) (ms : Msgs C SV).
Implicit Types (wn : Wins) (v p q : nat) (i k t u : Z).

(** Where the main loop of a peer is: in [leaderMain]; in [leaderMain] with the
    indices of the term initialised or past the flag that says so. *)
Definition inLeaderMain w p : bool :=
  match mains (cl w) !! p with
  | Some (Some (RunLeader | LeaderIndexed | LeaderBeats)) => true
  | _ => false
  end.
Definition indexed w p rf : Prop :=
  leaderInitDone rf = true ∨ mains (cl w) !! p = Some (Some LeaderIndexed).

Lemma inLeaderMain_reset w p bs : mains (cl w) = <[p := None]> bs → inLeaderMain w p = false.
Proof.
  unfold inLeaderMain. intros ->. destruct (_ !! p) as [[b|]|] eqn:E; try done.
  by apply list_lookup_insert_Some in E as [(_ & ? & _)|[? _]].
Qed.

(** One peer. *)
Record nodeInv w wn p rf : Prop := {
  ni_whole : whole rf;
  ni_durable : durable rf;
  ni_terms i t : holds rf i t → t <= currentTerm (raftState rf);
  (** a leader has everything created in its term, after what it won with *)
  ni_leader : state (raftState rf) = leaderState →
    ∃ b s, wn !! currentTerm (raftState rf) = Some (p, b, s) ∧ holds rf b s ∧
      (∀ i, is_Some (created w !! (i, currentTerm (raftState rf))) → holds rf i (currentTerm (raftState rf))) ∧
      (∀ i, b < i < getLogLength rf → holds rf i (currentTerm (raftState rf)));
  ni_init : state (raftState rf) = leaderState → leaderInitDone rf = false →
    ∀ i, created w !! (i, currentTerm (raftState rf)) = None;
  ni_match : state (raftState rf) = leaderState → indexed w p rf →
    ∀ v mi, matchIndex rf !! v = Some mi → mi < getLogLength rf ∧
      ∀ i, i <= mi → is_Some (created w !! (i, currentTerm (raftState rf))) →
        acked wn (created w) (msgs w) v (currentTerm (raftState rf)) i;
  (** what a peer acknowledged it has, unless it cannot be committed any more *)
  ni_acked i t : acked wn (created w) (msgs w) p t i → is_Some (created w !! (i, t)) →
    t <= currentTerm (raftState rf) ∧ (holds rf i t ∨ blocked w wn i t);
  ni_commit : ∃ u lt, holds rf (commitIndex rf) u ∧ holds rf (getLogLength rf - 1) lt ∧
    commitPos w wn lt (commitIndex rf) u;
  ni_main : inLeaderMain w p = true →
    state (raftState rf) = leaderState ∨
    ∀ e, e ∈ elections (cl w) → el_owner e = p → el_term e < currentTerm (raftState rf);
}.

(** The histories. *)
Record ghostInv w wn : Prop := {
  gi_orderly : orderly (created w);
  gi_win t p b s : wn !! t = Some (p, b, s) →
    majorityFor (cl w) p t ∧ decided (cl w) p t ∧ 0 <= s < t;
  gi_created i t : is_Some (created w !! (i, t)) →
    ∃ p b s, wn !! t = Some (p, b, s) ∧ onChain (created w) i t b s ∧ b < i;
  gi_chain i j t : is_Some (created w !! (i, t)) → is_Some (created w !! (j, t)) → i <= j →
    onChain (created w) j t i t;
  (** a winner has every entry that can be committed in an earlier term *)
  gi_complete t' p b s i t : wn !! t' = Some (p, b, s) → t < t' → is_Some (created w !! (i, t)) →
    onChain (created w) b s i t ∨ blocked w wn i t;
}.

(** The commit index a request carries is below its end and committed. *)
Definition commitMsg w wn (args : AppendEntriesArgs C) : Prop :=
  ∃ u, onChain (created w) (endIndex args) (endTerm args) (ae_LeaderCommit args) u ∧
    commitPos w wn (endTerm args) (ae_LeaderCommit args) u.

Definition msgEnd w wn (m : AppendMsg (C := C)) : Prop :=
  leaderEnd wn (created w) (ae_Term (am_args m)) (am_from m) (endIndex (am_args m)) (endTerm (am_args m)).

Definition callOk w wn (m : AppendMsg (C := C)) : Prop :=
  decided (cl w) (am_from m) (ae_Term (am_args m)) ∧ commitMsg w wn (am_args m) ∧
  ∀ rf, nodes (cl w) !! am_from m = Some rf → state (raftState rf) = leaderState →
    currentTerm (raftState rf) = ae_Term (am_args m) → msgEnd w wn m.

(** The messages, and the scans for commits. *)
Record msgInv w wn : Prop := {
  mi_broadcast p t : (p, t) ∈ broadcasts (msgs w) → decided (cl w) p t;
  mi_heartbeat p t : (p, t) ∈ heartbeats (msgs w) → decided (cl w) p t;
  mi_call m : m ∈ appendCalls (msgs w) → callOk w wn m ∧ am_beat m = false;
  mi_append m : m ∈ appends (msgs w) → callOk w wn m ∧
    if am_beat m then ae_Entries (am_args m) = [] else msgEnd w wn m;
  mi_scall m : m ∈ snapshotCalls (msgs w) → is_LastIncludedIndex (sm_args m) = 0;
  mi_snapshot m : m ∈ snapshots (msgs w) → is_LastIncludedIndex (sm_args m) = 0;
  (** what is scanned was created in the term; what most peers have is committed *)
  mi_scan p t i : (p, t, i) ∈ scans (msgs w) → 0 < i ∧ is_Some (created w !! (i, t));
  mi_count p t i n : (p, t, i, n) ∈ counts (msgs w) → 0 < i ∧ is_Some (created w !! (i, t)) ∧
    (Z.of_nat (length (nodes (cl w))) < 2 * n → committed w wn i t);
}.

(** The votes: whoever may still win has what its voters acknowledged. *)
Record voteInv w wn : Prop := {
  vi_term v t' x : (v, t', x) ∈ votes (cl w) → 0 < t';
  vi_vote v t' p rf : (v, t', Z.of_nat p) ∈ votes (cl w) → nodes (cl w) !! p = Some rf →
    t' <= currentTerm (raftState rf) ∧
    (currentTerm (raftState rf) = t' → wn !! t' = None →
     ∀ i t, t < t' → acked wn (created w) (msgs w) v t i → is_Some (created w !! (i, t)) →
       holds rf i t ∨ blocked w wn i t);
  vi_request to args : (to, args) ∈ requests (cl w) →
    0 < rv_Term args ∧
    ∃ p rf, rv_CandidateId args = Z.of_nat p ∧ nodes (cl w) !! p = Some rf ∧
      rv_Term args <= currentTerm (raftState rf) ∧
      (currentTerm (raftState rf) = rv_Term args → wn !! rv_Term args = None →
       rv_LastLogIndex args = getLogLength rf - 1 ∧ holds rf (rv_LastLogIndex args) (rv_LastLogTerm args));
}.

Definition sinv w wn : Prop :=
  rinv w ∧ (∀ p rf, nodes (cl w) !! p = Some rf → nodeInv w wn p rf) ∧
  ghostInv w wn ∧ msgInv w wn ∧ voteInv w wn.

(** ** What survives by itself *)
Section survives.
Context (w w' : World C SV) (wn wn' : Wins) (Hev : evolves w wn w' wn').

(** A node whose log may have changed, unless it leads. *)
Record moves p rf rf' : Prop := {
  mv_whole : whole rf';
  mv_durable : durable rf';
  mv_terms i t : holds rf' i t → t <= currentTerm (raftState rf');
  mv_acked i t : acked wn' (created w') (msgs w') p t i → is_Some (created w' !! (i, t)) →
    t <= currentTerm (raftState rf') ∧ (holds rf' i t ∨ blocked w' wn' i t);
  mv_commit : ∃ u lt, holds rf' (commitIndex rf') u ∧ holds rf' (getLogLength rf' - 1) lt ∧
    commitPos w' wn' lt (commitIndex rf') u;
  (** as a leader it trusts only acknowledgements of its term *)
  mv_leader : state (raftState rf') = leaderState →
    state (raftState rf) = leaderState ∧ currentTerm (raftState rf') = currentTerm (raftState rf) ∧
    logSame rf rf' ∧
    (leaderInitDone rf' = false → leaderInitDone rf = false) ∧
    (indexed w' p rf' → ∀ v mi, matchIndex rf' !! v = Some mi →
       indexed w p rf ∧ matchIndex rf !! v = Some mi ∨
       mi < getLogLength rf' ∧
         ∀ i, i <= mi → is_Some (created w' !! (i, currentTerm (raftState rf))) →
           acked wn' (created w') (msgs w') v (currentTerm (raftState rf)) i) ∧
    ∀ i, is_Some (created w' !! (i, currentTerm (raftState rf))) →
      is_Some (created w !! (i, currentTerm (raftState rf)));
  mv_main : inLeaderMain w' p = true → state (raftState rf') = leaderState ∨
    ∀ e, e ∈ elections (cl w') → el_owner e = p → el_term e < currentTerm (raftState rf');
}.

Lemma nodeInv_moves p rf rf' : nodeInv w wn p rf → moves p rf rf' → nodeInv w' wn' p rf'.
Proof.
  intros [Hw Hd Ht Hl Hi Hm Ha Hc Hmain] [Hw' Hd' Ht' Ha' Hc' Hl' Hmain'].
  constructor; try done.
  - intros (Hs & Et & Hlog & _ & _ & Hcr)%Hl'. destruct (Hl Hs) as (b & s & Hb & Hbs & H1 & H2).
    rewrite Et. exists b, s. split; [by eapply lookup_weaken, (ev_wins _ _ _ _ Hev)|].
    assert (∀ i t, holds rf i t → holds rf' i t) as Hh by (intros; by apply (holds_logSame _ _ _ _ Hlog)).
    rewrite (logSame_length _ _ Hlog). split; [auto|]. split; [intros i ?%Hcr|intros i ?]; auto.
  - intros (Hs & Et & _ & Ed & _ & Hcr)%Hl' Hf i. rewrite Et.
    destruct (created w' !! _) eqn:E; [|done].
    destruct (Hcr i) as [x Hx]; [by eexists|]. by rewrite (Hi Hs (Ed Hf) i) in Hx.
  - intros (Hs & Et & Hlog & _ & Em & Hcr)%Hl' Hf v mi Hmi. rewrite Et.
    destruct (Em Hf v mi Hmi) as [[Hf0 Hmi0]|[H1 H2]]; [|done].
    destruct (Hm Hs Hf0 v mi Hmi0) as [H1 H2]. rewrite (logSame_length _ _ Hlog). split; [done|].
    intros i Hle ?%Hcr. eapply acked_mono; [done|]. auto.
Qed.

(** [p] acknowledged nothing new, or has what it acknowledged. *)
Definition newsOk p rf' : Prop :=
  ∀ t i, acked wn' (created w') (msgs w') p t i → is_Some (created w' !! (i, t)) →
    acked wn (created w) (msgs w) p t i ∧ is_Some (created w !! (i, t)) ∨
    t <= currentTerm (raftState rf') ∧ (holds rf' i t ∨ blocked w' wn' i t).

(** The node keeps its log, and what it commits is committed. *)
Record calmNode p rf rf' : Prop := {
  cn_log : logSame rf rf';
  cn_commit : commitIndex rf' = commitIndex rf ∨
    ∃ u lt, holds rf' (commitIndex rf') u ∧ holds rf' (getLogLength rf' - 1) lt ∧
      commitPos w' wn' lt (commitIndex rf') u;
  cn_term : currentTerm (raftState rf) <= currentTerm (raftState rf');
  cn_durable : durable rf';
  cn_leader : state (raftState rf') = leaderState →
    state (raftState rf) = leaderState ∧ currentTerm (raftState rf') = currentTerm (raftState rf) ∧
    (leaderInitDone rf' = false → leaderInitDone rf = false) ∧
    (indexed w' p rf' → ∀ v mi, matchIndex rf' !! v = Some mi →
       indexed w p rf ∧ matchIndex rf !! v = Some mi ∨
       mi < getLogLength rf' ∧
         ∀ i, i <= mi → is_Some (created w' !! (i, currentTerm (raftState rf))) →
           acked wn' (created w') (msgs w') v (currentTerm (raftState rf)) i) ∧
    ∀ i, is_Some (created w' !! (i, currentTerm (raftState rf))) →
      is_Some (created w !! (i, currentTerm (raftState rf)));
}.

Lemma nodeInv_calm p rf rf' :
  nodeInv w wn p rf → calmNode p rf rf' → newsOk p rf' →
  (inLeaderMain w' p = true → state (raftState rf') = leaderState ∨
     ∀ e, e ∈ elections (cl w') → el_owner e = p → el_term e < currentTerm (raftState rf')) →
  nodeInv w' wn' p rf'.
Proof.
  intros Hn [Hlog Hci Hterm Hd' Hl'] Hnews Hmain'. apply (nodeInv_moves p rf); [done|].
  destruct Hn as [Hw Hd Ht _ _ _ Ha Hc _].
  assert (∀ i t, holds rf' i t ↔ holds rf i t) as Hh by (intros; by apply holds_logSame).
  constructor; try done.
  - destruct Hlog as (_ & E1 & E2), Hw. split; congruence.
  - intros i t Hit%Hh. specialize (Ht _ _ Hit). lia.
  - intros i t H1 H2. destruct (Hnews t i H1 H2) as [[H1' H2']|?]; [|done].
    destruct (Ha i t H1' H2') as [Hle Hor].
    split; [lia|]. destruct Hor; [left; by apply Hh|right; by eapply blocked_mono].
  - destruct Hci as [Hci|?]; [|done]. destruct Hc as (u & lt & Hu & Hlt & Hpos).
    exists u, lt. rewrite Hci, (logSame_length _ _ Hlog).
    split_and!; [by apply Hh..|]. by apply (commitPos_mono w w' wn wn' Hev lt lt); [lia|].
  - intros (? & ? & ? & ? & ?)%Hl'. split_and!; done.
Qed.

(** Other nodes. *)
Lemma nodeInv_other p rf :
  nodeInv w wn p rf → nodes (cl w') !! p = Some rf → newsOk p rf →
  (state (raftState rf) = leaderState → ∀ i, is_Some (created w' !! (i, currentTerm (raftState rf))) →
     is_Some (created w !! (i, currentTerm (raftState rf)))) →
  mains (cl w') !! p = mains (cl w) !! p →
  (∀ e, e ∈ elections (cl w') → el_owner e = p → ∃ e0, e0 ∈ elections (cl w) ∧ el_owner e0 = p ∧ el_term e0 = el_term e) →
  nodeInv w' wn' p rf.
Proof.
  intros Hn Hp Hnews Hcr Hm He. apply (nodeInv_calm p rf rf); try done.
  - constructor; [done|by left|lia|apply (ni_durable _ _ _ _ Hn)|]. intros Hs.
    unfold indexed. rewrite Hm. split_and!; try done; auto.
  - unfold inLeaderMain. rewrite Hm. intros [?|Hlt]%(ni_main _ _ _ _ Hn); [by left|right].
    intros e H1 H2. destruct (He e H1 H2) as (e0 & ? & ? & <-). auto.
Qed.

Lemma ghostInv_calm : ghostInv w wn → created w' = created w → wn' = wn → ghostInv w' wn'.
Proof.
  intros [Ho Hw Hc Hch Hco] E ->. constructor; rewrite ?E; try done.
  - intros t p b s (H1 & H2 & H3)%Hw. split_and!; try lia.
    + eapply majorityFor_mono; [apply Hev|apply Hev|done].
    + by eapply decided_mono.
  - intros t' p b s i t Hb Hlt Hi. destruct (Hco t' p b s i t Hb Hlt Hi); [by left|right].
    by eapply blocked_mono.
Qed.

Lemma commitMsg_mono args : commitMsg w wn args → commitMsg w' wn' args.
Proof.
  intros (u & H1 & H2). exists u. split; [by eapply onChain_mono; [apply Hev|]|].
  by apply (commitPos_mono w w' wn wn' Hev (endTerm args)); [lia|].
Qed.

Lemma msgEnd_mono m : msgEnd w wn m → msgEnd w' wn' m.
Proof. apply leaderEnd_mono; apply Hev. Qed.

(** A new leader has sent nothing in its term, so only old leaders matter. *)
Lemma callOk_mono m :
  (∀ rf', nodes (cl w') !! am_from m = Some rf' → state (raftState rf') = leaderState →
     (∃ rf, nodes (cl w) !! am_from m = Some rf ∧ state (raftState rf) = leaderState ∧
        currentTerm (raftState rf') = currentTerm (raftState rf)) ∨
     ¬ decided (cl w) (am_from m) (currentTerm (raftState rf'))) →
  callOk w wn m → callOk w' wn' m.
Proof.
  intros Hold (Hd & Hc & He). split_and!; [by eapply decided_mono|by apply commitMsg_mono|].
  intros rf' Hn' Hl' Et. apply msgEnd_mono.
  destruct (Hold rf' Hn' Hl') as [(rf & Hn & Hl & E)|Hno]; [by apply (He rf); [..|congruence]|].
  by rewrite Et in Hno.
Qed.

(** New leaders. *)
Definition oldLeaders : Prop :=
  ∀ p rf', nodes (cl w') !! p = Some rf' → state (raftState rf') = leaderState →
    (∃ rf, nodes (cl w) !! p = Some rf ∧ state (raftState rf) = leaderState ∧
       currentTerm (raftState rf') = currentTerm (raftState rf)) ∨
    ¬ decided (cl w) p (currentTerm (raftState rf')).

(** Whatever was not there before is as it should be. *)
Record newMsgs : Prop := {
  nm_broadcast p t : (p, t) ∈ broadcasts (msgs w') → (p, t) ∈ broadcasts (msgs w) ∨ decided (cl w') p t;
  nm_heartbeat p t : (p, t) ∈ heartbeats (msgs w') → (p, t) ∈ heartbeats (msgs w) ∨ decided (cl w') p t;
  nm_call m : m ∈ appendCalls (msgs w') → m ∈ appendCalls (msgs w) ∨ callOk w' wn' m ∧ am_beat m = false;
  nm_append m : m ∈ appends (msgs w') → m ∈ appends (msgs w) ∨ callOk w' wn' m ∧
    if am_beat m then ae_Entries (am_args m) = [] else msgEnd w' wn' m;
  nm_scall m : m ∈ snapshotCalls (msgs w') → m ∈ snapshotCalls (msgs w) ∨ is_LastIncludedIndex (sm_args m) = 0;
  nm_snapshot m : m ∈ snapshots (msgs w') → m ∈ snapshots (msgs w) ∨ is_LastIncludedIndex (sm_args m) = 0;
  nm_scan p t i : (p, t, i) ∈ scans (msgs w') → (p, t, i) ∈ scans (msgs w) ∨
    0 < i ∧ is_Some (created w' !! (i, t));
  nm_count p t i n : (p, t, i, n) ∈ counts (msgs w') → (p, t, i, n) ∈ counts (msgs w) ∨
    0 < i ∧ is_Some (created w' !! (i, t)) ∧ (Z.of_nat (length (nodes (cl w'))) < 2 * n → committed w' wn' i t);
}.

Lemma msgInv_mono : oldLeaders → msgInv w wn → newMsgs → msgInv w' wn'.
Proof.
  intros Hold [Hb Hh Hc Ha Hsc Hs Hsn Hct] [Nb Nh Nc Na Nsc Ns Nsn Nct].
  assert (∀ m, callOk w wn m → callOk w' wn' m) as Hcall.
  { intros m. apply callOk_mono. intros rf'. apply Hold. }
  constructor.
  - intros p t [?%Hb|?]%Nb; [by eapply decided_mono|done].
  - intros p t [?%Hh|?]%Nh; [by eapply decided_mono|done].
  - intros m [[? ?]%Hc|?]%Nc; auto.
  - intros m [[? He]%Ha|?]%Na; [|done]. split; [auto|].
    destruct (am_beat m); [done|by apply msgEnd_mono].
  - intros m [?%Hsc|?]%Nsc; done.
  - intros m [?%Hs|?]%Ns; done.
  - intros p t i [[? [x Hx]]%Hsn|?]%Nsn; [|done]. split; [done|]. exists x.
    by eapply lookup_weaken, (ev_created _ _ _ _ Hev).
  - intros p t i n [(? & [x Hx] & Hco)%Hct|?]%Nct; [|done]. split_and!; [done| |].
    + exists x. by eapply lookup_weaken, (ev_created _ _ _ _ Hev).
    + rewrite (ev_length _ _ _ _ Hev). intros ?%Hco. by eapply committed_mono.
Qed.

Lemma newMsgs_same : msgs w' = msgs w → newMsgs.
Proof. intros E. constructor; rewrite E; auto. Qed.

(** Votes, when the histories stay. *)
Lemma voteInv_mono :
  cinv (cl w) → voteInv w wn →
  (∀ v rf t i, nodes (cl w) !! v = Some rf → t < currentTerm (raftState rf) →
     acked wn (created w) (msgs w) v t i → is_Some (created w' !! (i, t)) → is_Some (created w !! (i, t))) →
  (∀ p rf rf', nodes (cl w) !! p = Some rf → nodes (cl w') !! p = Some rf' →
     currentTerm (raftState rf') = currentTerm (raftState rf) →
     wn' !! currentTerm (raftState rf) = None → logSame rf rf') →
  (∀ v t' x, (v, t', x) ∈ votes (cl w') → (v, t', x) ∈ votes (cl w) ∨
     0 < t' ∧ ∀ p rf', x = Z.of_nat p → nodes (cl w') !! p = Some rf' →
       t' <= currentTerm (raftState rf') ∧
       (currentTerm (raftState rf') = t' → wn' !! t' = None →
        ∀ i t, t < t' → acked wn' (created w') (msgs w') v t i → is_Some (created w' !! (i, t)) →
          holds rf' i t ∨ blocked w' wn' i t)) →
  (∀ x, x ∈ requests (cl w') → x ∈ requests (cl w) ∨
     0 < rv_Term x.2 ∧ ∃ p rf', rv_CandidateId x.2 = Z.of_nat p ∧ nodes (cl w') !! p = Some rf' ∧
      rv_Term x.2 <= currentTerm (raftState rf') ∧
      (currentTerm (raftState rf') = rv_Term x.2 → wn' !! rv_Term x.2 = None →
       rv_LastLogIndex x.2 = getLogLength rf' - 1 ∧ holds rf' (rv_LastLogIndex x.2) (rv_LastLogTerm x.2))) →
  voteInv w' wn'.
Proof.
  intros Hcinv [Ht0 Hv Hr] Ecr Hlog Nv Nr.
  assert (∀ p rf', nodes (cl w') !! p = Some rf' → ∃ rf, nodes (cl w) !! p = Some rf ∧
    currentTerm (raftState rf) <= currentTerm (raftState rf')) as Hback.
  { intros p rf' Hp'. destruct (lookup_lt_is_Some_2 (nodes (cl w)) p) as [rf Hp].
    { rewrite <- (ev_length _ _ _ _ Hev). by eapply lookup_lt_Some. }
    destruct (ev_term _ _ _ _ Hev _ _ Hp) as (r & ? & ? & _). exists rf. simplify_eq. auto. }
  assert (∀ t, wn' !! t = None → wn !! t = None) as Hwn.
  { intros t Ht. destruct (wn !! t) eqn:E; [|done].
    by rewrite (lookup_weaken _ _ _ _ E (ev_wins _ _ _ _ Hev)) in Ht. }
  constructor.
  - intros v t' x [?%Ht0|[? _]]%Nv; done.
  - intros v t' p rf' [Hin|[_ Hnew]]%Nv Hp'; [|by apply (Hnew p)].
    destruct (Hback _ _ Hp') as (rf & Hp & Hle). destruct (Hv v t' p rf Hin Hp) as [Ht Hold].
    split; [lia|]. intros Et Hnone i t Hlt Hack Hcr.
    assert (currentTerm (raftState rf) = t') as Eo by lia.
    assert (logSame rf rf') as Hs by (apply (Hlog p); [done..|lia|by rewrite Eo]).
    destruct (inv_votes _ Hcinv _ _ _ Hin) as (_ & rv & Hrv & Hle' & _).
    assert (acked wn (created w) (msgs w) v t i) as Hack0
      by (eapply (ev_acked _ _ _ _ Hev); [exact Hrv|lia|done]).
    destruct (Hold Eo (Hwn _ Hnone) i t Hlt Hack0) as [?|?]; [eapply Ecr; [exact Hrv|lia|done..]|..].
    + left. by apply (holds_logSame _ _ _ _ Hs).
    + right. by eapply blocked_mono.
  - intros to args [Hin|Hnew]%Nr; [|done]. destruct (Hr to args Hin) as (Hpos & p & rf & Ec & Hp & Hle & Hlast).
    destruct (ev_term _ _ _ _ Hev _ _ Hp) as (rf' & Hp' & Hmono & _). split; [done|]. exists p, rf'.
    split_and!; [done..|lia|]. intros Et Hnone.
    assert (currentTerm (raftState rf) = rv_Term args) as Eo by lia.
    assert (logSame rf rf') as Hs by (apply (Hlog p); [done..|lia|by rewrite Eo]).
    destruct (Hlast Eo (Hwn _ Hnone)) as [E1 E2]. rewrite (logSame_length _ _ Hs). split; [done|].
    by apply (holds_logSame _ _ _ _ Hs).
Qed.
End survives.
End invariant.
