(* ===== verification/RaftSteps.v ===== *)
(** * RaftSteps: the invariant along the quiet steps of a cluster

    The runs for which the replicated log is safe, what a change of one node
    keeps of the invariant of RaftInvariant, and the critical sections that
    neither vote nor replicate.

    The runs take no snapshots, start no election on a leader, and count for a
    commit, write a commit index and handle heartbeat replies only while the peer
    leads the term in question: the source does none of these checks
    ([snapshot_amnesia_two_leaders], [election_race_two_leaders],
    [commit_scan_crash], [stale_heartbeat_commits] show the consequences). *)

From S2P Require Import Prelude Labgob Persister RaftState RaftRpc RaftLeader RaftPeer RaftCluster RaftLinks RaftReplication RaftChains RaftQuorums RaftInvariant.
Local Open Scope Z_scope.

Section steps.
Context {C SV : Type}.
Implicit Types (c : Cluster C SV) (rf r : Raft C SV) (cr : History C) (w : World C SV) (ms : Msgs C SV).
Implicit Types (wn : Wins) (v p q : nat) (i t u : Z).

Definition sbenign (l : rlabel C SV) w : Prop :=
  match l with
  | RCluster (LNode _ (OpSnapshot _ _)) => False
  | RCluster l => benign l (cl w)
  | RScanCount k =>
      ∀ p term i rf, scans (msgs w) !! k = Some (p, term, i) → nodes (cl w) !! p = Some rf →
        stillLeader rf term = true
  | RScanWrite k =>
      ∀ p term i n rf, counts (msgs w) !! k = Some (p, term, i, n) → nodes (cl w) !! p = Some rf →
        stillLeader rf term = true
  | RAppendReply k =>
      ∀ m reply rf, appendReplies (msgs w) !! k = Some (m, reply) → am_beat m = true →
        nodes (cl w) !! am_from m = Some rf → stillLeader rf (ae_Term (am_args m)) = true
  | _ => True
  end.

Inductive sbenignRun : World C SV → World C SV → Prop :=
  | sbenign_refl w : sbenignRun w w
  | sbenign_step w1 w2 w3 l :
      sbenign l w1 → rstep l w1 = Some w2 → sbenignRun w2 w3 → sbenignRun w1 w3.

(** ** A change of one node *)

Lemma acked_replies wn cr ms ms' v t i :
  appendReplies ms' = appendReplies ms → acked wn cr ms' v t i ↔ acked wn cr ms v t i.
Proof. unfold acked. by intros ->. Qed.

Section change.
Context (c c' : Cluster C SV) (ms ms' : Msgs C SV) (cr cr' : History C) (wn wn' : Wins).
Context (p : nat) (rf rf' : Raft C SV).
Context (Hp : nodes c !! p = Some rf) (Hn : nodes c' = <[p := rf']> (nodes c)).

Lemma evolves_set :
  (∀ x, x ∈ votes c → x ∈ votes c') →
  currentTerm (raftState rf) <= currentTerm (raftState rf') →
  (state (raftState rf) = leaderState → currentTerm (raftState rf') = currentTerm (raftState rf) →
     state (raftState rf') = leaderState ∨ ∀ e, e ∈ elections c' → el_owner e ≠ p) →
  (∀ e, e ∈ elections c' →
     (∃ e0, e0 ∈ elections c ∧ el_owner e0 = el_owner e ∧ el_term e0 = el_term e) ∨
     el_owner e = p ∧ currentTerm (raftState rf) < el_term e) →
  cr ⊆ cr' → wn ⊆ wn' →
  (∀ x, x ∈ appendReplies ms → x ∈ appendReplies ms') →
  (∀ v r t i, nodes c !! v = Some r → t < currentTerm (raftState r) →
     acked wn' cr' ms' v t i → acked wn cr ms v t i) →
  evolves (mkWorld c ms cr) wn (mkWorld c' ms' cr') wn'.
Proof.
  intros Hv Ht Hrole Hel Hcr Hwn Hrep Hack. constructor; cbn; try done.
  - rewrite Hn. apply length_insert.
  - intros q r Hq. rewrite Hn. destruct (decide (q = p)) as [->|Hne].
    + simplify_eq. exists rf'. by rewrite list_lookup_insert_eq by (by eapply lookup_lt_Some).
    + exists r. rewrite list_lookup_insert_ne by done. split_and!; [done|lia|by left].
  - intros e [?|[Ho Hlt]]%Hel; [by left|right]. exists rf. by rewrite Ho.
Qed.

Lemma oldLeaders_set :
  (state (raftState rf') = leaderState →
     state (raftState rf) = leaderState ∧ currentTerm (raftState rf') = currentTerm (raftState rf) ∨
     ¬ decided c p (currentTerm (raftState rf'))) →
  oldLeaders (mkWorld c ms cr) (mkWorld c' ms' cr').
Proof.
  intros Hl q r Hq Hs. cbn in *. rewrite Hn in Hq.
  destruct (nodes_update c p rf rf' q r Hp Hq) as [[-> ->]|[_ Hq']].
  - destruct (Hl Hs) as [[??]|?]; [left; by exists rf|by right].
  - left. by exists r.
Qed.

(** All nodes, when [p] changes. *)
Lemma nodes_set :
  evolves (mkWorld c ms cr) wn (mkWorld c' ms' cr') wn' →
  (∀ q r, nodes c !! q = Some r → nodeInv (mkWorld c ms cr) wn q r) →
  (∀ q t i, q ≠ p → acked wn' cr' ms' q t i → is_Some (cr' !! (i, t)) →
     acked wn cr ms q t i ∧ is_Some (cr !! (i, t))) →
  (∀ q r i, q ≠ p → nodes c !! q = Some r → state (raftState r) = leaderState →
     is_Some (cr' !! (i, currentTerm (raftState r))) → is_Some (cr !! (i, currentTerm (raftState r)))) →
  (∀ q, q ≠ p → mains c' !! q = mains c !! q) →
  (∀ e, e ∈ elections c' → el_owner e ≠ p →
     ∃ e0, e0 ∈ elections c ∧ el_owner e0 = el_owner e ∧ el_term e0 = el_term e) →
  nodeInv (mkWorld c' ms' cr') wn' p rf' →
  ∀ q r, nodes c' !! q = Some r → nodeInv (mkWorld c' ms' cr') wn' q r.
Proof.
  intros Hev Hinv Hack Hcr Hm Hel Hnew q r Hq. pose proof Hq as Hq'. rewrite Hn in Hq'.
  destruct (nodes_update c p rf rf' q r Hp Hq') as [[-> ->]|[Hne Hqc]]; [done|].
  eapply nodeInv_other; cbn; [done|by apply Hinv|done|..].
  - intros t i ??. left. by apply Hack.
  - intros Hs i. by apply (Hcr q).
  - by apply Hm.
  - intros e He Ho. destruct (Hel e He ltac:(congruence)) as (e0 & ? & ? & ?).
    exists e0. split_and!; [done|congruence..].
Qed.
End change.

Lemma evolves_role c ms ms' cr wn p rf rf' :
  nodes c !! p = Some rf → voteStep rf rf' → roleStep rf rf' → appendReplies ms' = appendReplies ms →
  evolves (mkWorld c ms cr) wn (mkWorld (setNode c p rf') ms' cr) wn.
Proof.
  intros Hp Hv [Hr _] Hrep. eapply (evolves_set c _ ms ms' cr cr wn wn p rf rf'); cbn; try done.
  - by destruct (voteStep_termVote _ _ Hv).
  - intros ??. left. auto.
  - intros e He. left. by exists e.
  - by rewrite Hrep.
  - intros v r t i _ _. by apply acked_replies.
Qed.

(** A calm change of [p] that neither gives nor asks for votes. *)
Lemma sinv_calm c c' ms ms' cr wn p rf rf' :
  sinv (mkWorld c ms cr) wn → rinv (mkWorld c' ms' cr) →
  nodes c !! p = Some rf → nodes c' = <[p := rf']> (nodes c) →
  calmNode (mkWorld c ms cr) (mkWorld c' ms' cr) wn p rf rf' →
  (state (raftState rf) = leaderState → currentTerm (raftState rf') = currentTerm (raftState rf) →
     state (raftState rf') = leaderState ∨ ∀ e, e ∈ elections c' → el_owner e ≠ p) →
  (∀ e, e ∈ elections c' → ∃ e0, e0 ∈ elections c ∧ el_owner e0 = el_owner e ∧ el_term e0 = el_term e) →
  (∀ q, q ≠ p → mains c' !! q = mains c !! q) →
  (inLeaderMain (mkWorld c' ms' cr) p = true → state (raftState rf') = leaderState ∨
     ∀ e, e ∈ elections c' → el_owner e = p → el_term e < currentTerm (raftState rf')) →
  votes c' = votes c → requests c' = requests c →
  (∀ x, x ∈ appendReplies ms → x ∈ appendReplies ms') →
  (∀ v t i, acked wn cr ms' v t i → acked wn cr ms v t i) →
  newMsgs (mkWorld c ms cr) (mkWorld c' ms' cr) wn →
  sinv (mkWorld c' ms' cr) wn.
Proof.
  intros (Hri & Hno & Hgh & Hms & Hvo) Hri' Hp Hn Hcalm Hrole Hel Hmq Hmp Hv Hrq Hrep Hack Hnew.
  assert (evolves (mkWorld c ms cr) wn (mkWorld c' ms' cr) wn) as Hev.
  { eapply (evolves_set c c' ms ms' cr cr wn wn p rf rf'); try done.
    - by rewrite Hv.
    - apply Hcalm.
    - intros e He. left. by apply Hel.
    - intros v r t i _ _. apply Hack. }
  split; [done|]. split.
  { eapply (nodes_set c c' ms ms' cr cr wn wn p rf rf'); try done.
    - intros q t i _ ??. auto.
    - intros e He _. by apply Hel.
    - eapply nodeInv_calm; [done|by apply Hno|done| |done].
      intros t i Ha Hi. left. split; [by apply Hack|done]. }
  split; [by eapply ghostInv_calm|]. split.
  - eapply msgInv_mono; try done. eapply (oldLeaders_set c c' ms ms' cr cr p rf rf'); [done..|].
    intros (? & ? & _)%(cn_leader _ _ _ _ _ _ Hcalm). by left.
  - eapply voteInv_mono; try done; cbn; [by destruct Hri| |by rewrite Hv; auto|by rewrite Hrq; auto].
    intros q r r' Hq Hq' Et _. rewrite Hn in Hq'.
    destruct (nodes_update c p rf rf' q r' Hp Hq') as [[-> ->]|[_ Hqc]]; simplify_eq; [apply Hcalm|done].
Qed.

(** ** Critical sections of a peer *)

Lemma exec_durable op rf rf' :
  raft_wf rf → durable rf → savesSnapshot op = false → op ≠ OpRestart → exec op rf = Ret rf' → durable rf'.
Proof.
  intros Hwf Hd Hs Hop H. destruct (exec_facts rf op rf' Hwf H Hop) as (_ & _ & [Hsv|[Hsv _]]); [|congruence].
  by eapply saves_durable.
Qed.

Lemma voteStep_leader rf rf' :
  voteStep rf rf' → state (raftState rf') = leaderState →
  state (raftState rf) = leaderState ∧ currentTerm (raftState rf') = currentTerm (raftState rf).
Proof. intros [Et _ Hs|_ _ Hf] Hl; [auto|congruence]. Qed.

(** A step that leaves histories, log and commit index alone. *)
Lemma calmNode_intro w w' wn p rf rf' :
  created w' = created w → logSame rf rf' → commitIndex rf' = commitIndex rf → voteStep rf rf' → durable rf' →
  (mains (cl w') !! p = Some (Some LeaderIndexed) → mains (cl w) !! p = Some (Some LeaderIndexed)) →
  (state (raftState rf) = leaderState → currentTerm (raftState rf') = currentTerm (raftState rf) →
   state (raftState rf') = leaderState →
   leaderInitDone rf' = leaderInitDone rf ∧
   (∀ v mi, matchIndex rf' !! v = Some mi → matchIndex rf !! v = Some mi ∨
      mi < getLogLength rf' ∧
        ∀ i, i <= mi → is_Some (created w' !! (i, currentTerm (raftState rf))) →
          acked wn (created w') (msgs w') v (currentTerm (raftState rf)) i)) →
  calmNode w w' wn p rf rf'.
Proof.
  intros Ecr Hlog Hci Hv Hd Hmn Hm. constructor; try done; [by left|by destruct (voteStep_termVote _ _ Hv)|].
  intros Hs. destruct (voteStep_leader _ _ Hv Hs) as [Hl Et]. destruct (Hm Hl Et Hs) as [H1 H2].
  split_and!; try done; [by rewrite H1| |by rewrite Ecr].
  intros Hi v mi Hmi. destruct (H2 v mi Hmi) as [?|?]; [left|by right]. split; [|done].
  destruct Hi as [Hi|Hi]; [left; congruence|right; auto].
Qed.

Lemma rinv_wf w p rf : rinv w → nodes (cl w) !! p = Some rf → raft_wf rf ∧ linkedLog (created w) rf.
Proof.
  intros (Hc & Hok & _) Hp. destruct (inv_node _ Hc _ _ Hp) as (Hwf & _). split; [done|].
  by apply (no_log _ _ Hok p).
Qed.

(** Who runs [leaderMain] leads, or all its elections are of older terms. *)
Lemma main_keep w wn p rf rf' :
  rinv w → nodeInv w wn p rf → nodes (cl w) !! p = Some rf → voteStep rf rf' → roleStep rf rf' →
  inLeaderMain w p = true →
  state (raftState rf') = leaderState ∨
  ∀ e, e ∈ elections (cl w) → el_owner e = p → el_term e < currentTerm (raftState rf').
Proof.
  intros (Hc & _) Hn Hp Hv [Hr _] Hm. destruct (voteStep_termVote _ _ Hv) as [Ht _].
  destruct (decide (currentTerm (raftState rf') = currentTerm (raftState rf))) as [E|Hne].
  - destruct (ni_main _ _ _ _ Hn Hm) as [Hl|Hlt]; [left; auto|right].
    intros e He Ho. specialize (Hlt e He Ho). lia.
  - right. intros e He Ho. destruct (inv_elections _ Hc _ He) as ((r & Hr' & Hle) & _).
    rewrite Ho in Hr'. simplify_eq. lia.
Qed.

(** The common case: only the node of [p] and the messages change. *)
Lemma sinv_local c ms ms' cr wn p rf rf' :
  sinv (mkWorld c ms cr) wn → rinv (mkWorld (setNode c p rf') ms' cr) → nodes c !! p = Some rf →
  calmNode (mkWorld c ms cr) (mkWorld (setNode c p rf') ms' cr) wn p rf rf' →
  voteStep rf rf' → roleStep rf rf' →
  (∀ x, x ∈ appendReplies ms → x ∈ appendReplies ms') →
  (∀ v t i, acked wn cr ms' v t i → acked wn cr ms v t i) →
  newMsgs (mkWorld c ms cr) (mkWorld (setNode c p rf') ms' cr) wn →
  sinv (mkWorld (setNode c p rf') ms' cr) wn.
Proof.
  intros Hs Hri' Hp Hcalm Hv Hrole Hrep Hack Hnew. pose proof Hs as (Hri & Hno & _).
  apply (sinv_calm c _ ms ms' cr wn p rf rf'); cbn; try done.
  - intros ??. left. by apply Hrole.
  - intros e He. by exists e.
  - by apply (main_keep (mkWorld c ms cr) wn p rf rf' Hri (Hno p rf Hp) Hp Hv Hrole).
Qed.

Lemma insert_same {A} (l : list A) p x : l !! p = Some x → l = <[p := x]> l.
Proof. intros H. by rewrite list_insert_id. Qed.

Lemma calmNode_refl w w' wn p rf :
  created w' = created w → durable rf →
  (mains (cl w') !! p = Some (Some LeaderIndexed) → mains (cl w) !! p = Some (Some LeaderIndexed)) →
  calmNode w w' wn p rf rf.
Proof.
  intros E Hd Hm. apply calmNode_intro; try done; [by apply voteStep_refl|].
  intros _ _ _. split; [done|]. intros v mi ?. by left.
Qed.

(** Only messages change. *)
Lemma sinv_msgs c ms ms' cr wn p rf :
  sinv (mkWorld c ms cr) wn → rinv (mkWorld c ms' cr) → nodes c !! p = Some rf →
  appendReplies ms' = appendReplies ms → newMsgs (mkWorld c ms cr) (mkWorld c ms' cr) wn →
  sinv (mkWorld c ms' cr) wn.
Proof.
  intros Hs Hri' Hp Hrep Hnew. pose proof Hs as (Hri & Hno & _). pose proof (Hno p rf Hp) as Hn.
  apply (sinv_calm c c ms ms' cr wn p rf rf); try done.
  - by apply insert_same.
  - apply calmNode_refl; [done|apply Hn|done].
  - intros ??. by left.
  - intros e He. by exists e.
  - apply (ni_main _ _ _ _ Hn).
  - by rewrite Hrep.
  - intros v t i. by apply acked_replies.
Qed.

(** Critical sections that leave the indices of the peers alone. *)
Lemma internal_calmNode w w' wn p rf op rf' :
  raft_wf rf → durable rf → created w' = created w → kept (LNode p op) = true → savesSnapshot op = false →
  (mains (cl w') !! p = Some (Some LeaderIndexed) → mains (cl w) !! p = Some (Some LeaderIndexed)) →
  exec op rf = Ret rf' → voteStep rf rf' → calmNode w w' wn p rf rf'.
Proof.
  intros Hwf Hd Ecr Hk Hsn Hm H Hv. assert (internalOp op = true) as Hop by (by destruct op).
  pose proof (internal_still op rf rf' Hop H) as [Hs _].
  assert (durable rf') as Hd' by (apply (exec_durable op rf); [done|done|done|by destruct op|done]).
  assert (commitIndex rf' = commitIndex rf ∧ leaderInitDone rf' = leaderInitDone rf ∧
          matchIndex rf' = matchIndex rf) as (E1 & E2 & E3)
    by (destruct op; cbn [exec] in H; try done; unfold applyCheck, followerTick in H; go_inv; by try case_match).
  apply calmNode_intro; try done. intros _ _ _. rewrite E2, E3. split; [done|]. intros v mi ?. by left.
Qed.

(** The initialisation of the indices: nobody is said to have an entry. *)
Lemma leaderInit_calmNode w w' wn p rf :
  raft_wf rf → orderly (created w) → whole rf → durable rf → created w' = created w →
  calmNode w w' wn p rf (leaderInit rf).
Proof.
  intros Hwf Ho Hw Hd Ecr. constructor; [done|by left|cbn; lia|..].
  - by apply (exec_durable OpLeaderInit rf).
  - intros Hl. cbn. split_and!; try done; [|by rewrite Ecr]. intros _ v mi Hmi. right.
    apply lookup_replicate in Hmi as [-> _]. pose proof (wf_log _ Hwf). split.
    { unfold leaderInit, getLogLength. raft_cbn. destruct Hw. lia. }
    intros i Hi [[u x] Hx]. rewrite Ecr in Hx. apply Ho in Hx. lia.
Qed.

(** The flag, once they are initialised. *)
Lemma leaderReady_calmNode w w' wn p rf :
  raft_wf rf → durable rf → created w' = created w →
  mains (cl w) !! p = Some (Some LeaderIndexed) → calmNode w w' wn p rf (leaderReady rf).
Proof.
  intros Hwf Hd Ecr Hm. constructor; [done|by left|cbn; lia|..].
  - by apply (exec_durable OpLeaderReady rf).
  - intros Hl. cbn. split_and!; try done; [|by rewrite Ecr]. intros _ v mi Hmi. left. split; [by right|done].
Qed.

(** *** The commit scan *)

(** The positions of the elements that satisfy [P]. *)
Lemma positions_of {A} (P : A → Prop) `{∀ x, Decision (P x)} (l : list A) :
  ∃ Q, NoDup Q ∧ length Q = length (filter P l) ∧ ∀ v, v ∈ Q → ∃ x, l !! v = Some x ∧ P x.
Proof.
  induction l as [|x l (Q & Hnd & Hlen & HQ)].
  { exists []. split_and!; [constructor|done|set_solver]. }
  assert (NoDup (S <$> Q)) as HndS by (by apply NoDup_fmap_2; [apply _|]).
  rewrite filter_cons. destruct (decide (P x)) as [Hx|Hx].
  - exists (0%nat :: (S <$> Q)). split_and!.
    + apply NoDup_cons. split; [|done]. by intros (? & ? & _)%list_elem_of_fmap.
    + cbn. by rewrite length_fmap, Hlen.
    + intros v [->|(v' & -> & Hv)%list_elem_of_fmap]%elem_of_cons; [by exists x|by apply HQ].
  - exists (S <$> Q). split_and!; [done|by rewrite length_fmap|].
    intros v (v' & -> & Hv)%list_elem_of_fmap. by apply HQ.
Qed.

(** A majority in a count is a majority of peers. *)
Lemma scanCount_majority rf i n :
  scanCount rf i = Ret n → Z.of_nat (peers rf) < 2 * n →
  ∃ Q, NoDup Q ∧ (peers rf < 2 * length Q)%nat ∧
    ∀ v, v ∈ Q → (v < peers rf)%nat ∧ ∃ mi, matchIndex rf !! v = Some mi ∧ i <= mi.
Proof.
  intros Hn%countMatch_spec Hmaj. subst n.
  destruct (positions_of (λ m, i <= m) (take (peers rf) (matchIndex rf))) as (Q & Hnd & Hlen & HQ).
  exists Q. split_and!; [done|lia|]. intros v Hv. destruct (HQ v Hv) as (mi & Hmi & Hle).
  apply lookup_take_Some in Hmi as [Hmi Hlt]. split; [done|]. by exists mi.
Qed.

Lemma commitWrite_effect rf i n rf' :
  commitWrite rf i n = Ret rf' →
  raftState rf' = raftState rf ∧ matchIndex rf' = matchIndex rf ∧ leaderInitDone rf' = leaderInitDone rf ∧
  (commitIndex rf' = commitIndex rf ∨ commitIndex rf' = i ∧ Z.of_nat (peers rf) < 2 * n).
Proof.
  unfold commitWrite, notifyApply. intros H.
  destruct ((_ <? _) && _) eqn:E; [|by injection H as <-; split_and!; auto].
  destruct (_ <? 500); [|done]. injection H as <-. split_and!; try done. right. split; [done|].
  apply andb_true_iff in E as [E%Z.ltb_lt%majority_lt _]. done.
Qed.

Lemma scan_committed w wn p rf i n :
  rinv w → nodeInv w wn p rf → nodes (cl w) !! p = Some rf → state (raftState rf) = leaderState →
  is_Some (created w !! (i, currentTerm (raftState rf))) → scanCount rf i = Ret n →
  Z.of_nat (length (nodes (cl w))) < 2 * n → committed w wn i (currentTerm (raftState rf)).
Proof.
  intros (Hc & _) Hn Hp Hl Hcr Hcount Hmaj. destruct (inv_node _ Hc _ _ Hp) as (_ & _ & Hpeers).
  destruct (scanCount_majority rf i n) as (Q & Hnd & HQ & Hm); [done|lia|].
  split; [done|]. exists Q. split.
  - split_and!; [done| |by rewrite <- Hpeers]. intros v Hv. rewrite <- Hpeers. by apply Hm.
  - intros v Hv. destruct (Hm v Hv) as (_ & mi & Hmi & Hle).
    destruct (leaderInitDone rf) eqn:E.
    + destruct (ni_match _ _ _ _ Hn Hl (or_introl E) v mi Hmi) as [_ Hack]. by apply Hack.
    + rewrite (ni_init _ _ _ _ Hn Hl E i) in Hcr. by destruct Hcr.
Qed.

Lemma sinv_node c ms cr wn p op w' :
  sinv (mkWorld c ms cr) wn → sbenign (RCluster (LNode p op)) (mkWorld c ms cr) →
  rinv w' → rstep (RCluster (LNode p op)) (mkWorld c ms cr) = Some w' → sinv w' wn.
Proof.
  intros Hs Hb Hri' H. cbn -[exec nonVoting kept] in H. destruct (kept (LNode p op)) eqn:Hk; [|done].
  apply bind_Some in H as (c' & H & [= <-]). apply bind_Some in H as (rf & Hp & H).
  destruct (nonVoting op) eqn:Hnv; [|done].
  destruct (exec op rf) as [rf'| | |] eqn:E; cbn in H; try done. injection H as <-.
  assert (internalOp op = true ∧ savesSnapshot op = false) as [Hi Hsn] by (by destruct op).
  pose proof Hs as (Hri & Hno & Hgh & _). destruct (rinv_wf _ _ _ Hri Hp) as [Hwf Hlink].
  pose proof (Hno p rf Hp) as Hn. destruct (exec_voteStep op rf rf' Hwf Hnv E) as (_ & Hv & _).
  destruct (internal_still op rf rf' Hi E) as [Hlog Hrole].
  apply (sinv_local c ms ms cr wn p rf rf'); try done; [|by apply newMsgs_same].
  eapply (internal_calmNode _ _ _ _ _ op); try done. apply Hn.
Qed.

(** [scanTerm]: the entry of the log was created. *)
Lemma sinv_scanTerm c ms cr wn p term i w' :
  sinv (mkWorld c ms cr) wn → rinv w' → rstep (RScanTerm p term i) (mkWorld c ms cr) = Some w' → sinv w' wn.
Proof.
  intros Hs Hri' H. cbn -[scanTerm] in H. apply bind_Some in H as (rf & Hp & H).
  destruct (scanTerm rf term i) as [[j b]| | |] eqn:E; cbn in H; try done. injection H as <-.
  pose proof Hs as (Hri & Hno & _). destruct (rinv_wf _ _ _ Hri Hp) as [Hwf Hlink].
  apply (sinv_msgs c ms _ cr wn p rf); try done; destruct b; try done; [|by apply newMsgs_same].
  constructor; cbn; auto. intros q t j' [[= -> -> ->]|?]%elem_of_cons; [right|by left].
  unfold scanTerm in E. destruct (Z.leb_spec i (lastIncludedIndex rf)); [done|].
  apply bind_Ret in E as (t & Ht & [= _ ->%Z.eqb_eq]).
  destruct (ni_whole _ _ _ _ (Hno p rf Hp)) as [Hi0 _]. split; [lia|].
  destruct (getTermOfLog_entry _ _ _ Ht) as (e & Hg & Ee); [lia|].
  destruct (linkedLog_getLog _ _ _ _ Hwf Hlink Hg) as (u & _ & Hc). cbn in Hc. rewrite Ee in Hc. by eexists.
Qed.

Lemma elem_of_delete {A} (l : list A) k x : x ∈ delete k l → x ∈ l.
Proof. intros H. eapply elem_of_sublist; [done|]. apply sublist_delete. Qed.

(** [scanCount]: what a majority has is committed. *)
Lemma sinv_scanCount c ms cr wn k w' :
  sinv (mkWorld c ms cr) wn → sbenign (RScanCount k) (mkWorld c ms cr) →
  rinv w' → rstep (RScanCount k) (mkWorld c ms cr) = Some w' → sinv w' wn.
Proof.
  intros Hs Hb Hri' H. cbn -[scanCount] in H. apply bind_Some in H as ([[p term] i] & Hk & H).
  apply bind_Some in H as (rf & Hp & H).
  destruct (scanCount rf i) as [n| | |] eqn:E; cbn in H; try done. injection H as <-.
  specialize (Hb p term i rf Hk Hp). apply andb_true_iff in Hb as [<-%Z.eqb_eq Hst%bool_decide_eq_true].
  pose proof Hs as (Hri & Hno & _ & Hms & _).
  apply (sinv_msgs c ms _ cr wn p rf); try done. constructor; cbn; auto.
  - intros q t j Hin%elem_of_delete. by left.
  - intros q t j m [[= -> -> -> ->]|?]%elem_of_cons; [right|by left].
    apply list_elem_of_lookup_2 in Hk. destruct (mi_scan _ _ Hms _ _ _ Hk) as [Hpos Hcr].
    split_and!; [done..|]. intros Hmaj.
    destruct (scan_committed _ wn p rf i n Hri (Hno p rf Hp) Hp Hst Hcr E Hmaj) as [? Hq]. split; [done|].
    destruct Hq as (Q & HQ & Hack). exists Q. split; [done|]. intros v Hv. by apply (acked_replies wn cr ms), Hack.
Qed.

(** [commitWrite]: the leader has what it commits. *)
Lemma sinv_scanWrite c ms cr wn k w' :
  sinv (mkWorld c ms cr) wn → sbenign (RScanWrite k) (mkWorld c ms cr) →
  rinv w' → rstep (RScanWrite k) (mkWorld c ms cr) = Some w' → sinv w' wn.
Proof.
  intros Hs Hb Hri' H. cbn -[commitWrite] in H. apply bind_Some in H as ([[[p term] i] n] & Hk & H).
  apply bind_Some in H as (rf & Hp & H).
  destruct (commitWrite rf i n) as [rf'| | |] eqn:E; cbn in H; try done. injection H as <-.
  specialize (Hb p term i n rf Hk Hp). apply andb_true_iff in Hb as [<-%Z.eqb_eq Hst%bool_decide_eq_true].
  pose proof Hs as (Hri & Hno & Hgh & Hms & _). destruct (rinv_wf _ _ _ Hri Hp) as [Hwf Hlink].
  pose proof (Hno p rf Hp) as Hn.
  destruct (exec_voteStep (OpCommitWrite i n) rf rf' Hwf eq_refl E) as (_ & Hv & _).
  destruct (internal_still (OpCommitWrite i n) rf rf' eq_refl E) as [Hlog Hrole].
  destruct (commitWrite_effect _ _ _ _ E) as (Ers & Em & Ed & Hci).
  apply list_elem_of_lookup_2 in Hk. destruct (mi_count _ _ Hms _ _ _ _ Hk) as (Hpos & Hcr & Hco).
  assert (∀ x, x ∈ delete k (counts ms) → x ∈ counts ms) as Hdel by (intros x; apply elem_of_delete).
  set (ms' := setScans _ _ _) in *.
  apply (sinv_local c ms ms' cr wn p rf rf'); try done; [|by constructor; cbn; auto].
  pose proof (evolves_role c ms ms' cr wn p rf rf' Hp Hv Hrole eq_refl) as Hev.
  constructor; try done.
  - destruct Hci as [?|[-> Hmaj]]; [by left|right].
    destruct Hri as (Hc & _). destruct (inv_node _ Hc _ _ Hp) as (_ & _ & Hpeers). cbn in Hpeers, Hco, Hcr.
    rewrite Hpeers in Hmaj. specialize (Hco Hmaj).
    destruct (ni_leader _ _ _ _ Hn Hst) as (b & s & _ & _ & Hown & _).
    pose proof (Hown i Hcr) as Hh. pose proof (holds_range _ _ _ Hh) as Hr. rewrite (logSame_length _ _ Hlog).
    destruct (holds_some rf (getLogLength rf - 1)) as [lt Hlt]; [apply Hn|destruct (ni_whole _ _ _ _ Hn); lia|].
    exists (currentTerm (raftState rf)), lt. split_and!; [by apply (holds_logSame _ _ _ _ Hlog)..|].
    right. exists i, (currentTerm (raftState rf)). split_and!; [by eapply committed_mono| |constructor].
    eapply onChain_term; [apply Hgh|].
    eapply (holds_onChain _ rf); try done; [apply Hn|lia].
  - rewrite Ers. lia.
  - by eapply (exec_durable (OpCommitWrite i n)); [|apply Hn|..].
  - rewrite Ers, Em, Ed. intros _. split_and!; try done. intros Hi v mi ?. left. split; [|done].
    destruct Hi as [Hi|Hi]; [left; congruence|by right].
Qed.

(** ** Steps of the main loop *)

Lemma sinv_main c ms cr wn p w' :
  sinv (mkWorld c ms cr) wn → rinv w' → rstep (RCluster (LMain p)) (mkWorld c ms cr) = Some w' → sinv w' wn.
Proof.
  intros Hs Hri' H. cbn in H. apply bind_Some in H as (c' & H & [= <-]).
  apply bind_Some in H as (rf & Hp & [= <-]). pose proof Hs as (Hri & Hno & _).
  pose proof (Hno p rf Hp) as Hn.
  apply (sinv_calm c _ ms ms cr wn p rf rf); cbn; try done.
  - by apply insert_same.
  - apply calmNode_refl; [done|apply Hn|]. cbn. intros Hm.
    apply list_lookup_insert_Some in Hm as [(_ & Hm & _)|[? _]]; [|done].
    unfold mainLoop in Hm. destruct (killed rf); [done|]. by destruct (state (raftState rf)).
  - intros ??. by left.
  - intros e He. by exists e.
  - intros q Hne. by rewrite list_lookup_insert_ne.
  - unfold inLeaderMain. cbn. destruct (<[p := _]> _ !! p) as [[b|]|] eqn:Hm; try done.
    apply list_lookup_insert_Some in Hm as [(_ & Hm & _)|[? _]]; [|done]. intros Hb.
    left. unfold mainLoop in Hm. destruct (killed rf); [done|].
    destruct (state (raftState rf)); injection Hm as <-; done.
  - by apply newMsgs_same.
Qed.

(** [leaderMain] goes on. *)
Lemma sinv_leaderMain c ms cr wn p rf rf' b b' :
  sinv (mkWorld c ms cr) wn → nodes c !! p = Some rf → mains c !! p = Some (Some b) →
  (b = RunLeader ∧ rf' = leaderInit rf ∨ b = LeaderIndexed ∧ rf' = leaderReady rf) →
  rinv (mkWorld (setMain (setNode c p rf') p (Some b')) ms cr) →
  sinv (mkWorld (setMain (setNode c p rf') p (Some b')) ms cr) wn.
Proof.
  intros Hs Hp Hm Hcase Hri'. pose proof Hs as (Hri & Hno & Hgh & _). pose proof (Hno p rf Hp) as Hn.
  destruct (rinv_wf _ _ _ Hri Hp) as [Hwf _].
  assert (raftState rf' = raftState rf) as Ers by (by destruct Hcase as [[_ ->]|[_ ->]]).
  apply (sinv_calm c _ ms ms cr wn p rf rf'); cbn; try done.
  - destruct Hcase as [[-> ->]|[-> ->]].
    + apply leaderInit_calmNode; try done; [apply Hgh|apply Hn|apply Hn].
    + apply leaderReady_calmNode; try done. apply Hn.
  - rewrite Ers. intros ??. by left.
  - intros e He. by exists e.
  - intros q Hne. by rewrite list_lookup_insert_ne.
  - intros _. rewrite Ers. apply (ni_main _ _ _ _ Hn). unfold inLeaderMain. cbn. rewrite Hm.
    by destruct Hcase as [[-> _]|[-> _]].
  - by apply newMsgs_same.
Qed.

Lemma sinv_leaderInit c ms cr wn p w' :
  sinv (mkWorld c ms cr) wn → rinv w' → rstep (RLeaderInit p) (mkWorld c ms cr) = Some w' → sinv w' wn.
Proof.
  intros Hs Hri' H. cbn in H. apply bind_Some in H as (rf & Hp & H). apply bind_Some in H as (b & Hm & H).
  destruct b as [[]|]; try done. injection H as <-. eapply sinv_leaderMain; try done. by left.
Qed.

Lemma sinv_leaderReady c ms cr wn p w' :
  sinv (mkWorld c ms cr) wn → rinv w' → rstep (RLeaderReady p) (mkWorld c ms cr) = Some w' → sinv w' wn.
Proof.
  intros Hs Hri' H. cbn in H. apply bind_Some in H as (rf & Hp & H). apply bind_Some in H as (b & Hm & H).
  destruct b as [[]|]; try done. injection H as <-. eapply sinv_leaderMain; try done. by right.
Qed.

Lemma sinv_timeout c ms cr wn p w' :
  sinv (mkWorld c ms cr) wn → rinv w' → rstep (RTimeout p) (mkWorld c ms cr) = Some w' → sinv w' wn.
Proof.
  intros Hs Hri' H. cbn in H. apply bind_Some in H as (rf & Hp & H).
  apply bind_Some in H as (b & Hm & H). destruct b as [[]|]; try done. injection H as <-.
  pose proof Hs as (Hri & Hno & _). pose proof (Hno p rf Hp) as Hn.
  destruct (rinv_wf _ _ _ Hri Hp) as [Hwf _].
  destruct Hri as (_ & Hok & _). pose proof (no_mains _ _ Hok p rf Hp Hm) as Hst.
  apply (sinv_calm c _ ms ms cr wn p rf (followerTimeout rf)); cbn; try done.
  - apply calmNode_intro; try done; [by apply vs_same| |].
    + by apply (exec_durable OpTimeout rf); [|apply Hn|..].
    + cbn. by intros [? _]%main_reset.
  - congruence.
  - intros e He. by exists e.
  - intros q Hne. by rewrite list_lookup_insert_ne.
  - by erewrite inLeaderMain_reset.
  - by apply newMsgs_same.
Qed.

(** A vote request describes the log of the candidate. *)
Lemma sinv_sendVote c ms cr wn g to w' :
  sinv (mkWorld c ms cr) wn → rinv w' → rstep (RCluster (LSendVote g to)) (mkWorld c ms cr) = Some w' → sinv w' wn.
Proof.
  intros (Hri & Hno & Hgh & Hms & Hvo) Hri' H. cbn in H. apply bind_Some in H as (c' & H & [= <-]).
  apply bind_Some in H as (e & He & H). apply bind_Some in H as (rf & Hp & H).
  apply bind_Some in H as (args & Ha & H). case_decide; [|done]. injection H as <-.
  set (c' := mkCluster _ _ _ _ _ _). set (p := el_owner e) in *.
  assert (evolves (mkWorld c ms cr) wn (mkWorld c' ms cr) wn) as Hev.
  { eapply (evolves_set c c' ms ms cr cr wn wn p rf rf); cbn; try done; [by apply insert_same|by left|].
    intros x Hx. left. by exists x. }
  split; [done|]. split.
  { eapply (nodes_set c c' ms ms cr cr wn wn p rf rf); cbn; try done; [by apply insert_same|by intros x ? _; exists x|].
    eapply nodeInv_calm; [done|by apply Hno| | |].
    - apply calmNode_refl; [done| |done]. by apply (Hno p rf Hp).
    - intros t i ??. by left.
    - apply (ni_main _ _ _ _ (Hno p rf Hp)). }
  split; [by eapply ghostInv_calm|]. split.
  - eapply msgInv_mono; try done; [|by apply newMsgs_same]. intros q r Hq Hl. left. by exists r.
  - eapply voteInv_mono; try done; cbn; [by destruct Hri|by intros; simplify_eq|by auto|].
    intros x [->|Hx]%elem_of_cons; [right|by left]. cbn. destruct Hri as (Hc & _).
    destruct (inv_node _ Hc _ _ Hp) as (_ & Hme & _).
    destruct (inv_elections _ Hc e (list_elem_of_lookup_2 _ _ _ He)) as ((r & Hr & Hle) & Hself & _).
    cbn in Hr. fold p in Hr. simplify_eq. apply (vi_term _ _ Hvo) in Hself.
    unfold requestVoteArgs in Ha.
    destruct (getTermOfLog rf (getLogLength rf - 1)) as [t| | |] eqn:Et; cbn in Ha; try done.
    injection Ha as <-. cbn. split; [done|]. exists p, rf. split_and!; try done.
Qed.
End steps.
