(* ===== verification/RaftVotes.v ===== *)
(** * RaftVotes: the invariant along elections

    A candidate's vote for itself, the votes of its peers and the reply that
    makes it leader.  Who may win has what its voters acknowledged ([last_has]),
    so the winner has everything that can still be committed in an earlier
    term. *)

From S2P Require Import Prelude Labgob Persister RaftState RaftRpc RaftLeader RaftPeer RaftCluster RaftLinks RaftReplication RaftChains RaftQuorums RaftInvariant RaftSteps.
Local Open Scope Z_scope.

Section votes.
Context {C SV : Type}.
Implicit Types (c : Cluster C SV) (rf r : Raft C SV) (cr : History C) (w : World C SV) (ms : Msgs C SV).
Implicit Types (wn : Wins) (v p q : nat) (i t u : Z).

(** Of two created entries the one of the later term, or the higher one of the
    same term, has the other one below it unless that is blocked. *)
Lemma created_cmp w wn j u i t :
  ghostInv w wn → is_Some (created w !! (j, u)) → is_Some (created w !! (i, t)) →
  t < u ∨ t = u ∧ i <= j → onChain (created w) j u i t ∨ blocked w wn i t.
Proof.
  intros Hg Hj Hi [Hlt|[-> Hle]].
  - destruct (gi_created _ _ Hg _ _ Hj) as (p & b & s & Hb & Hch & _).
    destruct (gi_complete _ _ Hg u p b s i t Hb Hlt Hi) as [H|?]; [left|by right].
    by eapply onChain_trans.
  - left. by apply (gi_chain _ _ Hg).
Qed.

(** An entry of a log was created. *)
Lemma holds_created w wn p rf i t :
  sinv w wn → nodes (cl w) !! p = Some rf → holds rf i t → 0 < i → is_Some (created w !! (i, t)).
Proof.
  intros (Hri & Hno & _) Hp Hh Hi. destruct (rinv_wf _ _ _ Hri Hp) as [Hwf Hlink].
  destruct (getTermOfLog_entry _ _ _ Hh) as (e & Hg & Ee).
  { destruct (ni_whole _ _ _ _ (Hno p rf Hp)). lia. }
  destruct (linkedLog_getLog _ _ _ _ Hwf Hlink Hg) as (u & _ & Hc). rewrite Ee in Hc. by eexists.
Qed.

Lemma holds_chain w wn p rf j u i t :
  sinv w wn → nodes (cl w) !! p = Some rf → holds rf j u → holds rf i t → i <= j →
  onChain (created w) j u i t.
Proof.
  intros (Hri & Hno & _) Hp. destruct (rinv_wf _ _ _ Hri Hp). apply holds_onChain; try done.
  apply (Hno p rf Hp).
Qed.

Lemma chain_holds w wn p rf j u i t :
  sinv w wn → nodes (cl w) !! p = Some rf → holds rf j u → onChain (created w) j u i t → holds rf i t.
Proof.
  intros (Hri & Hno & Hgh & _) Hp. destruct (rinv_wf _ _ _ Hri Hp). apply onChain_holds; try done.
  - apply Hgh.
  - apply (Hno p rf Hp).
Qed.

Lemma holds_last w wn p rf :
  sinv w wn → nodes (cl w) !! p = Some rf → ∃ lt, holds rf (getLogLength rf - 1) lt ∧ 0 <= getLogLength rf - 1 ∧ 0 <= lt.
Proof.
  intros Hs Hp. pose proof Hs as (Hri & Hno & Hgh & _). destruct (rinv_wf _ _ _ Hri Hp) as [Hwf _].
  pose proof (ni_whole _ _ _ _ (Hno p rf Hp)) as Hw. pose proof (wf_log _ Hwf) as H1.
  assert (1 <= getLogLength rf) by (unfold getLogLength; destruct Hw; lia).
  destruct (holds_some rf (getLogLength rf - 1)) as [lt Hlt]; [done|lia|].
  exists lt. split; [done|]. split; [lia|].
  destruct (decide (getLogLength rf - 1 = 0)) as [E|].
  - rewrite E in Hlt. rewrite (holds_fun _ _ _ _ Hlt (holds_0 _ Hwf Hw)). lia.
  - destruct (holds_created _ _ _ _ _ _ Hs Hp Hlt) as [[u x] Hx]; [lia|].
    apply (gi_orderly _ _ Hgh) in Hx. lia.
Qed.

(** A log at least as up to date as one that holds (i, t) holds it too. *)
Lemma last_has w wn p q rfp rfq i t lp lq :
  sinv w wn → nodes (cl w) !! p = Some rfp → nodes (cl w) !! q = Some rfq →
  holds rfq i t → is_Some (created w !! (i, t)) →
  holds rfp (getLogLength rfp - 1) lp → holds rfq (getLogLength rfq - 1) lq →
  upToDate lp (getLogLength rfp - 1) lq (getLogLength rfq - 1) →
  holds rfp i t ∨ blocked w wn i t.
Proof.
  intros Hs Hp Hq Hi Hcr Hlp Hlq Hup. pose proof Hs as (Hri & Hno & Hgh & _).
  destruct Hcr as [[u x] Hx]. destruct (gi_orderly _ _ Hgh _ _ _ _ Hx) as [Hi1 Ht0].
  pose proof (holds_range _ _ _ Hi) as Hr.
  assert (t <= lq) as Htq.
  { eapply onChain_term; [apply Hgh|]. by eapply (holds_chain w wn q rfq); try done; lia. }
  unfold upToDate in Hup. destruct (rinv_wf _ _ _ Hri Hp) as [Hwf _].
  assert (0 < getLogLength rfp - 1) as Hpos.
  { destruct (holds_last _ _ _ _ Hs Hp) as (lp' & Hlp' & H0 & _).
    destruct (decide (getLogLength rfp - 1 = 0)) as [E|]; [|lia].
    rewrite E in Hlp. pose proof (ni_whole _ _ _ _ (Hno p rfp Hp)) as Hw.
    pose proof (holds_fun _ _ _ _ Hlp (holds_0 _ Hwf Hw)). lia. }
  destruct (created_cmp w wn (getLogLength rfp - 1) lp i t) as [Hch|?]; [done| |by eexists|lia| |by right].
  - by eapply (holds_created w wn p rfp).
  - left. by eapply (chain_holds w wn p rfp).
Qed.

(** ** A candidate votes for itself *)

Lemma sinv_elect c ms cr wn p w' :
  sinv (mkWorld c ms cr) wn → benign (LElect p) c → rinv w' →
  rstep (RCluster (LElect p)) (mkWorld c ms cr) = Some w' → sinv w' wn.
Proof.
  intros (Hri & Hno & Hgh & Hms & Hvo) Hb Hri' H. cbn in H. apply bind_Some in H as (c' & H & [= <-]).
  apply bind_Some in H as (rf & Hp & H). apply bind_Some in H as (b & Hm & H).
  destruct b as [[]|]; try done. injection H as <-. specialize (Hb rf Hp).
  set (c' := mkCluster _ _ _ _ _ _) in *. pose proof (Hno p rf Hp) as Hn.
  destruct (rinv_wf _ _ _ Hri Hp) as [Hwf _]. pose proof Hri as (Hc & _).
  destruct (inv_node _ Hc _ _ Hp) as (_ & Hme & _). pose proof (wf_term _ Hwf) as Ht0.
  assert (currentTerm (raftState (doElection rf)) = currentTerm (raftState rf) + 1) as Et by done.
  assert (evolves (mkWorld c ms cr) wn (mkWorld c' ms cr) wn) as Hev.
  { apply (evolves_set c c' ms ms cr cr wn wn p rf (doElection rf)); try done; [set_solver|lia|].
    intros e [->|He]%elem_of_cons; [right; split; [done|cbn; lia]|]. left. by exists e. }
  assert (nodeInv (mkWorld c' ms cr) wn p (doElection rf)) as Hn'.
  { eapply nodeInv_calm; [done|done| |by intros t i ??; left|by erewrite inLeaderMain_reset].
    constructor; try done; [by left|lia|apply persist_durable]. }
  split; [done|]. split.
  { eapply (nodes_set c c' ms ms cr cr wn wn p rf (doElection rf)); try done.
    - intros q Hne. cbn. by rewrite list_lookup_insert_ne.
    - intros e [->|He]%elem_of_cons Ho; [done|]. by exists e. }
  split; [by eapply ghostInv_calm|]. split.
  - eapply msgInv_mono; try done; [|by apply newMsgs_same].
    by apply (oldLeaders_set c c' ms ms cr cr p rf (doElection rf)).
  - eapply voteInv_mono; try done; cbn; [| |by auto].
    + intros q r r' Hq Hq' _ _.
      destruct (nodes_update c p rf _ q r' Hp Hq') as [[-> ->]|[_ Hqc]]; by simplify_eq.
    + intros v t' x [[= -> -> ->]|Hin]%elem_of_cons; [right|by left]. split; [lia|].
      intros q rf' Eq Hq'. assert (q = p) as -> by lia.
      rewrite list_lookup_insert_eq in Hq' by (by eapply lookup_lt_Some). simplify_eq.
      split; [lia|]. intros _ _ i t _ Ha Hi. by apply (ni_acked _ _ _ _ Hn').
Qed.

(** ** A peer votes *)

Lemma RequestVote_granted rf args rf' reply :
  RequestVote rf args = Ret (rf', reply) → rvr_VoteGranted reply = true → isNewerThanMe rf args = Ret true.
Proof.
  unfold RequestVote. intros H Hg. case_match; [|by injection H as _ <-].
  case_match; [|by injection H as _ <-].
  apply bind_Ret in H as (b & Hb & H). destruct b; [|by injection H as _ <-].
  rewrite <- Hb. by destruct (_ <? _).
Qed.

Lemma RequestVote_frame rf args rf' reply :
  RequestVote rf args = Ret (rf', reply) →
  commitIndex rf' = commitIndex rf ∧ leaderInitDone rf' = leaderInitDone rf ∧ matchIndex rf' = matchIndex rf.
Proof.
  unfold RequestVote. intros H. case_match; [|by injection H as <- _].
  set (rf1 := if _ <? _ then _ else _) in H.
  assert (commitIndex rf1 = commitIndex rf ∧ leaderInitDone rf1 = leaderInitDone rf ∧
    matchIndex rf1 = matchIndex rf) as Hrf1 by (subst rf1; by destruct (_ <? _)).
  clearbody rf1. case_match; [|by injection H as <- _]. apply bind_Ret in H as (b & _ & H).
  destruct b; by injection H as <- _.
Qed.

Lemma RequestVote_calmNode w w' wn p rf args rf' reply :
  created w' = created w → mains (cl w') = mains (cl w) → RequestVote rf args = Ret (rf', reply) → durable rf →
  calmNode w w' wn p rf rf'.
Proof.
  intros Ecr Ema H Hd. destruct (RequestVote_effect _ _ _ _ H) as (Hs & Hg & _ & Hv).
  destruct (RequestVote_frame _ _ _ _ H) as (Eci & Ed & Em). pose proof Hg as (_&_&_&_&_&Ht).
  constructor; [by apply grows_logSame|by left|done|by eapply saves_durable|].
  intros Hl. rewrite Ecr, Ed, Em.
  assert (state (raftState rf) = leaderState ∧ currentTerm (raftState rf') = currentTerm (raftState rf)) as [? ?].
  { destruct (rvr_VoteGranted reply); [|by apply voteStep_leader].
    destruct Hv as (_ & Et & _ & _ & Hlead). destruct (Hlead Hl). split; [done|lia]. }
  split_and!; try done. intros Hi v mi ?. left. split; [|done].
  unfold indexed in *. by rewrite Ema, Ed in Hi.
Qed.

(** What a granted vote says about the candidate. *)
Lemma vote_has w wn p q rfp rfq args rfq' reply i t :
  sinv w wn → nodes (cl w) !! p = Some rfp → nodes (cl w) !! q = Some rfq →
  RequestVote rfq args = Ret (rfq', reply) → rvr_VoteGranted reply = true →
  rv_LastLogIndex args = getLogLength rfp - 1 → holds rfp (rv_LastLogIndex args) (rv_LastLogTerm args) →
  acked wn (created w) (msgs w) q t i → is_Some (created w !! (i, t)) → holds rfp i t ∨ blocked w wn i t.
Proof.
  intros Hs Hp Hq H Hg Ei Hlast Ha Hcr. pose proof Hs as (Hri & Hno & _).
  destruct (ni_acked _ _ _ _ (Hno q rfq Hq) i t Ha Hcr) as [_ [Hh|?]]; [|by right].
  destruct (rinv_wf _ _ _ Hri Hq) as [Hwf _].
  destruct (holds_last _ _ _ _ Hs Hp) as (lp & Hlp & H0 & Hlp0). rewrite Ei in Hlast.
  pose proof (holds_fun _ _ _ _ Hlp Hlast) as ->.
  destruct (isNewerThanMe_spec rfq args Hwf) as (lq & b & Hlq & Hb & Hup); [done|lia|].
  rewrite (RequestVote_granted _ _ _ _ H Hg) in Hb. injection Hb as <-.
  rewrite Ei in Hup. eapply (last_has w wn p q); try done. by apply Hup.
Qed.

Lemma sinv_deliver c ms cr wn k w' :
  sinv (mkWorld c ms cr) wn → rinv w' →
  rstep (RCluster (LDeliver k)) (mkWorld c ms cr) = Some w' → sinv w' wn.
Proof.
  intros Hs Hri' H. pose proof Hs as (Hri & Hno & Hgh & Hms & Hvo). cbn in H.
  apply bind_Some in H as (c' & H & [= <-]). apply bind_Some in H as ([q args] & Hk & H).
  apply bind_Some in H as (rf & Hq & H).
  destruct (RequestVote rf args) as [[rf' reply]| | |] eqn:E; cbn in H; try done. injection H as <-.
  set (c' := mkCluster _ _ _ _ _ _) in *. pose proof (Hno q rf Hq) as Hn.
  destruct (RequestVote_effect _ _ _ _ E) as (_ & (_&_&_&_&_&Ht) & _ & Hv).
  destruct (RequestVote_still _ _ _ _ E) as [Hlog [Hr1 Hr2]].
  pose proof (RequestVote_calmNode (mkWorld c ms cr) (mkWorld c' ms cr) wn q _ _ _ _ eq_refl eq_refl E (ni_durable _ _ _ _ Hn)) as Hcalm.
  assert (evolves (mkWorld c ms cr) wn (mkWorld c' ms cr) wn) as Hev.
  { apply (evolves_set c c' ms ms cr cr wn wn q rf rf'); try done.
    - intros x Hx. cbn. destruct (rvr_VoteGranted reply); [by right|done].
    - intros ??. left. auto.
    - intros e He. left. by exists e. }
  split; [done|]. split.
  { eapply (nodes_set c c' ms ms cr cr wn wn q rf rf'); try done; [by intros e He _; exists e|].
    eapply nodeInv_calm; [done..|by intros t i ??; left|]. intros Hm.
    destruct (ni_main _ _ _ _ Hn Hm) as [Hl|Hlt].
    - destruct (decide (currentTerm (raftState rf') = currentTerm (raftState rf))); [left; auto|right].
      intros e He Ho. destruct (inv_elections _ (proj1 Hri) _ He) as ((r & Hr & Hle) & _).
      cbn in Hr. rewrite Ho in Hr. simplify_eq. lia.
    - right. intros e He Ho. specialize (Hlt e He Ho). lia. }
  split; [by eapply ghostInv_calm|]. split.
  { eapply msgInv_mono; try done; [|by apply newMsgs_same].
    apply (oldLeaders_set c c' ms ms cr cr q rf rf'); [done..|].
    intros (? & ? & _)%(cn_leader _ _ _ _ _ _ Hcalm). by left. }
  assert (∀ p r r', nodes c !! p = Some r → nodes c' !! p = Some r' → logSame r r') as Hsame.
  { intros p r r' Hr Hr'.
    destruct (nodes_update c q rf rf' p r' Hq Hr') as [[-> ->]|[_ Hqc]]; by simplify_eq. }
  eapply voteInv_mono; try done; [apply Hri|by intros p r r' ?? _ _; apply (Hsame p)| |by auto].
  intros v t' x Hin. cbn in Hin. destruct (rvr_VoteGranted reply) eqn:Eg; [|by left].
  apply elem_of_cons in Hin as [[= -> -> ->]|Hin]; [right|by left].
  apply list_elem_of_lookup_2 in Hk. destruct (vi_request _ _ Hvo _ _ Hk) as (Hpos & p & rfp & Ec & Hp & Hle & Hlast).
  split; [done|]. intros p' rfp' Ep Hp'. assert (p' = p) as -> by lia. pose proof (Hsame _ _ _ Hp Hp') as Hlp.
  destruct (ev_term _ _ _ _ Hev _ _ Hp) as (r & Hr & Hmono & _). cbn in Hr, Hp'. rewrite Hr in Hp'. injection Hp' as ->.
  split; [lia|]. intros Et Hnone i t Hlt Ha Hcr. destruct (Hlast ltac:(lia) Hnone) as [Ei Hh].
  destruct (vote_has (mkWorld c ms cr) wn p q rfp rf args rf' reply i t) as [?|?]; try done.
  - left. by apply (holds_logSame _ _ _ _ Hlp).
  - right. by eapply blocked_mono.
Qed.

(** ** A reply to a candidate *)

(** Nobody acknowledged anything of a term before it was won. *)
Lemma acked_fresh w wn p T x v t i :
  sinv w wn → ¬ decided (cl w) p T → wn !! T = None →
  acked (<[T := (p, x.1, x.2)]> wn) (created w) (msgs w) v t i → acked wn (created w) (msgs w) v t i.
Proof.
  intros (Hri & _ & Hgh & Hms & _) Hnd Hnone Ha. destruct (decide (t = T)) as [->|Hne].
  2: { unfold acked, ack, leaderEnd, selfAck in *. by rewrite lookup_insert_ne in Ha by done. }
  exfalso. destruct Ha as [Ha|[_ (it & y & Hy & <- & _)]].
  - apply Exists_exists in Ha as ([m r] & Hin & _ & _ & Et & _ & b & s & Hb & _). cbn in *.
    rewrite lookup_insert_eq in Hb. injection Hb as Ep _ _. apply Hnd.
    apply (mo_reply _ _ _ (proj2 (proj2 Hri))) in Hin. destruct (mi_append _ _ Hms m Hin) as [(Hd & _) _].
    congruence.
  - destruct (gi_created _ _ Hgh it.1 it.2) as (q & b & s & Hb & _); [|congruence].
    destruct it. by eexists.
Qed.

(** The winner of term [T] has what can be committed before [T]. *)
Lemma majority_complete w wn p rf T b s i t :
  sinv w wn → nodes (cl w) !! p = Some rf → currentTerm (raftState rf) = T → wn !! T = None →
  majorityFor (cl w) p T → holds rf b s → b = getLogLength rf - 1 → t < T → is_Some (created w !! (i, t)) →
  onChain (created w) b s i t ∨ blocked w wn i t.
Proof.
  intros Hs Hp Et Hnone (Q & HQ & Hvotes)%majorityFor_quorum Hb -> Hlt Hcr.
  pose proof Hs as (Hri & _ & _ & _ & Hvo).
  destruct (decide (Exists (λ v, acked wn (created w) (msgs w) v t i) Q)) as [Hex|Hno].
  - apply Exists_exists in Hex as (v & Hv & Ha).
    destruct (vi_vote _ _ Hvo v T p rf (Hvotes v Hv) Hp) as [_ Hhas].
    destruct (Hhas Et Hnone i t Hlt Ha Hcr) as [Hh|?]; [left|by right].
    apply (holds_chain w wn p rf); try done. apply holds_range in Hh. lia.
  - right. exists Q. split; [done|]. intros v Hv. split.
    + destruct (inv_votes _ (proj1 Hri) _ _ _ (Hvotes v Hv)) as (_ & r & Hr & Hle & _).
      exists r. split; [done|lia].
    + intros Ha. apply Hno, Exists_exists. by exists v.
Qed.

Lemma voteReply_frame rf term sum ok reply rf' sum' :
  voteReply rf term sum ok reply = Some (rf', sum') →
  commitIndex rf' = commitIndex rf ∧ (state (raftState rf') = leaderState → leaderInitDone rf' = false).
Proof.
  unfold voteReply. intros H. destruct (_ || negb _) eqn:Hg; [done|].
  apply orb_false_iff in Hg as [_ Hc]. apply negb_false_iff, bool_decide_eq_true in Hc.
  destruct ok; [|injection H as <- _; split; [done|by rewrite Hc]].
  set (rf1 := if currentTerm (raftState rf) <? rvr_Term reply then _ else _) in H.
  assert (commitIndex rf1 = commitIndex rf ∧ state (raftState rf1) ≠ leaderState) as [Hci Hst].
  { subst rf1. clear H. destruct (_ <? _); (split; [done|]); [by rewrite updateTerm_raftState|by rewrite Hc]. }
  clearbody rf1. destruct (rvr_VoteGranted reply); [destruct (_ && _)|]; by injection H as <- _.
Qed.

(** The peer [p] wins term [T], its log ends at (b, s). *)
Section win.
Context (c c' : Cluster C SV) (ms : Msgs C SV) (cr : History C) (wn : Wins) (p : nat) (rf rf' : Raft C SV).
Context (T b s : Z).
Let w := mkWorld c ms cr.
Let w' := mkWorld c' ms cr.
Let wn' : Wins := <[T := (p, b, s)]> wn.
Context (Hs : sinv w wn) (Hri' : rinv w').
Context (Hp : nodes c !! p = Some rf) (Hn : nodes c' = <[p := rf']> (nodes c)).
Context (ET : currentTerm (raftState rf) = T) (ET' : currentTerm (raftState rf') = T).
Context (Eb : b = getLogLength rf - 1) (Hlast : holds rf b s).
Context (Hlead : state (raftState rf') = leaderState) (Hlog : logSame rf rf').
Context (Hpos : 0 < T) (Hnd : ¬ decided c p T).
Context (Hv : votes c' = votes c).

Lemma win_majority : majorityFor c p T.
Proof.
  assert (nodes c' !! p = Some rf') as Hp' by (rewrite Hn; by eapply list_lookup_insert_eq, lookup_lt_Some).
  pose proof (inv_leader _ (proj1 Hri') _ _ Hp' Hlead) as H. rewrite ET' in H. cbn in H.
  eapply majorityFor_mono; [..|exact H]; [by rewrite Hn, length_insert|by rewrite Hv].
Qed.

Lemma win_none : wn !! T = None.
Proof.
  destruct Hs as (Hri & _ & Hgh & _).
  destruct (wn !! T) as [[[q b'] s']|] eqn:E; [|done]. destruct (gi_win _ _ Hgh _ _ _ _ E) as (Hmq & Hd' & _).
  by rewrite (majorityFor_agree c q p T (proj1 Hri) Hmq win_majority) in Hd'.
Qed.

Lemma win_fresh i : cr !! (i, T) = None.
Proof.
  destruct Hs as (_ & _ & Hgh & _). destruct (cr !! (i, T)) eqn:E; [|done].
  destruct (gi_created _ _ Hgh i T) as (? & ? & ? & Hw & _); [by eexists|]. by rewrite win_none in Hw.
Qed.

Lemma win_acked v t i : acked wn' cr ms v t i → acked wn cr ms v t i.
Proof. apply (acked_fresh w wn p T (b, s)); [done..|apply win_none]. Qed.

(** The log of the winner ends before its term. *)
Lemma win_before : 0 <= s < T.
Proof.
  pose proof Hs as (Hri & Hno & _). pose proof (Hno p rf Hp) as Hni.
  destruct (holds_last _ _ _ _ Hs Hp) as (lt & Hlt & Hb0 & Hlt0). rewrite <- Eb in Hlt, Hb0.
  rewrite (holds_fun _ _ _ _ Hlt Hlast) in Hlt0. split; [done|].
  pose proof (ni_terms _ _ _ _ Hni _ _ Hlast) as Hle.
  destruct (decide (b = 0)) as [E0|].
  - rewrite E0 in Hlast. destruct (rinv_wf _ _ _ Hri Hp) as [Hwf _].
    rewrite (holds_fun _ _ _ _ Hlast (holds_0 _ Hwf (ni_whole _ _ _ _ Hni))). done.
  - destruct (holds_created _ _ _ _ _ _ Hs Hp Hlast) as [x Hx]; [lia|]. cbn in Hx.
    assert (s ≠ T) by (intros ->; by rewrite win_fresh in Hx). lia.
Qed.

Context (Hev : evolves w wn w' wn').

Lemma nodeInv_win :
  durable rf' → commitIndex rf' = commitIndex rf → leaderInitDone rf' = false →
  mains c' !! p ≠ Some (Some LeaderIndexed) → nodeInv w' wn' p rf'.
Proof.
  intros Hd Hci Hinit Hmi. pose proof Hs as (_ & Hno & _).
  assert (∀ i t, holds rf' i t ↔ holds rf i t) as Hh by (intros; by apply holds_logSame).
  destruct (Hno p rf Hp) as [Hw _ Ht _ _ _ Ha Hc _]. constructor; try done; try (by left).
  - destruct Hlog as (_ & E1 & E2), Hw. split; congruence.
  - intros i t Hit%Hh. specialize (Ht _ _ Hit). lia.
  - intros _. rewrite ET', (logSame_length _ _ Hlog). exists b, s. split; [apply lookup_insert_eq|].
    split; [by apply Hh|]. split; [intros i [x Hx]; cbn in Hx; by rewrite win_fresh in Hx|intros; lia].
  - intros _ _ i. cbn. by rewrite ET', win_fresh.
  - intros _ [?|?]; [congruence|done].
  - intros i t Ha' Hi. destruct (Ha i t (win_acked _ _ _ Ha') Hi) as [Hle Hor]. split; [lia|].
    destruct Hor; [left; by apply Hh|right; by eapply blocked_mono].
  - destruct Hc as (u & lt & Hu & Hlt & Hpos'). exists u, lt. rewrite Hci, (logSame_length _ _ Hlog).
    split_and!; [by apply Hh..|]. by apply (commitPos_mono _ _ _ _ Hev lt lt); [lia|].
Qed.

Lemma ghostInv_win : ghostInv w' wn'.
Proof.
  pose proof Hs as (Hri & Hno & [G1 G2 G3 G4 G5] & _).
  assert (∀ q t, majorityFor c q t → majorityFor c' q t) as Hmono
    by (intros q t; apply majorityFor_mono; [by rewrite Hn, length_insert|by rewrite Hv]).
  constructor; try done.
  - intros t q b' s' [[<- [= <- <- <-]]|[_ Hq]]%lookup_insert_Some.
    + split; [by apply Hmono, win_majority|]. split; [|apply win_before].
      exists rf'. split; [cbn; rewrite Hn; by eapply list_lookup_insert_eq, lookup_lt_Some|].
      right. split; [done|by left].
    + destruct (G2 _ _ _ _ Hq) as (H1 & H2 & H3). split_and!; try lia; [by apply Hmono|by eapply decided_mono].
  - intros i t Hi. destruct (G3 i t Hi) as (q & b' & s' & Hq & ?). exists q, b', s'.
    split; [by eapply lookup_weaken, (ev_wins _ _ _ _ Hev)|done].
  - intros t' q b' s' i t [[<- [= <- <- <-]]|[_ Hq]]%lookup_insert_Some Hlt Hi.
    + destruct (majority_complete w wn p rf T b s i t) as [?|?]; try done; [apply win_none|apply win_majority|by left|].
      right. by eapply blocked_mono.
    + destruct (G5 t' q b' s' i t Hq Hlt Hi); [by left|right]. by eapply blocked_mono.
Qed.
End win.

Lemma sinv_win c c' ms cr wn p rf rf' e :
  sinv (mkWorld c ms cr) wn → rinv (mkWorld c' ms cr) →
  nodes c !! p = Some rf → nodes c' = <[p := rf']> (nodes c) →
  e ∈ elections c → el_owner e = p → el_term e = currentTerm (raftState rf) →
  state (raftState rf) = candidateState → state (raftState rf') = leaderState →
  currentTerm (raftState rf') = currentTerm (raftState rf) → logSame rf rf' → durable rf' →
  commitIndex rf' = commitIndex rf → leaderInitDone rf' = false →
  (∀ e, e ∈ elections c' → ∃ e0, e0 ∈ elections c ∧ el_owner e0 = el_owner e ∧ el_term e0 = el_term e) →
  mains c' = mains c → votes c' = votes c → requests c' = requests c →
  ∃ wn', wn ⊆ wn' ∧ sinv (mkWorld c' ms cr) wn'.
Proof.
  intros Hs Hri' Hp Hn He Ho ETe Hcand Hlead Et Hlog Hd Hci Hinit Hel Hma Hv Hrq.
  pose proof Hs as (Hri & Hno & _ & Hms & Hvo).
  destruct (holds_last _ _ _ _ Hs Hp) as (s & Hlast & _).
  set (T := currentTerm (raftState rf)) in *. set (b := getLogLength rf - 1) in *.
  assert (0 < T) as Hpos.
  { destruct (inv_elections _ (proj1 Hri) _ He) as (_ & Hself & _). rewrite <- ETe.
    by apply (vi_term _ _ Hvo) in Hself. }
  assert (¬ decided c p T) as Hnd.
  { intros (r & Hr & [?|[_ [?|Hgone]]]); simplify_eq; [lia|congruence|]. by eapply Hgone. }
  pose proof (win_none c c' ms cr wn p rf rf' T Hs Hri' Hp Hn Et Hlead Hnd Hv) as Hnone.
  set (wn' := <[T := (p, b, s)]> wn). assert (wn ⊆ wn') as Hsub by (by apply insert_subseteq).
  assert (∀ v t i, acked wn' cr ms v t i → acked wn cr ms v t i) as Hack
    by (intros v t i; by apply (acked_fresh (mkWorld c ms cr) wn p T (b, s))).
  assert (evolves (mkWorld c ms cr) wn (mkWorld c' ms cr) wn') as Hev.
  { apply (evolves_set c c' ms ms cr cr wn wn' p rf rf'); try done; [by rewrite Hv|lia|by left| |].
    - intros x Hx. left. by apply Hel.
    - intros v r t i _ _. apply Hack. }
  exists wn'. split; [done|]. split; [done|]. split.
  { eapply (nodes_set c c' ms ms cr cr wn wn' p rf rf'); try done; [by auto|by intros; rewrite Hma|by auto|].
    apply (nodeInv_win c c' ms cr wn p rf rf' T b s); try done. rewrite Hma. intros Hmi.
    destruct (ni_main _ _ _ _ (Hno p rf Hp)) as [?|Hlt]; [by unfold inLeaderMain; cbn; rewrite Hmi|congruence|].
    specialize (Hlt e He Ho). lia. }
  split; [by apply (ghostInv_win c c' ms cr wn p rf rf' T b s)|]. split.
  - eapply msgInv_mono; try done; [|by apply newMsgs_same].
    apply (oldLeaders_set c c' ms ms cr cr p rf rf'); [done..|]. intros _. right. by rewrite Et.
  - eapply voteInv_mono; try done; cbn; [apply Hri| |by rewrite Hv; auto|by rewrite Hrq; auto].
    intros q r r' Hq Hq' _ _. cbn in Hq'. rewrite Hn in Hq'.
    destruct (nodes_update c p rf rf' q r' Hp Hq') as [[-> ->]|[_ Hqc]]; cbn in Hq; by simplify_eq.
Qed.

Lemma sinv_count c ms cr wn g e from reply c' :
  sinv (mkWorld c ms cr) wn → rinv (mkWorld c' ms cr) → elections c !! g = Some e →
  countReply c g e from reply = Some c' → ∃ wn', wn ⊆ wn' ∧ sinv (mkWorld c' ms cr) wn'.
Proof.
  intros Hs Hri' Hg H. unfold countReply in H. apply bind_Some in H as (rf & Hp & H).
  pose proof (list_elem_of_lookup_2 _ _ _ Hg) as He. pose proof Hs as (Hri & Hno & _).
  pose proof (Hno _ rf Hp) as Hni. destruct (inv_elections _ (proj1 Hri) _ He) as ((r & Hr & Hle) & _).
  cbn in Hr. simplify_eq.
  destruct (voteReply _ _ _ _ _) as [[rf' sum']|] eqn:E.
  2: { injection H as <-. exists wn. split; [done|].
       assert (∀ x, x ∈ delete g (elections c) → x ∈ elections c) as Hdel
         by (intros x Hx; eapply elem_of_sublist; [done|apply sublist_delete]).
       apply (sinv_calm c _ ms ms cr wn (el_owner e) rf rf); cbn; try done.
       - by apply insert_same.
       - apply calmNode_refl; [done|apply Hni|done].
       - intros ??. by left.
       - intros x ?%Hdel. by exists x.
       - intros [?|Hlt]%(ni_main _ _ _ _ Hni); [by left|right]. intros x ?%Hdel. by apply Hlt.
       - by apply newMsgs_same. }
  injection H as <-. set (c' := mkCluster _ _ _ _ _ _) in *.
  destruct (voteReply_still _ _ _ _ _ _ _ E) as [Hlog Hcand].
  destruct (voteReply_frame _ _ _ _ _ _ _ E) as [Hci Hinit].
  assert (∀ x, x ∈ elections c' → ∃ e0, e0 ∈ elections c ∧ el_owner e0 = el_owner x ∧ el_term e0 = el_term x) as Hel.
  { intros x Hx. apply list_elem_of_lookup in Hx as [j Hj]. destruct (decide (j = g)) as [->|Hne].
    - cbn in Hj. rewrite list_lookup_insert_eq in Hj by (by eapply lookup_lt_Some). simplify_eq. by exists e.
    - cbn in Hj. rewrite list_lookup_insert_ne in Hj by done. exists x. split; [by eapply list_elem_of_lookup_2|done]. }
  apply voteReply_effect in E as [((Hsv & _ & Hv) & _)|(Hsv & _ & _ & _ & _ & _ & Hterm & _ & Et & _ & Hl)].
  - exists wn. split; [done|]. assert (state (raftState rf') ≠ leaderState) as Hnl
      by (intros Hl; destruct (voteStep_leader _ _ Hv Hl); congruence).
    assert (roleStep rf rf') as Hrole by (split; congruence).
    apply (sinv_calm c _ ms ms cr wn (el_owner e) rf rf'); try done.
    + apply calmNode_intro; try done. by eapply saves_durable, (ni_durable _ _ _ _ Hni).
    + congruence.
    + intros Hm. right. intros x (e0 & He0 & Eo & <-)%Hel Ho.
      destruct (main_keep (mkWorld c ms cr) wn (el_owner e) rf rf' Hri Hni Hp Hv Hrole Hm) as [?|Hlt]; [done|].
      apply Hlt; [done|congruence].
    + by apply newMsgs_same.
  - apply (sinv_win c c' ms cr wn (el_owner e) rf rf' e); try done; [lia| |by apply Hinit].
    by eapply saves_durable, (ni_durable _ _ _ _ Hni).
Qed.
End votes.
