(* ===== verification/RaftAppends.v ===== *)
(** * RaftAppends: the invariant along log replication

    What leaders put into requests, what followers do with them and what the
    replies tell the leader. *)

From S2P Require Import Prelude Labgob Persister RaftState RaftRpc RaftLeader RaftPeer RaftCluster RaftLinks RaftReplication RaftChains RaftQuorums RaftInvariant RaftSteps RaftVotes.
Local Open Scope Z_scope.

Section appends.
Context {C SV : Type}.
Implicit Types (c : Cluster C SV) (rf r : Raft C SV) (cr : History C) (w : World C SV) (ms : Msgs C SV).
Implicit Types (wn : Wins) (v p q : nat) (i t u : Z).

(** ** What is sent *)

(** A request reaches the end of the log it was cut from. *)
Lemma slice_end rf (args : AppendEntriesArgs C) :
  whole rf → sliceOf rf args →
  endIndex args = getLogLength rf - 1 ∧ holds rf (endIndex args) (endTerm args).
Proof.
  intros Hw (Hle & Ht & Hes). pose proof (getTermOfLog_Ret _ _ _ Ht) as Hr. pose proof Hw as [Hi _].
  unfold endIndex. pose proof (endTerm_termIn args) as He. rewrite Hi, Z.sub_0_r in *.
  assert (ae_PrevLogIndex args + zlen (ae_Entries args) = getLogLength rf - 1) as E.
  { rewrite Hes. unfold getLogLength in *. rewrite zlen_drop by lia. lia. }
  split; [done|]. destruct (ae_Entries args) as [|e es] eqn:Ees.
  - cbn in He. injection He as <-. by rewrite Z.add_0_r.
  - cbn [length termIn] in He. apply fmap_Some in He as (x & Hx & ->). rewrite Hes, lookup_drop in Hx.
    unfold zlen in *. cbn [length] in *.
    replace (ae_PrevLogIndex args + Z.of_nat (S (length es)))
      with (Z.of_nat (Z.to_nat (ae_PrevLogIndex args + 1) + length es)) by lia.
    apply holds_lookup; [done..|lia].
Qed.

(** Index [k] is committed, as far as the log of [rf] tells. *)
Definition commitsAt w wn rf (k : Z) : Prop :=
  ∃ u lt, holds rf k u ∧ holds rf (getLogLength rf - 1) lt ∧ commitPos w wn lt k u.

(** The end of the log of a leader. *)
Lemma leader_end w wn p rf lt :
  sinv w wn → nodes (cl w) !! p = Some rf → state (raftState rf) = leaderState →
  holds rf (getLogLength rf - 1) lt →
  leaderEnd wn (created w) (currentTerm (raftState rf)) p (getLogLength rf - 1) lt.
Proof.
  intros Hs Hp Hl Hlt. pose proof Hs as (Hri & Hno & _).
  destruct (ni_leader _ _ _ _ (Hno p rf Hp) Hl) as (b & s & Hb & Hbs & Hcr & Hafter).
  exists b, s. split; [done|]. pose proof (holds_range _ _ _ Hbs) as Hr.
  destruct (decide (getLogLength rf - 1 = b)) as [E|Hne].
  - left. split; [done|]. rewrite E in Hlt. exact (holds_fun _ _ _ _ Hlt Hbs).
  - right. assert (holds rf (getLogLength rf - 1) (currentTerm (raftState rf))) as Hh by (apply Hafter; lia).
    split; [exact (holds_fun _ _ _ _ Hlt Hh)|]. apply (holds_created w wn p rf); try done.
    destruct (ni_whole _ _ _ _ (Hno p rf Hp)). lia.
Qed.

Lemma callOk_slice w wn p rf to beat (args : AppendEntriesArgs C) :
  sinv w wn → nodes (cl w) !! p = Some rf → sliceOf rf args → decided (cl w) p (ae_Term args) →
  commitsAt w wn rf (ae_LeaderCommit args) → callOk w wn (mkAppendMsg p to beat args).
Proof.
  intros Hs Hp Hsl Hd (u & lt & Hu & Hlt & Hpos). pose proof Hs as (Hri & Hno & _).
  pose proof (ni_whole _ _ _ _ (Hno p rf Hp)) as Hw.
  destruct (slice_end rf args Hw Hsl) as [Ei Hend]. rewrite <- Ei in Hlt.
  pose proof (holds_fun _ _ _ _ Hlt Hend) as ->. split_and!; cbn; [done| |].
  - exists u. split; [|done]. apply (holds_chain w wn p rf); try done.
    apply holds_range in Hu. lia.
  - intros r Hr Hl Et. cbn in Hr. simplify_eq. unfold msgEnd. cbn. rewrite <- Et, Ei in *.
    by apply leader_end.
Qed.

(** The requests a peer sends in one go. *)
Lemma sendAll_calls p l ms m :
  m ∈ appendCalls (sendAll p l ms) →
  m ∈ appendCalls ms ∨ ∃ to args, SendAppend to args ∈ l ∧ m = mkAppendMsg p to false args.
Proof.
  induction l as [|x l IH]; [by left|]. cbn. intros H.
  assert (m ∈ appendCalls (sendAll p l ms) ∨ ∃ to args, x = SendAppend to args ∧ m = mkAppendMsg p to false args)
    as [[?|(to & args & ? & ->)]%IH|(to & args & -> & ->)].
  { destruct x as [|to args|to args]; cbn in H; [by left| |by left].
    apply elem_of_cons in H as [->|?]; [right; by eexists _, _|by left]. }
  - by left.
  - right. exists to, args. split; [by right|done].
  - right. exists to, args. split; [by left|done].
Qed.

Lemma sendAll_scalls p l ms m :
  m ∈ snapshotCalls (sendAll p l ms) →
  m ∈ snapshotCalls ms ∨ ∃ to args, SendSnapshot to args ∈ l ∧ m = mkSnapshotMessage p to args.
Proof.
  induction l as [|x l IH]; [by left|]. cbn. intros H.
  assert (m ∈ snapshotCalls (sendAll p l ms) ∨ ∃ to args, x = SendSnapshot to args ∧ m = mkSnapshotMessage p to args)
    as [[?|(to & args & ? & ->)]%IH|(to & args & -> & ->)].
  { destruct x as [|to args|to args]; cbn in H; [by left|by left|].
    apply elem_of_cons in H as [->|?]; [right; by eexists _, _|by left]. }
  - by left.
  - right. exists to, args. split; [by right|done].
  - right. exists to, args. split; [by left|done].
Qed.

Lemma sendAll_frame p l ms :
  broadcasts (sendAll p l ms) = broadcasts ms ∧ heartbeats (sendAll p l ms) = heartbeats ms ∧
  appends (sendAll p l ms) = appends ms ∧ appendReplies (sendAll p l ms) = appendReplies ms ∧
  snapshots (sendAll p l ms) = snapshots ms ∧ snapshotReplies (sendAll p l ms) = snapshotReplies ms ∧
  scans (sendAll p l ms) = scans ms ∧ counts (sendAll p l ms) = counts ms.
Proof. induction l as [|[] l IH]; done. Qed.

Lemma newMsgs_send w w' wn ms p l :
  msgs w' = sendAll p l ms →
  (∀ x, x ∈ broadcasts ms → x ∈ broadcasts (msgs w)) → (∀ x, x ∈ heartbeats ms → x ∈ heartbeats (msgs w)) →
  appendCalls ms = appendCalls (msgs w) → snapshotCalls ms = snapshotCalls (msgs w) →
  appends ms = appends (msgs w) → snapshots ms = snapshots (msgs w) →
  scans ms = scans (msgs w) → counts ms = counts (msgs w) →
  (∀ to args, SendAppend to args ∈ l → callOk w' wn (mkAppendMsg p to false args)) →
  (∀ to args, SendSnapshot to args ∈ l → is_LastIncludedIndex args = 0) →
  newMsgs w w' wn.
Proof.
  intros E Hb Hh Hc Hsc Ha Hsn Hscn Hct Hap Hss.
  destruct (sendAll_frame p l ms) as (E1 & E2 & E3 & _ & E4 & _ & E5 & E6).
  constructor; rewrite E, ?E1, ?E2, ?E3, ?E4, ?E5, ?E6, ?Ha, ?Hsn, ?Hscn, ?Hct; auto.
  - intros m [?|(to & args & Hin & ->)]%sendAll_calls; [left; congruence|right]. split; [by apply Hap|done].
  - intros m [?|(to & args & Hin & ->)]%sendAll_scalls; [left; congruence|right]. by eapply Hss.
Qed.

(** ** Steps that only send *)

Lemma evolves_msgs c ms ms' cr wn :
  appendReplies ms' = appendReplies ms → evolves (mkWorld c ms cr) wn (mkWorld c ms' cr) wn.
Proof.
  intros E. constructor; cbn; try done.
  - intros p rf Hp. exists rf. split_and!; [done|lia|by left].
  - intros e He. left. by exists e.
  - by rewrite E.
  - intros v rf t i _ _. by apply acked_replies.
Qed.

Lemma callOk_msgs c ms ms' cr wn m :
  appendReplies ms' = appendReplies ms → callOk (mkWorld c ms cr) wn m → callOk (mkWorld c ms' cr) wn m.
Proof.
  intros E. eapply callOk_mono; [by apply evolves_msgs|]. intros rf Hp Hl. left. by exists rf.
Qed.

Lemma sinv_heartbeat c ms cr wn p w' :
  sinv (mkWorld c ms cr) wn → rinv w' → rstep (RHeartbeat p) (mkWorld c ms cr) = Some w' → sinv w' wn.
Proof.
  intros Hs Hri' H. cbn in H. apply bind_Some in H as (rf & Hp & H).
  apply bind_Some in H as (b & Hm & H). destruct b as [[]|]; try done. injection H as <-.
  pose proof Hs as (_ & Hno & _).
  apply (sinv_msgs c ms _ cr wn p rf); try done. constructor; cbn; auto.
  intros q t [[= -> ->]|Hin]%elem_of_cons; [right|by left]. exists rf. split; [done|]. right. split; [done|].
  destruct (ni_main _ _ _ _ (Hno p rf Hp)) as [?|Hlt]; [by unfold inLeaderMain; cbn; rewrite Hm|by left|right].
  intros e He Ho. specialize (Hlt e He Ho). lia.
Qed.

Lemma sent_commit rf term ids sent to args :
  sendToEach rf term ids = Ret sent → SendAppend to args ∈ sent → ae_LeaderCommit args = commitIndex rf.
Proof.
  revert sent. induction ids as [|x ids IH]; cbn; intros sent H Hin.
  { injection H as <-. by apply not_elem_of_nil in Hin. }
  apply bind_Ret in H as (m1 & Hm & H). apply bind_Ret in H as (ms' & Hms' & [= <-]).
  apply elem_of_app in Hin as [Hin|Hin]; [|by eapply IH].
  unfold sendTo in Hm. go_inv; try by apply not_elem_of_nil in Hin.
  apply list_elem_of_singleton in Hin as <-.
  match goal with H : appendArgsFrom _ _ _ _ = _ |- _ => by apply appendArgsFrom_sliceOf in H as (_ & _ & _ & ?) end.
Qed.

Lemma sinv_broadcast c ms cr wn k w' :
  sinv (mkWorld c ms cr) wn → rinv w' → rstep (RBroadcast k) (mkWorld c ms cr) = Some w' → sinv w' wn.
Proof.
  intros Hs Hri' H. cbn in H. apply bind_Some in H as ([p term] & Hk & H).
  apply bind_Some in H as (rf & Hp & H).
  destruct (sendAppendEntriesToAll rf term) as [sent| | |] eqn:E; cbn in H; try done. injection H as <-.
  pose proof Hs as (_ & Hno & _ & Hms & _). pose proof (Hno p rf Hp) as Hni.
  apply list_elem_of_lookup_2 in Hk. set (ms1 := setGoroutines _ _ _) in *.
  assert (appendReplies (sendAll p sent ms1) = appendReplies ms) as Hrep
    by (by destruct (sendAll_frame p sent ms1) as (_&_&_&->&_)).
  apply (sinv_msgs c ms _ cr wn p rf); try done.
  apply (newMsgs_send _ _ wn ms1 p sent); try done.
  - intros x Hx. eapply elem_of_sublist; [done|]. apply sublist_delete.
  - intros to args Hin. apply (callOk_msgs _ ms); [done|].
    pose proof (sent_commit _ _ _ _ _ _ E Hin) as Hci.
    destruct (sendToEach_sent _ _ _ _ _ E Hin) as (to' & _ & _ & _ & Ht & Hsl).
    apply (callOk_slice _ _ p rf); try done.
    + rewrite Ht. by apply (mi_broadcast _ _ Hms).
    + rewrite Hci. apply (ni_commit _ _ _ _ Hni).
  - intros to args Hin. destruct (sendToEach_sent _ _ _ _ _ E Hin) as (to' & _ & _ & _ & ->).
    cbn. by destruct (ni_whole _ _ _ _ Hni).
Qed.

Lemma beatAll_frame p n args ms m :
  m ∈ appends (beatAll p n args ms) → m ∈ appends ms ∨ ∃ to, m = mkAppendMsg p to true args.
Proof.
  unfold beatAll. induction (others n p) as [|q qs IH]; cbn; [by left|].
  intros [->|H]%elem_of_cons; [right; by eexists|auto].
Qed.

Lemma beatAll_rest p n (args : AppendEntriesArgs C) ms :
  let ms' := beatAll p n args ms in
  broadcasts ms' = broadcasts ms ∧ heartbeats ms' = heartbeats ms ∧ appendCalls ms' = appendCalls ms ∧
  snapshotCalls ms' = snapshotCalls ms ∧ appendReplies ms' = appendReplies ms ∧
  snapshots ms' = snapshots ms ∧ scans ms' = scans ms ∧ counts ms' = counts ms.
Proof. unfold beatAll. by induction (others n p). Qed.

Lemma heartbeat_slice rf term args :
  raft_wf rf → heartbeatArgs rf term = Ret args →
  sliceOf rf args ∧ ae_Term args = term ∧ ae_LeaderCommit args = commitIndex rf ∧ ae_Entries args = [].
Proof.
  unfold heartbeatArgs, sliceOf. intros Hwf H. go_inv. cbn. split_and!; try done.
  - pose proof (wf_log _ Hwf). unfold getLogLength. lia.
  - rewrite drop_ge; [done|]. unfold getLogLength, zlen. lia.
Qed.

Lemma sinv_beat c ms cr wn k w' :
  sinv (mkWorld c ms cr) wn → rinv w' → rstep (RBeat k) (mkWorld c ms cr) = Some w' → sinv w' wn.
Proof.
  intros Hs Hri' H. cbn in H. apply bind_Some in H as ([p term] & Hk & H).
  apply bind_Some in H as (rf & Hp & H).
  destruct (heartbeatArgs rf term) as [args| | |] eqn:E; cbn in H; try done. injection H as <-.
  pose proof Hs as (Hri & Hno & _ & Hms & _). destruct (rinv_wf _ _ _ Hri Hp) as [Hwf _].
  apply list_elem_of_lookup_2 in Hk. set (ms1 := setGoroutines _ _ _) in *.
  destruct (beatAll_rest p (length (nodes c)) args ms1) as (E1 & E2 & E3 & E4 & E5 & E6 & E7 & E8).
  destruct (heartbeat_slice _ _ _ Hwf E) as (Hsl & Ht & Hci & Hes).
  apply (sinv_msgs c ms _ cr wn p rf); try done.
  constructor; cbn; rewrite ?E1, ?E2, ?E3, ?E4, ?E6, ?E7, ?E8; auto.
  - intros q t Hin. left. eapply elem_of_sublist; [done|]. apply sublist_delete.
  - intros m [?|[to ->]]%beatAll_frame; [by left|right]. split; [|done].
    apply (callOk_msgs _ ms); [done|]. apply (callOk_slice _ _ p rf); try done.
    + rewrite Ht. by apply (mi_heartbeat _ _ Hms).
    + rewrite Hci. apply (ni_commit _ _ _ _ (Hno p rf Hp)).
Qed.

Lemma sinv_callAppend c ms cr wn k w' :
  sinv (mkWorld c ms cr) wn → rinv w' → rstep (RCallAppend k) (mkWorld c ms cr) = Some w' → sinv w' wn.
Proof.
  intros Hs Hri' H. cbn in H. apply bind_Some in H as (m & Hk & H).
  apply bind_Some in H as (rf & Hp & [= <-]). pose proof Hs as (_ & _ & _ & Hms & _).
  apply list_elem_of_lookup_2 in Hk.
  apply (sinv_msgs c ms _ cr wn (am_from m) rf); [done..|by case_match|].
  destruct (stillLeader rf _) eqn:Hst; constructor; cbn; auto.
  - intros m' [->|?]%elem_of_cons; [right|by left]. destruct (mi_call _ _ Hms m Hk) as [Hok Hb].
    split; [by apply (callOk_msgs _ ms)|]. rewrite Hb.
    apply andb_true_iff in Hst as [Et%Z.eqb_eq Hl%bool_decide_eq_true].
    destruct Hok as (_ & _ & He). by apply (He rf).
  - intros m' Hm'. left. eapply elem_of_sublist; [done|]. apply sublist_delete.
Qed.

Lemma sinv_callSnapshot c ms cr wn k w' :
  sinv (mkWorld c ms cr) wn → rinv w' → rstep (RCallSnapshot k) (mkWorld c ms cr) = Some w' → sinv w' wn.
Proof.
  intros Hs Hri' H. cbn in H. apply bind_Some in H as (m & Hk & H).
  apply bind_Some in H as (rf & Hp & [= <-]). pose proof Hs as (_ & _ & _ & Hms & _).
  apply list_elem_of_lookup_2 in Hk.
  apply (sinv_msgs c ms _ cr wn (sm_from m) rf); [done..|by case_match|].
  destruct (stillLeader rf _); constructor; cbn; auto.
  - intros m' [->|?]%elem_of_cons; [right|by left]. by apply (mi_scall _ _ Hms).
  - intros m' Hm'. left. eapply elem_of_sublist; [done|]. apply sublist_delete.
Qed.

(** ** Restarts and snapshots *)

Lemma Make_boundary n id (ps : Persister (RaftGob C) SV) r :
  Make n id ps = Ret r → lastIncludedIndex r = 0 → commitIndex r = 0 ∧ lastApplied r = 0.
Proof.
  unfold Make, readPersist. intros H Hi. apply bind_Ret in H as (r0 & Hr & H).
  assert (commitIndex r0 = 0 ∧ lastApplied r0 = 0) as [Hc Ha].
  { destruct (ReadRaftState ps); [by injection Hr as <-|].
    apply bind_Ret in Hr as ([[[[? ?] ?] ?] ?] & _ & [= <-]). done. }
  destruct (0 <? _); injection H as <-; done.
Qed.

Lemma sinv_restart c ms cr wn p w' :
  sinv (mkWorld c ms cr) wn → rinv w' → rstep (RRestart p) (mkWorld c ms cr) = Some w' → sinv w' wn.
Proof.
  intros Hs Hri' H. cbn -[Make] in H. apply bind_Some in H as (c' & H & [= <-]).
  apply bind_Some in H as (rf & Hp & H). pose proof Hs as (Hri & Hno & _). pose proof (Hno p rf Hp) as Hni.
  destruct (rinv_wf _ _ _ Hri Hp) as [Hwf _].
  destruct (ni_durable _ _ _ _ Hni) as (r & Hr & Hh). rewrite Hr in H. cbn in H. injection H as <-.
  destruct (Make_frame _ _ _ _ Hr) as (Em & Ep & Eps & Hst).
  pose proof Hh as Hh'. unfold hardState in Hh'. injection Hh' as Ht Hv Hi Hit Hlog.
  assert (logSame rf r) as Hsame by done. pose proof (ni_whole _ _ _ _ Hni) as Hw.
  assert (whole r) as Hw' by (destruct Hw; split; congruence).
  pose proof (Make_recovered _ _ _ _ _ Hr Hh Hwf) as Hwf'.
  destruct (holds_last _ _ _ _ Hs Hp) as (lt & Hlt & _).
  apply (sinv_calm c _ ms _ cr wn p rf r); cbn; try done.
  - constructor; [done| |lia| |congruence].
    + right. rewrite (proj1 (Make_boundary _ _ _ _ Hr (proj1 Hw'))). exists 0, lt.
      split_and!; [by apply holds_0| |by left]. rewrite (logSame_length _ _ Hsame).
      by apply (holds_logSame _ _ _ _ Hsame).
    + exists r. by rewrite Ep, Em, Eps.
  - intros _ _. right. by intros e [? _]%list_elem_of_filter.
  - intros e [_ He]%list_elem_of_filter. by exists e.
  - intros q Hne. by rewrite list_lookup_insert_ne.
  - by erewrite inLeaderMain_reset.
  - constructor; cbn; auto.
    + intros q t [_ Hin]%list_elem_of_filter. by left.
    + intros q t [_ Hin]%list_elem_of_filter. by left.
    + intros m [_ Hin]%list_elem_of_filter. by left.
    + intros m [_ Hin]%list_elem_of_filter. by left.
    + intros q t i [_ Hin]%list_elem_of_filter. by left.
    + intros q t i n [_ Hin]%list_elem_of_filter. by left.
Qed.

(** The snapshot of a peer that took none is not adopted. *)
Lemma InstallSnapshot_none rf args rf' reply msg :
  raft_wf rf → InstallSnapshot rf args = Ret (rf', reply, msg) → is_LastIncludedIndex args = 0 →
  rf' = if currentTerm (raftState rf) <? is_Term args then updateTerm (is_Term args) rf else rf.
Proof.
  intros Hwf H E0. rewrite InstallSnapshot_cases in H. cbn zeta in H. rewrite E0 in H.
  pose proof (wf_lii _ Hwf) as Hi.
  assert (lastIncludedIndex (if currentTerm (raftState rf) <? is_Term args then updateTerm (is_Term args) rf else rf)
    = lastIncludedIndex rf) as E1 by (clear; by destruct (_ <? _)).
  rewrite E1 in H. rewrite (proj2 (Z.ltb_ge (lastIncludedIndex rf) 0)) in H by lia.
  rewrite andb_false_r in H. cbn in H. by injection H.
Qed.

Lemma maybe_calmNode w w' wn p t rf :
  created w' = created w → mains (cl w') = mains (cl w) → durable rf →
  calmNode w w' wn p rf (if currentTerm (raftState rf) <? t then updateTerm t rf else rf).
Proof.
  intros E Hm Hd. destruct (currentTerm (raftState rf) <? t) eqn:Et; [|by apply calmNode_refl; try done; rewrite Hm].
  apply calmNode_intro; try done; [|apply updateTerm_durable|by rewrite Hm].
  apply voteStep_update with t; [by apply Z.ltb_lt|done].
Qed.

Lemma sinv_snapshot c ms cr wn k w' :
  sinv (mkWorld c ms cr) wn → rinv w' → rstep (RSnapshot k) (mkWorld c ms cr) = Some w' → sinv w' wn.
Proof.
  intros Hs Hri' H. cbn in H. apply bind_Some in H as (m & Hk & H). apply bind_Some in H as (rf & Hp & H).
  destruct (InstallSnapshot rf (sm_args m)) as [[[rf' reply] msg]| | |] eqn:E; cbn in H; try done.
  injection H as <-. pose proof Hs as (Hri & Hno & _ & Hms & _). apply list_elem_of_lookup_2 in Hk.
  destruct (rinv_wf _ _ _ Hri Hp) as [Hwf _].
  pose proof (mi_snapshot _ _ Hms m Hk) as E0.
  pose proof (InstallSnapshot_none _ _ _ _ _ Hwf E E0) as E1.
  destruct (InstallSnapshot_effect _ _ _ _ _ E Hwf) as (_ & Hv & _).
  pose proof (InstallSnapshot_role _ _ _ _ _ E) as Hrole.
  apply (sinv_local c ms _ cr wn _ rf rf'); try done; [|by constructor; auto].
  rewrite E1. apply maybe_calmNode; [done..|]. apply (ni_durable _ _ _ _ (Hno _ rf Hp)).
Qed.

(** ** Replies *)

Lemma sliceOf_logSame rf rf' args : logSame rf rf' → sliceOf rf' args → sliceOf rf args.
Proof.
  intros (Hl & Hi & Ht). unfold sliceOf, getTermOfLog, getLogLength. by rewrite Hl, Hi, Ht.
Qed.

(** A leader raises a match index only to what its peer acknowledged. *)
Definition trusts w wn rf rf' : Prop :=
  leaderInitDone rf' = leaderInitDone rf ∧ commitIndex rf' = commitIndex rf ∧
  ∀ v mi, matchIndex rf' !! v = Some mi →
    matchIndex rf !! v = Some mi ∨
    mi < getLogLength rf ∧
      ∀ i, i <= mi → is_Some (created w !! (i, currentTerm (raftState rf))) →
        acked wn (created w) (msgs w) v (currentTerm (raftState rf)) i.

Lemma trusts_same w wn rf rf' :
  leaderInitDone rf' = leaderInitDone rf → commitIndex rf' = commitIndex rf → matchIndex rf' = matchIndex rf →
  trusts w wn rf rf'.
Proof. intros E1 E2 E3. split; [done|]. split; [done|]. rewrite E3. by left. Qed.

(** A goroutine of [p] handles a reply and may send another message. *)
Lemma sinv_reply c ms cr wn p rf rf' term to m :
  sinv (mkWorld c ms cr) wn → nodes c !! p = Some rf → rinv (mkWorld (setNode c p rf') (send p m ms) cr) →
  calm rf rf' → still rf rf' → trusts (mkWorld c ms cr) wn rf rf' →
  (m ≠ SendStop → stillLeader rf term = true ∧ sentFrom rf' term to m) →
  (∀ to args, m = SendAppend to args → commitsAt (mkWorld c ms cr) wn rf (ae_LeaderCommit args)) →
  sinv (mkWorld (setNode c p rf') (send p m ms) cr) wn.
Proof.
  intros Hs Hp Hri' (Hsv & _ & Hv) [Hlog Hrole] (Hd & Hci & Hmatch) Hsent Hcm.
  pose proof Hs as (Hri & Hno & _). pose proof (Hno p rf Hp) as Hni.
  assert (appendReplies (send p m ms) = appendReplies ms) as Hrep by (by destruct m).
  pose proof (evolves_role c ms (send p m ms) cr wn p rf rf' Hp Hv Hrole Hrep) as Hev.
  assert (∀ v t i, acked wn cr (send p m ms) v t i ↔ acked wn cr ms v t i) as Hack
    by (intros; by apply acked_replies).
  apply (sinv_local c ms _ cr wn p rf rf'); try done.
  - apply calmNode_intro; try done; [by eapply saves_durable, (ni_durable _ _ _ _ Hni)|].
    intros Hl Et _. split; [done|]. intros v mi Hmi.
    destruct (Hmatch v mi Hmi) as [?|[? Ha]]; [by left|right].
    rewrite (logSame_length _ _ Hlog). split; [done|]. intros i ??. apply Hack. by apply Ha.
  - by rewrite Hrep.
  - intros v t i. apply Hack.
  - apply (newMsgs_send _ _ wn ms p [m]); try done.
    + intros to' args <-%list_elem_of_singleton. destruct Hsent as (Hst & _ & Ht & Hsl); [done|].
      apply andb_true_iff in Hst as [Et%Z.eqb_eq Hl%bool_decide_eq_true].
      eapply (callOk_mono (mkWorld c ms cr)); [done| |].
      * intros r Hr Hlr. left.
        destruct (nodes_update c p rf rf' _ r Hp Hr) as [[-> ->]|[_ Hr']]; [|by exists r].
        exists rf. destruct (voteStep_leader _ _ Hv Hlr). done.
      * apply (callOk_slice _ _ p rf); try done; [by eapply sliceOf_logSame| |by eapply Hcm].
        rewrite Ht, <- Et. exists rf. split; [done|]. right. split; [done|by left].
    + intros to' args <-%list_elem_of_singleton. destruct Hsent as (_ & _ & ->); [done|].
      cbn. destruct Hlog as (_ & -> & _). by destruct (ni_whole _ _ _ _ Hni).
Qed.

Lemma sinv_snapshotReply c ms cr wn k w' :
  sinv (mkWorld c ms cr) wn → rinv w' → rstep (RSnapshotReply k) (mkWorld c ms cr) = Some w' → sinv w' wn.
Proof.
  intros Hs Hri' H. cbn in H. apply bind_Some in H as ([m reply] & Hk & H).
  apply bind_Some in H as (rf & Hp & H). pose proof Hs as (Hri & Hno & Hgh & Hms & _).
  destruct (sendInstallSnapshot_reply rf _ _ _) as [[rf' next]| | |] eqn:E; cbn in H; try done.
  injection H as <-. apply list_elem_of_lookup_2, (mo_sreply _ _ _ (proj2 (proj2 Hri))) in Hk.
  pose proof (mi_snapshot _ _ Hms m Hk) as E0. destruct (snapshotReply_sent _ _ _ _ _ _ E) as [Hst Hn].
  pose proof (Hno _ rf Hp) as Hni. destruct (rinv_wf _ _ _ Hri Hp) as [Hwf _].
  assert (commitIndex rf' = commitIndex rf ∧ leaderInitDone rf' = leaderInitDone rf ∧
    (∀ v mi, matchIndex rf' !! v = Some mi → matchIndex rf !! v = Some mi ∨ mi = 0) ∧
    ∀ to args, next = SendAppend to args → ae_LeaderCommit args = commitIndex rf) as (Hci & Hd & Hm & Hlc).
  { unfold sendInstallSnapshot_reply in E. destruct (stillLeader rf _); [|injection E as <- <-; split_and!; by try left].
    destruct (_ <? _); [injection E as <- <-; split_and!; by try left|].
    apply bind_Ret in E as (r & (_ & _ & ->)%setMatch_Ret & E). rewrite E0 in E.
    apply bind_Ret in E as (nx & Hnx & [= <- <-]). cbn. split_and!; try done.
    - intros v mi [(_ & -> & _)|[_ ?]]%list_lookup_insert_Some; auto.
    - intros to args ->. by apply appendArgsFrom_sliceOf in Hnx as (_&_&_&?). }
  eapply (sinv_reply c ms cr wn _ rf rf' (is_Term (sm_args m)) (sm_to m)); try done.
  - by eapply snapshotReply_calm.
  - split; [done|]. split; [done|]. intros v mi [?| ->]%Hm; [by left|right]. split.
    + pose proof (wf_log _ Hwf). unfold getLogLength. destruct (ni_whole _ _ _ _ Hni). lia.
    + intros i Hi [[u x] Hx]. apply (gi_orderly _ _ Hgh) in Hx. lia.
  - intros Hne. destruct (Hn Hne) as (? & _ & ?). done.
  - intros to args Hnx. rewrite (Hlc _ _ Hnx). apply (ni_commit _ _ _ _ Hni).
Qed.

(** A leader has the end of what it sent in its term. *)
Lemma leader_has_end w wn p rf k u :
  sinv w wn → nodes (cl w) !! p = Some rf → state (raftState rf) = leaderState →
  leaderEnd wn (created w) (currentTerm (raftState rf)) p k u → holds rf k u.
Proof.
  intros (_ & Hno & _) Hp Hl (b & s & Hb & Hend).
  destruct (ni_leader _ _ _ _ (Hno p rf Hp) Hl) as (b' & s' & Hb' & Hbs & Hcr & _).
  rewrite Hb in Hb'. injection Hb' as <- <-. destruct Hend as [[-> ->]|[-> Hx]]; [done|by apply Hcr].
Qed.

(** What the leader learns from a successful reply. *)
Lemma reply_ack w wn m reply rf :
  sinv w wn → (m, reply) ∈ appendReplies (msgs w) → aer_Success reply = true →
  nodes (cl w) !! am_from m = Some rf → stillLeader rf (ae_Term (am_args m)) = true →
  endIndex (am_args m) < getLogLength rf ∧
  ∀ i, i <= endIndex (am_args m) →
    acked wn (created w) (msgs w) (Z.to_nat (am_to m)) (currentTerm (raftState rf)) i.
Proof.
  intros Hs Hin Hsu Hp [Et%Z.eqb_eq Hl%bool_decide_eq_true]%andb_true_iff.
  pose proof Hs as (Hri & _ & _ & Hms & _). pose proof (mo_reply _ _ _ (proj2 (proj2 Hri)) _ _ Hin) as Hm.
  destruct (mi_append _ _ Hms m Hm) as [(_ & _ & He) _]. specialize (He rf Hp Hl Et). unfold msgEnd in He.
  destruct (mo_append _ _ _ (proj2 (proj2 Hri)) m Hm) as (H0 & _). split.
  - rewrite <- Et in He. by apply (leader_has_end w wn (am_from m) rf), holds_range in He as [_ ?].
  - intros i Hi. left. apply Exists_exists. exists (m, reply). split; [done|].
    unfold ack. cbn. split; [done|]. split; [lia|]. split; [done|]. split; [done|]. by rewrite Et.
Qed.

Lemma reply_commits w wn m rf :
  sinv w wn → m ∈ appends (msgs w) → nodes (cl w) !! am_from m = Some rf →
  stillLeader rf (ae_Term (am_args m)) = true → commitsAt w wn rf (ae_LeaderCommit (am_args m)).
Proof.
  intros Hs Hm Hp [Et%Z.eqb_eq Hl%bool_decide_eq_true]%andb_true_iff.
  pose proof Hs as (_ & _ & Hgh & Hms & _).
  destruct (mi_append _ _ Hms m Hm) as [(_ & (u & Hch & Hpos) & He) _]. specialize (He rf Hp Hl Et).
  unfold msgEnd in He. rewrite <- Et in He. apply (leader_has_end w wn (am_from m) rf) in He; try done.
  destruct (holds_last _ _ _ _ Hs Hp) as (lt & Hlt & _). exists u, lt. split_and!; [|done|].
  - exact (chain_holds w wn (am_from m) rf _ _ _ _ Hs Hp He Hch).
  - assert (endTerm (am_args m) <= lt) as Hle.
    { eapply onChain_term; [apply Hgh|]. eapply (holds_chain w wn (am_from m) rf); try done.
      apply holds_range in He. lia. }
    destruct Hpos as [?|(i & t & Hc & Ht & Ho)]; [by left|right]. exists i, t. split_and!; [done|lia|done].
Qed.

Lemma raise_lookup rf to m rf' v mi :
  raiseMatch rf to m = Ret rf' → matchIndex rf' !! v = Some mi →
  matchIndex rf !! v = Some mi ∨ v = Z.to_nat to ∧ mi = m.
Proof.
  intros (old & Hold & -> & _)%raiseMatch_Ret.
  intros [(<- & <- & _)|[_ ?]]%list_lookup_insert_Some; [|by left].
  destruct (Z.max_spec old m) as [[_ ->]|[_ ->]]; auto.
Qed.

(** The match index of a leader after a successful reply. *)
Lemma reply_trusts w wn m reply rf rf' k :
  sinv w wn → (m, reply) ∈ appendReplies (msgs w) → aer_Success reply = true →
  nodes (cl w) !! am_from m = Some rf → stillLeader rf (ae_Term (am_args m)) = true →
  k = endIndex (am_args m) →
  raiseMatch (if currentTerm (raftState rf) <? aer_Term reply then updateTerm (aer_Term reply) rf else rf)
    (am_to m) k = Ret rf' → trusts w wn rf rf'.
Proof.
  intros Hs Hin Hsu Hp Hst -> H. destruct (reply_ack _ _ _ _ _ Hs Hin Hsu Hp Hst) as [Hlt Hack].
  set (rf1 := if _ <? _ then _ else _) in H.
  assert (leaderInitDone rf1 = leaderInitDone rf ∧ commitIndex rf1 = commitIndex rf ∧
    matchIndex rf1 = matchIndex rf) as (E1 & E2 & E3) by (clear; subst rf1; by destruct (_ <? _)).
  clearbody rf1. destruct (raiseMatch_frame _ _ _ _ H) as (nx & mt & Erf).
  split; [by rewrite Erf|]. split; [by rewrite Erf|]. intros v mi Hmi.
  destruct (raise_lookup _ _ _ _ _ _ H Hmi) as [Hold|[-> ->]]; [left; congruence|by auto].
Qed.

Lemma heartbeatReply_trusts w wn m reply rf rf' :
  sinv w wn → (m, reply) ∈ appendReplies (msgs w) → nodes (cl w) !! am_from m = Some rf →
  stillLeader rf (ae_Term (am_args m)) = true → am_beat m = true →
  heartbeat_reply rf (am_to m) (am_args m) reply = Ret rf' → trusts w wn rf rf'.
Proof.
  intros Hs Hin Hp Hl Hb H. pose proof Hs as (Hri & _ & _ & Hms & _).
  pose proof (mo_reply _ _ _ (proj2 (proj2 Hri)) _ _ Hin) as Hm.
  unfold heartbeat_reply in H. cbn zeta in H. destruct (aer_Success reply) eqn:Es.
  - apply (reply_trusts w wn m reply rf rf' (ae_PrevLogIndex (am_args m))); try done.
    destruct (mi_append _ _ Hms m Hm) as [_ He]. rewrite Hb in He.
    unfold endIndex, zlen. rewrite He. cbn. lia.
  - injection H as <-. clear. destruct (_ <? _); by apply trusts_same.
Qed.

Lemma appendReply_trusts w wn m reply rf rf' next :
  sinv w wn → (m, reply) ∈ appendReplies (msgs w) → nodes (cl w) !! am_from m = Some rf →
  sendAppendEntries_reply rf (am_to m) (am_args m) reply = Ret (rf', next) →
  trusts w wn rf rf' ∧
  ∀ to args, next = SendAppend to args →
    stillLeader rf (ae_Term (am_args m)) = true ∧ ae_LeaderCommit args = ae_LeaderCommit (am_args m).
Proof.
  intros Hs Hin Hp H. unfold sendAppendEntries_reply in H.
  destruct (stillLeader rf _) eqn:Hl; cbn [negb] in H.
  2: { injection H as <- <-. split; [by apply trusts_same|done]. }
  cbn zeta in H. destruct (aer_Success reply) eqn:Es.
  { apply bind_Ret in H as (r & Hr & [= <- <-]). split; [|done]. by eapply (reply_trusts w wn m reply rf). }
  clear Hin Hs Hp. destruct (currentTerm (raftState rf) <? aer_Term reply).
  { injection H as <- <-. split; [by apply trusts_same|done]. }
  destruct (_ =? 0); [done|]. destruct (_ <=? _).
  { injection H as <- <-. split; [by apply trusts_same|done]. }
  apply bind_Ret in H as (nx & _ & H). apply bind_Ret in H as (pt & _ & H).
  apply bind_Ret in H as (es & _ & [= <- <-]). split; [by apply trusts_same|]. by intros ?? [= <- <-].
Qed.

Lemma sinv_appendReply c ms cr wn k w' :
  sinv (mkWorld c ms cr) wn → sbenign (RAppendReply k) (mkWorld c ms cr) → rinv w' →
  rstep (RAppendReply k) (mkWorld c ms cr) = Some w' → sinv w' wn.
Proof.
  intros Hs Hb Hri' H. cbn in H. apply bind_Some in H as ([m reply] & Hk & H).
  apply bind_Some in H as (rf & Hp & H). pose proof Hs as (Hri & _).
  pose proof (Hb m reply rf Hk) as Hbeat. apply list_elem_of_lookup_2 in Hk. cbn in Hk.
  pose proof (mo_reply _ _ _ (proj2 (proj2 Hri)) _ _ Hk) as Hm. cbn in Hm.
  destruct (rinv_wf _ _ _ Hri Hp) as [Hwf _].
  destruct (am_beat m) eqn:Ebeat.
  - destruct (heartbeat_reply rf _ _ _) as [rf'| | |] eqn:E; cbn in H; try done. injection H as <-.
    apply (sinv_reply c ms cr wn _ rf rf' 0 0 SendStop); try done.
    + by eapply heartbeatReply_calm.
    + by eapply heartbeatReply_still.
    + apply (heartbeatReply_trusts _ wn m reply); try done. by apply Hbeat.
  - destruct (sendAppendEntries_reply rf _ _ _) as [[rf' next]| | |] eqn:E; cbn in H; try done.
    injection H as <-. destruct (appendReply_sent _ _ _ _ _ _ Hwf E) as [Hst Hn].
    destruct (appendReply_trusts (mkWorld c ms cr) wn m reply rf rf' next Hs Hk Hp E) as [Htr Hlc].
    apply (sinv_reply c ms cr wn _ rf rf' (ae_Term (am_args m)) (am_to m)); try done.
    + by eapply appendReply_calm.
    + intros Hne. destruct (Hn Hne) as (? & _ & ?). done.
    + intros to args Hnx. destruct (Hlc _ _ Hnx) as [Hl ->]. by apply (reply_commits _ wn m rf).
Qed.
End appends.
