(* ===== verification/RaftEntries.v ===== *)
(** * RaftEntries: the invariant when logs change

    A leader creates an entry ([Start]); a follower stores the entries of a
    request ([AppendEntries]). *)

From S2P Require Import Prelude Labgob Persister RaftState RaftRpc RaftLeader RaftPeer RaftCluster RaftLinks RaftReplication RaftChains RaftQuorums RaftInvariant RaftSteps RaftVotes RaftAppends.
Local Open Scope Z_scope.

(** ** A leader creates an entry *)
Section start.
Context {C SV : Type}.
Implicit Types (r : Raft C SV) (v q : nat) (i t u : Z).
Context (c : Cluster C SV) (ms ms' : Msgs C SV) (cr : History C) (wn : Wins) (p : nat) (rf rf' : Raft C SV).
Context (command : C) (prev T idx : Z).
Let w := mkWorld c ms cr.
Let cr' : History C := <[(idx, T) := (prev, Some command)]> cr.
Let w' := mkWorld (setNode c p rf') ms' cr'.
Context (Hs : sinv w wn) (Hp : nodes c !! p = Some rf).
Context (Hl : state (raftState rf) = leaderState) (ET : currentTerm (raftState rf) = T).
Context (Ei : idx = getLogLength rf) (Hprev : holds rf (idx - 1) prev).
Context (Hrs : raftState rf' = raftState rf).
Context (Hli : lastIncludedIndex rf' = lastIncludedIndex rf) (Hlt : lastIncludedTerm rf' = lastIncludedTerm rf).
Context (Hlog : log rf' = log rf ++ [mkLogEntry T (Some command)]).
Context (Hrep : appendReplies ms' = appendReplies ms).

Lemma start_below i : is_Some (cr !! (i, T)) → i < idx.
Proof.
  intros [x Hx]. destruct Hs as ((_ & Hok & _) & _). rewrite <- ET in Hx. rewrite Ei.
  by apply (no_leader _ _ Hok p rf i x).
Qed.

Lemma start_sub : cr ⊆ cr'.
Proof.
  apply insert_subseteq. destruct (cr !! (idx, T)) eqn:E; [|done].
  pose proof (start_below idx (ex_intro _ _ E)). lia.
Qed.

Lemma start_created i t : is_Some (cr' !! (i, t)) → is_Some (cr !! (i, t)) ∨ i = idx ∧ t = T.
Proof. intros [x [[[= <- <-] _]|[_ ?]]%lookup_insert_Some]; [by right|left; by eexists]. Qed.

Lemma start_won : ∃ b s, wn !! T = Some (p, b, s) ∧ holds rf b s.
Proof.
  destruct Hs as (_ & Hno & _). destruct (ni_leader _ _ _ _ (Hno p rf Hp) Hl) as (b & s & Hb & Hbs & _).
  exists b, s. by rewrite <- ET.
Qed.

Lemma start_length : getLogLength rf' = idx + 1.
Proof. unfold getLogLength in *. rewrite Hli, Hlog, zlen_app. unfold zlen in *. cbn. lia. Qed.

Lemma start_whole : whole rf'.
Proof. destruct Hs as (_ & Hno & _). destruct (ni_whole _ _ _ _ (Hno p rf Hp)). split; congruence. Qed.

Lemma start_nonneg i t : holds rf i t → 0 <= i < idx.
Proof.
  intros H%holds_range. destruct Hs as (_ & Hno & _). destruct (ni_whole _ _ _ _ (Hno p rf Hp)). lia.
Qed.

Lemma start_keeps i t : holds rf i t → holds rf' i t.
Proof.
  intros H. pose proof (start_nonneg _ _ H) as Hr. destruct Hs as (Hri & Hno & _).
  pose proof (ni_whole _ _ _ _ (Hno p rf Hp)) as Hw. destruct (rinv_wf _ _ _ Hri Hp) as [Hwf _].
  destruct (decide (i = 0)) as [->|Hne].
  - rewrite (holds_fun _ _ _ _ H (holds_0 _ Hwf Hw)).
    destruct start_whole as [E1 E2]. unfold holds, getTermOfLog. rewrite start_length, E1, E2.
    by rewrite (proj2 (Z.leb_gt _ _)) by lia.
  - destruct (holds_entry _ _ _ Hw H) as (e & He & <-); [lia|].
    replace i with (Z.of_nat (Z.to_nat i)) by lia. apply holds_lookup; [apply start_whole| |lia].
    rewrite Hlog. by apply lookup_app_l_Some.
Qed.

Lemma start_new : holds rf' idx T.
Proof.
  destruct start_whole as [E1 _]. pose proof start_length as E2. unfold getLogLength in E2.
  rewrite Hlog, zlen_app in E2. unfold zlen in E2. cbn in E2.
  apply start_nonneg in Hprev. replace idx with (Z.of_nat (length (log rf))) by lia.
  change T with (le_Term (mkLogEntry T (Some command))).
  apply holds_lookup; [apply start_whole| |lia].
  rewrite Hlog, lookup_app_r, Nat.sub_diag by lia. done.
Qed.

Lemma start_holds i t : holds rf' i t → holds rf i t ∨ i = idx ∧ t = T.
Proof.
  intros H. pose proof (holds_range _ _ _ H) as Hr. rewrite start_length, (proj1 start_whole) in Hr.
  destruct (decide (i = idx)) as [->|Hne].
  - right. split; [done|]. exact (holds_fun _ _ _ _ H start_new).
  - left. destruct Hs as (_ & Hno & _). destruct (holds_some rf i) as [t' Ht'].
    + apply (ni_whole _ _ _ _ (Hno p rf Hp)).
    + lia.
    + by rewrite (holds_fun _ _ _ _ H (start_keeps _ _ Ht')).
Qed.

(** Nobody has the new entry yet, and only the leader gains it. *)
Lemma start_unacked v : ¬ acked wn cr ms v T idx.
Proof.
  destruct start_won as (b & s & Hb & _). intros [Ha|[_ ([i t] & x & Hx & Et & Hle)]].
  - apply Exists_exists in Ha as ([m a] & Hin & _ & _ & Et & Hle & He). cbn in *.
    assert (am_from m = p) as Ep by (destruct He as (? & ? & ? & _); congruence).
    rewrite Ep, <- ET in He. apply (leader_has_end w wn p rf) in He; try done.
    apply start_nonneg in He. lia.
  - cbn in *. rewrite Et in Hx. pose proof (start_below i (ex_intro _ _ Hx)). lia.
Qed.

Lemma start_acked v t i : acked wn cr' ms' v t i → acked wn cr ms v t i ∨ v = p ∧ t = T.
Proof.
  destruct start_won as (b & s & Hb & _). pose proof Hs as (Hri & _ & _ & Hms & _).
  intros [Ha|[Hv (it & x & Hx & <- & Hle)]].
  - left. left. rewrite Hrep in Ha. apply Exists_exists in Ha as ([m a] & Hin & Hsu & Hto & Et & Hle & He).
    apply Exists_exists. exists (m, a). split; [done|]. unfold ack. cbn in *. do 4 (split; [done|]).
    destruct He as (b' & s' & Hb' & [?|[Eu Hx]]); [by exists b', s'; split; [|left]|].
    apply start_created in Hx as [Hx|[E1 E2]]; [by exists b', s'; split; [|right]|].
    assert (am_from m = p) as Ep by congruence.
    apply (mo_reply _ _ _ (proj2 (proj2 Hri))) in Hin.
    destruct (mi_append _ _ Hms m Hin) as [(_ & _ & He) _]. rewrite <- Et. apply (He rf).
    + cbn. by rewrite Ep.
    + done.
    + congruence.
  - apply lookup_insert_Some in Hx as [[<- _]|[_ Hx]].
    + right. cbn in *. rewrite Hb in Hv. by injection Hv.
    + left. right. split; [done|]. by exists it, x.
Qed.

Lemma start_evolves : evolves w wn w' wn.
Proof.
  apply (evolves_set c _ ms ms' cr cr' wn wn p rf rf'); try done; rewrite ?Hrs; try done.
  - by left.
  - intros e He. left. by exists e.
  - apply start_sub.
  - by rewrite Hrep.
  - intros v r t i Hv Hlt' [?|[-> ->]]%start_acked; [done|]. simplify_eq. lia.
Qed.

Context (Hm : matchIndex rf' = <[p := idx]> (matchIndex rf)).
Context (Hinit : leaderInitDone rf = true) (Hinit' : leaderInitDone rf' = true).
Context (Hci : commitIndex rf' = commitIndex rf) (Hd : durable rf').

Lemma start_selfAck i : i <= idx → acked wn cr' ms' p T i.
Proof.
  intros Hi. destruct start_won as (b & s & Hb & _). right. split; [by rewrite Hb|].
  exists (idx, T), (prev, Some command). split; [apply lookup_insert_eq|]. by split.
Qed.

Lemma nodeInv_start : nodeInv w' wn p rf'.
Proof.
  pose proof Hs as (Hri & Hno & Hgh & _).
  destruct (Hno p rf Hp) as [Hw _ Ht Hlead _ Hmatch Ha Hc Hmain].
  assert (∀ i, is_Some (cr' !! (i, T)) → holds rf' i T) as Hall.
  { destruct (Hlead Hl) as (b & s & _ & _ & H1 & _). rewrite ET in H1.
    intros i [?|[-> _]]%start_created; [by apply start_keeps, H1|apply start_new]. }
  constructor; cbn; rewrite ?Hrs, ?ET; try done.
  - apply start_whole.
  - intros i t [Hh|[-> ->]]%start_holds; [|lia]. rewrite <- ET. by eapply Ht.
  - intros _. destruct (Hlead Hl) as (b & s & Hb & Hbs & _ & H2). rewrite ET in Hb, H2.
    exists b, s. split_and!; try done; [by apply start_keeps|]. rewrite start_length. intros i Hi.
    destruct (decide (i = idx)) as [->|Hne]; [apply start_new|]. apply start_keeps, H2. lia.
  - congruence.
  - intros _ _ v mi. rewrite Hm, start_length. intros [(<- & <- & _)|[Hne Hmi]]%list_lookup_insert_Some.
    + split; [lia|]. intros i Hi _. by apply start_selfAck.
    + destruct (Hmatch Hl (or_introl Hinit) v mi Hmi) as [H1 H2]. rewrite ET in H2. split; [lia|].
      intros i Hi [Hx|[-> _]]%start_created; [|lia].
      eapply (acked_mono _ _ _ _ start_evolves). by apply H2.
  - intros i t Hack Hx. destruct (decide (t = T)) as [->|Hne]; [split; [lia|left; by apply Hall]|].
    apply start_acked in Hack as [Hack|[_ ?]]; [|done]. apply start_created in Hx as [Hx|[_ ?]]; [|done].
    destruct (Ha i t Hack Hx) as [H1 H2]. rewrite ET in H1. split; [done|].
    destruct H2; [left; by apply start_keeps|right]. by eapply (blocked_mono _ _ _ _ start_evolves).
  - destruct Hc as (u & lt & Hu & Hlast & Hpos). exists u, T. rewrite Hci, start_length.
    split_and!; [by apply start_keeps|by replace (idx + 1 - 1) with idx by lia; apply start_new|].
    apply (commitPos_mono _ _ _ _ start_evolves lt T); [|done]. rewrite <- ET. by eapply Ht.
  - by left.
Qed.

Lemma ghostInv_start : ghostInv w' wn.
Proof.
  pose proof Hs as (Hri & Hno & [G1 G2 G3 G4 G5] & _). pose proof start_evolves as Hev.
  destruct start_won as (b & s & Hb & Hbs).
  assert (∀ j u i t, onChain cr j u i t → onChain cr' j u i t) as Hch
    by (intros j u i t; apply onChain_mono, start_sub).
  assert (∀ i t, holds rf i t → onChain cr' idx T i t) as Hdown.
  { intros i t Hit. eapply oc_down; [apply lookup_insert_eq|]. apply Hch.
    apply (holds_chain w wn p rf); try done. apply start_nonneg in Hit. lia. }
  constructor; change (created w') with cr'.
  - intros i t u x [[[= <- <-] [= <- _]]|[_ Hx]]%lookup_insert_Some; [|by eapply G1].
    pose proof (start_nonneg _ _ Hprev). destruct (holds_last _ _ _ _ Hs Hp) as (lt & Hlast & _ & H0).
    rewrite <- Ei in Hlast. rewrite <- (holds_fun _ _ _ _ Hlast Hprev).
    pose proof (ni_terms _ _ _ _ (Hno p rf Hp) _ _ Hlast). lia.
  - intros t q b' s' (H1 & H2 & H3)%G2. split_and!; try lia.
    + eapply majorityFor_mono; [apply Hev|apply Hev|done].
    + by eapply decided_mono.
  - intros i t [Hx|[-> ->]]%start_created.
    + destruct (G3 i t Hx) as (q & b' & s' & ? & ? & ?). exists q, b', s'. split_and!; auto.
    + exists p, b, s. split_and!; [done|by apply Hdown|]. apply start_nonneg in Hbs. lia.
  - intros i j t Hi Hj Hle. apply start_created in Hj as [Hj|[-> ->]].
    + apply start_created in Hi as [Hi|[-> ->]]; [by apply Hch, G4|]. apply start_below in Hj. lia.
    + apply start_created in Hi as [Hi|[-> _]]; [|constructor].
      apply Hdown. destruct (ni_leader _ _ _ _ (Hno p rf Hp) Hl) as (_ & _ & _ & _ & H1 & _).
      rewrite ET in H1. by apply H1.
  - intros t' q b' s' i t Hq Hlt' [Hx|[-> ->]]%start_created.
    { destruct (G5 t' q b' s' i t Hq Hlt' Hx); [left; by apply Hch|right; by eapply blocked_mono]. }
    right. destruct (G2 _ _ _ _ Hq) as ((Q & HQ & Hvotes)%majorityFor_quorum & _).
    eapply blocked_mono; [done|]. exists Q. split; [done|]. intros v Hv. split; [|apply start_unacked].
    destruct (inv_votes _ (proj1 Hri) _ _ _ (Hvotes v Hv)) as (_ & r & Hr & Hle & _). exists r. split; [done|lia].
Qed.

Context (Hri' : rinv w') (Hnew : newMsgs w w' wn).

Lemma sinv_start_leader : sinv w' wn.
Proof.
  pose proof Hs as (Hri & Hno & _ & Hms & Hvo). pose proof start_evolves as Hev.
  split; [done|]. split; [|split; [apply ghostInv_start|split]].
  - eapply (nodes_set c _ ms ms' cr cr' wn wn p rf rf'); try done.
    + intros q t i Hne Ha Hx. apply start_acked in Ha as [Ha|[? _]]; [|done]. split; [done|].
      apply start_created in Hx as [?|[-> ->]]; [done|]. by apply start_unacked in Ha.
    + intros q r i Hne Hq Hlq [?|[-> Et]]%start_created; [done|]. exfalso. apply Hne.
      eapply (majorityFor_agree c); [apply Hri| |].
      * by apply (inv_leader _ (proj1 Hri) q r).
      * rewrite Et, <- ET. by apply (inv_leader _ (proj1 Hri) p rf).
    + intros e He _. by exists e.
    + apply nodeInv_start.
  - eapply msgInv_mono; try done. apply (oldLeaders_set c _ ms ms' cr cr' p rf rf'); try done.
    rewrite Hrs. by left.
  - eapply voteInv_mono; try done; cbn; [apply Hri| | |by auto|by auto].
    + intros v r t i _ _ Ha [?|[-> ->]]%start_created; [done|]. by apply start_unacked in Ha.
    + intros q r r' Hq Hq' Et Hnone.
      destruct (nodes_update c p rf rf' q r' Hp Hq') as [[-> ->]|[_ Hqc]]; [|by simplify_eq].
      destruct start_won as (b & s & Hb & _). congruence.
Qed.
End start.

Section entries.
Context {C SV : Type}.
Implicit Types (c : Cluster C SV) (rf r : Raft C SV) (cr : History C) (w : World C SV) (ms : Msgs C SV).
Implicit Types (wn : Wins) (v p q : nat) (i t u : Z).

Lemma Start_frame rf (command : C) rf' x :
  Start rf command = Ret (rf', x) → x.2 = true →
  leaderInitDone rf = true ∧ leaderInitDone rf' = true ∧ commitIndex rf' = commitIndex rf ∧
  0 <= me rf ∧ matchIndex rf' = <[Z.to_nat (me rf) := getLogLength rf]> (matchIndex rf).
Proof.
  unfold Start. intros H Hx. destruct (isState _ _); [|by injection H as _ <-].
  destruct (leaderInitDone rf) eqn:Ed; [|done].
  apply bind_Ret in H as (m & [Hr Hm]%slice_set_Ret & H). apply bind_Ret in H as (n & _ & [= <- _]).
  split_and!; try done; [apply Hr|]. cbn. rewrite Hm. raft_cbn. f_equal.
  unfold getLogLength. raft_cbn. rewrite zlen_app. unfold zlen. cbn. lia.
Qed.

Lemma sinv_start c ms cr wn p command w' :
  sinv (mkWorld c ms cr) wn → rinv w' →
  rstep (RStart p command) (mkWorld c ms cr) = Some w' → sinv w' wn.
Proof.
  intros Hs Hri' H. cbn in H. apply bind_Some in H as (rf & Hp & H).
  destruct (Start rf command) as [[rf' [[index term] b]]| | |] eqn:E; cbn in H; try done.
  pose proof Hs as (Hri & Hno & _). destruct (rinv_wf _ _ _ Hri Hp) as [Hwf _].
  destruct (inv_node _ (proj1 Hri) _ _ Hp) as (_ & Hme & _). pose proof (Hno p rf Hp) as Hni.
  destruct (Start_effect _ _ _ _ E Hwf) as [Hrs Hb]. cbn in Hb. destruct b.
  2: { subst rf'. injection H as <-.
       apply (sinv_local c ms ms cr wn p rf rf); try done; [|by apply voteStep_refl|by apply newMsgs_same].
       apply calmNode_refl; [done|apply Hni|done]. }
  destruct Hb as (Hst & [= -> ->] & Hi & Ht & Hl).
  destruct (getTermOfLog rf (getLogLength rf - 1)) as [prev| | |] eqn:Eprev; cbn in H; try done.
  injection H as <-. destruct (Start_frame _ _ _ _ E eq_refl) as (Hd1 & Hd2 & Hci & _ & Hm).
  rewrite Hme, Nat2Z.id in Hm.
  destruct (Start_calm _ _ _ _ E) as (Hsv & _).
  apply (sinv_start_leader c ms _ cr wn p rf rf' command prev _ _); try done.
  - by eapply saves_durable, (ni_durable _ _ _ _ Hni).
  - constructor; cbn; auto. intros q t [[= -> ->]|Hin]%elem_of_cons; [right|by left].
    exists rf'. split; [cbn; by eapply list_lookup_insert_eq, lookup_lt_Some|]. rewrite Hrs.
    right. split; [done|by left].
Qed.

(** ** A follower stores entries *)

Lemma AppendEntries_leader rf args rf' reply :
  raft_wf rf → AppendEntries rf args = Ret (rf', reply) →
  matchIndex rf' = matchIndex rf ∧ leaderInitDone rf' = leaderInitDone rf ∧
  currentTerm (raftState rf') = Z.max (currentTerm (raftState rf)) (ae_Term args).
Proof.
  intros Hwf H. rewrite <- appendPrologue_term.
  destruct (appendPrologue_sameLog rf args) as (_&_&Hl0&Hi0&_&_&_&_&Em&Ed&_).
  destruct (aer_Success reply) eqn:Es.
  2: { assert (rf' = appendPrologue rf args) as -> by (apply AppendEntries_result in H; by destruct H). done. }
  destruct (AppendEntries_stored _ _ _ _ Hwf H Es) as (_ & Hr & _ & _ & _ & _ & _ & Hrs & _).
  apply AppendEntries_result in H. destruct H as [| |rf0 rf1 rf2 -> _ _ _ Hst Hc]; try done.
  destruct (storeEntries_spec (appendPrologue rf args) args) as (r & Hr' & Hreq).
  { unfold getLogLength in *. by rewrite Hl0, Hi0. }
  rewrite Hst in Hr'. injection Hr' as <-. rewrite Hrs.
  assert (matchIndex rf2 = matchIndex rf1 ∧ leaderInitDone rf2 = leaderInitDone rf1) as [-> ->]
    by (unfold advanceCommit, notifyApply in Hc; clear - Hc; by go_inv).
  rewrite Hreq. by case_decide.
Qed.

(** The end of what a leader of term [T] sends and an entry of a term up to
    [T] are comparable, unless the entry is blocked. *)
Lemma end_cmp w wn T p k u i t :
  ghostInv w wn → leaderEnd wn (created w) T p k u → is_Some (created w !! (i, t)) → t <= T →
  onChain (created w) k u i t ∨ t = T ∧ onChain (created w) i t k u ∨ blocked w wn i t.
Proof.
  intros Hg (b & s & Hb & Hend) Hi Hle. destruct (decide (t = T)) as [->|Hne].
  - destruct Hend as [[-> ->]|[-> Hk]].
    + right. left. split; [done|]. destruct (gi_created _ _ Hg i T Hi) as (q & b' & s' & Hb' & Hch & _). congruence.
    + destruct (decide (i <= k)); [left|right; left; split; [done|]]; apply (gi_chain _ _ Hg); done || lia.
  - destruct Hend as [[-> ->]|[-> Hk]].
    + destruct (gi_complete _ _ Hg T p b s i t Hb ltac:(lia) Hi); auto.
    + destruct (created_cmp w wn k T i t Hg Hk Hi); auto. lia.
Qed.
End entries.

Section store.
Context {C SV : Type}.
Implicit Types (r : Raft C SV) (v : nat) (i t u : Z).
Context (c : Cluster C SV) (ms : Msgs C SV) (cr : History C) (wn : Wins) (m : AppendMsg (C := C)).
Context (reply : AppendEntriesReply) (rf rf' : Raft C SV).
Let args := am_args m.
Let q := Z.to_nat (am_to m).
Let w := mkWorld c ms cr.
Let ms' := addAppendReply (m, reply) ms.
Let w' := mkWorld (setNode c q rf') ms' cr.
Context (Hs : sinv w wn) (Hri' : rinv w') (Hm : m ∈ appends ms) (Hq : nodes c !! q = Some rf).
Context (H : AppendEntries rf args = Ret (rf', reply)).

Lemma store_wf : raft_wf rf ∧ linkedLog cr rf ∧ whole rf ∧ raft_wf rf' ∧ linkedLog cr rf' ∧ whole rf'.
Proof.
  pose proof Hs as (Hri & Hno & _). destruct (rinv_wf _ _ _ Hri Hq) as [? ?].
  destruct (rinv_wf w' q rf' Hri') as [? ?]; [cbn; by eapply list_lookup_insert_eq, lookup_lt_Some|].
  pose proof (ni_whole _ _ _ _ (Hno q rf Hq)). do 5 (split; [done|]). exact (AppendEntries_whole rf args rf' reply ltac:(done) H ltac:(done)).
Qed.

Lemma store_linked : linked cr (ae_PrevLogIndex args) (ae_PrevLogTerm args) (ae_Entries args).
Proof.
  destruct Hs as ((_ & _ & Hms) & _). by destruct (mo_append _ _ _ Hms m Hm) as (_ & _ & ? & _).
Qed.

(** A request without entries changes no log; one with entries ends where its
    sender's log ended as leader of the term. *)
Lemma store_end :
  logSame rf rf' ∨
  aer_Success reply = true ∧ leaderEnd wn cr (ae_Term args) (am_from m) (endIndex args) (endTerm args).
Proof.
  destruct store_wf as (Hwf & _). pose proof Hs as (_ & _ & _ & Hms & _).
  destruct (aer_Success reply) eqn:Es.
  - destruct (mi_append _ _ Hms m Hm) as [_ He]. destruct (am_beat m); [left|by right].
    eapply AppendEntries_log_same; [done..|by right].
  - left. assert (rf' = appendPrologue rf args) as -> by (apply AppendEntries_result in H; by destruct H).
    by destruct (appendPrologue_sameLog rf args) as (_&_&?&?&?&_).
Qed.

Lemma store_term : aer_Success reply = true →
  currentTerm (raftState rf) <= ae_Term args ∧ currentTerm (raftState rf') = ae_Term args.
Proof.
  intros Es. destruct store_wf as (Hwf & _).
  destruct (AppendEntries_stored _ _ _ _ Hwf H Es) as (Hle & _).
  destruct (AppendEntries_leader _ _ _ _ Hwf H) as (_ & _ & Et). split; [done|lia].
Qed.

Lemma store_keeps i t :
  holds rf i t →
  onChain cr (endIndex args) (endTerm args) i t ∨ onChain cr i t (endIndex args) (endTerm args) → holds rf' i t.
Proof.
  destruct store_wf as (? & ? & ? & _). apply (AppendEntries_keeps cr rf args rf' reply); try done.
  apply store_linked.
Qed.

(** What the follower had is kept unless it is blocked. *)
Lemma store_holds i t :
  holds rf i t → is_Some (cr !! (i, t)) → holds rf' i t ∨ blocked w wn i t.
Proof.
  intros Hh Hi. pose proof Hs as (_ & Hno & Hgh & _). destruct store_end as [Hlog|[Es He]].
  - left. by apply (holds_logSame _ _ _ _ Hlog).
  - pose proof (ni_terms _ _ _ _ (Hno q rf Hq) _ _ Hh). pose proof (proj1 (store_term Es)).
    destruct (end_cmp w wn _ _ _ _ i t Hgh He Hi) as [?|[[_ ?]|?]]; [lia| | |by right];
      left; apply store_keeps; auto.
Qed.

Lemma store_acked v t i :
  acked wn cr ms' v t i →
  acked wn cr ms v t i ∨
  v = q ∧ aer_Success reply = true ∧ t = ae_Term args ∧ i <= endIndex args ∧
    leaderEnd wn cr t (am_from m) (endIndex args) (endTerm args).
Proof.
  intros [Ha|?]; [|left; by right]. apply Exists_cons in Ha as [(Es & Et & <- & Hle & He)|Ha].
  - right. cbn in *. split_and!; try done. subst q. lia.
  - left. by left.
Qed.

Lemma store_evolves : evolves w wn w' wn.
Proof.
  destruct store_wf as (Hwf & _). destruct (AppendEntries_calm _ _ _ _ H Hwf) as (_ & _ & Hv).
  destruct (AppendEntries_role _ _ _ _ H Hwf) as [Hr _].
  apply (evolves_set c _ ms ms' cr cr wn wn q rf rf'); try done.
  - by destruct (voteStep_termVote _ _ Hv).
  - intros ??. left. auto.
  - intros e He. left. by exists e.
  - intros x Hx. by right.
  - intros v r t i Hv' Hlt [?|(-> & Es & -> & _)]%store_acked; [done|].
    destruct (store_term Es). simplify_eq. lia.
Qed.

Lemma store_chain j u i t : holds rf' j u → onChain cr j u i t → holds rf' i t.
Proof.
  destruct store_wf as (_ & _ & _ & ? & ? & ?). apply (onChain_holds cr rf'); try done.
  destruct Hs as (_ & _ & Hgh & _). apply Hgh.
Qed.

Lemma store_onChain j u i t : holds rf' j u → holds rf' i t → i <= j → onChain cr j u i t.
Proof. destruct store_wf as (_ & _ & _ & ? & ? & ?). by apply holds_onChain. Qed.

Lemma store_chain_term j u i t : onChain cr j u i t → t <= u.
Proof. apply onChain_term. destruct Hs as (_ & _ & Hgh & _). apply Hgh. Qed.

Lemma store_has_end : aer_Success reply = true → holds rf' (endIndex args) (endTerm args).
Proof. destruct store_wf as (? & _ & ? & _). by eapply AppendEntries_end. Qed.

Lemma store_last : ∃ lt, holds rf' (getLogLength rf' - 1) lt.
Proof.
  destruct store_wf as (_ & _ & _ & Hwf & _ & Hw). apply holds_some; [done|].
  pose proof (wf_log _ Hwf). unfold getLogLength. destruct Hw. lia.
Qed.

(** The log ends as before, or with the request. *)
Lemma store_cut :
  logSame rf rf' ∨
  aer_Success reply = true ∧ getLogLength rf' = endIndex args + 1 ∧
  leaderEnd wn cr (ae_Term args) (am_from m) (endIndex args) (endTerm args).
Proof.
  destruct store_wf as (? & _ & ? & _). destruct store_end as [?|[Es He]]; [by left|].
  destruct (AppendEntries_last rf args rf' reply) as [?|[_ ?]]; [done..|by left|by right].
Qed.

Lemma end_term T p k u : leaderEnd wn cr T p k u → u <= T.
Proof.
  intros (b & s & Hb & [[-> ->]|[-> _]]); [|lia]. destruct Hs as (_ & _ & Hgh & _).
  destruct (gi_win _ _ Hgh _ _ _ _ Hb) as (_ & _ & ?). lia.
Qed.

Lemma store_terms i t : holds rf' i t → t <= currentTerm (raftState rf').
Proof.
  intros Hh. pose proof Hs as (_ & Hno & _). destruct store_cut as [Hlog|(Es & Hlen & He)].
  - apply (holds_logSame _ _ _ _ Hlog) in Hh. apply (ni_terms _ _ _ _ (Hno q rf Hq)) in Hh.
    destruct store_wf as (Hwf & _). destruct (AppendEntries_leader _ _ _ _ Hwf H) as (_ & _ & Et). lia.
  - destruct (store_term Es) as [_ ->]. apply end_term in He.
    assert (t <= endTerm args); [|lia]. eapply store_chain_term, store_onChain; [by apply store_has_end|done|].
    apply holds_range in Hh. lia.
Qed.

(** The last term does not fall below a committed entry the log had. *)
Lemma store_committed i t lt :
  committed w wn i t → holds rf (getLogLength rf - 1) lt → t <= lt →
  ∃ lt', holds rf' (getLogLength rf' - 1) lt' ∧ t <= lt'.
Proof.
  intros Hco Hlast Hle. pose proof Hs as (_ & Hno & Hgh & _). destruct store_cut as [Hlog|(Es & Hlen & He)].
  { exists lt. split; [|done]. rewrite (logSame_length _ _ Hlog). by apply (holds_logSame _ _ _ _ Hlog). }
  exists (endTerm args). rewrite Hlen. replace (endIndex args + 1 - 1) with (endIndex args) by lia.
  split; [by apply store_has_end|].
  pose proof (ni_terms _ _ _ _ (Hno q rf Hq) _ _ Hlast) as Hlt. destruct (store_term Es) as [HT _].
  destruct (end_cmp w wn _ _ _ _ i t Hgh He (proj1 Hco)) as [Hch|[[-> Hch]|Hbl]]; [lia|..].
  - by eapply store_chain_term.
  - assert (lt = ae_Term args) as -> by lia. destruct He as (b & s & Hb & [[Eb Et]|[-> _]]); [exfalso|lia].
    assert (is_Some (cr !! (getLogLength rf - 1, ae_Term args))) as Hcr.
    { apply (holds_created w wn q rf); try done. destruct (holds_last _ _ _ _ Hs Hq) as (_ & _ & H0 & _).
      destruct (decide (getLogLength rf - 1 = 0)) as [E|]; [|lia]. rewrite E in Hlast.
      destruct store_wf as (Hwf & _ & Hw & _). pose proof (holds_fun _ _ _ _ Hlast (holds_0 _ Hwf Hw)).
      destruct (gi_win _ _ Hgh _ _ _ _ Hb) as (_ & _ & ?). lia. }
    destruct (gi_created _ _ Hgh _ _ Hcr) as (p' & b' & s' & Hb' & Hch' & Hlt'). rewrite Hb in Hb'.
    injection Hb' as <- <- <-. rewrite <- Eb, <- Et in Hch'. rewrite <- Eb in Hlt'.
    pose proof (store_keeps _ _ Hlast (or_intror Hch')) as Hk. apply holds_range in Hk. lia.
  - exfalso. by eapply committed_not_blocked.
Qed.

(** A committed position of the log stays. *)
Lemma store_position k u lt :
  holds rf k u → holds rf (getLogLength rf - 1) lt → commitPos w wn lt k u →
  holds rf' k u ∧ ∃ lt', holds rf' (getLogLength rf' - 1) lt' ∧ commitPos w wn lt' k u.
Proof.
  intros Hk Hlast [[-> ->]|(i & t & Hco & Hle & Hch)].
  { destruct store_wf as (_ & _ & _ & Hwf & _ & Hw), store_last as [lt' Hlt'].
    split; [by apply holds_0|]. exists lt'. split; [done|by left]. }
  pose proof Hs as (_ & Hno & Hgh & _).
  destruct (store_committed i t lt Hco Hlast Hle) as (lt' & Hlt' & Hle'). split.
  2: { exists lt'. split; [done|right]. exists i, t. done. }
  destruct store_end as [Hlog|[Es He]]; [by apply (holds_logSame _ _ _ _ Hlog)|].
  pose proof (ni_terms _ _ _ _ (Hno q rf Hq) _ _ Hlast). destruct (store_term Es) as [HT _].
  apply store_keeps; [done|].
  destruct (end_cmp w wn _ _ _ _ i t Hgh He (proj1 Hco)) as [Hend|[[_ Hend]|Hbl]]; [lia|..].
  - left. by eapply onChain_trans.
  - destruct (decide (k <= endIndex args)); [left|right]; eapply onChain_split; try done. lia.
  - exfalso. by eapply committed_not_blocked.
Qed.

Lemma store_commit : commitsAt w wn rf' (commitIndex rf').
Proof.
  pose proof Hs as (_ & Hno & _ & Hms & _). destruct (ni_commit _ _ _ _ (Hno q rf Hq)) as (u & lt & Hu & Hlt & Hpos).
  destruct (store_position _ _ _ Hu Hlt Hpos) as (Hu' & lt' & Hlt' & Hpos').
  assert (commitIndex rf' = commitIndex rf ∨ aer_Success reply = true ∧
    commitIndex rf' = Z.min (ae_LeaderCommit args) (getLogLength rf' - 1)) as [->|[Es Eci]].
  { destruct store_wf as (Hwf & _). destruct (aer_Success reply) eqn:Es.
    - destruct (AppendEntries_stored _ _ _ _ Hwf H Es) as (_&_&_&_&_&_&_&_&->&_). case_match; auto.
    - left. assert (rf' = appendPrologue rf args) as -> by (apply AppendEntries_result in H; by destruct H).
      by destruct (appendPrologue_sameLog rf args) as (_&_&_&_&_&?&_). }
  { exists u, lt'. done. }
  destruct (mi_append _ _ Hms m Hm) as [(_ & (u1 & Hch & Hp1) & _) _]. fold args in Hch, Hp1.
  pose proof (store_has_end Es) as Hend. pose proof (holds_range _ _ _ Hend) as Hr.
  pose proof (onChain_le _ _ _ _ _ Hch). replace (commitIndex rf') with (ae_LeaderCommit args) by lia.
  exists u1, lt'. split_and!; [by eapply store_chain|done|].
  assert (endTerm args <= lt') by (eapply store_chain_term, store_onChain; [done|done|lia]).
  destruct Hp1 as [?|(i & t & ? & ? & ?)]; [by left|right]. exists i, t. split_and!; [done|lia|done].
Qed.

Lemma store_news i t :
  acked wn cr ms' q t i → is_Some (cr !! (i, t)) →
  t <= currentTerm (raftState rf') ∧ (holds rf' i t ∨ blocked w' wn i t).
Proof.
  intros Ha Hi. pose proof Hs as (_ & Hno & Hgh & _). destruct store_wf as (Hwf & _).
  apply store_acked in Ha as [Ha|(_ & Es & -> & Hle & b & s & Hb & He)].
  - destruct (ni_acked _ _ _ _ (Hno q rf Hq) i t Ha Hi) as [Ht Hor].
    destruct (AppendEntries_leader _ _ _ _ Hwf H) as (_ & _ & Et). split; [lia|].
    destruct Hor as [Hh|Hbl]; [|right; by eapply blocked_mono; [apply store_evolves|]].
    destruct (store_holds i t Hh Hi) as [?|Hbl]; [by left|right]. by eapply blocked_mono; [apply store_evolves|].
  - destruct (store_term Es) as [_ ->]. split; [lia|]. left.
    destruct He as [[Ek Eu]|[Eu Hk]].
    + destruct (gi_created _ _ Hgh _ _ Hi) as (p' & b' & s' & Hb' & _ & Hlt). rewrite Hb in Hb'.
      injection Hb' as <- <- <-. lia.
    + eapply store_chain; [by apply store_has_end|]. rewrite Eu. by apply (gi_chain _ _ Hgh).
Qed.

(** A leader stores no entries. *)
Lemma store_leader :
  state (raftState rf) = leaderState → currentTerm (raftState rf') = currentTerm (raftState rf) → logSame rf rf'.
Proof.
  intros Hst Et. destruct store_wf as (Hwf & _). pose proof Hs as (Hri & _).
  destruct (AppendEntries_leader _ _ _ _ Hwf H) as (_ & _ & Et').
  destruct (mo_append _ _ _ (proj2 (proj2 Hri)) m Hm) as (H0 & Hto & _ & Hmaj).
  eapply AppendEntries_log_same; [done..|]. destruct Hmaj as [?|Hmaj]; [by right|left].
  destruct (decide (ae_Term args = currentTerm (raftState rf))) as [E|]; [exfalso|lia].
  apply Hto. fold args in Hmaj. rewrite E in Hmaj.
  rewrite (majorityFor_agree c (am_from m) q _ (proj1 Hri) Hmaj (inv_leader _ (proj1 Hri) q rf Hq Hst)). lia.
Qed.

Lemma nodeInv_store : nodeInv w' wn q rf'.
Proof.
  pose proof Hs as (Hri & Hno & _). destruct store_wf as (Hwf & _ & _ & _ & _ & Hw').
  destruct (AppendEntries_calm _ _ _ _ H Hwf) as (Hsv & _ & Hv).
  pose proof (AppendEntries_role _ _ _ _ H Hwf) as Hrole.
  destruct (AppendEntries_leader _ _ _ _ Hwf H) as (Em & Ed & _).
  apply (nodeInv_moves w w' wn wn store_evolves q rf); [by apply Hno|]. constructor; try done.
  - by eapply saves_durable, (ni_durable _ _ _ _ (Hno q rf Hq)).
  - apply store_terms.
  - apply store_news.
  - destruct store_commit as (u & lt & ? & ? & Hpos). exists u, lt. split_and!; try done.
    eapply commitPos_mono; [apply store_evolves|reflexivity|done].
  - intros Hst. destruct (voteStep_leader _ _ Hv Hst) as [Hl Et]. rewrite Ed, Em.
    split; [done|]. split; [done|]. split; [by apply store_leader|]. split_and!; try done.
    intros Hi v mi ?. left. split; [|done]. unfold indexed in *. by rewrite Ed in Hi.
  - by apply (main_keep w wn q rf rf' Hri (Hno q rf Hq) Hq Hv Hrole).
Qed.

Lemma sinv_store : sinv w' wn.
Proof.
  pose proof Hs as (Hri & Hno & Hgh & Hms & Hvo). pose proof store_evolves as Hev.
  destruct store_wf as (Hwf & _). destruct (AppendEntries_calm _ _ _ _ H Hwf) as (_ & _ & Hv).
  split; [done|]. split; [|split; [by eapply ghostInv_calm|split]].
  - eapply (nodes_set c _ ms ms' cr cr wn wn q rf rf'); try done.
    + intros v t i Hne [?|[? _]]%store_acked Hi; done.
    + intros e He _. by exists e.
    + apply nodeInv_store.
  - eapply msgInv_mono; try done; [|by constructor; auto].
    apply (oldLeaders_set c _ ms ms' cr cr q rf rf'); [done..|]. intros Hst. left. by apply voteStep_leader.
  - eapply voteInv_mono; try done; cbn; [apply Hri| |by auto|by auto].
    intros p r r' Hp Hp' Et Hnone.
    destruct (nodes_update c q rf rf' p r' Hq Hp') as [[-> ->]|[_ Hpc]]; simplify_eq; [|done].
    destruct store_end as [?|[Es (b & s & Hb & _)]]; [done|]. destruct (store_term Es) as [_ Et'].
    rewrite <- Et, Et' in Hnone. congruence.
Qed.
End store.

Lemma sinv_append {C SV} (c : Cluster C SV) ms cr wn k w' :
  sinv (mkWorld c ms cr) wn → rinv w' → rstep (RAppend k) (mkWorld c ms cr) = Some w' → sinv w' wn.
Proof.
  intros Hs Hri' H. cbn in H. apply bind_Some in H as (m & Hk & H). apply bind_Some in H as (rf & Hq & H).
  destruct (AppendEntries rf (am_args m)) as [[rf' reply]| | |] eqn:E; cbn in H; try done.
  injection H as <-. apply list_elem_of_lookup_2 in Hk. by eapply sinv_store.
Qed.
