(* ===== verification/RaftSafety.v ===== *)
(** * RaftSafety: leader completeness and state machine safety

    The invariant of RaftInvariant holds along every run of a cluster that
    takes no snapshots ([sbenignRun] of RaftSteps), and what it says: a
    committed entry is in the log of every later leader, and two peers that
    have committed an index agree on the entry there, whenever they are looked
    at.  What peers hand to their services is therefore the same sequence. *)

From S2P Require Import Prelude Labgob Persister RaftState RaftRpc RaftLeader RaftPeer RaftCluster RaftLinks RaftReplication RaftChains RaftQuorums RaftInvariant RaftSteps RaftVotes RaftAppends RaftEntries.
Local Open Scope Z_scope.

Section safety.
Context {C SV : Type}.
Implicit Types (c : Cluster C SV) (rf : Raft C SV) (w : World C SV) (wn : Wins) (p q : nat) (i t u : Z).

(** ** Runs *)

(** The conditions of log matching hold by themselves. *)
Lemma sbenign_rbenign l w wn : sinv w wn → sbenign l w → rbenign l w.
Proof.
  intros (Hri & Hno & _ & Hms & _) Hb. destruct l; try done.
  - destruct l; try done.
  - intros m rf Hk Hp Hlt. apply list_elem_of_lookup_2, (mi_snapshot _ _ Hms) in Hk.
    pose proof (ni_whole _ _ _ _ (Hno _ rf Hp)) as [Hi _]. lia.
  - intros rf Hp. apply (ni_durable _ _ _ _ (Hno _ rf Hp)).
Qed.

Lemma sendAll_replies p l (ms : Msgs C SV) : appendReplies (sendAll p l ms) = appendReplies ms.
Proof. apply sendAll_frame. Qed.

Lemma beatAll_replies p n (args : AppendEntriesArgs C) (ms : Msgs C SV) :
  appendReplies (beatAll p n args ms) = appendReplies ms.
Proof. apply beatAll_rest. Qed.

(** Replies are not forgotten and peers do not come or go. *)
Lemma rstep_replies l w w' :
  rstep l w = Some w' →
  length (nodes (cl w')) = length (nodes (cl w)) ∧
  ∀ x, x ∈ appendReplies (msgs w) → x ∈ appendReplies (msgs w').
Proof.
  intros H. destruct w as [c ms cr].
  assert (∀ p m, appendReplies (send p m ms) = appendReplies ms) as Hsend by (by intros p []).
  destruct l; [..|apply bind_Some in H as (c' & [Hl _]%step_mono & [= <-]); done]; cbn -[cstep] in H;
    repeat (case_match || apply bind_Some in H as (? & ? & H)); simplify_eq/=;
    rewrite ?length_insert, ?sendAll_replies, ?beatAll_replies, ?Hsend; try done.
  all: try match goal with E : cstep _ _ = Some _ |- _ => apply step_mono in E as [-> _] end; try done.
  split; [done|]. intros y Hy. by right.
Qed.

Lemma sinv_step l w wn w' :
  sinv w wn → sbenign l w → rstep l w = Some w' → ∃ wn', later w wn w' wn' ∧ sinv w' wn'.
Proof.
  intros Hs Hb H. pose proof (sbenign_rbenign _ _ _ Hs Hb) as Hrb. pose proof Hs as (Hri & _).
  destruct (rinv_step _ _ _ Hri Hrb H) as [Hri' Hcr]. destruct (rstep_replies _ _ _ H) as [Hlen Hrep].
  cut (∃ wn', wn ⊆ wn' ∧ sinv w' wn'). { intros (wn' & ? & ?). by exists wn'. }
  assert (sinv w' wn → ∃ wn', wn ⊆ wn' ∧ sinv w' wn') as Hsame by (intros; by exists wn).
  destruct w as [c ms cr]. destruct l.
  - destruct l.
    + by eapply Hsame, sinv_node.
    + by eapply Hsame, sinv_main.
    + by eapply Hsame, sinv_elect.
    + by eapply Hsame, sinv_sendVote.
    + by eapply Hsame, sinv_deliver.
    + cbn in H. apply bind_Some in H as (c' & H & [= <-]). apply bind_Some in H as (e & He & H).
      apply bind_Some in H as ([[v args] reply] & _ & H). case_decide; [|done]. by eapply sinv_count.
    + cbn in H. apply bind_Some in H as (c' & H & [= <-]). apply bind_Some in H as (e & He & H).
      by eapply sinv_count.
    + done.
  - by eapply Hsame, sinv_timeout.
  - by eapply Hsame, sinv_start.
  - by eapply Hsame, sinv_broadcast.
  - by eapply Hsame, sinv_heartbeat.
  - by eapply Hsame, sinv_beat.
  - by eapply Hsame, sinv_leaderInit.
  - by eapply Hsame, sinv_leaderReady.
  - by eapply Hsame, sinv_scanTerm.
  - by eapply Hsame, sinv_scanCount.
  - by eapply Hsame, sinv_scanWrite.
  - by eapply Hsame, sinv_callAppend.
  - by eapply Hsame, sinv_callSnapshot.
  - by eapply Hsame, sinv_append.
  - by eapply Hsame, sinv_appendReply.
  - by eapply Hsame, sinv_snapshot.
  - by eapply Hsame, sinv_snapshotReply.
  - by eapply Hsame, sinv_restart.
Qed.

Lemma sinv_run w w' wn : sbenignRun w w' → sinv w wn → ∃ wn', later w wn w' wn' ∧ sinv w' wn'.
Proof.
  intros H. revert wn. induction H as [|w1 w2 w3 l Hb H _ IH]; intros wn Hs.
  - exists wn. split; [apply later_refl|done].
  - destruct (sinv_step _ _ _ _ Hs Hb H) as (wn2 & Hl2 & Hs2). destruct (IH wn2 Hs2) as (wn3 & Hl3 & Hs3).
    exists wn3. split; [by eapply later_trans|done].
Qed.

Lemma sinv_init n (snaps : nat → list SV) : sinv (initWorld (C := C) n snaps) ∅.
Proof.
  split; [apply rinv_init|]. split; [|split; [|split]].
  - intros p rf Hp. cbn in Hp. apply list_lookup_fmap_Some in Hp as (x & -> & _).
    assert (∀ i t, holds (initRaft (C := C) n (Z.of_nat x) (mkPersister [] (snaps x))) i t → t = 0) as H0.
    { intros i t Hh. pose proof (holds_range _ _ _ Hh) as Hr. unfold getLogLength, zlen in Hr. cbn in Hr.
      assert (i = 0) as -> by lia. cbv in Hh. by injection Hh. }
    constructor; try done.
    + by eexists.
    + intros i t ->%H0. done.
    + intros i t _ [y Hy]. cbn in Hy. by rewrite lookup_empty in Hy.
    + exists 0, 0. split_and!; [done..|by left].
    + unfold inLeaderMain. cbn. destruct (replicate n None !! p) eqn:Hm; [|done].
      by apply lookup_replicate in Hm as [-> _].
  - constructor; cbn; intros *; rewrite ?lookup_empty; try done; by intros [? ?].
  - constructor; cbn; intros; by match goal with H : _ ∈ [] |- _ => apply not_elem_of_nil in H end.
  - constructor; cbn; intros; by match goal with H : _ ∈ [] |- _ => apply not_elem_of_nil in H end.
Qed.

(** A run of [n] peers with empty logs in which the conditions of RaftSteps hold
    at every step. *)
Definition safeRun n (snaps : nat → list SV) w : Prop := sbenignRun (initWorld n snaps) w.

(** ** What was committed *)

(** Of two committed entries one is below the other. *)
Lemma committed_cmp w wn i t j u :
  ghostInv w wn → committed w wn i t → committed w wn j u →
  onChain (created w) i t j u ∨ onChain (created w) j u i t.
Proof.
  intros Hg Hi Hj.
  assert (∀ i t j u, committed w wn i t → committed w wn j u → t < u ∨ t = u ∧ i <= j →
    onChain (created w) j u i t) as Hcmp.
  { intros i' t' j' u' H1 H2 Hor.
    destruct (created_cmp w wn j' u' i' t' Hg (proj1 H2) (proj1 H1) Hor) as [?|Hb]; [done|].
    by destruct (committed_not_blocked _ _ _ _ H1 Hb). }
  destruct (decide (t < u ∨ t = u ∧ i <= j)) as [?|Hno]; [right; auto|left]. apply Hcmp; [done..|lia].
Qed.

(** Two committed positions agree on every index below them. *)
Lemma commitPos_agree w wn T1 T2 k1 u1 k2 u2 i v1 v2 :
  ghostInv w wn → commitPos w wn T1 k1 u1 → commitPos w wn T2 k2 u2 → 0 < i →
  onChain (created w) k1 u1 i v1 → onChain (created w) k2 u2 i v2 → v1 = v2.
Proof.
  intros Hg [[-> ->]|(i1 & t1 & Hc1 & _ & H1)] Hp2 Hi Ho1 Ho2; [apply onChain_le in Ho1; lia|].
  destruct Hp2 as [[-> ->]|(i2 & t2 & Hc2 & _ & H2)]; [apply onChain_le in Ho2; lia|].
  pose proof (onChain_trans _ _ _ _ _ _ _ H1 Ho1) as O1. pose proof (onChain_trans _ _ _ _ _ _ _ H2 Ho2) as O2.
  destruct (committed_cmp _ _ _ _ _ _ Hg Hc1 Hc2) as [Hc|Hc].
  - exact (onChain_fun _ _ _ _ _ _ O1 (onChain_trans _ _ _ _ _ _ _ Hc O2)).
  - exact (onChain_fun _ _ _ _ _ _ (onChain_trans _ _ _ _ _ _ _ Hc O1) O2).
Qed.

(** What a peer has committed by [w1], in terms of the history of [w2]. *)
Lemma committed_prefix w1 wn1 w2 wn2 p rf i :
  sinv w1 wn1 → later w1 wn1 w2 wn2 → nodes (cl w1) !! p = Some rf → 0 < i <= commitIndex rf →
  raft_wf rf ∧ whole rf ∧ linkedLog (created w2) rf ∧
  ∃ k u T v, commitPos w2 wn2 T k u ∧ T <= currentTerm (raftState rf) ∧ onChain (created w2) k u i v ∧ holds rf i v.
Proof.
  intros Hs Hl Hp Hi. pose proof Hs as (Hri & Hno & _). pose proof (Hno p rf Hp) as Hni.
  destruct (rinv_wf _ _ _ Hri Hp) as [Hwf Hlink]. pose proof (ni_whole _ _ _ _ Hni) as Hw.
  destruct (ni_commit _ _ _ _ Hni) as (u & lt & Hu & Hlast & Hpos).
  destruct (holds_some rf i Hw) as [v Hv]; [apply holds_range in Hu; lia|].
  split; [done|]. split; [done|]. split; [eapply linked_mono; [apply Hl|done]|].
  exists (commitIndex rf), u, lt, v. split; [|split; [|split; [|done]]].
  - eapply commitPos_later; [done|reflexivity|done].
  - exact (ni_terms _ _ _ _ Hni _ _ Hlast).
  - eapply onChain_mono; [apply Hl|]. apply (holds_chain w1 wn1 p rf); done || lia.
Qed.

Lemma same_entry cr rf1 rf2 i v :
  raft_wf rf1 → raft_wf rf2 → whole rf1 → whole rf2 → linkedLog cr rf1 → linkedLog cr rf2 →
  0 < i → holds rf1 i v → holds rf2 i v → ∃ e, getLog rf1 i = Ret e ∧ getLog rf2 i = Ret e.
Proof.
  intros Hw1 Hw2 [E1 _] [E2 _] Hl1 Hl2 Hi H1 H2.
  destruct (linkedLog_same cr rf1 rf2 i v) as [Hg _]; [done..|lia|lia|].
  destruct (getTermOfLog_entry rf1 i v H1) as (e & He & _); [lia|]. exists e. by rewrite <- Hg.
Qed.

(** C5. Leader completeness: the log of a leader has every entry that some peer had
    committed earlier in the run, in a term not after the leader's.  The runs are those of
    [state_machine_safety]. *)
Theorem leader_completeness n (snaps : nat → list SV) w1 w2 p q rf1 rf2 i :
  safeRun n snaps w1 → sbenignRun w1 w2 →
  nodes (cl w1) !! p = Some rf1 → nodes (cl w2) !! q = Some rf2 →
  state (raftState rf2) = leaderState → currentTerm (raftState rf1) <= currentTerm (raftState rf2) →
  0 < i <= commitIndex rf1 →
  ∃ e, getLog rf1 i = Ret e ∧ getLog rf2 i = Ret e.
Proof.
  intros H1 H2 Hp Hq Hl Hle Hi. destruct (sinv_run _ _ _ H1 (sinv_init n snaps)) as (wn1 & _ & Hs1).
  destruct (sinv_run _ _ _ H2 Hs1) as (wn2 & Hl2 & Hs2). pose proof Hs2 as (Hri2 & Hno2 & Hg2 & _).
  destruct (committed_prefix _ _ _ _ _ _ _ Hs1 Hl2 Hp Hi) as (Hwf1 & Hw1 & Hlk1 & k & u & T & v & Hpos & HT & Ho & Hv).
  destruct (rinv_wf _ _ _ Hri2 Hq) as [Hwf2 Hlk2]. pose proof (Hno2 q rf2 Hq) as Hni.
  apply (same_entry (created w2) rf1 rf2 i v); try done; [apply Hni|lia|].
  destruct Hpos as [[-> ->]|(i' & t' & Hc & Ht & Hk)]; [apply onChain_le in Ho; lia|].
  destruct (ni_leader _ _ _ _ Hni Hl) as (b & s & Hb & Hbs & Hcr & _).
  assert (holds rf2 i' t') as Hh; [|exact (chain_holds w2 wn2 q rf2 _ _ _ _ Hs2 Hq Hh (onChain_trans _ _ _ _ _ _ _ Hk Ho))].
  destruct (decide (t' = currentTerm (raftState rf2))) as [->|Hne]; [by apply Hcr, Hc|].
  destruct (gi_complete _ _ Hg2 _ _ _ _ i' t' Hb) as [Hch|Hbl]; [lia|apply Hc| |].
  - exact (chain_holds w2 wn2 q rf2 _ _ _ _ Hs2 Hq Hbs Hch).
  - by destruct (committed_not_blocked _ _ _ _ Hc Hbl).
Qed.

Lemma committed_entries w1 wn1 w2 wn2 p q rf1 rf2 i :
  sinv w1 wn1 → sinv w2 wn2 → later w1 wn1 w2 wn2 →
  nodes (cl w1) !! p = Some rf1 → nodes (cl w2) !! q = Some rf2 →
  0 < i → i <= commitIndex rf1 → i <= commitIndex rf2 →
  ∃ e, getLog rf1 i = Ret e ∧ getLog rf2 i = Ret e.
Proof.
  intros Hs1 Hs2 Hl2 Hp Hq Hi Hc1 Hc2. pose proof Hs2 as (_ & _ & Hg2 & _).
  destruct (committed_prefix _ _ _ _ _ _ i Hs1 Hl2 Hp) as (? & ? & ? & k1 & u1 & T1 & v1 & P1 & _ & O1 & V1); [lia|].
  destruct (committed_prefix _ _ _ _ _ _ i Hs2 (later_refl _ _) Hq) as (? & ? & ? & k2 & u2 & T2 & v2 & P2 & _ & O2 & V2); [lia|].
  rewrite (commitPos_agree w2 wn2 T1 T2 k1 u1 k2 u2 i v1 v2) in V1 by done.
  by apply (same_entry (created w2) rf1 rf2 i v2).
Qed.

(** C1. In every run of a Raft cluster without snapshots, with lost, delayed and repeated
    messages, elections and restarts, two peers that have committed an index, at the same
    or at different moments, have the same entry there.  The run leaves out the
    interleavings that are reported as defects: an election that a peer starts although it
    has meanwhile become leader, and commit counts, commit writes and heartbeat replies
    that a peer handles after it has stopped leading their term. *)
Theorem state_machine_safety n (snaps : nat → list SV) w1 w2 p q rf1 rf2 i :
  safeRun n snaps w1 → sbenignRun w1 w2 →
  nodes (cl w1) !! p = Some rf1 → nodes (cl w2) !! q = Some rf2 →
  0 < i → i <= commitIndex rf1 → i <= commitIndex rf2 →
  ∃ e, getLog rf1 i = Ret e ∧ getLog rf2 i = Ret e.
Proof.
  intros H1 H2 Hp Hq Hi Hc1 Hc2. destruct (sinv_run _ _ _ H1 (sinv_init n snaps)) as (wn1 & _ & Hs1).
  destruct (sinv_run _ _ _ H2 Hs1) as (wn2 & Hl2 & Hs2).
  by apply (committed_entries w1 wn1 w2 wn2 p q).
Qed.

(** ** What the services see *)

(** A command on [applyCh] is the committed entry of its index. *)
Lemma applied_entry rf nextApplied es cmd i :
  applyBegin rf nextApplied = Ret (Some es) → whole rf →
  CommandMsg (SV := SV) cmd i ∈ applyMsgs nextApplied es →
  0 < i <= commitIndex rf ∧ ∃ e, getLog rf i = Ret e ∧ le_Command e = cmd.
Proof.
  unfold applyBegin, getLogs. intros H [Hw _] Hin. go_inv.
  match goal with H : slice_sub _ _ _ = _ |- _ => apply slice_sub_Ret in H as (Ha & Hb & Hes) end.
  raft_cbn. apply list_elem_of_lookup in Hin as [k Hk]. unfold applyMsgs in Hk.
  rewrite list_lookup_imap in Hk. apply fmap_Some in Hk as (e & He & [= -> ->]).
  rewrite Hes in He. apply lookup_take_Some in He as [He Hlt]. rewrite lookup_drop in He.
  rewrite Hw in *. split; [lia|]. exists e. split; [|done]. unfold getLog, getLogLength in *. rewrite Hw in *.
  rewrite (proj2 (Z.leb_gt _ _)) by lia. rewrite (proj2 (Z.leb_gt _ _)) by lia.
  apply slice_get_Ret. split; [lia|]. rewrite <- He. f_equal. lia.
Qed.

(** Two peers hand the same command to their services at the same index,
    whenever their [applyLoop]s run. *)
Theorem applied_commands_agree n (snaps : nat → list SV) w1 w2 p q rf1 rf2 n1 n2 es1 es2 i cmd1 cmd2 :
  safeRun n snaps w1 → sbenignRun w1 w2 →
  nodes (cl w1) !! p = Some rf1 → nodes (cl w2) !! q = Some rf2 →
  applyBegin rf1 n1 = Ret (Some es1) → applyBegin rf2 n2 = Ret (Some es2) →
  CommandMsg (SV := SV) cmd1 i ∈ applyMsgs n1 es1 → CommandMsg (SV := SV) cmd2 i ∈ applyMsgs n2 es2 →
  cmd1 = cmd2.
Proof.
  intros H1 H2 Hp Hq A1 A2 M1 M2. destruct (sinv_run _ _ _ H1 (sinv_init n snaps)) as (wn1 & _ & Hs1).
  destruct (sinv_run _ _ _ H2 Hs1) as (wn2 & Hl2 & Hs2).
  pose proof Hs1 as (_ & Hno1 & _). pose proof Hs2 as (_ & Hno2 & _).
  destruct (applied_entry _ _ _ _ _ A1 (ni_whole _ _ _ _ (Hno1 p rf1 Hp)) M1) as ([Hi Hc1] & e1 & G1 & <-).
  destruct (applied_entry _ _ _ _ _ A2 (ni_whole _ _ _ _ (Hno2 q rf2 Hq)) M2) as ([_ Hc2] & e2 & G2 & <-).
  destruct (committed_entries w1 wn1 w2 wn2 p q rf1 rf2 i) as (e & E1 & E2); try done. congruence.
Qed.
End safety.
