(* ===== verification/RaftApply.v ===== *)
(** * RaftApply: the sequence of commands a cluster agrees on

    [chosen w wn i c]: command [c] is committed at index [i].  There is at most
    one such command per index, it never changes, and it is what the [applyLoop]
    of every peer sends at [i].  [served] says what the steps of a cluster leave
    alone between two turns of an [applyLoop]. *)

From S2P Require Import Prelude Labgob Persister RaftState RaftRpc RaftLeader RaftPeer RaftCluster RaftLinks RaftReplication RaftChains RaftQuorums RaftInvariant RaftSteps RaftVotes RaftAppends RaftEntries RaftSafety.
Local Open Scope Z_scope.

Section chosen.
Context {C SV : Type}.
Implicit Types (rf : Raft C SV) (w : World C SV) (wn : Wins) (p : nat) (i : Z) (c : option C).

Definition chosen w wn i c : Prop :=
  0 < i ∧ ∃ T k u v x, commitPos w wn T k u ∧ onChain (created w) k u i v ∧ created w !! (i, v) = Some (x, c).

Lemma chosen_fun w wn i c c' : ghostInv w wn → chosen w wn i c → chosen w wn i c' → c = c'.
Proof.
  intros Hg (Hi & T & k & u & v & x & P1 & O1 & C1) (_ & T' & k' & u' & v' & x' & P2 & O2 & C2).
  rewrite (commitPos_agree w wn T T' k u k' u' i v v') in C1 by done. by simplify_eq.
Qed.

Lemma chosen_later w wn w' wn' i c : later w wn w' wn' → chosen w wn i c → chosen w' wn' i c.
Proof.
  intros Hl (Hi & T & k & u & v & x & P1 & O1 & C1). split; [done|]. exists T, k, u, v, x. split_and!.
  - eapply commitPos_later; [done|reflexivity|done].
  - eapply onChain_mono; [apply Hl|done].
  - eapply lookup_weaken; [done|apply Hl].
Qed.

(** What a peer has committed is chosen. *)
Lemma committed_chosen w wn p rf i :
  sinv w wn → nodes (cl w) !! p = Some rf → 0 < i <= commitIndex rf →
  ∃ e, getLog rf i = Ret e ∧ chosen w wn i (le_Command e).
Proof.
  intros Hs Hp Hi.
  destruct (committed_prefix _ _ _ _ _ _ _ Hs (later_refl _ _) Hp Hi) as (Hwf & Hw & Hlk & k & u & T & v & Hpos & _ & Ho & Hv).
  destruct (getTermOfLog_entry rf i v Hv) as (e & He & <-); [destruct Hw; lia|].
  destruct (linkedLog_getLog _ _ _ _ Hwf Hlk He) as (x & _ & Hc). exists e. split; [done|].
  split; [lia|]. by exists T, k, u, (le_Term e), x.
Qed.

(** A batch of [applyLoop]: chosen commands. *)
Lemma applyBegin_chosen w wn p rf next es :
  sinv w wn → nodes (cl w) !! p = Some rf → applyBegin rf next = Ret (Some es) →
  ∀ k msg, applyMsgs (SV := SV) next es !! k = Some msg →
    ∃ c, msg = CommandMsg c (next + Z.of_nat k) ∧ chosen w wn (next + Z.of_nat k) c.
Proof.
  intros Hs Hp H k msg Hk. pose proof Hs as (_ & Hno & _). assert (∃ c, msg = CommandMsg c (next + Z.of_nat k)) as [c ->].
  { unfold applyMsgs in Hk. rewrite list_lookup_imap in Hk. apply fmap_Some in Hk as (e & _ & ->).
    eexists. f_equal. lia. }
  exists c. split; [done|]. apply list_elem_of_lookup_2 in Hk.
  destruct (applied_entry _ _ _ _ _ H (ni_whole _ _ _ _ (Hno p rf Hp)) Hk) as (Hi & e & He & <-).
  destruct (committed_chosen _ _ _ _ _ Hs Hp Hi) as (e' & He' & Hc). rewrite He in He'. by injection He' as <-.
Qed.
End chosen.

(** ** Between two batches *)
Section served.
Context {C SV : Type}.
Implicit Types (rf : Raft C SV) (w : World C SV) (wn : Wins) (p : nat).

(** What the peer has handed to its service stays, and so does the snapshot. *)
Definition served rf rf' : Prop :=
  lastApplied rf' = lastApplied rf ∧ ReadSnapshot (persister rf') = ReadSnapshot (persister rf).

Definition servedOp (op : peerOp C SV) : bool :=
  match op with
  | OpInstallSnapshot _ | OpSnapshot _ _ | OpApplyEnd _ | OpRestart => false
  | _ => true
  end.

Lemma served_refl rf : served rf rf.
Proof. done. Qed.

Lemma served_maybe t rf : served rf (if currentTerm (raftState rf) <? t then updateTerm t rf else rf).
Proof. by destruct (_ <? _). Qed.

Lemma served_trans rf1 rf2 rf3 : served rf1 rf2 → served rf2 rf3 → served rf1 rf3.
Proof. intros [] []. split; congruence. Qed.

Lemma served_raise rf to m rf' : raiseMatch rf to m = Ret rf' → served rf rf'.
Proof. intros (n & l & ->)%raiseMatch_frame. done. Qed.

Lemma RequestVote_served rf args rf' reply : RequestVote rf args = Ret (rf', reply) → served rf rf'.
Proof.
  unfold RequestVote. intros H. destruct (_ <=? _); [|by injection H as <- _].
  pose proof (served_maybe (rv_Term args) rf) as Hm.
  set (rf1 := if _ <? _ then _ else _) in *. clearbody rf1.
  destruct (_ || _); [|by injection H as <- _]. apply bind_Ret in H as (b & _ & H).
  destruct b; injection H as <- _; [|done]. eapply served_trans; [done|]. done.
Qed.

Lemma AppendEntries_served rf args rf' reply :
  raft_wf rf → AppendEntries rf args = Ret (rf', reply) → served rf rf'.
Proof.
  intros Hwf H.
  assert (served rf (appendPrologue rf args)) as Hp by (unfold appendPrologue; repeat case_match; done).
  destruct (aer_Success reply) eqn:Es.
  - destruct (AppendEntries_stored _ _ _ _ Hwf H Es) as (_&_&_&_&_&_&Ha&_&_&Hps).
    split; [done|]. rewrite Hps. destruct Hp as [_ Hp]. by case_decide.
  - assert (rf' = appendPrologue rf args) as -> by (apply AppendEntries_result in H; by destruct H). done.
Qed.

Lemma appendReply_served rf to args reply rf' next :
  sendAppendEntries_reply rf to args reply = Ret (rf', next) → served rf rf'.
Proof.
  unfold sendAppendEntries_reply. intros H. destruct (negb _); [by injection H as <- _|]. cbn zeta in H.
  pose proof (served_maybe (aer_Term reply) rf) as Hm.
  destruct (aer_Success reply).
  { apply bind_Ret in H as (r & Hr%served_raise & [= <- _]). by eapply served_trans. }
  destruct (currentTerm (raftState rf) <? aer_Term reply); [by injection H as <- _|]. by go_inv.
Qed.

Lemma voteReply_served rf term sum ok reply rf' sum' :
  voteReply rf term sum ok reply = Some (rf', sum') → served rf rf'.
Proof.
  unfold voteReply. intros H. destruct (_ || _); [done|]. destruct ok; [|by injection H as <- _].
  pose proof (served_maybe (rvr_Term reply) rf) as Hm.
  set (rf1 := if currentTerm (raftState rf) <? rvr_Term reply then _ else _) in *. clearbody rf1.
  destruct (rvr_VoteGranted reply); [destruct (_ && _)|]; by injection H as <- _.
Qed.

Lemma exec_served op rf rf' : raft_wf rf → servedOp op = true → exec op rf = Ret rf' → served rf rf'.
Proof.
  intros Hwf Hop H. destruct op; try done; cbn [exec] in H.
  - apply bind_Ret in H as ([r a] & H & [= <-]). by eapply RequestVote_served.
  - apply bind_Ret in H as ([r a] & H & [= <-]). by eapply AppendEntries_served.
  - apply bind_Ret in H as ([r a] & H & [= <-]). unfold Start in H. by go_inv.
  - apply bind_Ret in H as ([r a] & H & [= <-]). by eapply appendReply_served.
  - apply bind_Ret in H as ([r a] & H & [= <-]). unfold sendInstallSnapshot_reply, setMatch in H. by go_inv.
  - unfold heartbeat_reply in H. cbn zeta in H. pose proof (served_maybe (aer_Term reply) rf).
    destruct (aer_Success reply); [|by injection H as <-]. eapply served_trans; [done|]. by eapply served_raise.
  - unfold commitWrite, notifyApply in H. by go_inv.
  - by injection H as <-.
  - by injection H as <-.
  - by injection H as <-.
  - destruct (voteReply _ _ _ _ _) as [[r s]|] eqn:E; injection H as <-; [by eapply voteReply_served|done].
  - injection H as <-. unfold followerTick. by case_match.
  - by injection H as <-.
  - apply bind_Ret in H as ([r a] & H & [= <-]). unfold applyCheck in H. by go_inv.
  - by injection H as <-.
Qed.

(** *** Steps of a cluster *)

(** Label [l] may run [op] on peer [p]. *)
Definition runs (l : rlabel C SV) w (p : nat) (op : peerOp C SV) : Prop :=
  match l with
  | RCluster (LNode q op') => q = p ∧ op' = op
  | RSnapshot k => ∃ m, m ∈ snapshots (msgs w) ∧ op = OpInstallSnapshot (sm_args m)
  | RRestart q => q = p ∧ op = OpRestart
  | _ => servedOp op = true
  end.

(** A step changes at most one peer, by one of its critical sections. *)
Definition nodeStep (l : rlabel C SV) w w' : Prop :=
  nodes (cl w') = nodes (cl w) ∨
  ∃ p rf rf' op, nodes (cl w) !! p = Some rf ∧ nodes (cl w') = <[p := rf']> (nodes (cl w)) ∧
    exec op rf = Ret rf' ∧ runs l w p op.

Lemma cluster_nodeStep l w c' :
  cstep l (cl w) = Some c' → (∀ p, l ≠ LRestart p) → nodeStep (RCluster l) w (mkWorld c' (msgs w) (created w)).
Proof.
  intros H Hl. unfold nodeStep. cbn.
  assert (∀ g e from reply, countReply (cl w) g e from reply = Some c' →
    nodes c' = nodes (cl w) ∨ ∃ p rf rf' op, nodes (cl w) !! p = Some rf ∧
      nodes c' = <[p := rf']> (nodes (cl w)) ∧ exec op rf = Ret rf' ∧ servedOp op = true) as Hcount.
  { intros g e from reply Hc. unfold countReply in Hc. apply bind_Some in Hc as (rf & Hp & Hc).
    destruct (voteReply _ _ _ _ _) as [[rf' sum']|] eqn:E; injection Hc as <-; [|by left].
    right. exists (el_owner e), rf, rf', (OpVoteReply (el_term e) (el_sum e) (bool_decide (is_Some from)) reply).
    split_and!; try done. cbn. by rewrite E. }
  destruct l as [p op|p|p|g to|k|g k|g|p]; cbn -[exec nonVoting] in H.
  - apply bind_Some in H as (rf & Hp & H). destruct (nonVoting op); [|done].
    destruct (exec op rf) as [rf'| | |] eqn:E; cbn in H; try done. injection H as <-.
    right. by exists p, rf, rf', op.
  - apply bind_Some in H as (rf & Hp & [= <-]). by left.
  - apply bind_Some in H as (rf & Hp & H). apply bind_Some in H as (b & _ & H).
    destruct b as [[]|]; try done. injection H as <-. right. by exists p, rf, (doElection rf), OpElection.
  - apply bind_Some in H as (e & _ & H). apply bind_Some in H as (rf & _ & H).
    apply bind_Some in H as (args & _ & H). case_decide; [|done]. injection H as <-. by left.
  - apply bind_Some in H as ([p args] & _ & H). apply bind_Some in H as (rf & Hp & H).
    destruct (RequestVote rf args) as [[rf' reply]| | |] eqn:E; cbn in H; try done. injection H as <-.
    right. exists p, rf, rf', (OpRequestVote args). split_and!; try done. cbn. by rewrite E.
  - apply bind_Some in H as (e & _ & H). apply bind_Some in H as ([[v args] reply] & _ & H).
    case_decide; [|done]. by eapply Hcount.
  - apply bind_Some in H as (e & _ & H). by eapply Hcount.
  - by destruct (Hl p).
Qed.

Lemma rstep_nodeStep l w w' : rstep l w = Some w' → nodeStep l w w'.
Proof.
  intros H. destruct w as [c ms cr].
  assert (∀ p rf rf' op ms' cr', nodes c !! p = Some rf → exec op rf = Ret rf' →
    runs l (mkWorld c ms cr) p op → nodeStep l (mkWorld c ms cr) (mkWorld (setNode c p rf') ms' cr')) as Hset.
  { intros p rf rf' op ms' cr' Hp E Hr. right. by exists p, rf, rf', op. }
  destruct l; cbn -[cstep exec kept] in H.
  - destruct (kept l) eqn:Hk; [|done]. apply bind_Some in H as (c' & H & [= <-]).
    apply (cluster_nodeStep l (mkWorld c ms cr) c' H). by intros p ->.
  - apply bind_Some in H as (rf & Hp & H). apply bind_Some in H as (b & _ & H).
    destruct b as [[]|]; try done. injection H as <-. right. by exists p, rf, (followerTimeout rf), OpTimeout.
  - apply bind_Some in H as (rf & Hp & H).
    destruct (Start rf command) as [[rf' [[index term] b]]| | |] eqn:E; cbn in H; try done.
    assert (∀ ms' cr', nodeStep (RStart p command) (mkWorld c ms cr) (mkWorld (setNode c p rf') ms' cr')) as Hst
      by (intros; apply (Hset p rf rf' (OpStart command)); [done|cbn; by rewrite E|done]).
    destruct b; [|by injection H as <-]. apply bind_Some in H as (u & _ & [= <-]). apply Hst.
  - apply bind_Some in H as ([p term] & _ & H). apply bind_Some in H as (rf & _ & H).
    apply bind_Some in H as (sent & _ & [= <-]). by left.
  - apply bind_Some in H as (rf & _ & H). apply bind_Some in H as (b & _ & H).
    destruct b as [[]|]; try done. injection H as <-. by left.
  - apply bind_Some in H as ([p term] & _ & H). apply bind_Some in H as (rf & _ & H).
    apply bind_Some in H as (args & _ & [= <-]). by left.
  - apply bind_Some in H as (rf & Hp & H). apply bind_Some in H as (b & _ & H).
    destruct b as [[]|]; try done. injection H as <-. right. by exists p, rf, (leaderInit rf), OpLeaderInit.
  - apply bind_Some in H as (rf & Hp & H). apply bind_Some in H as (b & _ & H).
    destruct b as [[]|]; try done. injection H as <-. right. by exists p, rf, (leaderReady rf), OpLeaderReady.
  - apply bind_Some in H as (rf & _ & H). apply bind_Some in H as ([j b] & _ & [= <-]). by left.
  - apply bind_Some in H as ([[p t] j] & _ & H). apply bind_Some in H as (rf & _ & H).
    apply bind_Some in H as (n & _ & [= <-]). by left.
  - apply bind_Some in H as ([[[p t] j] n] & _ & H). apply bind_Some in H as (rf & Hp & H).
    destruct (commitWrite rf j n) as [rf'| | |] eqn:E; cbn in H; try done. injection H as <-.
    by apply (Hset _ rf rf' (OpCommitWrite j n)).
  - apply bind_Some in H as (m & _ & H). apply bind_Some in H as (rf & _ & [= <-]). by left.
  - apply bind_Some in H as (m & _ & H). apply bind_Some in H as (rf & _ & [= <-]). by left.
  - apply bind_Some in H as (m & _ & H). apply bind_Some in H as (rf & Hp & H).
    destruct (AppendEntries rf (am_args m)) as [[rf' reply]| | |] eqn:E; cbn in H; try done. injection H as <-.
    apply (Hset _ rf rf' (OpAppendEntries (am_args m))); [done|cbn; by rewrite E|done].
  - apply bind_Some in H as ([m reply] & _ & H). apply bind_Some in H as (rf & Hp & H). destruct (am_beat m).
    + destruct (heartbeat_reply rf _ _ _) as [rf'| | |] eqn:E; cbn in H; try done. injection H as <-.
      by apply (Hset _ rf rf' (OpHeartbeatReply (am_to m) (am_args m) reply)).
    + destruct (sendAppendEntries_reply rf _ _ _) as [[rf' next]| | |] eqn:E; cbn in H; try done. injection H as <-.
      apply (Hset _ rf rf' (OpAppendReply (am_to m) (am_args m) reply)); [done|cbn; by rewrite E|done].
  - apply bind_Some in H as (m & Hk & H). apply bind_Some in H as (rf & Hp & H).
    destruct (InstallSnapshot rf (sm_args m)) as [[[rf' reply] msg]| | |] eqn:E; cbn in H; try done. injection H as <-.
    apply (Hset _ rf rf' (OpInstallSnapshot (sm_args m))); [done|cbn; by rewrite E|].
    exists m. split; [by eapply list_elem_of_lookup_2|done].
  - apply bind_Some in H as ([m reply] & _ & H). apply bind_Some in H as (rf & Hp & H).
    destruct (sendInstallSnapshot_reply rf _ _ _) as [[rf' next]| | |] eqn:E; cbn in H; try done. injection H as <-.
    apply (Hset _ rf rf' (OpSnapshotReply (sm_to m) (sm_args m) reply)); [done|cbn; by rewrite E|done].
  - apply bind_Some in H as (c' & H & [= <-]). cbn in H. apply bind_Some in H as (rf & Hp & H).
    destruct (Make _ _ _) as [rf'| | |] eqn:E; cbn in H; try done. injection H as <-.
    right. by exists p, rf, rf', OpRestart.
Qed.

Lemma rstep_applyEnd p es w w' :
  rstep (RCluster (LNode p (OpApplyEnd es))) w = Some w' →
  ∃ rf, nodes (cl w) !! p = Some rf ∧ nodes (cl w') = <[p := applyEnd rf es]> (nodes (cl w)).
Proof.
  intros H. destruct w as [c ms cr]. cbn in H. apply bind_Some in H as (c' & H & [= <-]).
  apply bind_Some in H as (rf & Hp & [= <-]). by exists rf.
Qed.

Lemma rstep_restart p w w' :
  rstep (RRestart p) w = Some w' →
  ∃ rf r, nodes (cl w) !! p = Some rf ∧ Make (peers rf) (me rf) (persister rf) = Ret r ∧
    nodes (cl w') = <[p := r]> (nodes (cl w)).
Proof.
  intros H. destruct w as [c ms cr]. cbn -[Make] in H. apply bind_Some in H as (c' & H & [= <-]).
  apply bind_Some in H as (rf & Hp & H). destruct (Make _ _ _) as [r| | |] eqn:E; cbn in H; try done.
  injection H as <-. by exists rf, r.
Qed.

(** Everything but the end of a batch and a restart leaves alone what the
    services have seen. *)
Definition servedLabel (l : rlabel C SV) : bool :=
  match l with
  | RCluster (LNode _ (OpApplyEnd _)) | RRestart _ => false
  | _ => true
  end.

Lemma rstep_served l w wn w' p rf' :
  sinv w wn → sbenign l w → servedLabel l = true → rstep l w = Some w' → nodes (cl w') !! p = Some rf' →
  ∃ rf, nodes (cl w) !! p = Some rf ∧ served rf rf'.
Proof.
  intros Hs Hb Hl H Hp'. pose proof Hs as (Hri & Hno & _ & Hms & _).
  destruct (rstep_nodeStep _ _ _ H) as [E|(q & rf & r & op & Hq & E & Ex & Hr)]; rewrite E in Hp'.
  { exists rf'. by split. }
  destruct (nodes_update (cl w) q rf r p rf' Hq Hp') as [[-> ->]|[_ Hp]]; [|by exists rf'].
  exists rf. split; [done|]. destruct (rinv_wf _ _ _ Hri Hq) as [Hwf _].
  assert (servedOp op = true ∨ ∃ m, m ∈ snapshots (msgs w) ∧ op = OpInstallSnapshot (sm_args m)) as [?|(m & Hm & ->)].
  { destruct l as [[]| | | | | | | | | | | | | | | | |]; cbn in Hr; try (by left); [|by right].
    destruct Hr as [-> ->]. left. destruct w. by destruct op. }
  - by eapply exec_served.
  - cbn in Ex. destruct (InstallSnapshot rf (sm_args m)) as [[[r' reply] msg]| | |] eqn:Ei; cbn in Ex; try done.
    injection Ex as <-. apply (mi_snapshot _ _ Hms) in Hm.
    rewrite (InstallSnapshot_none _ _ _ _ _ Hwf Ei Hm). apply served_maybe.
Qed.
End served.
