(* ===== verification/RaftFeed.v ===== *)
(** * RaftFeed: from a peer to the reader of its [applyCh]

    The [applyLoop] of raft.go sends a batch of messages on the unbuffered
    [applyCh] and moves [lastApplied] after the last one; the service at the other
    end receives a message, handles it and receives the next one.  [feedOk]: a
    service that has handled the commands up to [k] since it started finds the
    chosen command [k + 1] next, whatever the cluster does meanwhile. *)

From S2P Require Import Prelude Labgob Persister RaftState RaftRpc RaftLeader RaftPeer RaftCluster RaftLinks RaftReplication RaftQuorums RaftInvariant RaftSteps RaftAppends RaftSafety RaftApply.
Local Open Scope Z_scope.

Section feed.
Context {C SV : Type}.

(** Between the critical sections of [applyLoop]: [nextApplied] after the first one
    found something to apply, the entries of the batch that is being sent and the
    messages of it not yet sent; and the message the service has received and not
    handled. *)
Record Feed := mkFeed {
  f_next : option Z;
  f_batch : option (list (LogEntry C));
  f_msgs : list (ApplyMsg C SV);
  f_inbox : option (ApplyMsg C SV);
}.

Definition idleFeed : Feed := mkFeed None None [] None.

(** The turns of the two loops: [applyCheck] has said whether there is something to
    apply; [applyBegin] has returned a batch; a message goes over the channel; the
    service has handled it; the batch is over. *)
Definition feedCheck (next : option Z) (f : Feed) : Feed :=
  mkFeed next (f_batch f) (f_msgs f) (f_inbox f).
Definition feedBegin (next : Z) (batch : option (list (LogEntry C))) (f : Feed) : Feed :=
  match batch with
  | Some es => mkFeed None (Some es) (applyMsgs next es) (f_inbox f)
  | None => mkFeed None (f_batch f) (f_msgs f) (f_inbox f)
  end.

(** [applyLoop] waits for a token. *)
Definition feedIdle (f : Feed) : bool :=
  match f_next f, f_batch f with None, None => true | _, _ => false end.
Definition feedReceive (f : Feed) : option Feed :=
  match f_msgs f, f_inbox f with
  | m :: ms, None => Some (mkFeed (f_next f) (f_batch f) ms (Some m))
  | _, _ => None
  end.
Definition feedTake (f : Feed) : Feed := mkFeed (f_next f) (f_batch f) (f_msgs f) None.
Definition feedEnd (f : Feed) : Feed := mkFeed (f_next f) None [] (f_inbox f).

Implicit Types (w : World C SV) (wn : Wins) (rf : Raft C SV) (f : Feed) (k : Z).

(** What is on its way to the service. *)
Definition pending f : list (ApplyMsg C SV) := option_list (f_inbox f) ++ f_msgs f.

Record feedOk w wn rf k f : Prop := {
  fo_snap : ReadSnapshot (persister rf) = [];
  fo_msgs x msg : pending f !! x = Some msg →
    ∃ c, msg = CommandMsg c (k + 1 + Z.of_nat x) ∧ chosen w wn (k + 1 + Z.of_nat x) c;
  fo_count : lastApplied rf + zlen (default [] (f_batch f)) = k + zlen (pending f);
  fo_idle : f_batch f = None → f_msgs f = [];
  fo_next n : f_next f = Some n → n = lastApplied rf + 1 ∧ f_batch f = None;
}.

Lemma pending_idle f : f_msgs f = [] → pending f = option_list (f_inbox f).
Proof. intros E. unfold pending. by rewrite E, app_nil_r. Qed.

Lemma feedOk_init w wn rf : ReadSnapshot (persister rf) = [] → lastApplied rf = 0 → feedOk w wn rf 0 idleFeed.
Proof. intros Hs Ha. constructor; cbn; try done. by rewrite Ha. Qed.

(** A feed does not notice a step of the cluster. *)
Lemma feedOk_served w wn w' wn' rf rf' k f :
  later w wn w' wn' → served rf rf' → feedOk w wn rf k f → feedOk w' wn' rf' k f.
Proof.
  intros Hl [Ha Hsn] [H3 H4 H5 H6 H7]. constructor; try done; [congruence| |lia|by rewrite Ha].
  intros x msg Hx. destruct (H4 x msg Hx) as (c & -> & Hc). exists c. split; [done|]. by eapply chosen_later.
Qed.

(** [applyLoop] takes a token and looks for something to apply. *)
Lemma feedOk_check w wn rf r next w' wn' rf' k f :
  applyCheck rf = Ret (r, next) → feedIdle f = true →
  later w wn w' wn' → served rf rf' → feedOk w wn rf k f → feedOk w' wn' rf' k (feedCheck next f).
Proof.
  intros Ha Hi Hl Hsv Hf. destruct (feedOk_served _ _ _ _ _ _ _ _ Hl Hsv Hf) as [H3 H4 H5 H6 H7].
  constructor; try done. cbn. intros n ->. unfold feedIdle in Hi. destruct (f_next f), (f_batch f); try done.
  split; [|done]. destruct Hsv as [-> _]. unfold applyCheck in Ha. by go_inv; case_match; simplify_eq.
Qed.

(** [applyLoop] starts a batch. *)
Lemma feedOk_begin w wn p rf next batch k f :
  sinv w wn → nodes (cl w) !! p = Some rf → f_next f = Some next → applyBegin rf next = Ret batch →
  feedOk w wn rf k f → feedOk w wn rf k (feedBegin next batch f).
Proof.
  intros Hs Hp Hn Ha [H3 H4 H5 H6 H7]. destruct (H7 _ Hn) as [Hnext Hi].
  destruct batch as [es|]; [|by constructor].
  pose proof (applyBegin_chosen _ _ _ _ _ _ Hs Hp Ha) as Hms.
  rewrite (pending_idle f (H6 Hi)) in H4, H5. rewrite Hi in H5. cbn in H5.
  constructor; try done; cbn.
  - intros x msg Hm. unfold pending in Hm. cbn in Hm. apply lookup_app_Some in Hm as [Hm|[Hge Hm]]; [by apply H4|].
    destruct (Hms _ _ Hm) as (c & -> & Hc).
    assert (next + Z.of_nat (x - length (option_list (f_inbox f))) = k + 1 + Z.of_nat x) as <-
      by (unfold zlen in H5; cbn in H5; lia).
    by exists c.
  - unfold pending, zlen in *. cbn in *. rewrite length_app. unfold applyMsgs. rewrite length_imap. lia.
Qed.

Lemma feedOk_receive w wn rf k f f' : feedReceive f = Some f' → feedOk w wn rf k f → feedOk w wn rf k f'.
Proof.
  unfold feedReceive. intros H. destruct (f_msgs f) as [|m ms] eqn:Em; [done|].
  destruct (f_inbox f) eqn:Ei; [done|]. injection H as <-.
  assert (pending f = m :: ms) as Hpd by (unfold pending; by rewrite Ei, Em).
  intros [H3 H4 H5 H6 H7]. rewrite Hpd in H4, H5. constructor; try done. intros Hn.
  cbn in Hn. rewrite (H6 Hn) in Em. done.
Qed.

(** The service handles the message it has received: the next chosen command. *)
Lemma feedOk_take w wn rf k f m :
  f_inbox f = Some m → feedOk w wn rf k f →
  ∃ c, m = CommandMsg c (k + 1) ∧ chosen w wn (k + 1) c ∧ feedOk w wn rf (k + 1) (feedTake f).
Proof.
  intros Hm [H3 H4 H5 H6 H7]. assert (pending f = m :: f_msgs f) as Hpd by (unfold pending; by rewrite Hm).
  rewrite Hpd in H4, H5. destruct (H4 0%nat m eq_refl) as (c & -> & Hc). rewrite Z.add_0_r in *.
  exists c. split_and!; [done..|]. constructor; cbn; try done.
  - intros x msg Hx. destruct (H4 (S x) msg Hx) as (c' & -> & Hc').
    replace (k + 1 + 1 + Z.of_nat x) with (k + 1 + Z.of_nat (S x)) by lia. by exists c'.
  - rewrite H5. autorewrite with zlen. unfold pending. cbn. lia.
Qed.

(** [rf.lastApplied += len(toBeApplied)]. *)
Lemma feedOk_end w wn w' wn' rf k f es :
  later w wn w' wn' → f_batch f = Some es → f_msgs f = [] → feedOk w wn rf k f →
  feedOk w' wn' (applyEnd rf es) k (feedEnd f).
Proof.
  intros Hl Eb Em Hf. destruct (feedOk_served _ _ _ _ _ _ _ _ Hl (served_refl rf) Hf) as [H3 H4 H5 H6 H7].
  rewrite Eb in H5. rewrite (pending_idle f Em) in H4, H5. cbn in H5.
  constructor; cbn; try done; unfold pending; cbn; rewrite ?app_nil_r; [done|by rewrite Z.add_0_r|].
  intros n [_ ?]%H7. congruence.
Qed.

(** After a restart the service starts from nothing. *)
Lemma feedOk_restart w wn p rf r w' wn' k f :
  sinv w wn → nodes (cl w) !! p = Some rf → Make (peers rf) (me rf) (persister rf) = Ret r →
  feedOk w wn rf k f → feedOk w' wn' r 0 idleFeed.
Proof.
  intros Hs Hp Hr [Hsn _ _ _ _]. pose proof Hs as (_ & Hno & _).
  destruct (ni_durable _ _ _ _ (Hno p rf Hp)) as (r' & Hr' & Hh).
  destruct (ni_whole _ _ _ _ (Hno p rf Hp)) as [Hi0 _].
  rewrite Hr in Hr'. injection Hr' as <-. destruct (Make_frame _ _ _ _ Hr) as (_ & _ & Eps & _).
  unfold hardState in Hh. injection Hh as _ _ Hi _ _.
  apply feedOk_init; [by rewrite Eps|]. apply (Make_boundary _ _ _ _ Hr). congruence.
Qed.
End feed.
Arguments Feed : clear implicits.
