(* ===== verification/RaftReplExamples.v ===== *)
(** * RaftReplExamples: runs of a replicating cluster

    A run with two leaders in which entries are replicated and overwritten, to
    which log matching applies, and a run in which a snapshot is installed in
    front of entries that do not follow it. *)

From S2P Require Import Prelude Labgob Persister RaftState RaftRpc RaftLeader RaftPeer RaftCluster RaftLinks RaftReplication.
Local Open Scope Z_scope.

Section check.
Context {C SV : Type}.
Implicit Types w : World C SV.

(** A sufficient test of the conditions on a step. *)
Definition rcalm (l : rlabel C SV) w : bool :=
  match l with
  | RCluster (LElect p) =>
      match nodes (cl w) !! p with
      | Some rf => negb (isState (raftState rf) leaderState)
      | None => true
      end
  | RCluster (LRestart _) | RRestart _ => false
  | RSnapshot k =>
      match snapshots (msgs w) !! k with
      | Some m =>
          match nodes (cl w) !! Z.to_nat (sm_to m) with
          | Some rf => getLogLength rf - 1 <=? is_LastIncludedIndex (sm_args m)
          | None => true
          end
      | None => true
      end
  | _ => true
  end.

Lemma rcalm_sound l w : rcalm l w = true → rbenign l w.
Proof.
  destruct l as [[]| | | | | | | | | | | | | | | | |]; cbn; try done.
  - intros H rf Hp Hs. rewrite Hp in H. by apply negb_true_iff, bool_decide_eq_false in H.
  - intros H m rf Hm Hp Hlt Hlen. rewrite Hm, Hp in H. apply Z.leb_le in H. lia.
Qed.

Fixpoint rcheck (ls : list (rlabel C SV)) w : option (World C SV) :=
  match ls with
  | [] => Some w
  | l :: ls => if rcalm l w then w' ← rstep l w; rcheck ls w' else None
  end.

Lemma rcheck_sound ls w w' : rcheck ls w = Some w' → rbenignRun w w'.
Proof.
  revert w. induction ls as [|l ls IH]; intros w H; cbn in H.
  - injection H as ->. apply rbenign_refl.
  - destruct (rcalm l w) eqn:E; [|done]. apply bind_Some in H as (w1 & Hs & H).
    eapply rbenign_step; [by apply rcalm_sound|done|by apply IH].
Qed.
End check.

Abbreviation Label := (rlabel string string).

(** Peer [p] becomes leader with the votes of [vs]. *)
Definition elect {C SV} (p : nat) (vs : list nat) : list (rlabel C SV) :=
  [RCluster (LMain p); RTimeout p; RCluster (LMain p); RCluster (LElect p)] ++
  (vs ≫= λ v, [RCluster (LSendVote 0 v); RCluster (LDeliver 0); RCluster (LVoteReply 0 0)]) ++
  [RCluster (LMain p); RLeaderInit p; RLeaderReady p; RHeartbeat p; RBeat 0].

(** An iteration of [tryIncrementCommitIndex] that nothing comes in between of. *)
Definition scan {C SV} (p : nat) (term i : Z) : list (rlabel C SV) :=
  [RScanTerm p term i; RScanCount 0; RScanWrite 0].

(** Leader 0 replicates [a] to peer 1 and keeps [b] to itself; leader 1 appends
    [c], peer 2 refuses it until the leader sends from further back, and peer 0
    replaces [b] by it. *)
Definition replicate3 : list Label :=
  elect 0 [1%nat] ++ [RStart 0 "a"; RBroadcast 0; RCallAppend 0; RAppend 0; RAppendReply 0; RStart 0 "b"].
Definition takeover3 : list Label :=
  elect 1 [2%nat] ++ [RStart 1 "c"; RBroadcast 0; RCallAppend 1; RAppend 0; RAppendReply 0; RCallAppend 0; RAppend 0;
                        RCallAppend 1; RAppend 0].

Definition start3 : World string string := initWorld 3 (λ _, []).
Definition world1 : option (World string string) := Eval vm_compute in rcheck replicate3 start3.
Definition world2 : option (World string string) := Eval vm_compute in world1 ≫= rcheck takeover3.

Definition logsOf (w : World string string) : list (list (Z * option string)) :=
  (λ rf, (λ e, (le_Term e, le_Command e)) <$> drop 1 (log rf)) <$> nodes (cl w).

Example takeover3_logs :
  logsOf <$> world2 =
  Some (replicate 3 [(1, Some "a"); (2, Some "c")]).
Proof. reflexivity. Qed.

Lemma replicate3_run w1 w2 : world1 = Some w1 → world2 = Some w2 → rbenignRun start3 w1 ∧ rbenignRun w1 w2.
Proof.
  intros H1 H2. assert (rcheck replicate3 start3 = world1) as E1 by (vm_compute; reflexivity).
  assert (world1 ≫= rcheck takeover3 = world2) as E2 by (vm_compute; reflexivity).
  rewrite H1 in E1, E2. rewrite H2 in E2. split; by eapply rcheck_sound.
Qed.

(** Peer 0 before the second election and peer 2 at the end. *)
Lemma log_matching_witness :
  ∃ w1 w2 rf1 rf2, world1 = Some w1 ∧ world2 = Some w2 ∧
    nodes (cl w1) !! 0%nat = Some rf1 ∧ nodes (cl w2) !! 2%nat = Some rf2 ∧
    log rf1 ≠ log rf2 ∧ ∃ e, getLog rf1 1 = Ret e ∧ getLog rf2 1 = Ret e.
Proof.
  destruct world1 as [w1|] eqn:E1; [|discriminate E1].
  destruct world2 as [w2|] eqn:E2; [|discriminate E2].
  destruct (replicate3_run w1 w2 E1 E2) as [H1 H2].
  destruct (nodes (cl w1) !! 0%nat) as [rf1|] eqn:N1; [|injection E1 as <-; discriminate N1].
  destruct (nodes (cl w2) !! 2%nat) as [rf2|] eqn:N2; [|injection E2 as <-; discriminate N2].
  exists w1, w2, rf1, rf2. do 4 (split; [done|]).
  pose proof (log_matching 3 (λ _, []) w1 w2 0 2 rf1 rf2 1 1 1 H1 H2 N1 N2) as Hm.
  injection E1 as <-. injection E2 as <-. injection N1 as <-. injection N2 as <-.
  split; [discriminate|]. apply Hm; reflexivity || (split; discriminate) || discriminate.
Defined.

(** ** A snapshot in front of entries that do not follow it

    Peer 0 leads term 1 and replicates [a] and [b] to peer 1 only.  Peer 2 leads
    term 2, commits [c] at index 1 with peers 3 and 4, and takes a snapshot.
    Peer 1 installs it and keeps [b] after it. *)
Definition conflictingTail : list Label :=
  elect 0 [1; 2]%nat ++ [RStart 0 "a"; RStart 0 "b"; RBroadcast 0; RCallAppend 0; RAppend 0] ++
  elect 2 [3; 4]%nat ++
  [RStart 2 "c"; RBroadcast 0; RCallAppend 2; RAppend 0; RCallAppend 3; RAppend 0;
   RAppendReply 0; RAppendReply 1] ++ scan 2 2 1 ++
  [RCluster (LNode 2 OpApplyCheck);
   RCluster (LNode 2 (OpApplyEnd [mkLogEntry 2 (Some "c")])); RCluster (LNode 2 (OpSnapshot 1 ["c"]));
   RStart 2 "d"; RBroadcast 0; RCallSnapshot 1; RSnapshot 0].

(** The terms of peers 0 and 1 at an index. *)
Definition termsAt (i : Z) (w : World string string) : list (option Z) :=
  (λ rf, returned (getTermOfLog rf i)) <$> take 2 (nodes (cl w)).

(** Peers 0 and 1 agree on index and term of [b] but not on what is before it:
    log matching needs the condition on InstallSnapshot. *)
Example install_keeps_conflicting_tail :
  ∃ w, rrun conflictingTail (initWorld 5 (λ _, [])) = Some w ∧
    termsAt 2 w = [Some 1; Some 1] ∧ termsAt 1 w = [Some 1; Some 2].
Proof. eexists. split; [vm_compute; reflexivity|]. split; reflexivity. Qed.
