(* ===== verification/RaftSafetyExamples.v ===== *)
(** * RaftSafetyExamples: a run to which the safety theorems apply

    Leader 0 commits an entry with peer 1; leader 1 of the next term commits
    another one with peer 2, and peer 0 learns of it. *)

From S2P Require Import Prelude Labgob Persister RaftState RaftRpc RaftLeader RaftPeer RaftCluster RaftLinks RaftReplication RaftSteps RaftSafety RaftReplExamples.
Local Open Scope Z_scope.

Section check.
Context {C SV : Type}.
Implicit Types w : World C SV.

Definition leadsb w (p : nat) (term : Z) : bool :=
  match nodes (cl w) !! p with Some rf => stillLeader rf term | None => true end.

(** A sufficient test of the conditions on a step. *)
Definition scalm (l : rlabel C SV) w : bool :=
  match l with
  | RCluster (LNode _ (OpSnapshot _ _)) => false
  | RCluster (LRestart _) => false
  | RCluster (LElect p) => rcalm l w
  | RScanCount k => match scans (msgs w) !! k with Some (p, term, _) => leadsb w p term | None => true end
  | RScanWrite k => match counts (msgs w) !! k with Some (p, term, _, _) => leadsb w p term | None => true end
  | RAppendReply k =>
      match appendReplies (msgs w) !! k with
      | Some (m, _) => negb (am_beat m) || leadsb w (am_from m) (ae_Term (am_args m))
      | None => true
      end
  | _ => true
  end.

Lemma scalm_sound l w : scalm l w = true → sbenign l w.
Proof.
  destruct l as [l| | | | | | | | | | | | | | | | |]; try done.
  - destruct l as [p []| |p| | | | |]; try done. cbn. unfold leadsb.
    intros H rf Hp Hs. rewrite Hp in H. by apply negb_true_iff, bool_decide_eq_false in H.
  - cbn -[stillLeader]. unfold leadsb. intros H p term i rf Hk Hp. by rewrite Hk, Hp in H.
  - cbn -[stillLeader]. unfold leadsb. intros H p term i n rf Hk Hp. by rewrite Hk, Hp in H.
  - cbn -[stillLeader]. unfold leadsb. intros H m reply rf Hk Hb Hp. by rewrite Hk, Hb, Hp in H.
Qed.

Fixpoint scheck (ls : list (rlabel C SV)) w : option (World C SV) :=
  match ls with
  | [] => Some w
  | l :: ls => if scalm l w then w' ← rstep l w; scheck ls w' else None
  end.

Lemma scheck_sound ls w w' : scheck ls w = Some w' → sbenignRun w w'.
Proof.
  revert w. induction ls as [|l ls IH]; intros w H; cbn -[scalm rstep] in H.
  - injection H as ->. apply sbenign_refl.
  - destruct (scalm l w) eqn:E; [|done]. apply bind_Some in H as (w1 & Hs & H).
    eapply sbenign_step; [by apply scalm_sound|done|by apply IH].
Qed.
End check.

Definition commit1 : list Label :=
  elect 0 [1%nat] ++ [RStart 0 "a"; RBroadcast 0; RCallAppend 0; RAppend 0; RAppendReply 0] ++
  scan 0 1 1 ++ [RStart 0 "b"].
Definition commit2 : list Label :=
  elect 1 [2%nat] ++ [RStart 1 "c"; RBroadcast 0; RCallAppend 1; RAppend 0; RAppendReply 0; RCallAppend 0; RAppend 0;
                        RAppendReply 0] ++
  scan 1 2 2 ++ [RHeartbeat 1; RBeat 0; RCallAppend 1; RAppend 0; RAppend 1; RAppend 2].

Definition cworld1 : option (World string string) := Eval vm_compute in scheck commit1 start3.
Definition cworld2 : option (World string string) := Eval vm_compute in cworld1 ≫= scheck commit2.

Definition commits (w : World string string) : list Z := commitIndex <$> nodes (cl w).

Example commit2_result :
  (commits <$> cworld1, commits <$> cworld2, logsOf <$> cworld2) =
  (Some [1; 0; 0], Some [2; 2; 2], Some (replicate 3 [(1, Some "a"); (2, Some "c")])).
Proof. reflexivity. Qed.

Lemma commit_run w1 w2 : cworld1 = Some w1 → cworld2 = Some w2 → sbenignRun start3 w1 ∧ sbenignRun w1 w2.
Proof.
  intros H1 H2. assert (scheck commit1 start3 = cworld1) as E1 by (vm_compute; reflexivity).
  assert (cworld1 ≫= scheck commit2 = cworld2) as E2 by (vm_compute; reflexivity).
  rewrite H1 in E1, E2. rewrite H2 in E2. split; by eapply scheck_sound.
Qed.

(** What peer 0 committed in term 1 is in the log of the leader of term 2. *)
Lemma leader_completeness_witness :
  ∃ w1 w2 rf1 rf2, cworld1 = Some w1 ∧ cworld2 = Some w2 ∧
    nodes (cl w1) !! 0%nat = Some rf1 ∧ nodes (cl w2) !! 1%nat = Some rf2 ∧
    currentTerm (raftState rf1) < currentTerm (raftState rf2) ∧
    ∃ e, getLog rf1 1 = Ret e ∧ getLog rf2 1 = Ret e.
Proof.
  destruct cworld1 as [w1|] eqn:E1; [|discriminate E1].
  destruct cworld2 as [w2|] eqn:E2; [|discriminate E2].
  destruct (commit_run w1 w2 E1 E2) as [H1 H2].
  destruct (nodes (cl w1) !! 0%nat) as [rf1|] eqn:N1; [|injection E1 as <-; discriminate N1].
  destruct (nodes (cl w2) !! 1%nat) as [rf2|] eqn:N2; [|injection E2 as <-; discriminate N2].
  exists w1, w2, rf1, rf2. do 4 (split; [done|]).
  pose proof (leader_completeness 3 (λ _, []) w1 w2 0 1 rf1 rf2 1 H1 H2 N1 N2) as Hm.
  injection E1 as <-. injection E2 as <-. injection N1 as <-. injection N2 as <-.
  split; [reflexivity|]. apply Hm; reflexivity || (split; reflexivity || discriminate) || discriminate.
Defined.

(** Peer 0 when only it had committed [a], and peer 2 at the end. *)
Lemma state_machine_safety_witness :
  ∃ w1 w2 rf1 rf2, cworld1 = Some w1 ∧ cworld2 = Some w2 ∧
    nodes (cl w1) !! 0%nat = Some rf1 ∧ nodes (cl w2) !! 2%nat = Some rf2 ∧ log rf1 ≠ log rf2 ∧
    ∃ e, getLog rf1 1 = Ret e ∧ getLog rf2 1 = Ret e.
Proof.
  destruct cworld1 as [w1|] eqn:E1; [|discriminate E1].
  destruct cworld2 as [w2|] eqn:E2; [|discriminate E2].
  destruct (commit_run w1 w2 E1 E2) as [H1 H2].
  destruct (nodes (cl w1) !! 0%nat) as [rf1|] eqn:N1; [|injection E1 as <-; discriminate N1].
  destruct (nodes (cl w2) !! 2%nat) as [rf2|] eqn:N2; [|injection E2 as <-; discriminate N2].
  exists w1, w2, rf1, rf2. do 4 (split; [done|]).
  pose proof (state_machine_safety 3 (λ _, []) w1 w2 0 2 rf1 rf2 1 H1 H2 N1 N2) as Hm.
  injection E1 as <-. injection E2 as <-. injection N1 as <-. injection N2 as <-.
  split; [discriminate|]. apply Hm; reflexivity || discriminate.
Defined.

(** The messages on [applyCh] of a peer. *)
Definition applied (rf : Raft string string) : list (ApplyMsg string string) :=
  match applyBegin rf (lastApplied rf + 1) with Ret (Some es) => applyMsgs (lastApplied rf + 1) es | _ => [] end.

(** Peer 0 applies [a] in the first world; peer 1 applies [a] and [c] in the
    second one. *)
Lemma applied_commands_agree_witness :
  ∃ w1 w2 rf1 rf2 cmd, cworld1 = Some w1 ∧ cworld2 = Some w2 ∧
    nodes (cl w1) !! 0%nat = Some rf1 ∧ nodes (cl w2) !! 1%nat = Some rf2 ∧
    applied rf1 = [CommandMsg cmd 1] ∧ applied rf2 = [CommandMsg cmd 1; CommandMsg (Some "c") 2].
Proof.
  destruct cworld1 as [w1|] eqn:E1; [|discriminate E1].
  destruct cworld2 as [w2|] eqn:E2; [|discriminate E2].
  destruct (commit_run w1 w2 E1 E2) as [H1 H2].
  destruct (nodes (cl w1) !! 0%nat) as [rf1|] eqn:N1; [|injection E1 as <-; discriminate N1].
  destruct (nodes (cl w2) !! 1%nat) as [rf2|] eqn:N2; [|injection E2 as <-; discriminate N2].
  exists w1, w2, rf1, rf2, (Some "a"). do 4 (split; [done|]).
  destruct (applyBegin rf1 (lastApplied rf1 + 1)) as [[es1|]| | |] eqn:A1;
    try (injection E1 as <-; injection N1 as <-; discriminate A1).
  destruct (applyBegin rf2 (lastApplied rf2 + 1)) as [[es2|]| | |] eqn:A2;
    try (injection E2 as <-; injection N2 as <-; discriminate A2).
  assert (∃ cmd2, applied rf2 = [CommandMsg cmd2 1; CommandMsg (Some "c") 2]) as [cmd2 M2].
  { injection E2 as <-. injection N2 as <-. by eexists. }
  assert (applied rf1 = [CommandMsg (Some "a") 1]) as M1 by (injection E1 as <-; by injection N1 as <-).
  split; [done|]. rewrite M2. unfold applied in M1, M2. rewrite A1 in M1. rewrite A2 in M2.
  assert (Some "a" = cmd2) as <-; [|done].
  apply (applied_commands_agree 3 (λ _, []) w1 w2 0 1 rf1 rf2 _ _ es1 es2 1 (Some "a") cmd2 H1 H2 N1 N2 A1 A2).
  - rewrite M1. by left.
  - rewrite M2. by left.
Defined.
