(* ===== verification/RaftExamples.v ===== *)
(** * RaftExamples: the Raft theorems at concrete peers

    Each lemma applies one theorem of the Raft files to a concrete peer and
    concrete arguments for which its hypotheses hold. *)

From S2P Require Import Prelude Labgob Persister RaftState RaftRpc RaftLeader RaftPeer RaftCluster.
Local Open Scope Z_scope.

Ltac peer_wf := constructor; cbn; done || lia.

(** A follower of term 1 with two entries, the second committed nowhere. *)
Definition follower1 : Raft Z Z :=
  peerOf 1 followerState 1 0 [mkEntry 1 10; mkEntry 1 11] 1 0 [] [].

(** The leader of term 2 with three entries, peer 1 up to date. *)
Definition leader2 : Raft Z Z :=
  peerOf 0 leaderState 2 0 [mkEntry 1 10; mkEntry 2 20; mkEntry 2 21] 1 1 [4; 4; 2] [3; 3; 1].

(** A request that replaces the second entry of [follower1]. *)
Definition append1 : AppendEntriesArgs Z := mkAppendEntriesArgs 2 0 [mkEntry 2 20] 1 1 2.

Lemma AppendEntries_log_spec_witness :
  ∃ rf' reply, AppendEntries follower1 append1 = Ret (rf', reply) ∧
    getTermOfLog follower1 (ae_PrevLogIndex append1) = Ret (ae_PrevLogTerm append1) ∧
    lastIncludedIndex rf' = lastIncludedIndex follower1.
Proof.
  destruct (AppendEntries follower1 append1) as [[rf' reply]| | |] eqn:E; try discriminate E.
  assert (aer_Success reply = true) as Hs by (vm_compute in E; injection E as _ <-; reflexivity).
  destruct (AppendEntries_log_spec follower1 append1 rf' reply ltac:(peer_wf) E Hs)
    as (Ht & _ & _ & Hi & _).
  by exists rf', reply.
Defined.

Lemma AppendEntries_keeps_newer_witness :
  ∃ rf' reply,
    AppendEntries follower1 (mkAppendEntriesArgs 1 0 [mkEntry 1 10] 0 0 0) = Ret (rf', reply) ∧
    log rf' = log follower1.
Proof.
  eexists _, _. split; [reflexivity|].
  apply (AppendEntries_keeps_newer follower1 (mkAppendEntriesArgs 1 0 [mkEntry 1 10] 0 0 0)
    _ _ ltac:(peer_wf) eq_refl eq_refl). by exists [1].
Defined.

Lemma AppendEntries_total_witness :
  is_Ret (AppendEntries follower1 (mkAppendEntriesArgs 3 0 [mkEntry 3 30] 2 2 0)).
Proof. apply AppendEntries_total; [peer_wf|done|done]. Defined.

Lemma AppendEntries_retry_bounds_witness :
  ∃ rf' reply,
    AppendEntries follower1 (mkAppendEntriesArgs 3 0 [mkEntry 3 30] 2 2 0) = Ret (rf', reply) ∧
    1 <= aer_NextRetryStartIndex reply <= getLogLength follower1.
Proof.
  eexists _, _. split; [reflexivity|].
  refine (proj1 (AppendEntries_retry_bounds follower1
    (mkAppendEntriesArgs 3 0 [mkEntry 3 30] 2 2 0) _ _ _ eq_refl eq_refl _)); [peer_wf|done].
Defined.

Lemma AppendEntries_commit_witness :
  ∃ rf' reply, AppendEntries follower1 append1 = Ret (rf', reply) ∧
    commitIndex follower1 <= commitIndex rf' < getLogLength rf'.
Proof.
  destruct (AppendEntries follower1 append1) as [[rf' reply]| | |] eqn:E; try discriminate E.
  assert (commitIndex follower1 < getLogLength rf') as Hl
    by (vm_compute in E; injection E as <- _; reflexivity).
  exists rf', reply. split; [done|].
  exact (proj1 (AppendEntries_commit follower1 append1 rf' reply ltac:(peer_wf) E Hl)).
Defined.

Lemma RequestVote_spec_witness :
  ∃ rf' reply t, RequestVote follower1 (mkRequestVoteArgs 2 0 2 1) = Ret (rf', reply) ∧
    getTermOfLog follower1 2 = Ret t ∧ rvr_Term reply = currentTerm (raftState rf').
Proof.
  destruct (RequestVote_spec follower1 (mkRequestVoteArgs 2 0 2 1))
    as (rf' & reply & t & H & Ht & _ & _ & Hr & _); [peer_wf|done|done|].
  by exists rf', reply, t.
Defined.

Lemma Snapshot_transparent_witness :
  ∃ rf', Snapshot leader2 1 [7] = Ret rf' ∧ getLogLength rf' = getLogLength leader2.
Proof.
  destruct (Snapshot_transparent leader2 1 [7]) as (rf' & H & _ & Hl & _); [by split_and!|done|].
  by exists rf'.
Defined.

Lemma Snapshot_loses_state_witness :
  ∃ rf', Snapshot leader2 1 [7] = Ret rf' ∧ ReadRaftState (persister rf') = [].
Proof.
  eexists. split; [reflexivity|].
  exact (proj1 (Snapshot_loses_state leader2 1 [7] _ ltac:(by split_and!) eq_refl)).
Defined.

Lemma InstallSnapshot_spec_witness :
  ∃ rf' reply msg,
    InstallSnapshot follower1 (mkInstallSnapshotArgs 2 0 1 1 [7]) = Ret (rf', reply, msg) ∧
    isr_Term reply = 2.
Proof.
  destruct (InstallSnapshot_spec follower1 (mkInstallSnapshotArgs 2 0 1 1 [7]))
    as (rf' & reply & msg & H & Ht & _); [peer_wf|].
  by exists rf', reply, msg.
Defined.

Lemma Start_spec_witness :
  ∃ rf' index isLeader, Start leader2 (22 : Z) = Ret (rf', (index, 2, isLeader)) ∧ isLeader = true.
Proof.
  destruct (Start_spec leader2 (22 : Z)) as (rf' & index & l & H & Hl & _); [peer_wf|done|done|done|].
  by exists rf', index, l.
Defined.

Lemma leader_requests_are_slices_witness :
  ∃ ms args, sendToEach leader2 2 [1; 2] = Ret ms ∧ SendAppend 2 args ∈ ms ∧ sliceOf leader2 args.
Proof.
  eexists _, _. split; [reflexivity|]. split; [by apply list_elem_of_here|].
  refine (proj1 (leader_requests_are_slices leader2 leader2 2 2 _
    (mkAppendEntriesArgs 2 0 [] 0 0 0) (mkAppendEntriesReply 2 true 0)
    (mkInstallSnapshotArgs 2 0 0 0 []) (mkInstallSnapshotReply 2) [1; 2] _) _ eq_refl _);
    [peer_wf|by apply list_elem_of_here].
Defined.

Lemma matchIndex_monotone_witness :
  ∃ rf' next,
    sendAppendEntries_reply leader2 2 (mkAppendEntriesArgs 2 0 [mkEntry 2 20] 1 1 1)
      (mkAppendEntriesReply 2 true 0) = Ret (rf', next) ∧
    ∃ new, matchIndex rf' !! 2%nat = Some new ∧ 1 <= new.
Proof.
  eexists _, _. split; [reflexivity|].
  edestruct (matchIndex_monotone leader2 _ SendStop 2
    (mkAppendEntriesArgs 2 0 [mkEntry 2 20] 1 1 1) (mkAppendEntriesReply 2 true 0)
    eq_refl ltac:(done) (or_introl eq_refl) 2%nat 1 eq_refl) as (new & Hn & Hle & _).
  by exists new.
Defined.

Lemma commit_rule_witness :
  ∃ n rf', scanTerm leader2 2 3 = Ret (4, true) ∧ scanCount leader2 3 = Ret n ∧
    commitWrite leader2 3 n = Ret rf' ∧ log rf' = log leader2.
Proof.
  eexists _, _. do 3 (split; [reflexivity|]).
  apply (commit_rule leader2 leader2 leader2 2 3 4 _ _ eq_refl eq_refl eq_refl eq_refl eq_refl).
Defined.

Lemma apply_in_order_witness :
  (∃ rf', applyCheck follower1 = Ret (rf', Some 1)) ∧
  ∃ entries, applyBegin follower1 1 = Ret (Some entries) ∧ zlen entries = 1.
Proof.
  destruct (apply_in_order follower1 follower1) as (H1 & entries & H & Hl & _); [done|done|peer_wf|done|done|].
  split; [done|]. by exists entries.
Defined.

Lemma reach_wf_witness : raft_wf (initRaft (C:=Z) (SV:=Z) 3 0 (mkPersister [] [])).
Proof. apply reach_wf, reach_init. Defined.

Lemma durable_preserved_witness :
  ∃ rf', exec (OpRequestVote (mkRequestVoteArgs 2 0 2 1))
      (initRaft (C:=Z) (SV:=Z) 3 1 (mkPersister [] [])) = Ret rf' ∧ durable rf'.
Proof.
  eexists. split; [reflexivity|].
  refine (durable_preserved (initRaft 3 1 (mkPersister [] []))
    (OpRequestVote (mkRequestVoteArgs 2 0 2 1)) _ _ eq_refl _ eq_refl); [peer_wf|].
  eexists. split; reflexivity.
Defined.

Lemma vote_stable_witness :
  ∃ rf', exec (OpRequestVote (mkRequestVoteArgs 1 0 2 1)) follower1 = Ret rf' ∧
    termVote follower1 rf'.
Proof.
  eexists. split; [reflexivity|].
  by apply (vote_stable follower1 (OpRequestVote (mkRequestVoteArgs 1 0 2 1)) _
    ltac:(peer_wf) ltac:(intros [=]) eq_refl).
Defined.

(** Peer 0 times out and wins term 1 with the vote of peer 1. *)
Definition firstElection : list (label unit unit) :=
  [LNode 0 OpTimeout; LMain 0; LElect 0; LSendVote 0 1; LDeliver 0; LVoteReply 0 0].

Lemma election_safety_witness :
  ∃ c, crun firstElection (initCluster 3 (λ _, [])) = Some c ∧ leads c 0 1 ∧
    ∀ q, leads c q 1 → 0%nat = q.
Proof.
  destruct (crun firstElection (initCluster 3 (λ _, []))) as [c|] eqn:E; [|discriminate E].
  assert (benignRun (initCluster 3 (λ _, [])) c) as Hr.
  { vm_compute in E. injection E as <-.
    eapply (benign_step _ _ _ (LNode 0 OpTimeout)); [done|reflexivity|].
    eapply (benign_step _ _ _ (LMain 0)); [done|reflexivity|].
    eapply (benign_step _ _ _ (LElect 0)); [by intros rf [= <-]|reflexivity|].
    eapply (benign_step _ _ _ (LSendVote 0 1)); [done|reflexivity|].
    eapply (benign_step _ _ _ (LDeliver 0)); [done|reflexivity|].
    eapply (benign_step _ _ _ (LVoteReply 0 0)); [done|reflexivity|].
    apply benign_refl. }
  assert (leads c 0 1) as Hl by (vm_compute in E; injection E as <-; eexists; by split_and!).
  exists c. split; [done|]. split; [done|].
  intros q Hq. exact (election_safety 3 (λ _, []) c c 0 q 1 Hr (benign_refl c) Hl Hq).
Defined.
