(* ===== verification/RaftService.v ===== *)
(** * RaftService: what a replicated service uses of its Raft peer

    kvraft, shardctrler and shardkv call [GetState], [Start], [Snapshot],
    [Kill] and [Make] of raft.go, and share the peer's persister for
    [RaftStateSize] and [ReadSnapshot].  [RaftService] is that interface,
    [RaftServiceLaws] what the services rely on; the peer of RaftState and
    RaftRpc is an instance of both. *)

From S2P Require Import Prelude Labgob Persister RaftState RaftRpc RaftPeer.
Local Open Scope Z_scope.

(** [R] the peer, [P] its persister, [C] the commands, [SV] the messages of
    a snapshot. *)
Class RaftService (R P C SV : Type) := {
  rs_persister : R → P;
  rs_GetState : R → Z * bool;
  rs_Start : R → C → outcome (R * (Z * Z * bool));
  rs_Snapshot : R → Z → list SV → outcome R;
  rs_Kill : R → R;
  rs_Make : nat → Z → P → outcome R;
  rs_RaftStateSize : R → Z;
  rs_ReadSnapshot : R → list SV;
}.
#[export] Hint Mode RaftService ! - - - : typeclass_instances.

Class RaftServiceLaws (R P C SV : Type) `{!RaftService R P C SV} : Prop := {
  (** starting a command leaves the saved snapshot alone, and is refused
      exactly on a peer that does not lead *)
  law_start : ∀ (r : R) (c : C) (r' : R) (i t : Z) (l : bool), rs_Start r c = Ret (r', (i, t, l)) →
    rs_GetState r = (t, l) ∧
    rs_ReadSnapshot r' = rs_ReadSnapshot r;
  (** a snapshot is saved whole or ignored *)
  law_snapshot : ∀ (r : R) (i : Z) (s : list SV) (r' : R), rs_Snapshot r i s = Ret r' →
    rs_ReadSnapshot r' = s ∨ r' = r;
  (** killing a peer or restarting it keeps the saved snapshot *)
  law_kill : ∀ r : R, rs_ReadSnapshot (rs_Kill r) = rs_ReadSnapshot r;
  law_make : ∀ (n : nat) (id : Z) (r0 r : R),
    rs_Make n id (rs_persister r0) = Ret r → rs_ReadSnapshot r = rs_ReadSnapshot r0;
}.

Section raft_service.
Context {C SV : Type} `{!GobSize (RaftGob C)}.

#[export] Instance raft_service :
    RaftService (Raft C SV) (Persister (RaftGob C) SV) C SV := {|
  rs_persister := persister;
  rs_GetState := GetState;
  rs_Start := Start;
  rs_Snapshot := Snapshot;
  rs_Kill := Kill;
  rs_Make := Make;
  rs_RaftStateSize rf := RaftStateSize (persister rf);
  rs_ReadSnapshot rf := ReadSnapshot (persister rf);
|}.

Lemma Start_service (rf : Raft C SV) c rf' i t l :
  Start rf c = Ret (rf', (i, t, l)) →
  GetState rf = (t, l) ∧ ReadSnapshot (persister rf') = ReadSnapshot (persister rf).
Proof.
  unfold Start, GetState. intros H. destruct (isState (raftState rf) leaderState) eqn:E.
  - destruct (leaderInitDone rf); [|done].
    apply bind_Ret in H as (m & _ & H). apply bind_Ret in H as (n & _ & [= <- _ <- <-]). done.
  - by injection H as <- _ <- <-.
Qed.

Lemma Snapshot_service (rf : Raft C SV) i s rf' :
  Snapshot rf i s = Ret rf' → ReadSnapshot (persister rf') = s ∨ rf' = rf.
Proof.
  unfold Snapshot. intros H. repeat (case_match; [injection H as <-; by right|]). left.
  apply bind_Ret in H as (left_ & _ & H). apply bind_Ret in H as (t & _ & H).
  unfold saveSnapshot in H. apply bind_Ret in H as (r & _ & [= <-]). done.
Qed.

#[export] Instance raft_service_laws :
  RaftServiceLaws (Raft C SV) (Persister (RaftGob C) SV) C SV.
Proof.
  constructor.
  - apply Start_service.
  - apply Snapshot_service.
  - done.
  - intros n id r0 r H. cbn in *. by apply Make_frame in H as (_ & _ & -> & _).
Qed.
End raft_service.
