(* ===== verification/KvServer.v ===== *)
(** * KvServer: the replicated key/value server of [src/src/kvraft/server.go]

    [KVServer] is the server's state, [Get]/[PutAppend] are split at their
    critical sections ([_start] talks to Raft, [register] and [_finish] hold
    [kv.mu]), [applyLoopStep] is one turn of [applyLoop], and [serialize],
    [deserialize] and [StartKVServer] are the snapshot code.  A channel of
    [waitChs] has capacity 1: [None] when empty.  The Raft peer is any
    instance of [RaftService].  What the servers promise is in [KvReplica]. *)

From S2P Require Import Prelude Labgob Persister RaftState RaftService.
Local Open Scope Z_scope.

(** ** common.go *)

Definition Err := string.
Definition OK : Err := "OK".
Definition ErrNoKey : Err := "ErrNoKey".
Definition ErrWrongLeader : Err := "ErrWrongLeader".

Record PutAppendArgs := mkPutAppendArgs {
  pa_Key : string; pa_Value : string; pa_Op : string; pa_ClientId : Z; pa_RequestId : Z;
}.
Record PutAppendReply := mkPutAppendReply { par_Err : Err }.
Record GetArgs := mkGetArgs { ga_Key : string; ga_ClientId : Z; ga_RequestId : Z }.
Record GetReply := mkGetReply { gr_Err : Err; gr_Value : string }.

(** ** server.go *)

Inductive OpType := GET | PUT | APPEND.

Record Op := mkOp {
  Type_ : OpType; Key : string; Value : string; ClientId : Z; RequestId : Z;
}.

Record WaitChResponse := mkWaitChResponse { wr_op : Op; wr_err : Err; wr_value : string }.

(** The gob messages of a snapshot. *)
Inductive KvGob :=
  | KInt (z : Z)
  | KStorage (m : gmap string string)
  | KRequests (m : gmap Z Z).

#[export] Instance KvGob_int : GobType KvGob Z := {|
  gob_inj := KInt;
  gob_prj v := match v with KInt z => Some z | _ => None end;
  gob_prj_inj z := eq_refl |}.
#[export] Instance KvGob_storage : GobType KvGob (gmap string string) := {|
  gob_inj := KStorage;
  gob_prj v := match v with KStorage m => Some m | _ => None end;
  gob_prj_inj m := eq_refl |}.
#[export] Instance KvGob_requests : GobType KvGob (gmap Z Z) := {|
  gob_inj := KRequests;
  gob_prj v := match v with KRequests m => Some m | _ => None end;
  gob_prj_inj m := eq_refl |}.

(** ** The state machine: the [switch] of [applyLoop] *)

(** [if !exist { kv.latestAppliedRequest[op.ClientId] = -1 }]. *)
Definition touchClient (lar : gmap Z Z) (client : Z) : gmap Z Z :=
  match lar !! client with Some _ => lar | None => <[client := -1]> lar end.

(** The command's effect on [storage] and [latestAppliedRequest], and the
    response's [err] and [value]. *)
Definition applyOp (op : Op) (st : gmap string string * gmap Z Z) :
    gmap string string * gmap Z Z * (Err * string) :=
  let '(storage, lar) := st in
  let lar := touchClient lar (ClientId op) in
  let isNew := default 0 (lar !! ClientId op) <? RequestId op in
  let lar' := if isNew then <[ClientId op := RequestId op]> lar else lar in
  match Type_ op with
  | GET =>
      (storage, lar',
       match storage !! Key op with
       | None => (ErrNoKey, ""%string)
       | Some value => (OK, value)
       end)
  | PUT =>
      (if isNew then <[Key op := Value op]> storage else storage, lar', (OK, ""%string))
  | APPEND =>
      (if isNew then
         match storage !! Key op with
         | Some value => <[Key op := (value +:+ Value op)]> storage
         | None => <[Key op := Value op]> storage
         end
       else storage, lar', (OK, ""%string))
  end.

Section server.
Context {R P : Type} `{!RaftService R P Op KvGob}.

Record KVServer := mkKVServer {
  kv_me : Z;
  kv_rf : R;
  kv_dead : bool;
  maxraftstate : Z;
  storage : gmap string string;
  waitChs : gmap Z (option WaitChResponse);
  latestAppliedRequest : gmap Z Z;
  latestAppliedRaftIndex : Z;
}.
Implicit Types kv : KVServer.

Definition set_rf (v : R) kv : KVServer :=
  mkKVServer (kv_me kv) v (kv_dead kv) (maxraftstate kv) (storage kv) (waitChs kv)
    (latestAppliedRequest kv) (latestAppliedRaftIndex kv).
Definition set_waitChs (v : gmap Z (option WaitChResponse)) kv : KVServer :=
  mkKVServer (kv_me kv) (kv_rf kv) (kv_dead kv) (maxraftstate kv) (storage kv) v
    (latestAppliedRequest kv) (latestAppliedRaftIndex kv).
Definition set_machine (s : gmap string string) (lar : gmap Z Z) (index : Z) kv : KVServer :=
  mkKVServer (kv_me kv) (kv_rf kv) (kv_dead kv) (maxraftstate kv) s (waitChs kv) lar index.

(** *** Snapshots *)

Definition serialize kv : list KvGob :=
  let w := Encode (latestAppliedRaftIndex kv) [] in
  let w := Encode (storage kv) w in
  Encode (latestAppliedRequest kv) w.

(** A failed [Decode] is logged and leaves the server as it is. *)
Definition deserialize (snapshot : list KvGob) kv : KVServer :=
  match snapshot with
  | [] => kv
  | _ =>
      match
        '(index, d) ← Decode (T:=Z) snapshot;
        '(s, d) ← Decode (T:=gmap string string) d;
        '(lar, _) ← Decode (T:=gmap Z Z) d;
        Some (index, s, lar)
      with
      | None => kv
      | Some (index, s, lar) => set_machine s lar index kv
      end
  end.

Definition StartKVServer (servers : nat) (me : Z) (persister : P) (maxraftstate : Z) :
    outcome KVServer :=
  rf ← rs_Make servers me persister;
  Ret (deserialize (rs_ReadSnapshot rf)
         (mkKVServer me rf false maxraftstate ∅ ∅ ∅ 0)).

Definition Kill kv : KVServer :=
  mkKVServer (kv_me kv) (rs_Kill (kv_rf kv)) true (maxraftstate kv) (storage kv) (waitChs kv)
    (latestAppliedRequest kv) (latestAppliedRaftIndex kv).

Definition killed kv : bool := kv_dead kv.

(** *** applyLoop *)

(** [waitCh <- waitChResponse] if a handler waits for the index. *)
Definition respond kv (index : Z) (response : WaitChResponse) : outcome KVServer :=
  match waitChs kv !! index with
  | None => Ret kv
  | Some None => Ret (set_waitChs (<[index := Some response]> (waitChs kv)) kv)
  | Some (Some _) => Block
  end.

(** [kv.maxraftstate != -1 && RaftStateSize() >= kv.maxraftstate]. *)
Definition maybeSnapshot kv (index : Z) : outcome KVServer :=
  if negb (maxraftstate kv =? -1) && (maxraftstate kv <=? rs_RaftStateSize (kv_rf kv))
  then rf ← rs_Snapshot (kv_rf kv) index (serialize kv); Ret (set_rf rf kv)
  else Ret kv.

Definition applyLoopStep kv (msg : ApplyMsg Op KvGob) : outcome KVServer :=
  match msg with
  | CommandMsg command index =>
      if index <=? latestAppliedRaftIndex kv then Ret kv else
      match command with
      | None => Panic
      | Some op =>
          let '(s, lar, (err, value)) := applyOp op (storage kv, latestAppliedRequest kv) in
          kv ← maybeSnapshot (set_machine s lar index kv) index;
          respond kv index (mkWaitChResponse op err value)
      end
  | SnapshotMsg snapshot _ index =>
      if latestAppliedRaftIndex kv <? index then Ret (deserialize snapshot kv) else Ret kv
  end.

(** *** The RPC handlers *)

(** Up to the return of [Start]: a refusal, or the index to wait for. *)
Definition startOp kv (op : Op) : outcome (KVServer * option Z) :=
  if (rs_GetState (kv_rf kv)).2 then
    '(rf, (raftIndex, _, isLeader)) ← rs_Start (kv_rf kv) op;
    Ret (set_rf rf kv, if isLeader : bool then Some raftIndex else None)
  else Ret (kv, None).

Definition Get_start kv (args : GetArgs) : outcome (KVServer * (GetReply + Z)) :=
  '(kv, r) ← startOp kv (mkOp GET (ga_Key args) "" (ga_ClientId args) (ga_RequestId args));
  Ret (kv, match r with None => inl (mkGetReply ErrWrongLeader "") | Some i => inr i end).

Definition PutAppend_start kv (args : PutAppendArgs) : outcome (KVServer * (PutAppendReply + Z)) :=
  let opType := if String.eqb (pa_Op args) "Put" then PUT else APPEND in
  '(kv, r) ← startOp kv (mkOp opType (pa_Key args) (pa_Value args) (pa_ClientId args) (pa_RequestId args));
  Ret (kv, match r with None => inl (mkPutAppendReply ErrWrongLeader) | Some i => inr i end).

(** The first critical section on [kv.mu]. *)
Definition register kv (raftIndex : Z) : outcome KVServer :=
  match waitChs kv !! raftIndex with
  | Some _ => Fatal
  | None => Ret (set_waitChs (<[raftIndex := None]> (waitChs kv)) kv)
  end.

(** The [select] and the second critical section: [None] while neither the
    timeout nor a response is there. *)
Definition await kv (raftIndex : Z) (timeout : bool) : option (KVServer * option WaitChResponse) :=
  let kv' := set_waitChs (delete raftIndex (waitChs kv)) kv in
  if timeout then Some (kv', None)
  else match waitChs kv !! raftIndex with
       | Some (Some response) => Some (kv', Some response)
       | _ => None
       end.

Definition Get_finish kv (raftIndex : Z) (timeout : bool) : option (KVServer * GetReply) :=
  '(kv, r) ← await kv raftIndex timeout;
  Some (kv, match r with
            | None => mkGetReply ErrWrongLeader ""
            | Some response => mkGetReply (wr_err response) (wr_value response)
            end).

Definition PutAppend_finish kv (raftIndex : Z) (timeout : bool) : option (KVServer * PutAppendReply) :=
  '(kv, r) ← await kv raftIndex timeout;
  Some (kv, match r with
            | None => mkPutAppendReply ErrWrongLeader
            | Some response => mkPutAppendReply (wr_err response)
            end).
End server.
Arguments KVServer : clear implicits.
