(* ===== verification/KvReplica.v ===== *)
(** * KvReplica: what the key/value servers promise

    The reference is a plain map on which every request is executed once, in
    the order of the committed log ([exactlyOnce], [plainStep]).  The system
    is any number of servers of KvServer, each fed by its Raft peer with the
    commands of one committed log (never skipping an index) and with snapshots
    other servers have taken, and restarted from its persister at any time.
    That all peers deliver the same log is what Raft promises its service; it
    is the shape of [kvStep] here. *)

From S2P Require Import Prelude Labgob Persister RaftState RaftService KvServer.
Local Open Scope Z_scope.

(** ** The reference *)

Definition plainStep (m : gmap string string) (op : Op) : gmap string string :=
  match Type_ op with
  | GET => m
  | PUT => <[Key op := Value op]> m
  | APPEND => <[Key op := (default ""%string (m !! Key op) +:+ Value op)]> m
  end.

Definition plainReply (m : gmap string string) (op : Op) : Err * string :=
  match Type_ op with
  | GET => match m !! Key op with Some v => (OK, v) | None => (ErrNoKey, ""%string) end
  | _ => (OK, ""%string)
  end.

(** A client and the number of its request. *)
Definition requestOf (op : Op) : Z * Z := (ClientId op, RequestId op).

(** The log without the repetitions of a request. *)
Fixpoint firsts (seen : list (Z * Z)) (l : list Op) : list Op :=
  match l with
  | [] => []
  | op :: l' =>
      if decide (requestOf op ∈ seen) then firsts seen l'
      else op :: firsts (requestOf op :: seen) l'
  end.
Definition exactlyOnce (l : list Op) : list Op := firsts [] l.

Definition replay (l : list Op) : gmap string string := foldl plainStep ∅ (exactlyOnce l).

(** What the clerks guarantee of a log: request numbers are not negative, and
    a request that appears after a later one of the same client is a
    repetition. *)
Definition wellOrdered (l : list Op) : Prop :=
  ∀ i op, l !! i = Some op → 0 <= RequestId op ∧
    ∀ j op', (j < i)%nat → l !! j = Some op' → ClientId op' = ClientId op →
      RequestId op < RequestId op' → requestOf op ∈ requestOf <$> take i l.

(** The state machine of the servers after the commands of [l]. *)
Definition machineAt (l : list Op) : gmap string string * gmap Z Z :=
  foldl (λ st op, (applyOp op st).1) (∅, ∅) l.

(** ** Deduplication is exactly-once execution *)

Lemma firsts_app seen l op :
  firsts seen (l ++ [op]) =
  firsts seen l ++ (if decide (requestOf op ∈ (requestOf <$> l) ++ seen) then [] else [op]).
Proof.
  revert seen. induction l as [|o l IH]; intros seen; cbn; [done|].
  destruct (decide (requestOf o ∈ seen)) as [Hin|Hni].
  - rewrite IH. f_equal. apply decide_ext. rewrite elem_of_cons, !elem_of_app.
    split; [tauto|]. intros [E|?]; [right; by rewrite E|tauto].
  - rewrite IH. cbn. f_equal. f_equal. apply decide_ext.
    rewrite elem_of_cons, !elem_of_app, elem_of_cons. tauto.
Qed.

Lemma exactlyOnce_app l op :
  exactlyOnce (l ++ [op]) =
  exactlyOnce l ++ (if decide (requestOf op ∈ requestOf <$> l) then [] else [op]).
Proof.
  unfold exactlyOnce. rewrite firsts_app. f_equal. apply decide_ext. by rewrite app_nil_r.
Qed.

Lemma wellOrdered_app l op :
  wellOrdered (l ++ [op]) → wellOrdered l ∧ 0 <= RequestId op ∧
  ∀ op', op' ∈ l → ClientId op' = ClientId op → RequestId op < RequestId op' →
    requestOf op ∈ requestOf <$> l.
Proof.
  intros H. split_and!.
  - intros i o Hi. pose proof (lookup_lt_Some _ _ _ Hi) as Hlt.
    destruct (H i o) as [H0 Ho]; [by apply lookup_app_l_Some|]. split; [done|].
    intros j o' Hj Hl Hc Hr. rewrite take_app_le in Ho by lia.
    eapply Ho; [done| |done|done]. by apply lookup_app_l_Some.
  - destruct (H (length l) op) as [H0 _]; [by rewrite lookup_app_r, Nat.sub_diag by lia|done].
  - intros o' Hin Hc Hr. apply list_elem_of_lookup in Hin as [j Hj].
    destruct (H (length l) op) as [_ Ho]; [by rewrite lookup_app_r, Nat.sub_diag by lia|].
    rewrite take_app_length in Ho. eapply Ho; [by eapply lookup_lt_Some| |done|done].
    by apply lookup_app_l_Some.
Qed.

(** What [latestAppliedRequest] holds after [l]: for each client of [l] the
    largest of its request numbers. *)
Definition larOk (l : list Op) (lar : gmap Z Z) : Prop :=
  (∀ op, op ∈ l → ∃ r, lar !! ClientId op = Some r ∧ RequestId op <= r) ∧
  (∀ c r, lar !! c = Some r → (c, r) ∈ requestOf <$> l).

Lemma machineAt_app l op : machineAt (l ++ [op]) = (applyOp op (machineAt l)).1.
Proof. unfold machineAt. by rewrite foldl_snoc. Qed.

(** The test of [applyOp] and what it makes of [latestAppliedRequest]. *)
Definition isNew (lar : gmap Z Z) (op : Op) : bool :=
  default 0 (touchClient lar (ClientId op) !! ClientId op) <? RequestId op.
Definition larAfter (lar : gmap Z Z) (op : Op) : gmap Z Z :=
  if isNew lar op then <[ClientId op := RequestId op]> (touchClient lar (ClientId op))
  else touchClient lar (ClientId op).

Lemma applyOp_eq s lar op :
  applyOp op (s, lar) =
  (if isNew lar op then plainStep s op else s, larAfter lar op, plainReply s op).
Proof.
  unfold applyOp, larAfter, plainStep, plainReply. fold (isNew lar op).
  destruct (Type_ op).
  - by destruct (isNew lar op), (s !! Key op).
  - by destruct (isNew lar op).
  - by destruct (isNew lar op), (s !! Key op).
Qed.

Lemma touchClient_ne lar c d : c ≠ d → touchClient lar c !! d = lar !! d.
Proof. intros Hne. unfold touchClient. destruct (lar !! c); [done|]. by rewrite lookup_insert_ne. Qed.

Lemma touchClient_eq lar c : touchClient lar c !! c = Some (default (-1) (lar !! c)).
Proof.
  unfold touchClient. destruct (lar !! c) eqn:E; [by rewrite E|]. by rewrite lookup_insert_eq.
Qed.

(** A request is new to the table exactly when it is new to the log. *)
Lemma isNew_spec l lar op :
  wellOrdered (l ++ [op]) → larOk l lar →
  isNew lar op = true ↔ requestOf op ∉ requestOf <$> l.
Proof.
  intros (_ & H0 & Hord)%wellOrdered_app [Hmax Hin]. unfold isNew.
  rewrite touchClient_eq, Z.ltb_lt. cbn. split.
  - intros Hlt (o & Ho & Hol)%list_elem_of_fmap. injection Ho as Hc Hrq.
    destruct (Hmax o Hol) as (r & Hr & Hle). rewrite <- Hc in Hr. rewrite Hr in Hlt. cbn in Hlt. lia.
  - intros Hni. destruct (lar !! ClientId op) as [r|] eqn:E; [cbn|cbn; lia].
    apply Hin, list_elem_of_fmap in E as (o & [= Hc ->] & Hol).
    destruct (Z.lt_trichotomy (RequestId o) (RequestId op)) as [?|[Heq|Hgt]]; [done| |]; destruct Hni.
    + apply list_elem_of_fmap. exists o. unfold requestOf. by rewrite Hc, Heq.
    + by apply (Hord o).
Qed.

Lemma larOk_app l lar op : 0 <= RequestId op → larOk l lar → larOk (l ++ [op]) (larAfter lar op).
Proof.
  intros H0 [Hmax Hin]. unfold larAfter, isNew. rewrite touchClient_eq. cbn.
  destruct (Z.ltb_spec (default (-1) (lar !! ClientId op)) (RequestId op)) as [Hlt|Hge]; split.
  - intros o [Ho| ->%list_elem_of_singleton]%elem_of_app.
    + destruct (Hmax o Ho) as (r & Hr & Hle). destruct (decide (ClientId op = ClientId o)) as [Hc|Hc].
      * rewrite Hc, lookup_insert_eq. rewrite Hc, Hr in Hlt. cbn in Hlt. eexists. split; [done|lia].
      * rewrite lookup_insert_ne, touchClient_ne by done. by exists r.
    + rewrite lookup_insert_eq. eexists. split; [done|lia].
  - intros c r Hc. rewrite fmap_app. apply elem_of_app.
    apply lookup_insert_Some in Hc as [[<- <-]|[Hne Hc]]; [right; by apply list_elem_of_singleton|].
    rewrite touchClient_ne in Hc by done. left. by apply Hin.
  - destruct (lar !! ClientId op) as [m|] eqn:E; cbn in Hge; [|lia].
    unfold touchClient. rewrite E. intros o [Ho| ->%list_elem_of_singleton]%elem_of_app; [by apply Hmax|].
    exists m. by rewrite E.
  - destruct (lar !! ClientId op) as [m|] eqn:E; cbn in Hge; [|lia].
    unfold touchClient. rewrite E. intros c r Hc. rewrite fmap_app. apply elem_of_app. left. by apply Hin.
Qed.

Lemma machineAt_ok l :
  wellOrdered l → (machineAt l).1 = replay l ∧ larOk l (machineAt l).2.
Proof.
  induction l as [|op l IH] using rev_ind; intros Hw.
  { split; [done|]. split; [intros op Ho; by apply not_elem_of_nil in Ho|done]. }
  pose proof (wellOrdered_app _ _ Hw) as (Hw' & H0 & _). destruct (IH Hw') as [Hs Hl].
  rewrite machineAt_app. destruct (machineAt l) as [s lar]. cbn [fst snd] in *.
  pose proof (isNew_spec l lar op Hw Hl) as Hnew. rewrite applyOp_eq. cbn [fst snd].
  split; [|by apply larOk_app]. unfold replay. rewrite exactlyOnce_app, foldl_app, Hs.
  destruct (decide (requestOf op ∈ requestOf <$> l)) as [Hi|Hi], (isNew lar op); try done.
  - by apply Hnew in Hi.
  - by apply Hnew in Hi.
Qed.

(** C18. On a log that clerks can produce, the servers' state machine is the plain
    map on which each request is executed exactly once, at its first
    occurrence; the reply to every command, repeated or not, is the plain
    map's reply. *)
Theorem exactly_once_refinement l op :
  wellOrdered (l ++ [op]) →
  (machineAt l).1 = replay l ∧ (machineAt (l ++ [op])).1 = replay (l ++ [op]) ∧
  (applyOp op (machineAt l)).2 = plainReply (replay l) op.
Proof.
  intros Hw. pose proof (wellOrdered_app _ _ Hw) as (Hw' & _).
  destruct (machineAt_ok l Hw') as [Hs Hl]. rewrite <- Hs.
  destruct (machineAt_ok _ Hw) as [Hs' _]. split_and!; [done..|].
  destruct (machineAt l). by rewrite applyOp_eq.
Qed.

(** ** The servers of one group *)

Section system.
Context {R P : Type} `{!RaftService R P Op KvGob}.
Implicit Types kv : KVServer R.

(** [committed] is the log, command index 1 first; [shots] are the pairs of
    index and data a server has handed, or could have handed, to Raft's
    [Snapshot]. *)
Record KvSystem := mkKvSystem {
  committed : list Op;
  servers : list (KVServer R);
  shots : list (Z * list KvGob);
}.

Definition commandAt (l : list Op) (i : Z) : option Op :=
  if 1 <=? i then l !! Z.to_nat (i - 1) else None.

Inductive kvStep : KvSystem → KvSystem → Prop :=
  | step_commit l ss sh op : kvStep (mkKvSystem l ss sh) (mkKvSystem (l ++ [op]) ss sh)
  (** Raft delivers a command: the next one or an older one *)
  | step_command l ss sh j kv kv' i op :
      ss !! j = Some kv → commandAt l i = Some op → i <= latestAppliedRaftIndex kv + 1 →
      applyLoopStep kv (CommandMsg (Some op) i) = Ret kv' →
      kvStep (mkKvSystem l ss sh)
        (mkKvSystem l (<[j := kv']> ss) ((latestAppliedRaftIndex kv', serialize kv') :: sh))
  (** Raft delivers a snapshot taken by some server *)
  | step_snapshot l ss sh j kv kv' i data t :
      ss !! j = Some kv → (i, data) ∈ sh → applyLoopStep kv (SnapshotMsg data t i) = Ret kv' →
      kvStep (mkKvSystem l ss sh) (mkKvSystem l (<[j := kv']> ss) sh)
  (** the peer does something of its own; InstallSnapshot saves a snapshot *)
  | step_raft l ss sh j kv rf' :
      ss !! j = Some kv →
      (rs_ReadSnapshot rf' = rs_ReadSnapshot (kv_rf kv) ∨ ∃ i, (i, rs_ReadSnapshot rf') ∈ sh) →
      kvStep (mkKvSystem l ss sh) (mkKvSystem l (<[j := set_rf rf' kv]> ss) sh)
  | step_start l ss sh j kv kv' op r :
      ss !! j = Some kv → startOp kv op = Ret (kv', r) →
      kvStep (mkKvSystem l ss sh) (mkKvSystem l (<[j := kv']> ss) sh)
  | step_register l ss sh j kv kv' i :
      ss !! j = Some kv → register kv i = Ret kv' →
      kvStep (mkKvSystem l ss sh) (mkKvSystem l (<[j := kv']> ss) sh)
  | step_await l ss sh j kv kv' i timeout r :
      ss !! j = Some kv → await kv i timeout = Some (kv', r) →
      kvStep (mkKvSystem l ss sh) (mkKvSystem l (<[j := kv']> ss) sh)
  | step_kill l ss sh j kv :
      ss !! j = Some kv → kvStep (mkKvSystem l ss sh) (mkKvSystem l (<[j := Kill kv]> ss) sh)
  | step_restart l ss sh j kv kv' n me mrs :
      ss !! j = Some kv → StartKVServer n me (rs_persister (kv_rf kv)) mrs = Ret kv' →
      kvStep (mkKvSystem l ss sh) (mkKvSystem l (<[j := kv']> ss) sh).

(** Servers without a snapshot, as [StartKVServer] makes them. *)
Definition kvFresh kv : Prop :=
  storage kv = ∅ ∧ latestAppliedRequest kv = ∅ ∧ latestAppliedRaftIndex kv = 0 ∧
  waitChs kv = ∅ ∧ rs_ReadSnapshot (kv_rf kv) = [].

Inductive kvReach : KvSystem → Prop :=
  | kv_init ss : (∀ kv, kv ∈ ss → kvFresh kv) → kvReach (mkKvSystem [] ss [])
  | kv_step s s' : kvReach s → kvStep s s' → kvReach s'.

(** *** The invariant *)

Definition prefixAt (l : list Op) (i : Z) : list Op := take (Z.to_nat i) l.

Definition encodeAt (l : list Op) (i : Z) : list KvGob :=
  let '(s, lar) := machineAt (prefixAt l i) in [KInt i; KStorage s; KRequests lar].

Definition shotOk (l : list Op) (i : Z) (data : list KvGob) : Prop :=
  0 <= i <= zlen l ∧ data = encodeAt l i.

(** The server is at index [latestAppliedRaftIndex] of the log. *)
Definition kvAt (l : list Op) kv : Prop :=
  0 <= latestAppliedRaftIndex kv <= zlen l ∧
  (storage kv, latestAppliedRequest kv) = machineAt (prefixAt l (latestAppliedRaftIndex kv)).

(** Responses in wait channels are for applied commands, and are the
    machine's replies to them. *)
Definition waitsOk (l : list Op) kv : Prop :=
  ∀ i r, waitChs kv !! i = Some (Some r) →
    i <= latestAppliedRaftIndex kv ∧ commandAt l i = Some (wr_op r) ∧
    (wr_err r, wr_value r) = (applyOp (wr_op r) (machineAt (prefixAt l (i - 1)))).2.

Definition savedOk (l : list Op) (data : list KvGob) : Prop :=
  data = [] ∨ ∃ i, shotOk l i data.

Record serverOk (l : list Op) kv : Prop := {
  so_at : kvAt l kv;
  so_waits : waitsOk l kv;
  so_saved : savedOk l (rs_ReadSnapshot (kv_rf kv));
}.

Definition kvInv (s : KvSystem) : Prop :=
  (∀ kv, kv ∈ servers s → serverOk (committed s) kv) ∧
  (∀ i data, (i, data) ∈ shots s → shotOk (committed s) i data).

(** *** The log only grows *)

Lemma prefixAt_app l op i : i <= zlen l → prefixAt (l ++ [op]) i = prefixAt l i.
Proof. intros Hi. unfold prefixAt. apply take_app_le. unfold zlen in Hi. lia. Qed.

Lemma commandAt_Some l i op :
  commandAt l i = Some op → 1 <= i <= zlen l ∧ l !! Z.to_nat (i - 1) = Some op.
Proof.
  unfold commandAt, zlen. destruct (Z.leb_spec 1 i); [|done].
  intros Hl. pose proof (lookup_lt_Some _ _ _ Hl). split; [lia|done].
Qed.

Lemma commandAt_app l op i o : commandAt l i = Some o → commandAt (l ++ [op]) i = Some o.
Proof.
  intros [Hi Hl]%commandAt_Some. unfold commandAt.
  destruct (Z.leb_spec 1 i); [|lia]. by apply lookup_app_l_Some.
Qed.

Lemma shotOk_app l op i data : shotOk l i data → shotOk (l ++ [op]) i data.
Proof.
  intros [Hi ->]. split; [autorewrite with zlen; unfold zlen in *; cbn; lia|].
  unfold encodeAt. by rewrite prefixAt_app by lia.
Qed.

Lemma serverOk_app l op kv : serverOk l kv → serverOk (l ++ [op]) kv.
Proof.
  intros [[Hr Hm] Hw Hs]. constructor.
  - split; [autorewrite with zlen; unfold zlen in *; cbn; lia|]. by rewrite prefixAt_app by lia.
  - intros i r Hi. destruct (Hw i r Hi) as (? & Hc & ?). split_and!; [done|by apply commandAt_app|].
    apply commandAt_Some in Hc as [? _]. by rewrite prefixAt_app by lia.
  - destruct Hs as [?|[i ?]]; [by left|right; exists i; by apply shotOk_app].
Qed.

(** *** Each operation keeps a server at its place in the log *)

Lemma deserialize_encodeAt l i kv :
  deserialize (encodeAt l i) kv =
  set_machine (machineAt (prefixAt l i)).1 (machineAt (prefixAt l i)).2 i kv.
Proof. unfold encodeAt. by destruct (machineAt (prefixAt l i)). Qed.

Lemma serialize_encodeAt l kv :
  kvAt l kv → serialize kv = encodeAt l (latestAppliedRaftIndex kv).
Proof. intros [_ Hm]. unfold encodeAt. by rewrite <- Hm. Qed.

Lemma prefixAt_next l i op :
  commandAt l i = Some op → prefixAt l i = prefixAt l (i - 1) ++ [op].
Proof.
  intros [Hi Hl]%commandAt_Some. unfold prefixAt.
  replace (Z.to_nat i) with (S (Z.to_nat (i - 1))) by lia. by apply take_S_r.
Qed.

Lemma kvAt_next l kv i op s lar reply :
  kvAt l kv → commandAt l i = Some op → i = latestAppliedRaftIndex kv + 1 →
  applyOp op (storage kv, latestAppliedRequest kv) = (s, lar, reply) →
  kvAt l (set_machine s lar i kv) ∧
  reply = (applyOp op (machineAt (prefixAt l (i - 1)))).2.
Proof.
  intros [Hr Hm] Hc Hi Ha. rewrite Hm in Ha.
  replace (latestAppliedRaftIndex kv) with (i - 1) in Ha by lia.
  split; [|by rewrite Ha]. pose proof (commandAt_Some _ _ _ Hc) as [? _].
  split; cbn; [lia|]. by rewrite (prefixAt_next l i op Hc), machineAt_app, Ha.
Qed.

(** Everything but the machine and the peer's saved snapshot is irrelevant to
    [serverOk], wait channels that lose or gain an empty entry included. *)
Lemma serverOk_frame l kv kv' :
  serverOk l kv → storage kv' = storage kv → latestAppliedRequest kv' = latestAppliedRequest kv →
  latestAppliedRaftIndex kv' = latestAppliedRaftIndex kv →
  (∀ i r, waitChs kv' !! i = Some (Some r) → waitChs kv !! i = Some (Some r)) →
  savedOk l (rs_ReadSnapshot (kv_rf kv')) → serverOk l kv'.
Proof.
  intros [[Hr Hm] Hw _] Hs Hlar Hi Hwait Hsaved. constructor; [|intros i r Hc; rewrite Hi; by apply Hw, Hwait|done].
  unfold kvAt. by rewrite Hs, Hlar, Hi.
Qed.

Lemma deserialize_ok l kv i data :
  serverOk l kv → shotOk l i data → latestAppliedRaftIndex kv < i →
  serverOk l (deserialize data kv).
Proof.
  intros [[Hr Hm] Hw Hs] [Hi ->] Hlt. rewrite deserialize_encodeAt. constructor; [|intros k r Hk|done].
  - split; cbn; [done|]. by rewrite <- surjective_pairing.
  - destruct (Hw k r Hk) as (? & ? & ?). cbn. split_and!; [lia|done|done].
Qed.

Context `{!RaftServiceLaws R P Op KvGob}.

Lemma maybeSnapshot_ok l kv i kv' :
  kvAt l kv → waitsOk l kv → savedOk l (rs_ReadSnapshot (kv_rf kv)) →
  maybeSnapshot kv i = Ret kv' →
  serverOk l kv' ∧ waitChs kv' = waitChs kv ∧
  latestAppliedRaftIndex kv' = latestAppliedRaftIndex kv.
Proof.
  intros Hat Hw Hs H. unfold maybeSnapshot in H. case_match; [|injection H as <-; split; [by constructor|done]].
  apply bind_Ret in H as (rf & Hrf & [= <-]). split; [|done]. constructor; [done..|]. cbn.
  destruct (law_snapshot _ _ _ _ Hrf) as [->| ->]; [|done].
  right. exists (latestAppliedRaftIndex kv). split; [by destruct Hat|]. by apply serialize_encodeAt.
Qed.

Lemma command_ok l kv i op kv' :
  serverOk l kv → commandAt l i = Some op → i <= latestAppliedRaftIndex kv + 1 →
  applyLoopStep kv (CommandMsg (Some op) i) = Ret kv' → serverOk l kv'.
Proof.
  intros [Hat Hw Hs] Hc Hi H. unfold applyLoopStep in H.
  destruct (Z.leb_spec i (latestAppliedRaftIndex kv)); [injection H as <-; by constructor|].
  destruct (applyOp op (storage kv, latestAppliedRequest kv)) as [[s lar] [err value]] eqn:Ha.
  apply bind_Ret in H as (kv1 & H1 & H).
  destruct (kvAt_next l kv i op s lar (err, value) Hat Hc ltac:(lia) Ha) as [Hat1 Hreply].
  assert (waitsOk l (set_machine s lar i kv)) as Hw1.
  { intros k r Hk. destruct (Hw k r Hk) as (? & ? & ?). cbn. split_and!; [lia|done..]. }
  destruct (maybeSnapshot_ok l _ i kv1 Hat1 Hw1 Hs H1) as ([Hat2 Hw2 Hs2] & Hch & Hix).
  unfold respond in H. destruct (waitChs kv1 !! i) as [[?|]|] eqn:E; [done| |injection H as <-; by constructor].
  injection H as <-. constructor; [done| |done]. intros k r Hk. cbn in Hk.
  apply lookup_insert_Some in Hk as [[<- [= <-]]|[_ Hk]]; [|by apply Hw2].
  cbn. rewrite Hix. cbn. split_and!; [lia|done|done].
Qed.

Lemma start_ok n me ps mrs kv' l kv :
  serverOk l kv → ps = rs_persister (kv_rf kv) → StartKVServer n me ps mrs = Ret kv' →
  serverOk l kv'.
Proof.
  intros [_ _ Hs] -> H. unfold StartKVServer in H. apply bind_Ret in H as (rf & Hrf & [= <-]).
  apply law_make in Hrf. rewrite Hrf. set (kv0 := mkKVServer _ _ _ _ _ _ _ _).
  assert (kvAt l kv0) as Hat by (split; [cbn; unfold zlen; lia|done]).
  assert (waitsOk l kv0) as Hw by (by intros i r Hi).
  destruct Hs as [E|(i & Hi & E)]; rewrite E.
  - constructor; [done..|]. cbn. rewrite Hrf. by left.
  - rewrite deserialize_encodeAt. constructor; [|intros k r Hk|].
    + split; cbn; [done|]. by rewrite <- surjective_pairing.
    + done.
    + cbn. rewrite Hrf. right. by exists i.
Qed.

Lemma kvInv_update l ss sh sh' j kv kv' :
  kvInv (mkKvSystem l ss sh) → ss !! j = Some kv → (serverOk l kv → serverOk l kv') →
  (∀ i data, (i, data) ∈ sh' → (i, data) ∈ sh ∨ shotOk l i data) →
  kvInv (mkKvSystem l (<[j := kv']> ss) sh').
Proof.
  intros [Hss Hsh] Hj Hok Hsh'. split; cbn in *.
  - intros k Hk. apply list_elem_of_lookup in Hk as [m Hm].
    apply list_lookup_insert_Some in Hm as [(<- & <- & _)|[_ Hm]].
    + by eapply Hok, Hss, list_elem_of_lookup_2.
    + by eapply Hss, list_elem_of_lookup_2.
  - intros i data Hin. destruct (Hsh' i data Hin) as [?|?]; auto.
Qed.

Lemma kvInv_step s s' : kvInv s → kvStep s s' → kvInv s'.
Proof.
  intros Hi Hst.
  destruct Hst as [l ss sh op|l ss sh j kv kv' i op Hj Hc Hle H|l ss sh j kv kv' i data t Hj Hin H
    |l ss sh j kv rf' Hj Hs|l ss sh j kv kv' op r Hj H|l ss sh j kv kv' i Hj H
    |l ss sh j kv kv' i timeout r Hj H|l ss sh j kv Hj|l ss sh j kv kv' n me mrs Hj H].
  - destruct Hi as [Hss Hsh]. split; cbn in *; eauto using serverOk_app, shotOk_app.
  - pose proof Hi as [Hss _]. cbn in Hss. eapply kvInv_update; [done..| |].
    { intros Hok. by eapply command_ok. }
    intros i' data [[= -> ->]|?]%elem_of_cons; [right|by left].
    assert (serverOk l kv') as [Hat _ _] by (by eapply command_ok; [eapply Hss, list_elem_of_lookup_2|..]).
    split; [by destruct Hat|by apply serialize_encodeAt].
  - pose proof Hi as [_ Hsh]. eapply kvInv_update; [done..| |by left]. intros Hok. cbn in H.
    destruct (Z.ltb_spec (latestAppliedRaftIndex kv) i); injection H as <-; [|done].
    by eapply deserialize_ok; [done|apply Hsh|].
  - pose proof Hi as [_ Hsh]. eapply kvInv_update; [done..| |by left]. intros Hok.
    eapply serverOk_frame; [done..|]. cbn. destruct Hs as [->|[i Hin]]; [by destruct Hok|].
    right. exists i. by apply Hsh.
  - eapply kvInv_update; [done..| |by left]. intros Hok. unfold startOp in H.
    case_match; [|by injection H as <- _].
    apply bind_Ret in H as ([rf [[i t] b]] & Hrf & [= <- _]). apply law_start in Hrf as [_ Hrf].
    eapply serverOk_frame; [done..|]. cbn. rewrite Hrf. by destruct Hok.
  - eapply kvInv_update; [done..| |by left]. intros Hok. unfold register in H.
    case_match; [done|]. injection H as <-. eapply serverOk_frame; [done..| |by destruct Hok].
    cbn. intros k r Hk. by apply lookup_insert_Some in Hk as [[_ ?]|[_ ?]].
  - eapply kvInv_update; [done..| |by left]. intros Hok.
    assert (kv' = set_waitChs (delete i (waitChs kv)) kv) as ->
      by (unfold await in H; repeat case_match; by simplify_eq).
    eapply serverOk_frame; [done..| |by destruct Hok]. cbn. intros k x Hk. by apply lookup_delete_Some in Hk as [_ ?].
  - eapply kvInv_update; [done..| |by left]. intros Hok.
    eapply serverOk_frame; [done..|]. cbn. rewrite law_kill. by destruct Hok.
  - eapply kvInv_update; [done..| |by left]. intros Hok. by eapply start_ok.
Qed.

Lemma kvInv_reach s : kvReach s → kvInv s.
Proof.
  induction 1 as [ss Hss|]; [|by eapply kvInv_step]. split; cbn.
  - intros kv (Hs & Hl & Hi & Hw & Hp)%Hss. constructor.
    + split; rewrite Hi; [unfold zlen; cbn; lia|]. by rewrite Hs, Hl.
    + intros i r Hir. by rewrite Hw in Hir.
    + by left.
  - intros i data Hin. by apply not_elem_of_nil in Hin.
Qed.

Lemma wellOrdered_prefix l i : wellOrdered l → wellOrdered (prefixAt l i).
Proof.
  intros Hw k op Hk. apply lookup_take_Some in Hk as [Hk Hlt]. destruct (Hw k op Hk) as [H0 Ho].
  split; [done|]. intros j op' Hj Hl Hc Hr. unfold prefixAt in *. rewrite take_take, Nat.min_l by lia.
  apply lookup_take_Some in Hl as [Hl _]. by eapply Ho.
Qed.

(** C26. In every run of the servers over one committed log, restarts, repeated deliveries
    and snapshots included, the storage of a server is what the plain map holds after its
    prefix of the log, each request once.  Condition: the log is one that clerks produce,
    in which a request that comes after a later one of its client is a repetition
    ([clerks_linearizable] shows this of clerks whose handlers answer for their own
    commands; the handlers do not check that, finding kvraft/server.go:101). *)
Theorem kv_server_refines s kv :
  kvReach s → wellOrdered (committed s) → kv ∈ servers s →
  0 <= latestAppliedRaftIndex kv <= zlen (committed s) ∧
  storage kv = replay (prefixAt (committed s) (latestAppliedRaftIndex kv)).
Proof.
  intros [Hss _]%kvInv_reach Hw Hkv. destruct (Hss kv Hkv) as [[Hr Hm] _ _]. split; [done|].
  destruct (machineAt_ok _ (wellOrdered_prefix _ (latestAppliedRaftIndex kv) Hw)) as [<- _].
  by rewrite <- Hm.
Qed.

(** Two servers that have applied up to the same index hold the same data
    and the same table of executed requests, whatever mixture of commands,
    snapshots and restarts brought each of them there. *)
Theorem kv_servers_agree s kv1 kv2 :
  kvReach s → kv1 ∈ servers s → kv2 ∈ servers s →
  latestAppliedRaftIndex kv1 = latestAppliedRaftIndex kv2 →
  storage kv1 = storage kv2 ∧ latestAppliedRequest kv1 = latestAppliedRequest kv2.
Proof.
  intros [Hss _]%kvInv_reach H1 H2 Hi. destruct (Hss _ H1) as [[_ Hm1] _ _], (Hss _ H2) as [[_ Hm2] _ _].
  rewrite Hi, <- Hm2 in Hm1. by injection Hm1.
Qed.

(** A response in a wait channel is the plain map's reply to the command at its
    index. *)
Lemma await_reply s kv i kv' r :
  kvReach s → wellOrdered (committed s) → kv ∈ servers s → await kv i false = Some (kv', r) →
  ∃ resp, r = Some resp ∧ commandAt (committed s) i = Some (wr_op resp) ∧
    (wr_err resp, wr_value resp) = plainReply (replay (prefixAt (committed s) (i - 1))) (wr_op resp).
Proof.
  intros [Hss _]%kvInv_reach Hw Hkv H. destruct (Hss kv Hkv) as [_ Hwait _].
  unfold await in H. destruct (waitChs kv !! i) as [[resp|]|] eqn:E; try done.
  injection H as _ <-. destruct (Hwait i resp E) as (_ & Hc & Hr). exists resp. split_and!; [done..|].
  rewrite Hr. destruct (machineAt_ok _ (wellOrdered_prefix _ (i - 1) Hw)) as [<- _].
  destruct (machineAt _). by rewrite applyOp_eq.
Qed.

(** C27. The reply of a handler that was not timed out is the plain map's reply to the
    command committed at the handler's index, at that place of the log.  Condition, as in
    [kv_server_refines]: the committed log is one that clerks produce, in which a request
    that comes after a later one of its client is a repetition.  The command at the index
    need not be the handler's own (finding kvraft/server.go:101). *)
Theorem kv_reply_correct s kv i :
  kvReach s → wellOrdered (committed s) → kv ∈ servers s →
  (∀ kv' reply, Get_finish kv i false = Some (kv', reply) →
     ∃ op, commandAt (committed s) i = Some op ∧
       (gr_Err reply, gr_Value reply) = plainReply (replay (prefixAt (committed s) (i - 1))) op) ∧
  (∀ kv' reply, PutAppend_finish kv i false = Some (kv', reply) →
     ∃ op, commandAt (committed s) i = Some op ∧
       par_Err reply = (plainReply (replay (prefixAt (committed s) (i - 1))) op).1).
Proof.
  intros Hs Hw Hkv. pose proof (await_reply s kv i) as Hawait. split; intros kv' reply H; unfold Get_finish, PutAppend_finish in H;
    apply bind_Some in H as ([kv1 r] & Ha & [= _ <-]);
    destruct (Hawait _ _ Hs Hw Hkv Ha) as (resp & -> & Hc & Hr); exists (wr_op resp); (split; [done|]); cbn.
  - done.
  - by rewrite <- Hr.
Qed.

(** The apply loop is never stuck on a wait channel: once Raft has returned
    from [Snapshot], a turn of the loop on a command of the log ends. *)
Theorem kv_apply_progress s kv i op :
  kvReach s → kv ∈ servers s → commandAt (committed s) i = Some op →
  (∀ snap, is_Ret (rs_Snapshot (kv_rf kv) i snap)) →
  is_Ret (applyLoopStep kv (CommandMsg (Some op) i)).
Proof.
  intros [Hss _]%kvInv_reach Hkv Hc Hsnap. destruct (Hss kv Hkv) as [_ Hwait _].
  unfold applyLoopStep. destruct (Z.leb_spec i (latestAppliedRaftIndex kv)); [by eexists|].
  destruct (applyOp op _) as [[s' lar] [err value]].
  assert (∃ kv1, maybeSnapshot (set_machine s' lar i kv) i = Ret kv1 ∧ waitChs kv1 = waitChs kv)
    as (kv1 & -> & Hch).
  { unfold maybeSnapshot. case_match; [|by eexists]. cbn.
    edestruct Hsnap as [rf Hrf]. rewrite Hrf. by eexists. }
  cbn. unfold respond. rewrite Hch. destruct (waitChs kv !! i) as [[r|]|] eqn:E; [|by eexists..].
  apply Hwait in E as [? _]. lia.
Qed.
End system.
Arguments KvSystem : clear implicits.
