(* ===== verification/KvRaft.v ===== *)
(** * KvRaft: the key/value service on its Raft cluster

    The servers of KvServer, each on a peer of the replicating cluster of
    RaftReplication, as one system.  Between a peer and its server is a [Feed] of
    RaftFeed, with the [applyLoop] of server.go at its end.  The servers take no
    snapshots ([maxraftstate] is -1).

    [kvraft_refines]: this system is the one of KvReplica, whose servers are fed
    from one committed log.  That all peers deliver the same log, which KvReplica
    takes for granted, is here what the safety of Raft gives. *)

From S2P Require Import Prelude Labgob Persister RaftState RaftRpc RaftLeader RaftPeer RaftCluster RaftLinks RaftReplication RaftQuorums RaftInvariant RaftSteps RaftAppends RaftSafety RaftApply RaftFeed RaftService KvServer KvReplica.
Local Open Scope Z_scope.

Section kvraft.
Context `{!GobSize (RaftGob Op)}.

Record KvCluster := mkKvCluster {
  kc_raft : World Op KvGob;
  kc_servers : list (KVServer (Raft Op KvGob));
  kc_feeds : list (Feed Op KvGob);
}.

Inductive klabel :=
  | KRaft (l : rlabel Op KvGob)
  | KStart (p : nat) (op : Op)
  | KRegister (p : nat) (i : Z)
  | KAwait (p : nat) (i : Z) (timeout : bool)
  | KCheck (p : nat)
  | KBegin (p : nat)
  | KReceive (p : nat)
  | KApply (p : nat)
  | KEnd (p : nat)
  | KRestart (p : nat)
  | KKill (p : nat).

(** The steps of the cluster that are not refined here. *)
Definition kraft (l : rlabel Op KvGob) : bool :=
  match l with
  | RStart _ _ | RRestart _ => false
  | RCluster (LNode _ OpApplyCheck) | RCluster (LNode _ (OpApplyEnd _)) | RCluster (LNode _ OpKill) => false
  | _ => true
  end.

(** [kv.rf] is the peer of the cluster. *)
Definition sync (w : World Op KvGob) (ss : list (KVServer (Raft Op KvGob))) :=
  zip_with set_rf (nodes (cl w)) ss.

Definition kstep (l : klabel) (s : KvCluster) : option KvCluster :=
  let '(mkKvCluster w ss fs) := s in
  match l with
  | KRaft l => if kraft l then w' ← rstep l w; Some (mkKvCluster w' (sync w' ss) fs) else None
  | KStart p op =>
      kv ← ss !! p;
      '(kv', _) ← returned (startOp kv op);
      if (GetState (kv_rf kv)).2 then
        w' ← rstep (RStart p op) w;
        Some (mkKvCluster w' (sync w' (<[p := kv']> ss)) fs)
      else Some (mkKvCluster w (<[p := kv']> ss) fs)
  | KRegister p i =>
      kv ← ss !! p; kv' ← returned (register kv i); Some (mkKvCluster w (<[p := kv']> ss) fs)
  | KAwait p i timeout =>
      kv ← ss !! p; '(kv', _) ← await kv i timeout; Some (mkKvCluster w (<[p := kv']> ss) fs)
  | KCheck p =>
      f ← fs !! p;
      rf ← nodes (cl w) !! p;
      if feedIdle f then
        '(_, next) ← returned (applyCheck rf);
        w' ← rstep (RCluster (LNode p OpApplyCheck)) w;
        Some (mkKvCluster w' (sync w' ss) (<[p := feedCheck next f]> fs))
      else None
  | KBegin p =>
      f ← fs !! p;
      rf ← nodes (cl w) !! p;
      next ← f_next f;
      batch ← returned (applyBegin rf next);
      Some (mkKvCluster w ss (<[p := feedBegin next batch f]> fs))
  | KReceive p =>
      f ← fs !! p; f' ← feedReceive f; Some (mkKvCluster w ss (<[p := f']> fs))
  | KApply p =>
      f ← fs !! p;
      kv ← ss !! p;
      m ← f_inbox f;
      kv' ← returned (applyLoopStep kv m);
      Some (mkKvCluster w (<[p := kv']> ss) (<[p := feedTake f]> fs))
  | KEnd p =>
      f ← fs !! p;
      match f_batch f, f_msgs f with
      | Some es, [] =>
          w' ← rstep (RCluster (LNode p (OpApplyEnd es))) w;
          Some (mkKvCluster w' (sync w' ss) (<[p := feedEnd f]> fs))
      | _, _ => None
      end
  | KRestart p =>
      kv ← ss !! p;
      w' ← rstep (RRestart p) w;
      kv' ← returned (StartKVServer (peers (kv_rf kv)) (me (kv_rf kv)) (persister (kv_rf kv)) (maxraftstate kv));
      Some (mkKvCluster w' (sync w' (<[p := kv']> ss)) (<[p := idleFeed]> fs))
  | KKill p =>
      kv ← ss !! p;
      w' ← rstep (RCluster (LNode p OpKill)) w;
      Some (mkKvCluster w' (sync w' (<[p := Kill kv]> ss)) fs)
  end.

(** The server [StartKVServer] makes on an empty persister. *)
Definition initServer (n p : nat) : KVServer (Raft Op KvGob) :=
  mkKVServer (Z.of_nat p) (initRaft n (Z.of_nat p) (mkPersister [] [])) false (-1) ∅ ∅ ∅ 0.

Lemma initServer_start n p :
  StartKVServer n (Z.of_nat p) (mkPersister [] []) (-1) = Ret (initServer n p).
Proof. done. Qed.

Definition initKv (n : nat) : KvCluster :=
  mkKvCluster (initWorld n (λ _, [])) (initServer n <$> seq 0 n) (replicate n idleFeed).

(** The conditions of RaftSteps on the steps of the cluster. *)
Definition kbenign (l : klabel) (s : KvCluster) : Prop :=
  match l with KRaft l => sbenign l (kc_raft s) | _ => True end.

Inductive kreach (n : nat) : KvCluster → Prop :=
  | kreach_init : kreach n (initKv n)
  | kreach_step l s s' : kreach n s → kbenign l s → kstep l s = Some s' → kreach n s'.
End kvraft.


(** ** The invariant *)
Section refinement.
Context `{!GobSize (RaftGob Op)}.
Implicit Types (w : World Op KvGob) (wn : Wins) (rf : Raft Op KvGob) (kv : KVServer (Raft Op KvGob)).
Implicit Types (f : Feed Op KvGob) (ss : list (KVServer (Raft Op KvGob))) (fs : list (Feed Op KvGob)) (log : list Op).

(** The server is on its peer, takes no snapshots, and gets the chosen commands,
    the next one first. *)
Definition fed w wn rf kv f : Prop :=
  kv_rf kv = rf ∧ maxraftstate kv = -1 ∧ feedOk w wn rf (latestAppliedRaftIndex kv) f.

(** The log of the system of KvReplica is what Raft has chosen. *)
Definition refines w wn ss : Prop :=
  ∃ log sh, kvReach (mkKvSystem log ss sh) ∧ ∀ i op, commandAt log i = Some op → chosen w wn i (Some op).

Record kinv (s : KvCluster) wn : Prop := {
  ki_raft : sinv (kc_raft s) wn;
  ki_servers : length (kc_servers s) = length (nodes (cl (kc_raft s)));
  ki_feeds : length (kc_feeds s) = length (nodes (cl (kc_raft s)));
  ki_ok p rf kv f : nodes (cl (kc_raft s)) !! p = Some rf → kc_servers s !! p = Some kv →
    kc_feeds s !! p = Some f → fed (kc_raft s) wn rf kv f;
  ki_refines : refines (kc_raft s) wn (kc_servers s);
}.

(** *** Steps of the cluster *)

Lemma sync_lookup w ss p kv :
  sync w ss !! p = Some kv → ∃ rf kv0, nodes (cl w) !! p = Some rf ∧ ss !! p = Some kv0 ∧ kv = set_rf rf kv0.
Proof. intros H. apply lookup_zip_with_Some in H as (rf & kv0 & -> & ? & ?). by exists rf, kv0. Qed.

Lemma sync_length w ss : length ss = length (nodes (cl w)) → length (sync w ss) = length (nodes (cl w)).
Proof. intros E. unfold sync. rewrite length_zip_with. lia. Qed.

Lemma kvReach_sync log ss sh (rfs : list (Raft Op KvGob)) :
  kvReach (mkKvSystem log ss sh) → length rfs = length ss →
  (∀ p kv rf, ss !! p = Some kv → rfs !! p = Some rf → rs_ReadSnapshot rf = rs_ReadSnapshot (kv_rf kv)) →
  kvReach (mkKvSystem log (zip_with set_rf rfs ss) sh).
Proof.
  intros Hr Hlen Hsnap.
  assert (∀ n, (n <= length ss)%nat →
    kvReach (mkKvSystem log (take n (zip_with set_rf rfs ss) ++ drop n ss) sh)) as Hall.
  { induction n as [|n IH]; intros Hn; [done|].
    destruct (lookup_lt_is_Some_2 ss n) as [kv Hkv]; [lia|].
    destruct (lookup_lt_is_Some_2 rfs n) as [rf Hrf]; [lia|].
    assert (zip_with set_rf rfs ss !! n = Some (set_rf rf kv)) as Hz by (apply lookup_zip_with_Some; eauto).
    eapply kv_step; [apply IH; lia|].
    replace (take (S n) (zip_with set_rf rfs ss) ++ drop (S n) ss)
      with (<[n := set_rf rf kv]> (take n (zip_with set_rf rfs ss) ++ drop n ss)).
    - apply step_raft; [|left; by eapply Hsnap].
      rewrite lookup_app_r; rewrite length_take, length_zip_with, ?Nat.min_l by lia; [|lia].
      by rewrite Nat.sub_diag, lookup_drop, Nat.add_0_r.
    - rewrite (take_S_r _ _ _ Hz), (drop_S _ _ _ Hkv), <- (assoc_L (++)). cbn.
      rewrite insert_app_r_alt by (rewrite length_take; lia).
      rewrite length_take, length_zip_with, Nat.min_l, Nat.sub_diag by lia. done. }
  specialize (Hall (length ss) ltac:(lia)). rewrite drop_all, app_nil_r, firstn_all2 in Hall; [done|].
  rewrite length_zip_with. lia.
Qed.

Lemma refines_later w wn w' wn' ss : later w wn w' wn' → refines w wn ss → refines w' wn' ss.
Proof.
  intros Hl (log & sh & Hr & Hc). exists log, sh. split; [done|]. intros i op Hi.
  eapply chosen_later; [done|]. by apply Hc.
Qed.

Lemma refines_sync w wn w' wn' ss :
  later w wn w' wn' → refines w wn ss → length ss = length (nodes (cl w')) →
  (∀ p kv rf, ss !! p = Some kv → nodes (cl w') !! p = Some rf →
     ReadSnapshot (persister rf) = ReadSnapshot (persister (kv_rf kv))) →
  refines w' wn' (sync w' ss).
Proof.
  intros Hl (log & sh & Hr & Hc)%(refines_later _ _ _ _ _ Hl) Hlen Hsnap. exists log, sh. split; [|done].
  apply kvReach_sync; [done|done|]. intros p kv rf Hk Hp. by apply (Hsnap p).
Qed.

Lemma fed_served w wn w' wn' rf rf' kv f :
  later w wn w' wn' → served rf rf' → fed w wn rf kv f → fed w' wn' rf' (set_rf rf' kv) f.
Proof. intros Hl Hs (_ & Hm & Hf). split_and!; [done..|]. by eapply feedOk_served. Qed.

Lemma fed_noSnap w wn rf kv f : fed w wn rf kv f → rs_ReadSnapshot (kv_rf kv) = [].
Proof. intros (-> & _ & []). done. Qed.

(** A step of the cluster, in which servers and feeds may change too. *)
Lemma kinv_world w ss fs wn l w' ss1 fs1 :
  kinv (mkKvCluster w ss fs) wn → sbenign l w → rstep l w = Some w' →
  refines w wn ss1 → length ss1 = length ss → length fs1 = length fs →
  (∀ wn' p rf' kv1 f1, later w wn w' wn' → nodes (cl w') !! p = Some rf' → ss1 !! p = Some kv1 →
     fs1 !! p = Some f1 → rs_ReadSnapshot (kv_rf kv1) = [] ∧ fed w' wn' rf' (set_rf rf' kv1) f1) →
  ∃ wn', kinv (mkKvCluster w' (sync w' ss1) fs1) wn'.
Proof.
  intros [Hs Hls Hlf _ _] Hb H Href Els Elf Hok. cbn in *.
  destruct (sinv_step _ _ _ _ Hs Hb H) as (wn' & Hlt & Hs').
  pose proof (lt_length _ _ _ _ Hlt) as Hn. exists wn'.
  constructor; cbn; [done|apply sync_length; congruence|congruence| |].
  - intros p rf' kv f Hp' Hkv Hf. apply sync_lookup in Hkv as (r & kv1 & Hr & Hk1 & ->). simplify_eq.
    by apply (Hok wn' p).
  - apply (refines_sync w wn); [done..|congruence|]. intros p kv1 rf' Hk1 Hp'.
    destruct (lookup_lt_is_Some_2 fs1 p) as [f Hf]; [rewrite Elf, Hlf, <- Hn; by eapply lookup_lt_Some|].
    destruct (Hok wn' p rf' kv1 f) as [E1 Hfo]; [done..|]. cbn in E1. rewrite E1. by apply (fed_noSnap _ _ _ _ _ Hfo).
Qed.

(** The feeds do not notice the steps in [servedLabel]. *)
Lemma fed_step w ss fs wn l w' wn' p rf' kv f :
  kinv (mkKvCluster w ss fs) wn → sbenign l w → servedLabel l = true → rstep l w = Some w' →
  later w wn w' wn' → nodes (cl w') !! p = Some rf' → ss !! p = Some kv → fs !! p = Some f →
  rs_ReadSnapshot (kv_rf kv) = [] ∧ fed w' wn' rf' (set_rf rf' kv) f.
Proof.
  intros [Hs _ _ Hok _] Hb Hl H Hlt Hp' Hkv Hf. cbn in Hs, Hok.
  destruct (rstep_served _ _ _ _ _ _ Hs Hb Hl H Hp') as (rf & Hp & Hsv).
  pose proof (Hok p rf kv f Hp Hkv Hf) as Hfo. split; [by eapply fed_noSnap|by eapply fed_served].
Qed.

(** A step of the cluster that the feeds do not notice, while a server may do
    something that leaves its place in the log alone. *)
Lemma kinv_raft w ss fs wn l w' ss1 :
  kinv (mkKvCluster w ss fs) wn → sbenign l w → servedLabel l = true → rstep l w = Some w' →
  refines w wn ss1 → length ss1 = length ss →
  (∀ p kv1, ss1 !! p = Some kv1 → ∃ kv, ss !! p = Some kv ∧ maxraftstate kv1 = maxraftstate kv ∧
     latestAppliedRaftIndex kv1 = latestAppliedRaftIndex kv ∧
     rs_ReadSnapshot (kv_rf kv1) = rs_ReadSnapshot (kv_rf kv)) →
  ∃ wn', kinv (mkKvCluster w' (sync w' ss1) fs) wn'.
Proof.
  intros Hk Hb Hl H Href Hlen Hss1. eapply kinv_world; [done..|].
  intros wn' p rf' kv1 f Hlt Hp' Hk1 Hf. destruct (Hss1 p kv1 Hk1) as (kv & Hkv & Em & Ei & ->).
  destruct (fed_step _ _ _ _ _ _ _ _ _ _ _ Hk Hb Hl H Hlt Hp' Hkv Hf) as [Hn (H1 & H2 & H3)].
  split; [done|]. split_and!; cbn in *; rewrite ?Ei, ?Em; done.
Qed.

(** *** Steps of one server *)

Lemma refines_kvStep w wn ss ss' :
  refines w wn ss → (∀ log sh, ∃ sh', kvStep (mkKvSystem log ss sh) (mkKvSystem log ss' sh')) →
  refines w wn ss'.
Proof.
  intros (log & sh & Hr & Hc) Hst. destruct (Hst log sh) as [sh' H]. exists log, sh'.
  split; [by eapply kv_step|done].
Qed.

Lemma kinv_server w ss fs wn p rf kv kv' f f' :
  kinv (mkKvCluster w ss fs) wn → nodes (cl w) !! p = Some rf → ss !! p = Some kv → fs !! p = Some f →
  (fed w wn rf kv f → fed w wn rf kv' f') → refines w wn (<[p := kv']> ss) →
  kinv (mkKvCluster w (<[p := kv']> ss) (<[p := f']> fs)) wn.
Proof.
  intros [Hs Hls Hlf Hok _] Hp Hkv Hf Hfo Href. cbn in *.
  constructor; cbn; rewrite ?length_insert; try done. intros q r k g Hq Hk Hg.
  apply list_lookup_insert_Some in Hk as [(<- & <- & _)|[Hne Hk]].
  - rewrite list_lookup_insert_eq in Hg by (by eapply lookup_lt_Some). simplify_eq. by apply Hfo, (Hok p).
  - rewrite list_lookup_insert_ne in Hg by done. eauto.
Qed.

(** The peer and the feed of a server. *)
Lemma kinv_lookup w ss fs wn p kv :
  kinv (mkKvCluster w ss fs) wn → ss !! p = Some kv →
  ∃ rf f, nodes (cl w) !! p = Some rf ∧ fs !! p = Some f ∧ fed w wn rf kv f.
Proof.
  intros [Hs Hls Hlf Hok _] Hkv. cbn in *. pose proof (lookup_lt_Some _ _ _ Hkv) as Hlt.
  destruct (lookup_lt_is_Some_2 (nodes (cl w)) p) as [rf Hp]; [lia|].
  destruct (lookup_lt_is_Some_2 fs p) as [f Hf]; [lia|]. exists rf, f. eauto.
Qed.

(** The server does something that leaves its place in the log alone. *)
Lemma kinv_quiet w ss fs wn p kv kv' :
  kinv (mkKvCluster w ss fs) wn → ss !! p = Some kv →
  kv_rf kv' = kv_rf kv → maxraftstate kv' = maxraftstate kv →
  latestAppliedRaftIndex kv' = latestAppliedRaftIndex kv → refines w wn (<[p := kv']> ss) →
  kinv (mkKvCluster w (<[p := kv']> ss) fs) wn.
Proof.
  intros Hk Hkv Er Em Ei Href. destruct (kinv_lookup _ _ _ _ _ _ Hk Hkv) as (rf & f & Hp & Hf & _).
  rewrite <- (list_insert_id fs p f Hf). eapply kinv_server; [done..| |done].
  unfold fed. by rewrite Er, Em, Ei.
Qed.

(** The message the server has received is the next chosen command. *)
Lemma refines_apply w wn ss p kv kv' op :
  sinv w wn → refines w wn ss → ss !! p = Some kv → chosen w wn (latestAppliedRaftIndex kv + 1) (Some op) →
  applyLoopStep kv (CommandMsg (Some op) (latestAppliedRaftIndex kv + 1)) = Ret kv' →
  refines w wn (<[p := kv']> ss).
Proof.
  intros Hs (log & sh & Hr & Hc) Hkv Hch H. pose proof (kvInv_reach _ Hr) as [Hok _].
  destruct (Hok kv) as [[Hle _] _ _]; [cbn; by eapply list_elem_of_lookup_2|]. cbn in Hle.
  destruct (commandAt log (latestAppliedRaftIndex kv + 1)) as [op'|] eqn:E.
  - pose proof (chosen_fun _ _ _ _ _ (proj1 (proj2 (proj2 Hs))) Hch (Hc _ _ E)) as [= <-].
    
    eexists log, _. split; [|done]. eapply kv_step; [done|]. eapply step_command; [done|done|lia|done].
  - assert (latestAppliedRaftIndex kv = zlen log) as El.
    { unfold commandAt in E. destruct (Z.leb_spec 1 (latestAppliedRaftIndex kv + 1)); [|lia].
      apply lookup_ge_None in E. unfold zlen in *. lia. }
    assert (commandAt (log ++ [op]) (latestAppliedRaftIndex kv + 1) = Some op) as Eop.
    { unfold commandAt. destruct (Z.leb_spec 1 (latestAppliedRaftIndex kv + 1)); [|lia].
      apply list_lookup_middle. unfold zlen in El. lia. }
    eexists (log ++ [op]), _. split.
    + eapply kv_step; [eapply kv_step; [done|apply step_commit]|]. eapply step_command; [done|done|lia|done].
    + intros i o Hi. pose proof (commandAt_Some _ _ _ Hi) as [Hi1 Hi2].
      apply lookup_snoc_Some in Hi2 as [[Hlt Hi2]|[Hi2 <-]].
      * apply Hc. unfold commandAt. by destruct (Z.leb_spec 1 i); [|lia].
      * unfold zlen in *. replace i with (latestAppliedRaftIndex kv + 1) by lia. done.
Qed.

Lemma applyLoopStep_frame kv c kv' :
  maxraftstate kv = -1 → applyLoopStep kv (CommandMsg c (latestAppliedRaftIndex kv + 1)) = Ret kv' →
  (∃ op, c = Some op) ∧ kv_rf kv' = kv_rf kv ∧ maxraftstate kv' = -1 ∧
  latestAppliedRaftIndex kv' = latestAppliedRaftIndex kv + 1.
Proof.
  intros Em H. unfold applyLoopStep in H.
  destruct (Z.leb_spec (latestAppliedRaftIndex kv + 1) (latestAppliedRaftIndex kv)); [lia|].
  destruct c as [op|]; [|done]. split; [by eexists|].
  destruct (applyOp op _) as [[s lar] [err value]]. unfold maybeSnapshot in H. cbn in H. rewrite Em in H. cbn in H.
  unfold respond in H. by repeat case_match; simplify_eq.
Qed.

(** *** Every step *)

Lemma kraft_served l : kraft l = true → servedLabel l = true.
Proof. by destruct l as [[? []| | | | | | |]| | | | | | | | | | | | | | | | |]. Qed.

Lemma kinv_start w ss fs wn p op kv kv' r w' :
  kinv (mkKvCluster w ss fs) wn → ss !! p = Some kv → startOp kv op = Ret (kv', r) →
  rstep (RStart p op) w = Some w' →
  ∃ wn', kinv (mkKvCluster w' (sync w' (<[p := kv']> ss)) fs) wn'.
Proof.
  intros Hk Hkv Hst H. eapply (kinv_raft _ _ _ _ (RStart p op)); [done|by destruct w|done|done| |apply length_insert|].
  - eapply refines_kvStep; [apply Hk|]. intros log sh. exists sh. by eapply step_start.
  - intros q k1 Hq. apply list_lookup_insert_Some in Hq as [(<- & <- & _)|[_ Hq]]; [|by exists k1].
    exists kv. split; [done|]. unfold startOp in Hst. case_match; [|by injection Hst as <- _].
    apply bind_Ret in Hst as ([rf [[i t] b]] & Hrf & [= <- _]). apply law_start in Hrf as [_ Hrf]. done.
Qed.

Lemma kinv_check w ss fs wn p f rf r next w' :
  kinv (mkKvCluster w ss fs) wn → fs !! p = Some f → nodes (cl w) !! p = Some rf → feedIdle f = true →
  applyCheck rf = Ret (r, next) → rstep (RCluster (LNode p OpApplyCheck)) w = Some w' →
  ∃ wn', kinv (mkKvCluster w' (sync w' ss) (<[p := feedCheck next f]> fs)) wn'.
Proof.
  intros Hk Hf Hp Hi Ha H.
  assert (sbenign (RCluster (LNode p OpApplyCheck)) w) as Hb by (by destruct w).
  eapply (kinv_world _ _ _ _ _ _ _ _ Hk Hb H); [apply Hk|done|apply length_insert|].
  intros wn' q rf' kv f1 Hlt Hq Hkv Hf1.
  apply list_lookup_insert_Some in Hf1 as [(<- & <- & _)|[_ Hf1]]; [|by eapply fed_step].
  destruct (rstep_served _ _ _ _ _ _ (ki_raft _ _ Hk) Hb eq_refl H Hq) as (rf0 & Hp0 & Hsv). cbn in Hp0. simplify_eq.
  pose proof (ki_ok _ _ Hk p _ kv f Hp Hkv Hf) as Hfed. split; [by eapply fed_noSnap|].
  destruct Hfed as (_ & Hm & Hfo). split_and!; [done..|]. cbn. by eapply feedOk_check.
Qed.

(** A feed whose peer did not change. *)
Lemma fed_still w ss fs wn w' wn' q rf kv f :
  kinv (mkKvCluster w ss fs) wn → later w wn w' wn' → nodes (cl w) !! q = Some rf → ss !! q = Some kv →
  fs !! q = Some f → rs_ReadSnapshot (kv_rf kv) = [] ∧ fed w' wn' rf (set_rf rf kv) f.
Proof.
  intros Hk Hlt Hq Hkv Hf. pose proof (ki_ok _ _ Hk q rf kv f Hq Hkv Hf) as Hfo.
  split; [by eapply fed_noSnap|]. by eapply fed_served.
Qed.

Lemma kinv_end w ss fs wn p f es w' :
  kinv (mkKvCluster w ss fs) wn → fs !! p = Some f → f_batch f = Some es → f_msgs f = [] →
  rstep (RCluster (LNode p (OpApplyEnd es))) w = Some w' →
  ∃ wn', kinv (mkKvCluster w' (sync w' ss) (<[p := feedEnd f]> fs)) wn'.
Proof.
  intros Hk Hf Eb Em H.
  eapply (kinv_world _ _ _ _ _ _ _ _ Hk); [|done|apply Hk|done|apply length_insert|]; [by destruct w|].
  intros wn' q rf' kv f1 Hlt Hq Hkv Hf1.
  destruct (rstep_applyEnd _ _ _ _ H) as (rf & Hp & E). rewrite E in Hq.
  destruct (nodes_update (cl w) p rf (applyEnd rf es) q rf' Hp Hq) as [[-> ->]|[Hne Hq']].
  - rewrite list_lookup_insert_eq in Hf1 by (by eapply lookup_lt_Some). injection Hf1 as <-.
    pose proof (ki_ok _ _ Hk p rf kv f Hp Hkv Hf) as Hfed. split; [by eapply fed_noSnap|].
    destruct Hfed as (_ & Hm & Hfo). split_and!; [done..|]. cbn. by eapply feedOk_end.
  - rewrite list_lookup_insert_ne in Hf1 by done. by eapply fed_still.
Qed.

Lemma kinv_restart w ss fs wn p kv kv' w' :
  kinv (mkKvCluster w ss fs) wn → ss !! p = Some kv → rstep (RRestart p) w = Some w' →
  StartKVServer (peers (kv_rf kv)) (me (kv_rf kv)) (persister (kv_rf kv)) (maxraftstate kv) = Ret kv' →
  ∃ wn', kinv (mkKvCluster w' (sync w' (<[p := kv']> ss)) (<[p := idleFeed]> fs)) wn'.
Proof.
  intros Hk Hkv H Hst. destruct (kinv_lookup _ _ _ _ _ _ Hk Hkv) as (rf & f & Hp & Hf & (H1 & H2 & Hfo)).
  eapply (kinv_world _ _ _ _ _ _ _ _ Hk); [|done| |apply length_insert..|]; [by destruct w| |].
  { eapply refines_kvStep; [apply Hk|]. intros log sh. exists sh. by eapply step_restart. }
  intros wn' q rf' k1 f1 Hlt Hq Hk1 Hf1. destruct (rstep_restart _ _ _ H) as (rf0 & r & Hp0 & Hr & E).
  cbn in Hp0. simplify_eq. rewrite E in Hq.
  destruct (nodes_update (cl w) p _ r q rf' Hp Hq) as [[-> ->]|[Hne Hq']].
  - rewrite list_lookup_insert_eq in Hk1 by (by eapply lookup_lt_Some).
    rewrite list_lookup_insert_eq in Hf1 by (by eapply lookup_lt_Some). injection Hf1 as <-. injection Hk1 as <-.
    pose proof (feedOk_restart _ _ _ _ _ w' wn' _ _ (ki_raft _ _ Hk) Hp Hr Hfo) as Hfo'.
    unfold StartKVServer in Hst. cbn -[Make] in Hst. rewrite Hr in Hst. cbn in Hst. rewrite (fo_snap _ _ _ _ _ Hfo') in Hst.
    injection Hst as <-. split; [apply (fo_snap _ _ _ _ _ Hfo')|]. by split_and!.
  - rewrite list_lookup_insert_ne in Hk1 by done. rewrite list_lookup_insert_ne in Hf1 by done. by eapply fed_still.
Qed.

Lemma kinv_apply w ss fs wn p f kv m kv' :
  kinv (mkKvCluster w ss fs) wn → fs !! p = Some f → ss !! p = Some kv → f_inbox f = Some m →
  applyLoopStep kv m = Ret kv' →
  kinv (mkKvCluster w (<[p := kv']> ss) (<[p := feedTake f]> fs)) wn.
Proof.
  intros Hk Hf Hkv Hm H. destruct (kinv_lookup _ _ _ _ _ _ Hk Hkv) as (rf & f' & Hp & Hf' & (E & Hmr & Hfo)). simplify_eq.
  destruct (feedOk_take _ _ _ _ _ _ Hm Hfo) as (c & -> & Hc & Hfo').
  destruct (applyLoopStep_frame _ _ _ Hmr H) as ([op ->] & Er & Em & Ei).
  eapply kinv_server; [done..| |].
  - intros _. unfold fed. by rewrite Er, Em, Ei.
  - by eapply refines_apply; [apply Hk|apply Hk|..].
Qed.

(** Only a feed changes. *)
Lemma kinv_feed w ss fs wn p f f' :
  kinv (mkKvCluster w ss fs) wn → fs !! p = Some f →
  (∀ rf k, nodes (cl w) !! p = Some rf → feedOk w wn rf k f → feedOk w wn rf k f') →
  kinv (mkKvCluster w ss (<[p := f']> fs)) wn.
Proof.
  intros Hk Hf Hr. destruct (lookup_lt_is_Some_2 ss p) as [kv Hkv].
  { destruct Hk as [_ E1 E2 _ _]. cbn in E1, E2. rewrite E1, <- E2. by eapply lookup_lt_Some. }
  destruct (kinv_lookup _ _ _ _ _ _ Hk Hkv) as (rf & g & Hp & Hg & _). simplify_eq.
  rewrite <- (list_insert_id ss p kv Hkv). eapply kinv_server; [done..| |].
  - intros (? & ? & ?). split_and!; [done..|]. by apply Hr.
  - rewrite list_insert_id by done. apply Hk.
Qed.

Lemma kinv_receive w ss fs wn p f f' :
  kinv (mkKvCluster w ss fs) wn → fs !! p = Some f → feedReceive f = Some f' →
  kinv (mkKvCluster w ss (<[p := f']> fs)) wn.
Proof. intros Hk Hf Hr. eapply kinv_feed; [done..|]. intros rf k _. by apply feedOk_receive. Qed.

Lemma kinv_begin w ss fs wn p f rf next batch :
  kinv (mkKvCluster w ss fs) wn → fs !! p = Some f → nodes (cl w) !! p = Some rf → f_next f = Some next →
  applyBegin rf next = Ret batch → kinv (mkKvCluster w ss (<[p := feedBegin next batch f]> fs)) wn.
Proof.
  intros Hk Hf Hp Hn Ha. eapply kinv_feed; [done..|]. intros r k Hr. cbn in Hr. simplify_eq.
  by eapply feedOk_begin; [apply (ki_raft _ _ Hk)|..].
Qed.

Lemma kinv_step l s wn s' :
  kinv s wn → kbenign l s → kstep l s = Some s' → ∃ wn', kinv s' wn'.
Proof.
  intros Hk Hb H. destruct s as [w ss fs]. cbn in Hb. unfold kstep in H. destruct l.
  - destruct (kraft l) eqn:Hl; [|done]. apply bind_Some in H as (w' & H & [= <-]).
    apply kraft_served in Hl. eapply kinv_raft; [done..|apply Hk|done|]. intros q k Hq. by exists k.
  - apply bind_Some in H as (kv & Hkv & H). destruct (startOp kv op) as [[kv' r]| | |] eqn:Hst; cbn -[rstep GetState] in H; try done.
    destruct (GetState (kv_rf kv)).2 eqn:Hg.
    + apply bind_Some in H as (w' & H & [= <-]). by eapply kinv_start.
    + injection H as <-. unfold startOp in Hst. cbn -[GetState] in Hst. rewrite Hg in Hst. injection Hst as <- _.
      exists wn. by rewrite (list_insert_id ss p kv Hkv).
  - apply bind_Some in H as (kv & Hkv & H). destruct (register kv i) as [kv'| | |] eqn:Hr; cbn in H; try done.
    injection H as <-. exists wn.
    assert (refines w wn (<[p := kv']> ss)).
    { eapply refines_kvStep; [apply Hk|]. intros log sh. exists sh. by eapply step_register. }
    unfold register in Hr. case_match; [done|]. injection Hr as <-. by eapply kinv_quiet.
  - apply bind_Some in H as (kv & Hkv & H). apply bind_Some in H as ([kv' r] & Hr & [= <-]). exists wn.
    assert (refines w wn (<[p := kv']> ss)).
    { eapply refines_kvStep; [apply Hk|]. intros log sh. exists sh. by eapply step_await. }
    assert (kv' = set_waitChs (delete i (waitChs kv)) kv) as -> by (unfold await in Hr; repeat case_match; by simplify_eq).
    by eapply kinv_quiet.
  - apply bind_Some in H as (f & Hf & H). apply bind_Some in H as (rf & Hp & H).
    destruct (feedIdle f) eqn:Ef; [|done].
    destruct (applyCheck rf) as [[r next]| | |] eqn:Ha; cbn -[rstep] in H; try done.
    apply bind_Some in H as (w' & H & [= <-]). by eapply kinv_check.
  - apply bind_Some in H as (f & Hf & H). apply bind_Some in H as (rf & Hp & H).
    apply bind_Some in H as (next & Hn & H).
    destruct (applyBegin rf next) as [batch| | |] eqn:Ha; cbn in H; try done. injection H as <-.
    exists wn. by eapply kinv_begin.
  - apply bind_Some in H as (f & Hf & H). apply bind_Some in H as (f' & Hr & [= <-]).
    exists wn. by eapply kinv_receive.
  - apply bind_Some in H as (f & Hf & H). apply bind_Some in H as (kv & Hkv & H).
    apply bind_Some in H as (m & Hm & H). destruct (applyLoopStep kv m) as [kv'| | |] eqn:Ha; cbn in H; try done.
    injection H as <-. exists wn. by eapply kinv_apply.
  - apply bind_Some in H as (f & Hf & H). destruct (f_batch f) as [es|] eqn:Eb; [|done].
    destruct (f_msgs f) eqn:Em; [|done]. apply bind_Some in H as (w' & H & [= <-]). by eapply kinv_end.
  - apply bind_Some in H as (kv & Hkv & H). apply bind_Some in H as (w' & H & Hst).
    destruct (StartKVServer _ _ _ _) as [kv'| | |] eqn:E; cbn in Hst; try done. injection Hst as <-.
    by eapply kinv_restart.
  - apply bind_Some in H as (kv & Hkv & H). apply bind_Some in H as (w' & H & [= <-]).
    eapply (kinv_raft _ _ _ _ (RCluster (LNode p OpKill))); [done|by destruct w|done|done| |apply length_insert|].
    + eapply refines_kvStep; [apply Hk|]. intros log sh. exists sh. by apply step_kill.
    + intros q k1 Hq. apply list_lookup_insert_Some in Hq as [(<- & <- & _)|[_ Hq]]; [by exists kv|by exists k1].
Qed.

Lemma kinv_init n : kinv (initKv n) ∅.
Proof.
  constructor; cbn.
  - apply sinv_init.
  - by rewrite !length_fmap.
  - by rewrite length_replicate, length_fmap, length_seq.
  - intros p rf kv f Hp Hkv Hf. apply list_lookup_fmap_Some in Hp as (x & -> & Hx).
    apply list_lookup_fmap_Some in Hkv as (y & -> & Hy). apply lookup_replicate in Hf as [-> _]. simplify_eq.
    split_and!; [done..|]. by apply feedOk_init.
  - exists [], []. split.
    + apply kv_init. intros kv Hkv. apply list_elem_of_fmap in Hkv as (p & -> & _). done.
    + intros i op Hi. by apply commandAt_Some in Hi as [_ Hi].
Qed.

Lemma kinv_reach n s : kreach n s → ∃ wn, kinv s wn.
Proof.
  induction 1 as [|l s s' _ [wn Hk] Hb H]; [exists ∅; apply kinv_init|]. by eapply kinv_step.
Qed.

(** What a peer has committed, at the places the servers have got to. *)
Lemma kinv_committed s wn log p rf i op :
  kinv s wn → (∀ i op, commandAt log i = Some op → chosen (kc_raft s) wn i (Some op)) →
  nodes (cl (kc_raft s)) !! p = Some rf → commandAt log i = Some op → i <= commitIndex rf →
  ∃ e, getLog rf i = Ret e ∧ le_Command e = Some op.
Proof.
  intros Hk Hc Hp Hi Hle. pose proof (commandAt_Some _ _ _ Hi) as [Hr _].
  destruct (committed_chosen _ _ _ _ i (ki_raft _ _ Hk) Hp) as (e & He & Hce); [lia|].
  exists e. split; [done|].
  by eapply chosen_fun; [apply (ki_raft _ _ Hk)|done|apply Hc].
Qed.

(** C2. The key/value servers on their Raft cluster, with lost, delayed and repeated
    messages, elections and restarts, do only what servers fed from one log of commands
    do; and that log is, as far as each peer has committed, the log of the peer.
    Conditions: the servers take no snapshots ([maxraftstate] is -1), and the run leaves
    out the interleavings that are reported as defects of Raft: an election that a peer
    starts although it has meanwhile become leader, and commit counts, commit writes and
    heartbeat replies that a peer handles after it has stopped leading their term.  The
    findings raft.go:345, 979 and 1297 are about these conditions. *)
Theorem kvraft_refines n s :
  kreach n s →
  ∃ log sh, kvReach (mkKvSystem log (kc_servers s) sh) ∧
    ∀ p rf i op, nodes (cl (kc_raft s)) !! p = Some rf → commandAt log i = Some op → i <= commitIndex rf →
      ∃ e, getLog rf i = Ret e ∧ le_Command e = Some op.
Proof.
  intros [wn Hk]%kinv_reach. pose proof (ki_refines _ _ Hk) as (log & sh & Hr & Hc).
  exists log, sh. split; [done|]. intros p rf i op Hp Hi Hle. by eapply kinv_committed.
Qed.

(** C8. A key/value server on the cluster holds what executing the first
    [latestAppliedRaftIndex] commands in the log of any peer that has committed so many
    gives.  The runs are those of [kvraft_refines]: no snapshots ([maxraftstate] is -1),
    and without the interleavings that are reported as defects of Raft (an election that a
    peer starts although it has meanwhile become leader, and commit counts, commit writes
    and heartbeat replies that a peer handles after it has stopped leading their term). *)
Theorem kvraft_storage n s p kv q rf :
  kreach n s → kc_servers s !! p = Some kv → nodes (cl (kc_raft s)) !! q = Some rf →
  latestAppliedRaftIndex kv <= commitIndex rf →
  ∃ ops, zlen ops = latestAppliedRaftIndex kv ∧
    (∀ i op, commandAt ops i = Some op → ∃ e, getLog rf i = Ret e ∧ le_Command e = Some op) ∧
    (storage kv, latestAppliedRequest kv) = machineAt ops.
Proof.
  intros [wn Hk]%kinv_reach Hkv Hq Hle. pose proof (ki_refines _ _ Hk) as (log & sh & Hr & Hc).
  pose proof (kvInv_reach _ Hr) as [Hok _].
  destruct (Hok kv) as [[Hi Hm] _ _]; [cbn; by eapply list_elem_of_lookup_2|]. cbn in Hi, Hm.
  exists (prefixAt log (latestAppliedRaftIndex kv)). split_and!; [|intros i op Hop|done].
  - unfold prefixAt, zlen in *. rewrite length_take. lia.
  - apply commandAt_Some in Hop as [Hr1 Hop]. apply lookup_take_Some in Hop as [Hop Hlt].
    eapply kinv_committed; [done..| |lia]. unfold commandAt. by destruct (Z.leb_spec 1 i); [|lia].
Qed.
End refinement.
