(* ===== verification/KvClerk.v ===== *)
(** * KvClerk: the client of [src/src/kvraft/client.go]

    [callLoop] is the retry loop of [Get] and [PutAppend]: [call k i args] is
    what the [k]-th [Call] of the loop, to server [i], brings back ([None]
    when it returns false).  The loops of the source are unbounded; here they
    take fuel, and [clerk_finds_server] says how much is enough.  The clerks at
    work on the servers are in KvSession. *)

From S2P Require Import Prelude KvServer KvReplica.
Local Open Scope Z_scope.

Record Clerk := mkClerk {
  ck_servers : Z;
  lastLeader : Z;
  clientId : Z;
  requestId : Z;
}.

#[export] Instance Clerk_eq_dec : EqDecision Clerk.
Proof. solve_decision. Defined.

(** [nrand()] is the second argument. *)
Definition MakeClerk (servers id : Z) : Clerk := mkClerk servers 0 id 0.

Definition IncrementLastLeader (ck : Clerk) : Clerk :=
  let next := lastLeader ck + 1 in
  mkClerk (ck_servers ck) (if ck_servers ck - 1 <? next then 0 else next)
    (clientId ck) (requestId ck).

Definition nextRequest (ck : Clerk) : Clerk :=
  mkClerk (ck_servers ck) (lastLeader ck) (clientId ck) (requestId ck + 1).

Section loop.
Context {A B X : Type} (call : nat → Z → A → option B) (accept : B → option X) (args : A).

(** [None] when the fuel is used up and the clerk is still trying;
    [ck.servers[ck.lastLeader]] panics outside the slice. *)
Fixpoint callLoop (fuel k : nat) (ck : Clerk) : outcome (option X * Clerk) :=
  match fuel with
  | O => Ret (None, ck)
  | S fuel' =>
      if (0 <=? lastLeader ck) && (lastLeader ck <? ck_servers ck) then
        match reply ← call k (lastLeader ck) args; accept reply with
        | Some x => Ret (Some x, ck)
        | None => callLoop fuel' (S k) (IncrementLastLeader ck)
        end
      else Panic
  end.
End loop.

(** [reply.Err == OK], [reply.Err == ErrNoKey], and anything else. *)
Definition acceptGet (reply : GetReply) : option string :=
  if String.eqb (gr_Err reply) OK then Some (gr_Value reply)
  else if String.eqb (gr_Err reply) ErrNoKey then Some ""%string
  else None.

Definition acceptPutAppend (reply : PutAppendReply) : option unit :=
  if String.eqb (par_Err reply) OK then Some tt else None.

Definition Get (call : nat → Z → GetArgs → option GetReply) (fuel : nat) (ck : Clerk) (key : string) :
    outcome (option string * Clerk) :=
  '(r, ck) ← callLoop call acceptGet (mkGetArgs key (clientId ck) (requestId ck)) fuel 0 ck;
  match r with
  | Some result => Ret (Some result, nextRequest ck)
  | None => Ret (None, ck)
  end.

Definition PutAppend (call : nat → Z → PutAppendArgs → option PutAppendReply) (fuel : nat)
    (ck : Clerk) (key value op : string) : outcome (option unit * Clerk) :=
  '(r, ck) ← callLoop call acceptPutAppend
               (mkPutAppendArgs key value op (clientId ck) (requestId ck)) fuel 0 ck;
  match r with
  | Some _ => Ret (Some tt, nextRequest ck)
  | None => Ret (None, ck)
  end.

Definition Put call fuel ck key value := PutAppend call fuel ck key value "Put".
Definition Append call fuel ck key value := PutAppend call fuel ck key value "Append".

(** ** The retry loop *)

Definition clerkOk (ck : Clerk) : Prop := 0 <= lastLeader ck < ck_servers ck.

Section loop_lemmas.
Context {A B X : Type} (call : nat → Z → A → option B) (accept : B → option X) (args : A).

Lemma Increment_ok ck : clerkOk ck → clerkOk (IncrementLastLeader ck).
Proof.
  unfold clerkOk, IncrementLastLeader. cbn.
  destruct (Z.ltb_spec (ck_servers ck - 1) (lastLeader ck + 1)); lia.
Qed.

(** How many turns until the loop asks server [i]. *)
Definition turnsTo (ck : Clerk) (i : Z) : Z := (i - lastLeader ck) mod ck_servers ck.

Lemma turnsTo_zero ck i : clerkOk ck → 0 <= i < ck_servers ck → turnsTo ck i = 0 → lastLeader ck = i.
Proof.
  unfold clerkOk, turnsTo. intros Hc Hi H. apply Z.mod_divide in H as [q Hq]; [|lia].
  assert (q = 0) by nia. lia.
Qed.

Lemma turnsTo_step ck i :
  clerkOk ck → 0 <= i < ck_servers ck → turnsTo ck i ≠ 0 →
  turnsTo (IncrementLastLeader ck) i = turnsTo ck i - 1.
Proof.
  unfold clerkOk, turnsTo. intros Hc Hi Hne. cbn.
  pose proof (Z.mod_pos_bound (i - lastLeader ck) (ck_servers ck) ltac:(lia)) as Hb.
  assert (∀ d, d mod ck_servers ck ≠ 0 → (d - 1) mod ck_servers ck = d mod ck_servers ck - 1) as Hdec.
  { intros d Hd. symmetry. apply (Z.mod_unique _ _ (d / ck_servers ck)).
    - left. pose proof (Z.mod_pos_bound d (ck_servers ck) ltac:(lia)). lia.
    - pose proof (Z.div_mod d (ck_servers ck) ltac:(lia)). lia. }
  rewrite <- (Hdec (i - lastLeader ck) Hne).
  destruct (Z.ltb_spec (ck_servers ck - 1) (lastLeader ck + 1)).
  - replace (i - 0) with (i - lastLeader ck - 1 + 1 * ck_servers ck) by lia. by rewrite Z.mod_add by lia.
  - f_equal. lia.
Qed.

(** The loop keeps everything but [lastLeader], ends with an accepted
    answer of the server it stops at, and comes round to server [i]. *)
Lemma callLoop_spec fuel k ck i :
  clerkOk ck → 0 <= i < ck_servers ck →
  ∃ r ck', callLoop call accept args fuel k ck = Ret (r, ck') ∧
    clerkOk ck' ∧ ck_servers ck' = ck_servers ck ∧
    clientId ck' = clientId ck ∧ requestId ck' = requestId ck ∧
    (∀ x, r = Some x → ∃ n reply, call n (lastLeader ck') args = Some reply ∧ accept reply = Some x) ∧
    ((∀ n, ∃ reply x, call n i args = Some reply ∧ accept reply = Some x) →
     turnsTo ck i < Z.of_nat fuel → is_Some r).
Proof.
  revert k ck. induction fuel as [|fuel IH]; intros k ck Hc Hi; cbn [callLoop].
  { exists None, ck. split_and!; try done. intros _ Ht.
    pose proof (Z.mod_pos_bound (i - lastLeader ck) (ck_servers ck) ltac:(lia)). unfold turnsTo in Ht. lia. }
  pose proof Hc as [H1 H2]. apply Z.leb_le in H1. apply Z.ltb_lt in H2. rewrite H1, H2. cbn [andb].
  destruct (call k (lastLeader ck) args ≫= accept) as [x|] eqn:E.
  - exists (Some x), ck. split_and!; try done. intros y [= <-].
    apply bind_Some in E as (reply & ? & ?). by exists k, reply.
  - destruct (IH (S k) (IncrementLastLeader ck) (Increment_ok _ Hc) Hi)
      as (r & ck' & -> & Hc' & Hs & Hid & Hrq & Hres & Hfin).
    exists r, ck'. split_and!; try done. intros Hans Ht. apply Hfin; [done|].
    assert (turnsTo ck i ≠ 0) as Hne.
    { intros H0. apply turnsTo_zero in H0; [|done..]. destruct (Hans k) as (reply & x & Hcall & Hacc).
      rewrite H0, Hcall in E. cbn in E. congruence. }
    rewrite turnsTo_step by done. lia.
Qed.
End loop_lemmas.

(** C34. If one of the servers keeps answering with an acceptable reply, [Get]
    returns within one round over the servers, with a value that some server
    answered to exactly this request, and the clerk moves on to the next
    request number; the number of servers is enough fuel. *)
Theorem clerk_finds_server call ck key i fuel :
  clerkOk ck → 0 <= i < ck_servers ck → ck_servers ck <= Z.of_nat fuel →
  (∀ n, ∃ reply x, call n i (mkGetArgs key (clientId ck) (requestId ck)) = Some reply ∧
     acceptGet reply = Some x) →
  ∃ v ck', Get call fuel ck key = Ret (Some v, ck') ∧ clerkOk ck' ∧
    clientId ck' = clientId ck ∧ requestId ck' = requestId ck + 1 ∧
    ∃ n j reply, call n j (mkGetArgs key (clientId ck) (requestId ck)) = Some reply ∧
      acceptGet reply = Some v.
Proof.
  intros Hc Hi Hf Hans. unfold Get.
  destruct (callLoop_spec call acceptGet (mkGetArgs key (clientId ck) (requestId ck)) fuel 0 ck i Hc Hi)
    as (r & ck' & -> & Hc' & Hs & Hid & Hrq & Hres & Hfin).
  destruct (Hfin Hans) as [v ->].
  { pose proof (Z.mod_pos_bound (i - lastLeader ck) (ck_servers ck) ltac:(lia)). unfold turnsTo. lia. }
  destruct (Hres v eq_refl) as (n & reply & ? & ?).
  exists v, (nextRequest ck'). split; [done|]. cbn. split_and!; [done|done|by rewrite Hrq|].
  by exists n, (lastLeader ck'), reply.
Qed.
