(* ===== verification/KvSession.v ===== *)
(** * KvSession: clerks at work on the key/value servers

    Any number of clerks of KvClerk in front of the servers of KvReplica.  A clerk
    executes one operation at a time (it holds [ck.mu]): it sends its request to
    [lastLeader], goes on to the next server when a call is lost or its answer is
    not accepted, and moves on to the next request number with an accepted answer.
    A request starts a handler at a server as often as the network likes; the
    handler hands a command to Raft, waits for the index it got and answers.  What
    was handed to Raft is committed any number of times, at any time, or never.
    Whatever else happens to the servers (deliveries, snapshots, crashes and
    restarts) is a step of KvReplica.

    One condition, in [ss_finish]: a handler that answers from its wait channel
    finds its own command at its index.  The handlers do not check it
    (server.go:101 and 145; [kv_reply_to_wrong_command] shows an answer for another
    command).

    [clerks_linearizable]: the log of such a run is one that the table of executed
    requests turns into exactly-once execution, every completed operation has been
    executed once and in the order of its clerk, and took effect and got its result
    at one place of the log between its call and its return. *)

From S2P Require Import Prelude Labgob Persister RaftState RaftService KvServer KvReplica KvClerk.
Local Open Scope Z_scope.

(** ** Calls, requests and answers *)

(** A call of [Get], or of [PutAppend] with its third argument. *)
Inductive ClerkOp := CGet (key : string) | CPutAppend (key value op : string).

#[export] Instance OpType_eq_dec : EqDecision OpType.
Proof. solve_decision. Defined.

Inductive Request := RGet (args : GetArgs) | RPutAppend (args : PutAppendArgs).
Inductive Answer :=
  | AGet (args : GetArgs) (reply : GetReply)
  | APutAppend (args : PutAppendArgs) (reply : PutAppendReply).

(** [args] of one turn of the loop. *)
Definition requestFor (ck : Clerk) (o : ClerkOp) : Request :=
  match o with
  | CGet key => RGet (mkGetArgs key (clientId ck) (requestId ck))
  | CPutAppend key value op => RPutAppend (mkPutAppendArgs key value op (clientId ck) (requestId ck))
  end.

Definition answered (a : Answer) : Request :=
  match a with AGet args _ => RGet args | APutAppend args _ => RPutAppend args end.

(** What the call returns with, when the clerk accepts the answer. *)
Definition accepts (a : Answer) : option string :=
  match a with
  | AGet _ reply => acceptGet reply
  | APutAppend _ reply => (λ _, ""%string) <$> acceptPutAppend reply
  end.

(** The command a handler hands to Raft. *)
Definition commandOf (r : Request) : Op :=
  match r with
  | RGet args => mkOp GET (ga_Key args) "" (ga_ClientId args) (ga_RequestId args)
  | RPutAppend args =>
      mkOp (if String.eqb (pa_Op args) "Put" then PUT else APPEND) (pa_Key args) (pa_Value args)
        (pa_ClientId args) (pa_RequestId args)
  end.

Section session.
Context {R P : Type} `{!RaftService R P Op KvGob}.
Implicit Types kv : KVServer R.

(** The handlers of KvServer, by request. *)
Definition handlerStart kv (r : Request) : outcome (KVServer R * (Answer + Z)) :=
  match r with
  | RGet args =>
      '(kv, x) ← Get_start kv args;
      Ret (kv, match x with inl reply => inl (AGet args reply) | inr i => inr i end)
  | RPutAppend args =>
      '(kv, x) ← PutAppend_start kv args;
      Ret (kv, match x with inl reply => inl (APutAppend args reply) | inr i => inr i end)
  end.
Definition handlerFinish kv (r : Request) (i : Z) (timeout : bool) : option (KVServer R * Answer) :=
  match r with
  | RGet args => '(kv, reply) ← Get_finish kv i timeout; Some (kv, AGet args reply)
  | RPutAppend args => '(kv, reply) ← PutAppend_finish kv i timeout; Some (kv, APutAppend args reply)
  end.

(** A completed call: its result and the lengths of the log when it was called and
    when it returned. *)
Record Done := mkDone { d_op : ClerkOp; d_result : string; d_begin : Z; d_end : Z }.

(** A clerk with its completed calls, the first one first, and the call it is in
    with the length of the log when it was made. *)
Record ClerkSession := mkClerkSession {
  cs_clerk : Clerk;
  cs_done : list Done;
  cs_now : option (ClerkOp * Z);
}.

Record Sessions := mkSessions {
  ses_kv : KvSystem R;
  ses_clerks : list ClerkSession;
  (** requests on their way, by server; handlers that wait for an index *)
  ses_sent : list (nat * Request);
  ses_waiting : list (nat * Request * Z);
  (** commands handed to Raft *)
  ses_started : list Op;
  ses_answers : list Answer;
}.

Definition withServer (s : KvSystem R) (j : nat) kv : KvSystem R :=
  mkKvSystem (committed s) (<[j := kv]> (servers s)) (shots s).

Inductive sesStep : Sessions → Sessions → Prop :=
  (** a clerk: called; one turn of the loop; [IncrementLastLeader]; returned *)
  | ss_begin s cks sent wt st an j ck done o :
      cks !! j = Some (mkClerkSession ck done None) →
      sesStep (mkSessions s cks sent wt st an)
        (mkSessions s (<[j := mkClerkSession ck done (Some (o, zlen (committed s)))]> cks) sent wt st an)
  | ss_call s cks sent wt st an j ck done o b :
      cks !! j = Some (mkClerkSession ck done (Some (o, b))) → 0 <= lastLeader ck < ck_servers ck →
      sesStep (mkSessions s cks sent wt st an)
        (mkSessions s cks ((Z.to_nat (lastLeader ck), requestFor ck o) :: sent) wt st an)
  | ss_next s cks sent wt st an j ck done o b :
      cks !! j = Some (mkClerkSession ck done (Some (o, b))) →
      sesStep (mkSessions s cks sent wt st an)
        (mkSessions s (<[j := mkClerkSession (IncrementLastLeader ck) done (Some (o, b))]> cks) sent wt st an)
  | ss_accept s cks sent wt st an j ck done o b a x :
      cks !! j = Some (mkClerkSession ck done (Some (o, b))) →
      a ∈ an → answered a = requestFor ck o → accepts a = Some x →
      sesStep (mkSessions s cks sent wt st an)
        (mkSessions s (<[j := mkClerkSession (nextRequest ck)
                                (done ++ [mkDone o x b (zlen (committed s))]) None]> cks) sent wt st an)
  (** a handler: refused; started; registered; answering *)
  | ss_refuse s cks sent wt st an j kv kv' r a :
      (j, r) ∈ sent → servers s !! j = Some kv → handlerStart kv r = Ret (kv', inl a) →
      sesStep (mkSessions s cks sent wt st an) (mkSessions (withServer s j kv') cks sent wt st (a :: an))
  | ss_start s cks sent wt st an j kv kv' r i :
      (j, r) ∈ sent → servers s !! j = Some kv → handlerStart kv r = Ret (kv', inr i) →
      sesStep (mkSessions s cks sent wt st an)
        (mkSessions (withServer s j kv') cks sent ((j, r, i) :: wt) (commandOf r :: st) an)
  | ss_register s cks sent wt st an j kv kv' r i :
      (j, r, i) ∈ wt → servers s !! j = Some kv → register kv i = Ret kv' →
      sesStep (mkSessions s cks sent wt st an) (mkSessions (withServer s j kv') cks sent wt st an)
  | ss_finish s cks sent wt st an k j kv kv' r i timeout a :
      wt !! k = Some (j, r, i) → servers s !! j = Some kv → handlerFinish kv r i timeout = Some (kv', a) →
      (timeout = false → commandAt (committed s) i = Some (commandOf r)) →
      sesStep (mkSessions s cks sent wt st an)
        (mkSessions (withServer s j kv') cks sent (delete k wt) st (a :: an))
  (** the servers and their log *)
  | ss_commit s cks sent wt st an op :
      op ∈ st →
      sesStep (mkSessions s cks sent wt st an)
        (mkSessions (mkKvSystem (committed s ++ [op]) (servers s) (shots s)) cks sent wt st an)
  | ss_servers s s' cks sent wt st an :
      kvStep s s' → committed s' = committed s →
      sesStep (mkSessions s cks sent wt st an) (mkSessions s' cks sent wt st an).

(** Fresh servers, and clerks that [MakeClerk] made with different [nrand()]s. *)
Inductive sesReach : Sessions → Prop :=
  | ses_init ss n ids :
      (∀ kv, kv ∈ ss → kvFresh kv) → NoDup ids →
      sesReach (mkSessions (mkKvSystem [] ss [])
                  ((λ id, mkClerkSession (MakeClerk n id) [] None) <$> ids) [] [] [] [])
  | ses_step S S' : sesReach S → sesStep S S' → sesReach S'.

(** ** What a clerk has asked for *)

(** The command of the [n]-th call of a client. *)
Definition numbered (id : Z) (n : nat) (o : ClerkOp) : Op :=
  commandOf (requestFor (mkClerk 0 0 id (Z.of_nat n)) o).

Definition sesId (c : ClerkSession) : Z := clientId (cs_clerk c).
Definition doneOps (c : ClerkSession) : list Op := imap (λ n d, numbered (sesId c) n (d_op d)) (cs_done c).
Definition nowOps (c : ClerkSession) : list Op :=
  match cs_now c with
  | Some (o, _) => [numbered (sesId c) (length (cs_done c)) o]
  | None => []
  end.
Definition calls (c : ClerkSession) : list Op := doneOps c ++ nowOps c.

(** The commands of a client that were executed, in the order of the log. *)
Definition executed (l : list Op) (id : Z) : list Op := filter (λ op, ClientId op = id) (exactlyOnce l).

(** Place [i] of the log gives [op] the result [x]; a write takes effect there. *)
Definition takesEffect (l : list Op) (op : Op) (x : string) (i : Z) : Prop :=
  commandAt l i = Some op ∧ x = (plainReply (replay (prefixAt l (i - 1))) op).2 ∧
  (Type_ op ≠ GET → requestOf op ∉ requestOf <$> prefixAt l (i - 1)).

(** ** The invariant *)

(** Some clerk has made the call. *)
Definition asked (cks : list ClerkSession) (op : Op) : Prop := ∃ c n, c ∈ cks ∧ calls c !! n = Some op.

Definition replied (l : list Op) (op : Op) (x : string) : Prop :=
  ∃ i, commandAt l i = Some op ∧ x = (plainReply (replay (prefixAt l (i - 1))) op).2.

(** The clerk [c] and the log [l]. *)
Record clerkAt (l : list Op) (c : ClerkSession) : Prop := {
  ca_num : requestId (cs_clerk c) = zlen (cs_done c);
  ca_now o b : cs_now c = Some (o, b) →
    0 <= b <= zlen l ∧ (sesId c, requestId (cs_clerk c)) ∉ requestOf <$> prefixAt l b;
  ca_done n d : cs_done c !! n = Some d →
    ∃ i, d_begin d < i <= d_end d ∧ takesEffect l (numbered (sesId c) n (d_op d)) (d_result d) i;
  ca_once : ∃ m, (length (cs_done c) <= m <= length (calls c))%nat ∧ executed l (sesId c) = take m (calls c);
}.

Record sesInv (S : Sessions) : Prop := {
  iv_kv : kvReach (ses_kv S);
  iv_order : wellOrdered (committed (ses_kv S));
  iv_ids : NoDup (sesId <$> ses_clerks S);
  iv_sent j r : (j, r) ∈ ses_sent S → asked (ses_clerks S) (commandOf r);
  iv_waiting j r i : (j, r, i) ∈ ses_waiting S → asked (ses_clerks S) (commandOf r);
  iv_started op : op ∈ ses_started S → asked (ses_clerks S) op;
  iv_log op : op ∈ committed (ses_kv S) → op ∈ ses_started S;
  iv_answer a x : a ∈ ses_answers S → accepts a = Some x →
    replied (committed (ses_kv S)) (commandOf (answered a)) x;
  iv_clerk c : c ∈ ses_clerks S → clerkAt (committed (ses_kv S)) c;
}.

(** *** Numbers *)

Lemma numbered_request id n o : requestOf (numbered id n o) = (id, Z.of_nat n).
Proof. by destruct o. Qed.

Lemma requestFor_numbered ck o n :
  requestId ck = Z.of_nat n → commandOf (requestFor ck o) = numbered (clientId ck) n o.
Proof. intros E. by destruct o; unfold numbered, requestFor; cbn; rewrite E. Qed.

Lemma doneOps_length c : length (doneOps c) = length (cs_done c).
Proof. apply length_imap. Qed.

Lemma calls_done c n d : cs_done c !! n = Some d → calls c !! n = Some (numbered (sesId c) n (d_op d)).
Proof.
  intros H. unfold calls. rewrite lookup_app_l; [|rewrite doneOps_length; by eapply lookup_lt_Some].
  unfold doneOps. by rewrite list_lookup_imap, H.
Qed.

Lemma calls_lookup c n op :
  calls c !! n = Some op → requestOf op = (sesId c, Z.of_nat n) ∧ (n <= length (cs_done c))%nat ∧
  (n = length (cs_done c) → ∃ o b, cs_now c = Some (o, b) ∧ op = numbered (sesId c) n o).
Proof.
  unfold calls. intros [H|[Hle H]]%lookup_app_Some.
  - pose proof (lookup_lt_Some _ _ _ H) as Hlt. rewrite doneOps_length in Hlt.
    unfold doneOps in H. rewrite list_lookup_imap in H. apply fmap_Some in H as (d & _ & ->).
    rewrite numbered_request. split_and!; [done|lia|lia].
  - rewrite doneOps_length in *. unfold nowOps in H. destruct (cs_now c) as [[o b]|]; [|done].
    apply list_lookup_singleton_Some in H as [H0 <-]. assert (n = length (cs_done c)) as -> by lia.
    rewrite numbered_request. split_and!; [done|lia|]. intros _. by exists o, b.
Qed.

(** A client's calls are told apart by their numbers. *)
Lemma asked_same cks op op' :
  NoDup (sesId <$> cks) → asked cks op → asked cks op' → requestOf op = requestOf op' → op = op'.
Proof.
  intros Hnd (c & n & [i Hi]%list_elem_of_lookup & Hc) (c' & n' & [i' Hi']%list_elem_of_lookup & Hc') E.
  destruct (calls_lookup _ _ _ Hc) as [E1 _], (calls_lookup _ _ _ Hc') as [E2 _].
  rewrite E1, E2 in E. injection E as Eid En.
  assert (i = i') as <-.
  { apply (NoDup_lookup (sesId <$> cks) i i' (sesId c)); [done|..]; rewrite list_lookup_fmap.
    - by rewrite Hi.
    - by rewrite Hi', Eid. }
  assert (n = n') as <- by lia. congruence.
Qed.

(** The clerk of a call. *)
Lemma asked_clerk cks op c :
  NoDup (sesId <$> cks) → asked cks op → c ∈ cks → ClientId op = sesId c →
  ∃ n, calls c !! n = Some op ∧ RequestId op = Z.of_nat n.
Proof.
  intros Hnd (c' & n & Hc' & Hn) Hc Hid. destruct (calls_lookup _ _ _ Hn) as [E _].
  injection E as Eid En. exists n. split; [|done].
  apply list_elem_of_lookup in Hc as [i Hi], Hc' as [i' Hi']. assert (i = i') as <-; [|congruence].
  apply (NoDup_lookup (sesId <$> cks) i i' (sesId c)); [done|..]; rewrite list_lookup_fmap.
  - by rewrite Hi.
  - by rewrite Hi'; cbn; rewrite <- Hid, Eid.
Qed.

(** *** Places in the log *)

Lemma commandAt_elem l i op : commandAt l i = Some op → op ∈ l.
Proof. intros [_ H]%commandAt_Some. by eapply list_elem_of_lookup_2. Qed.

Lemma commandAt_prefix l i b op : commandAt l i = Some op → i <= b → op ∈ prefixAt l b.
Proof.
  intros [Hi H]%commandAt_Some Hb. apply (list_elem_of_lookup_2 _ (Z.to_nat (i - 1))).
  unfold prefixAt. rewrite lookup_take_lt by lia. done.
Qed.

Lemma replied_app l o op x : replied l op x → replied (l ++ [o]) op x.
Proof.
  intros (i & Hc & Hx). exists i. split; [by apply commandAt_app|].
  apply commandAt_Some in Hc as [? _]. by rewrite prefixAt_app by lia.
Qed.

Lemma takesEffect_app l o op x i : takesEffect l op x i → takesEffect (l ++ [o]) op x i.
Proof.
  intros (Hc & Hx & Hw). pose proof (commandAt_Some _ _ _ Hc) as [? _]. split_and!.
  - by apply commandAt_app.
  - by rewrite prefixAt_app by lia.
  - by rewrite prefixAt_app by lia.
Qed.

(** The first command of a request. *)
Lemma first_place l r :
  r ∈ requestOf <$> l → ∃ i op, commandAt l i = Some op ∧ requestOf op = r ∧ r ∉ requestOf <$> prefixAt l (i - 1).
Proof.
  induction l as [|o l IH] using rev_ind; [intros H; by apply not_elem_of_nil in H|].
  rewrite fmap_app. intros Hin. destruct (decide (r ∈ requestOf <$> l)) as [Hl|Hl].
  - destruct (IH Hl) as (i & op & Hc & Hr & Hn). exists i, op. pose proof (commandAt_Some _ _ _ Hc) as [? _].
    split_and!; [by apply commandAt_app|done|by rewrite prefixAt_app by lia].
  - apply elem_of_app in Hin as [?|Hin]; [done|]. apply list_elem_of_singleton in Hin as ->.
    exists (zlen l + 1), o. unfold commandAt, prefixAt, zlen. split_and!; [|done|].
    + destruct (Z.leb_spec 1 (Z.of_nat (length l) + 1)); [|lia].
      rewrite lookup_app_r by lia. by replace (Z.to_nat _ - length l)%nat with 0%nat by lia.
    + replace (Z.to_nat (Z.of_nat (length l) + 1 - 1)) with (length l) by lia. by rewrite take_app_length.
Qed.

Lemma exactlyOnce_elem l op : op ∈ exactlyOnce l → op ∈ l.
Proof.
  induction l as [|o l IH] using rev_ind; [done|]. rewrite exactlyOnce_app, !elem_of_app.
  intros [?|H]; [auto|]. case_decide; [by apply not_elem_of_nil in H|auto].
Qed.

Lemma exactlyOnce_request l op : op ∈ l → ∃ op', op' ∈ exactlyOnce l ∧ requestOf op' = requestOf op.
Proof.
  revert op. induction l as [|o l IH] using rev_ind; intros op; [intros H; by apply not_elem_of_nil in H|].
  rewrite exactlyOnce_app. intros [H|H]%elem_of_app.
  - destruct (IH _ H) as (op' & ? & ?). exists op'. rewrite elem_of_app. auto.
  - apply list_elem_of_singleton in H as ->. case_decide as Hd.
    + apply list_elem_of_fmap in Hd as (o' & E & Ho). destruct (IH _ Ho) as (op' & ? & ?).
      exists op'. rewrite elem_of_app. split; [auto|congruence].
    + exists o. rewrite elem_of_app, list_elem_of_singleton. auto.
Qed.

Lemma executed_app l op id :
  executed (l ++ [op]) id =
  executed l id ++ (if decide (¬ (requestOf op ∈ (requestOf <$> l)) ∧ ClientId op = id) then [op] else []).
Proof.
  unfold executed. rewrite exactlyOnce_app, filter_app. f_equal.
  destruct (decide (requestOf op ∈ requestOf <$> l)).
  - rewrite decide_False by tauto. done.
  - rewrite filter_cons, filter_nil. repeat case_decide; tauto.
Qed.

(** *** Steps of a clerk *)

Lemma elem_insert (cks : list ClerkSession) j c c' x :
  x ∈ <[j := c']> cks → cks !! j = Some c → x = c' ∨ x ∈ cks.
Proof.
  intros [k Hk]%list_elem_of_lookup _.
  apply list_lookup_insert_Some in Hk as [(_ & <- & _)|[_ Hk]]; [by left|right]. by eapply list_elem_of_lookup_2.
Qed.

Lemma asked_insert cks j c c' op :
  cks !! j = Some c → calls c `prefix_of` calls c' → asked cks op → asked (<[j := c']> cks) op.
Proof.
  intros Hj Hpre (x & n & [k Hk]%list_elem_of_lookup & Hn). destruct (decide (k = j)) as [->|Hne].
  - simplify_eq. exists c', n. split; [|by eapply prefix_lookup_Some].
    eapply list_elem_of_lookup_2, list_lookup_insert_eq, lookup_lt_Some, Hj.
  - exists x, n. split; [|done]. apply (list_elem_of_lookup_2 _ k). by rewrite list_lookup_insert_ne.
Qed.

(** Only a clerk changes: it may ask for more. *)
Lemma sesInv_clerk s cks sent wt st an j c c' :
  sesInv (mkSessions s cks sent wt st an) → cks !! j = Some c → sesId c' = sesId c →
  calls c `prefix_of` calls c' → clerkAt (committed s) c' →
  sesInv (mkSessions s (<[j := c']> cks) sent wt st an).
Proof.
  intros [H1 H2 H3 H4 H5 H6 H7 H8 H9] Hj Hid Hpre Hc'. cbn in *.
  assert (∀ op, asked cks op → asked (<[j := c']> cks) op) as Hask by (intros op; by apply (asked_insert _ _ c)).
  constructor; cbn; eauto.
  - rewrite list_fmap_insert, Hid, list_insert_id; [done|]. by rewrite list_lookup_fmap, Hj.
  - intros x Hx. destruct (elem_insert _ _ _ _ _ Hx Hj) as [->|?]; auto.
Qed.

(** A number that was not given out yet is not in the log. *)
Lemma fresh_number s cks sent wt st an j ck done :
  sesInv (mkSessions s cks sent wt st an) → cks !! j = Some (mkClerkSession ck done None) →
  (clientId ck, requestId ck) ∉ requestOf <$> committed s.
Proof.
  intros Hi Hj (op & E & Hop)%list_elem_of_fmap. apply list_elem_of_lookup_2 in Hj.
  pose proof (ca_num _ _ (iv_clerk _ Hi _ Hj)) as Hn. cbn in Hn. injection E as E1 E2.
  destruct (asked_clerk cks op _ (iv_ids _ Hi) (iv_started _ Hi _ (iv_log _ Hi _ Hop)) Hj) as (n & Hc & Hr); [done|].
  destruct (calls_lookup _ _ _ Hc) as (_ & Hle & Hnow). cbn in Hle, Hnow. unfold zlen in Hn.
  destruct Hnow as (? & ? & ? & _); [lia|done].
Qed.

Lemma prefixAt_all l : prefixAt l (zlen l) = l.
Proof. unfold prefixAt, zlen. rewrite Nat2Z.id. apply take_ge. done. Qed.

Lemma sesInv_begin s cks sent wt st an j ck done o :
  sesInv (mkSessions s cks sent wt st an) → cks !! j = Some (mkClerkSession ck done None) →
  sesInv (mkSessions s (<[j := mkClerkSession ck done (Some (o, zlen (committed s)))]> cks) sent wt st an).
Proof.
  intros Hi Hj. pose proof (fresh_number _ _ _ _ _ _ _ _ _ Hi Hj) as Hfresh.
  pose proof (iv_clerk _ Hi _ (list_elem_of_lookup_2 _ _ _ Hj)) as [Hn _ Hd (m & Hm & Ho)]. cbn in Hn, Hd.
  set (c := mkClerkSession ck done None) in *. set (c' := mkClerkSession ck done (Some _)).
  assert (calls c' = calls c ++ [numbered (clientId ck) (length done) o]) as Ec
    by (unfold calls, nowOps; cbn; by rewrite app_nil_r).
  eapply sesInv_clerk; [done..|rewrite Ec; by apply prefix_app_r|]. constructor; try done.
  - intros o' b [= <- <-]. rewrite prefixAt_all. split; [|done]. unfold zlen. lia.
  - exists m. rewrite Ec, length_app, take_app_le by lia. cbn in *. split; [lia|done].
Qed.

Lemma sesInv_next s cks sent wt st an j ck done o b :
  sesInv (mkSessions s cks sent wt st an) → cks !! j = Some (mkClerkSession ck done (Some (o, b))) →
  sesInv (mkSessions s (<[j := mkClerkSession (IncrementLastLeader ck) done (Some (o, b))]> cks) sent wt st an).
Proof.
  intros Hi Hj. eapply sesInv_clerk; [done..|].
  by destruct (iv_clerk _ Hi _ (list_elem_of_lookup_2 _ _ _ Hj)) as [Hn Hb Hd Ho].
Qed.

(** A command that is in the log took effect at its place there, or was answered
    at it. *)
Lemma replied_effect s cks sent wt st an op x b :
  sesInv (mkSessions s cks sent wt st an) → replied (committed s) op x →
  requestOf op ∉ requestOf <$> prefixAt (committed s) b →
  ∃ i, b < i <= zlen (committed s) ∧ takesEffect (committed s) op x i.
Proof.
  intros Hi (i & Hc & Hx) Hb.
  assert (∀ k op', commandAt (committed s) k = Some op' → requestOf op' = requestOf op → b < k <= zlen (committed s)) as Hk.
  { intros k op' Hk E. pose proof (commandAt_Some _ _ _ Hk) as [? _]. split; [|lia].
    destruct (Z.lt_ge_cases b k) as [|Hle]; [done|]. destruct Hb. rewrite <- E.
    apply list_elem_of_fmap_2. by eapply commandAt_prefix. }
  destruct (decide (Type_ op = GET)) as [Hg|Hg].
  { exists i. split; [by eapply Hk|]. split_and!; done. }
  destruct (first_place (committed s) (requestOf op)) as (k & op' & Hk' & E & Hn).
  { apply list_elem_of_fmap_2. by eapply commandAt_elem. }
  assert (op' = op) as ->.
  { eapply (asked_same cks); [apply (iv_ids _ Hi)|..|done]; by eapply (iv_started _ Hi), (iv_log _ Hi), commandAt_elem. }
  exists k. split; [by eapply Hk|]. split_and!; try done.
  rewrite Hx. unfold plainReply. by destruct (Type_ op).
Qed.

Lemma sesInv_accept s cks sent wt st an j ck done o b a x :
  sesInv (mkSessions s cks sent wt st an) → cks !! j = Some (mkClerkSession ck done (Some (o, b))) →
  a ∈ an → answered a = requestFor ck o → accepts a = Some x →
  sesInv (mkSessions s (<[j := mkClerkSession (nextRequest ck)
            (done ++ [mkDone o x b (zlen (committed s))]) None]> cks) sent wt st an).
Proof.
  intros Hi Hj Ha Er Hx. pose proof (list_elem_of_lookup_2 _ _ _ Hj) as Hin.
  pose proof (iv_clerk _ Hi _ Hin) as [Hn Hb Hd (m & Hm & Ho)]. cbn in Hn, Hb, Hd. unfold zlen in Hn.
  destruct (Hb _ _ eq_refl) as [Hbr Hfresh]. pose proof (iv_answer _ Hi a x Ha Hx) as Hrep.
  rewrite Er, (requestFor_numbered ck o (length done) Hn) in Hrep. set (op := numbered _ _ _) in Hrep.
  assert (requestOf op = (clientId ck, requestId ck)) as Eop by (unfold op; by rewrite numbered_request, Hn).
  destruct (replied_effect _ _ _ _ _ _ op x b Hi Hrep) as (i & Hir & He); [by rewrite Eop|].
  set (c := mkClerkSession ck done (Some (o, b))) in *. set (c' := mkClerkSession (nextRequest ck) _ None).
  assert (calls c' = calls c) as Ecalls.
  { unfold calls, doneOps, nowOps. cbn. rewrite imap_app, app_nil_r. cbn.
    unfold sesId. cbn. by rewrite Nat.add_0_r. }
  eapply sesInv_clerk; [done..|by rewrite Ecalls|]. constructor; try done.
  - cbn. rewrite zlen_app. unfold zlen. cbn. lia.
  - intros n d Hl. cbn in Hl. apply lookup_app_Some in Hl as [Hl|[Hle Hl]]; [by apply Hd|].
    apply list_lookup_singleton_Some in Hl as [H0 <-]. assert (n = length done) as -> by lia. by exists i.
  - exists m. rewrite Ecalls. split; [|done]. split; [|apply Hm]. cbn. rewrite length_app. cbn.
    destruct (exactlyOnce_request (committed s) op) as (op' & Hop' & E'); [by destruct He as [?%commandAt_elem _]|].
    assert (op' ∈ take m (calls c)) as Hto.
    { rewrite <- Ho. apply list_elem_of_filter. split; [|done]. rewrite Eop in E'. by injection E'. }
    apply list_elem_of_lookup in Hto as [k Hk]. apply lookup_take_Some in Hk as [Hk Hlt].
    destruct (calls_lookup _ _ _ Hk) as [E1 _]. rewrite E', Eop in E1. injection E1 as E1. lia.
Qed.

(** *** Steps of the servers *)

(** The servers change, not the log; new requests, commands and answers are
    accounted for. *)
Lemma sesInv_servers s s' cks sent sent' wt wt' st st' an an' :
  sesInv (mkSessions s cks sent wt st an) → kvStep s s' ∨ s' = s → committed s' = committed s →
  (∀ j r, (j, r) ∈ sent' → (j, r) ∈ sent ∨ asked cks (commandOf r)) →
  (∀ j r i, (j, r, i) ∈ wt' → (j, r, i) ∈ wt ∨ asked cks (commandOf r)) →
  (∀ op, op ∈ st → op ∈ st') → (∀ op, op ∈ st' → op ∈ st ∨ asked cks op) →
  (∀ a x, a ∈ an' → accepts a = Some x → a ∈ an ∨ replied (committed s) (commandOf (answered a)) x) →
  sesInv (mkSessions s' cks sent' wt' st' an').
Proof.
  intros [H1 H2 H3 H4 H5 H6 H7 H8 H9] Hst E Hse Hwt Hs1 Hs2 Han. cbn in *.
  constructor; cbn; rewrite ?E; try done.
  - destruct Hst as [Hst| ->]; [by eapply kv_step|done].
  - intros j r [?|?]%Hse; eauto.
  - intros j r i [?|?]%Hwt; eauto.
  - intros op [?|?]%Hs2; eauto.
  - eauto.
  - intros a x Ha Hx. destruct (Han a x Ha Hx); eauto.
Qed.

Lemma handlerStart_startOp kv r kv' x :
  handlerStart kv r = Ret (kv', x) →
  ∃ o, startOp kv (commandOf r) = Ret (kv', o) ∧ (∀ a, x = inl a → accepts a = None) ∧ (∀ i, x = inr i → o = Some i).
Proof.
  destruct r as [args|args]; cbn [handlerStart]; unfold Get_start, PutAppend_start; intros H;
    apply bind_Ret in H as ([kv1 y] & H & [= <- <-]); apply bind_Ret in H as ([kv2 o] & H & [= <- <-]);
    exists o; (split; [done|]); destruct o; split; intros ? [= <-]; done.
Qed.

Context `{!RaftServiceLaws R P Op KvGob}.

Lemma startOp_step s j kv op kv' o :
  servers s !! j = Some kv → startOp kv op = Ret (kv', o) → kvStep s (withServer s j kv').
Proof. intros Hj H. destruct s. by eapply step_start. Qed.

(** An answer of a handler that found its own command is the plain map's. *)
Lemma handlerFinish_replied s kv r i timeout kv' a x :
  kvReach s → wellOrdered (committed s) → kv ∈ servers s → handlerFinish kv r i timeout = Some (kv', a) →
  (timeout = false → commandAt (committed s) i = Some (commandOf r)) → accepts a = Some x →
  answered a = r ∧ replied (committed s) (commandOf r) x.
Proof.
  intros Hs Hw Hkv H Hown Hx.
  assert (∀ kv1 o, await kv i timeout = Some (kv1, o) →
    (timeout = true ∧ o = None) ∨ ∃ resp, o = Some resp ∧ timeout = false ∧
      (wr_err resp, wr_value resp) = plainReply (replay (prefixAt (committed s) (i - 1))) (commandOf r)) as Haw.
  { intros kv1 o Ha. destruct timeout; [left; by injection Ha as _ <-|right].
    destruct (await_reply _ _ _ _ _ Hs Hw Hkv Ha) as (resp & -> & Hc & Hr). exists resp. split_and!; [done..|].
    rewrite Hr. f_equal. rewrite Hown in Hc by done. by injection Hc. }
  destruct r as [args|args]; cbn [handlerFinish] in H; unfold Get_finish, PutAppend_finish in H;
    apply bind_Some in H as ([kv1 y] & H & [= <- <-]); apply bind_Some in H as ([kv2 o] & H & [= <- <-]);
    (split; [done|]); destruct (Haw _ _ H) as [[-> ->]|(resp & -> & -> & Hr)]; try done;
    exists i; (split; [by apply Hown|]); rewrite <- Hr; cbn in Hx |- *.
  - unfold acceptGet in Hx. cbn in Hx. unfold plainReply in Hr. cbn in Hr.
    destruct (replay _ !! _); injection Hr as E1 E2; rewrite E1, E2 in *; by injection Hx as <-.
  - unfold acceptPutAppend in Hx. cbn in Hx. unfold plainReply in Hr. cbn in Hr.
    destruct (String.eqb (pa_Op args) "Put"); injection Hr as E1 E2; rewrite E1, E2 in *; by injection Hx as <-.
Qed.

Lemma await_step s j kv i timeout kv' o :
  servers s !! j = Some kv → await kv i timeout = Some (kv', o) → kvStep s (withServer s j kv').
Proof. intros Hj H. destruct s. by eapply step_await. Qed.

Lemma handlerFinish_step s j kv r i timeout kv' a :
  servers s !! j = Some kv → handlerFinish kv r i timeout = Some (kv', a) → kvStep s (withServer s j kv').
Proof.
  intros Hj H. destruct r; cbn [handlerFinish] in H; unfold Get_finish, PutAppend_finish in H;
    apply bind_Some in H as ([kv1 y] & H & [= <- <-]); apply bind_Some in H as ([kv2 o] & H & [= <- <-]);
    by eapply await_step.
Qed.

Lemma wellOrdered_snoc l op :
  wellOrdered l → 0 <= RequestId op →
  (∀ op', op' ∈ l → ClientId op' = ClientId op → RequestId op < RequestId op' →
     requestOf op ∈ requestOf <$> l) →
  wellOrdered (l ++ [op]).
Proof.
  intros Hw H0 Hop i o Hi. apply lookup_app_Some in Hi as [Hi|[Hlen Hi]].
  - destruct (Hw i o Hi) as [Ho Hord]. split; [done|]. intros j o' Hj Hl Hc Hr.
    pose proof (lookup_lt_Some _ _ _ Hi). rewrite take_app_le by lia.
    rewrite lookup_app_l in Hl by lia. by eapply Hord.
  - apply list_lookup_singleton_Some in Hi as [Hz <-]. assert (i = length l) as -> by lia.
    split; [done|]. intros j o' Hj Hl Hc Hr. rewrite take_app_length.
    rewrite lookup_app_l in Hl by lia. eapply Hop; [by eapply list_elem_of_lookup_2|done..].
Qed.

(** What a clerk has been answered is in the log. *)
Lemma done_committed l c n op :
  clerkAt l c → calls c !! n = Some op → (n < length (cs_done c))%nat → requestOf op ∈ requestOf <$> l.
Proof.
  intros Hc Hn Hlt. destruct (lookup_lt_is_Some_2 _ _ Hlt) as [d Hd].
  rewrite (calls_done _ _ _ Hd) in Hn. injection Hn as <-.
  destruct (ca_done _ _ Hc n d Hd) as (i & _ & Hi & _). apply list_elem_of_fmap_2. by eapply commandAt_elem.
Qed.

Lemma clerkAt_commit cks l op c :
  NoDup (sesId <$> cks) → asked cks op → c ∈ cks → clerkAt l c → clerkAt (l ++ [op]) c.
Proof.
  intros Hnd Hop Hin Hc. pose proof Hc as [Hn Hb Hd (m & Hm & Ho)]. constructor; try done.
  - intros o b Hnow. destruct (Hb o b Hnow) as [Hr Hf]. rewrite zlen_app, prefixAt_app by lia.
    split; [unfold zlen in *; cbn; lia|done].
  - intros n d Hl. destruct (Hd n d Hl) as (i & ? & ?). exists i. split; [done|]. by apply takesEffect_app.
  - rewrite executed_app. case_decide as Hnew; [|rewrite app_nil_r; by exists m]. destruct Hnew as [Hnew Hid].
    destruct (asked_clerk cks op c Hnd Hop Hin Hid) as (n & Hcn & Hr).
    destruct (calls_lookup _ _ _ Hcn) as (_ & Hle & _).
    assert (n = length (cs_done c)) as En.
    { destruct (decide (n = length (cs_done c))) as [|Hne]; [done|]. destruct Hnew.
      eapply done_committed; [done..|lia]. }
    assert (m = n) as ->.
    { destruct (decide (m = n)) as [|Hne]; [done|]. destruct Hnew. apply list_elem_of_fmap_2.
      apply exactlyOnce_elem. assert (op ∈ executed l (sesId c)) as [_ ?]%list_elem_of_filter; [|done].
      rewrite Ho. apply (list_elem_of_lookup_2 _ n). rewrite lookup_take_lt by lia. done. }
    exists (S n). pose proof (lookup_lt_Some _ _ _ Hcn). split; [lia|]. by rewrite Ho, (take_S_r _ _ _ Hcn).
Qed.

Lemma sesInv_commit s cks sent wt st an op :
  sesInv (mkSessions s cks sent wt st an) → op ∈ st →
  sesInv (mkSessions (mkKvSystem (committed s ++ [op]) (servers s) (shots s)) cks sent wt st an).
Proof.
  intros [H1 H2 H3 H4 H5 H6 H7 H8 H9] Hop. cbn in *. constructor; cbn; try done.
  - destruct s as [l ss sh]. eapply kv_step; [done|]. apply step_commit.
  - destruct (H6 op Hop) as (c & n & Hc & Hn). destruct (calls_lookup _ _ _ Hn) as ([= Eid Er] & Hle & _).
    apply wellOrdered_snoc; [done|lia|]. intros op' Ho' Hid Hlt.
    destruct (asked_clerk cks op' c H3) as (n' & Hn' & Hr'); [auto|done|congruence|].
    destruct (calls_lookup _ _ _ Hn') as (_ & Hle' & _). eapply done_committed; [by apply H9|done|lia].
  - intros o [?| ->%list_elem_of_singleton]%elem_of_app; auto.
  - intros a x Ha Hx. apply replied_app. by apply H8.
  - intros c Hc. eapply clerkAt_commit; eauto.
Qed.

Lemma sesInv_step S S' : sesInv S → sesStep S S' → sesInv S'.
Proof.
  intros Hi Hst. destruct Hst as
    [s cks sent wt st an j ck dn o Hj|s cks sent wt st an j ck dn o b Hj Hl|s cks sent wt st an j ck dn o b Hj
    |s cks sent wt st an j ck dn o b a x Hj Ha Er Hx|s cks sent wt st an j kv kv' r a Hin Hj H
    |s cks sent wt st an j kv kv' r i Hin Hj H|s cks sent wt st an j kv kv' r i Hin Hj H
    |s cks sent wt st an k j kv kv' r i timeout a Hk Hj H Hown|s cks sent wt st an op Hop|s s' cks sent wt st an H E].
  - by apply sesInv_begin.
  - apply (sesInv_servers s _ _ sent _ wt _ st _ an); auto. intros q r [[= _ ->]|?]%elem_of_cons; [right|by left].
    pose proof (list_elem_of_lookup_2 _ _ _ Hj) as Hc. exists (mkClerkSession ck dn (Some (o, b))), (length dn).
    split; [done|]. pose proof (ca_num _ _ (iv_clerk _ Hi _ Hc)) as Hn. cbn in Hn.
    rewrite (requestFor_numbered _ _ _ Hn). unfold calls, nowOps. cbn [cs_now cs_done].
    rewrite lookup_app_r by (by rewrite doneOps_length). rewrite doneOps_length. cbn [cs_done]. by rewrite Nat.sub_diag.
  - by apply sesInv_next.
  - by eapply sesInv_accept.
  - destruct (handlerStart_startOp _ _ _ _ H) as (o & Hs & Hno & _).
    apply (sesInv_servers s _ _ sent _ wt _ st _ an); auto; [left; by eapply startOp_step|].
    intros a' x [->|?]%elem_of_cons Hx; [|by left]. by rewrite (Hno _ eq_refl) in Hx.
  - destruct (handlerStart_startOp _ _ _ _ H) as (o & Hs & _ & _). pose proof (iv_sent _ Hi _ _ Hin) as Hask.
    apply (sesInv_servers s _ _ sent _ wt _ st _ an); auto; [left; by eapply startOp_step|..].
    + intros q r' i' [[= _ -> _]|?]%elem_of_cons; [by right|by left].
    + intros op Hop. by right.
    + intros op [->|?]%elem_of_cons; [by right|by left].
  - apply (sesInv_servers s _ _ sent _ wt _ st _ an); auto. left. destruct s. by eapply step_register.
  - apply (sesInv_servers s _ _ sent _ wt _ st _ an); auto; [left; by eapply handlerFinish_step|..].
    + intros q r' i' Hq. left. eapply elem_of_sublist; [done|]. apply sublist_delete.
    + intros a' x [->|?]%elem_of_cons Hx; [right|by left].
      destruct (handlerFinish_replied s kv r i timeout kv' a x) as [-> ?]; try done;
        [apply Hi|apply Hi|by eapply list_elem_of_lookup_2].
  - by apply sesInv_commit.
  - apply (sesInv_servers s _ _ sent _ wt _ st _ an); auto.
Qed.

Lemma sesInv_reach S : sesReach S → sesInv S.
Proof.
  induction 1 as [ss n ids Hf Hnd|]; [|by eapply sesInv_step]. constructor; cbn; try done.
  - by apply kv_init.
  - rewrite <- list_fmap_compose. cbn. by rewrite list_fmap_id.
  - intros j r H. by apply not_elem_of_nil in H.
  - intros j r i H. by apply not_elem_of_nil in H.
  - intros op H. by apply not_elem_of_nil in H.
  - intros a x H. by apply not_elem_of_nil in H.
  - intros c (id & -> & _)%list_elem_of_fmap. constructor; try done. exists 0%nat. done.
Qed.

(** C28. Whatever the network does to the requests of the clerks and whatever happens
    to the servers, as long as a handler that answers from its wait channel finds
    its own command at its index: the log is one on which the table of executed
    requests means exactly-once execution; of every clerk the log executes exactly
    the completed calls, each once and in the order they were made, and possibly
    the call it is in; and every completed call has a place in the log, between
    its call and its return, at which its result is the one of the plain map and
    at which, if it is a Put or Append, it is executed. *)
Theorem clerks_linearizable S :
  sesReach S →
  wellOrdered (committed (ses_kv S)) ∧
  ∀ c, c ∈ ses_clerks S →
    (executed (committed (ses_kv S)) (sesId c) = doneOps c ∨
     executed (committed (ses_kv S)) (sesId c) = doneOps c ++ nowOps c) ∧
    ∀ n d, cs_done c !! n = Some d → ∃ i, d_begin d < i <= d_end d ∧
      takesEffect (committed (ses_kv S)) (numbered (sesId c) n (d_op d)) (d_result d) i.
Proof.
  intros Hi%sesInv_reach. split; [apply Hi|]. intros c Hc. pose proof (iv_clerk _ Hi c Hc) as [_ _ Hd (m & Hm & Ho)].
  split; [|done]. rewrite Ho. unfold calls in *. rewrite length_app, doneOps_length in Hm.
  assert (length (nowOps c) <= 1)%nat as Hle by (unfold nowOps; destruct (cs_now c) as [[??]|]; cbn; lia).
  destruct (decide (m = length (cs_done c))) as [->|Hne].
  - left. rewrite <- doneOps_length. apply take_app_length.
  - right. apply take_ge. rewrite length_app, doneOps_length. lia.
Qed.
End session.
Arguments Sessions : clear implicits.
