(* ===== verification/KvExamples.v ===== *)
(** * KvExamples: the key/value theorems at concrete servers, and a reply to
    the wrong command *)

From S2P Require Import Prelude Labgob Persister RaftState RaftRpc RaftLeader RaftService KvServer KvReplica KvClerk KvSession.
Local Open Scope Z_scope.

#[export] Instance one_byte_size : GobSize (RaftGob Op) := {|
  gob_size _ := 1; gob_size_pos _ := eq_refl |}.

Definition putA : Op := mkOp PUT "x" "a" 7 0.
Definition appendB : Op := mkOp APPEND "x" "b" 7 1.

(** A leader of term 1 that never snapshots. *)
Definition kvLeader : KVServer (Raft Op KvGob) :=
  mkKVServer 0
    (mkRaft 0 3 false (mkRaftState leaderState 1 0 false) [mkLogEntry 0 None] 0 0 0 0
       [1; 1; 1] [0; 0; 0] true 0 (mkPersister [] []))
    false (-1) ∅ ∅ ∅ 0.

Lemma exactly_once_refinement_witness :
  (machineAt [putA; appendB; putA]).1 = replay [putA; appendB; putA].
Proof.
  refine (proj1 (proj2 (exactly_once_refinement [putA; appendB] putA _))).
  intros i op Hi. destruct i as [|[|[|]]]; [| | |done]; injection Hi as <-; split; try done.
  - intros j op' Hj. lia.
  - intros j op' Hj Hl. assert (j = 0%nat) as -> by lia. injection Hl as <-. done.
  - intros j op' Hj Hl _ _. by apply list_elem_of_here.
Defined.

(** One server, one command committed and applied. *)
Definition kvApplied : KVServer (Raft Op KvGob) :=
  set_machine {[ "x" := "a" ]}%string {[ 7 := 0 ]} 1 kvLeader.

Definition kvSystem1 : KvSystem (Raft Op KvGob) :=
  mkKvSystem [putA] [kvApplied] [(1, serialize kvApplied)].

Lemma kvSystem1_reach : kvReach kvSystem1.
Proof.
  eapply kv_step; [eapply kv_step; [apply (kv_init [kvLeader])|apply step_commit]|].
  - intros kv ->%list_elem_of_singleton. by repeat split.
  - apply (step_command [putA] [kvLeader] [] 0 kvLeader kvApplied 1 putA); done.
Qed.

Lemma putA_ordered : wellOrdered [putA].
Proof.
  intros i op Hi. destruct i; [|done]. injection Hi as <-. split; [done|]. intros j op' Hj. lia.
Qed.

Lemma kv_server_refines_witness : storage kvApplied = replay [putA].
Proof.
  refine (proj2 (kv_server_refines kvSystem1 kvApplied kvSystem1_reach putA_ordered _)).
  by apply list_elem_of_here.
Defined.

(** A second server, with another Raft peer, that only gets the snapshot of
    the first one. *)
Definition kvFollower : KVServer (Raft Op KvGob) :=
  mkKVServer 1 (initRaft 3 1 (mkPersister [] [])) false (-1) ∅ ∅ ∅ 0.
Definition kvInstalled : KVServer (Raft Op KvGob) := deserialize (serialize kvApplied) kvFollower.
Definition kvSystem2 : KvSystem (Raft Op KvGob) :=
  mkKvSystem [putA] [kvApplied; kvInstalled] [(1, serialize kvApplied)].

Lemma kvSystem2_reach : kvReach kvSystem2.
Proof.
  eapply kv_step; [eapply kv_step; [eapply kv_step;
    [apply (kv_init [kvLeader; kvFollower])|apply step_commit]|]|].
  - intros kv [->| ->%list_elem_of_singleton]%elem_of_cons; by repeat split.
  - apply (step_command [putA] [kvLeader; kvFollower] [] 0 kvLeader kvApplied 1 putA); done.
  - apply (step_snapshot [putA] [kvApplied; kvFollower] [(1, serialize kvApplied)] 1
      kvFollower kvInstalled 1 (serialize kvApplied) 1); [done|by apply list_elem_of_here|done].
Qed.

Lemma kv_servers_agree_witness : storage kvApplied = storage kvInstalled.
Proof.
  refine (proj1 (kv_servers_agree kvSystem2 kvApplied kvInstalled kvSystem2_reach _ _ eq_refl)).
  - by apply list_elem_of_here.
  - apply elem_of_cons. right. by apply list_elem_of_here.
Defined.

(** The same server with a handler that waits for index 1. *)
Definition kvWaiting : KVServer (Raft Op KvGob) := set_waitChs {[ 1 := None ]} kvLeader.
Definition kvAnswered : KVServer (Raft Op KvGob) :=
  Eval vm_compute in default kvLeader (returned (applyLoopStep kvWaiting (CommandMsg (Some putA) 1))).
Definition kvSystem3 : KvSystem (Raft Op KvGob) :=
  mkKvSystem [putA] [kvAnswered] [(1, serialize kvAnswered)].

Lemma kvSystem3_reach : kvReach kvSystem3.
Proof.
  eapply kv_step; [eapply kv_step; [eapply kv_step;
    [apply (kv_init [kvLeader])|apply (step_register [] [kvLeader] [] 0 kvLeader kvWaiting 1)]|apply step_commit]|].
  - intros kv ->%list_elem_of_singleton. by repeat split.
  - done.
  - vm_compute. reflexivity.
  - apply (step_command [putA] [kvWaiting] [] 0 kvWaiting kvAnswered 1 putA); done.
Qed.

Lemma kv_reply_correct_witness :
  ∃ op, commandAt [putA] 1 = Some op ∧ OK = (plainReply (replay []) op).1.
Proof.
  refine (proj2 (kv_reply_correct kvSystem3 kvAnswered 1 kvSystem3_reach putA_ordered _)
    (set_waitChs ∅ kvAnswered) (mkPutAppendReply OK) _).
  - by apply list_elem_of_here.
  - vm_compute. reflexivity.
Defined.

Lemma kv_apply_progress_witness : is_Ret (applyLoopStep kvApplied (CommandMsg (Some putA) 1)).
Proof.
  apply (kv_apply_progress kvSystem1 kvApplied 1 putA kvSystem1_reach); [by apply list_elem_of_here|done|].
  intros snap. by eexists.
Defined.

(** Server 2 of three answers every request. *)
Definition answers (n : nat) (i : Z) (args : GetArgs) : option GetReply :=
  if i =? 2 then Some (mkGetReply OK "a") else Some (mkGetReply ErrWrongLeader "").

Lemma clerk_finds_server_witness :
  ∃ v ck', Get answers 3 (MakeClerk 3 7) "x" = Ret (Some v, ck') ∧ requestId ck' = 1.
Proof.
  destruct (clerk_finds_server answers (MakeClerk 3 7) "x" 2 3) as (v & ck' & H & _ & _ & Hr & _); try done.
  - intros n. by eexists _, _.
  - by exists v, ck'.
Defined.

(** Client 7 puts [a] at [x]: its request reaches server 0, which starts, commits and
    applies the command and answers. *)
Definition putCall : ClerkOp := CPutAppend "x" "a" "Put".
Definition putArgs : PutAppendArgs := mkPutAppendArgs "x" "a" "Put" 7 0.
Definition kvStarted : KVServer (Raft Op KvGob) :=
  Eval vm_compute in default kvLeader (fst <$> returned (handlerStart kvLeader (RPutAppend putArgs))).
Definition kvRegistered : KVServer (Raft Op KvGob) := set_waitChs {[ 1 := None ]} kvStarted.
Definition kvServed : KVServer (Raft Op KvGob) :=
  Eval vm_compute in default kvLeader (returned (applyLoopStep kvRegistered (CommandMsg (Some putA) 1))).
Definition putDone : ClerkSession := mkClerkSession (mkClerk 3 0 7 1) [mkDone putCall "" 0 1] None.
Definition putSession : Sessions (Raft Op KvGob) :=
  mkSessions (mkKvSystem [putA] [set_waitChs ∅ kvServed] [(1, serialize kvServed)]) [putDone]
    [(0%nat, RPutAppend putArgs)] [] [putA] [APutAppend putArgs (mkPutAppendReply OK)].

Lemma putSession_reach : sesReach putSession.
Proof.
  pose (ck := MakeClerk 3 7). pose (r := RPutAppend putArgs).
  eapply ses_step; [|apply (ss_accept (mkKvSystem [putA] [set_waitChs ∅ kvServed] [(1, serialize kvServed)])
    [mkClerkSession ck [] (Some (putCall, 0))] [(0%nat, r)] [] [putA]
    [APutAppend putArgs (mkPutAppendReply OK)] 0 ck [] putCall 0
    (APutAppend putArgs (mkPutAppendReply OK)) ""); [done|by left|done|done]].
  eapply ses_step; [|apply (ss_finish (mkKvSystem [putA] [kvServed] [(1, serialize kvServed)])
    [mkClerkSession ck [] (Some (putCall, 0))] [(0%nat, r)] [(0%nat, r, 1)] [putA] [] 0 0 kvServed _ r 1 false);
    [done|done|vm_compute; reflexivity|done]].
  eapply ses_step; [|apply (ss_servers (mkKvSystem [putA] [kvRegistered] [])); [|done];
    apply (step_command [putA] [kvRegistered] [] 0 kvRegistered kvServed 1 putA); [done|done|done|vm_compute; reflexivity]].
  eapply ses_step; [|apply (ss_commit (mkKvSystem [] [kvRegistered] []) _ _ _ _ _ putA); by left].
  eapply ses_step; [|apply (ss_register (mkKvSystem [] [kvStarted] []) _ _ [(0%nat, r, 1)] _ _ 0 kvStarted kvRegistered r 1);
    [by left|done|vm_compute; reflexivity]].
  eapply ses_step; [|apply (ss_start (mkKvSystem [] [kvLeader] []) _ [(0%nat, r)] [] [] _ 0 kvLeader kvStarted r 1);
    [by left|done|vm_compute; reflexivity]].
  eapply ses_step; [|apply (ss_call (mkKvSystem [] [kvLeader] []) [mkClerkSession ck [] (Some (putCall, 0))]
    [] _ _ _ 0 ck [] putCall 0); [done|cbn; lia]].
  eapply ses_step; [|apply (ss_begin (mkKvSystem [] [kvLeader] []) [mkClerkSession ck [] None]
    _ _ _ _ 0 ck [] putCall); done].
  apply (ses_init [kvLeader] 3 [7]); [|apply NoDup_singleton].
  intros kv ->%list_elem_of_singleton. by repeat split.
Qed.

Lemma clerks_linearizable_witness :
  executed [putA] 7 = [putA] ∧ ∃ i, 0 < i <= 1 ∧ takesEffect [putA] putA "" i.
Proof.
  destruct (clerks_linearizable putSession putSession_reach) as [_ H].
  destruct (H putDone) as [He Hd]; [by left|]. split; [by destruct He|].
  exact (Hd 0%nat (mkDone putCall "" 0 1) eq_refl).
Defined.

(** ** A reply to the wrong command

    The leader starts client 7's Put at index 1 and its handler waits for
    that index; a new leader's AppendEntries puts client 9's Put at index 1
    and commits it; the apply loop hands the response for client 9's command
    to client 7's handler, which answers [OK] although the value of client 7
    is in no log. *)
Definition put9 : Op := mkOp PUT "y" "b" 9 0.

Example kv_reply_to_wrong_command :
  ∃ kv1 kv2 rf3 aer kv4 kv5 reply,
    PutAppend_start kvLeader (mkPutAppendArgs "x" "a" "Put" 7 0) = Ret (kv1, inr 1) ∧
    register kv1 1 = Ret kv2 ∧
    AppendEntries (kv_rf kv2) (mkAppendEntriesArgs 2 1 [mkLogEntry 2 (Some put9)] 0 0 1) = Ret (rf3, aer) ∧
    commitIndex rf3 = 1 ∧ log rf3 = [mkLogEntry 0 None; mkLogEntry 2 (Some put9)] ∧
    applyLoopStep (set_rf rf3 kv2) (CommandMsg (Some put9) 1) = Ret kv4 ∧
    PutAppend_finish kv4 1 false = Some (kv5, reply) ∧
    par_Err reply = OK ∧ storage kv5 !! "x"%string = None.
Proof.
  eexists _, _, _, _, _, _, _.
  split; [vm_compute; reflexivity|]. split; [vm_compute; reflexivity|].
  split; [vm_compute; reflexivity|]. split; [reflexivity|]. split; [reflexivity|].
  split; [vm_compute; reflexivity|]. split; [vm_compute; reflexivity|].
  split; reflexivity.
Qed.
