(* ===== verification/KvRaftExamples.v ===== *)
(** * KvRaftExamples: a run of the key/value service on its cluster

    Leader 0 commits a Put with server 1; both apply it, server 1 restarts and
    applies it again. *)

From S2P Require Import Prelude Labgob Persister RaftState RaftRpc RaftLeader RaftPeer RaftCluster RaftLinks RaftReplication RaftSteps RaftReplExamples RaftSafetyExamples RaftService KvServer KvReplica KvExamples KvRaft.
Local Open Scope Z_scope.

Definition kcalm (l : klabel) (s : KvCluster) : bool :=
  match l with KRaft l => scalm l (kc_raft s) | _ => true end.

Fixpoint kcheck (ls : list klabel) (s : KvCluster) : option KvCluster :=
  match ls with
  | [] => Some s
  | l :: ls => if kcalm l s then s' ← kstep l s; kcheck ls s' else None
  end.

Lemma kcheck_sound n ls s s' : kreach n s → kcheck ls s = Some s' → kreach n s'.
Proof.
  revert s. induction ls as [|l ls IH]; intros s Hr H; cbn -[kcalm kstep] in H.
  - by injection H as <-.
  - destruct (kcalm l s) eqn:E; [|done]. apply bind_Some in H as (s1 & Hs & H).
    eapply (IH s1); [|done]. eapply kreach_step; [done| |done]. destruct l; try done. by apply scalm_sound.
Qed.

Definition serve3 : list klabel :=
  (KRaft <$> elect 0 [1%nat]) ++
  [KStart 0 putA; KRegister 0 1] ++
  (KRaft <$> ([RBroadcast 0; RCallAppend 0; RAppend 0; RAppendReply 0] ++ scan 0 1 1)) ++
  [KCheck 0; KBegin 0; KReceive 0; KApply 0; KEnd 0; KAwait 0 1 false] ++
  (KRaft <$> [RHeartbeat 0; RBeat 0; RAppend 0]) ++
  [KCheck 1; KBegin 1; KReceive 1; KApply 1; KEnd 1; KRestart 1; KRaft (RAppend 0); KCheck 1; KBegin 1; KReceive 1; KApply 1].

Definition served3 : option KvCluster := Eval vm_compute in kcheck serve3 (initKv 3).

Definition kvView (s : KvCluster) : list (list (string * string) * Z * Z) :=
  zip_with (λ kv rf, (map_to_list (storage kv), latestAppliedRaftIndex kv, commitIndex rf))
    (kc_servers s) (nodes (cl (kc_raft s))).

(** Server 1 has restarted and caught up; server 2 has heard of nothing. *)
Example served3_result :
  kvView <$> served3 = Some [([("x", "a")], 1, 1); ([("x", "a")], 1, 1); ([], 0, 0)].
Proof. reflexivity. Qed.

Lemma served3_reach s : served3 = Some s → kreach 3 s.
Proof.
  intros H. assert (kcheck serve3 (initKv 3) = served3) as E by (vm_compute; reflexivity).
  rewrite H in E. eapply kcheck_sound; [apply kreach_init|done].
Qed.

Lemma kvraft_refines_witness :
  ∃ s, served3 = Some s ∧
    ∃ log sh, kvReach (mkKvSystem log (kc_servers s) sh) ∧
      ∀ p rf i op, nodes (cl (kc_raft s)) !! p = Some rf → commandAt log i = Some op → i <= commitIndex rf →
        ∃ e, getLog rf i = Ret e ∧ le_Command e = Some op.
Proof.
  destruct served3 as [s|] eqn:E; [|discriminate E]. exists s. split; [done|].
  exact (kvraft_refines 3 s (served3_reach s E)).
Defined.

(** Server 1 against the log of peer 0. *)
Lemma kvraft_storage_witness :
  ∃ s kv rf, served3 = Some s ∧ kc_servers s !! 1%nat = Some kv ∧ nodes (cl (kc_raft s)) !! 0%nat = Some rf ∧
    ∃ ops, zlen ops = latestAppliedRaftIndex kv ∧
      (∀ i op, commandAt ops i = Some op → ∃ e, getLog rf i = Ret e ∧ le_Command e = Some op) ∧
      (storage kv, latestAppliedRequest kv) = machineAt ops.
Proof.
  destruct served3 as [s|] eqn:E; [|discriminate E].
  destruct (kc_servers s !! 1%nat) as [kv|] eqn:Ek; [|injection E as <-; discriminate Ek].
  destruct (nodes (cl (kc_raft s)) !! 0%nat) as [rf|] eqn:Er; [|injection E as <-; discriminate Er].
  exists s, kv, rf. do 3 (split; [done|]).
  apply (kvraft_storage 3 s 1 kv 0 rf (served3_reach s E) Ek Er).
  injection E as <-. injection Ek as <-. injection Er as <-. discriminate.
Defined.
