(* ===== verification/MrWorker.v ===== *)
(** * MrWorker: the work of a MapReduce worker

    The pure part of [src/src/mr/worker.go] (partitioning the pairs of a map
    task, grouping the pairs of a reduce task) and of
    [src/src/main/mrsequential.go].  The application's [mapf] and [reducef] are
    parameters; [sort.Sort] is any function that sorts by key, since it
    promises no order among equal keys ([GoSort]).  A file of JSON values is
    the list of the values that decoding finds in it, which are those that were
    encoded with their strings made valid ([jsonPair]); a file of lines is the list
    of its lines.

    The section [equivalence] shows that the distributed job computes what the
    sequential one computes. *)

From S2P Require Import Prelude GoStrings.
Local Open Scope Z_scope.

Record KeyValue := mkKeyValue { Key : string; Value : string }.
#[export] Instance KeyValue_eq_dec : EqDecision KeyValue.
Proof. solve_decision. Defined.

(** [sort.Sort(ByKey(l))]: bytewise order of the keys. *)
Definition keyLe (a b : KeyValue) : Prop := String.le (Key a) (Key b).

Class GoSort := {
  sortByKey : list KeyValue → list KeyValue;
  sort_perm l : sortByKey l ≡ₚ l;
  sort_sorted l : StronglySorted keyLe (sortByKey l);
}.

(** FNV-1a on 32 bits, and [ihash]. *)
Definition fnv1a (key : string) : Z :=
  foldl (λ h c, (Z.lxor h (Z.of_nat (Ascii.nat_of_ascii c)) * 16777619) mod 2 ^ 32)
    2166136261 (String.list_ascii_of_string key).

Definition ihash (key : string) : Z := Z.land (fnv1a key) 0x7fffffff.

(** *** A map task *)

(** [middleResult[h] = append(middleResult[h], keyValue)] with
    [h = ihash(keyValue.Key) % NReduce]; [%] panics on 0. *)
Definition putBucket (nReduce : Z) (middle : list (list KeyValue)) (kv : KeyValue) : outcome (list (list KeyValue)) :=
  if nReduce =? 0 then Panic else
  let h := ihash (Key kv) mod nReduce in
  bucket ← slice_get middle h;
  slice_set middle h (bucket ++ [kv]).

Fixpoint putBuckets (nReduce : Z) (middle : list (list KeyValue)) (kvs : list KeyValue) :
    outcome (list (list KeyValue)) :=
  match kvs with
  | [] => Ret middle
  | kv :: rest => middle ← putBucket nReduce middle kv; putBuckets nReduce middle rest
  end.

Definition middleResult (nReduce : Z) (kvs : list KeyValue) : outcome (list (list KeyValue)) :=
  putBuckets nReduce (replicate (Z.to_nat nReduce) []) kvs.

(** A pair that [enc.Encode] wrote and [dec.Decode] reads. *)
Definition jsonPair (kv : KeyValue) : KeyValue := mkKeyValue (jsonString (Key kv)) (jsonString (Value kv)).
Definition validPair (kv : KeyValue) : Prop := validUtf8 (Key kv) ∧ validUtf8 (Value kv).

Section apps.
Context (mapf : string → string → list KeyValue) (reducef : string → list string → string).

(** *** A reduce task *)

(** The inner loop: the values of the pairs with this key at the front, and
    the pairs after them. *)
Fixpoint takeKey (key : string) (l : list KeyValue) : list string * list KeyValue :=
  match l with
  | kv :: rest =>
      if decide (Key kv = key) then let '(vs, rest) := takeKey key rest in (Value kv :: vs, rest)
      else ([], l)
  | [] => ([], [])
  end.

(** The outer loop, a turn per key; the number of pairs is enough fuel. *)
Fixpoint reduceLoop (fuel : nat) (l : list KeyValue) : list (string * string) :=
  match fuel, l with
  | S fuel', kv :: rest =>
      let '(vs, rest) := takeKey (Key kv) rest in
      (Key kv, reducef (Key kv) (Value kv :: vs)) :: reduceLoop fuel' rest
  | _, _ => []
  end.

Definition reduceAll (l : list KeyValue) : list (string * string) := reduceLoop (length l) l.

(** *** mrsequential.go *)

(** [log.Fatalf] when an input cannot be opened. *)
Fixpoint mapFiles (inputs : gmap string string) (files : list string) : outcome (list KeyValue) :=
  match files with
  | [] => Ret []
  | name :: rest =>
      content ← match inputs !! name with Some content => Ret content | None => Fatal end;
      kvs ← mapFiles inputs rest;
      Ret (mapf name content ++ kvs)
  end.

Definition sequential {GS : GoSort} (inputs : gmap string string) (files : list string) :
    outcome (list (string * string)) :=
  intermediate ← mapFiles inputs files;
  Ret (reduceAll (sortByKey intermediate)).
End apps.

(** ** Partitioning *)

Definition bucketOf (nReduce : Z) (kv : KeyValue) : Z := ihash (Key kv) mod nReduce.

(** The pairs that belong to reduce task [r], in order. *)
Definition bucketFor (nReduce r : Z) (kvs : list KeyValue) : list KeyValue :=
  filter (λ kv, bucketOf nReduce kv = r) kvs.

Lemma bucketOf_range n kv : 0 < n → 0 <= bucketOf n kv < n.
Proof. intros Hn. by apply Z.mod_pos_bound. Qed.

Lemma putBuckets_spec n middle kvs :
  0 < n → zlen middle = n →
  ∃ middle', putBuckets n middle kvs = Ret middle' ∧ zlen middle' = n ∧
    ∀ r b, middle !! r = Some b → middle' !! r = Some (b ++ bucketFor n (Z.of_nat r) kvs).
Proof.
  intros Hn. revert middle. induction kvs as [|kv kvs IH]; intros middle Hlen; cbn [putBuckets].
  { exists middle. split; [done|]. split; [done|]. intros r b Hr. unfold bucketFor. cbn. by rewrite app_nil_r. }
  unfold putBucket. rewrite (proj2 (Z.eqb_neq n 0)) by lia. fold (bucketOf n kv).
  pose proof (bucketOf_range n kv Hn) as Hb.
  destruct (slice_get_in_range middle (bucketOf n kv)) as [b0 Hb0]; [lia|]. rewrite Hb0. cbn [mbind outcome_bind].
  assert (slice_set middle (bucketOf n kv) (b0 ++ [kv]) = Ret (<[Z.to_nat (bucketOf n kv) := b0 ++ [kv]]> middle)) as ->.
  { apply slice_set_Ret. split; [lia|done]. }
  cbn [mbind outcome_bind].
  destruct (IH (<[Z.to_nat (bucketOf n kv) := b0 ++ [kv]]> middle)) as (m' & -> & Hlen' & Hm').
  { unfold zlen in *. by rewrite length_insert. }
  exists m'. split; [done|]. split; [done|]. intros r b Hr. apply slice_get_Ret in Hb0 as [_ Hb0].
  unfold bucketFor. rewrite filter_cons. destruct (decide (r = Z.to_nat (bucketOf n kv))) as [->|Hne].
  - rewrite Hb0 in Hr. injection Hr as <-. rewrite decide_True by lia.
    rewrite (Hm' _ (b0 ++ [kv])); [by rewrite <- app_assoc|].
    apply list_lookup_insert_eq. by eapply lookup_lt_Some.
  - rewrite decide_False by lia. apply Hm'. by rewrite list_lookup_insert_ne.
Qed.

Lemma middleResult_spec n kvs :
  0 < n →
  ∃ middle, middleResult n kvs = Ret middle ∧ zlen middle = n ∧
    ∀ r, 0 <= r < n → middle !! Z.to_nat r = Some (bucketFor n r kvs).
Proof.
  intros Hn. destruct (putBuckets_spec n (replicate (Z.to_nat n) []) kvs Hn) as (m & Hm & Hlen & Hr).
  { unfold zlen. rewrite length_replicate. lia. }
  exists m. split; [done|]. split; [done|]. intros r Hrn.
  rewrite (Hr (Z.to_nat r) []); [by rewrite Z2Nat.id by lia|]. apply lookup_replicate_2. lia.
Qed.

(** ** Grouping *)

Definition valuesOf (key : string) (l : list KeyValue) : list string := Value <$> filter (λ kv, Key kv = key) l.

#[export] Instance valuesOf_perm key : Proper ((≡ₚ) ==> (≡ₚ)) (valuesOf key).
Proof. intros l1 l2 H. unfold valuesOf. by rewrite H. Qed.

Lemma sorted_above kv l key :
  StronglySorted keyLe (kv :: l) → key ∈ Key <$> l → String.le (Key kv) key.
Proof.
  intros Hs (x & -> & Hx)%list_elem_of_fmap. apply StronglySorted_inv in Hs as [_ Hall].
  rewrite Forall_forall in Hall. by apply Hall.
Qed.

(** In a sorted list a key that is not in front does not come again. *)
Lemma sorted_gone kv x l :
  StronglySorted keyLe (kv :: x :: l) → Key x ≠ Key kv → Key kv ∉ Key <$> (x :: l).
Proof.
  intros Hs Hne Hin. apply StronglySorted_inv in Hs as [Hs Hall]. rewrite Forall_forall in Hall.
  apply Hne, (anti_symm String.le).
  - rewrite fmap_cons in Hin. apply elem_of_cons in Hin as [->|Hin]; [done|]. by eapply sorted_above.
  - apply (Hall x). by left.
Qed.

Lemma takeKey_sorted kv l :
  StronglySorted keyLe (kv :: l) →
  let '(vs, rest) := takeKey (Key kv) l in
  vs = valuesOf (Key kv) l ∧ StronglySorted keyLe rest ∧ (Key kv ∉ Key <$> rest) ∧
  (length rest <= length l)%nat ∧ (∀ key, key ≠ Key kv → filter (λ x, Key x = key) rest = filter (λ x, Key x = key) l).
Proof.
  induction l as [|x l IH]; intros Hs; cbn [takeKey].
  { split; [done|]. split; [constructor|]. split; [apply not_elem_of_nil|]. by split. }
  case_decide as Hk.
  - assert (StronglySorted keyLe (kv :: l)) as Hs'.
    { apply StronglySorted_inv in Hs as [Hs Hall]. apply StronglySorted_inv in Hs as [Hs _].
      constructor; [done|]. by inversion Hall. }
    specialize (IH Hs'). destruct (takeKey (Key kv) l) as [vs rest]. destruct IH as (-> & Hsr & Hn & Hlen & Hf).
    split; [unfold valuesOf; rewrite filter_cons_True by done; done|]. split; [done|]. split; [done|].
    split; [cbn; lia|]. intros key Hne. rewrite filter_cons_False by congruence. by apply Hf.
  - pose proof (sorted_gone kv x l Hs Hk) as Hn.
    split; [|split; [by apply StronglySorted_inv in Hs as [? _]|split; [done|by split]]].
    unfold valuesOf. assert (filter (λ y, Key y = Key kv) (x :: l) = []) as ->; [|done].
    apply elem_of_nil_inv. intros y [Hy Hin]%list_elem_of_filter. apply Hn. rewrite <- Hy.
    by apply list_elem_of_fmap_2.
Qed.

(** What a reduce task writes for sorted pairs: each key once, with all its
    values. *)
Lemma reduceLoop_spec reducef fuel l :
  StronglySorted keyLe l → (length l <= fuel)%nat →
  ∃ keys, NoDup keys ∧ (∀ k, k ∈ keys ↔ k ∈ Key <$> l) ∧
    reduceLoop reducef fuel l = (λ k, (k, reducef k (valuesOf k l))) <$> keys.
Proof.
  revert l. induction fuel as [|fuel IH]; intros l Hs Hlen.
  { destruct l; [|cbn in Hlen; lia]. exists []. by split; [constructor|]. }
  destruct l as [|kv l]; [exists []; by split; [constructor|]|]. cbn [reduceLoop].
  pose proof (takeKey_sorted kv l Hs) as Ht. destruct (takeKey (Key kv) l) as [vs rest].
  destruct Ht as (-> & Hsr & Hn & Hlr & Hf). destruct (IH rest Hsr) as (keys & Hnd & Hk & ->); [cbn in Hlen; lia|].
  assert (∀ k, k ≠ Key kv → k ∈ Key <$> rest ↔ k ∈ Key <$> l) as Hmem.
  { intros k Hne. rewrite !list_elem_of_fmap. split; intros (x & -> & Hx); exists x; (split; [done|]).
    - assert (x ∈ filter (λ y, Key y = Key x) rest) as Hx' by (by apply list_elem_of_filter).
      rewrite Hf in Hx' by done. by apply list_elem_of_filter in Hx' as [_ ?].
    - assert (x ∈ filter (λ y, Key y = Key x) l) as Hx' by (by apply list_elem_of_filter).
      rewrite <- Hf in Hx' by done. by apply list_elem_of_filter in Hx' as [_ ?]. }
  exists (Key kv :: keys). split; [|split].
  - constructor; [|done]. by rewrite Hk.
  - intros k. rewrite fmap_cons, !elem_of_cons, Hk. destruct (decide (k = Key kv)) as [->|Hne]; [tauto|].
    rewrite Hmem by done. tauto.
  - rewrite fmap_cons. assert (valuesOf (Key kv) (kv :: l) = Value kv :: valuesOf (Key kv) l) as ->
      by (unfold valuesOf; by rewrite filter_cons_True). f_equal.
    apply list_fmap_ext. intros i k Hik. assert (k ≠ Key kv) as Hne.
    { intros ->. apply Hn. apply Hk. by eapply list_elem_of_lookup_2. }
    unfold valuesOf. rewrite filter_cons_False by congruence. by rewrite Hf.
Qed.

(** ** The distributed and the sequential job *)

Section equivalence.
Context (mapf : string → string → list KeyValue) (reducef : string → list string → string).
(** The reduce function does not depend on the order of the values. *)
Context (Hred : ∀ k, Proper ((≡ₚ) ==> (=)) (reducef k)).

Lemma reduceAll_sorted {GS : GoSort} l :
  ∃ keys, NoDup keys ∧ (∀ k, k ∈ keys ↔ (k ∈ Key <$> l)) ∧
    reduceAll reducef (sortByKey l) = (λ k, (k, reducef k (valuesOf k l))) <$> keys.
Proof.
  destruct (reduceLoop_spec reducef (length (sortByKey l)) (sortByKey l) (sort_sorted l) (Nat.le_refl _))
    as (keys & Hnd & Hk & E).
  exists keys. split; [done|]. split; [intros k; rewrite Hk; by rewrite (sort_perm l)|].
  unfold reduceAll. rewrite E. apply list_fmap_ext. intros _ k _. by rewrite (sort_perm l).
Qed.

Lemma valuesOf_bucket n r k l :
  ihash k mod n = r → valuesOf k (bucketFor n r l) = valuesOf k l.
Proof.
  intros Hr. unfold valuesOf, bucketFor. f_equal. rewrite list_filter_filter_l; [done|].
  intros kv <-. exact Hr.
Qed.

Lemma bucket_keys n r l k : k ∈ Key <$> bucketFor n r l ↔ (k ∈ Key <$> l) ∧ ihash k mod n = r.
Proof.
  unfold bucketFor. rewrite !list_elem_of_fmap. split.
  - intros (kv & -> & [Hb Hin]%list_elem_of_filter). split; [by exists kv|done].
  - intros [(kv & -> & Hin) Hb]. exists kv. split; [done|]. by apply list_elem_of_filter.
Qed.

(** The outputs of the reduce tasks together are the output of the
    sequential program, up to the order of the lines. *)
Lemma reduce_partition (GS1 GS2 : GoSort) n l :
  0 < n →
  (seqZ 0 n ≫= λ r, reduceAll reducef (@sortByKey GS1 (bucketFor n r l))) ≡ₚ
  reduceAll reducef (@sortByKey GS2 l).
Proof using Hred.
  intros Hn. destruct (@reduceAll_sorted GS2 l) as (keys & Hnd & Hk & ->).
  set (f := λ k, (k, reducef k (valuesOf k l))).
  assert (∃ keysOf : Z → list string, ∀ r, NoDup (keysOf r) ∧
    (∀ k, k ∈ keysOf r ↔ (k ∈ Key <$> l) ∧ ihash k mod n = r) ∧
    reduceAll reducef (@sortByKey GS1 (bucketFor n r l)) = f <$> keysOf r) as [keysOf Hof].
  { exists (λ r, (reduceAll reducef (@sortByKey GS1 (bucketFor n r l))).*1). intros r.
    destruct (@reduceAll_sorted GS1 (bucketFor n r l)) as (ks & Hnd' & Hk' & E). rewrite E.
    rewrite <- list_fmap_compose. cbn.
    assert ((λ k : string, k) <$> ks = ks) as Eid by apply list_fmap_id.
    change (fst ∘ (λ k, (k, reducef k (valuesOf k (bucketFor n r l))))) with (λ k : string, k). rewrite Eid.
    split; [done|]. split; [intros k; by rewrite Hk', bucket_keys|].
    apply list_fmap_ext. intros i k Hi. unfold f. rewrite valuesOf_bucket; [done|].
    apply list_elem_of_lookup_2, Hk', bucket_keys in Hi. by destruct Hi. }
  assert (∀ rs, (rs ≫= λ r, reduceAll reducef (@sortByKey GS1 (bucketFor n r l))) = f <$> (rs ≫= keysOf)) as ->.
  { induction rs as [|r rs IH]; [done|]. rewrite !bind_cons, fmap_app, IH. f_equal. apply Hof. }
  apply fmap_Permutation, NoDup_Permutation; [|done|].
  - apply NoDup_bind; [|intros r _; apply Hof|apply NoDup_seqZ].
    intros r1 r2 k _ _ [_ H1]%Hof [_ H2]%Hof. congruence.
  - intros k. rewrite list_elem_of_bind, Hk. split.
    + intros (r & [Hin _]%Hof & _). done.
    + intros Hin. exists (ihash k mod n). split; [by apply Hof|]. apply elem_of_seqZ.
      pose proof (Z.mod_pos_bound (ihash k) n Hn). lia.
Qed.
End equivalence.
