(* ===== verification/MrCoordinator.v ===== *)
(** * MrCoordinator: the MapReduce coordinator of [src/src/mr/coordinator.go]

    The locks of the coordinator do not cover the whole of [RPCHandler], so
    that the handler and the two checkers are modelled by the pieces that run
    without interruption: handing out a task ([ask]), the two halves of a
    checker ([reset] and [bump], between which the task's mutex is held but a
    task can be handed out), and the sections of a report, which also holds only
    its task's mutex: the comparison of the task numbers ([reportCurrent]), then
    the rename of each file, [SetPhase(1)], the look at each task and the
    write of the flag ([reportSection]).

    [Files] are the files named "mr-m-r-tmp" and "mr-m-r" (key [(true, m, r)])
    and "mr-out-r-tmp" and "mr-out-r" (key [(false, r, 0)]). *)

From S2P Require Import Prelude MrWorker.
Local Open Scope Z_scope.

(** Phase -1: not handed out, 0: running, 1: finished. *)
Record MapTask := mkMapTask { mt_Phase : Z; mt_FileName : string; mt_TaskNumber : Z }.
Record ReduceTask := mkReduceTask { rt_Phase : Z; rt_TaskNumber : Z }.

Record Coordinator := mkCoordinator {
  NMap : Z;
  NReduce : Z;
  IsMapFinished : bool;
  IsFinished : bool;
  MapTaskList : list MapTask;
  ReduceTaskList : list ReduceTask;
}.

Record Args := mkArgs {
  a_AskForTask : bool; a_IsMap : bool; a_MapTaskId : Z; a_ReduceTaskId : Z; a_TaskNumber : Z;
}.
Record Reply := mkReply {
  r_IsFinished : bool; r_IsMap : bool; r_MapFileName : string; r_MapTaskId : Z; r_ReduceTaskId : Z;
  r_NMap : Z; r_NReduce : Z; r_TaskNumber : Z;
}.

Inductive FileData := KVs (l : list KeyValue) | Lines (l : list (string * string)).

Record Files := mkFiles {
  tmpFile : gmap (bool * Z * Z) FileData;
  finalFile : gmap (bool * Z * Z) FileData;
}.

Definition set_maps (l : list MapTask) (c : Coordinator) : Coordinator :=
  mkCoordinator (NMap c) (NReduce c) (IsMapFinished c) (IsFinished c) l (ReduceTaskList c).
Definition set_reduces (l : list ReduceTask) (c : Coordinator) : Coordinator :=
  mkCoordinator (NMap c) (NReduce c) (IsMapFinished c) (IsFinished c) (MapTaskList c) l.

Definition MapTask_SetPhase (phase : Z) (t : MapTask) : MapTask := mkMapTask phase (mt_FileName t) (mt_TaskNumber t).
Definition ReduceTask_SetPhase (phase : Z) (t : ReduceTask) : ReduceTask := mkReduceTask phase (rt_TaskNumber t).

(** The index of the first task that is not handed out, or -1. *)
Fixpoint unassigned (i : Z) (phases : list Z) : Z :=
  match phases with
  | [] => -1
  | p :: rest => if p =? -1 then i else unassigned (i + 1) rest
  end.

Definition GetUnassignedMapTask (c : Coordinator) : Z := unassigned 0 (mt_Phase <$> MapTaskList c).
Definition GetUnassignedReduceTask (c : Coordinator) : Z := unassigned 0 (rt_Phase <$> ReduceTaskList c).

(** [RPCHandler] with [AskForTask]; the last result is the checker to start:
    its kind and task. *)
Definition ask (c : Coordinator) : outcome (Coordinator * Reply * option (bool * Z)) :=
  if IsFinished c then Ret (c, mkReply true false "" 0 0 (NMap c) (NReduce c) 0, None) else
  if IsMapFinished c then
    let id := GetUnassignedReduceTask c in
    if 0 <=? id then
      t ← slice_get (ReduceTaskList c) id;
      l ← slice_set (ReduceTaskList c) id (ReduceTask_SetPhase 0 t);
      Ret (set_reduces l c, mkReply false false "" 0 id (NMap c) (NReduce c) (rt_TaskNumber t), Some (false, id))
    else Ret (c, mkReply false false "" 0 id (NMap c) (NReduce c) 0, None)
  else
    let id := GetUnassignedMapTask c in
    if 0 <=? id then
      t ← slice_get (MapTaskList c) id;
      l ← slice_set (MapTaskList c) id (MapTask_SetPhase 0 t);
      Ret (set_maps l c, mkReply false true (mt_FileName t) id 0 (NMap c) (NReduce c) (mt_TaskNumber t),
           Some (true, id))
    else Ret (c, mkReply false true "" id 0 (NMap c) (NReduce c) 0, None).

(** [MapTaskChecker] and [ReduceTaskChecker], first half: whether the task is
    given up. *)
Definition reset (isMap : bool) (id : Z) (c : Coordinator) : outcome (Coordinator * bool) :=
  if isMap then
    t ← slice_get (MapTaskList c) id;
    if mt_Phase t =? 1 then Ret (c, false) else
    l ← slice_set (MapTaskList c) id (MapTask_SetPhase (-1) t); Ret (set_maps l c, true)
  else
    t ← slice_get (ReduceTaskList c) id;
    if rt_Phase t =? 1 then Ret (c, false) else
    l ← slice_set (ReduceTaskList c) id (ReduceTask_SetPhase (-1) t); Ret (set_reduces l c, true).

(** Second half: [TaskNumber++]. *)
Definition bump (isMap : bool) (id : Z) (c : Coordinator) : outcome Coordinator :=
  if isMap then
    t ← slice_get (MapTaskList c) id;
    l ← slice_set (MapTaskList c) id (mkMapTask (mt_Phase t) (mt_FileName t) (mt_TaskNumber t + 1));
    Ret (set_maps l c)
  else
    t ← slice_get (ReduceTaskList c) id;
    l ← slice_set (ReduceTaskList c) id (mkReduceTask (rt_Phase t) (rt_TaskNumber t + 1));
    Ret (set_reduces l c).

(** [os.Rename] of one temporary file: it must exist. *)
Definition rename (key : bool * Z * Z) (fs : Files) : outcome Files :=
  match tmpFile fs !! key with
  | Some d => Ret (mkFiles (delete key (tmpFile fs)) (<[key := d]> (finalFile fs)))
  | None => Fatal
  end.

(** The files of a task: one per reduce task, or the output. *)
Definition nFiles (nReduce : Z) (isMap : bool) : Z := if isMap then nReduce else 1.

(** The program's main loop calls it; a phase 1 is never left, so that a scan of the
    slice that finds every task finished is as good as a look at one moment. *)
Definition Done (c : Coordinator) : bool := forallb (λ t, rt_Phase t =? 1) (ReduceTaskList c).

(** *** [RPCHandler] without [AskForTask]

    A report holds the mutex of its task from its first line to its last, which keeps
    out the checkers and the other reports of that task and nobody else.  Its first
    section compares the task numbers: whether the report counts. *)
Definition reportCurrent (args : Args) (c : Coordinator) : outcome bool :=
  if a_IsMap args then
    t ← slice_get (MapTaskList c) (a_MapTaskId args); Ret (a_TaskNumber args =? mt_TaskNumber t)
  else
    t ← slice_get (ReduceTaskList c) (a_ReduceTaskId args); Ret (a_TaskNumber args =? rt_TaskNumber t).

(** [SetPhase(1)]. *)
Definition finishTask (isMap : bool) (id : Z) (c : Coordinator) : outcome Coordinator :=
  if isMap then
    t ← slice_get (MapTaskList c) id; l ← slice_set (MapTaskList c) id (MapTask_SetPhase 1 t); Ret (set_maps l c)
  else
    t ← slice_get (ReduceTaskList c) id; l ← slice_set (ReduceTaskList c) id (ReduceTask_SetPhase 1 t);
    Ret (set_reduces l c).

(** The phases a scan goes through. *)
Definition phases (isMap : bool) (c : Coordinator) : list Z :=
  if isMap then mt_Phase <$> MapTaskList c else rt_Phase <$> ReduceTaskList c.

Definition setFlag (flag : bool * bool) (c : Coordinator) : Coordinator :=
  if flag.1 then mkCoordinator (NMap c) (NReduce c) flag.2 (IsFinished c) (MapTaskList c) (ReduceTaskList c)
  else mkCoordinator (NMap c) (NReduce c) (IsMapFinished c) flag.2 (MapTaskList c) (ReduceTaskList c).

(** Where a report that counts is: at the file to be renamed next, at the task the scan
    looks at next, before the write of the flag. *)
Inductive Stage := Renaming (i : Z) | Scanning (i : Z) | Flagging (v : bool).

(** Its next section: the rename of one file, [SetPhase(1)] after the last, one turn of
    the scan, the write of the flag. [None]: the mutex is released. *)
Definition reportSection (isMap : bool) (id : Z) (st : Stage) (c : Coordinator) (fs : Files) :
    outcome (Coordinator * Files * option Stage) :=
  match st with
  | Renaming i =>
      if i <? nFiles (NReduce c) isMap then
        fs ← rename (isMap, id, i) fs; Ret (c, fs, Some (Renaming (i + 1)))
      else c ← finishTask isMap id c; Ret (c, fs, Some (Scanning 0))
  | Scanning i =>
      if i <? zlen (phases isMap c) then
        p ← slice_get (phases isMap c) i;
        Ret (c, fs, Some (if p =? 1 then Scanning (i + 1) else Flagging false))
      else Ret (c, fs, Some (Flagging true))
  | Flagging v => Ret (setFlag (isMap, v) c, fs, None)
  end.

Definition MakeCoordinator (files : list string) (nReduce : Z) : Coordinator :=
  mkCoordinator (zlen files) nReduce false false
    ((λ name, mkMapTask (-1) name 0) <$> files)
    (replicate (Z.to_nat nReduce) (mkReduceTask (-1) 0)).

(** *** What a worker reports *)

(** [innerArgs] of [Worker], from the reply it worked on. *)
Definition innerArgs (isMap : bool) (id number : Z) : Args :=
  if isMap then mkArgs false true id 0 number else mkArgs false false 0 id number.

(** ** Tasks of both kinds

    [taskAt c isMap id] is the phase and the number of a task. *)

Definition taskAt (c : Coordinator) (isMap : bool) (id : Z) : option (Z * Z) :=
  if (0 <=? id) then
    if isMap then (λ t, (mt_Phase t, mt_TaskNumber t)) <$> MapTaskList c !! Z.to_nat id
    else (λ t, (rt_Phase t, rt_TaskNumber t)) <$> ReduceTaskList c !! Z.to_nat id
  else None.

(** The coordinator with task [(isMap, id)] in phase [p] with number [n], and
    nothing else about the tasks changed. *)
Definition changes (c c' : Coordinator) (isMap : bool) (id p n : Z) : Prop :=
  NMap c' = NMap c ∧ NReduce c' = NReduce c ∧ IsMapFinished c' = IsMapFinished c ∧ IsFinished c' = IsFinished c ∧
  mt_FileName <$> MapTaskList c' = mt_FileName <$> MapTaskList c ∧
  length (ReduceTaskList c') = length (ReduceTaskList c) ∧
  taskAt c' isMap id = Some (p, n) ∧
  ∀ b i, (b, i) ≠ (isMap, id) → taskAt c' b i = taskAt c b i.

Lemma set_map_changes c id t t' :
  MapTaskList c !! Z.to_nat id = Some t → 0 <= id → mt_FileName t' = mt_FileName t →
  changes c (set_maps (<[Z.to_nat id := t']> (MapTaskList c)) c) true id (mt_Phase t') (mt_TaskNumber t').
Proof.
  intros Ht Hid Hname. pose proof (lookup_lt_Some _ _ _ Ht) as Hlt. unfold changes, taskAt. cbn.
  split_and!; try done.
  - rewrite list_fmap_insert, Hname. apply list_insert_id. by rewrite list_lookup_fmap, Ht.
  - rewrite (proj2 (Z.leb_le 0 id) Hid), list_lookup_insert_eq by done. done.
  - intros b i Hne. destruct (Z.leb_spec 0 i); [|done]. destruct b; [|done].
    rewrite list_lookup_insert_ne; [done|]. intros E. apply Hne. f_equal. lia.
Qed.

Lemma set_reduce_changes c id t t' :
  ReduceTaskList c !! Z.to_nat id = Some t → 0 <= id →
  changes c (set_reduces (<[Z.to_nat id := t']> (ReduceTaskList c)) c) false id (rt_Phase t') (rt_TaskNumber t').
Proof.
  intros Ht Hid. pose proof (lookup_lt_Some _ _ _ Ht) as Hlt. unfold changes, taskAt. cbn.
  split_and!; try done.
  - by rewrite length_insert.
  - rewrite (proj2 (Z.leb_le 0 id) Hid), list_lookup_insert_eq by done. done.
  - intros b i Hne. destruct (Z.leb_spec 0 i); [|done]. destruct b; [done|].
    rewrite list_lookup_insert_ne; [done|]. intros E. apply Hne. f_equal. lia.
Qed.

Lemma unassigned_spec i phases :
  0 <= i → let r := unassigned i phases in
  r = -1 ∧ (∀ p, p ∈ phases → p ≠ -1) ∨ i <= r ∧ phases !! Z.to_nat (r - i) = Some (-1).
Proof.
  revert i. induction phases as [|p phases IH]; intros i Hi; cbn [unassigned].
  { left. split; [done|]. intros p Hp. by apply not_elem_of_nil in Hp. }
  destruct (Z.eqb_spec p (-1)) as [->|Hp].
  - right. split; [lia|]. by rewrite Z.sub_diag.
  - destruct (IH (i + 1)) as [[-> Hall]|[Hle Hl]]; [lia|left|right].
    + split; [done|]. intros q [->|Hq]%elem_of_cons; auto.
    + split; [lia|]. replace (Z.to_nat (unassigned (i + 1) phases - i))
        with (S (Z.to_nat (unassigned (i + 1) phases - (i + 1)))) by lia. done.
Qed.

(** A request for a task hands out a task that nobody has, with its current
    number, or nothing. *)
Lemma ask_spec c :
  ∃ c' reply ck, ask c = Ret (c', reply, ck) ∧
    match ck with
    | None => c' = c ∧ (r_IsFinished reply = true ∨ r_MapTaskId reply < 0 ∨ r_ReduceTaskId reply < 0)
    | Some (b, id) => ∃ n, taskAt c b id = Some (-1, n) ∧ changes c c' b id 0 n ∧ (b = false → IsMapFinished c = true) ∧
        r_IsFinished reply = false ∧ r_IsMap reply = b ∧ r_TaskNumber reply = n ∧
        (if b then r_MapTaskId reply else r_ReduceTaskId reply) = id ∧
        (b = true → (mt_FileName <$> MapTaskList c) !! Z.to_nat id = Some (r_MapFileName reply))
    end.
Proof.
  unfold ask. destruct (IsFinished c); [eexists _, _, _; split; [done|]; cbn; auto|].
  destruct (IsMapFinished c) eqn:Em.
  - pose proof (unassigned_spec 0 (rt_Phase <$> ReduceTaskList c) ltac:(lia)) as Hu.
    fold (GetUnassignedReduceTask c) in Hu. set (id := GetUnassignedReduceTask c) in *.
    destruct (Z.leb_spec 0 id) as [Hid|Hid]; [|eexists _, _, _; split; [done|]; cbn; auto].
    destruct Hu as [[Hu _]|[_ Hu]]; [lia|]. rewrite Z.sub_0_r, list_lookup_fmap in Hu.
    destruct (ReduceTaskList c !! Z.to_nat id) as [t|] eqn:Et; [|done]. cbn in Hu. injection Hu as Hp.
    rewrite (proj2 (slice_get_Ret _ id t)) by done. cbn [mbind outcome_bind].
    rewrite (proj2 (slice_set_Ret _ id (ReduceTask_SetPhase 0 t) (<[Z.to_nat id := ReduceTask_SetPhase 0 t]> (ReduceTaskList c))))
      by (apply lookup_lt_Some in Et; unfold zlen; split; [lia|done]).
    cbn [mbind outcome_bind]. eexists _, _, _. split; [done|]. cbn. exists (rt_TaskNumber t).
    split; [unfold taskAt; rewrite (proj2 (Z.leb_le 0 id) Hid), Et; cbn; by rewrite Hp|].
    split; [apply (set_reduce_changes c id t (ReduceTask_SetPhase 0 t) Et Hid)|]. by split_and!.
  - pose proof (unassigned_spec 0 (mt_Phase <$> MapTaskList c) ltac:(lia)) as Hu.
    fold (GetUnassignedMapTask c) in Hu. set (id := GetUnassignedMapTask c) in *.
    destruct (Z.leb_spec 0 id) as [Hid|Hid]; [|eexists _, _, _; split; [done|]; cbn; auto].
    destruct Hu as [[Hu _]|[_ Hu]]; [lia|]. rewrite Z.sub_0_r, list_lookup_fmap in Hu.
    destruct (MapTaskList c !! Z.to_nat id) as [t|] eqn:Et; [|done]. cbn in Hu. injection Hu as Hp.
    rewrite (proj2 (slice_get_Ret _ id t)) by done. cbn [mbind outcome_bind].
    rewrite (proj2 (slice_set_Ret _ id (MapTask_SetPhase 0 t) (<[Z.to_nat id := MapTask_SetPhase 0 t]> (MapTaskList c))))
      by (apply lookup_lt_Some in Et; unfold zlen; split; [lia|done]).
    cbn [mbind outcome_bind]. eexists _, _, _. split; [done|]. cbn. exists (mt_TaskNumber t).
    split; [unfold taskAt; rewrite (proj2 (Z.leb_le 0 id) Hid), Et; cbn; by rewrite Hp|].
    split; [by apply (set_map_changes c id t (MapTask_SetPhase 0 t) Et Hid)|]. split_and!; try done.
    by rewrite list_lookup_fmap, Et.
Qed.

(** Looking up a task, for the operations on one task. *)
Lemma taskAt_map c id p n :
  taskAt c true id = Some (p, n) →
  ∃ t, 0 <= id ∧ MapTaskList c !! Z.to_nat id = Some t ∧ slice_get (MapTaskList c) id = Ret t ∧
    mt_Phase t = p ∧ mt_TaskNumber t = n ∧
    ∀ t', slice_set (MapTaskList c) id t' = Ret (<[Z.to_nat id := t']> (MapTaskList c)).
Proof.
  unfold taskAt. destruct (Z.leb_spec 0 id) as [Hid|]; [|done]. intros H.
  destruct (MapTaskList c !! Z.to_nat id) as [t|] eqn:Et; [|done]. cbn in H. injection H as <- <-.
  exists t. split_and!; try done; [by apply slice_get_Ret|]. intros t'. apply slice_set_Ret.
  apply lookup_lt_Some in Et. unfold zlen. split; [lia|done].
Qed.

Lemma taskAt_reduce c id p n :
  taskAt c false id = Some (p, n) →
  ∃ t, 0 <= id ∧ ReduceTaskList c !! Z.to_nat id = Some t ∧ slice_get (ReduceTaskList c) id = Ret t ∧
    rt_Phase t = p ∧ rt_TaskNumber t = n ∧
    ∀ t', slice_set (ReduceTaskList c) id t' = Ret (<[Z.to_nat id := t']> (ReduceTaskList c)).
Proof.
  unfold taskAt. destruct (Z.leb_spec 0 id) as [Hid|]; [|done]. intros H.
  destruct (ReduceTaskList c !! Z.to_nat id) as [t|] eqn:Et; [|done]. cbn in H. injection H as <- <-.
  exists t. split_and!; try done; [by apply slice_get_Ret|]. intros t'. apply slice_set_Ret.
  apply lookup_lt_Some in Et. unfold zlen. split; [lia|done].
Qed.

Lemma reset_spec b id c p n :
  taskAt c b id = Some (p, n) →
  p = 1 ∧ reset b id c = Ret (c, false) ∨
  p ≠ 1 ∧ ∃ c', reset b id c = Ret (c', true) ∧ changes c c' b id (-1) n.
Proof.
  unfold reset. destruct b.
  - intros (t & Hid & Et & -> & Hp & <- & Hset)%taskAt_map. cbn [mbind outcome_bind]. rewrite Hp.
    destruct (Z.eqb_spec p 1); [by left|right]. split; [done|]. rewrite Hset. eexists. split; [done|].
    by apply (set_map_changes c id t (MapTask_SetPhase (-1) t) Et Hid).
  - intros (t & Hid & Et & -> & Hp & <- & Hset)%taskAt_reduce. cbn [mbind outcome_bind]. rewrite Hp.
    destruct (Z.eqb_spec p 1); [by left|right]. split; [done|]. rewrite Hset. eexists. split; [done|].
    apply (set_reduce_changes c id t (ReduceTask_SetPhase (-1) t) Et Hid).
Qed.

Lemma bump_spec b id c p n :
  taskAt c b id = Some (p, n) → ∃ c', bump b id c = Ret c' ∧ changes c c' b id p (n + 1).
Proof.
  unfold bump. destruct b.
  - intros (t & Hid & Et & -> & <- & <- & Hset)%taskAt_map. cbn [mbind outcome_bind]. rewrite Hset. eexists.
    split; [done|]. by apply (set_map_changes c id t (mkMapTask (mt_Phase t) (mt_FileName t) (mt_TaskNumber t + 1))).
  - intros (t & Hid & Et & -> & <- & <- & Hset)%taskAt_reduce. cbn [mbind outcome_bind]. rewrite Hset. eexists.
    split; [done|]. by apply (set_reduce_changes c id t (mkReduceTask (rt_Phase t) (rt_TaskNumber t + 1))).
Qed.

Definition allFinished (c : Coordinator) (isMap : bool) : Prop :=
  ∀ id p n, taskAt c isMap id = Some (p, n) → p = 1.

(** The tasks below [i] are finished. *)
Definition finishedBelow (c : Coordinator) (isMap : bool) (i : Z) : Prop :=
  ∀ id p n, id < i → taskAt c isMap id = Some (p, n) → p = 1.

Lemma phases_at c b id p n : taskAt c b id = Some (p, n) → 0 <= id ∧ phases b c !! Z.to_nat id = Some p.
Proof.
  unfold phases. destruct b; [intros (t & Hid & Et & _ & <- & _)%taskAt_map|intros (t & Hid & Et & _ & <- & _)%taskAt_reduce];
    (split; [done|]); by rewrite list_lookup_fmap, Et.
Qed.

Lemma finished_all c b : finishedBelow c b (zlen (phases b c)) ↔ allFinished c b.
Proof.
  split; [|by intros H id p n _; apply H]. intros H id p n Ht. apply (H id p n); [|done].
  apply phases_at in Ht as [Hid Hp%lookup_lt_Some]. unfold zlen. lia.
Qed.

Lemma Done_scan c : Done c = true → allFinished c false.
Proof.
  unfold Done. intros H id p n. unfold taskAt. destruct (0 <=? id); [|done]. intros Hl.
  destruct (ReduceTaskList c !! Z.to_nat id) as [t|] eqn:Et; [|done]. cbn in Hl. injection Hl as <- <-.
  rewrite forallb_forall in H. apply Z.eqb_eq, H, list_elem_of_In. by eapply list_elem_of_lookup_2.
Qed.

Lemma reportCurrent_spec b id k c p n :
  taskAt c b id = Some (p, n) → reportCurrent (innerArgs b id k) c = Ret (k =? n).
Proof.
  unfold reportCurrent, innerArgs. destruct b; cbn [a_IsMap a_MapTaskId a_ReduceTaskId a_TaskNumber].
  - intros (t & _ & _ & -> & _ & <- & _)%taskAt_map. done.
  - intros (t & _ & _ & -> & _ & <- & _)%taskAt_reduce. done.
Qed.

Lemma finishTask_spec b id c p n :
  taskAt c b id = Some (p, n) → ∃ c', finishTask b id c = Ret c' ∧ changes c c' b id 1 n.
Proof.
  unfold finishTask. destruct b.
  - intros (t & Hid & Et & -> & _ & <- & Hset)%taskAt_map. cbn [mbind outcome_bind]. rewrite Hset. eexists.
    split; [done|]. by apply (set_map_changes c id t (MapTask_SetPhase 1 t) Et Hid).
  - intros (t & Hid & Et & -> & _ & <- & Hset)%taskAt_reduce. cbn [mbind outcome_bind]. rewrite Hset. eexists.
    split; [done|]. by apply (set_reduce_changes c id t (ReduceTask_SetPhase 1 t) Et Hid).
Qed.

(** A turn of the scan. *)
Lemma scan_spec b id c fs i :
  0 <= i → finishedBelow c b i →
  ∃ st, reportSection b id (Scanning i) c fs = Ret (c, fs, Some st) ∧
    match st with
    | Renaming _ => False
    | Scanning j => 0 <= j ∧ finishedBelow c b j
    | Flagging v => v = true → allFinished c b
    end.
Proof.
  intros Hi Hb. cbn [reportSection]. destruct (Z.ltb_spec i (zlen (phases b c))) as [Hlt|Hge].
  - destruct (phases b c !! Z.to_nat i) as [q|] eqn:Eq; [|apply lookup_ge_None in Eq; unfold zlen in Hlt; lia].
    rewrite (proj2 (slice_get_Ret _ i q)) by done. cbn [mbind outcome_bind]. eexists. split; [done|].
    destruct (Z.eqb_spec q 1) as [->|]; [|done]. split; [lia|]. intros j p n Hj Ht.
    destruct (decide (j = i)) as [->|]; [|apply (Hb j p n); [lia|done]].
    apply phases_at in Ht as [_ Ht]. congruence.
  - eexists. split; [done|]. intros _ id' p n Ht. apply (Hb id' p n); [|done].
    apply phases_at in Ht as [_ Ht%lookup_lt_Some]. unfold zlen in Hge. lia.
Qed.
