(* ===== verification/MrSystem.v ===== *)
(** * MrSystem: a MapReduce job

    Any number of workers ([Worker] of [src/src/mr/worker.go]) around one
    coordinator.  A worker that was given a task is an [Attempt]; a reduce task reads its
    files one after the other, both create their temporary files one after the other,
    fill them, and report.  A worker may stop at any moment ([s_crash]), be given up by a
    checker at any moment, and come back at any moment after that.  A report whose number
    is current is a [Handler], which holds the mutex of its task; its sections (one rename,
    [SetPhase], one turn of the scan, the flag) interleave with everything that needs no
    lock or another task's.

    Map workers write JSON and reduce workers read it, so that what is read back has its
    strings made valid UTF-8 ([jsonPair]).  Files are written by name: in a benign run no
    other file takes the name between the creation of a file and its writes.

    [mr_equals_sequential]: when the coordinator says that the job is done, the output
    files hold what [src/src/main/mrsequential.go] computes, as long as a worker
    that was given up writes no more files ([benign]), [reducef] does not depend on the
    order of its values and the keys and values are valid UTF-8.  [MrExamples] shows
    what happens otherwise, and how the job can hang.  [mr_report_total]: no section
    of a report fails. *)

From S2P Require Import Prelude MrWorker MrCoordinator.
Local Open Scope Z_scope.

(** [at_pairs] are the pairs of the [at_read] files a reduce task has read;
    [at_open]: file number [at_written] is created and not yet filled. *)
Record Attempt := mkAttempt {
  at_isMap : bool;
  at_id : Z;
  at_num : Z;
  at_name : string;
  at_read : Z;
  at_pairs : list KeyValue;
  at_written : Z;
  at_open : bool;
}.

(** A report that counts and holds its task's mutex. *)
Record Handler := mkHandler { h_isMap : bool; h_id : Z; h_num : Z; h_stage : Stage }.

Record Sys := mkSys {
  co : Coordinator;
  fs : Files;
  attempts : list Attempt;
  reports : list (bool * Z * Z);
  checkers : list (bool * Z);
  (** tasks whose checker is between its two halves *)
  busy : list (bool * Z);
  handlers : list Handler;
}.

(** The tasks whose mutex is held. *)
Definition htask (h : Handler) : bool * Z := (h_isMap h, h_id h).
Definition locked (s : Sys) : list (bool * Z) := busy s ++ (htask <$> handlers s).

Definition set_files (written : Z) (open : bool) (a : Attempt) : Attempt :=
  mkAttempt (at_isMap a) (at_id a) (at_num a) (at_name a) (at_read a) (at_pairs a) written open.
Definition addPairs (l : list KeyValue) (a : Attempt) : Attempt :=
  mkAttempt (at_isMap a) (at_id a) (at_num a) (at_name a) (at_read a + 1) (at_pairs a ++ l) (at_written a) (at_open a).
Definition set_stage (st : Stage) (h : Handler) : Handler := mkHandler (h_isMap h) (h_id h) (h_num h) st.

Section job.
Context (mapf : string → string → list KeyValue) (reducef : string → list string → string) {GS : GoSort}.
Context (inputs : gmap string string).

(** The pairs in "mr-m-r": a file that is missing counts as empty. *)
Definition readFile (s : Sys) (m r : Z) : list KeyValue :=
  match finalFile (fs s) !! (true, m, r) with Some (KVs l) => l | _ => [] end.

(** What an attempt puts into its next file; [None] when it cannot (the
    input is missing, the reduce task has not read its files). *)
Definition content (s : Sys) (a : Attempt) : option FileData :=
  if at_isMap a then
    text ← inputs !! at_name a;
    middle ← returned (middleResult (NReduce (co s)) (mapf (at_name a) text));
    l ← middle !! Z.to_nat (at_written a);
    Some (KVs (jsonPair <$> l))
  else if at_read a =? NMap (co s) then Some (Lines (reduceAll reducef (sortByKey (at_pairs a)))) else None.

Definition emptyData (b : bool) : FileData := if b then KVs [] else Lines [].

Definition writeTmp (a : Attempt) (d : FileData) (f : Files) : Files :=
  mkFiles (<[(at_isMap a, at_id a, at_written a) := d]> (tmpFile f)) (finalFile f).

Definition set_attempts (l : list Attempt) (s : Sys) : Sys :=
  mkSys (co s) (fs s) l (reports s) (checkers s) (busy s) (handlers s).

(** The label of a step is the attempt that writes, if any. *)
Inductive sstep (s : Sys) : option Attempt → Sys → Prop :=
  | s_ask c' reply b id :
      ask (co s) = Ret (c', reply, Some (b, id)) →
      sstep s None (mkSys c' (fs s)
        (mkAttempt b id (r_TaskNumber reply) (r_MapFileName reply) 0 [] 0 false :: attempts s)
        (reports s) ((b, id) :: checkers s) (busy s) (handlers s))
  | s_crash l1 a l2 :
      attempts s = l1 ++ a :: l2 → sstep s None (set_attempts (l1 ++ l2) s)
  | s_read l1 a l2 :
      attempts s = l1 ++ a :: l2 → at_isMap a = false → at_read a < NMap (co s) →
      sstep s None (set_attempts (l1 ++ addPairs (readFile s (at_read a) (at_id a)) a :: l2) s)
  | s_open l1 a l2 d :
      attempts s = l1 ++ a :: l2 → at_open a = false → at_written a < nFiles (NReduce (co s)) (at_isMap a) →
      content s a = Some d →
      sstep s (Some a) (mkSys (co s) (writeTmp a (emptyData (at_isMap a)) (fs s))
        (l1 ++ set_files (at_written a) true a :: l2) (reports s) (checkers s) (busy s) (handlers s))
  | s_fill l1 a l2 d :
      attempts s = l1 ++ a :: l2 → at_open a = true → content s a = Some d →
      sstep s (Some a) (mkSys (co s) (writeTmp a d (fs s))
        (l1 ++ set_files (at_written a + 1) false a :: l2) (reports s) (checkers s) (busy s) (handlers s))
  | s_send l1 a l2 :
      attempts s = l1 ++ a :: l2 → at_open a = false → at_written a = nFiles (NReduce (co s)) (at_isMap a) →
      sstep s None (mkSys (co s) (fs s) (l1 ++ l2) ((at_isMap a, at_id a, at_num a) :: reports s)
        (checkers s) (busy s) (handlers s))
  | s_report r1 b id n r2 g :
      reports s = r1 ++ (b, id, n) :: r2 → (b, id) ∉ locked s → reportCurrent (innerArgs b id n) (co s) = Ret g →
      sstep s None (mkSys (co s) (fs s) (attempts s) (r1 ++ r2) (checkers s) (busy s)
        (if g : bool then mkHandler b id n (Renaming 0) :: handlers s else handlers s))
  | s_section h1 h h2 c' f' st :
      handlers s = h1 ++ h :: h2 →
      reportSection (h_isMap h) (h_id h) (h_stage h) (co s) (fs s) = Ret (c', f', st) →
      sstep s None (mkSys c' f' (attempts s) (reports s) (checkers s) (busy s)
        (h1 ++ option_list ((λ st, set_stage st h) <$> st) ++ h2))
  | s_reset k1 b id k2 c' g :
      checkers s = k1 ++ (b, id) :: k2 → (b, id) ∉ locked s → reset b id (co s) = Ret (c', g) →
      sstep s None (mkSys c' (fs s) (attempts s) (reports s) (k1 ++ k2)
        (if g : bool then (b, id) :: busy s else busy s) (handlers s))
  | s_bump b1 b id b2 c' :
      busy s = b1 ++ (b, id) :: b2 → bump b id (co s) = Ret c' →
      sstep s None (mkSys c' (fs s) (attempts s) (reports s) (checkers s) (b1 ++ b2) (handlers s)).

(** A worker writes only while its task number is the current one. *)
Definition benign (l : option Attempt) (s : Sys) : Prop :=
  match l with
  | Some a => ∃ p, taskAt (co s) (at_isMap a) (at_id a) = Some (p, at_num a)
  | None => True
  end.

Definition initSys (files : list string) (nReduce : Z) : Sys :=
  mkSys (MakeCoordinator files nReduce) (mkFiles ∅ ∅) [] [] [] [] [].

Inductive sreach (files : list string) (nReduce : Z) : Sys → Prop :=
  | sr_init : sreach files nReduce (initSys files nReduce)
  | sr_step s l s' : sreach files nReduce s → benign l s → sstep s l s' → sreach files nReduce s'.

(** ** The invariant *)

Context (files : list string) (nReduce : Z) (Hn : 0 < nReduce).

Definition mapOut (m : Z) : list KeyValue :=
  match files !! Z.to_nat m with
  | Some name => match inputs !! name with Some text => mapf name text | None => [] end
  | None => []
  end.

(** What the files of the tasks must hold. *)
Definition pairsOf (m r : Z) : list KeyValue := jsonPair <$> bucketFor nReduce r (mapOut m).
Definition expected (b : bool) (id i : Z) : FileData :=
  if b then KVs (pairsOf id i)
  else Lines (reduceAll reducef (sortByKey (seqZ 0 (zlen files) ≫= λ m, pairsOf m id))).

(** A token is the right to finish a task: an attempt has it, then its report, then the
    report's handler until the task is finished. *)
Definition tokenOf (a : Attempt) : bool * Z * Z := (at_isMap a, at_id a, at_num a).
Definition htoken (h : Handler) : list (bool * Z * Z) :=
  match h_stage h with Renaming _ => [(h_isMap h, h_id h, h_num h)] | _ => [] end.
Definition tokens (s : Sys) : list (bool * Z * Z) := (tokenOf <$> attempts s) ++ reports s ++ (handlers s ≫= htoken).

Definition filesDone (f : gmap (bool * Z * Z) FileData) (b : bool) (id upto : Z) : Prop :=
  ∀ i, 0 <= i < upto → f !! (b, id, i) = Some (expected b id i).

Definition attemptOk (s : Sys) (a : Attempt) : Prop :=
  0 <= at_written a ∧ (at_open a = true → at_written a < nFiles nReduce (at_isMap a)) ∧
  at_written a <= nFiles nReduce (at_isMap a) ∧
  if at_isMap a then files !! Z.to_nat (at_id a) = Some (at_name a)
  else allFinished (co s) true ∧ 0 <= at_read a ∧ at_pairs a = seqZ 0 (at_read a) ≫= λ m, pairsOf m (at_id a).

Definition handlerOk (s : Sys) (h : Handler) : Prop :=
  match h_stage h with
  | Renaming i =>
      0 <= i <= nFiles nReduce (h_isMap h) ∧
      (∃ p, taskAt (co s) (h_isMap h) (h_id h) = Some (p, h_num h)) ∧
      filesDone (finalFile (fs s)) (h_isMap h) (h_id h) i ∧
      ∀ j, i <= j < nFiles nReduce (h_isMap h) →
        tmpFile (fs s) !! (h_isMap h, h_id h, j) = Some (expected (h_isMap h) (h_id h) j)
  | Scanning i => 0 <= i ∧ finishedBelow (co s) (h_isMap h) i
  | Flagging v => v = true → allFinished (co s) (h_isMap h)
  end.

Record sinv (s : Sys) : Prop := {
  si_nmap : NMap (co s) = zlen files;
  si_nreduce : NReduce (co s) = nReduce;
  si_names : mt_FileName <$> MapTaskList (co s) = files;
  si_reduces : zlen (ReduceTaskList (co s)) = nReduce;
  si_tok : ∀ b id n, (b, id, n) ∈ tokens s → ∃ p m, taskAt (co s) b id = Some (p, m) ∧ n <= m ∧
    ((b, id) ∉ busy s → p ≠ 0 → n < m);
  si_uniq : ∀ b id p m, taskAt (co s) b id = Some (p, m) → (b, id) ∉ busy s →
    (length (filter (λ x, x = (b, id, m)) (tokens s)) <= 1)%nat;
  si_locked : NoDup (locked s);
  si_busy : ∀ b id, (b, id) ∈ busy s → ∃ p m, taskAt (co s) b id = Some (p, m) ∧ p ≠ 1;
  si_att : ∀ a, a ∈ attempts s → attemptOk s a;
  si_written : ∀ a p, a ∈ attempts s → taskAt (co s) (at_isMap a) (at_id a) = Some (p, at_num a) →
    (at_isMap a, at_id a) ∉ busy s → filesDone (tmpFile (fs s)) (at_isMap a) (at_id a) (at_written a);
  si_reported : ∀ b id n p, (b, id, n) ∈ reports s → taskAt (co s) b id = Some (p, n) → (b, id) ∉ busy s →
    filesDone (tmpFile (fs s)) b id (nFiles nReduce b);
  si_hand : ∀ h, h ∈ handlers s → handlerOk s h;
  si_final : ∀ b id m, taskAt (co s) b id = Some (1, m) → filesDone (finalFile (fs s)) b id (nFiles nReduce b);
  si_flag : IsMapFinished (co s) = true → allFinished (co s) true;
}.

Implicit Types s : Sys.

Lemma changes_at c c' b id p n b' id' :
  changes c c' b id p n →
  taskAt c' b' id' = if decide ((b', id') = (b, id)) then Some (p, n) else taskAt c b' id'.
Proof. intros (_ & _ & _ & _ & _ & _ & H1 & H2). case_decide as E; [by injection E as -> ->|by apply H2]. Qed.

(** No task is lost, and a finished one stays finished. *)
Definition keeps (c c' : Coordinator) : Prop :=
  ∀ b id p' n', taskAt c' b id = Some (p', n') → ∃ p n, taskAt c b id = Some (p, n) ∧ (p = 1 → p' = 1).

Lemma changes_keeps c c' b id p n q m :
  changes c c' b id p n → taskAt c b id = Some (q, m) → (q = 1 → p = 1) → keeps c c'.
Proof.
  intros Hch Ht Hq b' id' p' n'. rewrite (changes_at _ _ _ _ _ _ _ _ Hch). case_decide as E.
  - injection E as -> ->. intros [= <- _]. by exists q, m.
  - intros H. by exists p', n'.
Qed.

Lemma keeps_finished c c' b : keeps c c' → allFinished c b → allFinished c' b.
Proof. intros Hk Hall id p' n' (p & n & Ht & Hp)%Hk. by eapply Hp, Hall. Qed.

Lemma keeps_below c c' b i : keeps c c' → finishedBelow c b i → finishedBelow c' b i.
Proof. intros Hk Hall id p' n' Hid (p & n & Ht & Hp)%Hk. by eapply Hp, Hall. Qed.

Lemma handlerOk_mono s s' h :
  keeps (co s) (co s') →
  (∀ p n, taskAt (co s) (h_isMap h) (h_id h) = Some (p, n) → ∃ p', taskAt (co s') (h_isMap h) (h_id h) = Some (p', n)) →
  (∀ i, tmpFile (fs s') !! (h_isMap h, h_id h, i) = tmpFile (fs s) !! (h_isMap h, h_id h, i) ∧
    finalFile (fs s') !! (h_isMap h, h_id h, i) = finalFile (fs s) !! (h_isMap h, h_id h, i)) →
  handlerOk s h → handlerOk s' h.
Proof.
  intros Hk Ht Hf. unfold handlerOk. destruct (h_stage h) as [i|i|v].
  - intros (Hi & [p Hp] & Hd & Hj). split; [done|]. split; [by eapply Ht|]. split.
    + intros j Hj'. rewrite (proj2 (Hf j)). by apply Hd.
    + intros j Hj'. rewrite (proj1 (Hf j)). by apply Hj.
  - intros [Hi Hb]. split; [done|]. by eapply keeps_below.
  - intros Hv Ev. by eapply keeps_finished, Hv.
Qed.

Lemma uniq_rest {A} `{EqDecision A} (x : A) l rest :
  l ≡ₚ x :: rest → (length (filter (λ y, y = x) l) <= 1)%nat → x ∉ rest.
Proof.
  intros Hl Hlen Hin. rewrite Hl, filter_cons_True in Hlen by done. cbn in Hlen.
  assert (x ∈ filter (λ y, y = x) rest) as Hx by (by apply list_elem_of_filter).
  destruct (filter (λ y, y = x) rest); [by apply not_elem_of_nil in Hx|cbn in Hlen; lia].
Qed.

(** The handler of a report keeps the checkers of its task out. *)
Lemma handler_free s h : sinv s → h ∈ handlers s → htask h ∉ busy s.
Proof.
  intros Hs Hh Hb. pose proof (si_locked _ Hs) as (_ & H & _)%NoDup_app. apply (H _ Hb). by apply list_elem_of_fmap_2.
Qed.

(** The current attempt at a task is the only one, and has not reported. *)
Lemma attempt_unique s l1 a l2 p :
  sinv s → attempts s = l1 ++ a :: l2 → taskAt (co s) (at_isMap a) (at_id a) = Some (p, at_num a) →
  (at_isMap a, at_id a) ∉ busy s →
  (∀ x, x ∈ l1 ++ l2 → tokenOf x ≠ tokenOf a) ∧ (tokenOf a ∉ reports s) ∧ (tokenOf a ∉ (handlers s ≫= htoken)).
Proof.
  intros Hs Ha Ht Hb. pose proof (si_uniq _ Hs _ _ _ _ Ht Hb) as Hu.
  assert (tokenOf a ∉ (tokenOf <$> l1 ++ l2) ++ reports s ++ (handlers s ≫= htoken)) as Hno.
  { apply (uniq_rest _ (tokens s)); [|done]. unfold tokens. rewrite Ha, !fmap_app, fmap_cons.
    rewrite <- !app_assoc, <- app_comm_cons. symmetry. apply Permutation_middle. }
  rewrite !elem_of_app in Hno. split; [|tauto]. intros x Hx E. apply Hno. left. rewrite <- E.
  by apply list_elem_of_fmap_2.
Qed.

(** *** A worker writes a file *)
Lemma sinv_write s l1 a l2 a' d :
  sinv s → attempts s = l1 ++ a :: l2 → benign (Some a) s → tokenOf a' = tokenOf a → attemptOk s a' →
  (filesDone (tmpFile (fs s)) (at_isMap a) (at_id a) (at_written a) →
   filesDone (tmpFile (writeTmp a d (fs s))) (at_isMap a) (at_id a) (at_written a')) →
  sinv (mkSys (co s) (writeTmp a d (fs s)) (l1 ++ a' :: l2) (reports s) (checkers s) (busy s) (handlers s)).
Proof.
  intros Hs Ha [p Hp] Htok Hok Hdone. pose proof Htok as [= Hb Hid Hnum].
  assert (∀ b id i, (b, id) ≠ (at_isMap a, at_id a) →
    tmpFile (writeTmp a d (fs s)) !! (b, id, i) = tmpFile (fs s) !! (b, id, i)) as Hother.
  { intros b id i Hne. cbn. rewrite lookup_insert_ne; [done|]. congruence. }
  assert (∀ x, x ∈ l1 ++ a' :: l2 → x = a' ∨ x ∈ l1 ++ l2) as Hmem.
  { intros x. rewrite !elem_of_app, elem_of_cons. tauto. }
  assert (∀ x, x ∈ l1 ++ l2 → x ∈ attempts s) as Hsub.
  { intros x. rewrite Ha, !elem_of_app, elem_of_cons. tauto. }
  assert (tokens (mkSys (co s) (writeTmp a d (fs s)) (l1 ++ a' :: l2) (reports s) (checkers s) (busy s) (handlers s))
    = tokens s) as Htk.
  { unfold tokens. cbn. rewrite Ha, !fmap_app, !fmap_cons. by rewrite Htok. }
  pose proof (λ Hnb, attempt_unique s l1 a l2 p Hs Ha Hp Hnb) as Hu.
  pose proof Hs as [S1 S2 S3 S4 S5 S6 S7 S7' S8 S9 S10 SH S11 S12].
  constructor; cbn [co busy handlers fs reports attempts]; try done.
  - rewrite Htk. exact S5.
  - rewrite Htk. exact S6.
  - intros x [->|Hx]%Hmem; [exact Hok|]. exact (S8 x (Hsub x Hx)).
  - intros x q [->|Hx]%Hmem Hq Hnb.
    + rewrite Hb, Hid in *. apply Hdone. apply (S9 a p); [|done|done]. rewrite Ha. apply elem_of_app. right. by left.
    + destruct (decide ((at_isMap x, at_id x) = (at_isMap a, at_id a))) as [E|E].
      * destruct Hu as [Hu _]; [by rewrite <- E|].
        destruct (Hu x Hx). unfold tokenOf. injection E as E1 E2. rewrite E1, E2, Hp in *. congruence.
      * intros i Hi. rewrite Hother by done. by apply (S9 x q (Hsub x Hx)).
  - intros b id n q Hr Hq Hnb i Hi. destruct (decide ((b, id) = (at_isMap a, at_id a))) as [E|E].
    + destruct Hu as (_ & Hu & _); [by rewrite <- E|].
      destruct Hu. unfold tokenOf. injection E as -> ->. rewrite Hp in Hq. by injection Hq as <- <-.
    + rewrite Hother by done. by apply (S10 b id n q).
  - intros h Hh. pose proof (SH h Hh) as Hh'. destruct (h_stage h) as [i|i|v] eqn:Est;
      unfold handlerOk in *; rewrite Est in *; [|done|done].
    destruct Hh' as (Hi & [q Hq] & Hd & Hj). split; [done|]. split; [by exists q|]. split; [done|].
    intros j Hj'. rewrite Hother; [by apply Hj|]. intros E. pose proof (handler_free s h Hs Hh) as Hf.
    unfold htask in Hf. rewrite E in Hf. destruct Hu as (_ & _ & Hu); [done|]. apply Hu, list_elem_of_bind.
    exists h. split; [|done]. unfold htoken. rewrite Est. injection E as E1 E2. rewrite E1, E2, Hp in *.
    apply list_elem_of_singleton. unfold tokenOf. congruence.
Qed.

Lemma content_expected s a d :
  sinv s → attemptOk s a → at_written a < nFiles nReduce (at_isMap a) → content s a = Some d →
  d = expected (at_isMap a) (at_id a) (at_written a).
Proof using Hn.
  intros Hs (H0 & _ & _ & Hok) Hw. unfold content, expected. destruct (at_isMap a).
  - rewrite (si_nreduce _ Hs). intros H. apply bind_Some in H as (text & Ht & H).
    destruct (middleResult_spec nReduce (mapf (at_name a) text) Hn) as (middle & E & _ & Hm). rewrite E in H.
    cbn in H. cbn in Hw. rewrite (Hm (at_written a)) in H by lia. injection H as <-.
    unfold pairsOf, mapOut. by rewrite Hok, Ht.
  - destruct Hok as (_ & _ & ->). rewrite (si_nmap _ Hs).
    destruct (Z.eqb_spec (at_read a) (zlen files)) as [->|]; [|done]. by intros [= <-].
Qed.

Lemma attemptOk_mono s s' a :
  (allFinished (co s) true → allFinished (co s') true) → attemptOk s a → attemptOk s' a.
Proof. intros Hall (H1 & H2 & H3 & H4). unfold attemptOk. destruct (at_isMap a); [done|]. intuition. Qed.

(** *** Attempts and reports that disappear *)
Lemma filter_drop {A} (P : A → Prop) `{!∀ x, Decision (P x)} l1 x l2 :
  (length (filter P (l1 ++ l2)) <= length (filter P (l1 ++ x :: l2)))%nat.
Proof. rewrite !filter_app, filter_cons, !length_app. case_decide; cbn; lia. Qed.

Lemma sinv_sub s atts reps ks :
  sinv s → (∀ a, a ∈ atts → a ∈ attempts s) → (∀ r, r ∈ reps → r ∈ reports s) →
  (∀ x, (length (filter (λ y, y = x) ((tokenOf <$> atts) ++ reps ++ (handlers s ≫= htoken)))
         <= length (filter (λ y, y = x) (tokens s)))%nat) →
  sinv (mkSys (co s) (fs s) atts reps ks (busy s) (handlers s)).
Proof.
  intros [S1 S2 S3 S4 S5 S6 S7 S7' S8 S9 S10 SH S11 S12] Ha Hr Hlen. constructor; cbn; try done.
  - intros b id n Hin. apply S5. unfold tokens in *. cbn in Hin. rewrite !elem_of_app in *.
    destruct Hin as [Hin|[Hin|Hin]]; [left|by right; left; apply Hr|by right; right].
    apply list_elem_of_fmap in Hin as (a & -> & Hin). by apply list_elem_of_fmap_2, Ha.
  - intros b id p m Ht Hb. etrans; [apply Hlen|]. by apply (S6 b id p m).
  - intros a Hin. apply (S8 a (Ha a Hin)).
  - intros a p Hin. by apply S9, Ha.
  - intros b id n p Hin. by apply S10, Hr.
Qed.

(** *** Handing out a task *)
Lemma sinv_ask s c' reply b id :
  sinv s → ask (co s) = Ret (c', reply, Some (b, id)) →
  sinv (mkSys c' (fs s) (mkAttempt b id (r_TaskNumber reply) (r_MapFileName reply) 0 [] 0 false :: attempts s)
          (reports s) ((b, id) :: checkers s) (busy s) (handlers s)).
Proof using Hn.
  intros Hs Hask. destruct (ask_spec (co s)) as (x & y & z & E & Hz). rewrite Hask in E. injection E as <- <- <-.
  destruct Hz as (n & Ht & Hch & Hfin & _ & _ & -> & _ & Hname).
  pose proof Hs as [S1 S2 S3 S4 S5 S6 S7 S7' S8 S9 S10 SH S11 S12].
  pose proof (λ b' id', changes_at _ _ _ _ _ _ b' id' Hch) as Hat.
  assert (∀ k, (b, id, k) ∈ tokens s → k <= n ∧ ((b, id) ∉ busy s → k < n)) as Hold.
  { intros k Hk. destruct (S5 b id k Hk) as (p & m & Hp & Hle & Hlt). rewrite Ht in Hp. injection Hp as <- <-. auto. }
  pose proof (changes_keeps _ _ _ _ _ _ _ _ Hch Ht ltac:(done)) as Hkeep.
  pose proof (keeps_finished _ _ true Hkeep) as Hstay.
  destruct Hch as (C1 & C2 & C3 & C4 & C5 & C6 & _). constructor; cbn [co fs attempts reports busy handlers].
  - by rewrite C1.
  - by rewrite C2.
  - by rewrite C5.
  - unfold zlen in *. by rewrite C6.
  - intros b' id' k [[= -> -> ->]|Hin]%elem_of_cons; rewrite Hat.
    + rewrite decide_True by done. by exists 0, n.
    + destruct (S5 b' id' k Hin) as (p & m & Hp & Hle & Hlt). case_decide as E; [|by exists p, m].
      injection E as -> ->. exists 0, n. split; [done|]. split; [by apply Hold|done].
  - intros b' id' p m. rewrite Hat. change (tokens _) with ((b, id, n) :: tokens s). case_decide as E.
    + injection E as -> ->. intros [= <- <-] Hb. rewrite filter_cons_True by done.
      assert (filter (λ x, x = (b, id, n)) (tokens s) = []) as ->; [|done].
      apply elem_of_nil_inv. intros y [-> Hy]%list_elem_of_filter. destruct (Hold n Hy) as [_ Hlt].
      specialize (Hlt Hb). lia.
    + intros Hp Hb. rewrite filter_cons_False; [by apply (S6 b' id' p m)|]. congruence.
  - exact S7.
  - intros b' id' Hb. rewrite Hat. case_decide; [by exists 0, n|by apply S7'].
  - intros a [->|Ha]%elem_of_cons; [|by apply (attemptOk_mono s), S8].
    unfold attemptOk. cbn. split; [lia|]. split; [done|]. split; [unfold nFiles; destruct b; lia|].
    destruct b; [rewrite <- S3; by apply Hname|]. split; [|done]. apply Hstay, S12. by apply Hfin.
  - intros a p [->|Ha]%elem_of_cons; [intros _ _ i Hi; cbn in Hi; lia|]. rewrite Hat. case_decide as E; [|by apply S9].
    intros [= <- Hnum] Hb. exfalso. destruct (Hold n) as [_ Hlt]; [|rewrite E in Hb; specialize (Hlt Hb); lia].
    unfold tokens. apply elem_of_app. left. apply list_elem_of_fmap. exists a. split; [|done].
    unfold tokenOf. congruence.
  - intros b' id' k p Hr. rewrite Hat. case_decide as E; [|by apply S10]. injection E as -> ->.
    intros [= <- ->] Hb. exfalso. destruct (Hold k) as [_ Hlt]; [unfold tokens; rewrite !elem_of_app; tauto|].
    specialize (Hlt Hb). lia.
  - intros h Hh. apply (handlerOk_mono s); [done| |done|by apply SH]. cbn. intros p m Hp. rewrite Hat. case_decide as E; [|by exists p].
    injection E as E1 E2. rewrite E1, E2, Ht in Hp. injection Hp as _ <-. by exists 0.
  - intros b' id' m. rewrite Hat. case_decide; [done|]. apply S11.
  - rewrite C3. auto.
Qed.

(** *** Reports *)
Lemma reports_perm s r1 x r2 :
  reports s = r1 ++ x :: r2 → tokens s ≡ₚ x :: (tokenOf <$> attempts s) ++ (r1 ++ r2) ++ (handlers s ≫= htoken).
Proof.
  intros Hr. unfold tokens. rewrite Hr, <- !app_assoc, <- app_comm_cons, !(app_assoc (tokenOf <$> _)).
  symmetry. apply Permutation_middle.
Qed.

(** A report of the current attempt finds its files in place; others change
    nothing. *)
Lemma sinv_report s r1 b id n r2 g :
  sinv s → reports s = r1 ++ (b, id, n) :: r2 → (b, id) ∉ locked s → reportCurrent (innerArgs b id n) (co s) = Ret g →
  sinv (mkSys (co s) (fs s) (attempts s) (r1 ++ r2) (checkers s) (busy s)
          (if g : bool then mkHandler b id n (Renaming 0) :: handlers s else handlers s)).
Proof using Hn.
  intros Hs Hr Hb Hrep. assert ((b, id, n) ∈ reports s) as Hin by (rewrite Hr; apply elem_of_app; right; by left).
  pose proof (reports_perm s r1 _ r2 Hr) as Hperm.
  assert (∀ x, x ∈ r1 ++ r2 → x ∈ reports s) as Hsub by (intros x; rewrite Hr, !elem_of_app, elem_of_cons; tauto).
  pose proof Hs as [S1 S2 S3 S4 S5 S6 S7 S7' S8 S9 S10 SH S11 S12].
  destruct (S5 b id n) as (p & m & Ht & Hle & _); [rewrite Hperm; by left|].
  rewrite (reportCurrent_spec b id n (co s) p m Ht) in Hrep. injection Hrep as <-.
  destruct (Z.eqb_spec n m) as [<-|Hne].
  2: { apply sinv_sub; [done|done|done|]. intros x. rewrite Hperm. rewrite filter_cons. case_decide; cbn; lia. }
  assert (tokens (mkSys (co s) (fs s) (attempts s) (r1 ++ r2) (checkers s) (busy s)
    (mkHandler b id n (Renaming 0) :: handlers s)) ≡ₚ tokens s) as Hperm'.
  { rewrite Hperm. unfold tokens. cbn. rewrite (app_assoc (tokenOf <$> _)), <- Permutation_middle. by rewrite <- app_assoc. }
  unfold locked in Hb. rewrite elem_of_app in Hb. constructor; cbn [co fs attempts reports busy handlers]; try done.
  - intros b' id' k Hk. apply S5. by rewrite <- Hperm'.
  - intros b' id' q k. rewrite Hperm'. apply S6.
  - unfold locked in *. cbn. rewrite <- Permutation_middle. constructor; [by rewrite elem_of_app|done].
  - intros b' id' k q Hk. by apply S10, Hsub.
  - intros h [->|Hh]%elem_of_cons; [|by apply SH]. split; [cbn; unfold nFiles; destruct b; lia|].
    split; [by exists p|]. split; [intros i Hi; lia|]. cbn. apply (S10 b id n p Hin Ht). tauto.
Qed.

(** The handler that is renaming has the task's only token. *)
Lemma renaming_unique s h1 h h2 i :
  sinv s → handlers s = h1 ++ h :: h2 → h_stage h = Renaming i →
  (∃ p, taskAt (co s) (h_isMap h) (h_id h) = Some (p, h_num h) ∧ p = 0) ∧
  ((h_isMap h, h_id h, h_num h) ∉ (tokenOf <$> attempts s) ++ reports s ++ ((h1 ++ h2) ≫= htoken)) ∧
  tokens s ≡ₚ (h_isMap h, h_id h, h_num h) :: (tokenOf <$> attempts s) ++ reports s ++ ((h1 ++ h2) ≫= htoken).
Proof.
  intros Hs Hh Est. assert (h ∈ handlers s) as Hin by (rewrite Hh; apply elem_of_app; right; by left).
  pose proof (si_hand _ Hs h Hin) as Hok. unfold handlerOk in Hok. rewrite Est in Hok. destruct Hok as (_ & [p Hp] & _).
  pose proof (handler_free s h Hs Hin) as Hf.
  assert (tokens s ≡ₚ (h_isMap h, h_id h, h_num h) :: (tokenOf <$> attempts s) ++ reports s ++ ((h1 ++ h2) ≫= htoken)) as Hperm.
  { unfold tokens. rewrite Hh, !bind_app, bind_cons. unfold htoken at 2. rewrite Est.
    rewrite !(app_assoc (tokenOf <$> _)), !(app_assoc (_ ++ reports s)). symmetry. apply Permutation_middle. }
  split; [|split; [|done]].
  - exists p. split; [done|]. destruct (si_tok _ Hs (h_isMap h) (h_id h) (h_num h)) as (q & m & Hq & _ & Hlt);
      [rewrite Hperm; by left|].
    rewrite Hp in Hq. injection Hq as <- <-. destruct (decide (p = 0)) as [|Hne]; [done|]. specialize (Hlt Hf Hne). lia.
  - eapply uniq_rest; [exact Hperm|]. by eapply (si_uniq _ Hs).
Qed.

Lemma other_handler s h1 h h2 x :
  sinv s → handlers s = h1 ++ h :: h2 → x ∈ h1 ++ h2 → htask x ≠ htask h.
Proof.
  intros Hs Hh Hx E. pose proof (si_locked _ Hs) as Hnd. unfold locked in Hnd. apply NoDup_app in Hnd as (_ & _ & Hnd).
  rewrite Hh, fmap_app, fmap_cons, <- Permutation_middle, <- fmap_app in Hnd. apply NoDup_cons in Hnd as [Hnd _].
  apply Hnd. rewrite <- E. by apply list_elem_of_fmap_2.
Qed.

(** One file gets its final name. *)
Lemma sinv_rename s h1 h h2 i f' :
  sinv s → handlers s = h1 ++ h :: h2 → h_stage h = Renaming i → i < nFiles nReduce (h_isMap h) →
  rename (h_isMap h, h_id h, i) (fs s) = Ret f' →
  sinv (mkSys (co s) f' (attempts s) (reports s) (checkers s) (busy s) (h1 ++ set_stage (Renaming (i + 1)) h :: h2)).
Proof.
  intros Hs Hh Est Hi Hren. assert (h ∈ handlers s) as Hin by (rewrite Hh; apply elem_of_app; right; by left).
  destruct (renaming_unique s h1 h h2 i Hs Hh Est) as ((p & Hp & ->) & Hno & _).
  pose proof (λ x, other_handler s h1 h h2 x Hs Hh) as Hne.
  pose proof Hs as [S1 S2 S3 S4 S5 S6 S7 S7' S8 S9 S10 SH S11 S12].
  pose proof (SH h Hin) as Hok. unfold handlerOk in Hok. rewrite Est in Hok. destruct Hok as (H0 & Ht & Hd & Hj).
  unfold rename in Hren. rewrite (Hj i) in Hren by lia. injection Hren as <-. set (f' := mkFiles _ _).
  assert (∀ x j, x ≠ (h_isMap h, h_id h) → tmpFile f' !! (x, j) = tmpFile (fs s) !! (x, j) ∧
    finalFile f' !! (x, j) = finalFile (fs s) !! (x, j)) as Hoth.
  { intros x j Hx. cbn. by rewrite lookup_delete_ne, lookup_insert_ne by congruence. }
  assert (tokens (mkSys (co s) f' (attempts s) (reports s) (checkers s) (busy s)
    (h1 ++ set_stage (Renaming (i + 1)) h :: h2)) = tokens s) as Htk.
  { unfold tokens. cbn [attempts reports handlers]. rewrite Hh, !bind_app, !bind_cons. unfold htoken at 2 5. by rewrite Est. }
  rewrite !elem_of_app in Hno. constructor; cbn [co fs attempts reports busy handlers]; try done.
  - rewrite Htk. exact S5.
  - rewrite Htk. exact S6.
  - unfold locked in *. cbn. rewrite Hh, !fmap_app, !fmap_cons in S7. by rewrite !fmap_app, !fmap_cons.
  - intros a q Ha Hq Hnb. destruct (decide ((at_isMap a, at_id a) = (h_isMap h, h_id h))) as [E|E].
    + destruct Hno. left. apply list_elem_of_fmap. exists a. split; [|done]. unfold tokenOf. injection E as E1 E2.
      rewrite E1, E2, Hp in *. congruence.
    + intros j Hj'. rewrite (proj1 (Hoth _ _ E)). by apply (S9 a q).
  - intros b id n q Hr Hq Hnb. destruct (decide ((b, id) = (h_isMap h, h_id h))) as [E|E].
    + destruct Hno. right. left. injection E as -> ->. rewrite Hp in Hq. by injection Hq as _ <-.
    + intros j Hj'. rewrite (proj1 (Hoth _ _ E)). by apply (S10 b id n q).
  - intros x. rewrite elem_of_app, elem_of_cons. intros [Hx|[->|Hx]].
    1,3: assert (x ∈ h1 ++ h2) as Hx' by (rewrite elem_of_app; tauto);
      apply (handlerOk_mono s); [by intros b id q n ?; exists q, n|by intros q n ?; exists q|
        intros j; by apply (Hoth (htask x)), Hne|apply SH; rewrite Hh, elem_of_app, elem_of_cons; tauto].
    unfold handlerOk. cbn. split; [lia|]. split; [done|]. split.
    + intros j Hj'. cbn. destruct (decide (j = i)) as [->|]; [by rewrite lookup_insert_eq|].
      rewrite lookup_insert_ne by congruence. apply Hd. lia.
    + intros j Hj'. rewrite lookup_delete_ne by (intros [= ?]; lia). apply Hj. lia.
  - intros b id m Hm. destruct (decide ((b, id) = (h_isMap h, h_id h))) as [E|E]; [injection E as -> ->; congruence|].
    intros j Hj'. rewrite (proj2 (Hoth _ _ E)). by apply (S11 b id m).
Qed.

(** The task is finished when all its files have their final names. *)
Lemma sinv_finish s h1 h h2 c' :
  sinv s → handlers s = h1 ++ h :: h2 → h_stage h = Renaming (nFiles nReduce (h_isMap h)) →
  finishTask (h_isMap h) (h_id h) (co s) = Ret c' →
  sinv (mkSys c' (fs s) (attempts s) (reports s) (checkers s) (busy s) (h1 ++ set_stage (Scanning 0) h :: h2)).
Proof.
  intros Hs Hh Est Hfin. assert (h ∈ handlers s) as Hin by (rewrite Hh; apply elem_of_app; right; by left).
  destruct (renaming_unique s h1 h h2 _ Hs Hh Est) as ((p & Ht & ->) & Hgone & Hperm).
  pose proof (handler_free s h Hs Hin) as Hfree. unfold htask in Hfree.
  destruct (finishTask_spec _ _ _ _ _ Ht) as (c & E & Hch). rewrite Hfin in E. injection E as ->.
  pose proof Hs as [S1 S2 S3 S4 S5 S6 S7 S7' S8 S9 S10 SH S11 S12].
  pose proof (λ b' id', changes_at _ _ _ _ _ _ b' id' Hch) as Hat.
  pose proof (changes_keeps _ _ _ _ _ _ _ _ Hch Ht ltac:(done)) as Hkeep.
  pose proof (keeps_finished _ _ true Hkeep) as Hstay.
  pose proof (SH h Hin) as Hok. unfold handlerOk in Hok. rewrite Est in Hok. destruct Hok as (_ & _ & Hd & _).
  set (rest := (tokenOf <$> attempts s) ++ reports s ++ ((h1 ++ h2) ≫= htoken)) in *.
  assert (tokens (mkSys c (fs s) (attempts s) (reports s) (checkers s) (busy s) (h1 ++ set_stage (Scanning 0) h :: h2))
    = rest) as Htk by (unfold tokens, rest; cbn; by rewrite !bind_app, bind_cons).
  assert (∀ x, x ∈ rest → x ∈ tokens s) as Htok by (intros x Hx; rewrite Hperm; by right).
  destruct Hch as (C1 & C2 & C3 & C4 & C5 & C6 & _). constructor; rewrite ?Htk; cbn [co fs attempts reports busy handlers].
  - by rewrite C1.
  - by rewrite C2.
  - by rewrite C5.
  - unfold zlen in *. by rewrite C6.
  - intros b' id' k Hk. destruct (S5 b' id' k (Htok _ Hk)) as (q & j & Hq & Hle & Hlt). rewrite Hat.
    case_decide as E; [|by exists q, j]. injection E as -> ->. rewrite Ht in Hq. injection Hq as <- <-.
    exists 1, (h_num h). split; [done|]. split; [done|]. intros _ _. destruct (decide (k = h_num h)) as [->|]; [done|lia].
  - intros b' id' q j. rewrite Hat. case_decide as E.
    + injection E as -> ->. intros [= <- <-] _. assert (filter (λ x, x = (h_isMap h, h_id h, h_num h)) rest = []) as ->;
        [|cbn; lia].
      apply elem_of_nil_inv. by intros y [-> Hy]%list_elem_of_filter.
    + intros Hq Hnb. pose proof (S6 b' id' q j Hq Hnb) as Hlen. rewrite Hperm, filter_cons in Hlen.
      case_decide; cbn in Hlen; lia.
  - unfold locked in *. cbn. rewrite Hh, !fmap_app, !fmap_cons in S7. by rewrite !fmap_app, !fmap_cons.
  - intros b' id' Hx. rewrite Hat. case_decide as E; [by rewrite E in Hx|by apply S7'].
  - intros a Ha. by apply (attemptOk_mono s), S8.
  - intros a q Ha. rewrite Hat. case_decide as E; [|by apply S9].
    intros [= <- Hnum] _. destruct Hgone. apply elem_of_app. left. apply list_elem_of_fmap. exists a.
    split; [|done]. unfold tokenOf. congruence.
  - intros b' id' k q Hk. rewrite Hat. case_decide as E; [|by apply S10].
    injection E as -> ->. intros [= <- <-] _. destruct Hgone. unfold rest. rewrite !elem_of_app. tauto.
  - intros x. rewrite elem_of_app, elem_of_cons. intros [Hx|[->|Hx]].
    1,3: assert (x ∈ h1 ++ h2) as Hx' by (rewrite elem_of_app; tauto);
      apply (handlerOk_mono s); [done| |done|apply SH; rewrite Hh, elem_of_app, elem_of_cons; tauto];
      intros q n Hq; exists q; cbn [co]; rewrite Hat, decide_False by (by apply (other_handler s h1 h h2)); exact Hq.
    split; [lia|]. intros id' q n Hneg Hx%phases_at. lia.
  - intros b' id' j. rewrite Hat. case_decide as E; [by injection E as -> ->|]. apply S11.
  - rewrite C3. auto.
Qed.

(** The scan and the flag. *)
Lemma sinv_stage s h1 h h2 hs :
  sinv s → handlers s = h1 ++ h :: h2 → htoken h = [] →
  (∀ x, x ∈ hs → htask x = htask h ∧ htoken x = [] ∧ handlerOk s x) → (length hs <= 1)%nat →
  sinv (mkSys (co s) (fs s) (attempts s) (reports s) (checkers s) (busy s) (h1 ++ hs ++ h2)).
Proof.
  intros [S1 S2 S3 S4 S5 S6 S7 S7' S8 S9 S10 SH S11 S12] Hh Hnone Hhs Hlen.
  assert (hs ≫= htoken = []) as Ehs.
  { clear Hlen. induction hs as [|x hs IH]; [done|]. rewrite bind_cons, (proj1 (proj2 (Hhs x ltac:(by left)))), IH; [done|].
    intros y Hy. apply Hhs. by right. }
  assert (tokens (mkSys (co s) (fs s) (attempts s) (reports s) (checkers s) (busy s) (h1 ++ hs ++ h2)) = tokens s) as Htk.
  { unfold tokens. cbn. rewrite Hh, !bind_app, bind_cons, Ehs, Hnone. done. }
  constructor; rewrite ?Htk; cbn [co fs attempts reports busy handlers]; try done.
  - unfold locked in *. cbn. rewrite Hh, fmap_app, fmap_cons in S7. rewrite !fmap_app.
    destruct hs as [|x [|y hs]]; [|by rewrite fmap_cons, (proj1 (Hhs x ltac:(by left)))|cbn in Hlen; lia].
    cbn. rewrite app_assoc in *. rewrite <- Permutation_middle in S7. by apply NoDup_cons in S7 as [_ S7].
  - intros x. rewrite !elem_of_app. intros [Hx|[Hx|Hx]]; [|by apply Hhs|];
      apply SH; rewrite Hh, elem_of_app, elem_of_cons; tauto.
Qed.

Lemma sinv_flag s b v :
  sinv s → (v = true → allFinished (co s) b) →
  sinv (mkSys (setFlag (b, v) (co s)) (fs s) (attempts s) (reports s) (checkers s) (busy s) (handlers s)).
Proof.
  intros [S1 S2 S3 S4 S5 S6 S7 S7' S8 S9 S10 SH S11 S12] Hv.
  assert (∀ b' id, taskAt (setFlag (b, v) (co s)) b' id = taskAt (co s) b' id) as Hat by (by destruct b).
  assert (keeps (co s) (setFlag (b, v) (co s))) as Hkeep by (intros b' id p n; rewrite Hat; intros ?; by exists p, n).
  pose proof (keeps_finished _ _ true Hkeep) as Hall.
  constructor; cbn [co fs attempts reports busy handlers].
  1-4: by destruct b.
  - intros b' id n Hin. rewrite Hat. by apply S5.
  - intros b' id p m. rewrite Hat. apply S6.
  - exact S7.
  - intros b' id. rewrite Hat. apply S7'.
  - intros a Ha. apply (attemptOk_mono s); [apply Hall|by apply S8].
  - intros a p Ha. rewrite Hat. by apply S9.
  - intros b' id n p Hin. rewrite Hat. by apply S10.
  - intros h Hh. apply (handlerOk_mono s); [done| |done|by apply SH]. intros p n. cbn. rewrite Hat. by exists p.
  - intros b' id m. rewrite Hat. apply S11.
  - intros H. apply Hall. destruct b; [by apply Hv|by apply S12].
Qed.

Lemma reset_exists b id c r : reset b id c = Ret r → ∃ p n, taskAt c b id = Some (p, n).
Proof.
  unfold reset, taskAt. intros H. destruct b; apply bind_Ret in H as (t & [Hid Ht]%slice_get_Ret & _);
    rewrite (proj2 (Z.leb_le 0 id) Hid), Ht; by eexists _, _.
Qed.

Lemma sinv_reset s k1 b id k2 c' g :
  sinv s → checkers s = k1 ++ (b, id) :: k2 → (b, id) ∉ locked s → reset b id (co s) = Ret (c', g) →
  sinv (mkSys c' (fs s) (attempts s) (reports s) (k1 ++ k2) (if g : bool then (b, id) :: busy s else busy s) (handlers s)).
Proof.
  intros Hs _ Hb Hreset. destruct (reset_exists _ _ _ _ Hreset) as (p & n & Ht).
  destruct (reset_spec b id (co s) p n Ht) as [[-> E]|(Hp & c & E & Hch)];
    rewrite Hreset in E; injection E as -> ->.
  { by apply (sinv_sub s (attempts s) (reports s) (k1 ++ k2)). }
  pose proof Hs as [S1 S2 S3 S4 S5 S6 S7 S7' S8 S9 S10 SH S11 S12].
  pose proof (λ b' id', changes_at _ _ _ _ _ _ b' id' Hch) as Hat.
  pose proof (changes_keeps _ _ _ _ _ _ _ _ Hch Ht ltac:(done)) as Hkeep.
  pose proof (keeps_finished _ _ true Hkeep) as Hstay.
  assert (∀ x, x ∉ (b, id) :: busy s → x ≠ (b, id) ∧ x ∉ busy s) as Hnb by (intros x; apply not_elem_of_cons).
  destruct Hch as (C1 & C2 & C3 & C4 & C5 & C6 & _). constructor; cbn [co fs attempts reports busy handlers].
  - by rewrite C1.
  - by rewrite C2.
  - by rewrite C5.
  - unfold zlen in *. by rewrite C6.
  - intros b' id' k Hin. destruct (S5 b' id' k Hin) as (q & j & Hq & Hle & Hlt). rewrite Hat. case_decide as E.
    + injection E as -> ->. rewrite Ht in Hq. injection Hq as <- <-. exists (-1), n. split; [done|]. split; [done|].
      intros [? _]%Hnb. done.
    + exists q, j. split; [done|]. split; [done|]. intros [_ ?]%Hnb. auto.
  - intros b' id' q j. rewrite Hat. change (tokens _) with (tokens s). case_decide as E; intros Hq [Hne Hnb']%Hnb; [done|].
    by apply (S6 b' id' q j).
  - by constructor.
  - intros b' id' [Hx|Hin]%elem_of_cons; rewrite Hat.
    + rewrite decide_True by done. by exists (-1), n.
    + case_decide; [by exists (-1), n|by apply S7'].
  - intros a Ha. by apply (attemptOk_mono s), S8.
  - intros a q Ha. rewrite Hat. case_decide as E; intros Hq [Hne Hnb']%Hnb; [done|]. by apply (S9 a q).
  - intros b' id' k q Hin. rewrite Hat. case_decide as E; intros Hq [Hne Hnb']%Hnb; [done|]. by apply (S10 b' id' k q).
  - intros h Hh. apply (handlerOk_mono s); [done| |done|by apply SH]. cbn. intros q m Hq. rewrite Hat.
    case_decide as E; [|by exists q]. injection E as E1 E2. rewrite E1, E2, Ht in Hq. injection Hq as _ <-. by exists (-1).
  - intros b' id' j. rewrite Hat. case_decide; [done|]. apply S11.
  - rewrite C3. auto.
Qed.

Lemma sinv_bump s b1 b id b2 c' :
  sinv s → busy s = b1 ++ (b, id) :: b2 → bump b id (co s) = Ret c' →
  sinv (mkSys c' (fs s) (attempts s) (reports s) (checkers s) (b1 ++ b2) (handlers s)).
Proof.
  intros Hs Hbusy Hbump. pose proof Hs as [S1 S2 S3 S4 S5 S6 S7 S7' S8 S9 S10 SH S11 S12].
  assert ((b, id) ∈ busy s) as Hin by (rewrite Hbusy; apply elem_of_app; right; by left).
  destruct (S7' b id Hin) as (p & n & Ht & Hp). destruct (bump_spec b id (co s) p n Ht) as (c & E & Hch).
  rewrite Hbump in E. injection E as ->. pose proof (λ b' id', changes_at _ _ _ _ _ _ b' id' Hch) as Hat.
  pose proof (changes_keeps _ _ _ _ _ _ _ _ Hch Ht ltac:(done)) as Hkeep.
  pose proof (keeps_finished _ _ true Hkeep) as Hstay.
  assert (∀ k, (b, id, k) ∈ tokens s → k <= n) as Hold.
  { intros k Hk. destruct (S5 b id k Hk) as (q & j & Hq & Hle & _). rewrite Ht in Hq. by injection Hq as <- <-. }
  assert (∀ x, x ≠ (b, id) → x ∉ b1 ++ b2 → x ∉ busy s) as Hnb.
  { intros x Hx. rewrite Hbusy, !elem_of_app, elem_of_cons. tauto. }
  assert (∀ x, x ∈ b1 ++ b2 → x ∈ busy s) as Hsub by (intros x; rewrite Hbusy, !elem_of_app, elem_of_cons; tauto).
  destruct Hch as (C1 & C2 & C3 & C4 & C5 & C6 & _). constructor; cbn [co fs attempts reports busy handlers].
  - by rewrite C1.
  - by rewrite C2.
  - by rewrite C5.
  - unfold zlen in *. by rewrite C6.
  - intros b' id' k Hk. destruct (S5 b' id' k Hk) as (q & j & Hq & Hle & Hlt). rewrite Hat. case_decide as E.
    + injection E as -> ->. specialize (Hold k Hk). exists p, (n + 1). split; [done|]. split; [lia|]. intros _ _. lia.
    + exists q, j. split; [done|]. split; [done|]. intros Hx. apply Hlt. by apply Hnb.
  - intros b' id' q j. rewrite Hat. change (tokens _) with (tokens s). case_decide as E.
    + injection E as -> ->. intros [= <- <-] _. assert (filter (λ x, x = (b, id, n + 1)) (tokens s) = []) as ->; [|cbn; lia].
      apply elem_of_nil_inv. intros y [-> Hy]%list_elem_of_filter. specialize (Hold _ Hy). lia.
    + intros Hq Hx. apply (S6 b' id' q j Hq). by apply Hnb.
  - unfold locked in *. cbn. rewrite Hbusy, <- app_assoc, <- app_comm_cons, <- Permutation_middle in S7.
    apply NoDup_cons in S7 as [_ S7]. by rewrite <- app_assoc.
  - intros b' id' Hx. rewrite Hat. case_decide; [by exists p, (n + 1)|by apply S7', Hsub].
  - intros a Ha. by apply (attemptOk_mono s), S8.
  - intros a q Ha. rewrite Hat. case_decide as E; [|by intros Hq Hx; apply (S9 a q); [done|done|apply Hnb]].
    intros [= _ Hnum] _. exfalso. assert (at_num a <= n); [|lia]. apply Hold. unfold tokens. apply elem_of_app. left.
    apply list_elem_of_fmap. exists a. split; [|done]. unfold tokenOf. congruence.
  - intros b' id' k q Hk. rewrite Hat. case_decide as E; [|by intros Hq Hx; apply (S10 b' id' k q); [done|done|apply Hnb]].
    injection E as -> ->. intros [= _ <-] _. exfalso. assert (n + 1 <= n); [|lia]. apply Hold. unfold tokens.
    rewrite !elem_of_app. tauto.
  - intros h Hh. apply (handlerOk_mono s); [done| |done|by apply SH]. cbn. intros q m Hq. exists q.
    rewrite Hat, decide_False; [done|]. intros E. apply (handler_free s h Hs Hh). unfold htask. by rewrite E.
  - intros b' id' j. rewrite Hat. case_decide as E; [|apply S11]. intros [= -> _]. done.
  - rewrite C3. auto.
Qed.

(** *** Reads and the last step of a worker *)

(** An attempt that is replaced by one with the same token and files. *)
Lemma sinv_replace s l1 a l2 a' :
  sinv s → attempts s = l1 ++ a :: l2 → tokenOf a' = tokenOf a → at_written a' = at_written a → attemptOk s a' →
  sinv (set_attempts (l1 ++ a' :: l2) s).
Proof.
  intros [S1 S2 S3 S4 S5 S6 S7 S7' S8 S9 S10 SH S11 S12] Ha Htok Hw Hok. pose proof Htok as [= Hb Hid Hnum].
  assert (tokens (set_attempts (l1 ++ a' :: l2) s) = tokens s) as Htk.
  { unfold tokens. cbn. rewrite Ha, !fmap_app, !fmap_cons. by rewrite Htok. }
  assert (∀ x, x ∈ l1 ++ a' :: l2 → x = a' ∨ x ∈ attempts s) as Hmem.
  { intros x. rewrite Ha, !elem_of_app, !elem_of_cons. tauto. }
  constructor; cbn [co fs attempts reports busy handlers set_attempts]; try done.
  - rewrite Htk. exact S5.
  - rewrite Htk. exact S6.
  - intros x [->|Hx]%Hmem; [exact Hok|exact (S8 x Hx)].
  - intros x p [->|Hx]%Hmem; [|by apply S9]. rewrite Hb, Hid, Hnum, Hw. apply S9. rewrite Ha. apply elem_of_app.
    right. by left.
Qed.

Lemma readFile_expected s m r :
  sinv s → allFinished (co s) true → 0 <= m < zlen files → 0 <= r < nReduce → readFile s m r = pairsOf m r.
Proof.
  intros Hs Hall [H0 H1] Hr. unfold readFile. destruct (taskAt (co s) true m) as [[p n]|] eqn:Et.
  - rewrite (Hall m p n Et) in Et. by rewrite (si_final _ Hs true m n Et r Hr).
  - exfalso. unfold taskAt in Et. rewrite (proj2 (Z.leb_le 0 m) H0) in Et.
    apply fmap_None, lookup_ge_None in Et. rewrite <- (si_names _ Hs) in H1. unfold zlen in H1.
    rewrite length_fmap in H1. lia.
Qed.

Lemma taskAt_range s id p n : sinv s → taskAt (co s) false id = Some (p, n) → 0 <= id < nReduce.
Proof.
  intros Hs. unfold taskAt. destruct (Z.leb_spec 0 id); [|done]. intros H'.
  destruct (ReduceTaskList (co s) !! Z.to_nat id) eqn:E; [|done]. apply lookup_lt_Some in E.
  pose proof (si_reduces _ Hs) as Hl. unfold zlen in Hl. lia.
Qed.

(** One more file is read: the finished maps have left in it what they must. *)
Lemma sinv_read s l1 a l2 :
  sinv s → attempts s = l1 ++ a :: l2 → at_isMap a = false → at_read a < NMap (co s) →
  sinv (set_attempts (l1 ++ addPairs (readFile s (at_read a) (at_id a)) a :: l2) s).
Proof.
  intros Hs Ha Hm Hlt. assert (a ∈ attempts s) as Hin by (rewrite Ha; apply elem_of_app; right; by left).
  apply (sinv_replace s l1 a l2); [done..|]. destruct (si_att _ Hs a Hin) as (H1 & H2 & H3 & H4).
  unfold attemptOk. cbn. rewrite Hm in *. destruct H4 as (Hall & H0 & Hp). split_and!; try done; [lia|].
  destruct (si_tok _ Hs (at_isMap a) (at_id a) (at_num a)) as (p & m & Ht & _).
  { unfold tokens. apply elem_of_app. left. by apply (list_elem_of_fmap_2 tokenOf). }
  rewrite Hm in Ht. rewrite (si_nmap _ Hs) in Hlt.
  rewrite (readFile_expected s _ _ Hs Hall) by (by eapply taskAt_range || done).
  rewrite Hp, seqZ_app, bind_app by lia. f_equal. change (seqZ (0 + at_read a) 1) with [at_read a]. by rewrite bind_cons, app_nil_r.
Qed.

Lemma sinv_send s l1 a l2 :
  sinv s → attempts s = l1 ++ a :: l2 → at_written a = nFiles (NReduce (co s)) (at_isMap a) →
  sinv (mkSys (co s) (fs s) (l1 ++ l2) ((at_isMap a, at_id a, at_num a) :: reports s) (checkers s) (busy s) (handlers s)).
Proof.
  intros Hs Ha Hw. rewrite (si_nreduce _ Hs) in Hw. destruct Hs as [S1 S2 S3 S4 S5 S6 S7 S7' S8 S9 S10 SH S11 S12].
  assert (a ∈ attempts s) as Hina by (rewrite Ha; apply elem_of_app; right; by left).
  assert (∀ x, x ∈ l1 ++ l2 → x ∈ attempts s) as Hsub by (intros x; rewrite Ha, !elem_of_app, elem_of_cons; tauto).
  assert (tokens (mkSys (co s) (fs s) (l1 ++ l2) ((at_isMap a, at_id a, at_num a) :: reports s) (checkers s) (busy s)
    (handlers s)) ≡ₚ tokens s) as Hperm.
  { unfold tokens. cbn. rewrite Ha, !fmap_app, fmap_cons, <- !app_assoc, <- app_comm_cons.
    rewrite <- !Permutation_middle. done. }
  constructor; cbn [co fs attempts reports busy handlers]; try done.
  - intros b id n Hin. apply S5. by rewrite <- Hperm.
  - intros b id p m. rewrite Hperm. apply S6.
  - intros x Hx. exact (S8 x (Hsub x Hx)).
  - intros x p Hx. by apply S9, Hsub.
  - intros b id n p [[= -> -> ->]|Hin]%elem_of_cons; [|by apply S10]. rewrite <- Hw. by apply S9.
Qed.

(** *** Steps *)

(** A handler's next section goes through, and keeps the invariant. *)
Lemma sinv_section s h1 h h2 :
  sinv s → handlers s = h1 ++ h :: h2 →
  ∃ c' f' st, reportSection (h_isMap h) (h_id h) (h_stage h) (co s) (fs s) = Ret (c', f', st) ∧
    sinv (mkSys c' f' (attempts s) (reports s) (checkers s) (busy s)
            (h1 ++ option_list ((λ st, set_stage st h) <$> st) ++ h2)).
Proof.
  intros Hs Hh. assert (h ∈ handlers s) as Hin by (rewrite Hh; apply elem_of_app; right; by left).
  pose proof (si_hand _ Hs h Hin) as Hok. unfold handlerOk in Hok. destruct (h_stage h) as [i|i|v] eqn:Est.
  - destruct Hok as (Hi & [p Hp] & Hd & Hj). cbn [reportSection]. rewrite (si_nreduce _ Hs).
    destruct (Z.ltb_spec i (nFiles nReduce (h_isMap h))) as [Hlt|Hge].
    + destruct (rename (h_isMap h, h_id h, i) (fs s)) as [f'| | |] eqn:E;
        try (unfold rename in E; rewrite (Hj i) in E by lia; discriminate E).
      eexists _, _, _. split; [done|]. cbn. by apply (sinv_rename s h1 h h2 i).
    + destruct (finishTask_spec _ _ _ _ _ Hp) as (c' & E & _). rewrite E. eexists _, _, _. split; [done|]. cbn.
      apply (sinv_finish s h1 h h2); [done|done| |done]. rewrite Est. f_equal. lia.
  - destruct (scan_spec (h_isMap h) (h_id h) (co s) (fs s) i) as (st & E & Hst); [apply Hok..|].
    rewrite E. eexists _, _, _. split; [done|]. apply (sinv_stage s h1 h h2); [done|done| | |done].
    + unfold htoken. by rewrite Est.
    + intros x ->%list_elem_of_singleton. split; [done|]. unfold htoken, handlerOk. cbn. by destruct st.
  - cbn. eexists _, _, _. split; [done|]. cbn.
    apply (sinv_flag (mkSys (co s) (fs s) (attempts s) (reports s) (checkers s) (busy s) (h1 ++ h2))); [|done].
    apply (sinv_stage s h1 h h2 []); [done|done| |by intros x ?%not_elem_of_nil|cbn; lia]. unfold htoken. by rewrite Est.
Qed.

Lemma jobInv_step s l s' : sinv s → benign l s → sstep s l s' → sinv s'.
Proof using Hn.
  intros Hs Hb Hst. destruct Hst as [c' reply b id Hask|l1 a l2 Ha|l1 a l2 Ha Hm Hl|l1 a l2 d Ha Ho Hw Hd|l1 a l2 d Ha Ho Hd
    |l1 a l2 Ha Ho Hw|r1 b id n r2 g Hr Hbz Hrep|h1 h h2 c' f' st Hh Hsec|k1 b id k2 c' g Hk Hbz Hre|b1 b id b2 c' Hbz Hbu].
  - by apply sinv_ask.
  - apply (sinv_sub s (l1 ++ l2) (reports s) (checkers s) Hs).
    + intros x. rewrite Ha, !elem_of_app, elem_of_cons. tauto.
    + done.
    + intros x. unfold tokens. rewrite Ha, !fmap_app, fmap_cons, <- !app_assoc, <- app_comm_cons. apply filter_drop.
  - by apply sinv_read.
  - assert (a ∈ attempts s) as Hin by (rewrite Ha; apply elem_of_app; right; by left).
    rewrite (si_nreduce _ Hs) in Hw. destruct (si_att _ Hs a Hin) as (H1 & H2 & H3 & H4).
    apply sinv_write; [done|done|done|done| |].
    + unfold attemptOk. cbn. by split_and!.
    + intros Hdone i Hi. cbn in *. rewrite lookup_insert_ne; [by apply Hdone|]. intros [= <-]. lia.
  - assert (a ∈ attempts s) as Hin by (rewrite Ha; apply elem_of_app; right; by left).
    pose proof (si_att _ Hs a Hin) as Hok. pose proof Hok as (H1 & H2 & H3 & H4). specialize (H2 Ho).
    rewrite (content_expected s a d Hs Hok H2 Hd). apply sinv_write; [done|done|done|done| |].
    + unfold attemptOk. cbn. split_and!; try done; lia.
    + intros Hdone i Hi. cbn in *. destruct (decide (i = at_written a)) as [->|Hne].
      * by rewrite lookup_insert_eq.
      * rewrite lookup_insert_ne by congruence. apply Hdone. lia.
  - by apply sinv_send.
  - by eapply sinv_report.
  - destruct (sinv_section s h1 h h2 Hs Hh) as (c & f & st' & E & Hs'). rewrite Hsec in E. by injection E as <- <- <-.
  - by eapply sinv_reset.
  - by eapply sinv_bump.
Qed.

Lemma init_phase b id p n : taskAt (MakeCoordinator files nReduce) b id = Some (p, n) → p = -1.
Proof.
  unfold taskAt. destruct (0 <=? id); [|done]. destruct b; cbn.
  - rewrite list_lookup_fmap. destruct (files !! Z.to_nat id); [|done]. by intros [= <- _].
  - destruct (replicate _ _ !! Z.to_nat id) as [t|] eqn:E; [|done]. apply lookup_replicate in E as [-> _].
    by intros [= <- _].
Qed.

Lemma jobInv_init : sinv (initSys files nReduce).
Proof using Hn.
  assert (∀ (P : Prop) (x : bool * Z * Z), x ∈ [] → P) as Hnil by (intros P x Hx; by apply not_elem_of_nil in Hx).
  constructor; cbn [co fs attempts reports busy handlers initSys]; try done.
  - cbn. rewrite <- list_fmap_compose. apply list_fmap_id.
  - cbn. unfold zlen. rewrite length_replicate. lia.
  - intros b id n Hin. by apply not_elem_of_nil in Hin.
  - intros b id p m _ _. cbn. lia.
  - constructor.
  - intros b id Hin. by apply not_elem_of_nil in Hin.
  - intros a Hin. by apply not_elem_of_nil in Hin.
  - intros a p Hin. by apply not_elem_of_nil in Hin.
  - intros b id n p Hin. by apply not_elem_of_nil in Hin.
  - intros h Hin. by apply not_elem_of_nil in Hin.
  - intros b id m Ht%init_phase. done.
Qed.

Lemma sreach_inv s : sreach files nReduce s → sinv s.
Proof using Hn. induction 1 as [|s l s' _ IH Hb Hst]; [apply jobInv_init|by eapply jobInv_step]. Qed.

(** The lines of "mr-out-r". *)
Definition outLines (s : Sys) (r : Z) : list (string * string) :=
  match finalFile (fs s) !! (false, r, 0) with Some (Lines l) => l | _ => [] end.

Lemma done_lines s r :
  sreach files nReduce s → Done (co s) = true → 0 <= r < nReduce →
  outLines s r = reduceAll reducef (sortByKey (seqZ 0 (zlen files) ≫= λ m, pairsOf m r)).
Proof using Hn.
  intros Hs%sreach_inv Hd Hr. pose proof (Done_scan _ Hd) as Hall.
  destruct (taskAt (co s) false r) as [[p n]|] eqn:Et.
  - rewrite (Hall r p n Et) in Et. unfold outLines. by rewrite (si_final _ Hs false r n Et 0 ltac:(cbn; lia)).
  - exfalso. unfold taskAt in Et. rewrite (proj2 (Z.leb_le 0 r) ltac:(lia)) in Et.
    apply fmap_None, lookup_ge_None in Et. pose proof (si_reduces _ Hs) as Hl. unfold zlen in Hl. lia.
Qed.

Lemma bucketFor_bind r (f : Z → list KeyValue) ms :
  ms ≫= (λ m, bucketFor nReduce r (f m)) = bucketFor nReduce r (ms ≫= f).
Proof. induction ms as [|m ms IH]; [done|]. rewrite !bind_cons, IH. unfold bucketFor. by rewrite filter_app. Qed.

Lemma mapFiles_all l pre all :
  files = pre ++ l → mapFiles mapf inputs l = Ret all → seqZ (zlen pre) (zlen l) ≫= mapOut = all.
Proof.
  revert pre all. induction l as [|name l IH]; intros pre all Hf; cbn [mapFiles]; [by intros [= <-]|].
  destruct (inputs !! name) as [text|] eqn:Et; [|done]. cbn [mbind outcome_bind].
  destruct (mapFiles mapf inputs l) as [kvs| | |] eqn:E; try done. intros [= <-].
  rewrite zlen_cons, seqZ_cons by (pose proof (zlen_nonneg l); lia). rewrite bind_cons. f_equal.
  - unfold mapOut. rewrite Hf. unfold zlen. rewrite Nat2Z.id, lookup_app_r, Nat.sub_diag by lia. cbn. by rewrite Et.
  - rewrite <- (IH (pre ++ [name]) kvs); [|by rewrite <- app_assoc|done]. rewrite zlen_app.
    replace (zlen pre + zlen [name]) with (Z.succ (zlen pre)) by (unfold zlen; cbn; lia).
    by replace (Z.pred (zlen l + 1)) with (zlen l) by lia.
Qed.
End job.

(** Every key and value that [mapf] gives for an input is valid text. *)
Definition validOutput (mapf : string → string → list KeyValue) (inputs : gmap string string) (files : list string) : Prop :=
  ∀ f text, f ∈ files → inputs !! f = Some text → Forall validPair (mapf f text).

Lemma pairsOf_valid mapf inputs files nReduce m r :
  validOutput mapf inputs files → pairsOf mapf inputs files nReduce m r = bucketFor nReduce r (mapOut mapf inputs files m).
Proof.
  intros Hv. unfold pairsOf.
  assert (Forall validPair (bucketFor nReduce r (mapOut mapf inputs files m))) as Hall.
  { apply list.Forall_forall. intros kv [_ Hkv]%list_elem_of_filter. revert kv Hkv. rewrite <- list.Forall_forall.
    unfold mapOut. destruct (files !! Z.to_nat m) as [f|] eqn:Ef; [|done].
    destruct (inputs !! f) as [text|] eqn:Et; [|done]. apply Hv; [by eapply list_elem_of_lookup_2|done]. }
  induction Hall as [|[k v] l [Hk Hx] _ IH]; [done|]. rewrite fmap_cons, IH. f_equal. unfold jsonPair. by rewrite Hk, Hx.
Qed.

(** The output files of a finished job together hold the lines for all the pairs. *)
Lemma done_outputs mapf reducef (GS GS' : GoSort) inputs files nReduce s all :
  0 < nReduce → (∀ k, Proper ((≡ₚ) ==> (=)) (reducef k)) → validOutput mapf inputs files →
  @sreach mapf reducef GS inputs files nReduce s → Done (co s) = true → mapFiles mapf inputs files = Ret all →
  (seqZ 0 nReduce ≫= outLines s) ≡ₚ reduceAll reducef (@sortByKey GS' all).
Proof.
  intros Hn Hred Hv Hs Hd Em.
  rewrite <- (reduce_partition reducef Hred GS GS' nReduce all Hn).
  assert (∀ rs, (∀ r, r ∈ rs → 0 <= r < nReduce) →
    rs ≫= outLines s = rs ≫= λ r, reduceAll reducef (@sortByKey GS (bucketFor nReduce r all))) as Hrs.
  - induction rs as [|r rs IH]; intros Hr; [done|]. rewrite !bind_cons, IH by (intros x Hx; apply Hr; by right).
    f_equal. rewrite (done_lines mapf reducef inputs files nReduce Hn s r Hs Hd) by (apply Hr; by left). do 2 f_equal.
    rewrite (list_bind_ext _ (λ m, bucketFor nReduce r (mapOut mapf inputs files m)) _ (seqZ 0 (zlen files)));
      [|intros m; by apply pairsOf_valid|done].
    rewrite bucketFor_bind. f_equal. by apply (mapFiles_all mapf inputs files files [] all).
  - rewrite Hrs; [done|]. intros r Hr%elem_of_seqZ. lia.
Qed.

(** C15. When the coordinator says that the job is done, the output files together hold
    exactly the lines that the sequential program computes from the same inputs, in some
    order, whichever workers crashed, were given up or did a task twice, however the
    reports of the workers overlap, and whichever sorting functions they use.  The
    conditions: a worker that was given up creates and fills no more files (see
    [overdue_worker_loses_data]), [reducef] does not depend on the order of its values, the
    keys and values are valid UTF-8, as the JSON files change others (see
    [json_changes_keys]), and there is a reduce task. *)
Theorem mr_equals_sequential mapf reducef (GS GS' : GoSort) inputs files nReduce s out :
  0 < nReduce → (∀ k, Proper ((≡ₚ) ==> (=)) (reducef k)) → validOutput mapf inputs files →
  @sreach mapf reducef GS inputs files nReduce s → Done (co s) = true →
  @sequential mapf reducef GS' inputs files = Ret out →
  (seqZ 0 nReduce ≫= outLines s) ≡ₚ out.
Proof.
  intros Hn Hred Hv Hs Hd Hout. unfold sequential in Hout.
  destruct (mapFiles mapf inputs files) as [all| | |] eqn:Em; try done. injection Hout as <-.
  exact (done_outputs mapf reducef GS GS' inputs files nReduce s all Hn Hred Hv Hs Hd Em).
Qed.

(** A report never crashes the coordinator: it finds its task, and whatever else has
    happened since then, the files of its attempt are there to be renamed, one after the other. *)
Theorem mr_report_total mapf reducef (GS : GoSort) inputs files nReduce s :
  0 < nReduce → @sreach mapf reducef GS inputs files nReduce s →
  (∀ b id n, (b, id, n) ∈ reports s → ∃ g, reportCurrent (innerArgs b id n) (co s) = Ret g) ∧
  (∀ h, h ∈ handlers s → ∃ r, reportSection (h_isMap h) (h_id h) (h_stage h) (co s) (fs s) = Ret r).
Proof.
  intros Hn Hs%sreach_inv; [|done]. split.
  - intros b id n Hin. destruct (si_tok _ _ _ _ _ _ Hs b id n) as (p & m & Ht & _).
    { unfold tokens. rewrite !elem_of_app. tauto. }
    rewrite (reportCurrent_spec _ _ _ _ _ _ Ht). by eexists.
  - intros h Hin. apply list_elem_of_split in Hin as (h1 & h2 & Hh).
    destruct (sinv_section mapf reducef inputs files nReduce s h1 h h2 Hs Hh) as (c & f & st & E & _). by eexists.
Qed.
