(* ===== verification/MrApps.v ===== *)
(** * MrApps: the applications of MapReduce

    The [Map] and [Reduce] functions of [src/src/mrapps/].  [unicode.IsLetter], the order
    in which a map of words is visited, random numbers, process ids, clocks, the
    listing of the directory and [fmt.Sscanf] are parameters.

    [wc_job]: a finished word count has one line for every word, with the number of
    its occurrences.  [indexer_job]: a finished index has one line for every word,
    with the documents it is in.  [jobcount_counts]: [jobcount] reports how often [Map]
    was run.  The [Proper] instances say which [Reduce] functions do not
    depend on the order of their values, which is what a job needs to compute the same
    as the sequential program. *)

From stdpp Require Import pretty.
From S2P Require Import Prelude GoStrings MrWorker MrCoordinator MrSystem.
Local Open Scope Z_scope.

(** ** Words *)
Section words.
(** [unicode.IsLetter]. *)
Context (IsLetter : Z → bool).

(** [strings.FieldsFunc(contents, ff)]. *)
Definition wordsIn (contents : string) : list string := FieldsFunc (λ r, negb (IsLetter r)) contents.

(** *** wc.go *)

Definition wcMap (filename contents : string) : list KeyValue :=
  foldl (λ kva w, kva ++ [mkKeyValue w "1"]) [] (wordsIn contents).

(** *** indexer.go *)

(** [for w := range m]: every key once, in some order. *)
Class WordRange := {
  word_range : gmap string bool → list string;
  word_range_perm m : word_range m ≡ₚ (map_to_list m).*1;
}.

Definition indexerMap `{!WordRange} (document value : string) : list KeyValue :=
  let m := foldl (λ (m : gmap string bool) w, <[w := true]> m) ∅ (wordsIn value) in
  foldl (λ res w, res ++ [mkKeyValue w document]) [] (word_range m).
End words.

(** [strconv.Itoa(len(values))]. *)
Definition wcReduce (key : string) (values : list string) : string := pretty (zlen values).

Definition indexerReduce `{!StringSort} (key : string) (values : list string) : string :=
  pretty (zlen values) +:+ " " +:+ Join (sortStrings values) ",".

(** ** crash.go, nocrash.go, early_exit.go *)

(** [rr] is the random number below 1000; a delay has no other effect. *)
Definition maybeCrash (rr : Z) : outcome unit := if rr <? 330 then Fatal else Ret tt.

Definition nocrashMap (filename contents : string) : list KeyValue :=
  [mkKeyValue "a" filename; mkKeyValue "b" (pretty (Z.of_nat (String.length filename)));
   mkKeyValue "c" (pretty (Z.of_nat (String.length contents))); mkKeyValue "d" "xyzzy"].

(** The values sorted, also in crash.go and mtiming.go. *)
Definition nocrashReduce `{!StringSort} (key : string) (values : list string) : string := Join (sortStrings values) " ".

Definition crashMap (rr : Z) (filename contents : string) : outcome (list KeyValue) :=
  _ ← maybeCrash rr; Ret (nocrashMap filename contents).
Definition crashReduce `{!StringSort} (rr : Z) (key : string) (values : list string) : outcome string :=
  _ ← maybeCrash rr; Ret (nocrashReduce key values).

Definition earlyMap (filename contents : string) : list KeyValue := [mkKeyValue filename "1"].
(** The sleep for some keys has no effect on the result. *)
Definition earlyReduce (key : string) (values : list string) : string := pretty (zlen values).

(** ** jobcount.go *)

(** The files of the directory and the variable [count] of each worker process. *)
Record JobState := mkJobState { js_files : gset string; js_count : gmap Z Z }.

Definition jobFile (pid count : Z) : string := "mr-worker-jobcount-" +:+ pretty pid +:+ "-" +:+ pretty count.

Definition jobcountMap (me : Z) (filename contents : string) (s : JobState) : JobState * list KeyValue :=
  let count := default 0 (js_count s !! me) in
  (mkJobState ({[ jobFile me count ]} ∪ js_files s) (<[me := count + 1]> (js_count s)), [mkKeyValue "a" "x"]).

(** The number of files with the prefix. *)
Definition jobcountReduce (key : string) (values : list string) (s : JobState) : string :=
  pretty (foldl (λ invocations f, if String.prefix "mr-worker-jobcount" f then invocations + 1 else invocations)
            0 (elements (js_files s))).

(** ** mtiming.go, rtiming.go *)
Section timing.
(** [fmt.Sscanf(name, "mr-worker-<phase>-%d", &xpid)], and whether signal 0 reaches a process. *)
Context (sscanf : string → string → option Z) (alive : Z → bool).

Definition phaseFile (phase : string) (pid : Z) : string := "mr-worker-" +:+ phase +:+ "-" +:+ pretty pid.

(** How many workers are running, from the names in the directory once the own file is
    there; the file is removed afterwards. *)
Definition nparallel (phase : string) (names : list string) : Z :=
  foldl (λ ret name, match sscanf phase name with
                     | Some xpid => if alive xpid then ret + 1 else ret
                     | None => ret
                     end) 0 names.

(** [ts] is the time of the call, printed. *)
Definition mtimingMap (pid : Z) (ts : string) (names : list string) (filename contents : string) : list KeyValue :=
  [mkKeyValue ("times-" +:+ pretty pid) ts; mkKeyValue ("parallel-" +:+ pretty pid) (pretty (nparallel "map" names))].
Definition mtimingReduce `{!StringSort} (key : string) (values : list string) : string := Join (sortStrings values) " ".

Definition rtimingMap (filename contents : string) : list KeyValue :=
  (λ k, mkKeyValue k "1") <$> ["a"; "b"; "c"; "d"; "e"; "f"; "g"; "h"; "i"; "j"]%string.
Definition rtimingReduce (names : list string) (key : string) (values : list string) : string :=
  pretty (nparallel "reduce" names).
End timing.

(** ** Which results do not depend on the order of the values *)

#[export] Instance wcReduce_perm k : Proper ((≡ₚ) ==> (=)) (wcReduce k).
Proof. intros l1 l2 H. unfold wcReduce, zlen. by rewrite H. Qed.
#[export] Instance indexerReduce_perm {SS : StringSort} k : Proper ((≡ₚ) ==> (=)) (indexerReduce k).
Proof. intros l1 l2 H. unfold indexerReduce, zlen. by rewrite H. Qed.
#[export] Instance nocrashReduce_perm {SS : StringSort} k : Proper ((≡ₚ) ==> (=)) (nocrashReduce k).
Proof. intros l1 l2 H. unfold nocrashReduce. by rewrite H. Qed.
#[export] Instance earlyReduce_perm k : Proper ((≡ₚ) ==> (=)) (earlyReduce k).
Proof. intros l1 l2 H. unfold earlyReduce, zlen. by rewrite H. Qed.

(** ** The lines of a finished job *)

(** The contents of an input; every input of the job can be read. *)
Definition contentsOf (inputs : gmap string string) (name : string) : string := default ""%string (inputs !! name).
Definition readable (inputs : gmap string string) (files : list string) : Prop := ∀ f, f ∈ files → is_Some (inputs !! f).

Lemma mapFiles_readable mapf inputs files :
  readable inputs files → mapFiles mapf inputs files = Ret (files ≫= λ f, mapf f (contentsOf inputs f)).
Proof.
  induction files as [|f files IH]; intros Hr; [done|]. cbn [mapFiles]. rewrite bind_cons. unfold contentsOf at 1.
  destruct (Hr f) as [c Hc]; [by left|]. rewrite Hc. cbn [mbind outcome_bind default].
  rewrite IH; [done|]. intros g Hg. apply Hr. by right.
Qed.

(** A key of the pairs has one line, with the result for all its values. *)
Lemma job_line mapf reducef (GS : GoSort) inputs files nReduce s w :
  0 < nReduce → (∀ k, Proper ((≡ₚ) ==> (=)) (reducef k)) → validOutput mapf inputs files → readable inputs files →
  @sreach mapf reducef GS inputs files nReduce s → Done (co s) = true →
  let all := files ≫= λ f, mapf f (contentsOf inputs f) in
  filter (λ line, line.1 = w) (seqZ 0 nReduce ≫= outLines s) =
    match valuesOf w all with [] => [] | vs => [(w, reducef w vs)] end.
Proof.
  intros Hn Hred Hv Hr Hs Hd all.
  pose proof (done_outputs mapf reducef GS GS inputs files nReduce s all Hn Hred Hv Hs Hd (mapFiles_readable _ _ _ Hr)) as Hp.
  destruct (@reduceAll_sorted reducef Hred GS all) as (keys & Hnd & Hk & E). rewrite E in Hp. clear E.
  set (g := λ k, (k, reducef k (valuesOf k all))) in Hp.
  assert (filter (λ line, line.1 = w) (g <$> keys) = g <$> filter (λ k, k = w) keys) as Ef.
  { clear Hp Hnd Hk. induction keys as [|k keys IH]; [done|]. rewrite fmap_cons, !filter_cons. cbn.
    destruct (decide (k = w)); rewrite ?fmap_cons; by rewrite IH. }
  assert (filter (λ line, line.1 = w) (seqZ 0 nReduce ≫= outLines s) ≡ₚ g <$> filter (λ k, k = w) keys) as Hp'
    by (by rewrite Hp, Ef). clear Hp Ef.
  destruct (decide (w ∈ keys)) as [Hin|Hin].
  - assert (filter (λ k, k = w) keys = [w]) as Ew.
    { apply Permutation_singleton_r. apply NoDup_Permutation; [by apply NoDup_filter|apply NoDup_singleton|].
      intros x. rewrite list_elem_of_filter, list_elem_of_singleton. naive_solver. }
    rewrite Ew in Hp'. apply Permutation_singleton_r in Hp'. rewrite Hp'. unfold g. cbn.
    apply Hk, list_elem_of_fmap in Hin as (kv & -> & Hkv). unfold valuesOf in *.
    destruct (filter (λ x, Key x = Key kv) all) as [|x l] eqn:E; [|done].
    assert (kv ∈ filter (λ x, Key x = Key kv) all) as Hf by (by apply list_elem_of_filter). rewrite E in Hf.
    by apply not_elem_of_nil in Hf.
  - assert (filter (λ k, k = w) keys = []) as Ew.
    { apply elem_of_nil_inv. by intros x [-> Hx]%list_elem_of_filter. }
    rewrite Ew in Hp'. apply Permutation_nil_r in Hp'. rewrite Hp'. unfold valuesOf.
    destruct (filter (λ x, Key x = w) all) as [|kv l] eqn:E; [done|]. exfalso. apply Hin, Hk.
    assert (kv ∈ filter (λ x, Key x = w) all) as [<- Hf]%list_elem_of_filter by (rewrite E; by left).
    by apply list_elem_of_fmap_2.
Qed.

Lemma foldl_snoc {A B} (f : A → B) (l : list A) acc : foldl (λ acc x, acc ++ [f x]) acc l = acc ++ (f <$> l).
Proof.
  revert acc. induction l as [|x l IH]; intros acc; cbn [foldl]; [by rewrite app_nil_r|].
  rewrite IH, fmap_cons, <- (assoc_L (++)). done.
Qed.

Section jobs.
Context (IsLetter : Z → bool).

Lemma wcMap_words name contents : wcMap IsLetter name contents = (λ w, mkKeyValue w "1") <$> wordsIn IsLetter contents.
Proof. unfold wcMap. by rewrite (foldl_snoc (λ w, mkKeyValue w "1")). Qed.

(** Words are valid text as U+FFFD, which stands for an invalid byte, is not a letter. *)
Lemma wordsIn_valid contents w : IsLetter RuneError = false → w ∈ wordsIn IsLetter contents → validUtf8 w.
Proof. intros Hl. apply FieldsFunc_valid. by rewrite Hl. Qed.

Lemma wc_valid inputs files : IsLetter RuneError = false → validOutput (wcMap IsLetter) inputs files.
Proof.
  intros Hl f text _ _. rewrite wcMap_words. apply list.Forall_forall.
  intros kv (w & -> & Hw)%list_elem_of_fmap. split; [by eapply wordsIn_valid|by vm_compute].
Qed.

(** How often a word occurs in the inputs. *)
Definition occurrences (inputs : gmap string string) (files : list string) (w : string) : Z :=
  zlen (filter (λ x, x = w) (files ≫= λ f, wordsIn IsLetter (contentsOf inputs f))).

Lemma wc_values inputs files w :
  valuesOf w (files ≫= λ f, wcMap IsLetter f (contentsOf inputs f)) =
  replicate (Z.to_nat (occurrences inputs files w)) "1"%string.
Proof.
  unfold occurrences. assert (files ≫= (λ f, wcMap IsLetter f (contentsOf inputs f)) =
    (λ w, mkKeyValue w "1") <$> (files ≫= λ f, wordsIn IsLetter (contentsOf inputs f))) as ->.
  { induction files as [|f files IH]; [done|]. by rewrite !bind_cons, IH, wcMap_words, fmap_app. }
  generalize (files ≫= λ f, wordsIn IsLetter (contentsOf inputs f)) as ws. unfold zlen. intros ws. rewrite Nat2Z.id.
  unfold valuesOf. induction ws as [|x ws IH]; [done|]. rewrite fmap_cons, !filter_cons. cbn.
  case_decide; cbn; [by rewrite <- IH|done].
Qed.

(** C16. When a word count job is done, its output files hold exactly one line for every word
    that occurs in the inputs, with the number of its occurrences in decimal, and none for
    any other word, whichever workers crashed, were given up or did a task twice, as long
    as a worker that was given up creates and fills no more files.  The inputs can be read
    and hold any bytes: a byte that is not UTF-8 reads as U+FFFD, which is not a letter
    ([IsLetter RuneError = false], as [unicode.IsLetter] says), and separates words. *)
Theorem wc_job (GS : GoSort) inputs files nReduce s w :
  IsLetter RuneError = false → 0 < nReduce → readable inputs files → @sreach (wcMap IsLetter) wcReduce GS inputs files nReduce s → Done (co s) = true →
  filter (λ line, line.1 = w) (seqZ 0 nReduce ≫= outLines s) =
    if 0 <? occurrences inputs files w then [(w, pretty (occurrences inputs files w))] else [].
Proof.
  intros Hl Hn Hr Hs Hd.
  rewrite (job_line (wcMap IsLetter) wcReduce GS inputs files nReduce s w Hn _ (wc_valid inputs files Hl) Hr Hs Hd), wc_values.
  assert (0 <= occurrences inputs files w) as H0 by (unfold occurrences, zlen; lia).
  destruct (Z.ltb_spec 0 (occurrences inputs files w)) as [Hp|Hz].
  - destruct (Z.to_nat (occurrences inputs files w)) as [|k] eqn:E; [lia|]. cbn [replicate]. do 2 f_equal.
    unfold wcReduce, zlen. cbn [length]. rewrite length_replicate. f_equal. lia.
  - replace (occurrences inputs files w) with 0 by lia. done.
Qed.

(** The documents a word is in. *)
Definition documents (inputs : gmap string string) (files : list string) (w : string) : list string :=
  filter (λ f, w ∈ wordsIn IsLetter (contentsOf inputs f)) files.

Lemma wordSet_lookup (ws : list string) (m : gmap string bool) w :
  is_Some (foldl (λ (m : gmap string bool) w, <[w := true]> m) m ws !! w) ↔ is_Some (m !! w) ∨ w ∈ ws.
Proof.
  revert m. induction ws as [|x ws IH]; intros m; cbn [foldl].
  - rewrite elem_of_nil. tauto.
  - rewrite IH, elem_of_cons. destruct (decide (w = x)) as [->|Hne].
    + rewrite lookup_insert_eq. naive_solver.
    + rewrite lookup_insert_ne by done. naive_solver.
Qed.

Lemma word_range_words `{!WordRange} (ws : list string) x :
  x ∈ word_range (foldl (λ (m : gmap string bool) w, <[w := true]> m) ∅ ws) ↔ x ∈ ws.
Proof.
  set (m := foldl _ ∅ _). rewrite (word_range_perm m), list_elem_of_fmap. transitivity (is_Some (m !! x)).
  - split; [intros ([k b] & -> & Hb%elem_of_map_to_list); by exists b|].
    intros [b Hb]. exists (x, b). split; [done|]. by apply elem_of_map_to_list.
  - unfold m. rewrite wordSet_lookup, lookup_empty. split; [by intros [[]|]|by right].
Qed.

Lemma indexer_valid `{!WordRange} inputs files :
  IsLetter RuneError = false → Forall validUtf8 files → validOutput (indexerMap IsLetter) inputs files.
Proof.
  intros Hl Hf f text Hin _. unfold indexerMap. rewrite (foldl_snoc (λ w, mkKeyValue w f)). cbn [app].
  apply list.Forall_forall. intros kv (w & -> & Hw)%list_elem_of_fmap. rewrite word_range_words in Hw.
  split; [by eapply wordsIn_valid|]. cbn. rewrite list.Forall_forall in Hf. by apply Hf.
Qed.

Lemma indexer_values `{!WordRange} inputs files w :
  valuesOf w (files ≫= λ f, indexerMap IsLetter f (contentsOf inputs f)) = documents inputs files w.
Proof.
  unfold documents, valuesOf. induction files as [|f files IH]; [done|]. rewrite bind_cons, filter_app, fmap_app, IH, filter_cons.
  assert (Value <$> filter (λ kv, Key kv = w) (indexerMap IsLetter f (contentsOf inputs f)) =
    if decide (w ∈ wordsIn IsLetter (contentsOf inputs f)) then [f] else []) as ->; [|by case_decide].
  unfold indexerMap. rewrite (foldl_snoc (λ w, mkKeyValue w f)). cbn [app].
  pose proof (word_range_words (wordsIn IsLetter (contentsOf inputs f))) as Hin.
  set (m := foldl _ ∅ _) in *. pose proof (word_range_perm m) as Hp.
  assert (NoDup (word_range m)) as Hnd by (rewrite Hp; apply NoDup_fst_map_to_list).
  clear Hp IH. generalize dependent (word_range m). intros l Hin Hnd.
  assert (Value <$> filter (λ kv, Key kv = w) ((λ w, mkKeyValue w f) <$> l) = (λ _, f) <$> filter (λ x, x = w) l) as ->.
  { clear. induction l as [|x l IH]; [done|]. rewrite fmap_cons, !filter_cons. cbn. case_decide; cbn; by rewrite IH. }
  destruct (decide (w ∈ wordsIn IsLetter (contentsOf inputs f))) as [Hw|Hw].
  - assert (filter (λ x, x = w) l = [w]) as ->; [|done]. apply Permutation_singleton_r, NoDup_Permutation;
      [by apply NoDup_filter|apply NoDup_singleton|].
    intros x. rewrite list_elem_of_filter, list_elem_of_singleton, Hin. naive_solver.
  - assert (filter (λ x, x = w) l = []) as ->; [|done]. apply elem_of_nil_inv.
    by intros x [-> Hx%Hin]%list_elem_of_filter.
Qed.

(** When an index job is done, its output files hold exactly one line for every word,
    with the number of the documents it is in and their names in sorted order, however
    the words of a document were visited; the names of the documents are valid UTF-8. *)
Theorem indexer_job `{!WordRange} `{!StringSort} (GS : GoSort) inputs files nReduce s w :
  IsLetter RuneError = false → Forall validUtf8 files → 0 < nReduce → readable inputs files →
  @sreach (indexerMap IsLetter) indexerReduce GS inputs files nReduce s → Done (co s) = true →
  filter (λ line, line.1 = w) (seqZ 0 nReduce ≫= outLines s) =
    match documents inputs files w with
    | [] => []
    | ds => [(w, pretty (zlen ds) +:+ " " +:+ GoStrings.Join (sortStrings ds) ",")]
    end.
Proof.
  intros Hl Hf Hn Hr Hs Hd.
  rewrite (job_line (indexerMap IsLetter) indexerReduce GS inputs files nReduce s w Hn _
    (indexer_valid inputs files Hl Hf) Hr Hs Hd).
  by rewrite indexer_values.
Qed.
End jobs.

(** ** How often [Map] was run *)

Lemma jobFile_inj p c p' c' : 0 <= c → 0 <= c' → jobFile p c = jobFile p' c' → p = p' ∧ c = c'.
Proof.
  intros Hc Hc' H%append_inj_r. rewrite <- (Z2Nat.id c), <- (Z2Nat.id c') in H |- * by done.
  rewrite !pretty_Z_nat in H.
  apply last_dash in H as [Hp Hq]; [|apply noDash_pretty..]. apply (inj pretty) in Hp, Hq. split; congruence.
Qed.

(** Running [Map] in the processes [pids], in this order. *)
Definition jobcountRun (pids : list Z) (s : JobState) : JobState :=
  foldl (λ s me, (jobcountMap me "" "" s).1) s pids.

(** The files that count, and that they are those of the runs so far. *)
Definition jobFiles (s : JobState) : gset string := filter (λ f, String.prefix "mr-worker-jobcount" f = true) (js_files s).

Definition jobOk (s : JobState) : Prop :=
  (∀ me, 0 <= default 0 (js_count s !! me)) ∧
  (∀ f, f ∈ jobFiles s → ∃ me c, f = jobFile me c ∧ 0 <= c < default 0 (js_count s !! me)).

Lemma jobcountMap_ok me s :
  jobOk s → jobOk (jobcountMap me "" "" s).1 ∧ size (jobFiles (jobcountMap me "" "" s).1) = S (size (jobFiles s)).
Proof.
  intros [H0 Hf]. set (c := default 0 (js_count s !! me)).
  assert (jobFiles (jobcountMap me "" "" s).1 = {[ jobFile me c ]} ∪ jobFiles s) as E by (unfold jobFiles; cbn; set_solver).
  split.
  - split.
    + intros p. cbn. destruct (decide (p = me)) as [->|Hne].
      * rewrite lookup_insert_eq. cbn. specialize (H0 me). lia.
      * by rewrite lookup_insert_ne.
    + intros f. rewrite E, elem_of_union, elem_of_singleton. cbn. intros [->|(p & k & -> & Hk)%Hf].
      * exists me, c. split; [done|]. rewrite lookup_insert_eq. cbn. specialize (H0 me). fold c in H0 |- *. lia.
      * exists p, k. split; [done|]. destruct (decide (p = me)) as [->|Hne].
        -- rewrite lookup_insert_eq. cbn. lia.
        -- by rewrite lookup_insert_ne.
  - rewrite E, size_union, size_singleton; [done|]. intros x ->%elem_of_singleton (p & k & E' & Hk)%Hf.
    apply jobFile_inj in E' as [Ep Ek]; [rewrite <- Ep, <- Ek in Hk; unfold c in Hk; lia|apply H0|lia].
Qed.

Lemma jobcountReduce_size k vs s : jobcountReduce k vs s = pretty (Z.of_nat (size (jobFiles s))).
Proof.
  unfold jobcountReduce. f_equal.
  assert (∀ l n, foldl (λ invocations f, if String.prefix "mr-worker-jobcount" f then invocations + 1 else invocations) n l =
    n + zlen (filter (λ f, String.prefix "mr-worker-jobcount" f = true) l)) as Hl.
  { intros l. unfold zlen. induction l as [|x l IH]; intros n; [cbn; lia|]. cbn [foldl]. rewrite IH, filter_cons.
    destruct (String.prefix "mr-worker-jobcount" x); [rewrite decide_True by done; cbn [length]|rewrite decide_False by done]; lia. }
  rewrite Hl. unfold jobFiles, zlen. rewrite Z.add_0_l. f_equal. unfold size, set_size. apply Permutation_length.
  apply NoDup_Permutation; [apply NoDup_filter, NoDup_elements|apply NoDup_elements|].
  intros x. rewrite list_elem_of_filter, !elem_of_elements, elem_of_filter. done.
Qed.

(** Starting in a directory without such files, [Reduce] reports how many times [Map] was
    run, whichever processes ran it and in whatever order. *)
Theorem jobcount_counts files pids k vs :
  (∀ f, f ∈ files → String.prefix "mr-worker-jobcount" f = false) →
  jobcountReduce k vs (jobcountRun pids (mkJobState files ∅)) = pretty (zlen pids).
Proof.
  intros Hno. rewrite jobcountReduce_size. f_equal.
  assert (∀ s, jobOk s → Z.of_nat (size (jobFiles (jobcountRun pids s))) = Z.of_nat (size (jobFiles s)) + zlen pids) as Hrun.
  { unfold zlen. induction pids as [|me pids IH]; intros s Hs; [cbn; lia|]. destruct (jobcountMap_ok me s Hs) as [Hs' E].
    unfold jobcountRun in *. cbn [foldl length]. rewrite IH by done. rewrite E. lia. }
  assert (jobFiles (mkJobState files ∅) = ∅) as E.
  { unfold jobFiles. cbn. apply set_eq. intros f. rewrite elem_of_filter. split; [|set_solver]. intros [Hp Hf%Hno]. congruence. }
  rewrite Hrun; [rewrite E, size_empty; lia|]. split; [intros me; cbn; rewrite lookup_empty; done|]. rewrite E. set_solver.
Qed.

(** ** Workers that see each other *)
Section parallel.
Context (sscanf : string → string → option Z) (alive : Z → bool).
(** A name that was printed with the pattern is scanned with its number. *)
Context (Hscan : ∀ phase pid, sscanf phase (phaseFile phase pid) = Some pid).

Definition counted (phase name : string) : Prop := ∃ xpid, sscanf phase name = Some xpid ∧ alive xpid = true.
#[local] Instance counted_dec phase name : Decision (counted phase name).
Proof.
  destruct (sscanf phase name) as [xpid|] eqn:E; [destruct (alive xpid) eqn:Ea|].
  - left. by exists xpid.
  - right. intros (x & Hx & Ha). congruence.
  - right. intros (x & Hx & _). congruence.
Defined.

Lemma nparallel_filter phase names : nparallel sscanf alive phase names = zlen (filter (counted phase) names).
Proof using Type.
  unfold nparallel, zlen.
  assert (∀ n, foldl (λ ret name, match sscanf phase name with
    | Some xpid => if alive xpid then ret + 1 else ret | None => ret end) n names = n + Z.of_nat (length (filter (counted phase) names))) as H;
    [|apply (H 0)].
  induction names as [|x names IH]; intros n; cbn [foldl]; [cbn; lia|]. rewrite IH, filter_cons.
  destruct (decide (counted phase x)) as [(xpid & -> & ->)|Hn]; [cbn [length]; lia|].
  destruct (sscanf phase x) as [xpid|] eqn:E; [|done]. destruct (alive xpid) eqn:Ea; [|done]. destruct Hn. by exists xpid.
Qed.

(** A worker counts every process that is alive and whose file is in the directory when it
    lists it: the test of parallelism never reports fewer workers than run. *)
Theorem nparallel_sees phase names pids :
  NoDup pids → (∀ pid, pid ∈ pids → alive pid = true ∧ phaseFile phase pid ∈ names) →
  zlen pids <= nparallel sscanf alive phase names.
Proof using Hscan.
  intros Hnd Hp. rewrite nparallel_filter. unfold zlen. rewrite <- (length_fmap (phaseFile phase) pids).
  apply Nat2Z.inj_le, submseteq_length, NoDup_submseteq.
  - apply NoDup_fmap_2_strong; [|done]. intros x y _ _ E. pose proof (Hscan phase x) as Hx. rewrite E, Hscan in Hx. congruence.
  - intros f (pid & -> & Hpid)%list_elem_of_fmap. apply list_elem_of_filter. destruct (Hp pid Hpid) as [Ha Hin].
    split; [|done]. by exists pid.
Qed.
End parallel.
