(* ===== verification/MrExamples.v ===== *)
(** * MrExamples: a word count job, and three ways it can go wrong

    Runs are built by an interpreter of schedules ([mexec], sound by
    [mexec_benign] and [mexec_sound]).  The job is that of
    [src/src/mrapps/wc.go]. *)

From stdpp Require Import pretty.
From S2P Require Import Prelude GoStrings MrWorker MrCoordinator MrSystem MrApps.
Local Open Scope Z_scope.

#[local] Instance keyLe_dec : RelDecision keyLe.
Proof. intros a b. unfold keyLe. apply _. Defined.
#[local] Instance keyLe_trans : Transitive keyLe.
Proof. intros a b c H1 H2. unfold keyLe in *. by etrans. Qed.
#[local] Instance keyLe_total : Total keyLe.
Proof. intros a b. unfold keyLe. apply (total String.le). Qed.

Definition mergeSort : GoSort := {|
  sortByKey := merge_sort keyLe;
  sort_perm l := merge_sort_Permutation keyLe l;
  sort_sorted l := StronglySorted_merge_sort keyLe l |}.
#[local] Existing Instance mergeSort.

(** ** Schedules *)

Inductive maction :=
  | MAsk | MRead (i : nat) | MOpen (i : nat) | MFill (i : nat) | MSend (i : nat)
  | MReport (i : nat) | MSection (i : nat) | MReset (i : nat) | MBump (i : nat).

Section schedules.
Context (mapf : string → string → list KeyValue) (reducef : string → list string → string) (inputs : gmap string string).

Definition mact (act : maction) (s : Sys) : option (Sys * option Attempt) :=
  match act with
  | MAsk =>
      match ask (co s) with
      | Ret (c', reply, Some (b, id)) =>
          Some (mkSys c' (fs s) (mkAttempt b id (r_TaskNumber reply) (r_MapFileName reply) 0 [] 0 false :: attempts s)
                  (reports s) ((b, id) :: checkers s) (busy s) (handlers s), None)
      | _ => None
      end
  | MRead i =>
      a ← attempts s !! i;
      if decide (at_isMap a = false ∧ at_read a < NMap (co s)) then
        Some (set_attempts (take i (attempts s) ++ addPairs (readFile s (at_read a) (at_id a)) a
                :: drop (S i) (attempts s)) s, None)
      else None
  | MOpen i =>
      a ← attempts s !! i; d ← content mapf reducef inputs s a;
      if decide (at_open a = false ∧ at_written a < nFiles (NReduce (co s)) (at_isMap a)) then
        Some (mkSys (co s) (writeTmp a (emptyData (at_isMap a)) (fs s))
                (take i (attempts s) ++ set_files (at_written a) true a :: drop (S i) (attempts s))
                (reports s) (checkers s) (busy s) (handlers s), Some a)
      else None
  | MFill i =>
      a ← attempts s !! i; d ← content mapf reducef inputs s a;
      if decide (at_open a = true) then
        Some (mkSys (co s) (writeTmp a d (fs s))
                (take i (attempts s) ++ set_files (at_written a + 1) false a :: drop (S i) (attempts s))
                (reports s) (checkers s) (busy s) (handlers s), Some a)
      else None
  | MSend i =>
      a ← attempts s !! i;
      if decide (at_open a = false ∧ at_written a = nFiles (NReduce (co s)) (at_isMap a)) then
        Some (mkSys (co s) (fs s) (take i (attempts s) ++ drop (S i) (attempts s))
                ((at_isMap a, at_id a, at_num a) :: reports s) (checkers s) (busy s) (handlers s), None)
      else None
  | MReport i =>
      x ← reports s !! i;
      let '(b, id, n) := x in
      if decide ((b, id) ∈ locked s) then None else
      g ← returned (reportCurrent (innerArgs b id n) (co s));
      Some (mkSys (co s) (fs s) (attempts s) (take i (reports s) ++ drop (S i) (reports s)) (checkers s) (busy s)
              (if g : bool then mkHandler b id n (Renaming 0) :: handlers s else handlers s), None)
  | MSection i =>
      h ← handlers s !! i;
      '(c', f', st) ← returned (reportSection (h_isMap h) (h_id h) (h_stage h) (co s) (fs s));
      Some (mkSys c' f' (attempts s) (reports s) (checkers s) (busy s)
              (take i (handlers s) ++ option_list ((λ st, set_stage st h) <$> st) ++ drop (S i) (handlers s)), None)
  | MReset i =>
      x ← checkers s !! i;
      let '(b, id) := x in
      if decide ((b, id) ∈ locked s) then None else
      '(c', g) ← returned (reset b id (co s));
      Some (mkSys c' (fs s) (attempts s) (reports s) (take i (checkers s) ++ drop (S i) (checkers s))
              (if g : bool then (b, id) :: busy s else busy s) (handlers s), None)
  | MBump i =>
      x ← busy s !! i;
      let '(b, id) := x in
      c' ← returned (bump b id (co s));
      Some (mkSys c' (fs s) (attempts s) (reports s) (checkers s) (take i (busy s) ++ drop (S i) (busy s)) (handlers s), None)
  end.

Lemma returned_Some {A} (m : outcome A) x : returned m = Some x → m = Ret x.
Proof. destruct m; [intros [= ->]|..]; done. Qed.

Lemma mact_sound act s s' l : mact act s = Some (s', l) → sstep mapf reducef inputs s l s'.
Proof.
  destruct act as [|i|i|i|i|i|i|i|i]; cbn [mact].
  - destruct (ask (co s)) as [[[c' reply] [[b id]|]]| | |] eqn:E; try done. intros [= <- <-]. by apply s_ask.
  - intros (a & Ha & H)%bind_Some. case_decide as Hd; [|done]. injection H as <- <-.
    eapply s_read; [symmetry; by apply take_drop_middle|apply Hd..].
  - intros (a & Ha & H)%bind_Some. apply bind_Some in H as (d & Hc & H). case_decide as Hd; [|done].
    injection H as <- <-. eapply s_open; [symmetry; by apply take_drop_middle|apply Hd|apply Hd|done].
  - intros (a & Ha & H)%bind_Some. apply bind_Some in H as (d & Hc & H). case_decide as Hd; [|done].
    injection H as <- <-. eapply s_fill; [symmetry; by apply take_drop_middle|done..].
  - intros (a & Ha & H)%bind_Some. case_decide as Hd; [|done]. injection H as <- <-.
    eapply s_send; [symmetry; by apply take_drop_middle|apply Hd..].
  - intros ([[b id] n] & Ha & H)%bind_Some. case_decide as Hd; [done|].
    apply bind_Some in H as (g & Hr%returned_Some & H). injection H as <- <-.
    eapply s_report; [symmetry; by apply take_drop_middle|done..].
  - intros (h & Ha & H)%bind_Some. apply bind_Some in H as ([[c' f'] st] & Hr%returned_Some & H). injection H as <- <-.
    eapply s_section; [symmetry; by apply take_drop_middle|done].
  - intros ([b id] & Ha & H)%bind_Some. case_decide as Hd; [done|].
    apply bind_Some in H as ([c' g] & Hr%returned_Some & H). injection H as <- <-.
    eapply s_reset; [symmetry; by apply take_drop_middle|done..].
  - intros ([b id] & Ha & H)%bind_Some. apply bind_Some in H as (c' & Hr%returned_Some & H). injection H as <- <-.
    eapply s_bump; [symmetry; by apply take_drop_middle|done].
Qed.

Definition benignb (l : option Attempt) (s : Sys) : bool :=
  match l with
  | Some a => match taskAt (co s) (at_isMap a) (at_id a) with Some (_, n) => n =? at_num a | None => false end
  | None => true
  end.

Lemma mbenignb_sound l s : benignb l s = true → benign l s.
Proof.
  destruct l as [a|]; [|done]. cbn. destruct (taskAt _ _ _) as [[p n]|]; [|done].
  intros ->%Z.eqb_eq. by exists p.
Qed.

Fixpoint mexec (onlyBenign : bool) (acts : list maction) (s : Sys) : option Sys :=
  match acts with
  | [] => Some s
  | act :: rest => '(s', l) ← mact act s; if implb onlyBenign (benignb l s) then mexec onlyBenign rest s' else None
  end.

Lemma mexec_benign files n acts s s' :
  sreach mapf reducef inputs files n s → mexec true acts s = Some s' → sreach mapf reducef inputs files n s'.
Proof.
  revert s. induction acts as [|act rest IH]; intros s Hs; cbn [mexec]; [by intros [= <-]|].
  intros ([s1 l] & Ha & H)%bind_Some. destruct (implb true (benignb l s)) eqn:Eb; [|done].
  eapply IH; [|done]. eapply sr_step; [done|by apply mbenignb_sound|by eapply mact_sound].
Qed.

(** Any step, whoever writes. *)
Definition astep (s s' : Sys) : Prop := ∃ l, sstep mapf reducef inputs s l s'.

Lemma mexec_sound acts s s' : mexec false acts s = Some s' → rtc astep s s'.
Proof.
  revert s. induction acts as [|act rest IH]; intros s; cbn [mexec]; [by intros [= <-]|].
  intros ([s1 l] & Ha & H)%bind_Some. cbn in H. eapply rtc_l; [|by apply IH]. exists l. by eapply mact_sound.
Qed.
End schedules.

(** ** A job that finishes

    Two words in one file.  The first worker is given up and the second does
    the map task; the reduce task follows. *)
Definition asciiLetter (r : Z) : bool := ((65 <=? r) && (r <=? 90)) || ((97 <=? r) && (r <=? 122)).
Definition words : string → string → list KeyValue := wcMap asciiLetter.
Definition oneFile : gmap string string := {[ "f"%string := "b a b"%string ]}.

(** A whole report: the rename, [SetPhase], [n] turns of the scan and its end, the flag. *)
Definition wholeReport (n : nat) : list maction := MReport 0 :: replicate (n + 4) (MSection 0).
Definition jobRun : list maction :=
  [MAsk; MReset 0; MBump 0; MAsk; MOpen 0; MFill 0; MSend 0] ++ wholeReport 1 ++
  [MAsk; MRead 0; MOpen 0; MFill 0; MSend 0] ++ wholeReport 1.
Definition jobDone : Sys :=
  Eval vm_compute in default (initSys ["f"%string] 1) (mexec words wcReduce oneFile true jobRun (initSys ["f"%string] 1)).

Lemma jobDone_reach : sreach words wcReduce oneFile ["f"%string] 1 jobDone.
Proof. apply (mexec_benign words wcReduce oneFile ["f"%string] 1 jobRun (initSys ["f"%string] 1)); [constructor|]. vm_compute. reflexivity. Qed.

Lemma mr_equals_sequential_witness :
  ∃ out, sequential words wcReduce oneFile ["f"%string] = Ret out ∧ (seqZ 0 1 ≫= outLines jobDone) ≡ₚ out.
Proof.
  exists [("a", "1"); ("b", "2")]%string. split; [vm_compute; reflexivity|].
  apply (mr_equals_sequential words wcReduce mergeSort mergeSort oneFile ["f"%string] 1 jobDone
    [("a", "1"); ("b", "2")]%string).
  - lia.
  - apply wcReduce_perm.
  - by apply wc_valid.
  - exact jobDone_reach.
  - vm_compute. reflexivity.
  - vm_compute. reflexivity.
Defined.

(** The report of the map task is about to rename its file. *)
Definition reporting : Sys :=
  Eval vm_compute in default (initSys ["f"%string] 1)
    (mexec words wcReduce oneFile true (take 8 jobRun) (initSys ["f"%string] 1)).

Lemma mr_report_total_witness :
  ∃ r, reportSection true 0 (Renaming 0) (co reporting) (fs reporting) = Ret r.
Proof.
  apply (proj2 (mr_report_total words wcReduce mergeSort oneFile ["f"%string] 1 reporting ltac:(lia)
    (mexec_benign words wcReduce oneFile ["f"%string] 1 (take 8 jobRun) (initSys ["f"%string] 1) reporting
      (sr_init _ _ _ _ _) ltac:(vm_compute; reflexivity))) (mkHandler true 0 1 (Renaming 0))).
  left.
Defined.

(** ** A worker that was given up destroys the files of its successor

    Temporary files are named after the task, not after the attempt: the first
    worker wakes up while the coordinator handles the report of the second one, after
    the comparison of the task numbers, and creates its (empty) temporary file before the
    rename.  The job finishes without the words of the file. *)
Definition overdueRun : list maction :=
  [MAsk; MReset 0; MBump 0; MAsk; MOpen 0; MFill 0; MSend 0; MReport 0; MOpen 0] ++ replicate 5 (MSection 0) ++
  [MAsk; MRead 0; MOpen 0; MFill 0; MSend 0] ++ wholeReport 1.

Example overdue_worker_loses_data :
  ∃ s, rtc (astep words wcReduce oneFile) (initSys ["f"%string] 1) s ∧ Done (co s) = true ∧ outLines s 0 = [] ∧
    sequential words wcReduce oneFile ["f"%string] = Ret [("a", "1"); ("b", "2")]%string.
Proof.
  exists (default (initSys ["f"%string] 1) (mexec words wcReduce oneFile false overdueRun (initSys ["f"%string] 1))).
  split; [|split_and!; vm_compute; reflexivity].
  apply (mexec_sound words wcReduce oneFile overdueRun). vm_compute. reflexivity.
Qed.

(** ** A key that is not UTF-8 comes out changed

    [early_exit.go] counts by file name.  The name is the byte 255, which JSON turns into
    U+FFFD, unlike the sequential program. *)
Definition byteFF : string := String (Ascii.ascii_of_nat 255) "".
Definition oddFile : gmap string string := {[ byteFF := "x"%string ]}.

Example json_changes_keys :
  ∃ s, sreach earlyMap earlyReduce oddFile [byteFF] 1 s ∧ Done (co s) = true ∧
    outLines s 0 = [(String.string_of_list_ascii (encoded RuneError), "1"%string)] ∧
    sequential earlyMap earlyReduce oddFile [byteFF] = Ret [(byteFF, "1"%string)].
Proof.
  exists (default (initSys [byteFF] 1) (mexec earlyMap earlyReduce oddFile true (drop 3 jobRun) (initSys [byteFF] 1))).
  split; [|split_and!; vm_compute; reflexivity].
  apply (mexec_benign earlyMap earlyReduce oddFile [byteFF] 1 (drop 3 jobRun) (initSys [byteFF] 1)); [constructor|].
  vm_compute. reflexivity.
Qed.

(** ** The flag of the map phase can be lost

    Two map tasks report at the same time.  The first report scans the tasks
    before the second one is finished, and writes its answer last. *)
Definition twoFiles : gmap string string := {[ "f"%string := "b a b"%string; "g"%string := "b"%string ]}.
Definition lostFlagRun : list maction :=
  [MAsk; MAsk; MOpen 0; MFill 0; MSend 0; MOpen 0; MFill 0; MSend 0; MReport 0] ++ replicate 4 (MSection 0) ++
  wholeReport 2 ++ [MSection 0; MReset 0; MReset 0].
Definition lostFlag : Sys :=
  Eval vm_compute in default (initSys ["f"; "g"]%string 1)
    (mexec words wcReduce twoFiles true lostFlagRun (initSys ["f"; "g"]%string 1)).

(** C36. All map tasks are finished, but no task is ever handed out again: the job
    never ends. *)
Example lost_flag_hangs :
  sreach words wcReduce twoFiles ["f"; "g"]%string 1 lostFlag ∧
  allFinished (co lostFlag) true ∧ IsMapFinished (co lostFlag) = false ∧
  (∀ s, rtc (astep words wcReduce twoFiles) lostFlag s → s = lostFlag ∧ Done (co s) = false).
Proof.
  split; [|split; [|split]].
  - apply (mexec_benign words wcReduce twoFiles ["f"; "g"]%string 1 lostFlagRun (initSys ["f"; "g"]%string 1)); [constructor|].
    vm_compute. reflexivity.
  - apply finished_all. intros id p n Hid Ht%phases_at. destruct Ht as [H0 Ht].
    change (zlen _) with 2 in Hid.
    assert (id = 0 ∨ id = 1) as [-> | ->] by lia; by injection Ht.
  - reflexivity.
  - assert (∀ s', ¬ astep words wcReduce twoFiles lostFlag s') as Hstuck.
    { intros s' [l Hst]. destruct Hst as [c' reply b id Hask|l1 a l2 Ha|l1 a l2 Ha|l1 a l2 d Ha|l1 a l2 d Ha
        |l1 a l2 Ha|r1 b id n r2 g Hr|h1 h h2 c' f' st Hh|k1 b id k2 c' g Hk|b1 b id b2 c' Hbz];
        try (by destruct l1); [discriminate Hask|by destruct r1|by destruct h1|by destruct k1|by destruct b1]. }
    intros s Hs. apply rtc_inv in Hs as [<-|(s2 & Hst & _)]; [split; reflexivity|]. by destruct (Hstuck s2).
Qed.

(** ** The applications *)

(** The job above counts the words of "b a b". *)
Lemma wc_job_witness :
  filter (λ line, line.1 = "b"%string) (seqZ 0 1 ≫= outLines jobDone) = [("b", "2")]%string ∧
  occurrences asciiLetter oneFile ["f"%string] "b" = 2.
Proof.
  split; [|vm_compute; reflexivity].
  rewrite (wc_job asciiLetter mergeSort oneFile ["f"%string] 1 jobDone "b").
  - vm_compute. reflexivity.
  - reflexivity.
  - lia.
  - intros f ->%list_elem_of_singleton. by eexists.
  - exact jobDone_reach.
  - vm_compute. reflexivity.
Defined.

#[local] Instance listOrder : WordRange := {|
  word_range m := (map_to_list m).*1; word_range_perm m := Permutation_refl _ |}.
#[local] Existing Instance mergeStrings.

(** The index of two files, one worker at a time. *)
Definition indexRun : list maction :=
  [MAsk; MAsk; MOpen 0; MFill 0; MSend 0] ++ wholeReport 0 ++ [MOpen 0; MFill 0; MSend 0] ++ wholeReport 2 ++
  [MAsk; MRead 0; MRead 0; MOpen 0; MFill 0; MSend 0] ++ wholeReport 1.
Definition indexed : Sys :=
  Eval vm_compute in default (initSys ["f"; "g"]%string 1)
    (mexec (indexerMap asciiLetter) indexerReduce twoFiles true indexRun (initSys ["f"; "g"]%string 1)).

Lemma indexer_job_witness :
  filter (λ line, line.1 = "b"%string) (seqZ 0 1 ≫= outLines indexed) = [("b", "2 f,g")]%string.
Proof.
  rewrite (indexer_job asciiLetter mergeSort twoFiles ["f"; "g"]%string 1 indexed "b").
  - vm_compute. reflexivity.
  - reflexivity.
  - repeat constructor.
  - lia.
  - intros f [->| ->%list_elem_of_singleton]%elem_of_cons; by eexists.
  - apply (mexec_benign (indexerMap asciiLetter) indexerReduce twoFiles ["f"; "g"]%string 1 indexRun (initSys ["f"; "g"]%string 1));
      [constructor|]. vm_compute. reflexivity.
  - vm_compute. reflexivity.
Defined.

(** Three runs in two processes. *)
Lemma jobcount_counts_witness :
  jobcountReduce "a" [] (jobcountRun [12; 40; 12] (mkJobState {[ "mr-out-0"%string ]} ∅)) = "3"%string.
Proof.
  rewrite (jobcount_counts {[ "mr-out-0"%string ]} [12; 40; 12] "a" []); [vm_compute; reflexivity|].
  intros f ->%elem_of_singleton. reflexivity.
Defined.

(** Text outside ASCII: the two bytes of U+00E9 belong to one word when that rune is a
    letter, and to none when it is not; a stray byte separates words. *)
Example utf8_words :
  let e := String (Ascii.ascii_of_nat 195) (String (Ascii.ascii_of_nat 169) "") in
  let stray := String (Ascii.ascii_of_nat 169) "" in
  wordsIn (λ r, asciiLetter r || (r =? 233)) ("caf" +:+ e +:+ " x") = ["caf" +:+ e; "x"%string] ∧
  wordsIn asciiLetter ("caf" +:+ e +:+ "x") = ["caf"; "x"]%string ∧
  wordsIn (λ r, asciiLetter r || (r =? 233)) ("a" +:+ stray +:+ "b") = ["a"; "b"]%string.
Proof. vm_compute. done. Qed.
