(* ===== verification/ShardCtrler.v ===== *)
(** * ShardCtrler: the configuration service of [src/src/shardctrler/]

    Models common.go, server.go and client.go.  [Shards [NShards]int] is a
    list of ten gids, [Groups] a finite map.  Go visits a map in an order that
    differs from run to run and from server to server: [MapRange] is such an
    order, a parameter of every operation with a [range] over a map. *)

From S2P Require Import Prelude Labgob Persister RaftState RaftService.
Local Open Scope Z_scope.

(** An order in which [for k, v := range m] visits the pairs of [m]. *)
Class MapRange := {
  map_range : ∀ {A : Type}, gmap Z A → list (Z * A);
  map_range_perm : ∀ {A : Type} (m : gmap Z A), map_range m ≡ₚ map_to_list m;
}.

(** ** common.go *)

Definition NShards : Z := 10.

Record Config := mkConfig {
  Num : Z;
  Shards : list Z;
  Groups : gmap Z (list string);
}.

(** [Config{}]. *)
Definition zeroConfig : Config := mkConfig 0 (replicate (Z.to_nat NShards) 0) ∅.

Definition Err := string.
Definition OK : Err := "OK".
Definition ErrWrongLeader : Err := "ErrWrongLeader".

Record JoinArgs := mkJoinArgs { ja_Servers : gmap Z (list string); ja_ClientId : Z; ja_RequestId : Z }.
Record LeaveArgs := mkLeaveArgs { la_GIDs : list Z; la_ClientId : Z; la_RequestId : Z }.
Record MoveArgs := mkMoveArgs { ma_Shard : Z; ma_GID : Z; ma_ClientId : Z; ma_RequestId : Z }.
Record QueryArgs := mkQueryArgs { qa_Num : Z; qa_ClientId : Z; qa_RequestId : Z }.
(** [JoinReply], [LeaveReply] and [MoveReply]; [QueryReply] has a config. *)
Record JoinReply := mkJoinReply { jr_Err : Err }.
Record QueryReply := mkQueryReply { qr_Err : Err; qr_Config : Config }.

(** ** server.go *)

(** [Op]: the type of the command with the arguments it uses. *)
Inductive OpArgs :=
  | JOIN (args : JoinArgs)
  | LEAVE (args : LeaveArgs)
  | MOVE (args : MoveArgs)
  | QUERY (args : QueryArgs).
Record Op := mkOp { op_Args : OpArgs; op_ClientId : Z; op_RequestId : Z }.

Record WaitChResponse := mkWaitChResponse { wr_err : Err; wr_config : Config }.

Section rebalance.
Context `{!MapRange}.

Definition createNewConfigDeepCopy (config : Config) : Config :=
  mkConfig (Num config + 1) (Shards config)
    (foldl (λ m kv, <[kv.1 := kv.2]> m) ∅ (map_range (Groups config))).

(** [groupToShards[gid]]: nil when absent. *)
Definition shardsOf (g2s : gmap Z (list Z)) (gid : Z) : list Z := default [] (g2s !! gid).

(** [for shardIndex, gid := range shards]: append to the group's list if
    the group exists. *)
Definition collectShards (shards : list Z) (g2s : gmap Z (list Z)) : gmap Z (list Z) :=
  foldl (λ m ig, match m !! ig.2 with
                 | Some l => <[ig.2 := l ++ [Z.of_nat ig.1]]> m
                 | None => m
                 end) g2s (imap (λ i gid, (i, gid)) shards).

(** The shards whose group does not exist. *)
Definition orphans (g2s : gmap Z (list Z)) (shards : list Z) : list Z :=
  foldl (λ acc ig, match g2s !! ig.2 with
                   | Some _ => acc
                   | None => acc ++ [Z.of_nat ig.1]
                   end) [] (imap (λ i gid, (i, gid)) shards).

(** The scan for the group with the most and the one with the fewest
    shards, over the sorted gids; on a tie the later gid. *)
Definition scanMax (g2s : gmap Z (list Z)) (gids : list Z) : Z * Z :=
  foldl (λ '(c, g) gid, let n := zlen (shardsOf g2s gid) in
           if c <=? n then (n, gid) else (c, g)) (0, -1) gids.
Definition scanMin (g2s : gmap Z (list Z)) (gids : list Z) : Z * Z :=
  foldl (λ '(c, g) gid, let n := zlen (shardsOf g2s gid) in
           if n <=? c then (n, gid) else (c, g)) (NShards + 1, -1) gids.

(** [for { ... }] of a later Join: one shard from the largest to the
    smallest group until they differ by at most one.  [Block]: not done
    within the fuel. *)
Fixpoint joinLoop (fuel : nat) (gids : list Z) (g2s : gmap Z (list Z)) : outcome (gmap Z (list Z)) :=
  match fuel with
  | O => Block
  | S fuel' =>
      let '(maxShardCount, maxGid) := scanMax g2s gids in
      let '(minShardCount, minGid) := scanMin g2s gids in
      if maxShardCount - minShardCount <=? 1 then Ret g2s else
      match shardsOf g2s maxGid with
      | [] => Panic
      | shard :: _ =>
          let g2s := <[minGid := shardsOf g2s minGid ++ [shard]]> g2s in
          joinLoop fuel' gids (<[maxGid := drop 1 (shardsOf g2s maxGid)]> g2s)
      end
  end.

(** [for len(orphanShards) > 0 { ... }]. *)
Fixpoint adoptLoop (gids : list Z) (orphanShards : list Z) (g2s : gmap Z (list Z)) : gmap Z (list Z) :=
  match orphanShards with
  | [] => g2s
  | shard :: rest =>
      let '(_, minGid) := scanMin g2s gids in
      adoptLoop gids rest (<[minGid := shardsOf g2s minGid ++ [shard]]> g2s)
  end.

(** [for _, shard := range shards { rebalancedShards[shard] = gid }]. *)
Fixpoint writeShards (gid : Z) (shards : list Z) (result : list Z) : outcome (list Z) :=
  match shards with
  | [] => Ret result
  | shard :: rest => r ← slice_set result shard gid; writeShards gid rest r
  end.

(** [for gid, shards := range groupToShards { ... }]. *)
Fixpoint writeGroups (order : list (Z * list Z)) (result : list Z) : outcome (list Z) :=
  match order with
  | [] => Ret result
  | (gid, shards) :: rest => r ← writeShards gid shards result; writeGroups rest r
  end.

Definition joinFuel : nat := Z.to_nat (NShards * NShards + 1).

Definition rebalanceShard (groups : gmap Z (list string)) (shards : list Z) (isJoin isFirst : bool) :
    outcome (list Z) :=
  let order := map_range groups in
  let empty := foldl (λ m kv, <[kv.1 := []]> m) ∅ order in
  let sortedGIDs := merge_sort Z.le order.*1 in
  let g2s := collectShards shards empty in
  if isJoin && negb isFirst then
    g2s ← joinLoop joinFuel sortedGIDs g2s;
    writeGroups (map_range g2s) shards
  else if 0 <? zlen order then
    writeGroups (map_range (adoptLoop sortedGIDs (orphans g2s shards) g2s)) shards
  else writeGroups (map_range g2s) (replicate (Z.to_nat NShards) 0).
End rebalance.

Section server.
Context {R P SV : Type} `{!RaftService R P Op SV} `{!MapRange}.

Record ShardCtrler := mkShardCtrler {
  sc_me : Z;
  sc_rf : R;
  configs : list Config;
  sc_waitChs : gmap Z (option WaitChResponse);
  sc_latestAppliedRequest : gmap Z Z;
  sc_latestAppliedRaftIndex : Z;
}.
Implicit Types sc : ShardCtrler.

(** [sc.configs[len(sc.configs)-1]]. *)
Definition lastConfig (configs : list Config) : outcome Config :=
  slice_get configs (zlen configs - 1).

(** The [switch] of [applyLoop]: the new list of configurations and the
    response. *)
Definition applyOp (op : Op) (duplicated : bool) (configs : list Config) :
    outcome (list Config * WaitChResponse) :=
  let ok := mkWaitChResponse OK zeroConfig in
  match op_Args op with
  | JOIN args =>
      if duplicated then Ret (configs, ok) else
      last ← lastConfig configs;
      let newConfig := createNewConfigDeepCopy last in
      let isFirst := bool_decide (size (Groups newConfig) = 0%nat) in
      let groups := foldl (λ m kv, <[kv.1 := kv.2]> m) (Groups newConfig)
                      (map_range (ja_Servers args)) in
      shards ← rebalanceShard groups (Shards newConfig) true isFirst;
      Ret (configs ++ [mkConfig (Num newConfig) shards groups], ok)
  | LEAVE args =>
      if duplicated then Ret (configs, ok) else
      last ← lastConfig configs;
      let newConfig := createNewConfigDeepCopy last in
      let groups := foldl (λ m gid, delete gid m) (Groups newConfig) (la_GIDs args) in
      shards ← rebalanceShard groups (Shards newConfig) false false;
      Ret (configs ++ [mkConfig (Num newConfig) shards groups], ok)
  | MOVE args =>
      if duplicated then Ret (configs, ok) else
      last ← lastConfig configs;
      let newConfig := createNewConfigDeepCopy last in
      shards ← slice_set (Shards newConfig) (ma_Shard args) (ma_GID args);
      Ret (configs ++ [mkConfig (Num newConfig) shards (Groups newConfig)], ok)
  | QUERY args =>
      config ← (if (qa_Num args <? 0) || (zlen configs - 1 <=? qa_Num args)
                then lastConfig configs else slice_get configs (qa_Num args));
      Ret (configs, mkWaitChResponse OK config)
  end.

(** The duplicate check: the table afterwards and whether the request was
    executed before. *)
Definition checkDuplicate (lar : gmap Z Z) (op : Op) : gmap Z Z * bool :=
  let lar := match lar !! op_ClientId op with
             | Some _ => lar
             | None => <[op_ClientId op := -1]> lar
             end in
  if default 0 (lar !! op_ClientId op) <? op_RequestId op
  then (<[op_ClientId op := op_RequestId op]> lar, false) else (lar, true).

(** One turn of [applyLoop]; snapshot messages are ignored. *)
Definition applyLoopStep sc (msg : ApplyMsg Op SV) : outcome ShardCtrler :=
  match msg with
  | CommandMsg command index =>
      if index <=? sc_latestAppliedRaftIndex sc then Ret sc else
      match command with
      | None => Panic
      | Some op =>
          let '(lar, duplicated) := checkDuplicate (sc_latestAppliedRequest sc) op in
          '(configs', response) ← applyOp op duplicated (configs sc);
          match sc_waitChs sc !! index with
          | None => Ret (mkShardCtrler (sc_me sc) (sc_rf sc) configs' (sc_waitChs sc) lar index)
          | Some None => Ret (mkShardCtrler (sc_me sc) (sc_rf sc) configs'
                                (<[index := Some response]> (sc_waitChs sc)) lar index)
          | Some (Some _) => Block
          end
      end
  | SnapshotMsg _ _ _ => Ret sc
  end.

(** *** The RPC handlers: [Join], [Leave], [Move] and [Query] differ in the
    command and in what they copy into the reply. *)

Definition set_waits sc rf waits : ShardCtrler :=
  mkShardCtrler (sc_me sc) rf (configs sc) waits (sc_latestAppliedRequest sc)
    (sc_latestAppliedRaftIndex sc).

Definition startOp sc (op : Op) : outcome (ShardCtrler * option Z) :=
  '(rf, (raftIndex, _, isLeader)) ← rs_Start (sc_rf sc) op;
  Ret (set_waits sc rf (sc_waitChs sc), if isLeader : bool then Some raftIndex else None).

Definition Join_start sc (args : JoinArgs) :=
  startOp sc (mkOp (JOIN args) (ja_ClientId args) (ja_RequestId args)).
Definition Leave_start sc (args : LeaveArgs) :=
  startOp sc (mkOp (LEAVE args) (la_ClientId args) (la_RequestId args)).
Definition Move_start sc (args : MoveArgs) :=
  startOp sc (mkOp (MOVE args) (ma_ClientId args) (ma_RequestId args)).
Definition Query_start sc (args : QueryArgs) :=
  startOp sc (mkOp (QUERY args) (qa_ClientId args) (qa_RequestId args)).

Definition register sc (raftIndex : Z) : outcome ShardCtrler :=
  match sc_waitChs sc !! raftIndex with
  | Some _ => Fatal
  | None => Ret (set_waits sc (sc_rf sc) (<[raftIndex := None]> (sc_waitChs sc)))
  end.

(** The [select] and the deletion of the channel; [None] while waiting. *)
Definition await sc (raftIndex : Z) (timeout : bool) : option (ShardCtrler * QueryReply) :=
  let sc' := set_waits sc (sc_rf sc) (delete raftIndex (sc_waitChs sc)) in
  if timeout then Some (sc', mkQueryReply ErrWrongLeader zeroConfig)
  else match sc_waitChs sc !! raftIndex with
       | Some (Some response) => Some (sc', mkQueryReply (wr_err response) (wr_config response))
       | _ => None
       end.

Definition Kill sc : ShardCtrler := set_waits sc (rs_Kill (sc_rf sc)) (sc_waitChs sc).

Definition StartServer (servers : nat) (me : Z) (persister : P) : outcome ShardCtrler :=
  rf ← rs_Make servers me persister;
  Ret (mkShardCtrler me rf [zeroConfig] ∅ ∅ 0).
End server.
Arguments ShardCtrler : clear implicits.
