(* ===== verification/ShardRebalance.v ===== *)
(** * ShardRebalance: the shard assignment of the configuration service

    [rebalanceShard] ends within its fuel, never leaves a shard that had a
    group without one, balances the groups, and gives the same assignment
    whatever order Go visits its maps in, so that all replicas compute the
    same configuration. *)

From S2P Require Import Prelude ShardCtrler.
Local Open Scope Z_scope.

(** ** Sums over the list of groups *)

Fixpoint sumZ (f : Z → Z) (l : list Z) : Z :=
  match l with [] => 0 | x :: l' => f x + sumZ f l' end.

Lemma sumZ_ext f g l : (∀ x, x ∈ l → f x = g x) → sumZ f l = sumZ g l.
Proof.
  induction l as [|x l IH]; intros H; cbn; [done|].
  rewrite (H x) by (apply elem_of_cons; by left). rewrite IH; [done|].
  intros y Hy. apply H, elem_of_cons. by right.
Qed.

Lemma sumZ_update f f' l g :
  NoDup l → g ∈ l → (∀ h, h ≠ g → f' h = f h) → sumZ f' l = sumZ f l - f g + f' g.
Proof.
  induction l as [|x l IH]; intros Hnd Hg Hf; [by apply not_elem_of_nil in Hg|].
  apply NoDup_cons in Hnd as [Hx Hnd]. cbn. apply elem_of_cons in Hg as [->|Hg].
  - rewrite (sumZ_ext f' f l); [lia|]. intros y Hy. apply Hf. by intros ->.
  - rewrite IH, (Hf x) by (done || (by intros ->)). lia.
Qed.

Lemma sumZ_nonneg f l : (∀ x, 0 <= f x) → 0 <= sumZ f l.
Proof. intros H. induction l as [|x l IH]; cbn; [lia|]. specialize (H x). lia. Qed.

Lemma sumZ_squares f l : (∀ x, 0 <= f x) → sumZ (λ x, f x * f x) l <= sumZ f l * sumZ f l.
Proof.
  intros H. induction l as [|x l IH]; cbn; [lia|].
  pose proof (sumZ_nonneg f l H). specialize (H x). nia.
Qed.

(** ** Maps and the order they are visited in *)

Lemma foldl_insert_union {A} (l : list (Z * A)) (m : gmap Z A) :
  NoDup l.*1 → foldl (λ m kv, <[kv.1 := kv.2]> m) m l = list_to_map l ∪ m.
Proof.
  revert m. induction l as [|[k v] l IH]; intros m Hnd; cbn; [by rewrite map_empty_union|].
  apply NoDup_cons in Hnd as [Hk Hnd]. rewrite IH by done. cbn.
  rewrite <- insert_union_r by (by apply not_elem_of_list_to_map_1). by rewrite insert_union_l.
Qed.

Section range.
Context `{!MapRange}.

Lemma map_range_NoDup {A} (m : gmap Z A) : NoDup (map_range m).*1.
Proof. rewrite (map_range_perm m). apply NoDup_fst_map_to_list. Qed.

Lemma map_range_keys {A} (m : gmap Z A) k : k ∈ (map_range m).*1 ↔ k ∈ dom m.
Proof.
  rewrite (map_range_perm m), list_elem_of_fmap, elem_of_dom. split.
  - intros ([k' v] & -> & Hin%elem_of_map_to_list). by eexists.
  - intros [v Hv]. exists (k, v). split; [done|]. by apply elem_of_map_to_list.
Qed.

(** Copying a map entry by entry. *)
Lemma range_insert {A} (m m0 : gmap Z A) :
  foldl (λ m kv, <[kv.1 := kv.2]> m) m0 (map_range m) = m ∪ m0.
Proof.
  rewrite foldl_insert_union by apply map_range_NoDup. f_equal.
  rewrite (list_to_map_proper _ (map_to_list m)); [apply list_to_map_to_list|..].
  - apply map_range_NoDup.
  - apply map_range_perm.
Qed.

(** [groupToShards] with an empty list for every group. *)
Lemma range_empty {A} (m : gmap Z A) :
  foldl (λ (m : gmap Z (list Z)) kv, <[kv.1 := []]> m) ∅ (map_range m) = (λ _, []) <$> m.
Proof.
  transitivity (foldl (λ (m : gmap Z (list Z)) kv, <[kv.1 := kv.2]> m) ∅
    ((λ kv, (kv.1, [])) <$> map_range m)); [by rewrite foldl_fmap|].
  rewrite <- (map_union_empty ((λ _, []) <$> m)).
  rewrite foldl_insert_union.
  - f_equal. rewrite (list_to_map_proper _ (map_to_list ((λ _, []) <$> m))).
    + apply list_to_map_to_list.
    + rewrite <- list_fmap_compose. apply map_range_NoDup.
    + rewrite map_range_perm, map_to_list_fmap. by apply fmap_Permutation.
  - rewrite <- list_fmap_compose. apply map_range_NoDup.
Qed.

Definition sortedGIDs {A} (m : gmap Z A) : list Z := merge_sort Z.le (map_range m).*1.

Lemma sortedGIDs_elem {A} (m : gmap Z A) g : g ∈ sortedGIDs m ↔ g ∈ dom m.
Proof. unfold sortedGIDs. by rewrite merge_sort_Permutation, map_range_keys. Qed.

Lemma sortedGIDs_NoDup {A} (m : gmap Z A) : NoDup (sortedGIDs m).
Proof. unfold sortedGIDs. rewrite merge_sort_Permutation. apply map_range_NoDup. Qed.
End range.

Lemma sortedGIDs_unique {A} (M1 M2 : MapRange) (m : gmap Z A) :
  @sortedGIDs M1 A m = @sortedGIDs M2 A m.
Proof.
  unfold sortedGIDs. apply (StronglySorted_unique Z.le).
  - apply (StronglySorted_merge_sort Z.le).
  - apply (StronglySorted_merge_sort Z.le).
  - rewrite !merge_sort_Permutation. apply fmap_Permutation. by rewrite !map_range_perm.
Qed.

(** ** The table of shards per group *)

(** Every list has distinct shards in range, and no shard is in two lists. *)
Record tableOk (g2s : gmap Z (list Z)) : Prop := {
  tb_list : ∀ g q, g2s !! g = Some q → NoDup q ∧ ∀ s, s ∈ q → 0 <= s < NShards;
  tb_disj : ∀ g h q r s, g2s !! g = Some q → g2s !! h = Some r → s ∈ q → s ∈ r → g = h;
}.

Definition held (g2s : gmap Z (list Z)) (s : Z) : Prop := ∃ g q, g2s !! g = Some q ∧ s ∈ q.

Definition tableBalanced (g2s : gmap Z (list Z)) : Prop :=
  ∀ g h q r, g2s !! g = Some q → g2s !! h = Some r → zlen q <= zlen r + 1.

Lemma imap_pair_snoc (l : list Z) x :
  imap (λ i gid, (i, gid)) (l ++ [x]) = imap (λ i gid, (i, gid)) l ++ [(length l, x)].
Proof. rewrite imap_app. cbn. by rewrite Nat.add_0_r. Qed.

Lemma lookup_snoc_Z (l : list Z) x s g :
  0 <= s → (l ++ [x]) !! Z.to_nat s = Some g ↔
  l !! Z.to_nat s = Some g ∨ s = zlen l ∧ x = g.
Proof.
  intros Hs. rewrite lookup_app_Some, list_lookup_singleton_Some. unfold zlen. split.
  - intros [?|(? & ? & ?)]; [by left|right]. split; [lia|done].
  - intros [?|[-> ->]]; [by left|right]. split_and!; [lia|lia|done].
Qed.

Section tables.
Implicit Types (g2s : gmap Z (list Z)) (shards l : list Z).

(** After the first loop, each group has exactly the shards assigned to it. *)
Lemma collectShards_spec g2s l :
  (∀ g q, g2s !! g = Some q → q = []) →
  (∀ g, is_Some (collectShards l g2s !! g) ↔ is_Some (g2s !! g)) ∧
  (∀ g q, collectShards l g2s !! g = Some q →
     NoDup q ∧ ∀ s, s ∈ q ↔ 0 <= s ∧ l !! Z.to_nat s = Some g).
Proof.
  intros H0. induction l as [|x l [IHd IHq]] using rev_ind.
  { split; [done|]. intros g q Hq. apply H0 in Hq as ->. split; [constructor|].
    intros s. split; [intros Hs; by apply not_elem_of_nil in Hs|]. intros [_ Hs]. done. }
  assert (collectShards (l ++ [x]) g2s = match collectShards l g2s !! x with
    | Some q => <[x := q ++ [zlen l]]> (collectShards l g2s) | None => collectShards l g2s end) as ->.
  { unfold collectShards. by rewrite imap_pair_snoc, foldl_snoc. }
  destruct (collectShards l g2s !! x) as [qx|] eqn:Ex; split.
  - intros g. rewrite <- IHd. destruct (decide (x = g)) as [->|Hne].
    + rewrite lookup_insert_eq, Ex. split; by eexists.
    + by rewrite lookup_insert_ne.
  - intros g q Hq. apply lookup_insert_Some in Hq as [[<- <-]|[Hne Hq]].
    + destruct (IHq _ _ Ex) as [Hnd Hel]. split.
      * apply NoDup_app. split_and!; [done| |apply NoDup_singleton].
        intros s Hs ->%list_elem_of_singleton. apply Hel in Hs as [_ Hs].
        apply lookup_lt_Some in Hs. unfold zlen in Hs. lia.
      * intros s. rewrite elem_of_app, list_elem_of_singleton, Hel. pose proof (zlen_nonneg l). split.
        -- intros [[? ?]| ->]; (split; [done|]); apply lookup_snoc_Z; auto.
        -- intros [Hs [?|[-> _]]%lookup_snoc_Z]; auto.
    + destruct (IHq _ _ Hq) as [Hnd Hel]. split; [done|]. intros s. rewrite Hel. split.
      * intros [? ?]. split; [done|]. apply lookup_snoc_Z; auto.
      * intros [Hs [?|[-> ->]]%lookup_snoc_Z]; [auto|done|done].
  - intros g. apply IHd.
  - intros g q Hq. destruct (IHq _ _ Hq) as [Hnd Hel]. split; [done|]. intros s. rewrite Hel. split.
    + intros [? ?]. split; [done|]. apply lookup_snoc_Z; auto.
    + intros [Hs [?|[-> ->]]%lookup_snoc_Z]; [auto|congruence|done].
Qed.

Lemma orphans_spec g2s l :
  NoDup (orphans g2s l) ∧
  ∀ s, s ∈ orphans g2s l ↔ 0 <= s ∧ ∃ g, l !! Z.to_nat s = Some g ∧ g2s !! g = None.
Proof.
  induction l as [|x l [IHn IHe]] using rev_ind.
  { split; [constructor|]. intros s. split; [intros Hs; by apply not_elem_of_nil in Hs|].
    intros (_ & g & Hg & _). done. }
  assert (orphans g2s (l ++ [x]) = match g2s !! x with
    | Some _ => orphans g2s l | None => orphans g2s l ++ [zlen l] end) as ->.
  { unfold orphans. by rewrite imap_pair_snoc, foldl_snoc. }
  pose proof (zlen_nonneg l) as H0. destruct (g2s !! x) as [q|] eqn:Ex; split.
  - done.
  - intros s. rewrite IHe. split.
    + intros (Hs & g & Hg & Hn). split; [done|]. exists g. split; [|done]. apply lookup_snoc_Z; auto.
    + intros (Hs & g & [Hg|[-> ->]]%lookup_snoc_Z & Hn); [eauto|congruence|done].
  - apply NoDup_app. split_and!; [done| |apply NoDup_singleton].
    intros s Hs ->%list_elem_of_singleton. apply IHe in Hs as (_ & g & Hg & _).
    apply lookup_lt_Some in Hg. unfold zlen in Hg. lia.
  - intros s. rewrite elem_of_app, list_elem_of_singleton, IHe. split.
    + intros [(Hs & g & Hg & Hn)| ->]; (split; [done|]); [exists g|exists x]; (split; [|done]);
        apply lookup_snoc_Z; auto.
    + intros (Hs & g & [Hg|[-> ->]]%lookup_snoc_Z & Hn); [left; eauto|by right|done].
Qed.

(** *** The scans *)

Lemma scanMax_spec g2s gids :
  let '(c, g) := scanMax g2s gids in
  (∀ h, h ∈ gids → zlen (shardsOf g2s h) <= c) ∧
  (g ∈ gids ∧ c = zlen (shardsOf g2s g) ∨ gids = [] ∧ c = 0).
Proof.
  induction gids as [|x gids IH] using rev_ind.
  { split; [intros h Hh; by apply not_elem_of_nil in Hh|by right]. }
  unfold scanMax in *. rewrite foldl_snoc.
  destruct (foldl _ _ gids) as [c g]. destruct IH as [Hle Hg].
  destruct (Z.leb_spec c (zlen (shardsOf g2s x))); split.
  - intros h [Hh| ->%list_elem_of_singleton]%elem_of_app; [specialize (Hle h Hh)|]; lia.
  - left. split; [|done]. apply elem_of_app. right. by apply list_elem_of_singleton.
  - intros h [Hh| ->%list_elem_of_singleton]%elem_of_app; [by apply Hle|lia].
  - destruct Hg as [[? ?]|[-> ->]].
    + left. split; [|done]. apply elem_of_app. by left.
    + pose proof (zlen_nonneg (shardsOf g2s x)). lia.
Qed.

Lemma scanMin_spec g2s gids :
  (∀ h, h ∈ gids → zlen (shardsOf g2s h) <= NShards) →
  let '(c, g) := scanMin g2s gids in
  (∀ h, h ∈ gids → c <= zlen (shardsOf g2s h)) ∧
  (g ∈ gids ∧ c = zlen (shardsOf g2s g) ∨ gids = [] ∧ c = NShards + 1).
Proof.
  induction gids as [|x gids IH] using rev_ind; intros Hb.
  { split; [intros h Hh; by apply not_elem_of_nil in Hh|by right]. }
  unfold scanMin in *. rewrite foldl_snoc.
  assert (∀ h, h ∈ gids → zlen (shardsOf g2s h) <= NShards) as Hb'
    by (intros h Hh; apply Hb, elem_of_app; by left).
  assert (zlen (shardsOf g2s x) <= NShards) as Hx
    by (apply Hb, elem_of_app; right; by apply list_elem_of_singleton).
  specialize (IH Hb'). destruct (foldl _ _ gids) as [c g]. destruct IH as [Hle Hg].
  destruct (Z.leb_spec (zlen (shardsOf g2s x)) c); split.
  - intros h [Hh| ->%list_elem_of_singleton]%elem_of_app; [specialize (Hle h Hh)|]; lia.
  - left. split; [|done]. apply elem_of_app. right. by apply list_elem_of_singleton.
  - intros h [Hh| ->%list_elem_of_singleton]%elem_of_app; [by apply Hle|lia].
  - destruct Hg as [[? ?]|[-> ->]]; [|lia].
    left. split; [|done]. apply elem_of_app. by left.
Qed.
End tables.

(** ** The two loops *)

Section loops.
Context (gids : list Z) (gids_NoDup : NoDup gids).
Implicit Types g2s : gmap Z (list Z).

(** [gids] are the groups of the table. *)
Definition keysOk g2s : Prop := ∀ g, g ∈ gids ↔ is_Some (g2s !! g).

Lemma shardsOf_Some g2s g q : g2s !! g = Some q → shardsOf g2s g = q.
Proof. unfold shardsOf. by intros ->. Qed.

Lemma shardsOf_key g2s g : keysOk g2s → g ∈ gids → g2s !! g = Some (shardsOf g2s g).
Proof. intros Hk [q Hq]%Hk. by rewrite (shardsOf_Some _ _ _ Hq). Qed.

Lemma keysOk_insert g2s g q : keysOk g2s → g ∈ gids → keysOk (<[g := q]> g2s).
Proof.
  intros Hk Hg h. rewrite lookup_insert_is_Some. destruct (decide (g = h)) as [->|Hne].
  - split; [by left|done].
  - split; [intros ?%Hk; by right|]. intros [?|[_ ?]]; [done|by apply Hk].
Qed.

Lemma tableOk_give g2s g s :
  tableOk g2s → keysOk g2s → g ∈ gids → ¬ held g2s s → 0 <= s < NShards →
  tableOk (<[g := shardsOf g2s g ++ [s]]> g2s) ∧
  ∀ t, held (<[g := shardsOf g2s g ++ [s]]> g2s) t ↔ held g2s t ∨ t = s.
Proof.
  intros [Hl Hd] Hk Hg Hn Hs. pose proof (shardsOf_key _ _ Hk Hg) as Hq. split; [constructor|].
  - intros h q [[<- <-]|[_ Hh]]%lookup_insert_Some; [|by eapply Hl].
    destruct (Hl _ _ Hq) as [Hnd Hr]. split.
    + apply NoDup_app. split_and!; [done| |apply NoDup_singleton].
      intros t Ht ->%list_elem_of_singleton. destruct Hn. by exists g, (shardsOf g2s g).
    + intros t [Ht| ->%list_elem_of_singleton]%elem_of_app; [by apply Hr|done].
  - assert (∀ h r t, h ≠ g → g2s !! h = Some r → t ∈ shardsOf g2s g ++ [s] → t ∈ r → False) as Hx.
    { intros h r t Hne Hr [Ht| ->%list_elem_of_singleton]%elem_of_app Htr.
      - apply Hne. by eapply (Hd h g).
      - destruct Hn. by exists h, r. }
    intros h1 h2 q r t [[<- <-]|[Hne1 H1]]%lookup_insert_Some [[<- <-]|[Hne2 H2]]%lookup_insert_Some Ht1 Ht2.
    + done.
    + by destruct (Hx h2 r t).
    + by destruct (Hx h1 q t).
    + by eapply Hd.
  - intros t. split.
    + intros (h & q & [[<- <-]|[_ Hh]]%lookup_insert_Some & Ht); [|left; by exists h, q].
      apply elem_of_app in Ht as [Ht| ->%list_elem_of_singleton]; [left|by right].
      by exists g, (shardsOf g2s g).
    + assert (∀ u, u ∈ shardsOf g2s g ++ [s] → held (<[g := shardsOf g2s g ++ [s]]> g2s) u) as Hin
        by (intros u Hu; eexists g, _; split; [apply lookup_insert_eq|done]).
      intros [(h & q & Hh & Ht)| ->].
      * destruct (decide (g = h)) as [->|Hne].
        -- apply Hin, elem_of_app. left. by rewrite (shardsOf_Some _ _ _ Hh).
        -- exists h, q. by rewrite lookup_insert_ne.
      * apply Hin, elem_of_app. right. by apply list_elem_of_singleton.
Qed.

Lemma tableOk_take g2s g s rest :
  tableOk g2s → g2s !! g = Some (s :: rest) →
  tableOk (<[g := rest]> g2s) ∧ ∀ t, held (<[g := rest]> g2s) t ↔ held g2s t ∧ t ≠ s.
Proof.
  intros [Hl Hd] Hq. destruct (Hl _ _ Hq) as [[Hns Hnd]%NoDup_cons Hr]. split; [constructor|].
  - intros h q [[<- <-]|[_ Hh]]%lookup_insert_Some; [|by eapply Hl].
    split; [done|]. intros t Ht. apply Hr, elem_of_cons. by right.
  - intros h1 h2 q r t [[<- <-]|[Hne1 H1]]%lookup_insert_Some [[<- <-]|[Hne2 H2]]%lookup_insert_Some Ht1 Ht2;
      [done|eapply Hd..]; (done || apply elem_of_cons; by right).
  - intros t. split.
    + intros (h & q & [[<- <-]|[Hne Hh]]%lookup_insert_Some & Ht).
      * split; [exists g, (s :: rest); split; [done|apply elem_of_cons; by right]|by intros ->].
      * split; [by exists h, q|]. intros ->. apply Hne. eapply (Hd g h); [done..| |done].
        apply elem_of_cons. by left.
    + intros [(h & q & Hh & Ht) Hne]. destruct (decide (g = h)) as [->|Hgh].
      * simplify_eq. apply elem_of_cons in Ht as [->|Ht]; [done|].
        exists h, rest. by rewrite lookup_insert_eq.
      * exists h, q. by rewrite lookup_insert_ne.
Qed.

(** *** How many shards there are *)

Definition total g2s : Z := sumZ (λ g, zlen (shardsOf g2s g)) gids.
Definition squares g2s : Z := sumZ (λ g, zlen (shardsOf g2s g) * zlen (shardsOf g2s g)) gids.

Lemma total_bound g2s : tableOk g2s → keysOk g2s → 0 <= total g2s <= NShards.
Proof.
  intros [Hl Hd] Hk. split; [apply sumZ_nonneg; auto with go|].
  assert (total g2s = zlen (gids ≫= shardsOf g2s)) as ->.
  { unfold total. clear Hk gids_NoDup. induction gids as [|g gs IH]; cbn; [done|]. by rewrite zlen_app, IH. }
  assert (NoDup (gids ≫= shardsOf g2s)) as Hnd.
  { apply NoDup_bind; [| |done].
    - intros g h s Hg Hh H1 H2. by eapply (Hd g h); eauto using shardsOf_key.
    - intros g Hg. by eapply Hl, shardsOf_key. }
  assert (gids ≫= shardsOf g2s ⊆+ seqZ 0 NShards) as Hsub%submseteq_length.
  { apply NoDup_submseteq; [done|]. intros s (g & Hs & Hg)%list_elem_of_bind.
    apply elem_of_seqZ. by eapply Hl; [eapply shardsOf_key|]. }
  rewrite length_seqZ in Hsub. unfold zlen, NShards in *. lia.
Qed.

Lemma squares_bound g2s : tableOk g2s → keysOk g2s → squares g2s <= NShards * NShards.
Proof.
  intros Ht Hk. pose proof (total_bound _ Ht Hk) as [? ?].
  pose proof (sumZ_squares (λ g, zlen (shardsOf g2s g)) gids (λ g, zlen_nonneg _)) as Hsq.
  unfold squares, total in *. nia.
Qed.

Lemma group_bound g2s g : tableOk g2s → keysOk g2s → g ∈ gids → zlen (shardsOf g2s g) <= NShards.
Proof.
  intros Ht Hk Hg. pose proof (total_bound _ Ht Hk) as [_ Hb].
  assert (zlen (shardsOf g2s g) <= total g2s); [|lia]. clear Hb Hk. unfold total.
  pose proof (sumZ_update (λ g, zlen (shardsOf g2s g)) (λ h, if decide (h = g) then 0 else zlen (shardsOf g2s h))
    gids g gids_NoDup Hg) as E. cbv beta in E. rewrite (decide_True (P := g = g)) in E by done.
  assert (0 <= sumZ (λ h, if decide (h = g) then 0 else zlen (shardsOf g2s h)) gids).
  { apply sumZ_nonneg. intros x. case_decide; [done|]. auto with go. }
  rewrite E in H; [lia|]. intros h Hne. by rewrite decide_False.
Qed.

(** *** The loop of a later Join *)

(** Moving shard [s] from [g] to [h]. *)
Lemma tableOk_move g2s g h s rest :
  tableOk g2s → keysOk g2s → g ∈ gids → h ∈ gids → g ≠ h → g2s !! g = Some (s :: rest) →
  let g2s' := <[g := rest]> (<[h := shardsOf g2s h ++ [s]]> g2s) in
  tableOk g2s' ∧ keysOk g2s' ∧ (∀ t, held g2s' t ↔ held g2s t) ∧
  squares g2s' = squares g2s - 2 * (zlen (s :: rest) - zlen (shardsOf g2s h) - 1).
Proof.
  intros Ht Hk Hg Hh Hne Hq g2s'. destruct (tb_list _ Ht _ _ Hq) as [_ Hr].
  destruct (tableOk_take _ _ _ _ Ht Hq) as [Ht1 Hheld1].
  assert (keysOk (<[g := rest]> g2s)) as Hk1 by (by apply keysOk_insert).
  assert (g2s' = <[h := shardsOf (<[g := rest]> g2s) h ++ [s]]> (<[g := rest]> g2s)) as E.
  { subst g2s'. rewrite insert_insert_ne by done. unfold shardsOf at 2. by rewrite lookup_insert_ne. }
  assert (¬ held (<[g := rest]> g2s) s) as Hns by (rewrite Hheld1; tauto).
  destruct (tableOk_give _ _ _ Ht1 Hk1 Hh Hns (Hr s ltac:(apply elem_of_cons; by left))) as [Ht2 Hheld2].
  rewrite <- E in Ht2, Hheld2. split; [done|]. split; [subst g2s'; by repeat apply keysOk_insert|]. split.
  - intros t. rewrite Hheld2, Hheld1. split; [|by destruct (decide (t = s)); [right|left]].
    intros [[? _]| ->]; [done|]. exists g, (s :: rest). split; [done|]. apply elem_of_cons. by left.
  - assert (∀ x, shardsOf g2s' x = if decide (x = g) then rest
      else if decide (x = h) then shardsOf g2s h ++ [s] else shardsOf g2s x) as Hs.
    { intros x. subst g2s'. unfold shardsOf. destruct (decide (x = g)) as [->|]; [by rewrite lookup_insert_eq|].
      rewrite lookup_insert_ne by done.
      destruct (decide (x = h)) as [->|]; [by rewrite lookup_insert_eq|by rewrite lookup_insert_ne]. }
    unfold squares. set (f1 := λ x, if decide (x = h) then zlen (shardsOf g2s h ++ [s]) * zlen (shardsOf g2s h ++ [s])
      else zlen (shardsOf g2s x) * zlen (shardsOf g2s x)).
    rewrite (sumZ_update f1 _ gids g), (sumZ_update (λ x, zlen (shardsOf g2s x) * zlen (shardsOf g2s x)) f1 gids h);
      try done.
    + subst f1. cbv beta. rewrite Hs, (decide_True (P := g = g)), (decide_True (P := h = h)), (decide_False (P := g = h)) by done.
      rewrite (shardsOf_Some _ _ _ Hq), zlen_app, !zlen_cons, zlen_nil. ring.
    + intros x Hx. subst f1. cbv beta. by rewrite decide_False.
    + intros x Hx. subst f1. cbv beta. rewrite Hs, decide_False by done. by case_decide.
Qed.

Lemma scan_balanced g2s maxC maxG minC minG :
  tableOk g2s → keysOk g2s → scanMax g2s gids = (maxC, maxG) → scanMin g2s gids = (minC, minG) →
  (maxC - minC <= 1 → tableBalanced g2s) ∧
  (1 < maxC - minC → maxG ∈ gids ∧ minG ∈ gids ∧ maxG ≠ minG ∧
     ∃ s rest, g2s !! maxG = Some (s :: rest) ∧ zlen (shardsOf g2s minG) + 1 < zlen (s :: rest)).
Proof.
  intros Ht Hk Hmax Hmin.
  pose proof (scanMax_spec g2s gids) as Smax. rewrite Hmax in Smax. destruct Smax as [Hle Hg].
  pose proof (scanMin_spec g2s gids (λ h, group_bound g2s h Ht Hk)) as Smin. rewrite Hmin in Smin.
  destruct Smin as [Hge Hh]. split.
  - intros Hd g h q r Hq Hr.
    assert (g ∈ gids) as Hg1 by (apply Hk; by eexists). assert (h ∈ gids) as Hh1 by (apply Hk; by eexists).
    specialize (Hle g Hg1). specialize (Hge h Hh1).
    rewrite (shardsOf_Some _ _ _ Hq) in Hle. rewrite (shardsOf_Some _ _ _ Hr) in Hge. lia.
  - intros Hd. destruct Hg as [[Hg ->]|[-> ->]]; [|destruct Hh as [[Hh _]|[_ ->]]; [by apply not_elem_of_nil in Hh|unfold NShards in Hd; lia]].
    destruct Hh as [[Hh ->]|[-> _]]; [|by apply not_elem_of_nil in Hg].
    split_and!; [done|done|intros ->; lia|].
    pose proof (shardsOf_key _ _ Hk Hg) as Hq. destruct (shardsOf g2s maxG) as [|s rest].
    + rewrite zlen_nil in Hd. pose proof (zlen_nonneg (shardsOf g2s minG)). lia.
    + exists s, rest. split; [done|lia].
Qed.

Lemma squares_nonneg g2s : 0 <= squares g2s.
Proof. apply sumZ_nonneg. intros x. pose proof (zlen_nonneg (shardsOf g2s x)). nia. Qed.

Lemma joinLoop_spec fuel g2s :
  tableOk g2s → keysOk g2s → squares g2s < Z.of_nat fuel →
  ∃ g2s', joinLoop fuel gids g2s = Ret g2s' ∧ tableOk g2s' ∧ keysOk g2s' ∧
    (∀ s, held g2s' s ↔ held g2s s) ∧ tableBalanced g2s'.
Proof.
  revert g2s. induction fuel as [|fuel IH]; intros g2s Ht Hk Hf; [pose proof (squares_nonneg g2s); lia|].
  cbn [joinLoop]. destruct (scanMax g2s gids) as [maxC maxG] eqn:Emax.
  destruct (scanMin g2s gids) as [minC minG] eqn:Emin.
  destruct (scan_balanced _ _ _ _ _ Ht Hk Emax Emin) as [Hbal Hmove].
  destruct (Z.leb_spec (maxC - minC) 1) as [Hd|Hd]; [exists g2s; split_and!; auto|].
  destruct (Hmove Hd) as (Hg & Hh & Hne & s & rest & Hq & Hlt).
  rewrite (shardsOf_Some _ _ _ Hq).
  destruct (tableOk_move _ _ _ _ _ Ht Hk Hg Hh Hne Hq) as (Ht' & Hk' & Hheld & Hsq).
  assert (drop 1 (shardsOf (<[minG := shardsOf g2s minG ++ [s]]> g2s) maxG) = rest) as ->.
  { unfold shardsOf. rewrite lookup_insert_ne by done. by rewrite Hq. }
  destruct (IH _ Ht' Hk') as (g2s' & -> & Ht2 & Hk2 & Hheld2 & Hb2); [lia|].
  exists g2s'. split_and!; try done. intros t. by rewrite Hheld2, Hheld.
Qed.

(** *** The loop that gives away shards without a group *)

Lemma give_min_balanced g2s minC minG s :
  tableOk g2s → keysOk g2s → gids ≠ [] → scanMin g2s gids = (minC, minG) →
  minG ∈ gids ∧
  (tableBalanced g2s → tableBalanced (<[minG := shardsOf g2s minG ++ [s]]> g2s)).
Proof.
  intros Ht Hk Hne Hmin.
  pose proof (scanMin_spec g2s gids (λ h, group_bound g2s h Ht Hk)) as Smin. rewrite Hmin in Smin.
  destruct Smin as [Hge [[Hg ->]|[? _]]]; [|done]. split; [done|]. intros Hb.
  pose proof (shardsOf_key _ _ Hk Hg) as Hq.
  assert (zlen (shardsOf g2s minG ++ [s]) = zlen (shardsOf g2s minG) + 1) as Hl
    by (by rewrite zlen_app, zlen_cons, zlen_nil).
  intros g h q r [[<- <-]|[_ H1]]%lookup_insert_Some [[<- <-]|[_ H2]]%lookup_insert_Some.
  - lia.
  - rewrite Hl. assert (h ∈ gids) as Hh by (apply Hk; by eexists). specialize (Hge h Hh).
    rewrite (shardsOf_Some _ _ _ H2) in Hge. lia.
  - rewrite Hl. specialize (Hb g minG q _ H1 Hq). lia.
  - by eapply Hb.
Qed.

Lemma adoptLoop_spec orph g2s :
  gids ≠ [] → tableOk g2s → keysOk g2s → NoDup orph →
  (∀ s, s ∈ orph → ¬ held g2s s ∧ 0 <= s < NShards) →
  let g2s' := adoptLoop gids orph g2s in
  tableOk g2s' ∧ keysOk g2s' ∧ (∀ s, held g2s' s ↔ held g2s s ∨ s ∈ orph) ∧
  (∀ g q s, g2s !! g = Some q → s ∈ q → ∃ q', g2s' !! g = Some q' ∧ s ∈ q') ∧
  (tableBalanced g2s → tableBalanced g2s').
Proof.
  intros Hne. revert g2s. induction orph as [|s orph IH]; intros g2s Ht Hk Hnd Ho; cbn.
  { split_and!; [done|done| |eauto|done]. intros s. split; [by left|]. intros [?|Hs]; [done|by apply not_elem_of_nil in Hs]. }
  apply NoDup_cons in Hnd as [Hs Hnd]. destruct (Ho s ltac:(apply elem_of_cons; by left)) as [Hns Hr].
  destruct (scanMin g2s gids) as [minC minG] eqn:Emin.
  destruct (give_min_balanced _ _ _ s Ht Hk Hne Emin) as [Hg Hbal].
  destruct (tableOk_give _ _ _ Ht Hk Hg Hns Hr) as [Ht1 Hheld1].
  pose proof (shardsOf_key _ _ Hk Hg) as Hq. set (g2s1 := <[minG := _]> g2s) in *.
  assert (∀ g q t, g2s !! g = Some q → t ∈ q → ∃ q', g2s1 !! g = Some q' ∧ t ∈ q') as Hkeep.
  { intros g q t Hgq Htq. subst g2s1. destruct (decide (minG = g)) as [<-|Hgne].
    - rewrite lookup_insert_eq. eexists. split; [done|]. apply elem_of_app. left. congruence.
    - rewrite lookup_insert_ne by done. by exists q. }
  destruct (IH g2s1 Ht1 (keysOk_insert _ _ _ Hk Hg) Hnd) as (Ht2 & Hk2 & Hheld2 & Hkeep2 & Hbal2).
  { intros t Hto. destruct (Ho t ltac:(apply elem_of_cons; by right)) as [Hnt Hrt]. split; [|done].
    rewrite Hheld1. intros [?| ->]; done. }
  split_and!; [done|done| | |auto].
  - intros t. rewrite Hheld2, Hheld1, elem_of_cons. tauto.
  - intros g q t Hgq Htq. destruct (Hkeep g q t Hgq Htq) as (q1 & Hq1 & Ht1'). by eapply Hkeep2.
Qed.
End loops.

(** ** Writing the table back into the assignment *)

Lemma writeShards_spec gid q r :
  (∀ s, s ∈ q → 0 <= s < zlen r) →
  ∃ r', writeShards gid q r = Ret r' ∧ length r' = length r ∧
    (∀ s, 0 <= s → s ∈ q → r' !! Z.to_nat s = Some gid) ∧
    (∀ s, 0 <= s → s ∉ q → r' !! Z.to_nat s = r !! Z.to_nat s).
Proof.
  revert r. induction q as [|x q IH]; intros r Hr; cbn.
  { exists r. split_and!; try done. intros s _ Hs. by apply not_elem_of_nil in Hs. }
  destruct (Hr x ltac:(apply elem_of_cons; by left)) as [Hx0 Hx].
  assert (slice_set r x gid = Ret (<[Z.to_nat x := gid]> r)) as -> by (by apply slice_set_Ret). cbn.
  destruct (IH (<[Z.to_nat x := gid]> r)) as (r' & -> & Hl & Hin & Hout).
  { intros s Hs. unfold zlen. rewrite length_insert. apply Hr, elem_of_cons. by right. }
  exists r'. split_and!; [done|by rewrite length_insert in Hl| |].
  - intros s Hs [->|Hq]%elem_of_cons; [|by apply Hin].
    destruct (decide (x ∈ q)) as [?|Hn]; [by apply Hin|]. rewrite Hout by done.
    apply list_lookup_insert_eq. unfold zlen in Hx. lia.
  - intros s Hs Hn. rewrite not_elem_of_cons in Hn. destruct Hn as [Hne Hn].
    rewrite Hout by done. apply list_lookup_insert_ne. lia.
Qed.

Lemma writeGroups_spec order r :
  NoDup order.*1 →
  (∀ g q s, (g, q) ∈ order → s ∈ q → 0 <= s < zlen r) →
  (∀ g h q q' s, (g, q) ∈ order → (h, q') ∈ order → s ∈ q → s ∈ q' → g = h) →
  ∃ r', writeGroups order r = Ret r' ∧ length r' = length r ∧
    (∀ g q s, 0 <= s → (g, q) ∈ order → s ∈ q → r' !! Z.to_nat s = Some g) ∧
    (∀ s, 0 <= s → (∀ g q, (g, q) ∈ order → s ∉ q) → r' !! Z.to_nat s = r !! Z.to_nat s).
Proof.
  revert r. induction order as [|[g q] order IH]; intros r Hnd Hr Hd; cbn.
  { exists r. split_and!; try done. intros g q s _ Hs. by apply not_elem_of_nil in Hs. }
  apply NoDup_cons in Hnd as [Hg Hnd].
  assert (∀ h q', (h, q') ∈ order → (h, q') ∈ (g, q) :: order) as Hsub by (intros; apply elem_of_cons; by right).
  assert ((g, q) ∈ (g, q) :: order) as Hhd by (apply elem_of_cons; by left).
  destruct (writeShards_spec g q r) as (r1 & -> & Hl1 & Hin1 & Hout1); [intros s; by eapply Hr|]. cbn.
  destruct (IH r1 Hnd) as (r' & -> & Hl & Hin & Hout).
  { intros h q' s Hh. unfold zlen. rewrite Hl1. by eapply Hr, Hsub. }
  { intros h1 h2 q1 q2 s H1 H2. by eapply Hd; apply Hsub. }
  exists r'. split_and!; [done|congruence| |].
  - intros h q' s Hs [[= -> ->]|Hh]%elem_of_cons Hq; [|by eapply Hin].
    rewrite Hout; [by apply Hin1|done|]. intros h2 q2 H2 Hq2.
    assert (g = h2) as -> by (by eapply (Hd g h2 q q2 s); [|apply Hsub|..]).
    apply Hg, list_elem_of_fmap. by exists (h2, q2).
  - intros s Hs Hn. rewrite Hout; [|done|by intros h q' Hh; eapply Hn, Hsub].
    apply Hout1; [done|]. by eapply Hn.
Qed.

Section write.
Context `{!MapRange}.

Lemma map_range_elem (m : gmap Z (list Z)) g q : (g, q) ∈ map_range m ↔ m !! g = Some q.
Proof. by rewrite (map_range_perm m), elem_of_map_to_list. Qed.

(** The assignment after the last loop: the group that holds the shard, or
    what was there before. *)
Lemma writeTable_spec g2s r :
  tableOk g2s → zlen r = NShards →
  ∃ r', writeGroups (map_range g2s) r = Ret r' ∧ length r' = length r ∧
    (∀ g q s, g2s !! g = Some q → s ∈ q → r' !! Z.to_nat s = Some g) ∧
    (∀ s, 0 <= s → ¬ held g2s s → r' !! Z.to_nat s = r !! Z.to_nat s).
Proof.
  intros [Hl Hd] Hr.
  destruct (writeGroups_spec (map_range g2s) r) as (r' & Hw & Hlen & Hin & Hout).
  - apply map_range_NoDup.
  - intros g q s Hg%map_range_elem Hs. rewrite Hr. by eapply Hl.
  - intros g h q q' s Hg%map_range_elem Hh%map_range_elem. by eapply Hd.
  - exists r'. split_and!; [done|done| |].
    + intros g q s Hg Hs. eapply Hin; [|by apply map_range_elem|done]. by eapply Hl.
    + intros s Hs Hn. apply Hout; [done|]. intros g q Hg%map_range_elem Hq. apply Hn. by exists g, q.
Qed.
End write.

(** ** What [rebalanceShard] promises *)

(** How many shards [g] has. *)
Definition shardCount (g : Z) (shards : list Z) : Z := zlen (filter (λ x, x = g) shards).

(** No group has more than one shard more than another. *)
Definition balanced (groups : gmap Z (list string)) (shards : list Z) : Prop :=
  ∀ g h, g ∈ dom groups → h ∈ dom groups → shardCount g shards <= shardCount h shards + 1.

Lemma shardCount_positions g l q :
  NoDup q → (∀ s, s ∈ q ↔ 0 <= s ∧ l !! Z.to_nat s = Some g) → zlen q = shardCount g l.
Proof.
  revert q. induction l as [|x l IH] using rev_ind; intros q Hnd Hq.
  { destruct q as [|s q]; [done|]. destruct (Hq s) as [[_ Hs] _]; [apply elem_of_cons; by left|done]. }
  unfold shardCount. rewrite filter_app, zlen_app. fold (shardCount g l).
  pose proof (zlen_nonneg l) as H0. destruct (decide (x = g)) as [->|Hne].
  - rewrite filter_cons_True, filter_nil, zlen_cons, zlen_nil by done.
    assert (q ≡ₚ zlen l :: filter (λ s, s ≠ zlen l) q) as Hp.
    { apply NoDup_Permutation; [done| |].
      - constructor; [rewrite list_elem_of_filter; tauto|by apply NoDup_filter].
      - intros s. rewrite elem_of_cons, list_elem_of_filter. split.
        + destruct (decide (s = zlen l)); auto.
        + intros [->|[_ ?]]; [|done]. apply Hq. split; [done|]. apply lookup_snoc_Z; auto. }
    unfold zlen at 1. rewrite Hp. cbn.
    rewrite <- (IH (filter (λ s, s ≠ zlen l) q)); [unfold zlen; lia|by apply NoDup_filter|].
    intros s. rewrite list_elem_of_filter, Hq. split.
    + intros [Hs [Hs0 [?|[? _]]%lookup_snoc_Z]]; [done|done|done].
    + intros [Hs0 Hs]. split_and!; [|done|apply lookup_snoc_Z; auto].
      intros ->. apply lookup_lt_Some in Hs. unfold zlen in Hs. lia.
  - rewrite filter_cons_False, filter_nil, zlen_nil by done. rewrite (IH q); [lia|done|].
    intros s. rewrite Hq. split.
    + intros [Hs [?|[_ ?]]%lookup_snoc_Z]; done.
    + intros [? ?]. split; [done|]. apply lookup_snoc_Z; auto.
Qed.

Section rebalance_facts.
Context `{!MapRange}.
Implicit Types (groups : gmap Z (list string)) (shards : list Z).

(** The table after the first loop. *)
Definition tableOf groups shards : gmap Z (list Z) := collectShards shards ((λ _, []) <$> groups).

Lemma rebalance_eq groups shards isJoin isFirst :
  rebalanceShard groups shards isJoin isFirst =
  if isJoin && negb isFirst then
    g2s ← joinLoop joinFuel (sortedGIDs groups) (tableOf groups shards);
    writeGroups (map_range g2s) shards
  else if 0 <? zlen (map_range groups) then
    writeGroups (map_range (adoptLoop (sortedGIDs groups)
      (orphans (tableOf groups shards) shards) (tableOf groups shards))) shards
  else writeGroups (map_range (tableOf groups shards)) (replicate (Z.to_nat NShards) 0).
Proof. unfold rebalanceShard. cbv zeta. by rewrite range_empty. Qed.

Lemma tableOf_spec groups shards :
  zlen shards = NShards →
  let g2s := tableOf groups shards in
  tableOk g2s ∧ keysOk (sortedGIDs groups) g2s ∧ (∀ g, is_Some (g2s !! g) ↔ g ∈ dom groups) ∧
  (∀ g q s, g2s !! g = Some q → s ∈ q ↔ 0 <= s ∧ shards !! Z.to_nat s = Some g) ∧
  (∀ g q, g2s !! g = Some q → NoDup q).
Proof.
  intros Hlen g2s.
  destruct (collectShards_spec ((λ _, []) <$> groups) shards) as [Hdom Hel].
  { intros g q Hq. by apply lookup_fmap_Some in Hq as (? & <- & _). }
  assert (∀ g, is_Some (g2s !! g) ↔ g ∈ dom groups) as Hk.
  { intros g. subst g2s. unfold tableOf. by rewrite Hdom, lookup_fmap, fmap_is_Some, elem_of_dom. }
  split_and!; [constructor| |done| |].
  - intros g q Hq. destruct (Hel g q Hq) as [Hnd Hs]. split; [done|].
    intros s [H0 Hl]%Hs. apply lookup_lt_Some in Hl. unfold zlen in Hlen. lia.
  - intros g h q r s Hq Hr Hs1 Hs2. apply (Hel _ _ Hq) in Hs1 as [_ H1].
    apply (Hel _ _ Hr) in Hs2 as [_ H2]. congruence.
  - intros g. by rewrite sortedGIDs_elem, Hk.
  - intros g q s Hq. by apply Hel.
  - intros g q Hq. by apply (Hel g q).
Qed.

Lemma tableOf_held groups shards s :
  zlen shards = NShards →
  held (tableOf groups shards) s ↔ 0 <= s ∧ ∃ g, shards !! Z.to_nat s = Some g ∧ g ∈ dom groups.
Proof.
  intros Hlen. destruct (tableOf_spec groups shards Hlen) as (_ & _ & Hk & Hel & _). split.
  - intros (g & q & Hq & Hs). pose proof (Hel _ _ s Hq) as E. apply E in Hs as [? ?].
    split; [done|]. exists g. split; [done|]. apply Hk. by eexists.
  - intros (H0 & g & Hg & [q Hq]%Hk). exists g, q. split; [done|]. by apply (Hel _ _ s Hq).
Qed.

(** The counts of the result are the lengths of the table's lists when
    nothing outside the table has one of its groups. *)
Lemma table_counts g2s groups r' :
  tableOk g2s → (∀ g, is_Some (g2s !! g) ↔ g ∈ dom groups) →
  (∀ g q s, g2s !! g = Some q → s ∈ q → r' !! Z.to_nat s = Some g) →
  (∀ s g, 0 <= s → ¬ held g2s s → r' !! Z.to_nat s = Some g → g ∉ dom groups) →
  (∀ g q, g2s !! g = Some q → zlen q = shardCount g r') ∧
  (tableBalanced g2s → balanced groups r').
Proof.
  intros Ht Hk Hin Hout.
  assert (∀ g q, g2s !! g = Some q → zlen q = shardCount g r') as Hc.
  { intros g q Hq. destruct (tb_list _ Ht _ _ Hq) as [Hnd Hr]. apply shardCount_positions; [done|].
    intros s. split.
    - intros Hs. split; [by apply Hr|by eapply Hin].
    - intros [H0 Hs]. destruct (decide (s ∈ q)) as [|Hn]; [done|]. exfalso.
      apply (Hout s g); [done| |done|apply Hk; by eexists].
      intros (h & q' & Hq' & Hs'). pose proof (Hin h q' s Hq' Hs') as E. by simplify_eq. }
  split; [done|]. intros Hb g h [q Hq]%Hk [r Hr]%Hk.
  rewrite <- (Hc _ _ Hq), <- (Hc _ _ Hr). by eapply Hb.
Qed.

Lemma joinFuel_enough groups shards :
  zlen shards = NShards →
  squares (sortedGIDs groups) (tableOf groups shards) < Z.of_nat joinFuel.
Proof.
  intros Hlen. destruct (tableOf_spec groups shards Hlen) as (Ht & Hk & _).
  pose proof (squares_bound _ (sortedGIDs_NoDup groups) _ Ht Hk).
  unfold joinFuel, NShards in *. lia.
Qed.

Lemma rebalance_join_spec groups shards :
  zlen shards = NShards →
  ∃ shards', rebalanceShard groups shards true false = Ret shards' ∧
    zlen shards' = NShards ∧ balanced groups shards' ∧
    (∀ s g, shards !! s = Some g → g ∉ dom groups → shards' !! s = Some g) ∧
    (∀ s g, shards !! s = Some g → g ∈ dom groups →
       ∃ g', shards' !! s = Some g' ∧ g' ∈ dom groups).
Proof.
  intros Hlen. rewrite rebalance_eq. cbn [andb negb].
  destruct (tableOf_spec groups shards Hlen) as (Ht & Hk & Hdom & _).
  destruct (joinLoop_spec _ (sortedGIDs_NoDup groups) joinFuel _ Ht Hk (joinFuel_enough _ _ Hlen))
    as (g2s & -> & Ht' & Hk' & Hheld & Hbal). cbn.
  destruct (writeTable_spec g2s shards Ht' Hlen) as (r & -> & Hl & Hin & Hout).
  assert (∀ g, is_Some (g2s !! g) ↔ g ∈ dom groups) as Hdom'
    by (intros g; by rewrite <- (Hk' g), (Hk g), Hdom).
  assert (∀ s g, 0 <= s → ¬ held g2s s → r !! Z.to_nat s = Some g → g ∉ dom groups) as Hrest.
  { intros s g H0 Hn Hg Hd. apply Hn, Hheld, (tableOf_held _ _ _ Hlen). split; [done|].
    exists g. split; [|done]. by rewrite <- (Hout s H0 Hn). }
  exists r. split; [done|]. split; [unfold zlen in *; congruence|].
  split; [by apply (table_counts g2s groups r Ht' Hdom' Hin Hrest)|]. split.
  - intros s g Hs Hg. rewrite <- (Nat2Z.id s) in Hs |- *. rewrite Hout; [done|lia|].
    rewrite Hheld, (tableOf_held _ _ _ Hlen). intros (_ & h & Hh & Hd). congruence.
  - intros s g Hs Hg. rewrite <- (Nat2Z.id s) in Hs.
    assert (held g2s (Z.of_nat s)) as (h & q & Hq & Hsq).
    { apply Hheld, (tableOf_held _ _ _ Hlen). split; [lia|]. eauto. }
    exists h. rewrite <- (Nat2Z.id s). split; [by eapply Hin|]. apply Hdom'. by eexists.
Qed.

Lemma map_range_nil groups : groups ≠ ∅ ↔ (0 <? zlen (map_range groups)) = true.
Proof.
  rewrite Z.ltb_lt. unfold zlen. rewrite (map_range_perm groups). split.
  - intros Hne. destruct (map_to_list groups) eqn:E; [|cbn; lia]. by apply map_to_list_empty_iff in E.
  - intros Hl ->. rewrite map_to_list_empty in Hl. cbn in Hl. lia.
Qed.

(** The table after all orphans have been given away. *)
Definition adopted groups shards : gmap Z (list Z) :=
  adoptLoop (sortedGIDs groups) (orphans (tableOf groups shards) shards) (tableOf groups shards).

Lemma adopted_spec groups shards :
  zlen shards = NShards → groups ≠ ∅ →
  let g2s := adopted groups shards in
  tableOk g2s ∧ (∀ g, is_Some (g2s !! g) ↔ g ∈ dom groups) ∧
  (∀ s, 0 <= s < NShards → held g2s s) ∧
  (∀ g q s, tableOf groups shards !! g = Some q → s ∈ q → ∃ q', g2s !! g = Some q' ∧ s ∈ q') ∧
  (tableBalanced (tableOf groups shards) → tableBalanced g2s).
Proof.
  intros Hlen Hne g2s. destruct (tableOf_spec groups shards Hlen) as (Ht & Hk & Hdom & _).
  destruct (orphans_spec (tableOf groups shards) shards) as [Hnd Horph].
  assert (sortedGIDs groups ≠ []) as Hgids.
  { apply map_choose in Hne as (g & v & Hg). intros E.
    assert (g ∈ sortedGIDs groups) as Hin by (apply sortedGIDs_elem, elem_of_dom; by eexists).
    rewrite E in Hin. by apply not_elem_of_nil in Hin. }
  destruct (adoptLoop_spec _ (sortedGIDs_NoDup groups) (orphans (tableOf groups shards) shards)
    (tableOf groups shards) Hgids Ht Hk Hnd) as (Ht' & Hk' & Hheld & Hkeep & Hbal).
  { intros s (H0 & g & Hg & Hn)%Horph. split.
    - rewrite (tableOf_held _ _ _ Hlen). intros (_ & h & Hh & [q Hq]%Hdom). congruence.
    - apply lookup_lt_Some in Hg. unfold zlen in Hlen. lia. }
  split_and!; [done| | |done|done].
  { intros g. unfold g2s, adopted. by rewrite <- (Hk' g), (Hk g), Hdom. }
  intros s Hs. apply Hheld. destruct (lookup_lt_is_Some_2 shards (Z.to_nat s)) as [g Hg];
    [unfold zlen in Hlen; lia|].
  destruct (decide (g ∈ dom groups)) as [Hd|Hd].
  - left. apply (tableOf_held _ _ _ Hlen). split; [lia|eauto].
  - right. apply Horph. split; [lia|]. exists g. split; [done|].
    destruct (tableOf groups shards !! g) eqn:E; [|done]. destruct Hd. apply Hdom. by eexists.
Qed.

Lemma rebalance_adopt_spec groups shards isJoin isFirst :
  zlen shards = NShards → groups ≠ ∅ → isJoin && negb isFirst = false →
  ∃ shards', rebalanceShard groups shards isJoin isFirst = Ret shards' ∧
    zlen shards' = NShards ∧
    (balanced groups shards → balanced groups shards') ∧
    (∀ s g, shards !! s = Some g → g ∈ dom groups → shards' !! s = Some g) ∧
    (∀ s g, shards' !! s = Some g → g ∈ dom groups).
Proof.
  intros Hlen Hne Hj. rewrite rebalance_eq, Hj. apply map_range_nil in Hne as Hne'. rewrite Hne'.
  destruct (tableOf_spec groups shards Hlen) as (Ht & _ & Hdom & Hel & _).
  destruct (adopted_spec groups shards Hlen Hne) as (Ht' & Hdom' & Hall & Hkeep & Hbal).
  fold (adopted groups shards). set (g2s := adopted groups shards) in *. clearbody g2s.
  destruct (writeTable_spec g2s shards Ht' Hlen) as (r & -> & Hl & Hin & Hout).
  assert (∀ s g, 0 <= s → r !! Z.to_nat s = Some g → held g2s s) as Hall'.
  { intros s g H0 Hg. apply Hall. apply lookup_lt_Some in Hg. unfold zlen in Hlen. lia. }
  exists r. split; [done|]. split; [unfold zlen in *; congruence|]. split_and!.
  - intros Hb. apply (table_counts g2s groups r Ht' Hdom' Hin).
    { intros s g H0 Hn Hg. by destruct Hn; eapply Hall'. }
    apply Hbal. intros g h q q' Hq Hq'.
    destruct (table_counts (tableOf groups shards) groups shards Ht Hdom) as [Hc _].
    { intros x qx s Hx Hs. by apply (Hel _ _ s Hx) in Hs as [_ ?]. }
    { intros s x H0 Hn Hx Hd. apply Hn, (tableOf_held _ _ _ Hlen). eauto. }
    rewrite (Hc _ _ Hq), (Hc _ _ Hq'). apply Hb; apply Hdom; by eexists.
  - intros s g Hs Hg. rewrite <- (Nat2Z.id s) in Hs |- *. apply Hdom in Hg as [q Hq].
    assert (Z.of_nat s ∈ q) as Hsq by (apply (Hel _ _ _ Hq); split; [lia|done]).
    destruct (Hkeep g q _ Hq Hsq) as (q' & Hq' & Hsq'). by eapply Hin.
  - intros s g Hs. rewrite <- (Nat2Z.id s) in Hs. destruct (Hall' (Z.of_nat s) g) as (h & q & Hq & Hsq); [lia|done|].
    rewrite (Hin _ _ _ Hq Hsq) in Hs. injection Hs as <-. apply Hdom'. by eexists.
Qed.

Lemma rebalance_empty_spec shards isJoin isFirst :
  isJoin && negb isFirst = false →
  rebalanceShard ∅ shards isJoin isFirst = Ret (replicate (Z.to_nat NShards) 0).
Proof.
  intros Hj. rewrite rebalance_eq, Hj.
  destruct (0 <? zlen (map_range ∅)) eqn:E; [by apply map_range_nil in E|].
  assert (tableOf ∅ shards = ∅) as ->.
  { unfold tableOf. rewrite fmap_empty. apply map_empty. intros g.
    destruct (collectShards_spec ∅ shards) as [Hd _]; [by intros ? ? ?|].
    apply eq_None_not_Some. rewrite Hd, lookup_empty. by intros []. }
  assert (map_range (∅ : gmap Z (list Z)) = []) as ->; [|done].
  apply Permutation_nil_r. by rewrite map_range_perm, map_to_list_empty.
Qed.
End rebalance_facts.

(** C20. [rebalanceShard] always returns, with an assignment of all shards: no
    shard that has a group ends without one; a later Join ends with the groups
    balanced; a Leave or first Join moves no shard of a remaining group, gives
    every other shard to an existing group, and keeps balanced groups
    balanced; without groups every shard goes to the invalid group 0. *)
Theorem rebalance_correct `{!MapRange} groups shards isJoin isFirst :
  zlen shards = NShards →
  ∃ shards', rebalanceShard groups shards isJoin isFirst = Ret shards' ∧ zlen shards' = NShards ∧
    (∀ s g, shards !! s = Some g → g ∈ dom groups →
       ∃ g', shards' !! s = Some g' ∧ g' ∈ dom groups) ∧
    if isJoin && negb isFirst then balanced groups shards'
    else if decide (groups = ∅) then shards' = replicate (Z.to_nat NShards) 0
    else (∀ s g, shards !! s = Some g → g ∈ dom groups → shards' !! s = Some g) ∧
         (∀ s g, shards' !! s = Some g → g ∈ dom groups) ∧
         (balanced groups shards → balanced groups shards').
Proof.
  intros Hlen. destruct (isJoin && negb isFirst) eqn:E.
  - apply andb_true_iff in E as [-> ->%negb_true_iff].
    destruct (rebalance_join_spec groups shards Hlen) as (r & -> & Hr & Hb & _ & Hk). exists r. by split_and!.
  - case_decide as Hg.
    + subst groups. rewrite rebalance_empty_spec by done. eexists. split_and!; [done..| |done].
      intros s g _ Hd. by rewrite dom_empty_L, elem_of_empty in Hd.
    + destruct (rebalance_adopt_spec groups shards isJoin isFirst Hlen Hg E) as (r & -> & Hr & Hb & Hk & Ha).
      exists r. split_and!; try done. intros s g Hs Hd. exists g. split; [by apply Hk|done].
Qed.

(** The order in which maps are visited does not matter. *)
Lemma rebalance_order (M1 M2 : MapRange) groups shards isJoin isFirst :
  zlen shards = NShards →
  @rebalanceShard M1 groups shards isJoin isFirst = @rebalanceShard M2 groups shards isJoin isFirst.
Proof.
  intros Hlen. rewrite (@rebalance_eq M1), (@rebalance_eq M2), (sortedGIDs_unique M1 M2).
  assert (∀ g2s r, tableOk g2s → zlen r = NShards →
    writeGroups (@map_range M1 _ g2s) r = writeGroups (@map_range M2 _ g2s) r) as Hw.
  { intros g2s r Ht Hr.
    destruct (@writeTable_spec M1 g2s r Ht Hr) as (r1 & -> & Hl1 & Hin1 & Hout1).
    destruct (@writeTable_spec M2 g2s r Ht Hr) as (r2 & -> & Hl2 & Hin2 & Hout2).
    f_equal. apply list_eq. intros s. rewrite <- (Nat2Z.id s).
    destruct (decide (Exists (λ gq, Z.of_nat s ∈ gq.2) (map_to_list g2s))) as [He|Hn].
    - apply Exists_exists in He as ([g q] & Hg%elem_of_map_to_list & Hs).
      by rewrite (Hin1 g q), (Hin2 g q).
    - assert (¬ held g2s (Z.of_nat s)) as Hh.
      { intros (g & q & Hg & Hs). apply Hn, Exists_exists. exists (g, q). split; [|done].
        by apply elem_of_map_to_list. }
      by rewrite Hout1, Hout2 by (done || lia). }
  destruct (@tableOf_spec M2 groups shards Hlen) as (Ht & Hk & _).
  destruct (isJoin && negb isFirst).
  - destruct (joinLoop_spec _ (@sortedGIDs_NoDup M2 _ groups) joinFuel _ Ht Hk
      (@joinFuel_enough M2 groups shards Hlen)) as (g2s & -> & Ht' & _). cbn. by apply Hw.
  - assert (zlen (@map_range M1 _ groups) = zlen (@map_range M2 _ groups)) as ->
      by (unfold zlen; by rewrite !map_range_perm).
    destruct (0 <? zlen (@map_range M2 _ groups)) eqn:E; [|by apply Hw].
    apply Hw; [|done]. apply (@adopted_spec M2 groups shards Hlen). by apply map_range_nil in E.
Qed.
