(* ===== verification/ShardConfigs.v ===== *)
(** * ShardConfigs: the sequence of configurations and its clients

    The configurations of a [ShardCtrler] under any sequence of well-formed
    commands, the clerk of [src/src/shardctrler/client.go], and three inputs
    on which the service does not do what its comments say. *)

From S2P Require Import Prelude Labgob Persister RaftState RaftService ShardCtrler ShardRebalance.
Local Open Scope Z_scope.

(** ** The configurations *)

(** Every shard is with an existing group; without groups, with group 0. *)
Record cfgOk (c : Config) : Prop := {
  cfg_len : zlen (Shards c) = NShards;
  cfg_zero : 0 ∉ dom (Groups c);
  cfg_assigned : if decide (Groups c = ∅) then Shards c = replicate (Z.to_nat NShards) 0
                 else ∀ s g, Shards c !! s = Some g → g ∈ dom (Groups c);
}.

Definition configsOk (cs : list Config) : Prop :=
  cs ≠ [] ∧ ∀ i c, cs !! i = Some c → Num c = Z.of_nat i ∧ cfgOk c.

(** No group is called 0, and a shard is moved to a group that exists. *)
Definition opOk (op : Op) (c : Config) : Prop :=
  match op_Args op with
  | JOIN args => 0 ∉ dom (ja_Servers args)
  | MOVE args => 0 <= ma_Shard args < NShards ∧ ma_GID args ∈ dom (Groups c)
  | _ => True
  end.

Section configs.
Context {MR : MapRange}.

Lemma deepCopy_eq c : createNewConfigDeepCopy c = mkConfig (Num c + 1) (Shards c) (Groups c).
Proof. unfold createNewConfigDeepCopy. by rewrite range_insert, map_union_empty. Qed.

Lemma lastConfig_Ret cs c : cs !! (length cs - 1)%nat = Some c → lastConfig cs = Ret c.
Proof.
  intros H. pose proof (lookup_lt_Some _ _ _ H). apply slice_get_Ret. unfold zlen. split; [lia|].
  by replace (Z.to_nat (Z.of_nat (length cs) - 1)) with (length cs - 1)%nat by lia.
Qed.

Lemma configsOk_snoc cs c last :
  configsOk cs → cs !! (length cs - 1)%nat = Some last → Num c = Num last + 1 → cfgOk c →
  configsOk (cs ++ [c]).
Proof.
  intros [Hne Hall] Hlast Hnum Hc. split; [by destruct cs|].
  intros i x [Hi|[Hlen Hi]]%lookup_app_Some; [by apply Hall|].
  apply list_lookup_singleton_Some in Hi as [Hz <-]. split; [|done].
  destruct (Hall _ _ Hlast) as [Hn _]. apply lookup_lt_Some in Hlast. lia.
Qed.

(** Shards of a configuration without groups belong to nobody, so that any
    groups are balanced on them. *)
Lemma balanced_zeros groups : 0 ∉ dom groups → balanced groups (replicate (Z.to_nat NShards) 0).
Proof.
  intros H0 g h Hg Hh.
  assert (∀ x, x ∈ dom groups → shardCount x (replicate (Z.to_nat NShards) 0) = 0) as Hc.
  { intros x Hx. unfold shardCount.
    assert (filter (λ y, y = x) (replicate (Z.to_nat NShards) 0) = []) as ->; [|done].
    apply elem_of_nil_inv. intros y [-> Hy]%list_elem_of_filter.
    apply elem_of_replicate in Hy as [-> _]. done. }
  rewrite !Hc by done. lia.
Qed.

Lemma join_cfgOk last servers :
  cfgOk last → 0 ∉ dom servers →
  let groups := servers ∪ Groups last in
  ∃ shards, rebalanceShard groups (Shards last) true (bool_decide (size (Groups last) = 0%nat)) = Ret shards ∧
    cfgOk (mkConfig (Num last + 1) shards groups) ∧ balanced groups shards.
Proof.
  intros [Hlen Hz Ha] H0 groups.
  assert (0 ∉ dom groups) as Hz' by (subst groups; rewrite dom_union_L, elem_of_union; tauto).
  case_decide as Hg.
  - rewrite bool_decide_true by (by rewrite Hg, map_size_empty). rewrite Ha. subst groups. rewrite Hg, map_union_empty in *.
    destruct (decide (servers = ∅)) as [->|Hne].
    + rewrite rebalance_empty_spec by done. eexists. split; [done|]. split; [by constructor|].
      intros g h Hd. by rewrite dom_empty_L, elem_of_empty in Hd.
    + destruct (rebalance_adopt_spec servers (replicate (Z.to_nat NShards) 0) true true)
        as (r & -> & Hr & Hb & _ & Hall); [done..|].
      exists r. split; [done|]. split; [constructor; cbn; [done..|by rewrite decide_False]|].
      apply Hb, balanced_zeros. done.
  - assert (bool_decide (size (Groups last) = 0%nat) = false) as ->
      by (apply bool_decide_eq_false; by rewrite map_size_empty_iff).
    destruct (rebalance_join_spec groups (Shards last) Hlen) as (r & -> & Hr & Hb & _ & Hk).
    exists r. split; [done|]. split; [|done]. constructor; cbn; [done..|].
    assert (dom (Groups last) ⊆ dom groups) as Hsub by (subst groups; rewrite dom_union_L; set_solver).
    rewrite decide_False.
    + intros s g Hs. destruct (lookup_lt_is_Some_2 (Shards last) s) as [x Hx].
      { apply lookup_lt_Some in Hs. unfold zlen in *. lia. }
      destruct (Hk s x Hx) as (g' & Hg' & Hd); [by eapply Hsub, Ha|]. congruence.
    + intros E. apply Hg, dom_empty_iff_L. rewrite E, dom_empty_L in Hsub. set_solver.
Qed.

Lemma leave_cfgOk last groups :
  cfgOk last → dom groups ⊆ dom (Groups last) →
  ∃ shards, rebalanceShard groups (Shards last) false false = Ret shards ∧
    cfgOk (mkConfig (Num last + 1) shards groups) ∧
    (balanced groups (Shards last) → balanced groups shards).
Proof.
  intros [Hlen Hz Ha] Hsub. assert (0 ∉ dom groups) as Hz' by set_solver.
  destruct (decide (groups = ∅)) as [->|Hne].
  - rewrite rebalance_empty_spec by done. eexists. split; [done|]. split; [by constructor|].
    intros _ g h Hd. by rewrite dom_empty_L, elem_of_empty in Hd.
  - destruct (rebalance_adopt_spec groups (Shards last) false false Hlen Hne)
      as (r & -> & Hr & Hb & _ & Hall); [done|].
    exists r. split; [done|]. split; [|done]. constructor; cbn; [done..|by rewrite decide_False].
Qed.

Lemma deleteAll_dom (m : gmap Z (list string)) gids : dom (foldl (λ m gid, delete gid m) m gids) ⊆ dom m.
Proof.
  revert m. induction gids as [|g gids IH]; intros m; cbn; [done|].
  etrans; [apply IH|]. rewrite dom_delete_L. set_solver.
Qed.

(** C24. On a well-formed sequence of configurations every well-formed command
    is executed without a panic; configurations are only ever appended, are
    numbered by their position, and leave no shard without a group while
    there is one.  After a Join the groups are balanced, and a Leave keeps
    balanced groups balanced; a repeated request changes nothing; a Query is
    answered with the configuration asked for, or the last one. *)
Theorem ctrler_apply_ok cs last op duplicated :
  configsOk cs → cs !! (length cs - 1)%nat = Some last → opOk op last →
  ∃ cs' response, applyOp op duplicated cs = Ret (cs', response) ∧
    configsOk cs' ∧ wr_err response = OK ∧
    match op_Args op with
    | QUERY args =>
        cs' = cs ∧ wr_config response =
          (if (qa_Num args <? 0) || (zlen cs - 1 <=? qa_Num args) then last
           else default last (cs !! Z.to_nat (qa_Num args)))
    | args =>
        if duplicated then cs' = cs else
        ∃ c, cs' = cs ++ [c] ∧ Num c = Num last + 1 ∧
          match args with
          | JOIN a => Groups c = ja_Servers a ∪ Groups last ∧ balanced (Groups c) (Shards c)
          | LEAVE a => dom (Groups c) ⊆ dom (Groups last) ∧
              (balanced (Groups c) (Shards last) → balanced (Groups c) (Shards c))
          | MOVE a => Groups c = Groups last ∧
              Shards c = <[Z.to_nat (ma_Shard a) := ma_GID a]> (Shards last)
          | QUERY _ => True
          end
    end.
Proof.
  intros Hcs Hlast Hop. pose proof (proj2 Hcs _ _ Hlast) as [Hnum Hcfg].
  pose proof (lastConfig_Ret _ _ Hlast) as El. unfold applyOp, opOk in *.
  destruct (op_Args op) as [a|a|a|a] eqn:Ea.
  - destruct duplicated; [by eexists _, _|]. rewrite El. cbn [mbind outcome_bind]. rewrite deepCopy_eq. cbn [Num Shards Groups]. rewrite range_insert.
    destruct (join_cfgOk last (ja_Servers a) Hcfg Hop) as (r & -> & Hok & Hb). cbn.
    eexists _, _. split; [done|]. split; [by eapply configsOk_snoc|]. split; [done|]. by eexists.
  - destruct duplicated; [by eexists _, _|]. rewrite El. cbn [mbind outcome_bind]. rewrite deepCopy_eq. cbn [Num Shards Groups].
    destruct (leave_cfgOk last _ Hcfg (deleteAll_dom (Groups last) (la_GIDs a))) as (r & -> & Hok & Hb). cbn.
    eexists _, _. split; [done|]. split; [by eapply configsOk_snoc|]. split; [done|].
    eexists. split; [done|]. split; [done|]. split; [apply deleteAll_dom|done].
  - destruct duplicated; [by eexists _, _|]. rewrite El. cbn [mbind outcome_bind]. rewrite deepCopy_eq. cbn [Num Shards Groups].
    destruct Hop as [Hs Hg]. pose proof Hcfg as [Hlen Hz Ha].
    assert (slice_set (Shards last) (ma_Shard a) (ma_GID a) =
      Ret (<[Z.to_nat (ma_Shard a) := ma_GID a]> (Shards last))) as ->
      by (apply slice_set_Ret; split; [lia|done]). cbn.
    eexists _, _. split; [done|]. split; [eapply configsOk_snoc; [done..|]|split; [done|by eexists]].
    constructor; cbn; [unfold zlen in *; by rewrite length_insert|done|].
    case_decide as He; [rewrite He, dom_empty_L in Hg; set_solver|].
    intros s g [(_ & <- & _)|[_ ?]]%list_lookup_insert_Some; [done|by eapply Ha].
  - destruct ((qa_Num a <? 0) || (zlen cs - 1 <=? qa_Num a)) eqn:E.
    + rewrite El. cbn. by eexists _, _.
    + zbool. destruct (slice_get_in_range cs (qa_Num a)) as [c Hc]; [lia|]. rewrite Hc. cbn.
      apply slice_get_Ret in Hc as [_ Hc]. rewrite Hc. by eexists _, _.
Qed.
End configs.

(** ** Replicas *)

Section replicas.
Context {R P SV : Type} `{!RaftService R P Op SV}.
Implicit Types sc : ShardCtrler R.

(** Same configurations, same table, same place in the log. *)
Definition sameConfigs sc1 sc2 : Prop :=
  configs sc1 = configs sc2 ∧ sc_latestAppliedRequest sc1 = sc_latestAppliedRequest sc2 ∧
  sc_latestAppliedRaftIndex sc1 = sc_latestAppliedRaftIndex sc2.

Definition lengthsOk (cs : list Config) : Prop := ∀ c, c ∈ cs → zlen (Shards c) = NShards.

Lemma rebalance_length (M : MapRange) groups shards j f r :
  zlen shards = NShards → rebalanceShard groups shards j f = Ret r → zlen r = NShards.
Proof.
  intros Hl H. destruct (j && negb f) eqn:E.
  - apply andb_true_iff in E as [-> ->%negb_true_iff].
    destruct (rebalance_join_spec groups shards Hl) as (r' & H' & ? & _). congruence.
  - destruct (decide (groups = ∅)) as [->|Hne].
    + rewrite rebalance_empty_spec in H by done. by injection H as <-.
    + destruct (rebalance_adopt_spec groups shards j f Hl Hne E) as (r' & H' & ? & _). congruence.
Qed.

Lemma lastConfig_elem cs c : lastConfig cs = Ret c → c ∈ cs.
Proof. intros [_ H]%slice_get_Ret. by eapply list_elem_of_lookup_2. Qed.

Lemma applyOp_lengths (M : MapRange) op d cs cs' r :
  lengthsOk cs → applyOp op d cs = Ret (cs', r) → lengthsOk cs'.
Proof.
  intros Hl H.
  assert (∀ c, zlen (Shards c) = NShards → lengthsOk (cs ++ [c])) as Hsnoc.
  { intros c Hc x [Hx| ->%list_elem_of_singleton]%elem_of_app; [by apply Hl|done]. }
  unfold applyOp in H. destruct (op_Args op) as [a|a|a|a].
  - destruct d; [by simplify_eq|]. apply bind_Ret in H as (last & Hlast & H).
    apply bind_Ret in H as (r' & Hr & [= <- _]). apply Hsnoc. cbn. eapply rebalance_length; [|done].
    rewrite deepCopy_eq. cbn. by apply Hl, lastConfig_elem.
  - destruct d; [by simplify_eq|]. apply bind_Ret in H as (last & Hlast & H).
    apply bind_Ret in H as (r' & Hr & [= <- _]). apply Hsnoc. cbn. eapply rebalance_length; [|done].
    rewrite deepCopy_eq. cbn. by apply Hl, lastConfig_elem.
  - destruct d; [by simplify_eq|]. apply bind_Ret in H as (last & Hlast & H).
    apply bind_Ret in H as (r' & [_ ->]%slice_set_Ret & [= <- _]). apply Hsnoc. cbn.
    unfold zlen. rewrite length_insert. by apply Hl, lastConfig_elem.
  - apply bind_Ret in H as (c & _ & [= <- _]). done.
Qed.

Lemma applyOp_order (M1 M2 : MapRange) op d cs :
  lengthsOk cs → @applyOp M1 op d cs = @applyOp M2 op d cs.
Proof.
  intros Hl. unfold applyOp. destruct (op_Args op) as [a|a|a|a]; try done; destruct d; try done;
    destruct (lastConfig cs) as [last| | |] eqn:E; try done; cbn [mbind outcome_bind];
    rewrite !deepCopy_eq; cbn [Shards Groups Num]; rewrite ?range_insert;
    [rewrite (rebalance_order M1 M2)..|]; try done; by apply Hl, lastConfig_elem.
Qed.

Fixpoint applyAll {M : MapRange} sc (msgs : list (ApplyMsg Op SV)) : outcome (ShardCtrler R) :=
  match msgs with
  | [] => Ret sc
  | msg :: rest => sc ← applyLoopStep sc msg; applyAll sc rest
  end.

Lemma applyLoopStep_same (M1 M2 : MapRange) sc1 sc2 msg sc1' sc2' :
  sameConfigs sc1 sc2 → lengthsOk (configs sc1) →
  @applyLoopStep R SV M1 sc1 msg = Ret sc1' → @applyLoopStep R SV M2 sc2 msg = Ret sc2' →
  sameConfigs sc1' sc2' ∧ lengthsOk (configs sc1').
Proof.
  intros Hs Hl H1 H2. pose proof Hs as (Hc & Hlar & Hi). unfold applyLoopStep in *.
  destruct msg as [command index|]; [|by simplify_eq].
  rewrite <- Hi, <- Hlar, <- Hc in H2.
  destruct (index <=? _); [by simplify_eq|]. destruct command as [op|]; [|done].
  destruct (checkDuplicate (sc_latestAppliedRequest sc1) op) as [lar d].
  rewrite <- (applyOp_order M1 M2) in H2 by done.
  destruct (@applyOp M1 op d (configs sc1)) as [[cs r]| | |] eqn:E; try done.
  cbn [mbind outcome_bind] in *. pose proof (applyOp_lengths M1 _ _ _ _ _ Hl E) as Hl'.
  destruct (sc_waitChs sc1 !! index) as [[|]|], (sc_waitChs sc2 !! index) as [[|]|];
    simplify_eq; (split; [by split_and!|done]).
Qed.

(** Two servers that start from the same configurations and receive the
    same messages end with the same configurations, the same table of
    executed requests and at the same index, although each visits its maps
    in an order of its own and has its own waiting handlers. *)
Theorem ctrler_replicas_agree (M1 M2 : MapRange) sc1 sc2 msgs sc1' sc2' :
  sameConfigs sc1 sc2 → lengthsOk (configs sc1) →
  @applyAll M1 sc1 msgs = Ret sc1' → @applyAll M2 sc2 msgs = Ret sc2' →
  sameConfigs sc1' sc2'.
Proof.
  revert sc1 sc2. induction msgs as [|msg msgs IH]; intros sc1 sc2 Hs Hl H1 H2; cbn in *.
  - by simplify_eq.
  - apply bind_Ret in H1 as (x1 & E1 & H1). apply bind_Ret in H2 as (x2 & E2 & H2).
    destruct (applyLoopStep_same M1 M2 _ _ _ _ _ Hs Hl E1 E2) as [Hs' Hl']. by eapply IH.
Qed.
End replicas.

(** ** client.go *)

Record Clerk := mkClerk { ck_servers : Z; lastLeader : Z; clientId : Z; requestId : Z }.

(** [nrand()] is the second argument. *)
Definition MakeClerk (servers id : Z) : Clerk := mkClerk servers 0 id 0.

Section clerk.
Context {B : Type} (replyErr : B → Err).
(** [call k i]: what the [k]-th [Call], to server [i], brings back. *)
Context (call : nat → Z → option B).

(** [ok && reply.Err != ErrWrongLeader]. *)
Definition accepted (k : nat) (i : Z) : option B :=
  reply ← call k i;
  if String.eqb (replyErr reply) ErrWrongLeader then None else Some reply.

(** [for index, srv := range ck.servers]: the answer and who gave it, and
    the number of calls made so far. *)
Fixpoint tryEach (k : nat) (ids : list Z) : option (B * Z) * nat :=
  match ids with
  | [] => (None, k)
  | i :: rest =>
      match accepted k i with
      | Some reply => (Some (reply, i), S k)
      | None => tryEach (S k) rest
      end
  end.

(** One turn of the outer loop. *)
Definition oneRound (k : nat) (ck : Clerk) : outcome (option (B * Clerk) * nat) :=
  if (0 <=? lastLeader ck) && (lastLeader ck <? ck_servers ck) then
    match accepted k (lastLeader ck) with
    | Some reply =>
        Ret (Some (reply, mkClerk (ck_servers ck) (lastLeader ck) (clientId ck) (requestId ck + 1)), S k)
    | None =>
        let '(r, k) := tryEach (S k) (seqZ 0 (ck_servers ck)) in
        Ret (match r with
             | Some (reply, i) =>
                 Some (reply, mkClerk (ck_servers ck) i (clientId ck) (requestId ck + 1))
             | None => None
             end, k)
    end
  else Panic.

(** The outer loop for at most [rounds] turns. *)
Fixpoint rounds (n k : nat) (ck : Clerk) : outcome (option B * Clerk) :=
  match n with
  | O => Ret (None, ck)
  | S n' =>
      '(r, k) ← oneRound k ck;
      match r with
      | Some (reply, ck') => Ret (Some reply, ck')
      | None => rounds n' k ck
      end
  end.

(** An answer comes from a server of the list, and in a full round every
    server was asked in turn. *)
Lemma tryEach_spec k ids :
  match (tryEach k ids).1 with
  | Some (reply, i) => i ∈ ids ∧ ∃ n, accepted n i = Some reply
  | None => ∀ i, i ∈ ids → ∃ n, accepted n i = None
  end.
Proof.
  revert k. induction ids as [|x ids IH]; intros k; cbn; [intros i Hi; by apply not_elem_of_nil in Hi|].
  destruct (accepted k x) as [reply|] eqn:E; cbn.
  - split; [apply elem_of_cons; by left|by exists k].
  - specialize (IH (S k)). destruct (tryEach (S k) ids).1 as [[reply i]|].
    + destruct IH as [Hi ?]. split; [apply elem_of_cons; by right|done].
    + intros i [->|Hi]%elem_of_cons; [by exists k|by apply IH].
Qed.

Definition ctrlClerkOk (ck : Clerk) : Prop := 0 <= lastLeader ck < ck_servers ck.

Lemma rounds_spec n k ck :
  ctrlClerkOk ck →
  ∃ r ck', rounds n k ck = Ret (r, ck') ∧ ctrlClerkOk ck' ∧ clientId ck' = clientId ck ∧
    match r with
    | Some reply => requestId ck' = requestId ck + 1 ∧ ∃ m i, accepted m i = Some reply
    | None => ck' = ck ∧ (n ≠ 0%nat → ∀ i, 0 <= i < ck_servers ck → ∃ m, accepted m i = None)
    end.
Proof.
  intros Hck. revert k. induction n as [|n IH]; intros k; cbn; [by eexists _, _|].
  unfold oneRound. pose proof Hck as [H1 H2]. apply Z.leb_le in H1. apply Z.ltb_lt in H2. rewrite H1, H2. cbn.
  destruct (accepted k (lastLeader ck)) as [reply|] eqn:E; cbn.
  { eexists _, _. split; [done|]. split_and!; try done. by eexists _, _. }
  pose proof (tryEach_spec (S k) (seqZ 0 (ck_servers ck))) as Ht.
  destruct (tryEach (S k) (seqZ 0 (ck_servers ck))) as [[[reply i]|] k']; cbn in *.
  - destruct Ht as [Hi%elem_of_seqZ [m Hm]]. eexists _, _. split; [done|].
    split; [unfold ctrlClerkOk; cbn; lia|]. split; [done|]. split; [done|]. by eexists _, _.
  - destruct (IH k') as (r & ck' & -> & Hck' & Hid & Hr). eexists _, _. split; [done|].
    split_and!; try done. destruct r; [done|]. destruct Hr as [-> _]. split; [done|].
    intros _ i Hi. apply Ht, elem_of_seqZ. lia.
Qed.
End clerk.

(** [retryMaxTime] rounds, then [Config{}]. *)
Definition Query (call : nat → Z → QueryArgs → option QueryReply) (ck : Clerk) (num : Z) :
    outcome (Config * Clerk) :=
  let args := mkQueryArgs num (clientId ck) (requestId ck) in
  '(r, ck) ← rounds qr_Err (λ k i, call k i args) 5 0 ck;
  Ret (match r with Some reply => qr_Config reply | None => zeroConfig end, ck).

(** [Join], [Leave] and [Move] try for ever: [None] when the fuel is used up. *)
Definition Join (call : nat → Z → JoinArgs → option JoinReply) (fuel : nat) (ck : Clerk)
    (servers : gmap Z (list string)) : outcome (option JoinReply * Clerk) :=
  let args := mkJoinArgs servers (clientId ck) (requestId ck) in
  rounds jr_Err (λ k i, call k i args) fuel 0 ck.
Definition Leave (call : nat → Z → LeaveArgs → option JoinReply) (fuel : nat) (ck : Clerk)
    (gids : list Z) : outcome (option JoinReply * Clerk) :=
  let args := mkLeaveArgs gids (clientId ck) (requestId ck) in
  rounds jr_Err (λ k i, call k i args) fuel 0 ck.
Definition Move (call : nat → Z → MoveArgs → option JoinReply) (fuel : nat) (ck : Clerk)
    (shard gid : Z) : outcome (option JoinReply * Clerk) :=
  let args := mkMoveArgs shard gid (clientId ck) (requestId ck) in
  rounds jr_Err (λ k i, call k i args) fuel 0 ck.

(** [Query] always returns: with a configuration that some server answered to
    this request, and then the clerk goes on to the next request number, or,
    after five rounds in which every server failed, with the empty
    configuration, and then the clerk stays at the same request number. *)
Theorem clerk_query_returns call ck num :
  ctrlClerkOk ck →
  let args := mkQueryArgs num (clientId ck) (requestId ck) in
  ∃ config ck', Query call ck num = Ret (config, ck') ∧ ctrlClerkOk ck' ∧
    ((∃ k i reply, call k i args = Some reply ∧ qr_Err reply ≠ ErrWrongLeader ∧
        config = qr_Config reply ∧ requestId ck' = requestId ck + 1) ∨
     (∀ i, 0 <= i < ck_servers ck → ∃ k, accepted qr_Err (λ k i, call k i args) k i = None) ∧
       config = zeroConfig ∧ ck' = ck).
Proof.
  intros Hck args. unfold Query. fold args.
  destruct (rounds_spec qr_Err (λ k i, call k i args) 5 0 ck Hck) as (r & ck' & -> & Hck' & Hid & Hr).
  cbn. eexists _, _. split; [done|]. split; [done|]. destruct r as [reply|].
  - destruct Hr as [Hrq (m & i & Ha)]. left. exists m, i, reply.
    unfold accepted in Ha. apply bind_Some in Ha as (x & Hx & Ha).
    destruct (String.eqb_spec (qr_Err x) ErrWrongLeader); [done|]. by simplify_eq.
  - destruct Hr as [-> Hr]. right. split_and!; [by apply Hr|done..].
Qed.
