(* ===== verification/CtrlRaft.v ===== *)
(** * CtrlRaft: the configuration service on its Raft cluster

    The servers of ShardCtrler, each on a peer of the replicating cluster of
    RaftReplication, as one system; between a peer and its server is a [Feed] of
    RaftFeed, with the [applyLoop] of [src/src/shardctrler/server.go] at its end.  Every
    turn of [applyLoop] may visit its maps in another order.

    [ctrlraft_refines]: all servers execute one log of commands, the log of their peers.
    [ctrlraft_one_history]: of any two servers, one has the configurations of the other
    and perhaps more, which is what the shard servers rely on when they ask any of them
    for a configuration by its number. *)

From S2P Require Import Prelude Labgob Persister RaftState RaftRpc RaftLeader RaftPeer RaftCluster RaftLinks RaftReplication RaftQuorums RaftInvariant RaftSteps RaftAppends RaftSafety RaftApply RaftFeed RaftService ShardCtrler ShardRebalance ShardConfigs.
Local Open Scope Z_scope.

Abbreviation Ctrler := (ShardCtrler (Raft Op unit)).

Section ctrlraft.
Context `{!GobSize (RaftGob Op)}.

Record CtrlCluster := mkCtrlCluster {
  cc_raft : World Op unit;
  cc_servers : list Ctrler;
  cc_feeds : list (Feed Op unit);
}.

Inductive clabel :=
  | CRaft (l : rlabel Op unit)
  | CStart (p : nat) (op : Op)
  | CRegister (p : nat) (i : Z)
  | CAwait (p : nat) (i : Z) (timeout : bool)
  | CCheck (p : nat)
  | CBegin (p : nat)
  | CReceive (p : nat)
  | CApply (p : nat) (order : MapRange)
  | CEnd (p : nat)
  | CRestart (p : nat)
  | CKill (p : nat).

(** The steps of the cluster that are not refined here. *)
Definition craft (l : rlabel Op unit) : bool :=
  match l with
  | RStart _ _ | RRestart _ => false
  | RCluster (LNode _ OpApplyCheck) | RCluster (LNode _ (OpApplyEnd _)) | RCluster (LNode _ OpKill) => false
  | _ => true
  end.

(** [sc.rf] is the peer of the cluster. *)
Definition onPeer (rf : Raft Op unit) (sc : Ctrler) : Ctrler := set_waits sc rf (sc_waitChs sc).
Definition csync (w : World Op unit) (ss : list Ctrler) : list Ctrler := zip_with onPeer (nodes (cl w)) ss.

Definition cstep (l : clabel) (s : CtrlCluster) : option CtrlCluster :=
  let '(mkCtrlCluster w ss fs) := s in
  match l with
  | CRaft l => if craft l then w' ← rstep l w; Some (mkCtrlCluster w' (csync w' ss) fs) else None
  | CStart p op =>
      sc ← ss !! p;
      '(sc', _) ← returned (startOp sc op);
      if (GetState (sc_rf sc)).2 then
        w' ← rstep (RStart p op) w;
        Some (mkCtrlCluster w' (csync w' (<[p := sc']> ss)) fs)
      else Some (mkCtrlCluster w (<[p := sc']> ss) fs)
  | CRegister p i =>
      sc ← ss !! p; sc' ← returned (register sc i); Some (mkCtrlCluster w (<[p := sc']> ss) fs)
  | CAwait p i timeout =>
      sc ← ss !! p; '(sc', _) ← await sc i timeout; Some (mkCtrlCluster w (<[p := sc']> ss) fs)
  | CCheck p =>
      f ← fs !! p;
      rf ← nodes (cl w) !! p;
      if feedIdle f then
        '(_, next) ← returned (applyCheck rf);
        w' ← rstep (RCluster (LNode p OpApplyCheck)) w;
        Some (mkCtrlCluster w' (csync w' ss) (<[p := feedCheck next f]> fs))
      else None
  | CBegin p =>
      f ← fs !! p;
      rf ← nodes (cl w) !! p;
      next ← f_next f;
      batch ← returned (applyBegin rf next);
      Some (mkCtrlCluster w ss (<[p := feedBegin next batch f]> fs))
  | CReceive p =>
      f ← fs !! p; f' ← feedReceive f; Some (mkCtrlCluster w ss (<[p := f']> fs))
  | CApply p order =>
      f ← fs !! p;
      sc ← ss !! p;
      m ← f_inbox f;
      sc' ← returned (@applyLoopStep _ _ order sc m);
      Some (mkCtrlCluster w (<[p := sc']> ss) (<[p := feedTake f]> fs))
  | CEnd p =>
      f ← fs !! p;
      match f_batch f, f_msgs f with
      | Some es, [] =>
          w' ← rstep (RCluster (LNode p (OpApplyEnd es))) w;
          Some (mkCtrlCluster w' (csync w' ss) (<[p := feedEnd f]> fs))
      | _, _ => None
      end
  | CRestart p =>
      sc ← ss !! p;
      w' ← rstep (RRestart p) w;
      sc' ← returned (StartServer (peers (sc_rf sc)) (me (sc_rf sc)) (persister (sc_rf sc)));
      Some (mkCtrlCluster w' (csync w' (<[p := sc']> ss)) (<[p := idleFeed]> fs))
  | CKill p =>
      sc ← ss !! p;
      w' ← rstep (RCluster (LNode p OpKill)) w;
      Some (mkCtrlCluster w' (csync w' (<[p := Kill sc]> ss)) fs)
  end.

(** The server that [StartServer] makes on an empty persister. *)
Definition initCtrler (n p : nat) : Ctrler :=
  mkShardCtrler (Z.of_nat p) (initRaft n (Z.of_nat p) (mkPersister [] [])) [zeroConfig] ∅ ∅ 0.

Lemma initCtrler_start n p : StartServer n (Z.of_nat p) (mkPersister [] []) = Ret (initCtrler n p).
Proof. done. Qed.

Definition initCtrl (n : nat) : CtrlCluster :=
  mkCtrlCluster (initWorld n (λ _, [])) (initCtrler n <$> seq 0 n) (replicate n idleFeed).

(** The conditions of RaftSteps on the steps of the cluster. *)
Definition cbenign (l : clabel) (s : CtrlCluster) : Prop :=
  match l with CRaft l => sbenign l (cc_raft s) | _ => True end.

Inductive creach (n : nat) : CtrlCluster → Prop :=
  | creach_init : creach n (initCtrl n)
  | creach_step l s s' : creach n s → cbenign l s → cstep l s = Some s' → creach n s'.
End ctrlraft.

(** ** What the commands do *)

(** Maps in the order of their keys. *)
Definition keyOrder : MapRange := {| map_range A m := map_to_list m; map_range_perm A m := Permutation_refl _ |}.

(** The configurations and the table of requests after a command, and after a log. *)
Definition ctrlApply (st : list Config * gmap Z Z) (op : Op) : outcome (list Config * gmap Z Z) :=
  let '(lar, duplicated) := checkDuplicate st.2 op in
  '(cs, _) ← @applyOp keyOrder op duplicated st.1; Ret (cs, lar).
Definition ctrlRun (log : list Op) : outcome (list Config * gmap Z Z) :=
  foldl (λ m op, st ← m; ctrlApply st op) (Ret ([zeroConfig], ∅)) log.

Lemma ctrlRun_snoc log op : ctrlRun (log ++ [op]) = (st ← ctrlRun log; ctrlApply st op).
Proof. unfold ctrlRun. by rewrite foldl_app. Qed.

Lemma ctrlApply_prefix st op st' : ctrlApply st op = Ret st' → st.1 `prefix_of` st'.1.
Proof.
  unfold ctrlApply. destruct (checkDuplicate _ _) as [lar d]. intros ([cs r] & H & [= <-])%bind_Ret. cbn.
  unfold applyOp in H. destruct (op_Args op); try (destruct d; [by injection H as <- _|]);
    repeat (apply bind_Ret in H as (? & _ & H)); injection H as <- _; by apply prefix_app_r || done.
Qed.

Lemma ctrlRun_prefix log1 log2 st1 st2 :
  log1 `prefix_of` log2 → ctrlRun log1 = Ret st1 → ctrlRun log2 = Ret st2 → st1.1 `prefix_of` st2.1.
Proof.
  intros [l ->] H1. revert st2. induction l as [|op l IH] using rev_ind; intros st2 H2.
  - rewrite app_nil_r in H2. rewrite H1 in H2. by injection H2 as <-.
  - rewrite (assoc_L (++)), ctrlRun_snoc in H2. apply bind_Ret in H2 as (st & Hst & H2).
    etrans; [by apply IH|by eapply ctrlApply_prefix].
Qed.

(** A turn of [applyLoop], whatever order it visits its maps in. *)
Lemma applyLoopStep_core {SV R} (M : MapRange) (sc : ShardCtrler R) c sc' :
  lengthsOk (configs sc) →
  @applyLoopStep R SV M sc (CommandMsg c (sc_latestAppliedRaftIndex sc + 1)) = Ret sc' →
  ∃ op, c = Some op ∧ sc_rf sc' = sc_rf sc ∧ sc_latestAppliedRaftIndex sc' = sc_latestAppliedRaftIndex sc + 1 ∧
    lengthsOk (configs sc') ∧
    ctrlApply (configs sc, sc_latestAppliedRequest sc) op = Ret (configs sc', sc_latestAppliedRequest sc').
Proof.
  intros Hl H. unfold applyLoopStep in H. destruct (Z.leb_spec (sc_latestAppliedRaftIndex sc + 1) (sc_latestAppliedRaftIndex sc)); [lia|].
  destruct c as [op|]; [|done]. exists op. split; [done|]. unfold ctrlApply. cbn [fst snd].
  destruct (checkDuplicate (sc_latestAppliedRequest sc) op) as [lar d].
  destruct (@applyOp M op d (configs sc)) as [[cs r]| | |] eqn:E; try done. cbn [mbind outcome_bind] in H.
  pose proof (applyOp_lengths M _ _ _ _ _ Hl E) as Hl'. rewrite (applyOp_order M keyOrder _ _ _ Hl) in E. rewrite E. cbn.
  by destruct (sc_waitChs sc !! _) as [[|]|]; simplify_eq.
Qed.

(** ** The invariant *)
Section agreement.
Context `{!GobSize (RaftGob Op)}.
Implicit Types (w : World Op unit) (wn : Wins) (rf : Raft Op unit) (sc : Ctrler).
Implicit Types (f : Feed Op unit) (ss : list Ctrler) (fs : list (Feed Op unit)) (ops : list Op).

(** [ops] are the commands chosen from the first index on. *)
Definition allChosen w wn ops : Prop := ∀ x op, ops !! x = Some op → chosen w wn (Z.of_nat x + 1) (Some op).

(** The server has executed the chosen commands up to its index. *)
Definition ran w wn sc : Prop :=
  lengthsOk (configs sc) ∧
  ∃ ops, zlen ops = sc_latestAppliedRaftIndex sc ∧ allChosen w wn ops ∧ ctrlRun ops = Ret (configs sc, sc_latestAppliedRequest sc).

Definition served w wn rf sc f : Prop :=
  sc_rf sc = rf ∧ feedOk w wn rf (sc_latestAppliedRaftIndex sc) f ∧ ran w wn sc.

Record cinv (s : CtrlCluster) wn : Prop := {
  ci_raft : sinv (cc_raft s) wn;
  ci_servers : length (cc_servers s) = length (nodes (cl (cc_raft s)));
  ci_feeds : length (cc_feeds s) = length (nodes (cl (cc_raft s)));
  ci_ok p rf sc f : nodes (cl (cc_raft s)) !! p = Some rf → cc_servers s !! p = Some sc →
    cc_feeds s !! p = Some f → served (cc_raft s) wn rf sc f;
}.

Lemma allChosen_later w wn w' wn' ops : later w wn w' wn' → allChosen w wn ops → allChosen w' wn' ops.
Proof. intros Hl Hc x op Hx. eapply chosen_later; [done|]. by apply Hc. Qed.

(** Two logs of chosen commands agree. *)
Lemma allChosen_prefix w wn ops1 ops2 :
  ghostInv w wn → allChosen w wn ops1 → allChosen w wn ops2 → (length ops1 <= length ops2)%nat → ops1 `prefix_of` ops2.
Proof.
  intros Hg H1 H2 Hle. exists (drop (length ops1) ops2). rewrite <- (take_drop (length ops1) ops2) at 1. f_equal.
  apply list_eq_same_length with (length ops1); [done|rewrite length_take; lia|].
  intros x op op' _ Hx Hx'. apply lookup_take_Some in Hx as [Hx _].
  pose proof (chosen_fun _ _ _ _ _ Hg (H2 _ _ Hx) (H1 _ _ Hx')) as [= ->]. done.
Qed.

Lemma ran_later w wn w' wn' sc : later w wn w' wn' → ran w wn sc → ran w' wn' sc.
Proof. intros Hl (Hlen & ops & E & Hc & Hr). split; [done|]. exists ops. split_and!; [done|by eapply allChosen_later|done]. Qed.

Lemma served_later w wn w' wn' rf rf' sc f :
  later w wn w' wn' → RaftApply.served rf rf' → served w wn rf sc f → served w' wn' rf' (onPeer rf' sc) f.
Proof. intros Hl Hs (_ & Hf & Hr). split_and!; [done|by eapply feedOk_served|]. by eapply (ran_later w wn). Qed.

(** *** Steps of the cluster *)

Lemma csync_lookup w ss p sc :
  csync w ss !! p = Some sc → ∃ rf sc0, nodes (cl w) !! p = Some rf ∧ ss !! p = Some sc0 ∧ sc = onPeer rf sc0.
Proof. intros H. apply lookup_zip_with_Some in H as (rf & sc0 & -> & ? & ?). by exists rf, sc0. Qed.

Lemma cinv_world w ss fs wn l w' ss1 fs1 :
  cinv (mkCtrlCluster w ss fs) wn → sbenign l w → rstep l w = Some w' →
  length ss1 = length ss → length fs1 = length fs →
  (∀ wn' p rf' sc1 f1, later w wn w' wn' → nodes (cl w') !! p = Some rf' → ss1 !! p = Some sc1 →
     fs1 !! p = Some f1 → served w' wn' rf' (onPeer rf' sc1) f1) →
  ∃ wn', cinv (mkCtrlCluster w' (csync w' ss1) fs1) wn'.
Proof.
  intros [Hs Hls Hlf _] Hb H Els Elf Hok. cbn in *. destruct (sinv_step _ _ _ _ Hs Hb H) as (wn' & Hlt & Hs').
  pose proof (lt_length _ _ _ _ Hlt) as Hn. exists wn'. constructor; cbn; [done| |congruence|].
  - unfold csync. rewrite length_zip_with. lia.
  - intros p rf' sc f Hp' Hsc Hf. apply csync_lookup in Hsc as (r & sc1 & Hr & Hsc1 & ->).
    assert (r = rf') as -> by congruence. by apply (Hok wn' p).
Qed.

(** Servers and feeds do not notice the steps in [servedLabel]. *)
Lemma served_step w ss fs wn l w' wn' p rf' sc f :
  cinv (mkCtrlCluster w ss fs) wn → sbenign l w → servedLabel l = true → rstep l w = Some w' →
  later w wn w' wn' → nodes (cl w') !! p = Some rf' → ss !! p = Some sc → fs !! p = Some f →
  ∃ rf, nodes (cl w) !! p = Some rf ∧ RaftApply.served rf rf' ∧ served w wn rf sc f.
Proof.
  intros [Hs _ _ Hok] Hb Hl H Hlt Hp' Hsc Hf. cbn in Hs, Hok.
  destruct (rstep_served _ _ _ _ _ _ Hs Hb Hl H Hp') as (rf & Hp & Hsv). exists rf. split_and!; [done..|]. by eapply Hok.
Qed.

(** The same of a server that has done something that leaves its state machine alone. *)
Definition sameCore sc sc1 : Prop :=
  configs sc1 = configs sc ∧ sc_latestAppliedRequest sc1 = sc_latestAppliedRequest sc ∧
  sc_latestAppliedRaftIndex sc1 = sc_latestAppliedRaftIndex sc.

Lemma served_core w wn rf sc sc1 f : sameCore sc sc1 → sc_rf sc1 = rf → served w wn rf sc f → served w wn rf sc1 f.
Proof. intros (E1 & E2 & E3) Er (_ & Hf & Hr). unfold served, ran in *. by rewrite E1, E2, E3. Qed.

Lemma cinv_raft w ss fs wn l w' ss1 :
  cinv (mkCtrlCluster w ss fs) wn → sbenign l w → servedLabel l = true → rstep l w = Some w' →
  length ss1 = length ss → (∀ p sc1, ss1 !! p = Some sc1 → ∃ sc, ss !! p = Some sc ∧ sameCore sc sc1) →
  ∃ wn', cinv (mkCtrlCluster w' (csync w' ss1) fs) wn'.
Proof.
  intros Hc Hb Hl H Hlen Hss. eapply cinv_world; [done..|].
  intros wn' p rf' sc1 f Hlt Hp' Hsc1 Hf. destruct (Hss p sc1 Hsc1) as (sc & Hsc & Hcore).
  destruct (served_step _ _ _ _ _ _ _ _ _ _ _ Hc Hb Hl H Hlt Hp' Hsc Hf) as (rf & _ & Hsv & Hok).
  eapply (served_core _ _ _ (onPeer rf' sc)); [done|done|by eapply served_later].
Qed.

(** *** Steps of one server *)

Lemma cinv_lookup w ss fs wn p sc :
  cinv (mkCtrlCluster w ss fs) wn → ss !! p = Some sc →
  ∃ rf f, nodes (cl w) !! p = Some rf ∧ fs !! p = Some f ∧ served w wn rf sc f.
Proof.
  intros [Hs Hls Hlf Hok] Hsc. cbn in *. pose proof (lookup_lt_Some _ _ _ Hsc) as Hlt.
  destruct (lookup_lt_is_Some_2 (nodes (cl w)) p) as [rf Hp]; [lia|].
  destruct (lookup_lt_is_Some_2 fs p) as [f Hf]; [lia|]. exists rf, f. eauto.
Qed.

Lemma cinv_server w ss fs wn p rf sc sc' f f' :
  cinv (mkCtrlCluster w ss fs) wn → nodes (cl w) !! p = Some rf → ss !! p = Some sc → fs !! p = Some f →
  served w wn rf sc' f' → cinv (mkCtrlCluster w (<[p := sc']> ss) (<[p := f']> fs)) wn.
Proof.
  intros [Hs Hls Hlf Hok] Hp Hsc Hf Hnew. cbn in *. constructor; cbn; rewrite ?length_insert; try done.
  intros q r s g Hq Hk Hg. apply list_lookup_insert_Some in Hk as [(<- & <- & _)|[Hne Hk]].
  - rewrite list_lookup_insert_eq in Hg by (by eapply lookup_lt_Some). by simplify_eq.
  - rewrite list_lookup_insert_ne in Hg by done. eauto.
Qed.

Lemma cinv_quiet w ss fs wn p sc sc' :
  cinv (mkCtrlCluster w ss fs) wn → ss !! p = Some sc → sc_rf sc' = sc_rf sc → sameCore sc sc' →
  cinv (mkCtrlCluster w (<[p := sc']> ss) fs) wn.
Proof.
  intros Hc Hsc Er Hcore. destruct (cinv_lookup _ _ _ _ _ _ Hc Hsc) as (rf & f & Hp & Hf & Hok).
  rewrite <- (list_insert_id fs p f Hf). eapply cinv_server; [done..|]. destruct Hok as (Erf & Hrest).
  eapply (served_core _ _ _ sc); [done|congruence|done].
Qed.

Lemma cinv_apply w ss fs wn p f sc m M sc' :
  cinv (mkCtrlCluster w ss fs) wn → fs !! p = Some f → ss !! p = Some sc → f_inbox f = Some m →
  @applyLoopStep _ _ M sc m = Ret sc' →
  cinv (mkCtrlCluster w (<[p := sc']> ss) (<[p := feedTake f]> fs)) wn.
Proof.
  intros Hc Hf Hsc Hm H. destruct (cinv_lookup _ _ _ _ _ _ Hc Hsc) as (rf & f' & Hp & Hf' & (E & Hfo & Hlen & ops & Ez & Hch & Hrun)).
  simplify_eq. destruct (feedOk_take _ _ _ _ _ _ Hm Hfo) as (c & -> & Hcho & Hfo').
  destruct (applyLoopStep_core M sc c sc' Hlen H) as (op & -> & Er & Ei & Hlen' & Happ).
  eapply cinv_server; [done..|]. split_and!; [done|by rewrite Ei|]. split; [done|]. exists (ops ++ [op]). split_and!.
  - unfold zlen in *. rewrite length_app. cbn. lia.
  - intros x o Hx. apply lookup_app_Some in Hx as [Hx|[Hge Hx]]; [by apply Hch|].
    apply list_lookup_singleton_Some in Hx as [Hz ->]. unfold zlen in Ez.
    replace (Z.of_nat x + 1) with (sc_latestAppliedRaftIndex sc + 1) by lia. done.
  - by rewrite ctrlRun_snoc, Hrun.
Qed.

(** *** Every step *)

Lemma craft_served l : craft l = true → servedLabel l = true.
Proof. by destruct l as [[? []| | | | | | |]| | | | | | | | | | | | | | | | |]. Qed.

Lemma cinv_check w ss fs wn p f rf r next w' :
  cinv (mkCtrlCluster w ss fs) wn → fs !! p = Some f → nodes (cl w) !! p = Some rf → feedIdle f = true →
  applyCheck rf = Ret (r, next) → rstep (RCluster (LNode p OpApplyCheck)) w = Some w' →
  ∃ wn', cinv (mkCtrlCluster w' (csync w' ss) (<[p := feedCheck next f]> fs)) wn'.
Proof.
  intros Hc Hf Hp Hi Ha H. assert (sbenign (RCluster (LNode p OpApplyCheck)) w) as Hb by (by destruct w).
  eapply (cinv_world _ _ _ _ _ _ _ _ Hc Hb H); [done|apply length_insert|].
  intros wn' q rf' sc f1 Hlt Hq Hsc Hf1.
  assert (∃ f0, fs !! q = Some f0) as [f0 Hf0].
  { apply list_lookup_insert_Some in Hf1 as [(<- & _ & _)|[_ Hf1]]; eauto. }
  destruct (served_step _ _ _ _ _ _ _ _ _ _ _ Hc Hb eq_refl H Hlt Hq Hsc Hf0) as (rf0 & Hp0 & Hsv & Hok).
  apply list_lookup_insert_Some in Hf1 as [(<- & <- & _)|[_ Hf1]].
  - simplify_eq. destruct (served_later _ _ _ _ _ _ _ _ Hlt Hsv Hok) as (_ & _ & Hran). split_and!; [done| |done].
    destruct Hok as (_ & Hfo & _). cbn. by eapply feedOk_check.
  - simplify_eq. by eapply served_later.
Qed.

(** A server whose peer did not change. *)
Lemma served_still w ss fs wn w' wn' q rf sc f :
  cinv (mkCtrlCluster w ss fs) wn → later w wn w' wn' → nodes (cl w) !! q = Some rf → ss !! q = Some sc →
  fs !! q = Some f → served w' wn' rf (onPeer rf sc) f.
Proof.
  intros Hc Hlt Hq Hsc Hf. pose proof (ci_ok _ _ Hc q rf sc f Hq Hsc Hf) as Hok.
  by eapply served_later; [|apply served_refl|].
Qed.

Lemma cinv_end w ss fs wn p f es w' :
  cinv (mkCtrlCluster w ss fs) wn → fs !! p = Some f → f_batch f = Some es → f_msgs f = [] →
  rstep (RCluster (LNode p (OpApplyEnd es))) w = Some w' →
  ∃ wn', cinv (mkCtrlCluster w' (csync w' ss) (<[p := feedEnd f]> fs)) wn'.
Proof.
  intros Hc Hf Eb Em H.
  eapply (cinv_world _ _ _ _ _ _ _ _ Hc); [|done|done|apply length_insert|]; [by destruct w|].
  intros wn' q rf' sc f1 Hlt Hq Hsc Hf1.
  destruct (rstep_applyEnd _ _ _ _ H) as (rf & Hp & E). rewrite E in Hq.
  destruct (nodes_update (cl w) p rf (applyEnd rf es) q rf' Hp Hq) as [[-> ->]|[Hne Hq']].
  - rewrite list_lookup_insert_eq in Hf1 by (by eapply lookup_lt_Some). injection Hf1 as <-.
    pose proof (ci_ok _ _ Hc p rf sc f Hp Hsc Hf) as (_ & Hfo & Hran). split_and!; [done| |].
    + cbn. by eapply feedOk_end.
    + by eapply (ran_later w wn).
  - rewrite list_lookup_insert_ne in Hf1 by done. by eapply served_still.
Qed.

Lemma ctrl_inv_restart w ss fs wn p sc sc' w' :
  cinv (mkCtrlCluster w ss fs) wn → ss !! p = Some sc → rstep (RRestart p) w = Some w' →
  StartServer (peers (sc_rf sc)) (me (sc_rf sc)) (persister (sc_rf sc)) = Ret sc' →
  ∃ wn', cinv (mkCtrlCluster w' (csync w' (<[p := sc']> ss)) (<[p := idleFeed]> fs)) wn'.
Proof.
  intros Hc Hsc H Hst. destruct (cinv_lookup _ _ _ _ _ _ Hc Hsc) as (rf & f & Hp & Hf & (Er & Hfo & _)).
  eapply (cinv_world _ _ _ _ _ _ _ _ Hc); [|done|apply length_insert..|]; [by destruct w|].
  intros wn' q rf' s1 f1 Hlt Hq Hs1 Hf1. destruct (rstep_restart _ _ _ H) as (rf0 & r & Hp0 & Hr & E).
  cbn in Hp0. simplify_eq. rewrite E in Hq.
  destruct (nodes_update (cl w) p _ r q rf' Hp Hq) as [[-> ->]|[Hne Hq']].
  - rewrite list_lookup_insert_eq in Hs1 by (by eapply lookup_lt_Some).
    rewrite list_lookup_insert_eq in Hf1 by (by eapply lookup_lt_Some). injection Hf1 as <-. injection Hs1 as <-.
    pose proof (feedOk_restart _ _ _ _ _ w' wn' _ _ (ci_raft _ _ Hc) Hp Hr Hfo) as Hfo'.
    unfold StartServer in Hst. cbn -[Make] in Hst. rewrite Hr in Hst. injection Hst as <-.
    split_and!; [done|done|]. split; [by intros c ->%list_elem_of_singleton|]. exists []. by split_and!.
  - rewrite list_lookup_insert_ne in Hs1 by done. rewrite list_lookup_insert_ne in Hf1 by done. by eapply served_still.
Qed.

(** Only a feed changes. *)
Lemma cinv_feed w ss fs wn p f f' :
  cinv (mkCtrlCluster w ss fs) wn → fs !! p = Some f →
  (∀ rf k, nodes (cl w) !! p = Some rf → feedOk w wn rf k f → feedOk w wn rf k f') →
  cinv (mkCtrlCluster w ss (<[p := f']> fs)) wn.
Proof.
  intros Hc Hf Hr. destruct (lookup_lt_is_Some_2 ss p) as [sc Hsc].
  { destruct Hc as [_ E1 E2 _]. cbn in E1, E2. rewrite E1, <- E2. by eapply lookup_lt_Some. }
  destruct (cinv_lookup _ _ _ _ _ _ Hc Hsc) as (rf & g & Hp & Hg & (? & ? & ?)). simplify_eq.
  rewrite <- (list_insert_id ss p sc Hsc). eapply cinv_server; [done..|]. split_and!; [done| |done].
  by apply Hr.
Qed.

Lemma cinv_receive w ss fs wn p f f' :
  cinv (mkCtrlCluster w ss fs) wn → fs !! p = Some f → feedReceive f = Some f' →
  cinv (mkCtrlCluster w ss (<[p := f']> fs)) wn.
Proof. intros Hc Hf Hr. eapply cinv_feed; [done..|]. intros rf k _. by apply feedOk_receive. Qed.

Lemma cinv_begin w ss fs wn p f rf next batch :
  cinv (mkCtrlCluster w ss fs) wn → fs !! p = Some f → nodes (cl w) !! p = Some rf → f_next f = Some next →
  applyBegin rf next = Ret batch → cinv (mkCtrlCluster w ss (<[p := feedBegin next batch f]> fs)) wn.
Proof.
  intros Hc Hf Hp Hn Ha. eapply cinv_feed; [done..|]. intros r k Hr. cbn in Hr. simplify_eq.
  by eapply feedOk_begin; [apply (ci_raft _ _ Hc)|..].
Qed.

Lemma cinv_start w ss fs wn p op sc sc' r w' :
  cinv (mkCtrlCluster w ss fs) wn → ss !! p = Some sc → startOp sc op = Ret (sc', r) → rstep (RStart p op) w = Some w' →
  ∃ wn', cinv (mkCtrlCluster w' (csync w' (<[p := sc']> ss)) fs) wn'.
Proof.
  intros Hc Hsc Hst H. eapply (cinv_raft _ _ _ _ (RStart p op)); [done|by destruct w|done|done|apply length_insert|].
  intros q s1 Hq. apply list_lookup_insert_Some in Hq as [(<- & <- & _)|[_ Hq]]; [|by exists s1].
  exists sc. split; [done|]. unfold startOp in Hst. apply bind_Ret in Hst as ([rf [[i t] b]] & _ & [= <- _]). done.
Qed.

Lemma ctrl_inv_step l s wn s' : cinv s wn → cbenign l s → cstep l s = Some s' → ∃ wn', cinv s' wn'.
Proof.
  intros Hc Hb H. destruct s as [w ss fs]. cbn in Hb. unfold cstep in H. destruct l.
  - destruct (craft l) eqn:Hl; [|done]. apply bind_Some in H as (w' & H & [= <-]).
    apply craft_served in Hl. eapply cinv_raft; [done..|]. intros q k Hq. by exists k.
  - apply bind_Some in H as (sc & Hsc & H). destruct (startOp sc op) as [[sc' r]| | |] eqn:Hst; cbn -[rstep GetState] in H; try done.
    destruct (GetState (sc_rf sc)).2 eqn:Hg.
    + apply bind_Some in H as (w' & H & [= <-]). by eapply cinv_start.
    + injection H as <-. exists wn. unfold startOp in Hst. cbn in Hst.
      apply bind_Ret in Hst as ([rf [[i t] b]] & Hs & [= <- _]). unfold Start in Hs. unfold GetState in Hg. cbn in Hg.
      rewrite Hg in Hs. injection Hs as <- _ _ _. by eapply cinv_quiet.
  - apply bind_Some in H as (sc & Hsc & H). destruct (register sc i) as [sc'| | |] eqn:Hr; cbn in H; try done.
    injection H as <-. exists wn. unfold register in Hr. case_match; [done|]. injection Hr as <-. by eapply cinv_quiet.
  - apply bind_Some in H as (sc & Hsc & H). apply bind_Some in H as ([sc' r] & Hr & [= <-]). exists wn.
    assert (sc' = set_waits sc (sc_rf sc) (delete i (sc_waitChs sc))) as -> by (unfold await in Hr; repeat case_match; by simplify_eq).
    by eapply cinv_quiet.
  - apply bind_Some in H as (f & Hf & H). apply bind_Some in H as (rf & Hp & H).
    destruct (feedIdle f) eqn:Ef; [|done].
    destruct (applyCheck rf) as [[r next]| | |] eqn:Ha; cbn -[rstep] in H; try done.
    apply bind_Some in H as (w' & H & [= <-]). by eapply cinv_check.
  - apply bind_Some in H as (f & Hf & H). apply bind_Some in H as (rf & Hp & H).
    apply bind_Some in H as (next & Hn & H).
    destruct (applyBegin rf next) as [batch| | |] eqn:Ha; cbn in H; try done. injection H as <-.
    exists wn. by eapply cinv_begin.
  - apply bind_Some in H as (f & Hf & H). apply bind_Some in H as (f' & Hr & [= <-]).
    exists wn. by eapply cinv_receive.
  - apply bind_Some in H as (f & Hf & H). apply bind_Some in H as (sc & Hsc & H).
    apply bind_Some in H as (m & Hm & H). destruct (applyLoopStep sc m) as [sc'| | |] eqn:Ha; cbn in H; try done.
    injection H as <-. exists wn. by eapply cinv_apply.
  - apply bind_Some in H as (f & Hf & H). destruct (f_batch f) as [es|] eqn:Eb; [|done].
    destruct (f_msgs f) eqn:Em; [|done]. apply bind_Some in H as (w' & H & [= <-]). by eapply cinv_end.
  - apply bind_Some in H as (sc & Hsc & H). apply bind_Some in H as (w' & H & Hst).
    destruct (StartServer _ _ _) as [sc'| | |] eqn:E; cbn in Hst; try done. injection Hst as <-.
    by eapply ctrl_inv_restart.
  - apply bind_Some in H as (sc & Hsc & H). apply bind_Some in H as (w' & H & [= <-]).
    eapply (cinv_raft _ _ _ _ (RCluster (LNode p OpKill))); [done|by destruct w|done|done|apply length_insert|].
    intros q k1 Hq. apply list_lookup_insert_Some in Hq as [(<- & <- & _)|[_ Hq]]; [by exists sc|by exists k1].
Qed.

Lemma ctrl_inv_init n : cinv (initCtrl n) ∅.
Proof.
  constructor; cbn.
  - apply sinv_init.
  - by rewrite !length_fmap.
  - by rewrite length_replicate, length_fmap, length_seq.
  - intros p rf sc f Hp Hsc Hf. apply list_lookup_fmap_Some in Hp as (x & -> & Hx).
    apply list_lookup_fmap_Some in Hsc as (y & -> & Hy). apply lookup_replicate in Hf as [-> _]. simplify_eq.
    split_and!; [done|by apply feedOk_init|]. split; [by intros c ->%list_elem_of_singleton|]. exists []. by split_and!.
Qed.

Lemma cinv_reach n s : creach n s → ∃ wn, cinv s wn.
Proof. induction 1 as [|l s s' _ [wn Hc] Hb H]; [exists ∅; apply ctrl_inv_init|]. by eapply ctrl_inv_step. Qed.

(** ** Agreement *)

(** One log for all servers of a list. *)
Lemma common_log w wn ss :
  ghostInv w wn → (∀ sc, sc ∈ ss → ran w wn sc) →
  ∃ log, allChosen w wn log ∧
    ∀ sc, sc ∈ ss → 0 <= sc_latestAppliedRaftIndex sc <= zlen log ∧
      ctrlRun (take (Z.to_nat (sc_latestAppliedRaftIndex sc)) log) = Ret (configs sc, sc_latestAppliedRequest sc).
Proof.
  intros Hg. induction ss as [|sc ss IH]; intros Hran.
  { exists []. split; [by intros x op Hx|]. intros sc Hsc. by apply not_elem_of_nil in Hsc. }
  destruct IH as (log & Hlog & Hall); [intros x Hx; apply Hran; by right|].
  destruct (Hran sc) as (_ & ops & Ez & Hops & Hrun); [by left|]. unfold zlen in Ez |- *.
  destruct (decide (length ops <= length log)%nat) as [Hle|Hgt].
  - exists log. split; [done|]. intros x [->|Hx]%elem_of_cons; [|by apply Hall]. split; [lia|].
    destruct (allChosen_prefix _ _ _ _ Hg Hops Hlog Hle) as [l ->]. rewrite <- Ez, Nat2Z.id, take_app_length. done.
  - destruct (allChosen_prefix _ _ _ _ Hg Hlog Hops ltac:(lia)) as [l El]. exists ops. split; [done|].
    intros x [->|Hx]%elem_of_cons; [split; [lia|]; by rewrite <- Ez, Nat2Z.id, firstn_all|].
    destruct (Hall x Hx) as [Hr Hx']. unfold zlen in Hr. split; [lia|]. rewrite El, take_app_le by lia. done.
Qed.

(** C3. The configuration servers on their Raft cluster, with lost, delayed and repeated
    messages, elections and restarts, execute one log of commands: each has the
    configurations and the request table that the commands up to its index give, whatever
    order it visits its maps in; and that log is, as far as each peer has committed, the
    log of the peer.  Conditions: no peer takes a snapshot (this service never does), no
    server has panicked, and the run leaves out the interleavings that are reported as
    defects of Raft: an election that a peer starts although it has meanwhile become
    leader, and commit counts, commit writes and heartbeat replies that a peer handles
    after it has stopped leading their term. *)
Theorem ctrlraft_refines n s :
  creach n s →
  ∃ log, (∀ p sc, cc_servers s !! p = Some sc → 0 <= sc_latestAppliedRaftIndex sc <= zlen log ∧
            ctrlRun (take (Z.to_nat (sc_latestAppliedRaftIndex sc)) log) = Ret (configs sc, sc_latestAppliedRequest sc)) ∧
    (∀ p rf i op, nodes (cl (cc_raft s)) !! p = Some rf → log !! i = Some op → Z.of_nat i < commitIndex rf →
       ∃ e, getLog rf (Z.of_nat i + 1) = Ret e ∧ le_Command e = Some op).
Proof.
  intros [wn Hc]%cinv_reach. pose proof (ci_raft _ _ Hc) as Hs. pose proof Hs as (_ & _ & Hg & _).
  destruct (common_log (cc_raft s) wn (cc_servers s) Hg) as (log & Hlog & Hall).
  { intros sc [p Hp]%list_elem_of_lookup. destruct s as [w ss fs].
    destruct (cinv_lookup _ _ _ _ _ _ Hc Hp) as (rf & f & _ & _ & (_ & _ & Hran)). done. }
  exists log. split.
  - intros p sc Hp. apply Hall. by eapply list_elem_of_lookup_2.
  - intros p rf i op Hp Hi Hle. destruct (committed_chosen _ _ _ _ (Z.of_nat i + 1) Hs Hp) as (e & He & Hce); [lia|].
    exists e. split; [done|]. by eapply chosen_fun; [|apply Hce|apply Hlog].
Qed.

(** C7. Of two configuration servers on their Raft cluster, the one that has executed
    fewer commands has a prefix of the configurations of the other, so that all servers
    answer a query for a configuration they both have with the same one.  The runs are
    those of [ctrlraft_refines]: no snapshots, no server has panicked, and without the
    interleavings that are reported as defects of Raft (an election that a peer starts
    although it has meanwhile become leader, and commit counts, commit writes and
    heartbeat replies that a peer handles after it has stopped leading their term). *)
Theorem ctrlraft_one_history n s p q sc sc' :
  creach n s → cc_servers s !! p = Some sc → cc_servers s !! q = Some sc' →
  sc_latestAppliedRaftIndex sc <= sc_latestAppliedRaftIndex sc' → configs sc `prefix_of` configs sc'.
Proof.
  intros [wn Hc]%cinv_reach Hp Hq Hle. pose proof (ci_raft _ _ Hc) as (_ & _ & Hg & _). destruct s as [w ss fs].
  destruct (cinv_lookup _ _ _ _ _ _ Hc Hp) as (_ & _ & _ & _ & (_ & _ & _ & ops & E1 & C1 & R1)).
  destruct (cinv_lookup _ _ _ _ _ _ Hc Hq) as (_ & _ & _ & _ & (_ & _ & _ & ops' & E2 & C2 & R2)).
  unfold zlen in *. pose proof (allChosen_prefix _ _ _ _ Hg C1 C2 ltac:(lia)) as Hpre.
  by apply (ctrlRun_prefix _ _ _ _ Hpre R1 R2).
Qed.
End agreement.
