(* ===== verification/ShardExamples.v ===== *)
(** * ShardExamples: the configuration service at concrete inputs, and three
    inputs on which it goes wrong *)

From S2P Require Import Prelude Labgob Persister RaftState RaftService ShardCtrler ShardRebalance ShardConfigs.
Local Open Scope Z_scope.

(** Visiting maps in the order of [map_to_list], and backwards. *)
Definition forwards : MapRange := {|
  map_range A m := map_to_list m; map_range_perm A m := Permutation_refl _ |}.
Definition backwards : MapRange := {|
  map_range A m := reverse (map_to_list m);
  map_range_perm A m := reverse_Permutation _ |}.
#[local] Existing Instance forwards.

Definition one : gmap Z (list string) := {[ 1 := ["a"; "b"]%string ]}.
Definition two : gmap Z (list string) := <[ 2 := ["c"]%string ]> one.
Definition allOne : list Z := replicate 10 1.

Lemma rebalance_correct_witness :
  ∃ shards', rebalanceShard two allOne true false = Ret shards' ∧ balanced two shards'.
Proof.
  destruct (rebalance_correct two allOne true false) as (r & H & _ & _ & Hb); [reflexivity|].
  exists r. split; [exact H|exact Hb].
Defined.

Definition ctrler0 : ShardCtrler (Raft Op unit) :=
  mkShardCtrler 0 (initRaft 3 0 (mkPersister [] [])) [zeroConfig] ∅ ∅ 0.
Definition ctrler1 : ShardCtrler (Raft Op unit) :=
  mkShardCtrler 1 (initRaft 3 1 (mkPersister [] [])) [zeroConfig] ∅ ∅ 0.

Definition joinOne : Op := mkOp (JOIN (mkJoinArgs one 7 0)) 7 0.
Definition joinTwo : Op := mkOp (JOIN (mkJoinArgs two 7 1)) 7 1.

Lemma zero_cfgOk : configsOk [zeroConfig].
Proof.
  split; [done|]. intros i c Hi. destruct i; [|done]. injection Hi as <-. split; [done|].
  constructor; [done| |done]. unfold zeroConfig. cbn [Groups]. set_solver.
Qed.

Lemma ctrler_apply_ok_witness :
  ∃ cs' response, applyOp joinOne false [zeroConfig] = Ret (cs', response) ∧ configsOk cs'.
Proof.
  destruct (ctrler_apply_ok [zeroConfig] zeroConfig joinOne false) as (cs' & r & H & Hok & _);
    [apply zero_cfgOk|reflexivity| |exists cs', r; split; [exact H|exact Hok]].
  unfold opOk, joinOne, one. cbn [op_Args ja_Servers]. rewrite dom_singleton_L, elem_of_singleton. lia.
Defined.

(** Two servers with different orders, the same two commands. *)
Definition joinMsgs : list (ApplyMsg Op unit) := [CommandMsg (Some joinOne) 1; CommandMsg (Some joinTwo) 2].

Lemma ctrler_replicas_agree_witness :
  ∃ sc0 sc1, @applyAll (Raft Op unit) unit forwards ctrler0 joinMsgs = Ret sc0 ∧
    @applyAll (Raft Op unit) unit backwards ctrler1 joinMsgs = Ret sc1 ∧ sameConfigs sc0 sc1.
Proof.
  destruct (@applyAll (Raft Op unit) unit forwards ctrler0 joinMsgs) as [sc0| | |] eqn:E0;
    [|vm_compute in E0; discriminate E0..].
  destruct (@applyAll (Raft Op unit) unit backwards ctrler1 joinMsgs) as [sc1| | |] eqn:E1;
    [|vm_compute in E1; discriminate E1..].
  exists sc0, sc1. split; [exact eq_refl|]. split; [exact eq_refl|].
  apply (ctrler_replicas_agree forwards backwards ctrler0 ctrler1 joinMsgs sc0 sc1); [by split_and!| |exact E0|exact E1].
  intros c ->%list_elem_of_singleton. done.
Defined.

Lemma clerk_query_returns_witness :
  ∃ config ck', Query (λ _ _ _, None) (MakeClerk 3 7) (-1) = Ret (config, ck') ∧ ctrlClerkOk ck'.
Proof.
  destruct (clerk_query_returns (λ _ _ _, None) (MakeClerk 3 7) (-1)) as (c & ck' & H & Hok & _); [done|].
  exists c, ck'. split; [exact H|exact Hok].
Defined.

(** ** A Join that is answered OK and never executed

    The clerk's Query reaches the log but all its replies are lost, so that
    [Query] gives up after five rounds and returns the empty configuration;
    the next Join of the same clerk carries the same request number, and the
    servers take it for a repetition. *)
Example query_giveup_drops_join :
  ∃ config ck sc1 sc2 rep,
    Query (λ _ _ _, None) (MakeClerk 3 7) (-1) = Ret (config, ck) ∧
    config = zeroConfig ∧ requestId ck = 0 ∧
    applyLoopStep (SV := unit) ctrler0 (CommandMsg (Some (mkOp (QUERY (mkQueryArgs (-1) 7 0)) 7 0)) 1) = Ret sc1 ∧
    applyOp (mkOp (JOIN (mkJoinArgs one (clientId ck) (requestId ck))) (clientId ck) (requestId ck))
      (checkDuplicate (sc_latestAppliedRequest sc1)
         (mkOp (JOIN (mkJoinArgs one (clientId ck) (requestId ck))) (clientId ck) (requestId ck))).2
      (configs sc1) = Ret (sc2, rep) ∧
    wr_err rep = OK ∧ sc2 = configs sc1.
Proof. eexists _, _, _, _, _. split_and!; reflexivity. Qed.

(** ** A shard that stays with a group that does not exist

    Shard 0 is moved to group 99, which nobody joined; a later Join
    rebalances the shards of existing groups only and leaves shard 0 there. *)
Example moved_shard_stays_orphan :
  ('(cs1, _) ← applyOp joinOne false [zeroConfig];
   '(cs2, _) ← applyOp (mkOp (MOVE (mkMoveArgs 0 99 7 1)) 7 1) false cs1;
   '(cs3, _) ← applyOp (mkOp (JOIN (mkJoinArgs two 7 2)) 7 2) false cs2;
   c ← slice_get cs3 3;
   Ret (Shards c, Groups c !! 99)) = Ret ([99; 2; 2; 2; 2; 1; 1; 1; 1; 1], None).
Proof. vm_compute. reflexivity. Qed.

(** ** A Move that stops every replica: shard 10 does not exist. *)
Example move_out_of_range_panics :
  applyOp (mkOp (MOVE (mkMoveArgs 10 1 7 0)) 7 0) false [zeroConfig] = Panic.
Proof. reflexivity. Qed.
