(* ===== verification/CtrlRaftExamples.v ===== *)
(** * CtrlRaftExamples: a run of the configuration service on its cluster

    Leader 0 commits a Join with server 1.  Both execute it, visiting maps in opposite
    orders; server 1 restarts and executes it again. *)

From S2P Require Import Prelude Labgob Persister RaftState RaftRpc RaftLeader RaftPeer RaftCluster RaftLinks RaftReplication RaftSteps RaftReplExamples RaftSafetyExamples RaftService ShardCtrler ShardConfigs ShardExamples CtrlRaft.
Local Open Scope Z_scope.

#[local] Instance ctrlSize : GobSize (RaftGob Op) := {| gob_size _ := 1; gob_size_pos _ := eq_refl |}.

Definition ccalm (l : clabel) (s : CtrlCluster) : bool :=
  match l with CRaft l => scalm l (cc_raft s) | _ => true end.

Fixpoint ccheck (ls : list clabel) (s : CtrlCluster) : option CtrlCluster :=
  match ls with
  | [] => Some s
  | l :: ls => if ccalm l s then s' ← cstep l s; ccheck ls s' else None
  end.

Lemma ccheck_sound n ls s s' : creach n s → ccheck ls s = Some s' → creach n s'.
Proof.
  revert s. induction ls as [|l ls IH]; intros s Hr H; cbn -[ccalm cstep] in H.
  - by injection H as <-.
  - destruct (ccalm l s) eqn:E; [|done]. apply bind_Some in H as (s1 & Hs & H).
    eapply (IH s1); [|done]. eapply creach_step; [done| |done]. destruct l; try done. by apply scalm_sound.
Qed.

Definition join3 : list clabel :=
  (CRaft <$> elect 0 [1%nat]) ++
  [CStart 0 joinTwo; CRegister 0 1] ++
  (CRaft <$> ([RBroadcast 0; RCallAppend 0; RAppend 0; RAppendReply 0] ++ scan 0 1 1)) ++
  [CCheck 0; CBegin 0; CReceive 0; CApply 0 forwards; CEnd 0; CAwait 0 1 false] ++
  (CRaft <$> [RHeartbeat 0; RBeat 0; RAppend 0]) ++
  [CCheck 1; CBegin 1; CReceive 1; CApply 1 backwards; CEnd 1; CRestart 1; CRaft (RAppend 0); CCheck 1; CBegin 1; CReceive 1;
   CApply 1 backwards].

Definition joined3 : option CtrlCluster := Eval vm_compute in ccheck join3 (initCtrl 3).

Definition ctrlView (s : CtrlCluster) : list (list (list Z) * Z) :=
  (λ sc, (Shards <$> configs sc, sc_latestAppliedRaftIndex sc)) <$> cc_servers s.

(** Servers 0 and 1 have the same two configurations, server 2 has heard of nothing. *)
Example joined3_result :
  ctrlView <$> joined3 =
    Some [([replicate 10 0; [2; 1; 2; 1; 2; 1; 2; 1; 2; 1]], 1); ([replicate 10 0; [2; 1; 2; 1; 2; 1; 2; 1; 2; 1]], 1);
          ([replicate 10 0], 0)].
Proof. vm_compute. reflexivity. Qed.

Lemma joined3_reach s : joined3 = Some s → creach 3 s.
Proof.
  intros H. assert (ccheck join3 (initCtrl 3) = joined3) as E by (vm_compute; reflexivity).
  rewrite H in E. eapply ccheck_sound; [apply creach_init|done].
Qed.

Lemma ctrlraft_refines_witness :
  ∃ s log, joined3 = Some s ∧
    ∀ p sc, cc_servers s !! p = Some sc → 0 <= sc_latestAppliedRaftIndex sc <= zlen log ∧
      ctrlRun (take (Z.to_nat (sc_latestAppliedRaftIndex sc)) log) = Ret (configs sc, sc_latestAppliedRequest sc).
Proof.
  destruct joined3 as [s|] eqn:E; [|discriminate E].
  destruct (ctrlraft_refines 3 s (joined3_reach s E)) as (log & Hlog & _). exists s, log. exact (conj eq_refl Hlog).
Defined.

(** Servers 2 and 1. *)
Lemma ctrlraft_one_history_witness :
  ∃ s sc sc', joined3 = Some s ∧ cc_servers s !! 2%nat = Some sc ∧ cc_servers s !! 1%nat = Some sc' ∧
    configs sc `prefix_of` configs sc'.
Proof.
  destruct joined3 as [s|] eqn:E; [|discriminate E].
  destruct (cc_servers s !! 2%nat) as [sc|] eqn:E2; [|injection E as <-; discriminate E2].
  destruct (cc_servers s !! 1%nat) as [sc'|] eqn:E1; [|injection E as <-; discriminate E1].
  exists s, sc, sc'. do 3 (split; [reflexivity || exact E2 || exact E1|]).
  apply (ctrlraft_one_history 3 s 2 1 sc sc' (joined3_reach s E) E2 E1).
  injection E as <-. injection E2 as <-. injection E1 as <-. discriminate.
Defined.
