(* ===== verification/ShardKv.v ===== *)
(** * ShardKv: the sharded key/value server of [src/src/shardkv/]

    Models common.go, server.go and server_shard_transfer.go.  A shard's
    [Storage] is a Go map, a reference: PULL_SHARD makes the shard's map and
    the map inside the log entry the same object, and later writes to the
    shard change the log entry.  The server therefore has a heap of maps
    ([maps], with [nextLoc] the next address), and [Storage] is an address,
    nil being [None].  What leaves the process (RPC replies, snapshots) is the
    content of the map.  Goroutines that the apply loop starts are returned
    as [task]s. *)

From S2P Require Import Prelude Labgob Persister RaftState RaftService ShardCtrler.
Local Open Scope Z_scope.

(** ** common.go and the types of the two server files *)

Definition Err := string.
Definition OK : Err := "OK".
Definition ErrNoKey : Err := "ErrNoKey".
Definition ErrWrongGroup : Err := "ErrWrongGroup".
Definition ErrWrongLeader : Err := "ErrWrongLeader".
Definition ErrConfigVersion : Err := "ErrConfigVersion".

Record PutAppendArgs := mkPutAppendArgs {
  pa_Key : string; pa_Value : string; pa_Op : string; pa_ClientId : Z; pa_RequestId : Z;
}.
Record PutAppendReply := mkPutAppendReply { par_Err : Err }.
Record GetArgs := mkGetArgs { ga_Key : string; ga_ClientId : Z; ga_RequestId : Z }.
Record GetReply := mkGetReply { gr_Err : Err; gr_Value : string }.

Record PullArgs := mkPullArgs { pl_ConfigVersion : Z; pl_ShardId : Z }.
Record PullReply := mkPullReply { plr_Storage : option (gmap string string); plr_Err : Err }.
Record LeaveArgs := mkLeaveArgs { lv_ConfigVersion : Z; lv_ShardId : Z }.
Record LeaveReply := mkLeaveReply { lvr_Err : Err }.

(** [Op]: the type with the fields it uses; [S] is how a storage is given. *)
Inductive Op (S : Type) :=
  | GET (Key : string) (ClientId RequestId : Z)
  | PUT (Key Value : string) (ClientId RequestId : Z)
  | APPEND (Key Value : string) (ClientId RequestId : Z)
  | UPDATE_CONFIG (config : Config)
  | PULL_SHARD (ShardId ConfigVersion : Z) (Storage : S)
  | LEAVE_SHARD (ShardId ConfigVersion : Z)
  | TRANSFER_DONE (ShardId ConfigVersion : Z).
Arguments GET {S}.
Arguments PUT {S}.
Arguments APPEND {S}.
Arguments UPDATE_CONFIG {S}.
Arguments PULL_SHARD {S}.
Arguments LEAVE_SHARD {S}.
Arguments TRANSFER_DONE {S}.

(** Commands in the log of this process refer to its maps. *)
Definition LogOp := Op (option Z).

Inductive ShardStatus := WORKING | PULLING | LEAVING | WAITING.
#[export] Instance ShardStatus_eq_dec : EqDecision ShardStatus.
Proof. solve_decision. Defined.

Record Shard := mkShard { Storage : option Z; Status : ShardStatus }.

Record WaitChResponse := mkWaitChResponse { wr_err : Err; wr_value : string }.

(** [go kv.pullShard(shardId, version)], [go kv.sendLeave(shardId, version)]. *)
Inductive task :=
  | TaskPull (shardId configVersion : Z)
  | TaskLeave (shardId configVersion : Z).

(** [key2shard] of client.go: the first byte of the key, or 0. *)
Definition key2shard (key : string) : Z :=
  match key with
  | String c _ => Z.of_nat (Ascii.nat_of_ascii c) mod NShards
  | EmptyString => 0 mod NShards
  end.

(** The gob messages of a snapshot; a map of shards is sent with the contents
    of the storages. *)
Abbreviation ShardImage := (option (gmap string string) * ShardStatus)%type.
Inductive SkvGob :=
  | SInt (z : Z)
  | SRequests (m : gmap Z Z)
  | SConfig (c : Config)
  | SShards (m : gmap Z ShardImage).

#[export] Instance SkvGob_int : GobType SkvGob Z := {|
  gob_inj := SInt;
  gob_prj v := match v with SInt z => Some z | _ => None end;
  gob_prj_inj z := eq_refl |}.
#[export] Instance SkvGob_requests : GobType SkvGob (gmap Z Z) := {|
  gob_inj := SRequests;
  gob_prj v := match v with SRequests m => Some m | _ => None end;
  gob_prj_inj m := eq_refl |}.
#[export] Instance SkvGob_config : GobType SkvGob Config := {|
  gob_inj := SConfig;
  gob_prj v := match v with SConfig c => Some c | _ => None end;
  gob_prj_inj c := eq_refl |}.
#[export] Instance SkvGob_shards : GobType SkvGob (gmap Z ShardImage) := {|
  gob_inj := SShards;
  gob_prj v := match v with SShards m => Some m | _ => None end;
  gob_prj_inj m := eq_refl |}.

(** ** The heap of maps *)

Record Heap := mkHeap { maps : gmap Z (gmap string string); nextLoc : Z }.

Definition alloc (h : Heap) (m : gmap string string) : Heap * Z :=
  (mkHeap (<[nextLoc h := m]> (maps h)) (nextLoc h + 1), nextLoc h).

(** Reading a nil map finds nothing. *)
Definition readMap (h : Heap) (l : option Z) : gmap string string :=
  match l with Some a => default ∅ (maps h !! a) | None => ∅ end.

(** Writing to a nil map panics. *)
Definition writeMap (h : Heap) (l : option Z) (k v : string) : outcome Heap :=
  match l with
  | Some a => Ret (mkHeap (<[a := <[k := v]> (readMap h l)]> (maps h)) (nextLoc h))
  | None => Panic
  end.

Definition imageOf (h : Heap) (sh : Shard) : ShardImage :=
  (match Storage sh with Some a => Some (readMap h (Some a)) | None => None end, Status sh).

(** Decoding a map of shards makes a new map for each storage. *)
Fixpoint allocShards (l : list (Z * ShardImage)) (h : Heap) : gmap Z Shard * Heap :=
  match l with
  | [] => (∅, h)
  | (sid, (m, status)) :: rest =>
      let '(shards, h) := allocShards rest h in
      match m with
      | Some m => let '(h, a) := alloc h m in (<[sid := mkShard (Some a) status]> shards, h)
      | None => (<[sid := mkShard None status]> shards, h)
      end
  end.

(** [config.Shards[shardId]]. *)
Definition cfgOwner (c : Config) (shardId : Z) : option Z := Shards c !! Z.to_nat shardId.

(** ** The state machine: the [switch] of [applyLoop] *)

Record Machine := mkMachine {
  shards : gmap Z Shard;
  prevConfig : Config;
  currConfig : Config;
  latestAppliedRequest : gmap Z Z;
  heap : Heap;
}.

Section machine.
Context (gid : Z).
Implicit Types m : Machine.

Definition set_shards (v : gmap Z Shard) m : Machine :=
  mkMachine v (prevConfig m) (currConfig m) (latestAppliedRequest m) (heap m).
Definition set_requests (v : gmap Z Z) m : Machine :=
  mkMachine (shards m) (prevConfig m) (currConfig m) v (heap m).
Definition set_heap (v : Heap) m : Machine :=
  mkMachine (shards m) (prevConfig m) (currConfig m) (latestAppliedRequest m) v.

(** The duplicate check of GET, PUT and APPEND. *)
Definition checkRequest (lar : gmap Z Z) (client request : Z) : gmap Z Z * bool :=
  let lar := match lar !! client with Some _ => lar | None => <[client := -1]> lar end in
  if default 0 (lar !! client) <? request then (<[client := request]> lar, true) else (lar, false).

(** [!shardExist || (Status != WORKING && Status != WAITING)]. *)
Definition serving m (key : string) : option Shard :=
  sh ← shards m !! key2shard key;
  if decide (Status sh = WORKING ∨ Status sh = WAITING) then Some sh else None.

(** [for shardId, gid := range op.Config.Shards], from [i] on: the first
    configuration, and a later one. *)
Fixpoint createShards (i : Z) (owners : list Z) m : Machine :=
  match owners with
  | [] => m
  | g :: rest =>
      let m := if g =? gid then
                 let '(h, a) := alloc (heap m) ∅ in
                 set_shards (<[i := mkShard (Some a) WORKING]> (shards m)) (set_heap h m)
               else m in
      createShards (i + 1) rest m
  end.

Fixpoint requestShards (i : Z) (owners : list Z) (version : Z) m : Machine * list task :=
  match owners with
  | [] => (m, [])
  | g :: rest =>
      if (g =? gid) && bool_decide (shards m !! i = None) then
        let '(m, ts) := requestShards (i + 1) rest version
                          (set_shards (<[i := mkShard None PULLING]> (shards m)) m) in
        (m, TaskPull i version :: ts)
      else requestShards (i + 1) rest version m
  end.

(** [for shardId, _ := range kv.shards]: the shards that are not ours any
    more.  The keys of [kv.shards] are indices of [Shards]. *)
Definition markLeaving (owners : list Z) (shards : gmap Z Shard) : gmap Z Shard :=
  map_imap (λ sid sh, Some (if default 0 (owners !! Z.to_nat sid) =? gid then sh
                            else mkShard (Storage sh) LEAVING)) shards.

Definition applyOp (op : LogOp) m : outcome (Machine * WaitChResponse * list task) :=
  match op with
  | GET key client request =>
      match serving m key with
      | None => Ret (m, mkWaitChResponse ErrWrongGroup "", [])
      | Some sh =>
          let '(lar, _) := checkRequest (latestAppliedRequest m) client request in
          Ret (set_requests lar m,
               match readMap (heap m) (Storage sh) !! key with
               | None => mkWaitChResponse ErrNoKey ""
               | Some value => mkWaitChResponse OK value
               end, [])
      end
  | PUT key value client request =>
      match serving m key with
      | None => Ret (m, mkWaitChResponse ErrWrongGroup "", [])
      | Some sh =>
          let '(lar, isNew) := checkRequest (latestAppliedRequest m) client request in
          let m := set_requests lar m in
          m ← (if isNew : bool then h ← writeMap (heap m) (Storage sh) key value; Ret (set_heap h m)
               else Ret m);
          Ret (m, mkWaitChResponse OK "", [])
      end
  | APPEND key value client request =>
      match serving m key with
      | None => Ret (m, mkWaitChResponse ErrWrongGroup "", [])
      | Some sh =>
          let '(lar, isNew) := checkRequest (latestAppliedRequest m) client request in
          let m := set_requests lar m in
          m ← (if isNew : bool then
                 h ← match readMap (heap m) (Storage sh) !! key with
                     | Some old => writeMap (heap m) (Storage sh) key (old +:+ value)
                     | None => writeMap (heap m) (Storage sh) key value
                     end;
                 Ret (set_heap h m)
               else Ret m);
          Ret (m, mkWaitChResponse OK "", [])
      end
  | UPDATE_CONFIG config =>
      if Num (currConfig m) =? Num config - 1 then
        let m := mkMachine (shards m) (currConfig m) config (latestAppliedRequest m) (heap m) in
        if Num config =? 1 then
          Ret (createShards 0 (Shards config) m, mkWaitChResponse "" "", [])
        else
          let '(m, ts) := requestShards 0 (Shards config) (Num config) m in
          Ret (set_shards (markLeaving (Shards config) (shards m)) m, mkWaitChResponse "" "", ts)
      else Ret (m, mkWaitChResponse "" "", [])
  | PULL_SHARD sid version storage =>
      if Num (currConfig m) =? version then
        match shards m !! sid with
        | None => Panic
        | Some sh =>
            if decide (Status sh = PULLING) then
              Ret (set_shards (<[sid := mkShard storage WAITING]> (shards m)) m,
                   mkWaitChResponse "" "", [TaskLeave sid (Num (currConfig m))])
            else Ret (m, mkWaitChResponse "" "", [])
        end
      else Ret (m, mkWaitChResponse "" "", [])
  | LEAVE_SHARD sid version =>
      if Num (currConfig m) =? version then
        Ret (set_shards (delete sid (shards m)) m, mkWaitChResponse OK "", [])
      else if version <? Num (currConfig m) then Ret (m, mkWaitChResponse OK "", [])
      else Ret (m, mkWaitChResponse ErrConfigVersion "", [])
  | TRANSFER_DONE sid version =>
      if Num (currConfig m) =? version then
        match shards m !! sid with
        | None => Panic
        | Some sh =>
            if decide (Status sh = WAITING) then
              Ret (set_shards (<[sid := mkShard (Storage sh) WORKING]> (shards m)) m,
                   mkWaitChResponse "" "", [])
            else Ret (m, mkWaitChResponse "" "", [])
        end
      else Ret (m, mkWaitChResponse "" "", [])
  end.
End machine.

(** ** server.go: the server *)

Section server.
Context {R P : Type} `{!RaftService R P LogOp SkvGob}.

Record ShardKV := mkShardKV {
  kv_me : Z;
  kv_rf : R;
  kv_gid : Z;
  maxraftstate : Z;
  machine : Machine;
  waitChs : gmap Z (option WaitChResponse);
  latestAppliedRaftIndex : Z;
}.
Implicit Types kv : ShardKV.

Definition set_rf (v : R) kv : ShardKV :=
  mkShardKV (kv_me kv) v (kv_gid kv) (maxraftstate kv) (machine kv) (waitChs kv)
    (latestAppliedRaftIndex kv).
Definition set_waitChs (v : gmap Z (option WaitChResponse)) kv : ShardKV :=
  mkShardKV (kv_me kv) (kv_rf kv) (kv_gid kv) (maxraftstate kv) (machine kv) v
    (latestAppliedRaftIndex kv).
Definition set_machine (v : Machine) (index : Z) kv : ShardKV :=
  mkShardKV (kv_me kv) (kv_rf kv) (kv_gid kv) (maxraftstate kv) v (waitChs kv) index.

(** *** Snapshots *)

Definition serialize kv : list SkvGob :=
  let m := machine kv in
  let w := Encode (latestAppliedRaftIndex kv) [] in
  let w := Encode (latestAppliedRequest m) w in
  let w := Encode (prevConfig m) w in
  let w := Encode (currConfig m) w in
  Encode (imageOf (heap m) <$> shards m) w.

(** A failed [Decode] is [log.Fatalf]. *)
Definition deserialize (snapshot : list SkvGob) kv : outcome ShardKV :=
  match snapshot with
  | [] => Ret kv
  | _ =>
      match
        '(index, d) ← Decode (T:=Z) snapshot;
        '(lar, d) ← Decode (T:=gmap Z Z) d;
        '(prev, d) ← Decode (T:=Config) d;
        '(curr, d) ← Decode (T:=Config) d;
        '(images, _) ← Decode (T:=gmap Z ShardImage) d;
        Some (index, lar, prev, curr, images)
      with
      | None => Fatal
      | Some (index, lar, prev, curr, images) =>
          let '(shards, h) := allocShards (map_to_list images) (heap (machine kv)) in
          Ret (set_machine (mkMachine shards prev curr lar h) index kv)
      end
  end.

Definition StartServer (servers : nat) (me : Z) (persister : P) (maxraftstate gid : Z) :
    outcome ShardKV :=
  rf ← rs_Make servers me persister;
  deserialize (rs_ReadSnapshot rf)
    (mkShardKV me rf gid maxraftstate (mkMachine ∅ zeroConfig zeroConfig ∅ (mkHeap ∅ 0)) ∅ 0).

Definition Kill kv : ShardKV := set_rf (rs_Kill (kv_rf kv)) kv.

(** *** applyLoop *)

Definition maybeSnapshot kv (index : Z) : outcome ShardKV :=
  if negb (maxraftstate kv =? -1) && (maxraftstate kv <=? rs_RaftStateSize (kv_rf kv))
  then rf ← rs_Snapshot (kv_rf kv) index (serialize kv); Ret (set_rf rf kv)
  else Ret kv.

Definition respond kv (index : Z) (response : WaitChResponse) : outcome ShardKV :=
  match waitChs kv !! index with
  | None => Ret kv
  | Some None => Ret (set_waitChs (<[index := Some response]> (waitChs kv)) kv)
  | Some (Some _) => Block
  end.

Definition applyLoopStep kv (msg : ApplyMsg LogOp SkvGob) : outcome (ShardKV * list task) :=
  match msg with
  | CommandMsg command index =>
      if index <=? latestAppliedRaftIndex kv then Ret (kv, []) else
      match command with
      | None => Panic
      | Some op =>
          '(m, response, ts) ← applyOp (kv_gid kv) op (machine kv);
          kv ← maybeSnapshot (set_machine m index kv) index;
          kv ← respond kv index response;
          Ret (kv, ts)
      end
  | SnapshotMsg snapshot _ index =>
      if latestAppliedRaftIndex kv <? index
      then kv ← deserialize snapshot kv; Ret (kv, []) else Ret (kv, [])
  end.

(** *** The RPC handlers *)

Definition startOp kv (op : LogOp) : outcome (ShardKV * option Z) :=
  '(rf, (raftIndex, _, isLeader)) ← rs_Start (kv_rf kv) op;
  Ret (set_rf rf kv, if isLeader : bool then Some raftIndex else None).

Definition register kv (raftIndex : Z) : outcome ShardKV :=
  match waitChs kv !! raftIndex with
  | Some _ => Fatal
  | None => Ret (set_waitChs (<[raftIndex := None]> (waitChs kv)) kv)
  end.

Definition Get_start kv (args : GetArgs) : outcome (ShardKV * (GetReply + Z)) :=
  '(kv, r) ← startOp kv (GET (ga_Key args) (ga_ClientId args) (ga_RequestId args));
  Ret (kv, match r with None => inl (mkGetReply ErrWrongLeader "") | Some i => inr i end).

Definition PutAppend_start kv (args : PutAppendArgs) : outcome (ShardKV * (PutAppendReply + Z)) :=
  let op := if String.eqb (pa_Op args) "Put"
            then PUT (pa_Key args) (pa_Value args) (pa_ClientId args) (pa_RequestId args)
            else APPEND (pa_Key args) (pa_Value args) (pa_ClientId args) (pa_RequestId args) in
  '(kv, r) ← startOp kv op;
  Ret (kv, match r with None => inl (mkPutAppendReply ErrWrongLeader) | Some i => inr i end).

(** The [select] and the deletion of the channel; [None] while waiting. *)
Definition await kv (raftIndex : Z) (timeout : bool) : option (ShardKV * (Err * string)) :=
  let kv' := set_waitChs (delete raftIndex (waitChs kv)) kv in
  if timeout then Some (kv', (ErrWrongLeader, ""%string))
  else match waitChs kv !! raftIndex with
       | Some (Some response) => Some (kv', (wr_err response, wr_value response))
       | _ => None
       end.

(** *** server_shard_transfer.go *)

Definition Pull kv (args : PullArgs) : PullReply :=
  if (rs_GetState (kv_rf kv)).2 then
    let m := machine kv in
    if pl_ConfigVersion args <? Num (currConfig m) then mkPullReply None ErrConfigVersion
    else if Num (currConfig m) <? pl_ConfigVersion args then mkPullReply None ErrConfigVersion
    else match shards m !! pl_ShardId args with
         | None => mkPullReply None ErrConfigVersion
         | Some sh => mkPullReply (Some (readMap (heap m) (Storage sh))) OK
         end
  else mkPullReply None ErrWrongLeader.

(** [Start] and the registration are one critical section here; the
    command carries the configuration of this group, not that of the
    request. *)
Definition Leave_start kv (args : LeaveArgs) : outcome (ShardKV * (LeaveReply + Z)) :=
  '(kv, r) ← startOp kv (LEAVE_SHARD (lv_ShardId args) (Num (currConfig (machine kv))));
  match r with
  | None => Ret (kv, inl (mkLeaveReply ErrWrongLeader))
  | Some i => kv ← register kv i; Ret (kv, inr i)
  end.

(** *** The transfer goroutines *)

(** What the loop over the servers of a group does with their answers
    ([None]: no answer): the first OK, unless ErrConfigVersion comes first. *)
Fixpoint firstOk {B} (err : B → Err) (answers : list (option B)) : option B :=
  match answers with
  | [] => None
  | Some reply :: rest =>
      if String.eqb (err reply) OK then Some reply
      else if String.eqb (err reply) ErrConfigVersion then None
      else firstOk err rest
  | None :: rest => firstOk err rest
  end.

(** The servers of the group that had the shard before. *)
Definition exOwner kv (shardId : Z) : option (list string) :=
  gid ← cfgOwner (prevConfig (machine kv)) shardId;
  Groups (prevConfig (machine kv)) !! gid.

(** The part the two loops share: stop when the configuration has moved on
    or the shard is not in the expected status, which is read through the
    shard's pointer. *)
Definition transferGoes kv (shardId version : Z) (status : ShardStatus) : outcome bool :=
  if version <? Num (currConfig (machine kv)) then Ret false else
  match shards (machine kv) !! shardId with
  | None => Panic
  | Some sh => Ret (bool_decide (Status sh = status))
  end.

(** One turn of [pullShard]; the second result is whether it goes on.  The
    storage of the answer becomes a map of this process. *)
Definition pullTurn kv (shardId version : Z) (answers : list (option PullReply)) :
    outcome (ShardKV * bool) :=
  goes ← transferGoes kv shardId version PULLING;
  if negb goes then Ret (kv, false) else
  if (rs_GetState (kv_rf kv)).2 then
    match
      servers ← exOwner kv shardId; firstOk plr_Err (take (length servers) answers)
    with
    | None => Ret (kv, true)
    | Some reply =>
        let m := machine kv in
        let '(h, storage) := match plr_Storage reply with
                             | Some c => let '(h, a) := alloc (heap m) c in (h, Some a)
                             | None => (heap m, None)
                             end in
        let kv := set_machine (set_heap h m) (latestAppliedRaftIndex kv) kv in
        '(kv, _) ← startOp kv (PULL_SHARD shardId version storage);
        Ret (kv, true)
    end
  else Ret (kv, true).

(** One turn of [sendLeave]. *)
Definition leaveTurn kv (shardId version : Z) (answers : list (option LeaveReply)) :
    outcome (ShardKV * bool) :=
  goes ← transferGoes kv shardId version WAITING;
  if negb goes then Ret (kv, false) else
  if (rs_GetState (kv_rf kv)).2 then
    match
      servers ← exOwner kv shardId; firstOk lvr_Err (take (length servers) answers)
    with
    | None => Ret (kv, true)
    | Some _ => '(kv, _) ← startOp kv (TRANSFER_DONE shardId version); Ret (kv, true)
    end
  else Ret (kv, true).

(** One turn of [fetchNextConfig]; [latestConfig] is what [Query] of the
    next number returns. *)
Definition fetchTurn kv (latestConfig : Config) : outcome ShardKV :=
  if (rs_GetState (kv_rf kv)).2 then
    let m := machine kv in
    if forallb (λ sh, bool_decide (Status sh = WORKING)) (map_to_list (shards m)).*2 then
      let currVersion := Num (currConfig m) in
      if currVersion <? Num latestConfig then
        if Num latestConfig =? currVersion + 1
        then '(kv, _) ← startOp kv (UPDATE_CONFIG latestConfig); Ret kv
        else Fatal
      else Ret kv
    else Ret kv
  else Ret kv.
End server.
Arguments ShardKV : clear implicits.
