(* ===== verification/ShardGroup.v ===== *)
(** * ShardGroup: the shard server's state machine by value

    [Group] is the state of a replica group with the contents of the storages
    instead of addresses, and [vApply] what a command does to it.  As long as
    no two shards share a map and a pulled storage is a map of its own, the
    server's state machine with its heap refines it ([applyOp_refines]).  The
    end of the file shows what the sharing of the pulled map with the log
    entry does to a replica that receives the entry late. *)

From S2P Require Import Prelude Labgob Persister RaftState RaftService ShardCtrler ShardKv.
Local Open Scope Z_scope.

Definition ValOp := Op (option (gmap string string)).

Record Group := mkGroup {
  g_shards : gmap Z ShardImage;
  g_prev : Config;
  g_curr : Config;
  g_requests : gmap Z Z;
}.

Definition set_gshards (v : gmap Z ShardImage) (g : Group) : Group :=
  mkGroup v (g_prev g) (g_curr g) (g_requests g).

(** The shards a configuration gives to a group, in order. *)
Definition ownedShards (gid : Z) (owners : list Z) : list Z :=
  filter (λ s, owners !! Z.to_nat s = Some gid) (seqZ 0 (zlen owners)).

Definition isServing (img : ShardImage) : Prop := img.2 = WORKING ∨ img.2 = WAITING.
#[export] Instance isServing_dec img : Decision (isServing img).
Proof. unfold isServing. apply _. Defined.

Definition vServing (g : Group) (key : string) : option ShardImage :=
  img ← g_shards g !! key2shard key; if decide (isServing img) then Some img else None.

(** A write to the shard of [key]: a nil storage panics. *)
Definition vWrite (g : Group) (key value : string) : outcome Group :=
  match g_shards g !! key2shard key with
  | Some (Some m, status) =>
      Ret (set_gshards (<[key2shard key := (Some (<[key := value]> m), status)]> (g_shards g)) g)
  | _ => Panic
  end.

Definition vRead (img : ShardImage) (key : string) : option string := default ∅ img.1 !! key.

Definition vCreate (gid : Z) (owners : list Z) (m : gmap Z ShardImage) : gmap Z ShardImage :=
  foldr (λ s m, <[s := (Some ∅, WORKING)]> m) m (ownedShards gid owners).

Definition vRequest (gid : Z) (owners : list Z) (m : gmap Z ShardImage) : gmap Z ShardImage :=
  foldr (λ s m', match m !! s with None => <[s := (None, PULLING)]> m' | Some _ => m' end) m
    (ownedShards gid owners).

Definition vLeave (gid : Z) (owners : list Z) (m : gmap Z ShardImage) : gmap Z ShardImage :=
  map_imap (λ s img, Some (if default 0 (owners !! Z.to_nat s) =? gid then img else (img.1, LEAVING))) m.

Section vapply.
Context (gid : Z).

Definition vClient (g : Group) (key : string) (client request : Z)
    (write : ShardImage → option string) (reply : ShardImage → WaitChResponse) :
    outcome (Group * WaitChResponse) :=
  match vServing g key with
  | None => Ret (g, mkWaitChResponse ErrWrongGroup "")
  | Some img =>
      let '(lar, isNew) := checkRequest (g_requests g) client request in
      let g := mkGroup (g_shards g) (g_prev g) (g_curr g) lar in
      g ← match (if isNew : bool then write img else None) with
          | Some value => vWrite g key value
          | None => Ret g
          end;
      Ret (g, reply img)
  end.

Definition vApply (op : ValOp) (g : Group) : outcome (Group * WaitChResponse) :=
  let none := mkWaitChResponse "" "" in
  match op with
  | GET key client request =>
      vClient g key client request (λ _, None)
        (λ img, match vRead img key with
                | None => mkWaitChResponse ErrNoKey ""
                | Some value => mkWaitChResponse OK value
                end)
  | PUT key value client request =>
      vClient g key client request (λ _, Some value) (λ _, mkWaitChResponse OK "")
  | APPEND key value client request =>
      vClient g key client request (λ img, Some (default ""%string (vRead img key) +:+ value))
        (λ _, mkWaitChResponse OK "")
  | UPDATE_CONFIG config =>
      if Num (g_curr g) =? Num config - 1 then
        Ret (mkGroup
               (if Num config =? 1 then vCreate gid (Shards config) (g_shards g)
                else vLeave gid (Shards config) (vRequest gid (Shards config) (g_shards g)))
               (g_curr g) config (g_requests g), none)
      else Ret (g, none)
  | PULL_SHARD sid version storage =>
      if Num (g_curr g) =? version then
        match g_shards g !! sid with
        | None => Panic
        | Some img =>
            Ret (if decide (img.2 = PULLING)
                 then set_gshards (<[sid := (storage, WAITING)]> (g_shards g)) g else g, none)
        end
      else Ret (g, none)
  | LEAVE_SHARD sid version =>
      Ret (if Num (g_curr g) =? version then set_gshards (delete sid (g_shards g)) g else g,
           mkWaitChResponse (if version <=? Num (g_curr g) then OK else ErrConfigVersion) "")
  | TRANSFER_DONE sid version =>
      if Num (g_curr g) =? version then
        match g_shards g !! sid with
        | None => Panic
        | Some img =>
            Ret (if decide (img.2 = WAITING)
                 then set_gshards (<[sid := (img.1, WORKING)]> (g_shards g)) g else g, none)
        end
      else Ret (g, none)
  end.
End vapply.

(** ** The view of a server's state *)

Definition viewOf (m : Machine) : Group :=
  mkGroup (imageOf (heap m) <$> shards m) (prevConfig m) (currConfig m) (latestAppliedRequest m).

Definition derefStorage (h : Heap) (l : option Z) : option (gmap string string) :=
  match l with Some a => Some (readMap h (Some a)) | None => None end.

(** A command with the contents its storage has now: what gob sends of it. *)
Definition derefOp (h : Heap) (op : LogOp) : ValOp :=
  match op with
  | GET k c r => GET k c r
  | PUT k v c r => PUT k v c r
  | APPEND k v c r => APPEND k v c r
  | UPDATE_CONFIG c => UPDATE_CONFIG c
  | PULL_SHARD s v l => PULL_SHARD s v (derefStorage h l)
  | LEAVE_SHARD s v => LEAVE_SHARD s v
  | TRANSFER_DONE s v => TRANSFER_DONE s v
  end.

(** Every storage is a map that exists, and no two shards share one. *)
Record heapOk (m : Machine) : Prop := {
  ho_next : ∀ a, is_Some (maps (heap m) !! a) → a < nextLoc (heap m);
  ho_valid : ∀ s sh a, shards m !! s = Some sh → Storage sh = Some a → is_Some (maps (heap m) !! a);
  ho_sep : ∀ s t sh sh' a, shards m !! s = Some sh → shards m !! t = Some sh' →
    Storage sh = Some a → Storage sh' = Some a → s = t;
}.

(** The map of a pulled storage is not the map of a shard. *)
Definition opFresh (op : LogOp) (m : Machine) : Prop :=
  match op with
  | PULL_SHARD _ _ (Some a) =>
      is_Some (maps (heap m) !! a) ∧ ∀ s sh, shards m !! s = Some sh → Storage sh ≠ Some a
  | _ => True
  end.

Section refinement.
Context (gid : Z).
Implicit Types m : Machine.

Lemma view_lookup m s : g_shards (viewOf m) !! s = imageOf (heap m) <$> shards m !! s.
Proof. cbn. by rewrite lookup_fmap. Qed.

Lemma vServing_view m key :
  vServing (viewOf m) key = imageOf (heap m) <$> serving m key.
Proof.
  unfold vServing, serving. rewrite view_lookup. destruct (shards m !! key2shard key) as [sh|]; [cbn|done].
  destruct (decide (isServing _)), (decide (Status sh = WORKING ∨ _)); done.
Qed.

Lemma serving_Some m key sh :
  serving m key = Some sh → shards m !! key2shard key = Some sh.
Proof.
  unfold serving. intros H. apply bind_Some in H as (sh' & Hs & H). case_decide; [|done]. by simplify_eq.
Qed.

(** Writing one shard's map changes the image of that shard only. *)
Lemma writeMap_view m key value sh h lar :
  heapOk m → shards m !! key2shard key = Some sh → writeMap (heap m) (Storage sh) key value = Ret h →
  vWrite (viewOf (set_requests lar m)) key value = Ret (viewOf (set_heap h (set_requests lar m))) ∧
  heapOk (set_heap h (set_requests lar m)).
Proof.
  intros [Hn Hv Hsep] Hs H. unfold writeMap in H. destruct (Storage sh) as [a|] eqn:Ea; [|done].
  injection H as <-. destruct (Hv _ _ _ Hs Ea) as [c Hc]. split.
  - unfold vWrite. rewrite view_lookup. cbn. rewrite Hs. unfold imageOf at 1. cbn. rewrite Ea, Hc. cbn.
    f_equal. unfold viewOf. cbn. unfold set_gshards. cbn. f_equal. apply map_eq. intros s.
    rewrite lookup_fmap. destruct (decide (s = key2shard key)) as [->|Hne].
    + rewrite lookup_insert_eq, Hs. cbn. unfold imageOf. rewrite Ea. cbn. by rewrite lookup_insert_eq.
    + rewrite lookup_insert_ne, lookup_fmap by done. destruct (shards m !! s) as [sh'|] eqn:Es; [cbn|done].
      f_equal. unfold imageOf. destruct (Storage sh') as [b|] eqn:Eb; [|done]. cbn.
      rewrite lookup_insert_ne; [done|]. intros ->. apply Hne. by eapply Hsep.
  - constructor; cbn; [|intros s sh' b Hs' Hb|by apply Hsep].
    + intros b. rewrite lookup_insert_is_Some. intros [<-|[_ ?]]; [apply Hn; by eexists|by apply Hn].
    + rewrite lookup_insert_is_Some'. right. by eapply Hv.
Qed.

(** The configuration [owners], whose first entry is for shard [i], gives
    shard [s] to the group. *)
Definition mine (i : Z) (owners : list Z) (s : Z) : Prop :=
  i <= s ∧ owners !! Z.to_nat (s - i) = Some gid.
#[local] Instance mine_dec i owners s : Decision (mine i owners s).
Proof. unfold mine. apply _. Defined.

Lemma mine_nil i s : ¬ mine i [] s.
Proof. intros [_ H]. done. Qed.

Lemma mine_cons i g owners s :
  mine i (g :: owners) s ↔ s = i ∧ g = gid ∨ mine (i + 1) owners s.
Proof.
  unfold mine. split.
  - intros [Hi Hl]. destruct (decide (s = i)) as [->|Hne].
    + rewrite Z.sub_diag in Hl. change (Some g = Some gid) in Hl. left. split; [done|congruence].
    + right. replace (Z.to_nat (s - i)) with (S (Z.to_nat (s - (i + 1)))) in Hl by lia. split; [lia|done].
  - intros [[-> ->]|[Hi Hl]]; [by rewrite Z.sub_diag|].
    replace (Z.to_nat (s - i)) with (S (Z.to_nat (s - (i + 1)))) by lia. split; [lia|done].
Qed.

Lemma mine_owned owners s : s ∈ ownedShards gid owners ↔ mine 0 owners s.
Proof.
  unfold ownedShards, mine. rewrite list_elem_of_filter, elem_of_seqZ, Z.sub_0_r. split; [tauto|].
  intros [H0 Hl]. pose proof (lookup_lt_Some _ _ _ Hl). unfold zlen. split; [done|lia].
Qed.

Lemma vCreate_lookup owners (M : gmap Z ShardImage) s :
  vCreate gid owners M !! s = if decide (mine 0 owners s) then Some (Some ∅, WORKING) else M !! s.
Proof.
  unfold vCreate. rewrite (decide_ext _ _ _ _ (iff_sym (mine_owned owners s))).
  induction (ownedShards gid owners) as [|x l IH]; [done|rewrite foldr_cons].
  destruct (decide (s = x)) as [->|Hne].
  - rewrite lookup_insert_eq, decide_True; [done|]. apply elem_of_cons. by left.
  - rewrite lookup_insert_ne by done. etrans; [exact IH|]. apply decide_ext. rewrite elem_of_cons. tauto.
Qed.

Lemma vRequest_lookup owners (M : gmap Z ShardImage) s :
  vRequest gid owners M !! s =
  match M !! s with
  | Some img => Some img
  | None => if decide (mine 0 owners s) then Some (None, PULLING) else None
  end.
Proof.
  unfold vRequest. rewrite (decide_ext _ _ _ _ (iff_sym (mine_owned owners s))).
  induction (ownedShards gid owners) as [|x l IH]; 
    [rewrite decide_False by apply not_elem_of_nil; destruct (M !! s) eqn:E; exact E|rewrite foldr_cons].
  destruct (decide (s = x)) as [->|Hne].
  - rewrite decide_True by (apply elem_of_cons; by left).
    destruct (M !! x) eqn:E; [done|]. by rewrite lookup_insert_eq.
  - rewrite (decide_ext _ (s ∈ l)) by (rewrite elem_of_cons; tauto).
    destruct (M !! x) eqn:E; [done|]. by rewrite lookup_insert_ne.
Qed.

Lemma vLeave_lookup owners (M : gmap Z ShardImage) s :
  vLeave gid owners M !! s =
  (λ img, if default 0 (owners !! Z.to_nat s) =? gid then img else (img.1, LEAVING)) <$> M !! s.
Proof. unfold vLeave. rewrite map_lookup_imap. by destruct (M !! s). Qed.

(** *** The loops of UPDATE_CONFIG *)

Lemma alloc_view m i c status h a :
  heapOk m → alloc (heap m) c = (h, a) →
  let m' := set_shards (<[i := mkShard (Some a) status]> (shards m)) (set_heap h m) in
  heapOk m' ∧ ∀ s, g_shards (viewOf m') !! s =
    if decide (s = i) then Some (Some c, status) else g_shards (viewOf m) !! s.
Proof.
  intros [Hn Hv Hsep] [= <- <-] m'.
  assert (∀ s sh b, shards m !! s = Some sh → Storage sh = Some b → b ≠ nextLoc (heap m)) as Hfresh.
  { intros s sh b Hs Hb ->. specialize (Hn _ (Hv _ _ _ Hs Hb)). lia. }
  split; [constructor; cbn|].
  - intros b. rewrite lookup_insert_is_Some. intros [<-|[_ ?%Hn]]; lia.
  - intros s sh b [[<- <-]|[_ Hs]]%lookup_insert_Some Hb; apply lookup_insert_is_Some'.
    + left. by injection Hb.
    + right. by eapply Hv.
  - intros s t sh sh' b [[<- <-]|[Hne Hs]]%lookup_insert_Some [[<- <-]|[Hne' Ht]]%lookup_insert_Some Hb Hb'.
    + done.
    + injection Hb as <-. by destruct (Hfresh _ _ _ Ht Hb').
    + injection Hb' as <-. by destruct (Hfresh _ _ _ Hs Hb).
    + by eapply Hsep.
  - intros s. rewrite view_lookup. cbn. case_decide as Hd.
    + subst s. rewrite lookup_insert_eq. cbn. unfold imageOf. cbn. by rewrite lookup_insert_eq.
    + rewrite lookup_insert_ne, lookup_fmap by done. destruct (shards m !! s) as [sh|] eqn:Es; [cbn|done].
      f_equal. unfold imageOf. destruct (Storage sh) as [b|] eqn:Eb; [|done]. cbn.
      rewrite lookup_insert_ne; [done|]. intros <-. by eapply Hfresh.
Qed.

Lemma createShards_view i owners m :
  heapOk m →
  let m' := createShards gid i owners m in
  heapOk m' ∧ prevConfig m' = prevConfig m ∧ currConfig m' = currConfig m ∧
  latestAppliedRequest m' = latestAppliedRequest m ∧
  ∀ s, g_shards (viewOf m') !! s =
    if decide (mine i owners s) then Some (Some ∅, WORKING) else g_shards (viewOf m) !! s.
Proof.
  revert i m. induction owners as [|g owners IH]; intros i m Hm.
  { split_and!; try done. intros s. rewrite decide_False; [done|apply mine_nil]. }
  cbn [createShards]. destruct (Z.eqb_spec g gid) as [->|Hne].
  - destruct (alloc (heap m) ∅) as [h a] eqn:Ea.
    destruct (alloc_view m i ∅ WORKING h a Hm Ea) as [Hm1 Hv1].
    destruct (IH (i + 1) _ Hm1) as (Hm2 & Hp & Hc & Hl & Hv2). split_and!; try done.
    intros s. rewrite Hv2, Hv1. pose proof (mine_cons i gid owners s) as E.
    destruct (decide (mine (i + 1) owners s)), (decide (s = i)), (decide (mine i (gid :: owners) s)); tauto.
  - destruct (IH (i + 1) m Hm) as (Hm2 & Hp & Hc & Hl & Hv2). split_and!; try done.
    intros s. rewrite Hv2. apply decide_ext. rewrite mine_cons. tauto.
Qed.

Lemma requestShards_view i owners version m :
  heapOk m →
  let '(m', ts) := requestShards gid i owners version m in
  heapOk m' ∧ heap m' = heap m ∧ prevConfig m' = prevConfig m ∧ currConfig m' = currConfig m ∧
  latestAppliedRequest m' = latestAppliedRequest m ∧
  (∀ s, g_shards (viewOf m') !! s =
    match g_shards (viewOf m) !! s with
    | Some img => Some img
    | None => if decide (mine i owners s) then Some (None, PULLING) else None
    end) ∧
  ∀ t, t ∈ ts ↔ ∃ s, t = TaskPull s version ∧ mine i owners s ∧ shards m !! s = None.
Proof.
  revert i m. induction owners as [|g owners IH]; intros i m Hm.
  { split_and!; try done; intros x.
    - rewrite decide_False; [by destruct (_ !! x)|apply mine_nil].
    - split; [intros Ht; by apply not_elem_of_nil in Ht|]. intros (s & _ & Hs & _). by apply mine_nil in Hs. }
  cbn [requestShards].
  destruct ((g =? gid) && bool_decide (shards m !! i = None)) eqn:E.
  - apply andb_true_iff in E as [->%Z.eqb_eq Hi%bool_decide_eq_true].
    set (m1 := set_shards (<[i := mkShard None PULLING]> (shards m)) m).
    assert (heapOk m1) as Hm1.
    { destruct Hm as [Hn Hv Hsep]. constructor; cbn; [done|..].
      - intros s sh a [[<- <-]|[_ Hs]]%lookup_insert_Some Ha; [done|by eapply Hv].
      - intros s t sh sh' a [[<- <-]|[_ Hs]]%lookup_insert_Some [[<- <-]|[_ Ht]]%lookup_insert_Some Ha Ha';
          [done..|by eapply Hsep]. }
    assert (∀ s, g_shards (viewOf m1) !! s =
      if decide (s = i) then Some (None, PULLING) else g_shards (viewOf m) !! s) as Hv1.
    { intros s. rewrite !view_lookup. cbn. case_decide as Hd; [subst s; by rewrite lookup_insert_eq|].
      by rewrite lookup_insert_ne. }
    specialize (IH (i + 1) m1 Hm1). destruct (requestShards gid (i + 1) owners version m1) as [m' ts].
    destruct IH as (Hm2 & Hh & Hp & Hc & Hl & Hv2 & Hts). split_and!; try done.
    + intros s. rewrite Hv2, Hv1. pose proof (mine_cons i gid owners s) as E.
      destruct (decide (s = i)) as [->|Hne].
      * rewrite view_lookup, Hi. cbn. rewrite decide_True by tauto. done.
      * destruct (g_shards (viewOf m) !! s); [done|]. apply decide_ext. tauto.
    + intros t. rewrite elem_of_cons, Hts. split.
      * intros [->|(s & -> & Hs & Hn)].
        -- exists i. split_and!; [done|apply mine_cons; by left|done].
        -- exists s. cbn in Hn. apply lookup_insert_None in Hn as [Hn _]. split_and!; [done|apply mine_cons; by right|done].
      * intros (s & -> & [[-> _]|Hs]%mine_cons & Hn); [by left|].
        destruct (decide (s = i)) as [->|Hne]; [by left|right]. exists s. split_and!; [done..|]. cbn.
        by rewrite lookup_insert_ne.
  - specialize (IH (i + 1) m Hm). destruct (requestShards gid (i + 1) owners version m) as [m' ts].
    destruct IH as (Hm2 & Hh & Hp & Hc & Hl & Hv2 & Hts).
    assert (∀ s, shards m !! s = None → mine i (g :: owners) s ↔ mine (i + 1) owners s) as Hsame.
    { intros s Hs. rewrite mine_cons. split; [|by right]. intros [[-> ->]|?]; [|done].
      rewrite Z.eqb_refl in E. cbn in E. by apply bool_decide_eq_false in E. }
    split_and!; try done.
    + intros s. rewrite Hv2, !view_lookup. destruct (shards m !! s) eqn:Es; cbn; [done|].
      apply decide_ext. by rewrite Hsame.
    + intros t. rewrite Hts. split; intros (s & -> & Hs & Hn); exists s; (split_and!; [done| |done]);
        by apply Hsame.
Qed.

(** *** The refinement *)

Definition refines (o : outcome (Machine * WaitChResponse * list task)) (v : outcome (Group * WaitChResponse)) : Prop :=
  match o with
  | Ret (m', r, _) => v = Ret (viewOf m', r) ∧ heapOk m'
  | Panic => v = Panic
  | _ => False
  end.

Lemma heapOk_requests lar m : heapOk m → heapOk (set_requests lar m).
Proof. intros []. by constructor. Qed.

Lemma imageOf_read m sh key :
  vRead (imageOf (heap m) sh) key = readMap (heap m) (Storage sh) !! key.
Proof. unfold vRead, imageOf. by destruct (Storage sh). Qed.

(** A command that writes [value] when its request is new. *)
Lemma write_refines m key value lar sh reply :
  heapOk m → shards m !! key2shard key = Some sh →
  refines (m' ← (h ← writeMap (heap (set_requests lar m)) (Storage sh) key value;
                 Ret (set_heap h (set_requests lar m)));
           Ret (m', reply, []))
    (g ← vWrite (viewOf (set_requests lar m)) key value; Ret (g, reply)).
Proof.
  intros Hm Hs. cbn [heap set_requests]. destruct (writeMap (heap m) (Storage sh) key value) as [h| | |] eqn:E.
  - destruct (writeMap_view m key value sh h lar Hm Hs E) as [-> Hok]. done.
  - unfold writeMap in E. by destruct (Storage sh).
  - unfold writeMap in E. destruct (Storage sh) eqn:Es; [done|]. cbn. unfold vWrite.
    rewrite view_lookup. cbn. rewrite Hs. cbn. unfold imageOf. by rewrite Es.
  - unfold writeMap in E. by destruct (Storage sh).
Qed.

Lemma insert_view m sid sh sh' :
  heapOk m → shards m !! sid = Some sh' → (Storage sh = Storage sh' ∨
    ∀ a, Storage sh = Some a → is_Some (maps (heap m) !! a) ∧
      ∀ s x, shards m !! s = Some x → Storage x ≠ Some a) →
  viewOf (set_shards (<[sid := sh]> (shards m)) m) =
    set_gshards (<[sid := imageOf (heap m) sh]> (g_shards (viewOf m))) (viewOf m) ∧
  heapOk (set_shards (<[sid := sh]> (shards m)) m).
Proof.
  intros [Hn Hv Hsep] Hs Hst. split; [unfold viewOf, set_gshards; cbn; by rewrite fmap_insert|].
  constructor; cbn; [done|..].
  - intros s x a [[<- <-]|[_ Hx]]%lookup_insert_Some Ha; [|by eapply Hv].
    destruct Hst as [E|Hf]; [rewrite E in Ha; by eapply Hv|by apply Hf].
  - assert (∀ t x a, t ≠ sid → shards m !! t = Some x → Storage sh = Some a → Storage x = Some a → False) as Hx.
    { intros t x a Hne Ht Ha Hxa. destruct Hst as [E|Hf]; [|by destruct (Hf a Ha) as [_ Hn']; eapply Hn'].
      apply Hne. eapply Hsep; [done..|]. congruence. }
    intros s t x y a [[<- <-]|[Hne Hsx]]%lookup_insert_Some [[<- <-]|[Hne' Hty]]%lookup_insert_Some Ha Ha'.
    + done.
    + by destruct (Hx t y a).
    + by destruct (Hx s x a).
    + by eapply Hsep.
Qed.

Lemma update_refines config m :
  heapOk m → refines (applyOp gid (UPDATE_CONFIG config) m) (vApply gid (UPDATE_CONFIG config) (viewOf m)).
Proof.
  intros Hm. cbn [applyOp vApply]. cbn [g_curr viewOf]. destruct (Num (currConfig m) =? Num config - 1); [|done].
  set (m0 := mkMachine (shards m) (currConfig m) config (latestAppliedRequest m) (heap m)).
  assert (heapOk m0) as Hm0 by (destruct Hm; by constructor).
  destruct (Num config =? 1).
  - destruct (createShards_view 0 (Shards config) m0 Hm0) as (Hok & Hp & Hc & Hl & Hv). split; [|done].
    do 2 f_equal. unfold viewOf. rewrite Hp, Hc, Hl. f_equal. apply map_eq. intros s.
    rewrite vCreate_lookup. symmetry. exact (Hv s).
  - pose proof (requestShards_view 0 (Shards config) (Num config) m0 Hm0) as H.
    destruct (requestShards gid 0 (Shards config) (Num config) m0) as [m1 ts].
    destruct H as (Hok & Hh & Hp & Hc & Hl & Hv & _). split.
    + do 2 f_equal. unfold viewOf. cbn. rewrite Hp, Hc, Hl. f_equal. apply map_eq. intros s.
      pose proof (Hv s) as Hs. rewrite !view_lookup in Hs. rewrite vLeave_lookup, vRequest_lookup, !lookup_fmap.
      rewrite Hh in Hs |- *. unfold markLeaving. rewrite map_lookup_imap. cbn in Hs. rewrite <- Hs.
      destruct (shards m1 !! s) as [sh|]; [cbn|done].
      by destruct (default 0 (Shards config !! Z.to_nat s) =? gid).
    + destruct Hok as [Hn Hv' Hsep].
      assert (∀ s sh, markLeaving gid (Shards config) (shards m1) !! s = Some sh →
        ∃ sh', shards m1 !! s = Some sh' ∧ Storage sh = Storage sh') as Hml.
      { intros s sh. unfold markLeaving. rewrite map_lookup_imap.
        destruct (shards m1 !! s) as [sh'|]; [cbn|done]. intros [= <-]. exists sh'. by case_match. }
      constructor; cbn; [done|..].
      * intros s sh a (sh' & Hs & E)%Hml Ha. rewrite E in Ha. by eapply Hv'.
      * intros s t sh sh' a (x & Hx & Ex)%Hml (y & Hy & Ey)%Hml Ha Ha'. apply (Hsep s t x y a); congruence.
Qed.

Lemma applyOp_refines_all op m :
  heapOk m → opFresh op m →
  refines (applyOp gid op m) (vApply gid (derefOp (heap m) op) (viewOf m)).
Proof.
  intros Hm Hf. destruct op as [key c r|key value c r|key value c r|config|sid v st|sid v|sid v];
    cbn [derefOp]; [..|by apply update_refines| | |]; cbn [applyOp vApply].
  1-3: unfold vClient; rewrite vServing_view;
    destruct (serving m key) as [sh|] eqn:Es; [|done]; cbn [fmap option_fmap option_map];
    apply serving_Some in Es; cbn [g_requests viewOf];
    destruct (checkRequest (latestAppliedRequest m) c r) as [lar isNew]; cbv zeta;
    change (mkGroup (g_shards (viewOf m)) (g_prev (viewOf m)) (g_curr (viewOf m)) lar)
      with (viewOf (set_requests lar m)).
  - rewrite imageOf_read. split; [by destruct isNew, (readMap (heap m) (Storage sh) !! key)|].
    by apply heapOk_requests.
  - destruct isNew; [by apply write_refines|]. split; [done|]. by apply heapOk_requests.
  - destruct isNew; [|split; [done|]; by apply heapOk_requests]. rewrite imageOf_read.
    cbn [heap set_requests]. destruct (readMap (heap m) (Storage sh) !! key) as [old|];
      by apply (write_refines m key _ lar sh).
  - rewrite view_lookup. cbn [g_curr viewOf]. destruct (Num (currConfig m) =? v); [|done].
    destruct (shards m !! sid) as [sh|] eqn:Es; [|done]. cbn [fmap option_fmap option_map imageOf snd].
    destruct (decide (Status sh = PULLING)) as [Hp|]; [|done].
    destruct (insert_view m sid (mkShard st WAITING) sh Hm Es) as [E Hok].
    { right. intros a [= ->]. exact Hf. }
    split; [|done]. rewrite E. unfold imageOf, derefStorage. done.
  - cbn [g_curr viewOf]. destruct (Z.eqb_spec (Num (currConfig m)) v) as [->|Hne].
    + rewrite Z.leb_refl. split.
      * do 2 f_equal. unfold viewOf, set_gshards. cbn. by rewrite fmap_delete.
      * destruct Hm as [Hn Hv Hsep]. constructor; cbn; [done|..].
        -- intros s sh a [_ Hs]%lookup_delete_Some. by eapply Hv.
        -- intros s t sh sh' a [_ Hs]%lookup_delete_Some [_ Ht]%lookup_delete_Some. by eapply Hsep.
    + destruct (Z.ltb_spec v (Num (currConfig m))), (Z.leb_spec v (Num (currConfig m))); (done || lia).
  - rewrite view_lookup. cbn [g_curr viewOf]. destruct (Num (currConfig m) =? v); [|done].
    destruct (shards m !! sid) as [sh|] eqn:Es; [|done]. cbn [fmap option_fmap option_map imageOf snd fst].
    destruct (decide (Status sh = WAITING)) as [Hp|]; [|done].
    destruct (insert_view m sid (mkShard (Storage sh) WORKING) sh Hm Es) as [E Hok]; [by left|].
    split; [|done]. rewrite E. unfold imageOf. done.
Qed.
End refinement.

(** C25. The server's state machine, with its shared maps, does to the contents of
    its shards exactly what the state machine by value does, panics included,
    and keeps the maps of its shards apart, as long as a pulled storage is not
    yet the map of a shard. *)
Theorem shard_machine_refines gid op m :
  heapOk m → opFresh op m →
  match applyOp gid op m with
  | Ret (m', r, _) => vApply gid (derefOp (heap m) op) (viewOf m) = Ret (viewOf m', r) ∧ heapOk m'
  | Panic => vApply gid (derefOp (heap m) op) (viewOf m) = Panic
  | _ => False
  end.
Proof. apply applyOp_refines_all. Qed.

(** ** Snapshots *)

Section snapshots.
Context {R P : Type} `{!RaftService R P LogOp SkvGob}.

Lemma allocShards_view l h p c lar :
  NoDup l.*1 → (∀ a, is_Some (maps h !! a) → a < nextLoc h) →
  let '(sh, h') := allocShards l h in
  heapOk (mkMachine sh p c lar h') ∧ imageOf h' <$> sh = list_to_map l.
Proof.
  intros Hnd Hh. induction l as [|[sid [st status]] l IH]; cbn [allocShards].
  { split; [|by rewrite fmap_empty]. constructor; cbn; [done|..]; intros; by rewrite lookup_empty in *. }
  apply NoDup_cons in Hnd as [Hsid Hnd]. specialize (IH Hnd).
  destruct (allocShards l h) as [sh h1]. destruct IH as [Hok Hview]. destruct st as [content|].
  - destruct (alloc h1 content) as [h2 a] eqn:Ea.
    destruct (alloc_view (mkMachine sh p c lar h1) sid content status h2 a Hok Ea) as [Hok2 Hv2].
    split; [done|]. apply map_eq. intros s. specialize (Hv2 s). cbn in Hv2.
    rewrite Hv2, Hview. cbn. case_decide as Hd; [subst s; by rewrite lookup_insert_eq|by rewrite lookup_insert_ne].
  - split.
    + destruct Hok as [Hn Hv Hsep]. constructor; cbn; [done|..].
      * intros s x a [[<- <-]|[_ Hs]]%lookup_insert_Some Ha; [done|by eapply Hv].
      * intros s t x y a [[<- <-]|[_ Hs]]%lookup_insert_Some [[<- <-]|[_ Ht]]%lookup_insert_Some Ha Ha';
          [done..|by eapply Hsep].
    + rewrite fmap_insert, Hview. done.
Qed.

(** C30. A server that recovers from a snapshot, after a restart or because it
    lags behind, has the contents, configurations, request table and index
    the snapshot was taken with, in maps of its own. *)
Theorem shard_snapshot_roundtrip (kv1 kv2 : ShardKV R) :
  (∀ a, is_Some (maps (heap (machine kv2)) !! a) → a < nextLoc (heap (machine kv2))) →
  ∃ kv3, deserialize (serialize kv1) kv2 = Ret kv3 ∧
    viewOf (machine kv3) = viewOf (machine kv1) ∧ heapOk (machine kv3) ∧
    latestAppliedRaftIndex kv3 = latestAppliedRaftIndex kv1 ∧
    kv_rf kv3 = kv_rf kv2 ∧ waitChs kv3 = waitChs kv2.
Proof.
  intros Hh. unfold deserialize, serialize, Encode. cbn [app Decode gob_prj gob_inj mbind option_bind].
  pose proof (allocShards_view (map_to_list (imageOf (heap (machine kv1)) <$> shards (machine kv1)))
    (heap (machine kv2)) (prevConfig (machine kv1)) (currConfig (machine kv1))
    (latestAppliedRequest (machine kv1)) (NoDup_fst_map_to_list _) Hh) as H.
  cbn. destruct (allocShards _ _) as [sh h]. destruct H as [Hok Hview].
  eexists. split; [done|]. split_and!; try done. unfold viewOf. cbn.
  by rewrite Hview, list_to_map_to_list.
Qed.
End snapshots.

(** ** A log entry that changes after it was written

    Group 2 pulls a shard that holds x = 1 and then appends 2 to x.  The map
    in the log entry of PULL_SHARD is the shard's map, so the entry now says
    x = 12; a replica that receives the entry only now, or a server that
    restarts with the entry persisted after the append, executes both commands
    again and holds x = 122. *)
Definition pulling : Machine :=
  mkMachine {[ 0 := mkShard None PULLING ]} (mkConfig 1 (replicate 10 1) ∅)
    (mkConfig 2 (replicate 10 2) ∅) ∅ (mkHeap {[ 0 := {[ "x" := "1" ]}%string ]} 1).
Definition pullEntry : LogOp := PULL_SHARD 0 2 (Some 0).
Definition appendX : ∀ S, Op S := λ S, APPEND "x" "2" 7 0.

Example pulled_map_aliases_log :
  ∃ m1 r1 ts1 m2 r2 ts2 g1 s1 g2 s2,
    applyOp 2 pullEntry pulling = Ret (m1, r1, ts1) ∧
    applyOp 2 (appendX _) m1 = Ret (m2, r2, ts2) ∧
    derefOp (heap pulling) pullEntry = PULL_SHARD 0 2 (Some {[ "x" := "1" ]}%string) ∧
    derefOp (heap m2) pullEntry = PULL_SHARD 0 2 (Some {[ "x" := "12" ]}%string) ∧
    vApply 2 (derefOp (heap m2) pullEntry) (viewOf pulling) = Ret (g1, s1) ∧
    vApply 2 (appendX _) g1 = Ret (g2, s2) ∧
    g_shards (viewOf m2) !! 0 = Some (Some {[ "x" := "12" ]}%string, WAITING) ∧
    g_shards g2 !! 0 = Some (Some {[ "x" := "122" ]}%string, WAITING).
Proof. eexists _, _, _, _, _, _, _, _, _, _. split_and!; reflexivity. Qed.
