(* ===== verification/ShardClerk.v ===== *)
(** * ShardClerk: the client of [src/src/shardkv/client.go]

    [call k name args] is what the [k]-th [Call] of an operation, to the server
    called [name], brings back ([None] when it returns false); [ctrl n] are the
    answers of the configuration servers to the [n]-th query of the operation,
    which is made by the clerk of ShardConfigs.  The loops of the source are
    unbounded; here they take fuel, and [shard_clerk_returns] says how much
    is enough. *)

From S2P Require Import Prelude ShardCtrler ShardConfigs ShardKv.
Local Open Scope Z_scope.


Record Clerk := mkClerk {
  sm : ShardConfigs.Clerk;
  config : Config;
  clientId : Z;
  requestId : Z;
}.

(** The two [nrand()] are arguments. *)
Definition MakeClerk (ctrlers ctrlId id : Z) : Clerk :=
  mkClerk (ShardConfigs.MakeClerk ctrlers ctrlId) zeroConfig id 0.

Definition set_config (sm : ShardConfigs.Clerk) (c : Config) (ck : Clerk) : Clerk :=
  mkClerk sm c (clientId ck) (requestId ck).
Definition nextRequest (ck : Clerk) : Clerk :=
  mkClerk (sm ck) (config ck) (clientId ck) (requestId ck + 1).

Section loop.
Context {A B X : Type} (call : nat → string → A → option B) (ctrl : nat → nat → Z → QueryArgs → option QueryReply).
Context (accept : B → option X) (replyErr : B → Err) (args : A) (key : string).

(** [for si := 0; si < len(servers); si++]: the accepted answer, if any, and
    the number of calls made so far. *)
Fixpoint tryServers (k : nat) (servers : list string) : option X * nat :=
  match servers with
  | [] => (None, k)
  | srv :: rest =>
      match call k srv args with
      | Some reply =>
          match accept reply with
          | Some x => (Some x, S k)
          | None => if String.eqb (replyErr reply) ErrWrongGroup then (None, S k) else tryServers (S k) rest
          end
      | None => tryServers (S k) rest
      end
  end.

(** The outer loop: [None] when the fuel is used up and the clerk is still
    trying. *)
Fixpoint retryLoop (fuel n k : nat) (ck : Clerk) : outcome (option X * Clerk) :=
  match fuel with
  | O => Ret (None, ck)
  | S fuel' =>
      gid ← slice_get (Shards (config ck)) (key2shard key);
      let '(r, k) := match Groups (config ck) !! gid with
                     | Some servers => tryServers k servers
                     | None => (None, k)
                     end in
      match r with
      | Some x => Ret (Some x, nextRequest ck)
      | None =>
          '(c, sm') ← Query (ctrl n) (sm ck) (-1);
          retryLoop fuel' (S n) k (set_config sm' c ck)
      end
  end.
End loop.

(** [reply.Err == OK || reply.Err == ErrNoKey]. *)
Definition acceptGet (reply : GetReply) : option string :=
  if String.eqb (gr_Err reply) OK || String.eqb (gr_Err reply) ErrNoKey then Some (gr_Value reply) else None.

Definition acceptPutAppend (reply : PutAppendReply) : option unit :=
  if String.eqb (par_Err reply) OK then Some tt else None.

Definition Get (call : nat → string → GetArgs → option GetReply) ctrl (fuel : nat) (ck : Clerk) (key : string) :
    outcome (option string * Clerk) :=
  retryLoop call ctrl acceptGet gr_Err (mkGetArgs key (clientId ck) (requestId ck)) key fuel 0 0 ck.

Definition PutAppend (call : nat → string → PutAppendArgs → option PutAppendReply) ctrl (fuel : nat) (ck : Clerk)
    (key value op : string) : outcome (option unit * Clerk) :=
  retryLoop call ctrl acceptPutAppend par_Err
    (mkPutAppendArgs key value op (clientId ck) (requestId ck)) key fuel 0 0 ck.

Definition Put call ctrl fuel ck key value := PutAppend call ctrl fuel ck key value "Put".
Definition Append call ctrl fuel ck key value := PutAppend call ctrl fuel ck key value "Append".

(** ** The retry loop *)

(** The clerk of the configuration service is well formed and the current
    configuration has an owner for every shard, which may be nobody. *)
Definition clerkOk (ck : Clerk) : Prop :=
  ctrlClerkOk (sm ck) ∧ zlen (Shards (config ck)) = NShards.

Lemma key2shard_range key : 0 <= key2shard key < NShards.
Proof. unfold key2shard. destruct key; apply Z.mod_pos_bound; done. Qed.

Section lemmas.
Context {A B X : Type} (call : nat → string → A → option B) (ctrl : nat → nat → Z → QueryArgs → option QueryReply).
Context (accept : B → option X) (replyErr : B → Err) (args : A) (key : string).

Lemma tryServers_spec k servers x k' :
  tryServers call accept replyErr args k servers = (Some x, k') →
  ∃ n srv reply, srv ∈ servers ∧ call n srv args = Some reply ∧ accept reply = Some x.
Proof.
  revert k. induction servers as [|srv rest IH]; intros k; cbn; [done|].
  assert (tryServers call accept replyErr args (S k) rest = (Some x, k') →
    ∃ n s reply, s ∈ srv :: rest ∧ call n s args = Some reply ∧ accept reply = Some x) as Hrest.
  { intros (n & s & reply & Hs & H)%IH. exists n, s, reply. split; [by right|done]. }
  destruct (call k srv args) as [reply|] eqn:Ec; [|done].
  destruct (accept reply) as [y|] eqn:Ea; [|by destruct (String.eqb _ _)].
  intros [= -> <-]. exists k, srv, reply. split; [by left|done].
Qed.

(** If a server of the list keeps giving an acceptable answer and none says
    ErrWrongGroup, the list is enough. *)
Lemma tryServers_finds k servers srv :
  srv ∈ servers →
  (∀ n, ∃ reply x, call n srv args = Some reply ∧ accept reply = Some x) →
  (∀ n s reply, s ∈ servers → call n s args = Some reply → replyErr reply ≠ ErrWrongGroup) →
  ∃ x k', tryServers call accept replyErr args k servers = (Some x, k').
Proof.
  intros Hin Hans Hno. revert k. induction servers as [|s rest IH]; intros k; [by apply not_elem_of_nil in Hin|].
  cbn. apply elem_of_cons in Hin as [<-|Hin].
  - destruct (Hans k) as (reply & x & -> & ->). by eexists _, _.
  - specialize (IH Hin ltac:(intros n s' reply Hs; apply Hno; by right)).
    destruct (call k s args) as [reply|] eqn:Ec; [|apply IH].
    destruct (accept reply); [by eexists _, _|].
    destruct (String.eqb_spec (replyErr reply) ErrWrongGroup) as [E|_]; [|apply IH].
    by destruct (Hno k s reply ltac:(by left) Ec).
Qed.

Lemma retryLoop_ok fuel n k ck r ck' :
  retryLoop call ctrl accept replyErr args key fuel n k ck = Ret (r, ck') →
  clientId ck' = clientId ck ∧
  match r with
  | Some x => requestId ck' = requestId ck + 1 ∧
      ∃ m srv reply, call m srv args = Some reply ∧ accept reply = Some x
  | None => requestId ck' = requestId ck
  end.
Proof.
  revert n k ck. induction fuel as [|fuel IH]; intros n k ck; cbn [retryLoop]; [by intros [= <- <-]|].
  intros H. apply bind_Ret in H as (gid & _ & H).
  destruct (match Groups (config ck) !! gid with Some servers => _ | None => _ end) as [[x|] k'] eqn:Et.
  - injection H as <- <-. split; [done|]. split; [done|]. destruct (Groups (config ck) !! gid); [|done].
    apply tryServers_spec in Et as (m & srv & reply & _ & Hc & Ha). by exists m, srv, reply.
  - apply bind_Ret in H as ([c sm'] & _ & H). by apply IH in H.
Qed.
End lemmas.

(** A Get that finds its configuration out of date asks the configuration
    service once: if that answers with a configuration in which some server of
    the key's group keeps answering and none refuses, two turns of the loop are
    enough.  The value is one that a server answered to exactly this request,
    and the clerk moves on to the next request number. *)
Theorem shard_clerk_returns call ctrl ck key c gid servers srv fuel :
  clerkOk ck → (2 <= fuel)%nat →
  (∀ n sm, ctrlClerkOk sm → ∃ sm', Query (ctrl n) sm (-1) = Ret (c, sm') ∧ ctrlClerkOk sm') →
  Shards c !! Z.to_nat (key2shard key) = Some gid → Groups c !! gid = Some servers → srv ∈ servers →
  (∀ n, ∃ reply x, call n srv (mkGetArgs key (clientId ck) (requestId ck)) = Some reply ∧ acceptGet reply = Some x) →
  (∀ n s reply, s ∈ servers → call n s (mkGetArgs key (clientId ck) (requestId ck)) = Some reply →
     gr_Err reply ≠ ErrWrongGroup) →
  ∃ v ck', Get call ctrl fuel ck key = Ret (Some v, ck') ∧
    clientId ck' = clientId ck ∧ requestId ck' = requestId ck + 1 ∧
    ∃ n s reply, call n s (mkGetArgs key (clientId ck) (requestId ck)) = Some reply ∧ acceptGet reply = Some v.
Proof.
  intros [Hsm Hlen] Hf Hctrl Hgid Hservers Hsrv Hans Hno. unfold Get.
  set (args := mkGetArgs key (clientId ck) (requestId ck)) in *.
  assert (∃ v ck', retryLoop call ctrl acceptGet gr_Err args key fuel 0 0 ck = Ret (Some v, ck')) as (v & ck' & E).
  { destruct fuel as [|[|fuel]]; [lia..|]. cbn [retryLoop].
    destruct (lookup_lt_is_Some_2 (Shards (config ck)) (Z.to_nat (key2shard key))) as [g Hg].
    { pose proof (key2shard_range key). unfold zlen in Hlen. lia. }
    assert (∀ l i x, 0 <= i → l !! Z.to_nat i = Some x → slice_get l i = Ret (x : Z)) as Hget
      by (intros l i x Hi Hl; by apply slice_get_Ret).
    pose proof (key2shard_range key) as [H0 _].
    rewrite (Hget _ _ _ H0 Hg). cbn [mbind outcome_bind].
    destruct (match Groups (config ck) !! g with Some servers => _ | None => _ end) as [[x|] k'] eqn:Et;
      [by eexists _, _|].
    destruct (Hctrl 0%nat (sm ck) Hsm) as (sm' & -> & Hsm'). cbn [mbind outcome_bind].
    cbn [set_config config]. rewrite (Hget _ _ _ H0 Hgid). cbn [mbind outcome_bind]. rewrite Hservers.
    destruct (tryServers_finds call acceptGet gr_Err args k' servers srv Hsrv Hans Hno) as (x & k'' & ->).
    by eexists _, _. }
  exists v, ck'. split; [exact E|].
  apply retryLoop_ok in E as (Hid & Hrq & m & s & reply & Hc & Ha). split; [done|]. split; [done|].
  by exists m, s, reply.
Qed.

