(* ===== verification/ShardWorld.v ===== *)
(** * ShardWorld: shards moving between replica groups

    Any number of replica groups, each the state machine of ShardGroup, with
    the transfer protocol of pullShard, sendLeave, Pull, Leave and
    fetchNextConfig between them.  A command is proposed by a server that
    looks at some state its group has been in ([hist]: a leader, or one that
    still believes to be one) and may be committed at any later time, any
    number of times; Leave requests may be delayed and repeated.  Commands carry the
    data they were proposed with: that a PULL_SHARD entry shares its map with the shard
    of the server that applied it ([pulled_map_aliases_log] of ShardGroup) is not part
    of this file.

    [truth] is the reference: one map per shard, to which every executed write
    is applied once.  As long as a LEAVE_SHARD command does not hit a shard its
    group still needs ([benignCommit]), at most one group serves a shard at any
    time and what it serves is the reference; the end of the file shows how the
    protocol reaches a state that breaks this condition. *)

From S2P Require Import Prelude ShardCtrler ShardKv ShardGroup.
Local Open Scope Z_scope.

(** The configuration a group is in. *)
Definition N (G : Group) : Z := Num (g_curr G).

Definition allWorking (G : Group) : Prop := ∀ s img, g_shards G !! s = Some img → img.2 = WORKING.

Record World := mkWorld {
  cfgs : list Config;
  groups : gmap Z Group;
  hist : list (Z * Group);
  soup : list (Z * ValOp);
  leaves : list (Z * Z);
  acks : list Z;
  truth : gmap Z (gmap string string);
}.

Definition truthAt (W : World) (s : Z) : gmap string string := default ∅ (truth W !! s).

(** The write a command executes, if its group serves the key and the request
    is new there. *)
Definition executedWrite (op : ValOp) (G : Group) : option (string * (option string → string)) :=
  match op with
  | PUT key value client request =>
      if decide (is_Some (vServing G key)) then
        if (checkRequest (g_requests G) client request).2 then Some (key, λ _, value) else None
      else None
  | APPEND key value client request =>
      if decide (is_Some (vServing G key)) then
        if (checkRequest (g_requests G) client request).2
        then Some (key, λ old, default ""%string old +:+ value) else None
      else None
  | _ => None
  end.

Definition truthStep (op : ValOp) (G : Group) (t : gmap Z (gmap string string)) :
    gmap Z (gmap string string) :=
  match executedWrite op G with
  | Some (key, f) =>
      let m := default ∅ (t !! key2shard key) in <[key2shard key := <[key := f (m !! key)]> m]> t
  | None => t
  end.

Definition isClient (op : ValOp) : Prop :=
  match op with GET _ _ _ | PUT _ _ _ _ | APPEND _ _ _ _ => True | _ => False end.

Definition addSoup (x : Z * ValOp) (W : World) : World :=
  mkWorld (cfgs W) (groups W) (hist W) (x :: soup W) (leaves W) (acks W) (truth W).

(** The label of a step is the command it commits, if any. *)
Inductive wstep : World → option (Z * ValOp) → World → Prop :=
  (** the controller adds a configuration *)
  | w_config W c :
      Num c = zlen (cfgs W) → zlen (Shards c) = NShards →
      wstep W None (mkWorld (cfgs W ++ [c]) (groups W) (hist W) (soup W) (leaves W) (acks W) (truth W))
  | w_client W g op : isClient op → wstep W None (addSoup (g, op) W)
  (** fetchNextConfig *)
  | w_fetch W g G c :
      (g, G) ∈ hist W → allWorking G → cfgs W !! Z.to_nat (N G + 1) = Some c →
      wstep W None (addSoup (g, UPDATE_CONFIG c) W)
  (** pullShard, answered by Pull *)
  | w_pull W g G p Gp s img imgp :
      (g, G) ∈ hist W → g_shards G !! s = Some img → img.2 = PULLING →
      cfgOwner (g_prev G) s = Some p → (p, Gp) ∈ hist W → N Gp = N G →
      g_shards Gp !! s = Some imgp →
      wstep W None (addSoup (g, PULL_SHARD s (N G) (Some (default ∅ imgp.1))) W)
  (** sendLeave *)
  | w_sendLeave W g G p s img :
      (g, G) ∈ hist W → g_shards G !! s = Some img → img.2 = WAITING →
      cfgOwner (g_prev G) s = Some p →
      wstep W None (mkWorld (cfgs W) (groups W) (hist W) (soup W) ((p, s) :: leaves W) (acks W) (truth W))
  (** Leave: the command carries the configuration of the receiving group *)
  | w_leave W p Gp s :
      (p, s) ∈ leaves W → (p, Gp) ∈ hist W → wstep W None (addSoup (p, LEAVE_SHARD s (N Gp)) W)
  (** the answer of Leave reaches sendLeave: the handler of Leave answers with the
      response to whatever command its group applies at the index it waits for, which
      may be any command that the group answers with OK *)
  | w_done W g G p s img :
      (g, G) ∈ hist W → g_shards G !! s = Some img → img.2 = WAITING →
      cfgOwner (g_prev G) s = Some p → (p, s) ∈ leaves W → p ∈ acks W →
      wstep W None (addSoup (g, TRANSFER_DONE s (N G)) W)
  (** a command is committed and executed *)
  | w_commit W g op G G' r :
      (g, op) ∈ soup W → groups W !! g = Some G → vApply g op G = Ret (G', r) →
      wstep W (Some (g, op)) (mkWorld (cfgs W) (<[g := G']> (groups W)) ((g, G') :: hist W) (soup W) (leaves W)
        (if String.eqb (wr_err r) OK then g :: acks W else acks W)
        (truthStep op G (truth W))).

(** A LEAVE_SHARD that takes effect removes a shard that is on its way out. *)
Definition benignCommit (op : ValOp) (G : Group) : Prop :=
  match op with
  | LEAVE_SHARD s v => v = N G → ∀ img, g_shards G !! s = Some img → img.2 = LEAVING
  | _ => True
  end.

Definition benignLabel (l : option (Z * ValOp)) (W : World) : Prop :=
  match l with
  | Some (g, op) => ∀ G, groups W !! g = Some G → benignCommit op G
  | None => True
  end.

Definition freshGroup : Group := mkGroup ∅ zeroConfig zeroConfig ∅.

Definition initWorld (gids : gset Z) : World :=
  mkWorld [zeroConfig] (gset_to_gmap freshGroup gids)
    ((λ g, (g, freshGroup)) <$> elements gids) [] [] [] ∅.

Inductive wreach : World → Prop :=
  | wr_init gids : wreach (initWorld gids)
  | wr_step W l W' : wreach W → benignLabel l W → wstep W l W' → wreach W'.

(** ** Owners *)

Definition cfgAt (W : World) (k : Z) : option Config := if 0 <=? k then cfgs W !! Z.to_nat k else None.

Definition own (W : World) (k s : Z) : option Z := c ← cfgAt W k; cfgOwner c s.

Definition serves (G : Group) (s : Z) : Prop := ∃ img, g_shards G !! s = Some img ∧ isServing img.

(** Everyone who had shard [s] before configuration [m] knows by now that it
    lost it. *)
Definition passed (W : World) (s m : Z) : Prop :=
  ∀ k, 1 <= k < m → own W (k + 1) s ≠ own W k s →
    ∃ p Gp, own W k s = Some p ∧ groups W !! p = Some Gp ∧ k + 1 <= N Gp.

(** Group [g] has what it needs of shard [s] in configuration [v]. *)
Definition pulled (W : World) (g s v : Z) : Prop :=
  ∃ G, groups W !! g = Some G ∧
    (v < N G ∨ N G = v ∧ ∃ img, g_shards G !! s = Some img ∧ img.2 ≠ PULLING).

(** The statuses of a group's shards fit its configuration. *)
Record statusOk (W : World) (g : Z) (G : Group) : Prop := {
  st_curr : 0 <= N G ∧ cfgAt W (N G) = Some (g_curr G);
  st_prev : 1 <= N G → cfgAt W (N G - 1) = Some (g_prev G);
  st_shard : ∀ s img, g_shards G !! s = Some img → 0 <= s < NShards ∧ 1 <= N G ∧
    (img.2 = LEAVING ∧ 2 <= N G ∧ own W (N G) s ≠ Some g ∧ own W (N G - 1) s = Some g ∨
     img.2 ≠ LEAVING ∧ own W (N G) s = Some g) ∧
    (img.2 = PULLING → 2 <= N G ∧ own W (N G - 1) s ≠ Some g);
  st_owned : ∀ s, 0 <= s < NShards → 1 <= N G → own W (N G) s = Some g → is_Some (g_shards G !! s);
}.

Record core (W : World) : Prop := {
  c_cfgs : ∀ k c, cfgAt W k = Some c → Num c = k ∧ zlen (Shards c) = NShards;
  c_hist : ∀ g G, (g, G) ∈ hist W → statusOk W g G ∧ ∃ Gc, groups W !! g = Some Gc ∧ N G <= N Gc;
  c_curr : ∀ g G, groups W !! g = Some G → (g, G) ∈ hist W;
  c_working : ∀ g Go G, (g, Go) ∈ hist W → groups W !! g = Some G → N Go = N G →
    allWorking Go → allWorking G;
  c_passed : ∀ g G s img, (g, G) ∈ hist W → g_shards G !! s = Some img →
    (isServing img → passed W s (N G)) ∧ (img.2 = LEAVING → passed W s (N G - 1));
  c_leaving : ∀ p Gp s img, (p, Gp) ∈ hist W → g_shards Gp !! s = Some img → img.2 = LEAVING →
    (∀ g, own W (N Gp) s = Some g → ¬ pulled W g s (N Gp)) →
    img.1 = Some (truthAt W s) ∧ ∀ h H, groups W !! h = Some H → ¬ serves H s;
  c_serving : ∀ g G s img, groups W !! g = Some G → g_shards G !! s = Some img → isServing img →
    img.1 = Some (truthAt W s);
  c_first : ∀ s, (∀ g G, own W 1 s = Some g → groups W !! g = Some G → N G = 0) → truthAt W s = ∅;
}.

Definition soupOk (W : World) (x : Z * ValOp) : Prop :=
  match x.2 with
  | PULL_SHARD s v st => (0 <= s < NShards ∧ 1 <= v) ∧
      ∃ p Gp img, own W v s = Some x.1 ∧ own W (v - 1) s = Some p ∧ p ≠ x.1 ∧
      (p, Gp) ∈ hist W ∧ N Gp = v ∧ g_shards Gp !! s = Some img ∧ st = Some (default ∅ img.1)
  | TRANSFER_DONE s v => (0 <= s < NShards ∧ 1 <= v) ∧ own W v s = Some x.1
  | UPDATE_CONFIG c => ∃ Go, (x.1, Go) ∈ hist W ∧ allWorking Go ∧ cfgAt W (N Go + 1) = Some c
  | _ => True
  end.

(** *** The chain of owners *)

(** If [x] had the shard in [j] and another group has it in [m], then [x] has
    left [j] behind once [m] is passed. *)
Lemma passed_chain W s m j x :
  passed W s m → 1 <= j <= m → own W j s = Some x → own W m s ≠ Some x →
  ∃ Gx, groups W !! x = Some Gx ∧ j < N Gx.
Proof.
  intros Hp Hj Hx Hm. remember (Z.to_nat (m - j)) as d eqn:Hd.
  revert j Hj Hx Hd. induction d as [|d IH]; intros j Hj Hx Hd.
  { assert (j = m) as -> by lia. done. }
  destruct (decide (own W (j + 1) s = Some x)) as [Heq|Hne].
  - destruct (IH (j + 1)) as (Gx & HG & Hlt); [|done|lia|].
    + destruct (decide (j = m)) as [->|]; [done|lia].
    + exists Gx. split; [done|lia].
  - destruct (Hp j) as (p & Gp & Hop & HG & Hn).
    + split; [lia|]. destruct (decide (j = m)) as [->|]; [done|lia].
    + congruence.
    + rewrite Hx in Hop. injection Hop as <-. exists Gp. split; [done|lia].
Qed.

Lemma serving_owner W g G s img :
  statusOk W g G → g_shards G !! s = Some img → isServing img →
  0 <= s < NShards ∧ 1 <= N G ∧ own W (N G) s = Some g.
Proof.
  intros Hst Hs [Hi|Hi]; destruct (st_shard _ _ _ Hst s img Hs) as (Hr & H1 & [(HL & _)|(_ & Ho)] & _);
    (done || congruence).
Qed.

(** At most one group serves a shard. *)
Lemma core_unique W g h G H s :
  core W → groups W !! g = Some G → groups W !! h = Some H → serves G s → serves H s → g = h.
Proof.
  intros Hc HG HH (i1 & H1 & S1) (i2 & H2 & S2).
  pose proof (c_curr _ Hc _ _ HG) as HiG. pose proof (c_curr _ Hc _ _ HH) as HiH.
  destruct (c_hist _ Hc _ _ HiG) as [StG _]. destruct (c_hist _ Hc _ _ HiH) as [StH _].
  destruct (serving_owner _ _ _ _ _ StG H1 S1) as (_ & HgN & Og).
  destruct (serving_owner _ _ _ _ _ StH H2 S2) as (_ & HhN & Oh).
  destruct (decide (g = h)) as [|Hne]; [done|]. exfalso.
  assert (∀ x y X Y ix, groups W !! x = Some X → groups W !! y = Some Y → (y, Y) ∈ hist W →
    g_shards Y !! s = Some ix → isServing ix → own W (N X) s = Some x → own W (N Y) s = Some y →
    x ≠ y → 1 <= N X <= N Y → False) as Hlt.
  { intros x y X Y iy HX HY HiY Hsy Sy Ox Oy Hxy Hle.
    destruct (passed_chain W s (N Y) (N X) x) as (X' & HX' & Hgt); [|done|done|congruence|].
    - by apply (c_passed _ Hc _ _ _ _ HiY Hsy).
    - rewrite HX in HX'. injection HX' as <-. lia. }
  destruct (Z.le_ge_cases (N G) (N H)); [by eapply (Hlt g h)|by eapply (Hlt h g)].
Qed.

Lemma cfgAt_below W k m c : cfgAt W m = Some c → 0 <= k <= m → is_Some (cfgAt W k).
Proof.
  unfold cfgAt. destruct (Z.leb_spec 0 m), (Z.leb_spec 0 k); try (done || lia). intros Hm Hk.
  apply lookup_lt_is_Some. apply lookup_lt_Some in Hm. lia.
Qed.

Lemma own_Some W k s c :
  core W → cfgAt W k = Some c → 0 <= s < NShards → is_Some (own W k s).
Proof.
  intros Hc Hk Hs. unfold own. rewrite Hk. cbn. unfold cfgOwner. apply lookup_lt_is_Some.
  destruct (c_cfgs _ Hc _ _ Hk) as [_ Hl]. unfold zlen in Hl. lia.
Qed.

Lemma statusOk_cfgs W1 W2 g G : cfgs W2 = cfgs W1 → statusOk W1 g G → statusOk W2 g G.
Proof. destruct W1, W2. cbn. intros -> [H1 H2 H3 H4]. by constructor. Qed.

(** Nobody serves a shard whose first owner has not started yet. *)
Lemma core_unstarted W h H s img :
  core W → (∀ g G, own W 1 s = Some g → groups W !! g = Some G → N G = 0) →
  (h, H) ∈ hist W → g_shards H !! s = Some img → ¬ isServing img ∧ img.2 ≠ LEAVING.
Proof.
  intros Hc Hf Hin Hs. destruct (c_hist _ Hc _ _ Hin) as [St (Hcur & HHc & Hle)].
  destruct (st_shard _ _ _ St s img Hs) as (Hr & H1 & Hcase & _).
  destruct (c_passed _ Hc _ _ _ _ Hin Hs) as [Pserv Pleav].
  destruct (st_curr _ _ _ St) as [_ Hcfg].
  destruct (cfgAt_below W 1 _ _ Hcfg) as [c1 Hc1]; [lia|].
  destruct (own_Some W 1 s c1 Hc Hc1 Hr) as [g Hg].
  assert (∀ m, passed W s m → 1 <= m → own W m s = Some h → m <= N H → False) as Habs.
  { intros m Hp Hm Oh HmH. destruct (decide (h = g)) as [->|Hne].
    - specialize (Hf g Hcur Hg HHc). lia.
    - destruct (passed_chain W s m 1 g) as (X & HX & Hlt); [done|lia|done|congruence|].
      specialize (Hf g X Hg HX). lia. }
  split.
  - intros Hi. destruct (serving_owner _ _ _ _ _ St Hs Hi) as (_ & _ & Oh).
    by eapply (Habs (N H)); [apply Pserv|..].
  - intros HL. destruct Hcase as [(_ & H2 & _ & Oh)|[? _]]; [|done].
    by eapply (Habs (N H - 1)); [apply Pleav|lia|..|lia].
Qed.

(** ** Commands that change no owner: client operations, LEAVE_SHARD and
    TRANSFER_DONE *)

Section commit.
Context (W : World) (Wok : core W) (g : Z) (G G' : Group) (HG : groups W !! g = Some G).
Context (sp : list (Z * ValOp)) (lv : list (Z * Z)) (ak : list Z) (tr : gmap Z (gmap string string)).

(** The world after the commit. *)
Let W' := mkWorld (cfgs W) (<[g := G']> (groups W)) ((g, G') :: hist W) sp lv ak tr.

Lemma commit_groups h H : groups W' !! h = Some H → h = g ∧ H = G' ∨ h ≠ g ∧ groups W !! h = Some H.
Proof. cbn. intros [[<- <-]|[Hne Hh]]%lookup_insert_Some; [by left|right]. split; [congruence|done]. Qed.

Lemma commit_passed s m : N G <= N G' → passed W s m → passed W' s m.
Proof.
  intros HN Hp k Hk Hne. destruct (Hp k Hk Hne) as (p & Gp & Ho & HGp & Hle).
  destruct (decide (p = g)) as [->|Hpg].
  - exists g, G'. split; [done|]. split; [apply lookup_insert_eq|]. rewrite HG in HGp. injection HGp as <-. lia.
  - exists p, Gp. split; [done|]. cbn. by rewrite lookup_insert_ne.
Qed.

Lemma commit_pulled h s v :
  N G <= N G' →
  (N G' = N G → ∀ img, g_shards G !! s = Some img → img.2 ≠ PULLING → own W (N G) s = Some g →
     ∃ img', g_shards G' !! s = Some img' ∧ img'.2 ≠ PULLING) →
  own W v s = Some h → pulled W h s v → pulled W' h s v.
Proof.
  intros HN Hkeep Ho (H & HH & Hcase). destruct (decide (h = g)) as [->|Hne].
  - exists G'. split; [apply lookup_insert_eq|]. rewrite HG in HH. injection HH as <-.
    destruct Hcase as [Hlt|[<- (img & Hi & Hp)]]; [left; lia|].
    destruct (decide (N G' = N G)) as [E|]; [|left; lia]. right. split; [done|]. by eapply Hkeep.
  - exists H. split; [|done]. cbn. by rewrite lookup_insert_ne.
Qed.

Context (Hcurr : g_curr G' = g_curr G) (Hprev : g_prev G' = g_prev G).
Context (Hback : ∀ s img', g_shards G' !! s = Some img' → ∃ img, g_shards G !! s = Some img ∧
  (img'.2 = img.2 ∨ img.2 = WAITING ∧ img'.2 = WORKING) ∧
  (isServing img' → img'.1 = Some (default ∅ (tr !! s))) ∧ (¬ isServing img' → img' = img)).
Context (Hkeep : ∀ s img, g_shards G !! s = Some img → img.2 ≠ LEAVING →
  ∃ img', g_shards G' !! s = Some img' ∧ (img.2 ≠ PULLING → img'.2 ≠ PULLING)).
Context (Htruth : ∀ s, default ∅ (tr !! s) = truthAt W s ∨ serves G s).

Lemma local_N : N G' = N G.
Proof. unfold N. by rewrite Hcurr. Qed.

Lemma local_serving s img' : g_shards G' !! s = Some img' → isServing img' → serves G s.
Proof.
  intros Hs Hi. destruct (Hback s img' Hs) as (img & HsG & Hcase & _). exists img. split; [done|].
  unfold isServing in *. destruct Hcase as [E|[E _]]; [by rewrite <- E|by right].
Qed.

Lemma local_status : statusOk W g G'.
Proof.
  destruct (c_hist _ Wok _ _ (c_curr _ Wok _ _ HG)) as [[St1 St2 St3 St4] _].
  constructor; rewrite ?local_N, ?Hcurr, ?Hprev; try done.
  - intros s img' Hs. destruct (Hback s img' Hs) as (img & HsG & Hcase & _).
    destruct (St3 s img HsG) as (Hr & H1 & Hown & Hpull). split; [done|]. split; [done|]. split.
    + destruct Hown as [(HL & H2 & H3 & H4)|[HL H2]].
      * left. destruct Hcase as [E|[E _]]; [|congruence]. split; [congruence|done].
      * right. split; [|done]. destruct Hcase as [E|[_ E]]; congruence.
    + intros HP. apply Hpull. destruct Hcase as [E|[_ E]]; congruence.
  - intros s Hr H1 Ho. destruct (St4 s Hr H1 Ho) as [img Hs].
    destruct (Hkeep s img Hs) as (img' & Hs' & _); [|by eexists].
    intros HL. destruct (St3 s img Hs) as (_ & _ & [(_ & _ & Hn & _)|[? _]] & _); done.
Qed.

Lemma local_leaving p Gp s img :
  (p, Gp) ∈ hist W → g_shards Gp !! s = Some img → img.2 = LEAVING →
  (∀ h, own W (N Gp) s = Some h → ¬ pulled W' h s (N Gp)) →
  img.1 = Some (default ∅ (tr !! s)) ∧ ∀ h H, groups W' !! h = Some H → ¬ serves H s.
Proof.
  intros Hin Hs HL Hnp. destruct (c_leaving _ Wok _ _ _ _ Hin Hs HL) as [Hd Hno].
  { intros h Ho Hp. apply (Hnp h Ho). eapply commit_pulled; [by rewrite local_N| |done|done].
    intros _ i Hi HP Hog. destruct (Hkeep s i Hi) as (i' & Hi' & HP'); [|by exists i'; auto].
    intros E. destruct (c_hist _ Wok _ _ (c_curr _ Wok _ _ HG)) as [St _].
    destruct (st_shard _ _ _ St s i Hi) as (_ & _ & [(_ & _ & Hn & _)|[? _]] & _); done. }
  split.
  - rewrite Hd. f_equal. destruct (Htruth s) as [E|Hsv]; [done|]. by destruct (Hno g G HG).
  - intros h H [[-> ->]|[Hne HH]]%commit_groups (i & Hi & Si).
    + destruct (Hno g G HG). by eapply local_serving.
    + apply (Hno h H HH). by exists i.
Qed.

Lemma core_local : core W'.
Proof.
  pose proof local_N as HN. pose proof local_status as Hst.
  pose proof (c_curr _ Wok _ _ HG) as HinG. constructor.
  - apply (c_cfgs _ Wok).
  - intros h H [[= -> ->]|Hin]%elem_of_cons.
    + split; [by apply (statusOk_cfgs W)|]. exists G'. split; [apply lookup_insert_eq|lia].
    + destruct (c_hist _ Wok _ _ Hin) as [St (Hc & HHc & Hle)]. split; [by apply (statusOk_cfgs W)|].
      destruct (decide (h = g)) as [->|Hne].
      * exists G'. split; [apply lookup_insert_eq|]. rewrite HG in HHc. injection HHc as <-. lia.
      * exists Hc. cbn. by rewrite lookup_insert_ne.
  - intros h H [[-> ->]|[_ HH]]%commit_groups; apply elem_of_cons; [by left|right]. by apply (c_curr _ Wok).
  - assert (allWorking G → allWorking G') as Haw.
    { intros Hall s img' Hs. destruct (Hback s img' Hs) as (img & HsG & [->|[_ ?]] & _); [|done]. by apply (Hall s). }
    intros h Ho H Hin [[-> ->]|[Hne HH]]%commit_groups HNo Hall.
    + apply elem_of_cons in Hin as [[= ->]|Hin]; [done|]. apply Haw.
      eapply (c_working _ Wok); [done..|lia|done].
    + apply elem_of_cons in Hin as [[= -> _]|Hin]; [done|]. by eapply (c_working _ Wok).
  - intros h H s img [[= -> ->]|Hin]%elem_of_cons Hs.
    + rewrite HN. destruct (Hback s img Hs) as (i & Hi & Hcase & _).
      destruct (c_passed _ Wok _ _ _ _ HinG Hi) as [P1 P2]. split; intros Hx; apply commit_passed; try lia.
      * apply P1. destruct (local_serving s img Hs Hx) as (i2 & Hi2 & Si2). by simplify_eq.
      * apply P2. destruct Hcase as [<-|[_ E]]; [done|congruence].
    + destruct (c_passed _ Wok _ _ _ _ Hin Hs) as [P1 P2].
      split; intros Hx; (apply commit_passed; [lia|auto]).
  - intros p Gp s img [[= -> ->]|Hin]%elem_of_cons Hs HL Hnp; [|by eapply local_leaving].
    destruct (Hback s img Hs) as (i & Hi & Hcase & _ & Heq). rewrite Heq in * by (intros [E|E]; congruence).
    eapply (local_leaving g G); [done..|]. by rewrite <- HN.
  - intros h H s img [[-> ->]|[Hne HH]]%commit_groups Hs Hi.
    + by destruct (Hback s img Hs) as (_ & _ & _ & Hd & _); apply Hd.
    + rewrite (c_serving _ Wok h H s img HH Hs Hi). f_equal.
      destruct (Htruth s) as [E|Hsv]; [by symmetry|]. destruct Hne.
      eapply (core_unique W h g H G s Wok); [done..| |done]. by exists img.
  - intros s Hf. destruct (Htruth s) as [E|(i & Hi & Si)].
    + unfold truthAt at 1. cbn. rewrite E. apply (c_first _ Wok). intros h H Ho HH.
      destruct (decide (h = g)) as [->|Hne].
      * rewrite HG in HH. injection HH as <-. rewrite <- HN. apply (Hf g G' Ho). apply lookup_insert_eq.
      * apply (Hf h H Ho). cbn. by rewrite lookup_insert_ne.
    + destruct (core_unstarted W g G s i Wok) as [Hn _]; [|done|done|done].
      intros h H Ho HH. destruct (decide (h = g)) as [->|Hne].
      * rewrite HG in HH. injection HH as <-. rewrite <- HN. apply (Hf g G' Ho). apply lookup_insert_eq.
      * apply (Hf h H Ho). cbn. by rewrite lookup_insert_ne.
Qed.
End commit.

(** ** Commands that move shards: UPDATE_CONFIG and PULL_SHARD *)

Section move.
Context (W : World) (Wok : core W) (g : Z) (G G' : Group) (HG : groups W !! g = Some G).
Context (sp : list (Z * ValOp)) (lv : list (Z * Z)) (ak : list Z).

Let W' := mkWorld (cfgs W) (<[g := G']> (groups W)) ((g, G') :: hist W) sp lv ak (truth W).

Context (HN : N G <= N G') (Hst : statusOk W g G').
(** no group that was all WORKING in the new state's configuration is in
    another state now *)
Context (Hwork : N G' = N G → allWorking G → allWorking G').
Context (Hpass : ∀ s img, g_shards G' !! s = Some img →
  (isServing img → passed W' s (N G')) ∧ (img.2 = LEAVING → passed W' s (N G' - 1))).
(** shards that are still there have not gone back to PULLING *)
Context (Hpull : N G' = N G → ∀ s img, g_shards G !! s = Some img → img.2 ≠ PULLING →
  own W (N G) s = Some g → ∃ img', g_shards G' !! s = Some img' ∧ img'.2 ≠ PULLING).
Context (Hdata : ∀ s img, g_shards G' !! s = Some img → isServing img → img.1 = Some (truthAt W s)).
(** a shard served now either was served before, or nobody served it and
    every group that was leaving it has been heard *)
Context (Hserve : ∀ s, serves G' s → serves G s ∨
  (∀ h H, groups W !! h = Some H → ¬ serves H s) ∧
  (∀ p Gp img, (p, Gp) ∈ hist W → g_shards Gp !! s = Some img → img.2 = LEAVING →
     ∃ h, own W (N Gp) s = Some h ∧ pulled W' h s (N Gp))).
(** a shard that is leaving was leaving before, or was served until now *)
Context (Hleave : ∀ s img, g_shards G' !! s = Some img → img.2 = LEAVING →
  (N G' = N G ∧ g_shards G !! s = Some img) ∨ serves G s ∧ img.1 = Some (truthAt W s)).

Lemma move_old_leaving p Gp s img :
  (p, Gp) ∈ hist W → g_shards Gp !! s = Some img → img.2 = LEAVING →
  (∀ h, own W (N Gp) s = Some h → ¬ pulled W' h s (N Gp)) →
  img.1 = Some (truthAt W s) ∧ ∀ h H, groups W' !! h = Some H → ¬ serves H s.
Proof.
  intros Hin Hs HL Hnp. destruct (c_leaving _ Wok _ _ _ _ Hin Hs HL) as [Hd Hno].
  { intros h Ho Hp. apply (Hnp h Ho). eapply commit_pulled; [done|done| |done|done].
    intros E i. by apply Hpull. }
  split; [done|]. intros h H [[-> ->]|[_ HH]]%(commit_groups W g G' sp lv ak (truth W)) Hsv.
  - destruct (Hserve s Hsv) as [HsG|[_ Hall]]; [by apply (Hno g G)|].
    destruct (Hall p Gp img Hin Hs HL) as (h & Ho & Hp). by apply (Hnp h).
  - by apply (Hno h H).
Qed.

Lemma core_move : core W'.
Proof.
  pose proof (c_curr _ Wok _ _ HG) as HinG.
  destruct (c_hist _ Wok _ _ HinG) as [StG _]. destruct (st_curr _ _ _ StG) as [HN0 _].
  constructor.
  - apply (c_cfgs _ Wok).
  - intros h H [[= -> ->]|Hin]%elem_of_cons.
    + split; [by apply (statusOk_cfgs W)|]. exists G'. split; [apply lookup_insert_eq|lia].
    + destruct (c_hist _ Wok _ _ Hin) as [St (Hc & HHc & Hle)]. split; [by apply (statusOk_cfgs W)|].
      destruct (decide (h = g)) as [->|Hne].
      * exists G'. split; [apply lookup_insert_eq|]. rewrite HG in HHc. injection HHc as <-. lia.
      * exists Hc. cbn. by rewrite lookup_insert_ne.
  - intros h H [[-> ->]|[_ HH]]%commit_groups; apply elem_of_cons; [by left|right]. by apply (c_curr _ Wok).
  - intros h Ho H Hin [[-> ->]|[Hne HH]]%commit_groups HNo Hall.
    + apply elem_of_cons in Hin as [[= ->]|Hin]; [done|].
      destruct (c_hist _ Wok _ _ Hin) as [_ (Hc & HHc & Hle)]. rewrite HG in HHc. injection HHc as <-.
      apply Hwork; [lia|]. eapply (c_working _ Wok); [done..|lia|done].
    + apply elem_of_cons in Hin as [[= -> _]|Hin]; [done|]. by eapply (c_working _ Wok).
  - intros h H s img [[= -> ->]|Hin]%elem_of_cons Hs; [by apply Hpass|].
    destruct (c_passed _ Wok _ _ _ _ Hin Hs) as [P1 P2].
    split; intros Hx; (eapply commit_passed; [done|done|auto]).
  - intros p Gp s img [[= -> ->]|Hin]%elem_of_cons Hs HL Hnp; [|by eapply move_old_leaving].
    destruct (Hleave s img Hs HL) as [[HNe HsG]|[HsG Hd]].
    + eapply (move_old_leaving g G); [done..|]. by rewrite <- HNe.
    + split; [done|]. intros h H [[-> ->]|[Hne HH]]%commit_groups Hsv.
      * destruct Hsv as (i & Hi & [Si|Si]); congruence.
      * destruct Hne. by eapply (core_unique W h g H G s Wok).
  - intros h H s img [[-> ->]|[Hne HH]]%commit_groups Hs Hi; [by apply Hdata|].
    by apply (c_serving _ Wok h H s img HH Hs Hi).
  - intros s Hf. apply (c_first _ Wok). intros h H Ho HH. destruct (decide (h = g)) as [->|Hne].
    + rewrite HG in HH. injection HH as <-. specialize (Hf g G' Ho (lookup_insert_eq _ _ _)). lia.
    + apply (Hf h H Ho). cbn. by rewrite lookup_insert_ne.
Qed.
End move.

Section move_ops.
Context (W : World) (Wok : core W) (g : Z) (G : Group) (HG : groups W !! g = Some G).
Context (sp : list (Z * ValOp)) (lv : list (Z * Z)) (ak : list Z).

(** The world after the group's state became [G']. *)
Let after G' := mkWorld (cfgs W) (<[g := G']> (groups W)) ((g, G') :: hist W) sp lv ak (truth W).

Lemma pull_commit s st img :
  g_shards G !! s = Some img → img.2 = PULLING → soupOk W (g, PULL_SHARD s (N G) st) →
  core (after (set_gshards (<[s := (st, WAITING)]> (g_shards G)) G)).
Proof.
  intros Hs HP (_ & p & Gp & imgp & Og & Op & Hpg & Hinp & HNp & Hsp & ->). cbn in Og, Hpg.
  pose proof (c_curr _ Wok _ _ HG) as HinG. destruct (c_hist _ Wok _ _ HinG) as [StG _].
  destruct (c_hist _ Wok _ _ Hinp) as [Stp (Gpc & HGpc & Hlep)].
  assert (imgp.2 = LEAVING) as HL.
  { destruct (st_shard _ _ _ Stp s imgp Hsp) as (_ & _ & [(? & _)|[_ Ho]] & _); [done|].
    rewrite HNp, Og in Ho. congruence. }
  assert (∀ h, own W (N Gp) s = Some h → ¬ pulled W h s (N Gp)) as Hnp.
  { rewrite HNp. intros h Ho. rewrite Og in Ho. injection Ho as <-.
    intros (X & HX & [Hlt|(_ & i & Hi & Hne)]); rewrite HG in HX; injection HX as <-; [lia|congruence]. }
  destruct (c_leaving _ Wok _ _ _ _ Hinp Hsp HL Hnp) as [Hd Hno]. rewrite Hd. cbn [default].
  destruct (c_passed _ Wok _ _ _ _ Hinp Hsp) as [_ Pp]. specialize (Pp HL).
  set (G' := set_gshards _ G).
  assert (∀ t i, g_shards G' !! t = Some i → t = s ∧ i = (Some (truthAt W s), WAITING) ∨
    t ≠ s ∧ g_shards G !! t = Some i) as Hin'.
  { cbn. intros t i [[<- <-]|[? ?]]%lookup_insert_Some; [by left|right]. split; [congruence|done]. }
  assert (passed W s (N G)) as Hps.
  { intros k Hk Hne. destruct (decide (k = N G - 1)) as [->|]; [|apply Pp; [lia|done]].
    exists p, Gpc. split_and!; [done..|lia]. }
  apply (core_move W Wok g G G' HG); try done.
  - destruct StG as [S1 S2 S3 S4]. constructor; cbn; try done.
    + intros t i [[-> ->]|[Hne Ht]]%Hin'; [|by apply S3].
      destruct (S3 s img Hs) as (Hr & H1 & _). split; [done|]. split; [done|]. split; [by right|done].
    + intros t Hr H1 Ho. rewrite lookup_insert_is_Some'. right. by apply S4.
  - intros _ Haw t i [[-> ->]|[Hne Ht]]%Hin'; [|by eapply Haw]. specialize (Haw s img Hs). congruence.
  - intros t i [[-> ->]|[Hne Ht]]%Hin'.
    + split; [|done]. intros _. apply (commit_passed W g G G' HG); [done|exact Hps].
    + destruct (c_passed _ Wok _ _ _ _ HinG Ht) as [P1 P2].
      split; intros Hx; (apply (commit_passed W g G G' HG); [done|auto]).
  - intros _ t i Ht HPt _. cbn. destruct (decide (s = t)) as [->|Hne].
    + rewrite lookup_insert_eq. by eexists.
    + rewrite lookup_insert_ne by done. by exists i.
  - intros t i [[-> ->]|[Hne Ht]]%Hin' Si; [done|].
    exact (c_serving _ Wok g G t i HG Ht Si).
  - intros t (i & [[-> ->]|[Hne Ht]]%Hin' & Si); [right|left; by exists i]. split; [done|].
    intros q Q iq HinQ HsQ HLQ. destruct (c_hist _ Wok _ _ HinQ) as [StQ (Qc & HQc & HleQ)].
    destruct (st_shard _ _ _ StQ s iq HsQ) as (HrQ & H1Q & [(_ & H2Q & _ & OQ)|[? _]] & _); [|done].
    destruct (st_curr _ _ _ StQ) as [_ HcfgQ]. destruct (own_Some W (N Q) s _ Wok HcfgQ HrQ) as [h Oh].
    exists h. split; [done|].
    assert (groups (after G') !! g = Some G') as Hg' by apply lookup_insert_eq.
    destruct (Z.le_gt_cases (N Q) (N G)) as [Hle|Hgt].
    + destruct (decide (h = g)) as [->|Hne].
      * exists G'. split; [done|]. destruct (decide (N Q = N G)) as [E|]; [right|left; change (N G') with (N G); lia].
        split; [done|]. cbn. rewrite lookup_insert_eq. by eexists.
      * destruct (passed_chain W s (N G) (N Q) h) as (X & HX & Hlt); [done|lia|done|congruence|].
        exists X. split; [cbn; by rewrite lookup_insert_ne|by left].
    + exfalso. destruct (c_passed _ Wok _ _ _ _ HinQ HsQ) as [_ PQ]. specialize (PQ HLQ).
      destruct (decide (q = g)) as [->|Hne]; [rewrite HG in HQc; injection HQc as <-; lia|].
      destruct (st_shard _ _ _ StG s img Hs) as (_ & H1G & _).
      destruct (passed_chain W s (N Q - 1) (N G) g) as (X & HX & Hlt); [done|lia|done|congruence|].
      rewrite HG in HX. injection HX as <-. lia.
  - intros t i [[-> ->]|[Hne Ht]]%Hin' Hi; [done|]. by left.
Qed.

(** The group's shards after UPDATE_CONFIG. *)
Definition updated (c : Config) : Group :=
  mkGroup (if Num c =? 1 then vCreate g (Shards c) (g_shards G)
           else vLeave g (Shards c) (vRequest g (Shards c) (g_shards G)))
    (g_curr G) c (g_requests G).

Section update.
Context (c : Config) (Hc : cfgAt W (Num c) = Some c) (Hnum : N G = Num c - 1) (Haw : allWorking G).

Lemma own_new s : 0 <= s → own W (Num c) s = Some g ↔ mine g 0 (Shards c) s.
Proof. intros Hs. unfold own, mine, cfgOwner. rewrite Hc, Z.sub_0_r. cbn. tauto. Qed.

Lemma mine_range s : mine g 0 (Shards c) s → 0 <= s < NShards.
Proof.
  intros [H0 Hl]. apply lookup_lt_Some in Hl. destruct (c_cfgs _ Wok _ _ Hc) as [_ Hz]. unfold zlen in Hz. lia.
Qed.

Lemma old_shard s img :
  g_shards G !! s = Some img → 0 <= s < NShards ∧ 2 <= Num c ∧ img.2 = WORKING ∧ own W (Num c - 1) s = Some g.
Proof.
  intros Hs. destruct (c_hist _ Wok _ _ (c_curr _ Wok _ _ HG)) as [St _].
  destruct (st_shard _ _ _ St s img Hs) as (Hr & H1 & Hcase & _). specialize (Haw s img Hs).
  rewrite Hnum in *. split; [done|]. split; [lia|]. split; [done|].
  destruct Hcase as [(? & _)|[_ ?]]; [congruence|done].
Qed.

Lemma updated_inv s img' :
  g_shards (updated c) !! s = Some img' → 0 <= s < NShards ∧
  (own W (Num c) s = Some g ∧ g_shards G !! s = Some img' ∨
   own W (Num c) s ≠ Some g ∧ (∃ img, g_shards G !! s = Some img ∧ img' = (img.1, LEAVING)) ∨
   own W (Num c) s = Some g ∧ g_shards G !! s = None ∧ 2 <= Num c ∧ img' = (None, PULLING) ∨
   own W (Num c) s = Some g ∧ Num c = 1 ∧ img' = (Some ∅, WORKING)).
Proof.
  destruct (c_hist _ Wok _ _ (c_curr _ Wok _ _ HG)) as [St _]. destruct (st_curr _ _ _ St) as [HN0 _].
  cbn [updated g_shards]. destruct (Z.eqb_spec (Num c) 1) as [E|E].
  - rewrite vCreate_lookup. case_decide as Hm.
    + intros [= <-]. pose proof (mine_range s Hm). split; [done|]. right; right; right.
      split; [apply own_new; [lia|done]|done].
    + intros Hs. destruct (old_shard s img' Hs) as (_ & ? & _). lia.
  - rewrite vLeave_lookup, vRequest_lookup. destruct (g_shards G !! s) as [img|] eqn:Es; cbn.
    + destruct (old_shard s img Es) as (Hr & _). intros [= <-]. split; [done|].
      assert (is_Some (Shards c !! Z.to_nat s)) as [o Ho].
      { apply lookup_lt_is_Some. destruct (c_cfgs _ Wok _ _ Hc) as [_ Hz]. unfold zlen in Hz. lia. }
      rewrite (own_new s) by lia. unfold mine. rewrite Z.sub_0_r, Ho. cbn.
      destruct (Z.eqb_spec o g) as [->|Hne]; [left; split; [split; [lia|done]|done]|].
      right; left. split; [intros [_ [=]]; congruence|]. by exists img.
    + case_decide as Hm; [|done]. cbn. pose proof (mine_range s Hm) as Hr. destruct Hm as [H0 Hm].
      rewrite Z.sub_0_r in Hm. rewrite Hm. cbn. rewrite Z.eqb_refl. intros [= <-]. split; [done|].
      right; right; left. split; [apply own_new; [lia|]; split; [lia|by rewrite Z.sub_0_r]|].
      split; [done|]. split; [lia|done].
Qed.

Lemma updated_owned s : 0 <= s < NShards → own W (Num c) s = Some g → is_Some (g_shards (updated c) !! s).
Proof.
  intros Hr Ho. apply own_new in Ho; [|lia]. cbn [updated g_shards]. destruct (Num c =? 1).
  - rewrite vCreate_lookup, decide_True by done. by eexists.
  - rewrite vLeave_lookup, vRequest_lookup. apply fmap_is_Some.
    destruct (g_shards G !! s); [by eexists|]. rewrite decide_True by done. by eexists.
Qed.

Lemma updated_status : statusOk W g (updated c).
Proof.
  destruct (c_hist _ Wok _ _ (c_curr _ Wok _ _ HG)) as [St _]. destruct (st_curr _ _ _ St) as [HN0 Hcur].
  constructor; change (N (updated c)) with (Num c).
  - split; [lia|done].
  - intros _. rewrite <- Hnum. done.
  - intros s img (Hr & [[Ho Hs]|[[Ho (i & Hs & ->)]|[(Ho & Hs & H2 & ->)|(Ho & E & ->)]]])%updated_inv.
    + destruct (old_shard s img Hs) as (_ & H2 & Hw & _). split; [done|]. split; [lia|]. rewrite Hw.
      split; [by right|done].
    + destruct (old_shard s i Hs) as (_ & H2 & Hw & Hp). split; [done|]. split; [lia|]. split; [by left|done].
    + split; [done|]. split; [lia|]. split; [by right|]. intros _. split; [done|]. rewrite <- Hnum. intros Hp.
      destruct (st_owned _ _ _ St s Hr) as [i Hi]; [lia|done|]. congruence.
    + split; [done|]. split; [lia|]. split; [by right|done].
  - intros s Hr _. by apply updated_owned.
Qed.

Lemma update_unstarted s :
  Num c = 1 → own W (Num c) s = Some g → ∀ h H, own W 1 s = Some h → groups W !! h = Some H → N H = 0.
Proof. intros E Ho h H Hoh HH. rewrite E in Ho. simplify_eq. lia. Qed.

Lemma update_passed s img :
  g_shards (updated c) !! s = Some img →
  (isServing img → passed (after (updated c)) s (Num c)) ∧
  (img.2 = LEAVING → passed (after (updated c)) s (Num c - 1)).
Proof.
  pose proof (c_curr _ Wok _ _ HG) as HinG.
  assert (∀ i, g_shards G !! s = Some i → passed (after (updated c)) s (Num c - 1)) as Hold.
  { intros i Hi. destruct (old_shard s i Hi) as (_ & _ & Hw & _).
    apply (commit_passed W g G _ HG); [change (N (updated c)) with (Num c); lia|]. rewrite <- Hnum.
    apply (c_passed _ Wok _ _ _ _ HinG Hi). by left. }
  intros (Hr & [[Ho Hs]|[[Ho (i & Hs & ->)]|[(Ho & Hs & H2 & ->)|(Ho & E & ->)]]])%updated_inv.
  - destruct (old_shard s img Hs) as (_ & H2 & Hw & Hp). split; [|congruence].
    intros _ k Hk Hne. destruct (decide (k = Num c - 1)) as [->|]; [|by apply (Hold img Hs); [lia|]].
    destruct Hne. rewrite Z.sub_add. change (own W (Num c) s = own W (Num c - 1) s). congruence.
  - split; [by intros [?|?]|]. intros _. by eapply Hold.
  - by split; [intros [?|?]|].
  - split; [|done]. intros _ k Hk. lia.
Qed.

Lemma update_serves s :
  serves (updated c) s → serves G s ∨
  (∀ h H, groups W !! h = Some H → ¬ serves H s) ∧
  (∀ p Gp img, (p, Gp) ∈ hist W → g_shards Gp !! s = Some img → img.2 ≠ LEAVING).
Proof.
  intros (img & (Hr & [[Ho Hs]|[[Ho (i & Hs & ->)]|[(Ho & Hs & H2 & ->)|(Ho & E & ->)]]])%updated_inv & Si).
  - left. by exists img.
  - by destruct Si.
  - by destruct Si.
  - right. pose proof (update_unstarted s E Ho) as Hu. split.
    + intros h H HH (i & Hi & Sh). by destruct (core_unstarted W h H s i Wok Hu (c_curr _ Wok _ _ HH) Hi).
    + intros p Gp i Hin Hi. by destruct (core_unstarted W p Gp s i Wok Hu Hin Hi).
Qed.

Lemma core_update : core (after (updated c)).
Proof.
  apply (core_move W Wok g G (updated c) HG); try (change (N (updated c)) with (Num c); lia).
  - apply updated_status.
  - apply update_passed.
  - intros s img (Hr & [[Ho Hs]|[[Ho (i & Hs & ->)]|[(Ho & Hs & H2 & ->)|(Ho & E & ->)]]])%updated_inv Si.
    + exact (c_serving _ Wok g G s img HG Hs Si).
    + by destruct Si.
    + by destruct Si.
    + cbn. rewrite (c_first _ Wok s); [done|]. by apply update_unstarted.
  - intros s [Hs|[Hno Hnl]]%update_serves; [by left|right]. split; [done|].
    intros p Gp i Hin Hi HL. by destruct (Hnl p Gp i Hin Hi).
  - intros s img (Hr & [[Ho Hs]|[[Ho (i & Hs & ->)]|[(Ho & Hs & H2 & ->)|(Ho & E & ->)]]])%updated_inv HL;
      try done.
    + destruct (old_shard s img Hs) as (_ & _ & Hw & _). congruence.
    + destruct (old_shard s i Hs) as (_ & _ & Hw & _). right. assert (isServing i) as Si by (by left).
      split; [by exists i|]. exact (c_serving _ Wok g G s i HG Hs Si).
Qed.
End update.
End move_ops.

(** ** Every commit keeps the invariant *)

Section commits.
Context (W : World) (Wok : core W) (g : Z) (G : Group) (HG : groups W !! g = Some G).
Context (sp : list (Z * ValOp)) (lv : list (Z * Z)) (ak : list Z).

Let after G' tr := mkWorld (cfgs W) (<[g := G']> (groups W)) ((g, G') :: hist W) sp lv ak tr.

(** Commands that leave the shards alone. *)
Lemma core_same G' :
  g_curr G' = g_curr G → g_prev G' = g_prev G → g_shards G' = g_shards G → core (after G' (truth W)).
Proof.
  intros Hc Hp Hs. apply (core_local W Wok g G G' HG); try done; rewrite ?Hs.
  - intros s img Hi. exists img. split; [done|]. split; [by left|]. split; [|done].
    intros Si. exact (c_serving _ Wok g G s img HG Hi Si).
  - intros s img Hi _. by exists img.
  - intros s. by left.
Qed.

Lemma vServing_Some key img :
  vServing G key = Some img → g_shards G !! key2shard key = Some img ∧ isServing img.
Proof. unfold vServing. intros (i & Hi & H)%bind_Some. case_decide; [|done]. by injection H as <-. Qed.

(** A write reaches the shard and the reference. *)
Lemma core_write key img lar (f : option string → string) :
  vServing G key = Some img →
  ∃ G', vWrite (mkGroup (g_shards G) (g_prev G) (g_curr G) lar) key (f (vRead img key)) = Ret G' ∧
    core (after G' (<[key2shard key := <[key := f (truthAt W (key2shard key) !! key)]>
                      (truthAt W (key2shard key))]> (truth W))).
Proof.
  intros [Hi Si]%vServing_Some. pose proof (c_serving _ Wok g G _ img HG Hi Si) as Hd.
  destruct img as [st status]. cbn in Hd. subst st. unfold vWrite. cbn [g_shards]. rewrite Hi.
  eexists. split; [done|]. set (s := key2shard key) in *. unfold vRead. cbn [fst default].
  set (m := <[key := _]> (truthAt W s)). apply (core_local W Wok g G _ HG); try done; cbn [g_shards set_gshards].
  - intros t img' [[<- <-]|[Hne Ht]]%lookup_insert_Some.
    + eexists. split; [exact Hi|]. split; [by left|]. rewrite lookup_insert_eq. split; [done|]. by intros ?.
    + exists img'. split; [done|]. split; [by left|]. rewrite lookup_insert_ne by done. split; [|done].
      intros St. exact (c_serving _ Wok g G t img' HG Ht St).
  - intros t img Ht _. destruct (decide (s = t)) as [->|Hne].
    + rewrite lookup_insert_eq. eexists. split; [done|]. intros _ E. destruct Si as [Si|Si]; cbn in *; congruence.
    + rewrite lookup_insert_ne by done. by exists img.
  - intros t. destruct (decide (s = t)) as [->|Hne]; [right; by eexists|left]. by rewrite lookup_insert_ne.
Qed.

Lemma core_client key c r (w : ShardImage → option string) reply (f : option (option string → string)) :
  (∀ img, w img = (λ h, h (vRead img key)) <$> f) →
  ∃ G' resp, vClient G key c r w reply = Ret (G', resp) ∧
    core (after G' (match (if decide (is_Some (vServing G key)) then
                             if (checkRequest (g_requests G) c r).2 then f else None else None) with
                    | Some h => <[key2shard key := <[key := h (truthAt W (key2shard key) !! key)]>
                                   (truthAt W (key2shard key))]> (truth W)
                    | None => truth W
                    end)).
Proof.
  intros Hw. unfold vClient. destruct (vServing G key) as [img|] eqn:Es.
  2: { rewrite decide_False by (by intros [? ?]). eexists _, _. split; [done|]. by apply core_same. }
  rewrite decide_True by (by eexists). destruct (checkRequest (g_requests G) c r) as [lar isNew]. cbn [snd].
  rewrite Hw. destruct isNew, f as [h|]; cbn [fmap option_fmap option_map];
    try (eexists _, _; split; [done|]; by apply core_same).
  destruct (core_write key img lar h Es) as (G' & HW & Hc). rewrite HW. eexists _, _. split; [done|]. done.
Qed.

Lemma core_leave s v : benignCommit (LEAVE_SHARD s v) G → v = N G →
  core (after (set_gshards (delete s (g_shards G)) G) (truth W)).
Proof.
  intros Hb Hv. apply (core_local W Wok g G _ HG); try done; cbn [g_shards set_gshards].
  - intros t img [Hne Hi]%lookup_delete_Some. exists img. split; [done|]. split; [by left|]. split; [|done].
    intros Si. exact (c_serving _ Wok g G t img HG Hi Si).
  - intros t img Ht HL. exists img. split; [|done]. rewrite lookup_delete_ne; [done|]. intros <-.
    apply HL. by apply Hb.
  - intros t. by left.
Qed.

Lemma core_done s img : g_shards G !! s = Some img → img.2 = WAITING →
  core (after (set_gshards (<[s := (img.1, WORKING)]> (g_shards G)) G) (truth W)).
Proof.
  intros Hs Hw. apply (core_local W Wok g G _ HG); try done; cbn [g_shards set_gshards].
  - intros t img' [[<- <-]|[Hne Ht]]%lookup_insert_Some.
    + exists img. split; [done|]. split; [by right|]. split.
      * intros _. apply (c_serving _ Wok g G s img HG Hs). by right.
      * intros Hn. destruct Hn. by left.
    + exists img'. split; [done|]. split; [by left|]. split; [|done].
      intros St. exact (c_serving _ Wok g G t img' HG Ht St).
  - intros t i Ht _. destruct (decide (s = t)) as [->|Hne].
    + rewrite lookup_insert_eq. by eexists.
    + rewrite lookup_insert_ne by done. by exists i.
  - intros t. by left.
Qed.

Lemma owned_present s v :
  N G = v → 0 <= s < NShards ∧ 1 <= v → own W v s = Some g → is_Some (g_shards G !! s).
Proof.
  intros <- [Hr H1] Ho. destruct (c_hist _ Wok _ _ (c_curr _ Wok _ _ HG)) as [St _]. by apply (st_owned _ _ _ St).
Qed.

(** A command that was proposed by the protocol does not panic, and the
    invariant holds after it. *)
Lemma core_commit op :
  soupOk W (g, op) → benignCommit op G →
  ∃ G' r, vApply g op G = Ret (G', r) ∧ core (after G' (truthStep op G (truth W))).
Proof.
  intros Hso Hb. unfold truthStep.
  destruct op as [key c r|key value c r|key value c r|config|sid v st|sid v|sid v];
    cbn [executedWrite vApply]; cbn [soupOk snd fst] in Hso.
  - destruct (core_client key c r (λ _, None)
      (λ img, match vRead img key with None => mkWaitChResponse ErrNoKey "" | Some x => mkWaitChResponse OK x end)
      None) as (G' & resp & -> & Hc); [done|]. eexists _, _. split; [done|].
    by destruct (decide (is_Some (vServing G key))), (checkRequest (g_requests G) c r).2.
  - destruct (core_client key c r (λ _, Some value) (λ _, mkWaitChResponse OK "") (Some (λ _, value)))
      as (G' & resp & -> & Hc); [done|]. eexists _, _. split; [done|].
    by destruct (decide (is_Some (vServing G key))), (checkRequest (g_requests G) c r).2.
  - destruct (core_client key c r (λ img, Some (default ""%string (vRead img key) +:+ value))
      (λ _, mkWaitChResponse OK "") (Some (λ old, default ""%string old +:+ value)))
      as (G' & resp & -> & Hc); [done|]. eexists _, _. split; [done|].
    by destruct (decide (is_Some (vServing G key))), (checkRequest (g_requests G) c r).2.
  - destruct Hso as (Go & Hin & Haw & Hcfg). destruct (c_cfgs _ Wok _ _ Hcfg) as [Hnum _].
    destruct (Z.eqb_spec (Num (g_curr G)) (Num config - 1)) as [E|E]; eexists _, _; (split; [done|]).
    + apply (core_update W Wok g G HG); [by rewrite Hnum|done|].
      eapply (c_working _ Wok); [done..| |done]. unfold N in *. lia.
    + by apply core_same.
  - destruct (Z.eqb_spec (Num (g_curr G)) v) as [E|E]; [|eexists _, _; split; [done|]; by apply core_same].
    pose proof Hso as (Hr & p & Gp & i & Ho & _). destruct (owned_present sid v E Hr Ho) as [img Hi]. rewrite Hi.
    eexists _, _. split; [done|]. case_decide as HP; [|by apply core_same]. subst v.
    by apply (pull_commit W Wok g G HG _ _ _ sid st img).
  - eexists _, _. split; [done|]. destruct (Z.eqb_spec (Num (g_curr G)) v) as [E|E]; [|by apply core_same].
    by apply (core_leave sid v).
  - destruct (Z.eqb_spec (Num (g_curr G)) v) as [E|E]; [|eexists _, _; split; [done|]; by apply core_same].
    destruct Hso as [Hr Ho]. destruct (owned_present sid v E Hr Ho) as [img Hi]. rewrite Hi.
    eexists _, _. split; [done|]. case_decide as HW; [|by apply core_same]. by apply core_done.
Qed.
End commits.

(** ** Every reachable world satisfies the invariant *)

Section extend.
Context (W : World) (Wok : core W) (cs : list Config) (sp : list (Z * ValOp)) (lv : list (Z * Z)) (ak : list Z).

(** More configurations and messages. *)
Let W' := mkWorld (cfgs W ++ cs) (groups W) (hist W) sp lv ak (truth W).

Context (Hnew : ∀ k c, cfgAt W' k = Some c → Num c = k ∧ zlen (Shards c) = NShards).

Lemma cfgAt_extend k c : cfgAt W k = Some c → cfgAt W' k = Some c.
Proof. unfold cfgAt. cbn. case_match; [|done]. intros Hk. by apply lookup_app_l_Some. Qed.

Lemma own_extend k m c s : cfgAt W m = Some c → k <= m → own W' k s = own W k s.
Proof.
  intros Hm Hk. unfold own. destruct (Z.le_gt_cases 0 k) as [H0|H0].
  - destruct (cfgAt_below W k m c Hm) as [d Hd]; [lia|]. by rewrite Hd, (cfgAt_extend k d Hd).
  - unfold cfgAt. by rewrite (proj2 (Z.leb_gt 0 k) H0).
Qed.

Lemma passed_extend s m n c : cfgAt W n = Some c → m <= n → passed W s m → passed W' s m.
Proof.
  intros Hn Hm Hp k Hk. rewrite !(own_extend _ n c s Hn) by lia. exact (Hp k Hk).
Qed.

Lemma status_extend g G : statusOk W g G → statusOk W' g G.
Proof.
  intros [[H0 Hc] Hp Hs Ho]. constructor.
  - split; [done|]. by apply cfgAt_extend.
  - intros H1. by apply cfgAt_extend, Hp.
  - intros s img Hi. rewrite !(own_extend _ (N G) _ s Hc) by lia. by apply Hs.
  - intros s. rewrite (own_extend _ (N G) _ s Hc) by lia. apply Ho.
Qed.

Lemma core_extend : core W'.
Proof.
  constructor.
  - done.
  - intros g G Hin. destruct (c_hist _ Wok g G Hin) as [St Hc]. split; [by apply status_extend|done].
  - apply (c_curr _ Wok).
  - apply (c_working _ Wok).
  - intros g G s img Hin Hs. destruct (c_hist _ Wok g G Hin) as [St _]. destruct (st_curr _ _ _ St) as [_ Hc].
    destruct (c_passed _ Wok g G s img Hin Hs) as [P1 P2].
    split; intros Hx; (eapply passed_extend; [exact Hc|lia|auto]).
  - intros p Gp s img Hin Hs HL Hnp. destruct (c_hist _ Wok p Gp Hin) as [St _].
    destruct (st_curr _ _ _ St) as [_ Hc]. apply (c_leaving _ Wok p Gp s img Hin Hs HL).
    intros h Ho. apply (Hnp h). by rewrite (own_extend _ (N Gp) _ s Hc) by lia.
  - apply (c_serving _ Wok).
  - intros s Hf. apply (c_first _ Wok). intros g G Ho. apply Hf. unfold own in *.
    apply bind_Some in Ho as (c & Hc & Ho). by rewrite (cfgAt_extend 1 c Hc).
Qed.

Lemma soup_extend x : soupOk W x → soupOk W' x.
Proof.
  assert (∀ v s y, own W v s = Some y → own W' v s = Some y) as Hown.
  { unfold own. intros v s y (c & Hc & Ho)%bind_Some. by rewrite (cfgAt_extend v c Hc). }
  destruct x as [g op]. destruct op; cbn; try done.
  - intros (Go & Hin & Haw & Hc). exists Go. split; [done|]. split; [done|]. by apply cfgAt_extend.
  - intros (Hr & p & Gp & img & Ho & Hp & Hx). split; [done|]. exists p, Gp, img. auto.
  - intros [Hr Ho]. auto.
Qed.
End extend.

Lemma soup_commit W gs l sp lv ak tr x :
  soupOk W x → soupOk (mkWorld (cfgs W) gs (l :: hist W) sp lv ak tr) x.
Proof.
  destruct x as [g op]. destruct op; cbn; try done.
  - intros (Go & Hin & Hx). exists Go. split; [by right|done].
  - intros (Hr & p & Gp & img & Ho & Hp & Hne & Hin & Hx). split; [done|]. exists p, Gp, img.
    split; [done|]. split; [done|]. split; [done|]. split; [by right|done].
Qed.

Definition inv (W : World) : Prop := core W ∧ ∀ x, x ∈ soup W → soupOk W x.

Lemma inv_addSoup W x : inv W → soupOk W x → inv (addSoup x W).
Proof.
  intros [Hc Hs] Hx. pose proof (core_extend W Hc [] (x :: soup W) (leaves W) (acks W)) as H.
  pose proof (soup_extend W [] (x :: soup W) (leaves W) (acks W)) as H'. rewrite app_nil_r in H, H'.
  split; [apply H, (c_cfgs _ Hc)|]. intros y [->|Hy]%elem_of_cons; apply H'; auto.
Qed.

Lemma cfgOwner_own W g G k s :
  cfgAt W k = Some (g_prev G) → cfgOwner (g_prev G) s = Some g → own W k s = Some g.
Proof. intros Hk Ho. unfold own. by rewrite Hk. Qed.

Lemma inv_init gids : inv (initWorld gids).
Proof.
  split; [|intros x []%not_elem_of_nil]. unfold initWorld.
  assert (∀ g G, (g, G) ∈ (λ g, (g, freshGroup)) <$> elements gids → g ∈ gids ∧ G = freshGroup) as Hh.
  { intros g G (x & [= -> ->] & Hx)%list_elem_of_fmap. by rewrite elem_of_elements in Hx. }
  assert (∀ g G, gset_to_gmap freshGroup gids !! g = Some G → g ∈ gids ∧ G = freshGroup) as Hg.
  { intros g G. rewrite lookup_gset_to_gmap_Some. by intros [? <-]. }
  constructor; cbn [cfgs groups hist soup leaves acks truth].
  - intros k c. unfold cfgAt. cbn [cfgs]. case_match eqn:E; [|done]. intros [Ek <-]%list_lookup_singleton_Some.
    split; [cbn; lia|done].
  - intros g G [Hin ->]%Hh. split.
    + constructor; cbn; try done; lia.
    + exists freshGroup. rewrite lookup_gset_to_gmap_Some. by split.
  - intros g G [Hin ->]%Hg. apply list_elem_of_fmap. exists g. split; [done|]. by apply elem_of_elements.
  - intros g Go G _ [_ ->]%Hg _ _ s img Hs. cbn in Hs. by rewrite lookup_empty in Hs.
  - intros g G s img [_ ->]%Hh Hs. cbn in Hs. by rewrite lookup_empty in Hs.
  - intros g G s img [_ ->]%Hh Hs. cbn in Hs. by rewrite lookup_empty in Hs.
  - intros g G s img [_ ->]%Hg Hs. cbn in Hs. by rewrite lookup_empty in Hs.
  - done.
Qed.

Lemma inv_step W l W' : inv W → benignLabel l W → wstep W l W' → inv W'.
Proof.
  intros HI Hb Hstep. pose proof HI as [Hc Hs]. destruct Hstep as
    [W c Hnum Hlen|W g op Hcl|W g G c Hin Haw Hcfg|W g G p Gp s img imgp Hin Hi HP Ho Hinp HN Hip
    |W g G p s img Hin Hi HW Ho|W p Gp s Hl Hin|W g G p s img Hin Hi HW Ho Hlv Hack|W g op G G' r Hin HG Happ].
  - split; [apply core_extend; [done|]|intros x Hx; apply soup_extend; by apply Hs].
    intros k d. unfold cfgAt. cbn. destruct (Z.leb_spec 0 k); [|done].
    intros [Hd|[Hle Hd]]%lookup_app_Some.
    + apply (c_cfgs _ Hc). unfold cfgAt. by rewrite (proj2 (Z.leb_le 0 k)).
    + apply list_lookup_singleton_Some in Hd as [Hk <-]. unfold zlen in *. split; [lia|done].
  - apply inv_addSoup; [done|]. by destruct op.
  - apply inv_addSoup; [done|]. destruct (c_hist _ Hc g G Hin) as [St _]. destruct (st_curr _ _ _ St) as [H0 _].
    exists G. split; [done|]. split; [done|]. unfold cfgAt. by rewrite (proj2 (Z.leb_le 0 (N G + 1))) by lia.
  - apply inv_addSoup; [done|]. destruct (c_hist _ Hc g G Hin) as [St _].
    destruct (st_shard _ _ _ St s img Hi) as (Hr & H1 & [(? & _)|[_ Hown]] & HPP); [congruence|].
    destruct (HPP HP) as [_ Hne]. pose proof (cfgOwner_own W p G _ s (st_prev _ _ _ St H1) Ho) as Hp.
    split; [done|]. exists p, Gp, imgp. split; [done|]. split; [done|]. split; [intros ->; by apply Hne|done].
  - pose proof (core_extend W Hc [] (soup W) ((p, s) :: leaves W) (acks W)) as H.
    pose proof (soup_extend W [] (soup W) ((p, s) :: leaves W) (acks W)) as H'. rewrite app_nil_r in H, H'.
    split; [apply H, (c_cfgs _ Hc)|]. intros y Hy. apply H'. by apply Hs.
  - by apply inv_addSoup.
  - apply inv_addSoup; [done|]. destruct (c_hist _ Hc g G Hin) as [St _].
    destruct (st_shard _ _ _ St s img Hi) as (Hr & H1 & [(? & _)|[_ Hown]] & _); [congruence|done].
  - split; [|intros x Hx; apply soup_commit; by apply Hs].
    destruct (core_commit W Hc g G HG (soup W) (leaves W)
      (if String.eqb (wr_err r) OK then g :: acks W else acks W) op (Hs _ Hin) (Hb G HG)) as (X & r' & E & H). rewrite Happ in E. by injection E as <- <-.
Qed.

Lemma wreach_inv W : wreach W → inv W.
Proof. induction 1 as [gids|W l W' _ IH Hb Hstep]; [apply inv_init|by eapply inv_step]. Qed.

(** C13. At any time at most one replica group serves a shard, as long as no LEAVE_SHARD
    takes effect on a shard that its group still needs ([benignLabel]). *)
Theorem shard_single_owner W g h G H s :
  wreach W → groups W !! g = Some G → groups W !! h = Some H → serves G s → serves H s → g = h.
Proof. intros [Hc _]%wreach_inv. by apply core_unique. Qed.

(** C14. Whoever serves a shard holds exactly the result of the writes that groups have
    executed on it so far, in the order they were executed in: moving a shard loses none
    of them and adds none.  Conditions: a LEAVE_SHARD of the present configuration removes
    only a shard that is LEAVING, which the code does not check
    ([stale_leave_deletes_shard] loses data otherwise); a group is one state machine, by
    value, so that a log entry whose map a shard has taken over is not executed again
    (finding server.go:376).  A request that a client retries after the shard has moved is
    executed again by the new owner, since the table of requests does not move with a
    shard ([retry_after_move_duplicates]); the statement counts it as another write. *)
Theorem shard_data_preserved W g G s img :
  wreach W → groups W !! g = Some G → g_shards G !! s = Some img → isServing img →
  img.1 = Some (truthAt W s).
Proof. intros [Hc _]%wreach_inv. apply (c_serving _ Hc). Qed.

(** A Get that a group executes is answered with the value the reference has,
    or refused because the group does not serve the key. *)
Theorem shard_get_correct W g G key client request :
  wreach W → groups W !! g = Some G →
  ∃ G' resp, vApply g (GET key client request) G = Ret (G', resp) ∧
    (serves G (key2shard key) ∧
       resp = match truthAt W (key2shard key) !! key with
              | Some value => mkWaitChResponse OK value
              | None => mkWaitChResponse ErrNoKey ""
              end ∨
     ¬ serves G (key2shard key) ∧ resp = mkWaitChResponse ErrWrongGroup "").
Proof.
  intros [Hc _]%wreach_inv HG. cbn [vApply]. unfold vClient. destruct (vServing G key) as [img|] eqn:Es.
  - apply vServing_Some in Es as [Hi Si]. destruct (checkRequest (g_requests G) client request) as [lar []];
      (eexists _, _; split; [done|left]); (split; [by exists img|]);
      unfold vRead; rewrite (c_serving _ Hc g G _ img HG Hi Si); cbn;
      by destruct (truthAt W (key2shard key) !! key).
  - eexists _, _. split; [done|right]. split; [|done]. intros (img & Hi & Si).
    unfold vServing in Es. rewrite Hi in Es. cbn in Es. by rewrite decide_True in Es.
Qed.

(** C29. No command the transfer protocol proposes makes a replica panic when it is
    committed, however late and however often, on the condition that throughout the run,
    and for this command, a LEAVE_SHARD of the present configuration removes only a shard
    that is LEAVING, which the code does not check (a delayed LEAVE_SHARD that deletes a
    shard still to be pulled makes the later PULL_SHARD panic). *)
Theorem shard_commit_total W g G op :
  wreach W → (g, op) ∈ soup W → groups W !! g = Some G → benignCommit op G →
  ∃ G' r, vApply g op G = Ret (G', r).
Proof.
  intros [Hc Hs]%wreach_inv Hin HG Hb.
  destruct (core_commit W Hc g G HG [] [] [] op (Hs _ Hin) Hb) as (G' & r & E & _). by exists G', r.
Qed.
