(* ===== verification/ShardKvExamples.v ===== *)
(** * ShardKvExamples: the shard servers at concrete inputs

    Runs of the world of ShardWorld are built by an interpreter of schedules
    ([exec], sound by [exec_benign]).  The last examples are runs
    on which the protocol goes wrong. *)

From S2P Require Import Prelude Labgob Persister RaftState RaftService ShardCtrler ShardConfigs ShardKv ShardGroup ShardClerk ShardWorld.
Local Open Scope Z_scope.

(** ** Schedules *)

(** [i] and [j] count in [hist], [k] in [soup] or [leaves], all from the
    oldest entry. *)
Inductive action :=
  | AConfig (c : Config)
  | AClient (g : Z) (op : ValOp)
  | AFetch (i : nat)
  | APull (i j : nat) (s : Z)
  | ASendLeave (i : nat) (s : Z)
  | ALeave (k j : nat)
  | ADone (i : nat) (s : Z)
  | ACommit (k : nat).

Definition nth_old {A} (l : list A) (i : nat) : option A := reverse l !! i.

Lemma nth_old_elem {A} (l : list A) i x : nth_old l i = Some x → x ∈ l.
Proof. unfold nth_old. intros H%list_elem_of_lookup_2. by rewrite elem_of_reverse in H. Qed.

#[local] Instance isClient_dec op : Decision (isClient op).
Proof. destruct op; apply _. Defined.
#[local] Instance allWorking_dec G : Decision (allWorking G).
Proof.
  refine (cast_if (decide (map_Forall (λ _ (img : ShardImage), img.2 = WORKING) (g_shards G)))); assumption.
Defined.

Definition actStep (a : action) (W : World) : option (World * option (Z * ValOp)) :=
  match a with
  | AConfig c =>
      if decide (Num c = zlen (cfgs W) ∧ zlen (Shards c) = NShards)
      then Some (mkWorld (cfgs W ++ [c]) (groups W) (hist W) (soup W) (leaves W) (acks W) (truth W), None)
      else None
  | AClient g op => if decide (isClient op) then Some (addSoup (g, op) W, None) else None
  | AFetch i =>
      x ← nth_old (hist W) i; c ← cfgs W !! Z.to_nat (N x.2 + 1);
      if decide (allWorking x.2) then Some (addSoup (x.1, UPDATE_CONFIG c) W, None) else None
  | APull i j s =>
      x ← nth_old (hist W) i; y ← nth_old (hist W) j; img ← g_shards x.2 !! s; imgp ← g_shards y.2 !! s;
      if decide (img.2 = PULLING ∧ cfgOwner (g_prev x.2) s = Some y.1 ∧ N y.2 = N x.2)
      then Some (addSoup (x.1, PULL_SHARD s (N x.2) (Some (default ∅ imgp.1))) W, None) else None
  | ASendLeave i s =>
      x ← nth_old (hist W) i; img ← g_shards x.2 !! s; p ← cfgOwner (g_prev x.2) s;
      if decide (img.2 = WAITING)
      then Some (mkWorld (cfgs W) (groups W) (hist W) (soup W) ((p, s) :: leaves W) (acks W) (truth W), None)
      else None
  | ALeave k j =>
      x ← nth_old (leaves W) k; y ← nth_old (hist W) j;
      if decide (x.1 = y.1) then Some (addSoup (x.1, LEAVE_SHARD x.2 (N y.2)) W, None) else None
  | ADone i s =>
      x ← nth_old (hist W) i; img ← g_shards x.2 !! s; p ← cfgOwner (g_prev x.2) s;
      if decide (img.2 = WAITING ∧ (p, s) ∈ leaves W ∧ p ∈ acks W)
      then Some (addSoup (x.1, TRANSFER_DONE s (N x.2)) W, None) else None
  | ACommit k =>
      x ← nth_old (soup W) k; G ← groups W !! x.1;
      match vApply x.1 x.2 G with
      | Ret (G', r) =>
          Some (mkWorld (cfgs W) (<[x.1 := G']> (groups W)) ((x.1, G') :: hist W) (soup W) (leaves W)
            (if String.eqb (wr_err r) OK then x.1 :: acks W else acks W) (truthStep x.2 G (truth W)), Some x)
      | _ => None
      end
  end.

Ltac opt := repeat match goal with
  | H : mbind _ _ = Some _ |- _ => apply bind_Some in H as (? & ? & H)
  | H : (if decide ?P then _ else None) = Some _ |- _ => destruct (decide P) as [?|]; [|discriminate H]
  | H : Some _ = Some _ |- _ => injection H as <- <-
  | H : nth_old _ _ = Some _ |- _ => apply nth_old_elem in H
  | H : _ ∧ _ |- _ => destruct H
  | x : Z * _ |- _ => destruct x
  end; cbn [fst snd] in *.

Lemma actStep_sound a W W' l : actStep a W = Some (W', l) → wstep W l W'.
Proof.
  destruct a; cbn [actStep]; intros H; opt; subst.
  - by constructor.
  - by constructor.
  - by eapply w_fetch.
  - by eapply w_pull.
  - by eapply w_sendLeave.
  - by eapply w_leave.
  - by eapply w_done.
  - destruct (vApply _ _ _) as [[G' r]| | |] eqn:E; [|discriminate H..]. opt. by eapply w_commit.
Qed.

#[local] Instance benignCommit_dec op G : Decision (benignCommit op G).
Proof.
  destruct op as [| | | | |s v|]; try (left; exact I). cbn. destruct (decide (v = N G)) as [E|E]; [|by left].
  destruct (g_shards G !! s) as [img|] eqn:Ei.
  - destruct (decide (img.2 = LEAVING)) as [El|El].
    + left. intros _ i [= <-]. exact El.
    + right. intros H. apply El. by apply (H E img).
  - left. intros _ i [=].
Defined.

Definition benignb (l : option (Z * ValOp)) (W : World) : bool :=
  match l with
  | Some (g, op) => match groups W !! g with Some G => bool_decide (benignCommit op G) | None => true end
  | None => true
  end.

Lemma benignb_sound l W : benignb l W = true → benignLabel l W.
Proof.
  destruct l as [[g op]|]; [|done]. cbn. intros H G HG. rewrite HG in H. by apply bool_decide_eq_true in H.
Qed.

Fixpoint exec (l : list action) (W : World) : option World :=
  match l with
  | [] => Some W
  | a :: l =>
      '(W', lab) ← actStep a W;
      if benignb lab W then exec l W' else None
  end.

Lemma exec_benign l W W' : wreach W → exec l W = Some W' → wreach W'.
Proof.
  revert W. induction l as [|a l IH]; intros W HW; cbn [exec]; [by intros [= <-]|].
  intros H. apply bind_Some in H as ([W1 lab] & Ha & H). cbn in H. destruct (benignb lab W) eqn:Eb; [|done].
  eapply IH; [|done]. eapply wr_step; [done|by apply benignb_sound|by apply actStep_sound in Ha].
Qed.

(** ** A shard moves from group 1 to group 2 *)

Definition cfg1 : Config := mkConfig 1 (replicate 10 1) {[ 1 := ["a"%string] ]}.
Definition cfg2 : Config := mkConfig 2 (2 :: replicate 9 1) {[ 1 := ["a"%string]; 2 := ["b"%string] ]}.
Definition cfg3 : Config := mkConfig 3 (replicate 10 1) {[ 1 := ["a"%string]; 2 := ["b"%string] ]}.
Definition W0 : World := initWorld {[ 1; 2 ]}.

(** Both groups start, a client appends 1 to x at group 1; shard 0, the shard
    of x, goes to group 2, where another client appends 2. *)
Definition startUp : list action :=
  [AConfig cfg1; AFetch 0; ACommit 0; AFetch 1; ACommit 1; AClient 1 (APPEND "x" "1" 7 0); ACommit 2].
Definition moveOver : list action := [AConfig cfg2; AFetch 4; ACommit 3; AFetch 3; ACommit 4; APull 6 5 0; ACommit 5].
Definition appendThere : list action := [AClient 2 (APPEND "x" "2" 8 0); ACommit 6].

Definition moved : World := Eval vm_compute in default W0 (exec (startUp ++ moveOver ++ appendThere) W0).

Lemma moved_reach : wreach moved.
Proof.
  apply (exec_benign (startUp ++ moveOver ++ appendThere) W0); [constructor|]. vm_compute. reflexivity.
Qed.

Definition groupOf (W : World) (g : Z) : Group := default freshGroup (groups W !! g).
Definition servedTwelve : ShardImage := (Some {[ "x" := "12" ]}%string, WAITING).

Lemma moved_serves : groups moved !! 2 = Some (groupOf moved 2) ∧
  g_shards (groupOf moved 2) !! 0 = Some servedTwelve.
Proof. split; vm_compute; reflexivity. Qed.

Lemma shard_single_owner_witness : serves (groupOf moved 2) 0 ∧ 2 = 2.
Proof.
  assert (serves (groupOf moved 2) 0) as Hs by (exists servedTwelve; split; [apply moved_serves|by right]).
  split; [exact Hs|].
  apply (shard_single_owner moved 2 2 (groupOf moved 2) (groupOf moved 2) 0 moved_reach);
    [apply moved_serves|apply moved_serves|exact Hs|exact Hs].
Defined.

Lemma shard_data_preserved_witness : Some {[ "x" := "12" ]}%string = Some (truthAt moved 0).
Proof.
  apply (shard_data_preserved moved 2 (groupOf moved 2) 0 servedTwelve moved_reach);
    [apply moved_serves|apply moved_serves|by right].
Defined.

Lemma shard_get_correct_witness :
  ∃ G' resp, vApply 2 (GET "x" 9 0) (groupOf moved 2) = Ret (G', resp) ∧ wr_err resp = OK.
Proof.
  destruct (shard_get_correct moved 2 (groupOf moved 2) "x" 9 0 moved_reach) as (G' & resp & H & Hr);
    [apply moved_serves|]. exists G', resp. split; [exact H|]. destruct Hr as [[_ Hr]|[Hn _]].
  - rewrite Hr. vm_compute. reflexivity.
  - exfalso. apply Hn. exists servedTwelve. split; [apply moved_serves|by right].
Defined.

(** The PULL_SHARD command of the move, committed once more. *)
Lemma shard_commit_total_witness :
  ∃ G' r, vApply 2 (PULL_SHARD 0 2 (Some {[ "x" := "1" ]}%string)) (groupOf moved 2) = Ret (G', r).
Proof.
  apply (shard_commit_total moved 2 (groupOf moved 2) (PULL_SHARD 0 2 (Some {[ "x" := "1" ]}%string)) moved_reach).
  - apply (nth_old_elem _ 5). vm_compute. reflexivity.
  - apply moved_serves.
  - exact I.
Defined.

(** ** A delayed Leave request deletes a shard in use

    Group 2 hands shard 0 back to group 1 in configuration 3.  A copy of the
    Leave request that group 2 sent in configuration 2 then arrives at group
    1, which stamps it with configuration 3 and deletes the shard it is
    serving: the writes to x are gone. *)
Definition handBack : list action :=
  [ASendLeave 7 0; ALeave 0 5; ACommit 7; ADone 8 0; ACommit 8; AConfig cfg3; AFetch 9; ACommit 9; AFetch 10;
   ACommit 10; APull 11 12 0; ACommit 11; ASendLeave 13 0; ALeave 1 12; ACommit 12; ADone 13 0; ACommit 13].
Definition inUse : World :=
  Eval vm_compute in default W0 (exec (startUp ++ moveOver ++ appendThere ++ handBack) W0).
Definition lateLeave : World := Eval vm_compute in addSoup (1, LEAVE_SHARD 0 3) inUse.
Definition lost : World := Eval vm_compute in from_option fst W0 (actStep (ACommit 14) lateLeave).

(** C35. Group 1 serves shard 0 again and holds its data; committing the Leave it
    was sent before the shard came back removes the shard. *)
Example stale_leave_deletes_shard :
  wreach inUse ∧ wstep inUse None lateLeave ∧ wstep lateLeave (Some (1, LEAVE_SHARD 0 3)) lost ∧
  g_shards (groupOf inUse 1) !! 0 = Some (Some {[ "x" := "12" ]}%string, WORKING) ∧
  own lost 3 0 = Some 1 ∧ truthAt lost 0 !! "x"%string = Some "12"%string ∧
  g_shards (groupOf lost 1) !! 0 = None ∧ g_shards (groupOf lost 2) !! 0 = None.
Proof.
  split; [|split; [|split; [|split_and!; vm_compute; reflexivity]]].
  - apply (exec_benign (startUp ++ moveOver ++ appendThere ++ handBack) W0); [constructor|].
    vm_compute. reflexivity.
  - apply (actStep_sound (ALeave 0 15)). vm_compute. reflexivity.
  - apply (actStep_sound (ACommit 14)). vm_compute. reflexivity.
Qed.

(** ** A retried Append is executed twice across a move

    The table of executed requests stays with the old group: client 7 did not
    hear of its append to x at group 1 and sends it again to group 2, the new
    owner. *)
Definition retried : World :=
  Eval vm_compute in default W0 (exec (startUp ++ moveOver ++ [AClient 2 (APPEND "x" "1" 7 0); ACommit 6]) W0).

Example retry_after_move_duplicates :
  wreach retried ∧ (1, APPEND "x" "1" 7 0) ∈ soup retried ∧ (2, APPEND "x" "1" 7 0) ∈ soup retried ∧
  g_shards (groupOf retried 2) !! 0 = Some (Some {[ "x" := "11" ]}%string, WAITING).
Proof.
  split; [|split; [|split]].
  - apply (exec_benign (startUp ++ moveOver ++ [AClient 2 (APPEND "x" "1" 7 0); ACommit 6]) W0); [constructor|].
    vm_compute. reflexivity.
  - apply (nth_old_elem _ 2). vm_compute. reflexivity.
  - apply (nth_old_elem _ 6). vm_compute. reflexivity.
  - vm_compute. reflexivity.
Qed.

(** ** The server's heap, its snapshots and its clerk *)

(** The machine that waits for shard 0, with the answer in a map of its own. *)
Lemma pulling_heapOk : heapOk pulling.
Proof.
  constructor; cbn [heap shards pulling maps nextLoc].
  - intros a [m Hm]. apply lookup_singleton_Some in Hm as [<- _]. lia.
  - intros s sh a [<- <-]%lookup_singleton_Some Ha. discriminate Ha.
  - intros s t sh sh' a [<- _]%lookup_singleton_Some [<- _]%lookup_singleton_Some _ _. reflexivity.
Qed.

Lemma shard_machine_refines_witness :
  ∃ m' r ts, applyOp 2 pullEntry pulling = Ret (m', r, ts) ∧
    vApply 2 (derefOp (heap pulling) pullEntry) (viewOf pulling) = Ret (viewOf m', r) ∧ heapOk m'.
Proof.
  pose proof (shard_machine_refines 2 pullEntry pulling pulling_heapOk) as H.
  destruct (applyOp 2 pullEntry pulling) as [[[m' r] ts]| | |] eqn:E; [|discriminate E..].
  exists m', r, ts. split; [reflexivity|]. apply H. split.
  - exists {[ "x" := "1" ]}%string. reflexivity.
  - intros s sh Hs Ha. cbn [shards pulling] in Hs. apply lookup_singleton_Some in Hs as [<- <-]. discriminate Ha.
Defined.

Definition skv (me : Z) : ShardKV (Raft LogOp SkvGob) :=
  mkShardKV me (initRaft 3 me (mkPersister [] [])) 2 1000 pulling ∅ 5.

Lemma shard_snapshot_roundtrip_witness :
  ∃ kv3, deserialize (serialize (skv 0)) (skv 1) = Ret kv3 ∧ viewOf (machine kv3) = viewOf pulling.
Proof.
  destruct (shard_snapshot_roundtrip (skv 0) (skv 1)) as (kv3 & H & Hv & _).
  - apply (ho_next _ pulling_heapOk).
  - exists kv3. split; [exact H|exact Hv].
Defined.

(** A clerk that starts without a configuration reads x from the second server
    of group 1. *)
Definition cfgAB : Config := mkConfig 1 (replicate 10 1) {[ 1 := ["a"; "b"]%string ]}.
Definition clerkCall (k : nat) (srv : string) (args : GetArgs) : option GetReply :=
  if String.eqb srv "b" then Some (mkGetReply OK "1") else Some (mkGetReply ErrWrongLeader "").
Definition clerkCtrl (n k : nat) (i : Z) (args : QueryArgs) : option QueryReply := Some (mkQueryReply OK cfgAB).

Lemma shard_clerk_returns_witness :
  ∃ v ck', ShardClerk.Get clerkCall clerkCtrl 2 (ShardClerk.MakeClerk 3 11 12) "x" = Ret (Some v, ck') ∧
    ShardClerk.requestId ck' = 1.
Proof.
  destruct (ShardClerk.shard_clerk_returns clerkCall clerkCtrl (ShardClerk.MakeClerk 3 11 12) "x" cfgAB 1
    ["a"; "b"]%string "b" 2) as (v & ck' & H & _ & Hr & _).
  - split; [split; done|reflexivity].
  - lia.
  - intros n sm [H1 H2]. unfold Query, rounds, oneRound. apply Z.leb_le in H1. apply Z.ltb_lt in H2.
    rewrite H1, H2. cbn. eexists. split; [reflexivity|]. split; cbn; [by apply Z.leb_le|by apply Z.ltb_lt].
  - reflexivity.
  - reflexivity.
  - right. left.
  - intros n. eexists _, _. split; reflexivity.
  - intros n s reply _. unfold clerkCall. destruct (String.eqb s "b"); intros [= <-]; discriminate.
  - exists v, ck'. split; [exact H|exact Hr].
Defined.
