(* ===== verification/Labrpc.v ===== *)
(** * Labrpc: the simulated network of [src/src/labrpc/labrpc.go]

    [Network] holds which ends are enabled, which server each is connected to
    and which servers exist; a server is known by its address, since the code
    compares pointers.  Handlers change the state [A] of the program that is
    tested; [P] is encoded arguments and replies and [size] their length, so that
    a method is a function that decodes, runs and encodes.

    A call is a state machine ([callStep]) with three threads: the caller in
    [ClientEnd.Call], [processReq], and the goroutine that runs the handler, which
    goes on when [processReq] has given up.  Random choices and delays are
    choices of the step relation; [lab_step] interleaves any number of calls with
    changes of the network.

    [labrpc_at_most_once]: a handler runs at most once for a call, and a call that
    returns true returns the reply of that run.  [labrpc_alive]: an answer is
    let through only when the server is not deleted.  [labrpc_reliable]: on a
    reliable network that does not change, a call does not fail and can always
    go on. *)

From S2P Require Import Prelude.
Local Open Scope Z_scope.

Section labrpc.
Context {E N A P : Type} `{Countable E} `{Countable N} (size : P → Z).

Record reqMsg := mkReqMsg { rq_endname : E; rq_svcMeth : string; rq_args : P }.
Record replyMsg := mkReplyMsg { rp_ok : bool; rp_reply : option P }.

Record Network := mkNetwork {
  reliable : bool;
  longDelays : bool;
  longReordering : bool;
  ends : gset E;
  enabled : gmap E bool;
  servers : gmap N (option nat);
  connections : gmap E (option N);
  done : bool;
  count : Z;
  bytes : Z;
}.

Definition MakeNetwork : Network := mkNetwork true false false ∅ ∅ ∅ ∅ false 0 0.

Implicit Types (rn : Network) (endname : E) (servername : N).

Definition Cleanup rn : Network :=
  mkNetwork (reliable rn) (longDelays rn) (longReordering rn) (ends rn) (enabled rn) (servers rn) (connections rn)
    true (count rn) (bytes rn).

(** The statistics. *)
Definition addCount rn (args : P) : Network :=
  mkNetwork (reliable rn) (longDelays rn) (longReordering rn) (ends rn) (enabled rn) (servers rn) (connections rn)
    (done rn) (count rn + 1) (bytes rn + size args).
Definition addBytes rn (reply : P) : Network :=
  mkNetwork (reliable rn) (longDelays rn) (longReordering rn) (ends rn) (enabled rn) (servers rn) (connections rn)
    (done rn) (count rn) (bytes rn + size reply).

Definition Reliable rn (yes : bool) : Network :=
  mkNetwork yes (longDelays rn) (longReordering rn) (ends rn) (enabled rn) (servers rn) (connections rn) (done rn) (count rn) (bytes rn).

Definition LongReordering rn (yes : bool) : Network :=
  mkNetwork (reliable rn) (longDelays rn) yes (ends rn) (enabled rn) (servers rn) (connections rn) (done rn) (count rn) (bytes rn).

Definition LongDelays rn (yes : bool) : Network :=
  mkNetwork (reliable rn) yes (longReordering rn) (ends rn) (enabled rn) (servers rn) (connections rn) (done rn) (count rn) (bytes rn).

Definition MakeEnd rn endname : outcome Network :=
  if decide (endname ∈ ends rn) then Fatal else
  Ret (mkNetwork (reliable rn) (longDelays rn) (longReordering rn) ({[ endname ]} ∪ ends rn)
         (<[endname := false]> (enabled rn)) (servers rn) (<[endname := None]> (connections rn))
         (done rn) (count rn) (bytes rn)).

Definition AddServer rn servername (rs : nat) : Network :=
  mkNetwork (reliable rn) (longDelays rn) (longReordering rn) (ends rn) (enabled rn)
    (<[servername := Some rs]> (servers rn)) (connections rn) (done rn) (count rn) (bytes rn).

Definition DeleteServer rn servername : Network :=
  mkNetwork (reliable rn) (longDelays rn) (longReordering rn) (ends rn) (enabled rn)
    (<[servername := None]> (servers rn)) (connections rn) (done rn) (count rn) (bytes rn).

Definition Connect rn endname servername : Network :=
  mkNetwork (reliable rn) (longDelays rn) (longReordering rn) (ends rn) (enabled rn) (servers rn)
    (<[endname := Some servername]> (connections rn)) (done rn) (count rn) (bytes rn).

Definition Enable rn endname (yes : bool) : Network :=
  mkNetwork (reliable rn) (longDelays rn) (longReordering rn) (ends rn)
    (<[endname := yes]> (enabled rn)) (servers rn) (connections rn) (done rn) (count rn) (bytes rn).

(** [rn.servers[servername]]; a missing key is [nil]. *)
Definition serverAt rn servername : option nat := default None (servers rn !! servername).

Definition readEndnameInfo rn endname : bool * option N * option nat * bool * bool :=
  let servername := default None (connections rn !! endname) in
  (default false (enabled rn !! endname), servername,
   match servername with Some s => serverAt rn s | None => None end,
   reliable rn, longReordering rn).

Definition isServerDead rn endname servername (server : nat) : bool :=
  negb (default false (enabled rn !! endname)) || bool_decide (serverAt rn servername ≠ Some server).

(** ** Servers *)

Record Service := mkService { svc_name : string; methods : gmap string (A → P → A * P) }.
Record Server := mkServer { services : gmap string Service; sv_count : Z }.

Definition MakeServer : Server := mkServer ∅ 0.

Definition AddService (rs : Server) (svc : Service) : Server :=
  mkServer (<[svc_name svc := svc]> (services rs)) (sv_count rs).

Definition GetCount (rs : Server) : Z := sv_count rs.

(** [rn.GetCount(servername)] with the servers by address; [GetCount] of a nil server
    panics. *)
Definition netGetCount rn (hp : list Server) servername : outcome Z :=
  match serverAt rn servername ≫= λ a, hp !! a with
  | Some rs => Ret (GetCount rs)
  | None => Panic
  end.
Definition GetTotalCount rn : Z := count rn.
Definition GetTotalBytes rn : Z := bytes rn.

(** A method of the receiver, as reflection shows it: whether its name is exported
    ([PkgPath] is empty), the number of its inputs (with the receiver) and outputs, and
    whether the last input is a pointer. *)
Record Method := mkMethod {
  m_name : string; m_exported : bool; m_numIn : Z; m_numOut : Z; m_pointer : bool; m_func : A → P → A * P }.

(** Not a handler. *)
Definition unsuitable (m : Method) : bool :=
  negb (m_exported m) || negb (m_numIn m =? 3) || negb (m_pointer m) || negb (m_numOut m =? 0).

Definition MakeService (name : string) (ms : list Method) : Service :=
  mkService name (foldl (λ acc m, if unsuitable m then acc else <[m_name m := m_func m]> acc) ∅ ms).

(** [svcMeth] before and after its last dot; [None] when there is no dot. *)
Fixpoint splitLastDot (s : string) : option (string * string) :=
  match s with
  | EmptyString => None
  | String c s' =>
      match splitLastDot s' with
      | Some (a, b) => Some (String c a, b)
      | None => if decide (c = Ascii.ascii_of_nat 46) then Some (""%string, s') else None
      end
  end.

(** [Service.dispatch]: the state after the handler, and its reply. *)
Definition serviceDispatch (svc : Service) (methname : string) (req : reqMsg) (a : A) : outcome (A * replyMsg) :=
  match methods svc !! methname with
  | Some method => let '(a, reply) := method a (rq_args req) in Ret (a, mkReplyMsg true (Some reply))
  | None => Fatal
  end.

Definition serverDispatch (rs : Server) (req : reqMsg) (a : A) : outcome (Server * A * replyMsg) :=
  let rs := mkServer (services rs) (sv_count rs + 1) in
  match splitLastDot (rq_svcMeth req) with
  | None => Panic
  | Some (serviceName, methodName) =>
      match services rs !! serviceName with
      | Some service => '(a, r) ← serviceDispatch service methodName req a; Ret (rs, a, r)
      | None => Fatal
      end
  end.

(** ** A call *)

(** What [processReq] read when it started. *)
Record EndInfo := mkEndInfo { ei_servername : N; ei_server : nat; ei_reliable : bool; ei_longReordering : bool }.

(** Where [Call] and [processReq] are. *)
Inductive Phase :=
  | Sending
  | Received
  | Started (info : EndInfo)
  | Waiting (info : EndInfo)
  | Closing (info : EndInfo) (reply : option replyMsg)
  | Answered (answer : replyMsg)
  | Returned (reply : option P).

(** Where the goroutine with the handler is. *)
Inductive Handler :=
  | NoHandler
  | Running (server : nat)
  | Finished (reply : replyMsg)
  | Drained (reply : replyMsg).

(** [ran]: the replies of the runs of the handler so far. *)
Record CallState := mkCallState { cs_req : reqMsg; phase : Phase; handler : Handler; ran : list P }.

Definition failed : replyMsg := mkReplyMsg false None.

(** The steps of a call; network, servers and program state are shared. *)
Inductive callStep : Network * list Server * A * CallState → Network * list Server * A * CallState → Prop :=
  | call_destroyed rn hp a q h r :
      done rn = true →
      callStep (rn, hp, a, mkCallState q Sending h r) (rn, hp, a, mkCallState q (Returned None) h r)
  | call_received rn hp a q h r :
      callStep (rn, hp, a, mkCallState q Sending h r) (addCount rn (rq_args q), hp, a, mkCallState q Received h r)
  | call_started rn hp a q h r sn s rel lr :
      readEndnameInfo rn (rq_endname q) = (true, Some sn, Some s, rel, lr) →
      callStep (rn, hp, a, mkCallState q Received h r)
        (rn, hp, a, mkCallState q (Started (mkEndInfo sn s rel lr)) h r)
  | call_unreachable rn hp a q h r en sn s rel lr :
      readEndnameInfo rn (rq_endname q) = (en, sn, s, rel, lr) → en = false ∨ sn = None ∨ s = None →
      callStep (rn, hp, a, mkCallState q Received h r) (rn, hp, a, mkCallState q (Answered failed) h r)
  | call_drop rn hp a q h r info :
      ei_reliable info = false →
      callStep (rn, hp, a, mkCallState q (Started info) h r) (rn, hp, a, mkCallState q (Answered failed) h r)
  | call_spawn rn hp a q h r info :
      callStep (rn, hp, a, mkCallState q (Started info) h r)
        (rn, hp, a, mkCallState q (Waiting info) (Running (ei_server info)) r)
  | call_handle rn hp a q ph r s rs rs' a' reply :
      hp !! s = Some rs → serverDispatch rs q a = Ret (rs', a', mkReplyMsg true (Some reply)) →
      callStep (rn, hp, a, mkCallState q ph (Running s) r)
        (rn, <[s := rs']> hp, a', mkCallState q ph (Finished (mkReplyMsg true (Some reply))) (reply :: r))
  | call_reply rn hp a q r info reply :
      callStep (rn, hp, a, mkCallState q (Waiting info) (Finished reply) r)
        (rn, hp, a, mkCallState q (Closing info (Some reply)) (Drained reply) r)
  | call_tick rn hp a q h r info :
      isServerDead rn (rq_endname q) (ei_servername info) (ei_server info) = true →
      callStep (rn, hp, a, mkCallState q (Waiting info) h r) (rn, hp, a, mkCallState q (Closing info None) h r)
  | call_drain rn hp a q ph r reply :
      (∀ info, ph ≠ Waiting info) →
      callStep (rn, hp, a, mkCallState q ph (Finished reply) r) (rn, hp, a, mkCallState q ph (Drained reply) r)
  | call_dead rn hp a q h r info reply :
      reply = None ∨ isServerDead rn (rq_endname q) (ei_servername info) (ei_server info) = true →
      callStep (rn, hp, a, mkCallState q (Closing info reply) h r) (rn, hp, a, mkCallState q (Answered failed) h r)
  | call_dropReply rn hp a q h r info reply :
      isServerDead rn (rq_endname q) (ei_servername info) (ei_server info) = false → ei_reliable info = false →
      callStep (rn, hp, a, mkCallState q (Closing info (Some reply)) h r) (rn, hp, a, mkCallState q (Answered failed) h r)
  | call_answer rn hp a q h r info reply p :
      isServerDead rn (rq_endname q) (ei_servername info) (ei_server info) = false → rp_reply reply = Some p →
      callStep (rn, hp, a, mkCallState q (Closing info (Some reply)) h r)
        (addBytes rn p, hp, a, mkCallState q (Answered reply) h r)
  | call_return rn hp a q h r answer :
      callStep (rn, hp, a, mkCallState q (Answered answer) h r)
        (rn, hp, a, mkCallState q (Returned (if rp_ok answer then rp_reply answer else None)) h r).

(** What the test program does to the network. *)
Inductive netStep : Network → Network → Prop :=
  | net_reliable rn yes : netStep rn (Reliable rn yes)
  | net_reordering rn yes : netStep rn (LongReordering rn yes)
  | net_delays rn yes : netStep rn (LongDelays rn yes)
  | net_end rn e rn' : MakeEnd rn e = Ret rn' → netStep rn rn'
  | net_add rn s rs : netStep rn (AddServer rn s rs)
  | net_delete rn s : netStep rn (DeleteServer rn s)
  | net_connect rn e s : netStep rn (Connect rn e s)
  | net_enable rn e yes : netStep rn (Enable rn e yes)
  | net_cleanup rn : netStep rn (Cleanup rn).

Record Lab := mkLab { net : Network; heap : list Server; app : A; calls : gmap nat CallState }.

Inductive lab_step : Lab → Lab → Prop :=
  | lab_net rn rn' hp a cs : netStep rn rn' → lab_step (mkLab rn hp a cs) (mkLab rn' hp a cs)
  (** the tested program does something of its own, a server gets a service *)
  | lab_app rn hp hp' a a' cs : lab_step (mkLab rn hp a cs) (mkLab rn hp' a' cs)
  | lab_new rn hp a cs i q :
      cs !! i = None → lab_step (mkLab rn hp a cs) (mkLab rn hp a (<[i := mkCallState q Sending NoHandler []]> cs))
  | lab_call rn hp a cs i c rn' hp' a' c' :
      cs !! i = Some c → callStep (rn, hp, a, c) (rn', hp', a', c') →
      lab_step (mkLab rn hp a cs) (mkLab rn' hp' a' (<[i := c']> cs)).

Inductive lab_reach : Lab → Prop :=
  | lab_init hp a : lab_reach (mkLab MakeNetwork hp a ∅)
  | lab_next w w' : lab_reach w → lab_step w w' → lab_reach w'.

(** ** At most once *)

(** How often the handler ran, by where its goroutine is. *)
Definition handlerOk (c : CallState) : Prop :=
  match handler c with
  | NoHandler | Running _ => ran c = []
  | Finished reply | Drained reply => ∃ p, reply = mkReplyMsg true (Some p) ∧ ran c = [p]
  end.

(** An answer other than the failure is the reply of the run. *)
Definition phaseOk (c : CallState) : Prop :=
  match phase c with
  | Sending | Received | Started _ => handler c = NoHandler
  | Waiting _ => True
  | Closing _ reply => from_option (λ r, handler c = Drained r) True reply
  | Answered answer => answer = failed ∨ handler c = Drained answer
  | Returned reply => from_option (λ p, ran c = [p]) True reply
  end.

Definition callOk (c : CallState) : Prop := handlerOk c ∧ phaseOk c.

Lemma callStep_ok rn hp a c rn' hp' a' c' :
  callStep (rn, hp, a, c) (rn', hp', a', c') → callOk c → callOk c'.
Proof.
  intros Hs [Hh Hp]. inversion Hs; subst; unfold callOk, handlerOk, phaseOk in *; cbn in *; try by auto.
  - (* spawn *) by rewrite Hp in Hh.
  - (* handle *) rewrite Hh. split; [by eexists|].
    destruct ph as [| | | |? [reply'|]| |[p|]]; cbn in *; first [done|congruence|by destruct Hp; [left|]].
  - (* drain *) split; [done|].
    destruct ph as [| | |info|? [reply'|]|answer|]; cbn in *; first [done|by destruct Hp; [left|]].
  - (* return *) split; [done|]. destruct Hp as [->| ->]; [done|]. by destruct Hh as (p & -> & ->).
Qed.

Lemma reach_ok w : lab_reach w → ∀ i c, calls w !! i = Some c → callOk c.
Proof.
  induction 1 as [|w w' _ IH Hs]; [intros i c; cbn; by rewrite lookup_empty|].
  inversion Hs; subst; cbn in *; try done; intros j cj [[<- <-]|[_ Hj]]%lookup_insert_Some; try by eapply IH.
  - by split.
  - eapply callStep_ok; [done|]. by eapply IH.
Qed.

(** C38. A handler runs at most once for a call, and a call that returns true
    returns the reply of the one run; whatever is lost, delayed, deleted or
    given up. *)
Theorem labrpc_at_most_once w i c :
  lab_reach w → calls w !! i = Some c →
  (length (ran c) <= 1)%nat ∧ ∀ p, phase c = Returned (Some p) → ran c = [p].
Proof.
  intros Hw Hc. destruct (reach_ok w Hw i c Hc) as [Hh Hp]. split.
  - unfold handlerOk in Hh. destruct (handler c); [by rewrite Hh; cbn; lia..| |]; destruct Hh as (p & _ & ->); cbn; lia.
  - intros p Eq. unfold phaseOk in Hp. by rewrite Eq in Hp.
Qed.

(** ** Deleted servers *)

(** An answer is on its way to the caller. *)
Definition answersOk (c : CallState) : Prop := ∃ answer, phase c = Answered answer ∧ rp_ok answer = true.

(** The server that runs a call's handler. *)
Definition servedBy (c : CallState) : option (N * nat) :=
  match phase c with
  | Started info | Waiting info | Closing info _ => Some (ei_servername info, ei_server info)
  | _ => None
  end.

(** A reply is let through only at a moment at which the end is enabled and
    the server that ran the handler is still the one registered under its name:
    a server deleted before that can no longer answer. *)
Theorem labrpc_alive w w' i c c' :
  lab_reach w → lab_step w w' → calls w !! i = Some c → calls w' !! i = Some c' →
  ¬ answersOk c → answersOk c' →
  ∃ sn s, servedBy c = Some (sn, s) ∧ serverAt (net w) sn = Some s ∧
    enabled (net w) !! rq_endname (cs_req c) = Some true.
Proof.
  intros Hr Hs Hc Hc' Hno (answer & Hph & Hok).
  assert (∀ rn e sn s, isServerDead rn e sn s = false → serverAt rn sn = Some s ∧ enabled rn !! e = Some true) as Halive.
  { intros rn e sn s [He Hsn]%orb_false_iff. apply bool_decide_eq_false, dec_stable in Hsn. split; [done|].
    destruct (enabled rn !! e) as [[]|]; done. }
  inversion Hs; subst; cbn in *; try by (simplify_eq; destruct Hno; exists answer).
  - destruct (decide (i0 = i)) as [->|Hne]; [congruence|]. rewrite lookup_insert_ne in Hc' by done. simplify_eq.
    destruct Hno. by exists answer.
  - destruct (decide (i0 = i)) as [->|Hne].
    2: { rewrite lookup_insert_ne in Hc' by done. simplify_eq. destruct Hno. by exists answer. }
    rewrite lookup_insert_eq in Hc'. simplify_eq.
    match goal with H : callStep _ _ |- _ => inversion H; subst; cbn in * end; simplify_eq; cbn in *; try done.
    + destruct Hno. by exists answer.
    + destruct Hno. by exists answer.
    + match goal with H : isServerDead _ _ _ _ = false |- _ => apply Halive in H as [? ?] end. by eexists _, _.
Qed.

(** ** A reliable network *)

Section good.
Context (q : reqMsg) (sn : N) (s : nat).

(** The end is enabled and connected to a server that exists and knows the
    method, and the network is reliable. *)
Definition good (w : Lab) : Prop :=
  (∃ lr, readEndnameInfo (net w) (rq_endname q) = (true, Some sn, Some s, true, lr)) ∧
  done (net w) = false ∧
  ∃ rs, heap w !! s = Some rs ∧
    ∀ a, ∃ rs' a' p, serverDispatch rs q a = Ret (rs', a', mkReplyMsg true (Some p)).

(** A call that is not failing. *)
Definition unfailing (c : CallState) : Prop :=
  cs_req c = q ∧
  match phase c with
  | Sending | Received => True
  | Started info => ei_servername info = sn ∧ ei_server info = s ∧ ei_reliable info = true
  | Waiting info => ei_servername info = sn ∧ ei_server info = s ∧ ei_reliable info = true ∧
      (handler c = Running s ∨ ∃ reply, handler c = Finished reply)
  | Closing info reply => ei_servername info = sn ∧ ei_server info = s ∧ ei_reliable info = true ∧ is_Some reply
  | Answered answer => rp_ok answer = true
  | Returned reply => is_Some reply
  end.

Lemma good_alive w info :
  good w → ei_servername info = sn → ei_server info = s →
  isServerDead (net w) (rq_endname q) (ei_servername info) (ei_server info) = false.
Proof.
  intros [(lr & Hi) _] -> ->. unfold readEndnameInfo in Hi. unfold isServerDead.
  injection Hi as He Hsn Hs _ _. rewrite Hsn in Hs. rewrite He. cbn. by rewrite Hs, bool_decide_false by auto.
Qed.

Lemma unfailing_step w c rn' hp' a' c' :
  good w → callOk c → unfailing c → callStep (net w, heap w, app w, c) (rn', hp', a', c') →
  unfailing c'.
Proof.
  intros Hg [Hh Hp] [Hq Hu] Hs. pose proof (λ info, good_alive w info Hg) as Hal. destruct Hg as [[lr Hi] [Hd _]].
  destruct c as [q' ph h r]. cbn in Hq. subst q'.
  inversion Hs; subst; unfold unfailing, handlerOk, phaseOk in *; cbn in *; (split; [done|]); try done; try congruence.
  - match goal with H : readEndnameInfo _ _ = _ |- _ => rewrite Hi in H; injection H as <- <- <- _ end. done.
  - match goal with H : readEndnameInfo _ _ = _ |- _ => rewrite Hi in H; injection H as <- <- <- _ _ end. naive_solver.
  - destruct Hu as (_ & _ & Hr). congruence.
  - destruct Hu as (? & -> & ?). eauto.
  - destruct ph; naive_solver.
  - naive_solver.
  - match goal with H : isServerDead _ _ _ _ = true |- _ => rewrite Hal in H by tauto end. done.
  - destruct ph; naive_solver.
  - destruct Hu as (? & ? & ? & [? ->]). match goal with H : _ ∨ _ |- _ => destruct H as [|Hx]; [done|] end.
    by rewrite Hal in Hx.
  - destruct Hu as (_ & _ & Hr & _). congruence.
  - rewrite Hp in Hh. by destruct Hh as (p0 & -> & _).
  - rewrite Hu. destruct Hp as [->|Hp]; [done|]. rewrite Hp in Hh. by destruct Hh as (p & -> & _).
Qed.

(** Such a call can take a step. *)
Lemma unfailing_progress w c :
  good w → callOk c → unfailing c → (∀ reply, phase c ≠ Returned reply) →
  ∃ rn' hp' a' c', callStep (net w, heap w, app w, c) (rn', hp', a', c') ∧ c' ≠ c.
Proof.
  intros Hg [Hh Hp] [Hq Hu] Hret. pose proof (λ info, good_alive w info Hg) as Hal.
  destruct Hg as ([lr Hi] & _ & rs & Hrs & Hknown). destruct c as [q' ph h r].
  unfold handlerOk, phaseOk in *. cbn in *. subst q'. destruct ph as [| |info|info|info reply|answer|reply].
  - eexists _, _, _, _. split; [apply call_received|done].
  - eexists _, _, _, _. split; [by eapply call_started|done].
  - eexists _, _, _, _. split; [apply call_spawn|done].
  - destruct Hu as (_ & _ & _ & [->|[reply ->]]).
    + destruct (Hknown (app w)) as (rs' & a' & p & Hd). eexists _, _, _, _. split; [by eapply call_handle|done].
    + eexists _, _, _, _. split; [apply call_reply|done].
  - destruct Hu as (Hsn & Hs & _ & [reply' ->]). cbn in Hp. rewrite Hp in Hh. destruct Hh as (p & -> & _).
    eexists _, _, _, _. split; [eapply call_answer; [by apply Hal|done]|done].
  - eexists _, _, _, _. split; [apply call_return|done].
  - by destruct (Hret reply).
Qed.

Definition goodStep (w w' : Lab) : Prop := lab_step w w' ∧ good w'.

Lemma goodStep_unfailing w w' i c :
  good w → goodStep w w' → calls w !! i = Some c → callOk c → unfailing c →
  ∃ c', calls w' !! i = Some c' ∧ callOk c' ∧ unfailing c'.
Proof.
  intros Hg [Hs _] Hc Hok Hu. inversion Hs; subst; cbn in *; try by exists c.
  - exists c. rewrite lookup_insert_ne by congruence. done.
  - destruct (decide (i0 = i)) as [->|Hne]; [|exists c; by rewrite lookup_insert_ne].
    simplify_eq. eexists. rewrite lookup_insert_eq. split; [done|]. split; [by eapply callStep_ok|].
    by eapply (unfailing_step (mkLab rn hp a cs)).
Qed.
End good.

(** C39. On a reliable network whose end stays enabled and connected to the same live
    server, which knows the service and method of the call, a call has at any time
    returned the reply of its one run or can take another step; it never fails. *)
Theorem labrpc_reliable q sn s w w' i :
  good q sn s w → calls w !! i = Some (mkCallState q Sending NoHandler []) → rtc (goodStep q sn s) w w' →
  ∃ c, calls w' !! i = Some c ∧
    ((∃ p, phase c = Returned (Some p) ∧ ran c = [p]) ∨
     ∃ w2 c2, lab_step w' w2 ∧ calls w2 !! i = Some c2 ∧ c2 ≠ c).
Proof.
  intros Hg Hc Hr.
  assert (∃ c, calls w' !! i = Some c ∧ callOk c ∧ unfailing q sn s c ∧ good q sn s w') as (c & Hc' & Hok & Hu & Hg').
  { assert (callOk (mkCallState q Sending NoHandler []) ∧ unfailing q sn s (mkCallState q Sending NoHandler []))
      as [Hok Hu] by done. revert Hg Hc Hok Hu. generalize (mkCallState q Sending NoHandler []).
    induction Hr as [w|w w1 w' Hs _ IH]; intros c Hg Hc Hok Hu; [eauto|].
    destruct (goodStep_unfailing q sn s w w1 i c Hg Hs Hc Hok Hu) as (c1 & ? & ? & ?).
    destruct Hs as [_ Hg1]. by eapply IH. }
  exists c. split; [done|]. assert ((∃ reply, phase c = Returned reply) ∨ ∀ reply, phase c ≠ Returned reply) as [[reply Hph]|Hno]
    by (destruct (phase c); first [by left; eexists|by right]).
  - left. destruct Hu as [_ Hu], Hok as [_ Hp]. unfold phaseOk in Hp. rewrite Hph in Hu, Hp.
    destruct Hu as [p ->]. by exists p.
  - right. destruct (unfailing_progress q sn s w' c Hg' Hok Hu) as (rn' & hp' & a' & c2 & Hs & Hne); [done|].
    exists (mkLab rn' hp' a' (<[i := c2]> (calls w'))), c2. split; [|split; [apply lookup_insert_eq|done]].
    destruct w'. by eapply lab_call.
Qed.

(** ** Services and statistics *)

(** A service offers exactly the handlers among the methods. *)
Lemma MakeService_methods name ms mname h :
  NoDup (m_name <$> ms) →
  methods (MakeService name ms) !! mname = Some h ↔
  ∃ m, m ∈ ms ∧ m_name m = mname ∧ m_func m = h ∧ m_exported m = true ∧ m_numIn m = 3 ∧ m_pointer m = true ∧ m_numOut m = 0.
Proof.
  assert (∀ m, unsuitable m = false ↔ m_exported m = true ∧ m_numIn m = 3 ∧ m_pointer m = true ∧ m_numOut m = 0) as Hsuit.
  { intros m. unfold unsuitable. rewrite !orb_false_iff, !negb_false_iff, !Z.eqb_eq. tauto. }
  unfold MakeService. cbn. setoid_rewrite <- Hsuit. clear Hsuit.
  induction ms as [|m ms IH] using rev_ind; intros Hnd.
  { cbn [foldl]. rewrite lookup_empty. split; [done|]. intros (m & Hm & _). by apply not_elem_of_nil in Hm. }
  rewrite fmap_app in Hnd. apply NoDup_app in Hnd as (Hnd & Hm & _). rewrite foldl_app. cbn [foldl]. specialize (IH Hnd).
  destruct (unsuitable m) eqn:Eu.
  - rewrite IH. split; intros (m' & Hm' & Hr); exists m'.
    + split; [apply elem_of_app; by left|done].
    + split; [|done]. apply elem_of_app in Hm' as [?| ->%list_elem_of_singleton]; [done|]. destruct Hr as (_ & _ & Hr). congruence.
  - destruct (decide (m_name m = mname)) as [<-|Hne].
    + rewrite lookup_insert_eq. split.
      * intros [= <-]. exists m. split; [apply elem_of_app; right; by left|done].
      * intros (m' & [Hm'| ->%list_elem_of_singleton]%elem_of_app & En & <- & _); [|done].
        destruct (Hm (m_name m')); [by apply list_elem_of_fmap_2|]. rewrite En. by left.
    + rewrite lookup_insert_ne by done. rewrite IH. split; intros (m' & Hm' & Hr); exists m'.
      * split; [apply elem_of_app; by left|done].
      * split; [|done]. apply elem_of_app in Hm' as [?| ->%list_elem_of_singleton]; [done|]. by destruct Hr.
Qed.

(** The calls that the network has taken. *)
Definition isSending (ph : Phase) : bool := match ph with Sending => true | _ => false end.
Definition taken (w : Lab) : gset nat := dom (filter (λ ic, isSending (phase ic.2) = false) (calls w)).

Lemma taken_call rn hp a cs i c c' rn' hp' a' :
  cs !! i = Some c → callStep (rn, hp, a, c) (rn', hp', a', c') → done rn = false →
  done rn' = false ∧
  count rn' - Z.of_nat (base.size (taken (mkLab rn' hp' a' (<[i := c']> cs)))) = count rn - Z.of_nat (base.size (taken (mkLab rn hp a cs))).
Proof.
  intros Hc Hs Hd.
  assert (∀ j, j ∈ taken (mkLab rn hp a cs) ↔ ∃ c, cs !! j = Some c ∧ isSending (phase c) = false) as Hin.
  { intros j. unfold taken. rewrite elem_of_dom. unfold is_Some. cbn. setoid_rewrite map_lookup_filter_Some. done. }
  assert (∀ j, j ∈ taken (mkLab rn' hp' a' (<[i := c']> cs)) ↔ (j = i ∧ isSending (phase c') = false) ∨ (j ≠ i ∧ j ∈ taken (mkLab rn hp a cs))) as Hin'.
  { intros j. rewrite Hin. unfold taken. rewrite elem_of_dom. unfold is_Some. cbn. setoid_rewrite map_lookup_filter_Some.
    destruct (decide (j = i)) as [->|Hne]; [rewrite lookup_insert_eq|rewrite lookup_insert_ne by done]; naive_solver. }
  assert (isSending (phase c) = isSending (phase c') → taken (mkLab rn' hp' a' (<[i := c']> cs)) = taken (mkLab rn hp a cs)) as Hsame.
  { intros Eq. apply set_eq. intros j. rewrite Hin'. destruct (decide (j = i)) as [->|Hne]; [|naive_solver].
    rewrite Hin. rewrite Hc. naive_solver. }
  inversion Hs; subst; try congruence; cbn in *; try (split; [done|]; rewrite Hsame by done; lia).
  split; [done|]. assert (taken (mkLab (addCount rn (rq_args q)) hp' a' (<[i := mkCallState q Received h r]> cs)) =
    {[ i ]} ∪ taken (mkLab rn hp' a' cs)) as ->.
  { apply set_eq. intros j. rewrite Hin', elem_of_union, elem_of_singleton. cbn. destruct (decide (j = i)); naive_solver. }
  rewrite size_union, size_singleton; [lia|]. intros j ->%elem_of_singleton (c & Eq & Hp)%Hin. by simplify_eq.
Qed.

(** Until the network is cleaned up, [GetTotalCount] is the number of calls that it has
    taken, dropped ones included. *)
Theorem rpc_total_exact w : lab_reach w → done (net w) = false → GetTotalCount (net w) = Z.of_nat (base.size (taken w)).
Proof.
  unfold GetTotalCount. intros Hw. induction Hw as [hp a|w w' _ IH Hs]; intros Hd.
  { unfold taken. cbn. by rewrite map_filter_empty, dom_empty_L, size_empty. }
  inversion Hs as [rn rn' hp a cs Hn|rn hp hp' a a' cs|rn hp a cs i q Hi|rn hp a cs i c rn' hp' a' c' Hc Hst]; subst; cbn in *.
  - assert (done rn = false ∧ count rn' = count rn) as [Hd' ->].
    { destruct Hn as [| | |? ? ? Hm| | | | |]; try done. unfold MakeEnd in Hm. case_decide; [done|]. by injection Hm as <-. }
    exact (IH Hd').
  - exact (IH Hd).
  - rewrite IH by done. do 2 f_equal. apply set_eq. intros j. unfold taken. cbn.
    rewrite !elem_of_dom. unfold is_Some. setoid_rewrite map_lookup_filter_Some.
    destruct (decide (j = i)) as [->|Hne]; [rewrite lookup_insert_eq|rewrite lookup_insert_ne by done]; naive_solver.
  - assert (done rn = false) as Hd0.
    { inversion Hst; subst; cbn in Hd; done. }
    destruct (taken_call _ _ _ _ _ _ _ _ _ _ Hc Hst Hd0) as [_ Eq]. specialize (IH Hd0). cbn in IH. lia.
Qed.

(** [svcMeth] names a service and a method without dots. *)
Lemma splitLastDot_join svc meth :
  splitLastDot meth = None → splitLastDot (svc +:+ String (Ascii.ascii_of_nat 46) meth) = Some (svc, meth).
Proof.
  intros Hm. induction svc as [|c svc IH].
  - change (splitLastDot (String (Ascii.ascii_of_nat 46) meth) = Some (""%string, meth)).
    cbn [splitLastDot]. rewrite Hm. by rewrite decide_True.
  - change (splitLastDot (String c (svc +:+ String (Ascii.ascii_of_nat 46) meth)) = Some (String c svc, meth)).
    cbn [splitLastDot]. by rewrite IH.
Qed.
End labrpc.
Arguments mkReqMsg {E P}.
Arguments mkReplyMsg {P}.
Arguments mkNetwork {E N _ _ _ _}.
Arguments MakeNetwork {E N _ _ _ _}.
Arguments mkService {A P}.
Arguments mkServer {A P}.
Arguments MakeServer {A P}.
Arguments mkEndInfo {N}.
Arguments mkCallState {E N P}.
Arguments mkLab {E N A P _ _ _ _}.
Arguments Sending {N P}.
Arguments Received {N P}.
Arguments Started {N P}.
Arguments Waiting {N P}.
Arguments Closing {N P}.
Arguments Answered {N P}.
Arguments Returned {N P}.
Arguments NoHandler {P}.
Arguments Running {P}.
Arguments Finished {P}.
Arguments Drained {P}.
