(* ===== verification/HarnessNet.v ===== *)
(** * HarnessNet: what the testers of the labs share

    The four [config.go] files name the ends of the simulated network, switch them
    on and off and loop over servers.  Indexing that may panic, loops that may
    fail, and [switched]: the effect of switching a set of ends. *)

From S2P Require Import Prelude Labrpc.
Local Open Scope Z_scope.

(** [a[i]] for a loop variable. *)
Definition nth_get {A} (l : list A) (i : nat) : outcome A :=
  match l !! i with Some x => Ret x | None => Panic end.

(** A loop that may fail. *)
Fixpoint loop {A B} (f : A → B → outcome A) (a : A) (l : list B) : outcome A :=
  match l with
  | [] => Ret a
  | x :: l => a ← f a x; loop f a l
  end.

Lemma nth_get_Ret {A} (l : list A) i x : nth_get l i = Ret x ↔ l !! i = Some x.
Proof. unfold nth_get. destruct (l !! i); split; intros; by simplify_eq. Qed.

Lemma loop_app {A B} (f : A → B → outcome A) a l1 l2 : loop f a (l1 ++ l2) = (a ← loop f a l1; loop f a l2).
Proof. revert a. induction l1 as [|x l IH]; intros a; [done|]. cbn. destruct (f a x); cbn; auto. Qed.

(** A property that every turn keeps. *)
Lemma loop_inv {A B} (P : A → Prop) (f : A → B → outcome A) a l a' :
  loop f a l = Ret a' → P a → (∀ a x a', x ∈ l → P a → f a x = Ret a' → P a') → P a'.
Proof.
  revert a. induction l as [|x l IH]; intros a H Ha Hf; cbn in H; [by injection H as <-|].
  apply bind_Ret in H as (b & Hb & H). eapply IH; [done|eapply Hf; [left|done..]|].
  intros a0 y a1 Hy. apply Hf. by right.
Qed.

(** The same for a loop over indices, with a property of the index. *)
Lemma loop_seq {A} (P : nat → A → Prop) (f : A → nat → outcome A) a k b :
  loop f a (seq 0 k) = Ret b → P 0%nat a →
  (∀ j a a', (j < k)%nat → P j a → f a j = Ret a' → P (S j) a') → P k b.
Proof.
  revert b. induction k as [|k IH]; intros b H Ha Hf; [by injection H as <-|].
  rewrite seq_S, loop_app in H. apply bind_Ret in H as (c & Hc & H). cbn in H.
  apply bind_Ret in H as (b' & Hb & [= ->]). eapply Hf; [lia| |exact Hb]. apply IH; [done..|].
  intros j x x' Hj. apply Hf. lia.
Qed.

Lemma loop_seq_total {A} (P : nat → A → Prop) (f : A → nat → outcome A) a k :
  P 0%nat a → (∀ j a, (j < k)%nat → P j a → ∃ a', f a j = Ret a' ∧ P (S j) a') →
  ∃ b, loop f a (seq 0 k) = Ret b ∧ P k b.
Proof.
  intros Ha Hf. induction k as [|k IH]; [by exists a|].
  destruct IH as (c & Hc & Pc); [intros j x Hj; apply Hf; lia|].
  destruct (Hf k c) as (b & Hb & Pb); [lia|done|]. exists b. split; [|done].
  rewrite seq_S, loop_app, Hc. cbn. by rewrite Hb.
Qed.

(** ** Ends *)

Section ends.
Context {N : Type} `{EqN : EqDecision N} `{CountN : !Countable N}.
Implicit Types rn : Network (E := string) (N := N).

Definition on (rn : Network (E := string) (N := N)) (e : string) : Prop := enabled rn !! e = Some true.

(** Ends in [S] are switched, nothing else changes. *)
Record switched (yes : bool) (S : string → Prop) (rn rn' : Network (E := string) (N := N)) : Prop := {
  sw_ends : ends rn' = ends rn;
  sw_conn : connections rn' = connections rn;
  sw_servers : servers rn' = servers rn;
  sw_on e : on rn' e ↔ if yes then on rn e ∨ S e else on rn e ∧ ¬ S e;
}.

Lemma switched_refl yes rn : switched yes (λ _, False) rn rn.
Proof. constructor; [done..|]. intros e. destruct yes; tauto. Qed.

Lemma switched_trans yes S S' S'' rn1 rn2 rn3 :
  switched yes S rn1 rn2 → switched yes S' rn2 rn3 → (∀ e, S'' e ↔ S e ∨ S' e) → switched yes S'' rn1 rn3.
Proof.
  intros [H1 H2 HA H3] [H4 H5 HB H6] HS. constructor; [congruence..|]. intros e.
  specialize (H3 e). specialize (H6 e). specialize (HS e). destruct yes; tauto.
Qed.

Lemma switched_ext yes S S' rn rn' : switched yes S rn rn' → (∀ e, S' e ↔ S e) → switched yes S' rn rn'.
Proof. intros H HS. eapply switched_trans; [apply switched_refl|done|]. intros e. rewrite HS. tauto. Qed.

Lemma switched_none yes S rn : (∀ e, ¬ S e) → switched yes S rn rn.
Proof. intros HS. eapply switched_ext; [apply switched_refl|]. naive_solver. Qed.

Lemma switched_Enable yes rn e : switched yes (λ x, x = e) rn (Enable rn e yes).
Proof.
  constructor; [done..|]. intros x. unfold on. cbn. destruct (decide (x = e)) as [->|Hne].
  - rewrite lookup_insert_eq. destruct yes; split; intros; naive_solver.
  - rewrite lookup_insert_ne by done. destruct yes; naive_solver.
Qed.

(** A loop over the network that switches the ends that [P] finds. *)
Lemma loop_switched {B} yes (f : Network (E := string) (N := N) → B → outcome Network) (P : B → string → Prop) rn l rn' :
  (∀ rn x rn', x ∈ l → f rn x = Ret rn' → switched yes (P x) rn rn') → loop f rn l = Ret rn' →
  switched yes (λ e, ∃ x, x ∈ l ∧ P x e) rn rn'.
Proof.
  revert rn. induction l as [|x l IH]; intros rn Hf H; cbn in H.
  - injection H as <-. apply switched_none. set_solver.
  - apply bind_Ret in H as (rn1 & H1 & H). eapply switched_trans.
    + apply Hf; [left|done].
    + apply IH; [|done]. intros rn0 y rn2 Hy. apply Hf. by right.
    + intros e. setoid_rewrite elem_of_cons. naive_solver.
Qed.

End ends.

Lemma loop_total {A B} (f : A → B → outcome A) a l :
  (∀ a x, x ∈ l → is_Ret (f a x)) → is_Ret (loop f a l).
Proof.
  revert a. induction l as [|x l IH]; intros a Hf; cbn; [by eexists|].
  destruct (Hf a x) as [a' ->]; [left|]. cbn. apply IH. intros a0 y Hy. apply Hf. by right.
Qed.

(** ** The order of a clerk's ends *)

(** [sa[i], sa[j] = sa[j], sa[i]]. *)
Definition swap {A} (l : list A) (i j : nat) : outcome (list A) :=
  x ← nth_get l i; y ← nth_get l j; Ret (<[j := x]> (<[i := y]> l)).

(** [draw i] is [rand.Intn(i + 1)]. *)
Definition random_handles {A} (draw : nat → nat) (kvh : list A) : outcome (list A) :=
  loop (λ sa i, swap sa i (draw i)) kvh (seq 0 (length kvh)).

Lemma swap_perm {A} (l : list A) i j : (i < length l)%nat → (j < length l)%nat → ∃ l', swap l i j = Ret l' ∧ l' ≡ₚ l.
Proof.
  intros Hi Hj. destruct (lookup_lt_is_Some_2 l i Hi) as [x Hx], (lookup_lt_is_Some_2 l j Hj) as [y Hy].
  unfold swap, nth_get. rewrite Hx, Hy. cbn. eexists. split; [done|]. apply Permutation_inj. split; [by rewrite !length_insert|].
  exists (λ k, if decide (k = i) then j else if decide (k = j) then i else k). split.
  - intros a b. repeat case_decide; congruence.
  - intros k. destruct (decide (k = j)) as [->|Hnj].
    + rewrite list_lookup_insert_eq by (by rewrite length_insert). case_decide; congruence.
    + rewrite list_lookup_insert_ne by done. case_decide as Hk; [subst|by rewrite list_lookup_insert_ne].
      by rewrite list_lookup_insert_eq.
Qed.

(** A clerk talks to the same servers in another order. *)
Lemma random_handles_perm {A} (draw : nat → nat) (kvh : list A) :
  (∀ i, (draw i <= i)%nat) → ∃ sa, random_handles draw kvh = Ret sa ∧ sa ≡ₚ kvh.
Proof.
  intros Hd. unfold random_handles.
  destruct (loop_seq_total (λ _ sa, sa ≡ₚ kvh) (λ sa i, swap sa i (draw i)) kvh (length kvh)) as (sa & H & Hp); [done| |by exists sa].
  intros i sa Hi Hp. pose proof (Permutation_length Hp) as E. specialize (Hd i).
  destruct (swap_perm sa i (draw i)) as (l' & Hl' & Hp'); [lia..|]. exists l'. split; [done|]. by rewrite Hp'.
Qed.
