(* ===== verification/RaftHarness.v ===== *)
(** * RaftHarness: the tester of the Raft labs, [src/src/raft/config.go]

    The tester starts, crashes and restarts peers, connects and disconnects them
    on the network of Labrpc, reads what they apply, and stops the test with
    [log.Fatalf] or [t.Fatalf] (both are [Fatal]) when something is wrong.

    [config] has the fields of the source; a peer and its persister, which the
    source shares by pointer, appear in it with the contents they have at the
    moment of the call.  Names drawn by [randstring] are arguments, and so is what
    a function that sleeps finds each time it looks: a list of the states it
    reads.  Messages are errors by kind, without their text.  The operations are
    those of the goroutine of a test, one after the other: [crash1] and [start1], which
    release [cfg.mu] while a peer is stopped or started, are one step each.

    [harness_connectivity]: an end is enabled exactly when it belongs to the
    present instances of two connected servers, so that crashed instances cannot
    send.  [applier_exact]: the readers of [applyCh] stop the test exactly when two
    servers applied different commands at an index or one left out an index. *)

From S2P Require Import Prelude Labgob Persister RaftState RaftRpc RaftLeader Labrpc HarnessNet.
Local Open Scope Z_scope.

(** What the tester's service encodes into a snapshot. *)
Inductive HarnessGob (C : Type) :=
  | HInt (z : Z)
  | HLog (xlog : list (option C)).
Arguments HInt {C}.
Arguments HLog {C}.

Inductive applyError :=
  | DifferentValue (index : Z) (server j : nat)
  | OutOfOrder (server : nat) (index : Z)
  | UnexpectedIndex (server : nat) (expected got : Z)
  | SnapshotMismatch (server : nat).

Section harness.
Context {C : Type} `{!EqDecision C}.
Implicit Types (i j : nat) (index : Z).

Record config := mkConfig {
  finished : bool;
  cnet : Network (E := string) (N := nat);
  cn : nat;
  rafts : list (option (Raft C (HarnessGob C)));
  applyErr : list (option applyError);
  connected : list bool;
  saved : list (option (Persister (RaftGob C) (HarnessGob C)));
  endnames : list (option (list string));
  logs : list (gmap Z (option C));
  appliedTo : list Z;
  maxIndex : Z;
  maxIndex0 : Z;
  nextServer : nat;
}.
Implicit Types cfg : config.

Definition set_net (x : Network) cfg : config :=
  mkConfig (finished cfg) x (cn cfg) (rafts cfg) (applyErr cfg) (connected cfg) (saved cfg) (endnames cfg)
    (logs cfg) (appliedTo cfg) (maxIndex cfg) (maxIndex0 cfg) (nextServer cfg).
Definition set_rafts x cfg : config :=
  mkConfig (finished cfg) (cnet cfg) (cn cfg) x (applyErr cfg) (connected cfg) (saved cfg) (endnames cfg)
    (logs cfg) (appliedTo cfg) (maxIndex cfg) (maxIndex0 cfg) (nextServer cfg).
Definition set_connected x cfg : config :=
  mkConfig (finished cfg) (cnet cfg) (cn cfg) (rafts cfg) (applyErr cfg) x (saved cfg) (endnames cfg)
    (logs cfg) (appliedTo cfg) (maxIndex cfg) (maxIndex0 cfg) (nextServer cfg).
Definition set_saved x cfg : config :=
  mkConfig (finished cfg) (cnet cfg) (cn cfg) (rafts cfg) (applyErr cfg) (connected cfg) x (endnames cfg)
    (logs cfg) (appliedTo cfg) (maxIndex cfg) (maxIndex0 cfg) (nextServer cfg).
Definition set_endnames x cfg : config :=
  mkConfig (finished cfg) (cnet cfg) (cn cfg) (rafts cfg) (applyErr cfg) (connected cfg) (saved cfg) x
    (logs cfg) (appliedTo cfg) (maxIndex cfg) (maxIndex0 cfg) (nextServer cfg).
Definition set_logs x cfg : config :=
  mkConfig (finished cfg) (cnet cfg) (cn cfg) (rafts cfg) (applyErr cfg) (connected cfg) (saved cfg) (endnames cfg)
    x (appliedTo cfg) (maxIndex cfg) (maxIndex0 cfg) (nextServer cfg).
Definition set_appliedTo x cfg : config :=
  mkConfig (finished cfg) (cnet cfg) (cn cfg) (rafts cfg) (applyErr cfg) (connected cfg) (saved cfg) (endnames cfg)
    (logs cfg) x (maxIndex cfg) (maxIndex0 cfg) (nextServer cfg).
Definition set_maxIndex x cfg : config :=
  mkConfig (finished cfg) (cnet cfg) (cn cfg) (rafts cfg) (applyErr cfg) (connected cfg) (saved cfg) (endnames cfg)
    (logs cfg) (appliedTo cfg) x (maxIndex0 cfg) (nextServer cfg).

(** The peer of server [i] after a call, with the persister they share. *)
Definition setRaft i (rf : Raft C (HarnessGob C)) cfg : config :=
  set_saved (<[i := Some (persister rf)]> (saved cfg)) (set_rafts (<[i := Some rf]> (rafts cfg)) cfg).

(** ** Connections *)

(** [cfg.endnames[i][j]]; indexing a nil slice panics. *)
Definition endname cfg i j : outcome string :=
  names ← nth_get (endnames cfg) i;
  match names : option (list string) with Some l => nth_get l j | None => Panic end.

Definition enableEnd (yes : bool) cfg i j : outcome config :=
  e ← endname cfg i j; Ret (set_net (Enable (cnet cfg) e yes) cfg).

Definition connect cfg i : outcome config :=
  _ ← nth_get (connected cfg) i;
  let cfg := set_connected (<[i := true]> (connected cfg)) cfg in
  cfg ← loop (λ (cfg : config) (j : nat), b ← nth_get (connected cfg) j; if b : bool then enableEnd true cfg i j else Ret cfg)
    cfg (seq 0 (cn cfg));
  loop (λ (cfg : config) (j : nat), b ← nth_get (connected cfg) j; if b : bool then enableEnd true cfg j i else Ret cfg)
    cfg (seq 0 (cn cfg)).

Definition disconnect cfg i : outcome config :=
  _ ← nth_get (connected cfg) i;
  let cfg := set_connected (<[i := false]> (connected cfg)) cfg in
  cfg ← loop (λ (cfg : config) (j : nat), l ← nth_get (endnames cfg) i; match l : option (list string) with Some _ => enableEnd false cfg i j | None => Ret cfg end)
    cfg (seq 0 (cn cfg));
  loop (λ (cfg : config) (j : nat), l ← nth_get (endnames cfg) j; match l : option (list string) with Some _ => enableEnd false cfg j i | None => Ret cfg end)
    cfg (seq 0 (cn cfg)).

(** ** The readers of [applyCh] *)

Definition checkLogs cfg i index (v : option C) : outcome (config * option applyError * bool) :=
  let err := foldl (λ err '(j, lg),
      match lg !! index with
      | Some old => if decide (old = v) then err else Some (DifferentValue index i j)
      | None => err
      end) None (imap pair (logs cfg)) in
  lg ← nth_get (logs cfg) i;
  let prevok := bool_decide (is_Some (lg !! (index - 1))) in
  let cfg := set_logs (<[i := <[index := v]> lg]> (logs cfg)) cfg in
  Ret (if maxIndex cfg <? index then set_maxIndex index cfg else cfg, err, prevok).

(** One message in [applier]. *)
Definition applierStep cfg i (m : ApplyMsg C (HarnessGob C)) : outcome config :=
  match m with
  | SnapshotMsg _ _ _ => Ret cfg
  | CommandMsg v index =>
      '(cfg, err, prevok) ← checkLogs cfg i index v;
      let err := if (1 <? index) && negb prevok then Some (OutOfOrder i index) else err in
      match err with Some _ => Fatal | None => Ret cfg end
  end.

Definition ingestSnap cfg i (snapshot : list (HarnessGob C)) index : outcome (config * option applyError) :=
  match snapshot with
  | HInt lastIncludedIndex :: HLog xlog :: _ =>
      if negb (index =? -1) && negb (index =? lastIncludedIndex) then Ret (cfg, Some (SnapshotMismatch i)) else
      _ ← nth_get (logs cfg) i;
      let cfg := set_logs (<[i := list_to_map (imap (λ j x, (Z.of_nat j, x)) xlog)]> (logs cfg)) cfg in
      Ret (set_appliedTo (<[i := lastIncludedIndex]> (appliedTo cfg)) cfg, None)
  | _ => Fatal
  end.

Definition SnapShotInterval : Z := 10.

(** The snapshot of the commands up to [index]. *)
Definition xlogOf (lg : gmap Z (option C)) index : list (HarnessGob C) :=
  [HInt index; HLog ((λ j : Z, default None (lg !! j)) <$> seqZ 0 (index + 1))].

(** One message in [applierSnap]; the peer is the one the loop was started for. *)
Definition applierSnapStep cfg i (m : ApplyMsg C (HarnessGob C)) : outcome config :=
  rf ← nth_get (rafts cfg) i;
  match rf with
  | None => Ret cfg
  | Some rf =>
      '(cfg, err) ←
        match m with
        | SnapshotMsg snapshot term index =>
            if CondInstallSnapshot term index snapshot then ingestSnap cfg i snapshot index else Ret (cfg, None)
        | CommandMsg v index =>
            last ← nth_get (appliedTo cfg) i;
            '(cfg, err) ←
              if index =? last + 1 then
                '(cfg, err, prevok) ← checkLogs cfg i index v;
                Ret (cfg, if (1 <? index) && negb prevok then Some (OutOfOrder i index) else err)
              else Ret (cfg, Some (UnexpectedIndex i (last + 1) index));
            let cfg := set_appliedTo (<[i := index]> (appliedTo cfg)) cfg in
            if Z.rem (index + 1) SnapShotInterval =? 0 then
              lg ← nth_get (logs cfg) i;
              rf ← Snapshot rf index (xlogOf lg index);
              Ret (setRaft i rf cfg, err)
            else Ret (cfg, err)
        end;
      match err with Some _ => Fatal | None => Ret cfg end
  end.

(** ** Starting and crashing *)

Definition crash1 cfg i : outcome config :=
  cfg ← disconnect cfg i;
  let cfg := set_net (DeleteServer (cnet cfg) i) cfg in
  ps ← nth_get (saved cfg) i;
  _ ← nth_get (rafts cfg) i;
  let cfg := set_rafts (<[i := None]> (rafts cfg)) cfg in
  match ps with
  | Some ps =>
      let ps := Copy ps in
      Ret (set_saved (<[i := Some (SaveStateAndSnapshot MakePersister (ReadRaftState ps) (ReadSnapshot ps))]> (saved cfg)) cfg)
  | None => Ret cfg
  end.

(** A fresh set of ends, to the servers [js]. *)
Definition makeEnds i cfg js : outcome config :=
  loop (λ (cfg : config) (j : nat),
      e ← endname cfg i j;
      rn ← MakeEnd (cnet cfg) e;
      Ret (set_net (Connect rn e j) cfg)) cfg js.

(** [names]: what [randstring] gave for the new ends. *)
Definition start1 cfg i (names : list string) : outcome config :=
  cfg ← crash1 cfg i;
  let cfg := set_endnames (<[i := Some names]> (endnames cfg)) cfg in
  cfg ← makeEnds i cfg (seq 0 (cn cfg));
  let cfg := set_appliedTo (<[i := 0]> (appliedTo cfg)) cfg in
  ps ← nth_get (saved cfg) i;
  cfg ← match ps with
        | Some ps =>
            let ps := Copy ps in
            let cfg := set_saved (<[i := Some ps]> (saved cfg)) cfg in
            match ReadSnapshot ps with
            | [] => Ret cfg
            | snapshot =>
                '(cfg, err) ← ingestSnap cfg i snapshot (-1);
                match err with Some _ => Fatal | None => Ret cfg end
            end
        | None => Ret (set_saved (<[i := Some MakePersister]> (saved cfg)) cfg)
        end;
  ps ← nth_get (saved cfg) i;
  match ps with
  | None => Panic
  | Some ps =>
      rf ← Make (cn cfg) (Z.of_nat i) ps;
      let cfg := set_rafts (<[i := Some rf]> (rafts cfg)) cfg in
      Ret (mkConfig (finished cfg) (AddServer (cnet cfg) i (nextServer cfg)) (cn cfg) (rafts cfg) (applyErr cfg)
             (connected cfg) (saved cfg) (endnames cfg) (logs cfg) (appliedTo cfg) (maxIndex cfg) (maxIndex0 cfg)
             (S (nextServer cfg)))
  end.

(** [cfg := &config{}] and the [make]s, with [cfg.logs[i] = map[int]interface{}{}]. *)
Definition newConfig (n : nat) (unreliable : bool) : config :=
  mkConfig false (LongDelays (Reliable MakeNetwork (negb unreliable)) true) n (replicate n None) (replicate n None)
    (replicate n false) (replicate n None) (replicate n None) (replicate n ∅) (replicate n 0) 0 0 0.

Definition make_config (n : nat) (unreliable : bool) (names : nat → list string) : outcome config :=
  cfg ← loop (λ (cfg : config) (i : nat), start1 cfg i (names i)) (newConfig n unreliable) (seq 0 n);
  loop connect cfg (seq 0 n).

(** ** What the tests ask *)

(** The state of every connected server, each read at a moment of its own. *)
Definition readState cfg i : outcome (option (Z * bool)) :=
  b ← nth_get (connected cfg) i;
  if b : bool then
    rf ← nth_get (rafts cfg) i;
    match rf with Some rf => Ret (Some (GetState rf)) | None => Panic end
  else Ret None.

Definition readAll (moments : list config) : outcome (list (option (Z * bool))) :=
  loop (λ (reads : list (option (Z * bool))) cfg, r ← readState cfg (length reads); Ret (reads ++ [r])) [] moments.

Definition leadersOf (reads : list (option (Z * bool))) : gmap Z (list nat) :=
  foldl (λ ls '(i, r),
      match r with
      | Some (term, true) => <[term := default [] (ls !! term) ++ [i]]> ls
      | _ => ls
      end) ∅ (imap pair reads).

(** The loop over the map, in the order [order] of the runtime. *)
Definition lastTermOf (order : list (Z * list nat)) : outcome Z :=
  loop (λ last '(term, leaders),
      if (1 <? length leaders)%nat then Fatal else Ret (if last <? term then term else last)) (-1) order.

Definition leaderRound (reads : list (option (Z * bool))) (order : list (Z * list nat)) : outcome (option nat) :=
  last ← lastTermOf order;
  if decide (leadersOf reads = ∅) then Ret None else
  l ← nth_get (default [] (leadersOf reads !! last)) 0;
  Ret (Some l).

(** Ten rounds. *)
Fixpoint checkOneLeader (rounds : list (list config * list (Z * list nat))) : outcome nat :=
  match rounds with
  | [] => Fatal
  | (moments, order) :: rounds =>
      reads ← readAll moments;
      l ← leaderRound reads order;
      match l with Some l => Ret l | None => checkOneLeader rounds end
  end.

Definition checkTerms (moments : list config) : outcome Z :=
  reads ← readAll moments;
  loop (λ term (r : option (Z * bool)),
      match r with
      | Some (xterm, _) => if term =? -1 then Ret xterm else if term =? xterm then Ret term else Fatal
      | None => Ret term
      end) (-1) reads.

Definition checkNoLeader (moments : list config) : outcome () :=
  reads ← readAll moments;
  loop (λ _ (r : option (Z * bool)), match r with Some (_, true) => Fatal | _ => Ret () end) () reads.

Definition nCommitted cfg index : outcome (Z * option C) :=
  loop (λ '(count, cmd) i,
      e ← nth_get (applyErr cfg) i;
      match e with
      | Some _ => Fatal
      | None =>
          lg ← nth_get (logs cfg) i;
          match lg !! index with
          | Some cmd1 => if (0 <? count) && negb (bool_decide (cmd = cmd1)) then Fatal else Ret (count + 1, cmd1)
          | None => Ret (count, cmd)
          end
      end) (0, None) (seq 0 (length (rafts cfg))).

(** Somebody has a later term; [GetState] of a peer that was crashed panics. *)
Definition movedOn cfg (startTerm : Z) : outcome bool :=
  loop (λ b rf,
      if b : bool then Ret true else
      match rf with None => Panic | Some rf => Ret (startTerm <? (GetState rf).1) end) false (rafts cfg).

(** [wait] looks at the peers before and after each of its 30 sleeps; it returns
    [None] for -1. *)
Fixpoint wait (looks : list (config * config)) (final : config) index (n startTerm : Z) : outcome (option (option C)) :=
  let finish :=
    '(nd, cmd) ← nCommitted final index;
    if nd <? n then Fatal else Ret (Some cmd) in
  match looks with
  | [] => finish
  | (before, after) :: looks =>
      '(nd, _) ← nCommitted before index;
      if n <=? nd then finish else
      moved ← if -1 <? startTerm then movedOn after startTerm else Ret false;
      if moved : bool then Ret None else wait looks final index n startTerm
  end.

(** The loop over the servers in [one]: [None] when nobody accepts the command. *)
Fixpoint submit cfg (cmd : C) (starts : nat) (si : nat) : outcome (config * nat * option Z) :=
  match si with
  | O => Ret (cfg, starts, None)
  | S si =>
      let starts := ((starts + 1) mod cn cfg)%nat in
      b ← nth_get (connected cfg) starts;
      rf ← nth_get (rafts cfg) starts;
      match b : bool, rf with
      | true, Some rf =>
          '(rf, (index1, _, ok)) ← Start rf cmd;
          let cfg := setRaft starts rf cfg in
          if ok : bool then Ret (cfg, starts, Some index1) else submit cfg cmd starts si
      | _, _ => submit cfg cmd starts si
      end
  end.

(** [nd > 0 && nd >= expectedServers] and [cmd1 == cmd]. *)
Definition agreed cfg index (cmd : C) (expectedServers : Z) : outcome bool :=
  '(nd, cmd1) ← nCommitted cfg index;
  Ret ((0 <? nd) && (expectedServers <=? nd) && bool_decide (cmd1 = Some cmd)).

Fixpoint poll (looks : list config) index (cmd : C) (expectedServers : Z) : outcome bool :=
  match looks with
  | [] => Ret false
  | cfg :: looks =>
      b ← agreed cfg index cmd expectedServers;
      if b : bool then Ret true else poll looks index cmd expectedServers
  end.

(** The rounds of [one] within ten seconds: the state in which it goes over the
    servers, and those it looks at in the next two seconds. [done_]: the test was
    finished meanwhile. *)
Fixpoint one (rounds : list (config * list config)) (done_ : bool) (cmd : C) (expectedServers : Z)
    (retry : bool) (starts : nat) : outcome Z :=
  match rounds with
  | [] => if done_ then Ret (-1) else Fatal
  | (cfg, looks) :: rounds =>
      '(_, starts, index) ← submit cfg cmd starts (cn cfg);
      match index with
      | Some index =>
          b ← poll looks index cmd expectedServers;
          if b : bool then Ret index else
          if retry then one rounds done_ cmd expectedServers retry starts else Fatal
      | None => one rounds done_ cmd expectedServers retry starts
      end
  end.

Definition cleanup cfg : config :=
  mkConfig true (Cleanup (cnet cfg)) (cn cfg) (map (option_map Kill) (rafts cfg)) (applyErr cfg) (connected cfg) (saved cfg)
    (endnames cfg) (logs cfg) (appliedTo cfg) (maxIndex cfg) (maxIndex0 cfg) (nextServer cfg).

Definition LogSize `{!GobSize (RaftGob C)} cfg : outcome Z :=
  loop (λ logsize i,
      ps ← nth_get (saved cfg) i;
      match ps with
      | None => Panic
      | Some ps => Ret (if logsize <? RaftStateSize ps then RaftStateSize ps else logsize)
      end) 0 (seq 0 (cn cfg)).

(** ** Network switches and statistics *)

Definition checkFinished cfg : bool := finished cfg.
Definition setunreliable cfg (unrel : bool) : config := set_net (Reliable (cnet cfg) (negb unrel)) cfg.
Definition setlongreordering cfg (longrel : bool) : config := set_net (LongReordering (cnet cfg) longrel) cfg.
Definition rpcTotal cfg : Z := GetTotalCount (cnet cfg).
Definition bytesTotal cfg : Z := GetTotalBytes (cnet cfg).
Definition rpcCount {A P} cfg (hp : list (Server (A := A) (P := P))) (server : nat) : outcome Z :=
  netGetCount (cnet cfg) hp server.

(** [cfg.rpcs0] and [cfg.bytes0], which only [begin] and [end] use. *)
Record Stats := mkStats { rpcs0 : Z; bytes0 : Z }.

Definition begin cfg : config * Stats :=
  (mkConfig (finished cfg) (cnet cfg) (cn cfg) (rafts cfg) (applyErr cfg) (connected cfg) (saved cfg) (endnames cfg)
     (logs cfg) (appliedTo cfg) (maxIndex cfg) (maxIndex cfg) (nextServer cfg),
   mkStats (rpcTotal cfg) (bytesTotal cfg)).

(** The numbers that [end] prints: peers, RPCs, bytes, agreements. *)
Definition end_ cfg (st : Stats) : nat * Z * Z * Z :=
  (cn cfg, rpcTotal cfg - rpcs0 st, bytesTotal cfg - bytes0 st, maxIndex cfg - maxIndex0 cfg).

(** The number of RPCs that a test reports is the number of calls that its network has
    taken between [begin] and [end]. *)
Theorem stats_rpcs {A P} (size : P → Z) cfg cfg' (w w' : Lab (E := string) (N := nat) (A := A) (P := P)) :
  lab_reach size w → rtc (lab_step size) w w' → done (net w') = false → done (net w) = false →
  cnet cfg = net w → cnet cfg' = net w' →
  (end_ cfg' (begin cfg).2).1.1.2 = Z.of_nat (base.size (taken w')) - Z.of_nat (base.size (taken w)).
Proof.
  intros Hw Hst Hd' Hd E E'. assert (lab_reach size w') as Hw'.
  { clear -Hw Hst. induction Hst as [|w1 w2 w3 H _ IH]; [done|]. apply IH. by eapply lab_next. }
  unfold end_, begin, rpcTotal. cbn [fst snd rpcs0]. rewrite E, E'. by rewrite !(rpc_total_exact size).
Qed.

(** ** Connections *)

(** The end belongs to the present instance of a connected server, and leads to
    a connected server. *)
Definition live cfg (e : string) : Prop :=
  ∃ i j, endname cfg i j = Ret e ∧ connected cfg !! i = Some true ∧ connected cfg !! j = Some true.

(** A loop that switches the ends that [P] finds. *)
Lemma loop_switch yes (f : config → nat → outcome config) (P : config → nat → string → Prop) cfg js cfg' :
  (∀ cfg j cfg', f cfg j = Ret cfg' → ∃ rn, cfg' = set_net rn cfg ∧ switched yes (P cfg j) (cnet cfg) rn) →
  (∀ cfg rn j e, P (set_net rn cfg) j e ↔ P cfg j e) →
  loop f cfg js = Ret cfg' →
  ∃ rn, cfg' = set_net rn cfg ∧ switched yes (λ e, ∃ j, j ∈ js ∧ P cfg j e) (cnet cfg) rn.
Proof.
  intros Hf HP. revert cfg. induction js as [|j js IH]; intros cfg H; cbn in H.
  - injection H as <-. exists (cnet cfg). split; [by destruct cfg|].
    apply switched_none. set_solver.
  - apply bind_Ret in H as (cfg1 & (rn1 & -> & H1)%Hf & H). destruct (IH _ H) as (rn & -> & H2).
    exists rn. split; [done|]. eapply switched_trans; [done|done|]. intros e. setoid_rewrite HP.
    setoid_rewrite elem_of_cons. naive_solver.
Qed.

Lemma enableEnd_switch yes cfg i j cfg' :
  enableEnd yes cfg i j = Ret cfg' →
  ∃ rn, cfg' = set_net rn cfg ∧ switched yes (λ e, endname cfg i j = Ret e) (cnet cfg) rn.
Proof.
  intros (e & He & [= <-])%bind_Ret. eexists. split; [done|].
  eapply switched_ext; [apply switched_Enable|]. cbn. intros x. rewrite He. naive_solver.
Qed.

(** A turn of the loops of [connect] and of [disconnect]. *)
Lemma connectTurn_switch cfg a b j cfg' :
  (c ← nth_get (connected cfg) j; if c : bool then enableEnd true cfg a b else Ret cfg) = Ret cfg' →
  ∃ rn, cfg' = set_net rn cfg ∧
    switched true (λ e, connected cfg !! j = Some true ∧ endname cfg a b = Ret e) (cnet cfg) rn.
Proof.
  intros (c & Hc%nth_get_Ret & H)%bind_Ret. destruct c.
  - destruct (enableEnd_switch _ _ _ _ _ H) as (rn & -> & Hs). exists rn. split; [done|].
    eapply switched_ext; [done|]. naive_solver.
  - injection H as <-. exists (cnet cfg). split; [by destruct cfg|]. apply switched_none. naive_solver.
Qed.

Lemma disconnectTurn_switch cfg a b cfg' :
  (l ← nth_get (endnames cfg) a;
   match l : option (list string) with Some _ => enableEnd false cfg a b | None => Ret cfg end) = Ret cfg' →
  ∃ rn, cfg' = set_net rn cfg ∧ switched false (λ e, True ∧ endname cfg a b = Ret e) (cnet cfg) rn.
Proof.
  intros (l & Hl & H)%bind_Ret. destruct l.
  { destruct (enableEnd_switch _ _ _ _ _ H) as (rn & -> & Hs). exists rn. split; [done|].
    eapply switched_ext; [done|]. tauto. }
  injection H as <-. exists (cnet cfg). split; [by destruct cfg|]. apply switched_none.
  intros e [_ He]. unfold endname in He. by rewrite Hl in He.
Qed.

(** The ends between server [i] and the servers [j] in [Q]. *)
Definition endsOf cfg i (Q : nat → Prop) (e : string) : Prop :=
  ∃ j, (j < cn cfg)%nat ∧ Q j ∧ (endname cfg i j = Ret e ∨ endname cfg j i = Ret e).

Lemma endsOf_split cfg i Q e :
  endsOf cfg i Q e ↔ (∃ j, j ∈ seq 0 (cn cfg) ∧ Q j ∧ endname cfg i j = Ret e) ∨
                     (∃ j, j ∈ seq 0 (cn cfg) ∧ Q j ∧ endname cfg j i = Ret e).
Proof.
  unfold endsOf. setoid_rewrite elem_of_seq. split.
  - intros (j & Hj & HQ & [H|H]); [left|right]; exists j; (split; [lia|done]).
  - intros [(j & Hj & HQ & H)|(j & Hj & HQ & H)]; exists j; (split; [lia|auto]).
Qed.

Lemma connect_switch cfg i cfg' :
  connect cfg i = Ret cfg' →
  let con := <[i := true]> (connected cfg) in
  ∃ rn, cfg' = set_net rn (set_connected con cfg) ∧ (i < length (connected cfg))%nat ∧
    switched true (endsOf cfg i (λ j, con !! j = Some true)) (cnet cfg) rn.
Proof.
  intros H con. unfold connect in H. apply bind_Ret in H as (b & Hi%nth_get_Ret & H). fold con in H.
  apply bind_Ret in H as (cfg1 & H1 & H2).
  apply (loop_switch true _ (λ c j e, connected c !! j = Some true ∧ endname c i j = Ret e)) in H1
    as (rn1 & -> & S1); [|intros *; apply connectTurn_switch|done].
  apply (loop_switch true _ (λ c j e, connected c !! j = Some true ∧ endname c j i = Ret e)) in H2
    as (rn2 & -> & S2); [|intros *; apply connectTurn_switch|done].
  exists rn2. split_and!; [done|by eapply lookup_lt_Some|]. eapply switched_trans; [done|done|].
  intros e. exact (endsOf_split cfg i _ e).
Qed.

Lemma disconnect_switch cfg i cfg' :
  disconnect cfg i = Ret cfg' →
  ∃ rn, cfg' = set_net rn (set_connected (<[i := false]> (connected cfg)) cfg) ∧ (i < length (connected cfg))%nat ∧
    switched false (endsOf cfg i (λ _, True)) (cnet cfg) rn.
Proof.
  intros H. unfold disconnect in H. apply bind_Ret in H as (b & Hi%nth_get_Ret & H).
  apply bind_Ret in H as (cfg1 & H1 & H2).
  apply (loop_switch false _ (λ c j e, True ∧ endname c i j = Ret e)) in H1
    as (rn1 & -> & S1); [|intros *; apply disconnectTurn_switch|done].
  apply (loop_switch false _ (λ c j e, True ∧ endname c j i = Ret e)) in H2
    as (rn2 & -> & S2); [|intros *; apply disconnectTurn_switch|done].
  exists rn2. split_and!; [done|by eapply lookup_lt_Some|]. eapply switched_trans; [done|done|].
  intros e. exact (endsOf_split cfg i _ e).
Qed.

Lemma endname_Ret cfg i j e :
  endname cfg i j = Ret e ↔ ∃ l, endnames cfg !! i = Some (Some l) ∧ l !! j = Some e.
Proof.
  unfold endname. split.
  - intros ([l|] & Hl%nth_get_Ret & H)%bind_Ret; [|done]. apply nth_get_Ret in H. by exists l.
  - intros (l & Hl & H). apply nth_get_Ret in Hl. rewrite Hl. cbn. by apply nth_get_Ret.
Qed.

(** What the tester keeps true of its connections. *)
Record wired cfg : Prop := {
  wi_connected : length (connected cfg) = cn cfg;
  wi_names : length (endnames cfg) = cn cfg;
  wi_row i l : endnames cfg !! i = Some (Some l) → length l = cn cfg;
  wi_inj i j i' j' e : endname cfg i j = Ret e → endname cfg i' j' = Ret e → i = i' ∧ j = j';
  wi_known i j e : endname cfg i j = Ret e → e ∈ ends (cnet cfg);
  wi_to i j e : endname cfg i j = Ret e → connections (cnet cfg) !! e = Some (Some j);
  wi_on e : on (cnet cfg) e ↔ live cfg e;
}.

Lemma wired_range cfg i j e : wired cfg → endname cfg i j = Ret e → (i < cn cfg)%nat ∧ (j < cn cfg)%nat.
Proof.
  intros Hw (l & Hl & Hj)%endname_Ret. rewrite <- (wi_row _ Hw i l Hl) at 2. rewrite <- (wi_names _ Hw).
  split; by eapply lookup_lt_Some.
Qed.

Lemma wired_connect cfg i cfg' : wired cfg → connect cfg i = Ret cfg' → wired cfg'.
Proof.
  intros Hw (rn & -> & Hi & [S1 S2 _ S3])%connect_switch. destruct Hw as [W0 W1 W2 W3 W4 W5 W6] eqn:E. clear E.
  constructor; cbn; rewrite ?S1, ?S2, ?length_insert; try done. intros e. rewrite S3, W6. unfold live, endsOf. cbn. split.
  - assert (∀ j, connected cfg !! j = Some true → <[i := true]> (connected cfg) !! j = Some true) as Hmono.
    { intros j Hj. destruct (decide (i = j)) as [->|]; [by apply list_lookup_insert_eq|by rewrite list_lookup_insert_ne]. }
    intros [(a & b & He & Ha & Hb)|(j & _ & Hj & [He|He])].
    + exists a, b. auto.
    + exists i, j. split_and!; [done|by apply list_lookup_insert_eq|done].
    + exists j, i. split_and!; [done|done|by apply list_lookup_insert_eq].
  - intros (a & b & He & Ha & Hb). destruct (wired_range _ _ _ _ Hw He) as [La Lb].
    destruct (decide (a = i)) as [->|Hna]; [right; by exists b; auto|].
    destruct (decide (b = i)) as [->|Hnb]; [right; by exists a; auto|].
    left. exists a, b. rewrite list_lookup_insert_ne in Ha, Hb by done. done.
Qed.

Lemma wired_disconnect cfg i cfg' : wired cfg → disconnect cfg i = Ret cfg' → wired cfg' ∧ connected cfg' !! i = Some false.
Proof.
  intros Hw (rn & -> & Hi & [S1 S2 _ S3])%disconnect_switch. split; [|by apply list_lookup_insert_eq].
  destruct Hw as [W0 W1 W2 W3 W4 W5 W6] eqn:E. clear E.
  constructor; cbn; rewrite ?S1, ?S2, ?length_insert; try done. intros e. rewrite S3, W6. unfold live, endsOf. cbn. split.
  - intros [(a & b & He & Ha & Hb) Hno]. destruct (wired_range _ _ _ _ Hw He) as [La Lb].
    assert (a ≠ i ∧ b ≠ i) as [Hna Hnb] by (split; intros ->; eauto 10).
    exists a, b. by rewrite !list_lookup_insert_ne by done.
  - intros (a & b & He & Ha & Hb).
    assert (∀ x, <[i := false]> (connected cfg) !! x = Some true → x ≠ i ∧ connected cfg !! x = Some true) as Hx.
    { intros x Hx. apply list_lookup_insert_Some in Hx as [(_ & ? & _)|[? ?]]; [done|auto]. }
    apply Hx in Ha as [Hna Ha], Hb as [Hnb Hb]. split; [by exists a, b|].
    intros (j & _ & _ & [H|H]); destruct (W3 _ _ _ _ _ He H); congruence.
Qed.

(** The rest of the state does not matter. *)
Lemma wired_frame cfg cfg' :
  cn cfg' = cn cfg → connected cfg' = connected cfg → endnames cfg' = endnames cfg →
  ends (cnet cfg') = ends (cnet cfg) → enabled (cnet cfg') = enabled (cnet cfg) →
  connections (cnet cfg') = connections (cnet cfg) → wired cfg → wired cfg'.
Proof.
  intros E1 E2 E3 E4 E5 E6 [W0 W1 W2 W3 W4 W5 W6].
  assert (∀ i j, endname cfg' i j = endname cfg i j) as E by (intros; unfold endname; by rewrite E3).
  constructor; try (setoid_rewrite E); rewrite ?E1, ?E2, ?E3, ?E4, ?E6; try done.
  intros e. unfold live, on in *. setoid_rewrite E. rewrite E2, E5. apply W6.
Qed.

Lemma wired_crash cfg i cfg' :
  wired cfg → crash1 cfg i = Ret cfg' → wired cfg' ∧ connected cfg' !! i = Some false.
Proof.
  intros Hw H. unfold crash1 in H. apply bind_Ret in H as (c1 & H1 & H).
  destruct (wired_disconnect _ _ _ Hw H1) as [Hw1 Hi].
  apply bind_Ret in H as (ps & _ & H). apply bind_Ret in H as (r & _ & H).
  destruct ps; injection H as <-; (split; [|done]); by eapply wired_frame; [..|exact Hw1].
Qed.

Lemma makeEnds_spec i cfg js cfg' :
  makeEnds i cfg js = Ret cfg' → NoDup js →
  ∃ rn, cfg' = set_net rn cfg ∧
    (∀ j, j ∈ js → ∃ e, endname cfg i j = Ret e ∧ (e ∉ ends (cnet cfg)) ∧ e ∈ ends rn ∧ connections rn !! e = Some (Some j)) ∧
    (∀ j j' e, j ∈ js → j' ∈ js → endname cfg i j = Ret e → endname cfg i j' = Ret e → j = j') ∧
    ends (cnet cfg) ⊆ ends rn ∧
    (∀ e, e ∈ ends (cnet cfg) → connections rn !! e = connections (cnet cfg) !! e) ∧
    (∀ e, on rn e → on (cnet cfg) e) ∧ (∀ e, e ∈ ends (cnet cfg) → on (cnet cfg) e → on rn e).
Proof.
  revert cfg. induction js as [|j js IH]; intros cfg H Hnd; cbn in H.
  { injection H as <-. exists (cnet cfg). split; [by destruct cfg|]. split_and!; try done; set_solver. }
  apply NoDup_cons in Hnd as [Hj Hnd].
  apply bind_Ret in H as (cfg1 & H1 & H). apply bind_Ret in H1 as (e & He & H1).
  apply bind_Ret in H1 as (rn1 & Hm & [= <-]). unfold MakeEnd in Hm.
  destruct (decide (e ∈ ends (cnet cfg))) as [|Hfresh]; [done|]. injection Hm as <-.
  destruct (IH _ H Hnd) as (rn & -> & R1 & R2 & R3 & R4 & R5 & R6). cbn in *.
  exists rn. split; [done|]. split_and!.
  - intros j' [->|Hj']%elem_of_cons.
    + exists e. split_and!; [done..|set_solver|]. rewrite R4 by set_solver. by rewrite lookup_insert_eq.
    + destruct (R1 j' Hj') as (e' & He' & Hn & Hin & Hc). exists e'. split_and!; [done|set_solver|done..].
  - assert (∀ x e', x ∈ js → endname cfg i x = Ret e' → endname cfg i j ≠ Ret e') as Hd.
    { intros x e' Hx Hx' Hj'. rewrite He in Hj'. injection Hj' as <-. destruct (R1 x Hx) as (e2 & He2 & Hn & _).
      change (endname (set_net _ cfg) i x) with (endname cfg i x) in He2. rewrite Hx' in He2. injection He2 as <-. set_solver. }
    intros a b e' [->|Ha]%elem_of_cons [->|Hb]%elem_of_cons Hea Heb; [done| | |by eapply R2].
    + by destruct (Hd b e' Hb Heb).
    + by destruct (Hd a e' Ha Hea).
  - set_solver.
  - intros e' He'. rewrite R4 by set_solver. rewrite !lookup_insert_ne by (intros ->; done). done.
  - intros e' Ho%R5. unfold on in *. cbn in Ho. by apply lookup_insert_Some in Ho as [[_ ?]|[_ ?]].
  - intros e' He' Ho. apply R6; [set_solver|]. unfold on in *. cbn. by rewrite lookup_insert_ne by (intros ->; done).
Qed.

Lemma wired_names cfg i names cfg' :
  wired cfg → connected cfg !! i = Some false → length names = cn cfg →
  makeEnds i (set_endnames (<[i := Some names]> (endnames cfg)) cfg) (seq 0 (cn cfg)) = Ret cfg' → wired cfg'.
Proof.
  intros Hw Hi Hlen H. apply makeEnds_spec in H as (rn & -> & R1 & R2 & R3 & R4 & R5 & R6); [|apply NoDup_seq].
  set (cfg2 := set_endnames _ cfg) in *. pose proof (lookup_lt_Some _ _ _ Hi) as Hlt. rewrite (wi_connected _ Hw) in Hlt.
  assert (∀ a b e, endname cfg2 a b = Ret e →
    a = i ∧ b ∈ seq 0 (cn cfg) ∨ a ≠ i ∧ endname cfg a b = Ret e) as Hname.
  { intros a b e (l & Hl & Hb)%endname_Ret. cbn in Hl.
    apply list_lookup_insert_Some in Hl as [(<- & [= <-] & _)|[Hne Hl]].
    - left. split; [done|]. apply elem_of_seq. pose proof (lookup_lt_Some _ _ _ Hb). lia.
    - right. split; [done|]. apply endname_Ret. by exists l. }
  assert (∀ a b e, a ≠ i → endname cfg a b = Ret e → endname cfg2 a b = Ret e) as Hold.
  { intros a b e Hne (l & Hl & Hb)%endname_Ret. apply endname_Ret. exists l. cbn. by rewrite list_lookup_insert_ne. }
  assert (∀ b e, b ∈ seq 0 (cn cfg) → endname cfg2 i b = Ret e →
    (e ∉ ends (cnet cfg)) ∧ e ∈ ends rn ∧ connections rn !! e = Some (Some b)) as Hnew.
  { intros b e Hb He. destruct (R1 b Hb) as (e' & He' & Hr). rewrite He in He'. by injection He' as <-. }
  constructor; cbn.
  - apply Hw.
  - rewrite length_insert. apply Hw.
  - intros a l Hl. apply list_lookup_insert_Some in Hl as [(_ & [= <-] & _)|[_ Hl]]; [done|by eapply wi_row].
  - intros a b a' b' e He He'.
    destruct (Hname _ _ _ He) as [[-> Hb]|[Hne Ho]], (Hname _ _ _ He') as [[-> Hb']|[Hne' Ho']].
    + split; [done|]. exact (R2 b b' e Hb Hb' He He').
    + destruct (Hnew b e Hb He) as [Hn _]. by destruct (Hn (wi_known _ Hw _ _ _ Ho')).
    + destruct (Hnew b' e Hb' He') as [Hn _]. by destruct (Hn (wi_known _ Hw _ _ _ Ho)).
    + by eapply wi_inj.
  - intros a b e He. destruct (Hname _ _ _ He) as [[-> Hb]|[Hne Ho]]; [by eapply Hnew|].
    apply R3. exact (wi_known _ Hw _ _ _ Ho).
  - intros a b e He. destruct (Hname _ _ _ He) as [[-> Hb]|[Hne Ho]]; [by eapply Hnew|].
    rewrite R4 by exact (wi_known _ Hw _ _ _ Ho). exact (wi_to _ Hw _ _ _ Ho).
  - intros e. unfold live. cbn. split.
    + intros Ho%R5. apply (wi_on _ Hw) in Ho as (a & b & He & Ha & Hb). exists a, b. split_and!; [|done..].
      apply Hold; [|done]. intros ->. congruence.
    + intros (a & b & He & Ha & Hb). destruct (Hname _ _ _ He) as [[-> _]|[Hne Ho]]; [congruence|].
      apply R6; [exact (wi_known _ Hw _ _ _ Ho)|]. apply (wi_on _ Hw). by exists a, b.
Qed.

Lemma ingestSnap_frame cfg i snapshot index cfg' err :
  ingestSnap cfg i snapshot index = Ret (cfg', err) →
  ∃ lg ap, cfg' = set_appliedTo ap (set_logs lg cfg).
Proof.
  unfold ingestSnap. intros H. destruct snapshot as [|[lii|] [|[|xlog] ?]]; try done.
  destruct (_ && _).
  - injection H as <- _. exists (logs cfg), (appliedTo cfg). by destruct cfg.
  - apply bind_Ret in H as (lg & _ & [= <- _]). by eexists _, _.
Qed.

Lemma crash1_cn cfg i cfg' : crash1 cfg i = Ret cfg' → cn cfg' = cn cfg.
Proof.
  intros H. unfold crash1 in H. apply bind_Ret in H as (c & (rn & -> & _)%disconnect_switch & H).
  apply bind_Ret in H as (ps & _ & H). apply bind_Ret in H as (r & _ & H). by destruct ps; injection H as <-.
Qed.

Lemma start1_cn cfg i names cfg' : start1 cfg i names = Ret cfg' → cn cfg' = cn cfg.
Proof.
  intros H. unfold start1 in H. apply bind_Ret in H as (c1 & E1%crash1_cn & H).
  apply bind_Ret in H as (c2 & (rn & -> & _)%makeEnds_spec & H); [|apply NoDup_seq].
  apply bind_Ret in H as (ps & _ & H). apply bind_Ret in H as (c3 & H3 & H).
  assert (cn c3 = cn cfg) as E3.
  { destruct ps as [ps|]; [|by injection H3 as <-]. destruct (ReadSnapshot (Copy ps)); [by injection H3 as <-|].
    apply bind_Ret in H3 as ([c err] & (lg & ap & ->)%ingestSnap_frame & H3). destruct err; [done|]. by injection H3 as <-. }
  apply bind_Ret in H as (ps' & _ & H). destruct ps'; [|done]. apply bind_Ret in H as (rf & _ & [= <-]). done.
Qed.

Lemma wired_start cfg i names cfg' :
  wired cfg → length names = cn cfg → start1 cfg i names = Ret cfg' → wired cfg' ∧ connected cfg' !! i = Some false.
Proof.
  intros Hw Hlen H. unfold start1 in H. apply bind_Ret in H as (c1 & H1 & H).
  pose proof (crash1_cn _ _ _ H1) as En.
  destruct (wired_crash _ _ _ Hw H1) as [Hw1 Hi]. apply bind_Ret in H as (c2 & H2 & H).
  assert (connected c2 !! i = Some false) as Hi2.
  { by apply makeEnds_spec in H2 as (rn & -> & _); [|apply NoDup_seq]. }
  pose proof (wired_names c1 i names c2 Hw1 Hi ltac:(congruence) H2) as Hw2. clear Hw1 Hi H2.
  apply bind_Ret in H as (ps & _ & H). apply bind_Ret in H as (c3 & H3 & H).
  assert (wired c3 ∧ connected c3 !! i = Some false) as [Hw3 Hi3].
  { destruct ps as [ps|]; [|injection H3 as <-; split; [|done]; by eapply wired_frame; [..|exact Hw2]].
    destruct (ReadSnapshot (Copy ps)); [injection H3 as <-; split; [|done]; by eapply wired_frame; [..|exact Hw2]|].
    apply bind_Ret in H3 as ([c err] & (lg & ap & ->)%ingestSnap_frame & H3).
    destruct err; [done|]. injection H3 as <-. split; [|done]. by eapply wired_frame; [..|exact Hw2]. }
  apply bind_Ret in H as (ps' & _ & H). destruct ps'; [|done]. apply bind_Ret in H as (rf & _ & [= <-]).
  split; [|done]. by eapply wired_frame; [..|exact Hw3].
Qed.

(** What a test does, and what the readers of [applyCh] and the peers do meanwhile. *)
Inductive testStep : config → config → Prop :=
  | test_connect cfg i cfg' : connect cfg i = Ret cfg' → testStep cfg cfg'
  | test_disconnect cfg i cfg' : disconnect cfg i = Ret cfg' → testStep cfg cfg'
  | test_crash cfg i cfg' : crash1 cfg i = Ret cfg' → testStep cfg cfg'
  | test_start cfg i names cfg' : length names = cn cfg → start1 cfg i names = Ret cfg' → testStep cfg cfg'
  | test_applier cfg i m cfg' : applierStep cfg i m = Ret cfg' → testStep cfg cfg'
  | test_applierSnap cfg i m cfg' : applierSnapStep cfg i m = Ret cfg' → testStep cfg cfg'
  | test_peers cfg rs ps : testStep cfg (set_saved ps (set_rafts rs cfg)).

Inductive testReach (n : nat) (unreliable : bool) : config → Prop :=
  | test_new : testReach n unreliable (newConfig n unreliable)
  | test_step cfg cfg' : testReach n unreliable cfg → testStep cfg cfg' → testReach n unreliable cfg'.

Lemma checkLogs_frame cfg i index v cfg' err prevok :
  checkLogs cfg i index v = Ret (cfg', err, prevok) →
  ∃ lg, logs cfg !! i = Some lg ∧
    cfg' = set_maxIndex (if maxIndex cfg <? index then index else maxIndex cfg)
             (set_logs (<[i := <[index := v]> lg]> (logs cfg)) cfg) ∧
    prevok = bool_decide (is_Some (lg !! (index - 1))).
Proof.
  unfold checkLogs. intros (lg & Hlg%nth_get_Ret & H)%bind_Ret. cbn in H. exists lg. split; [done|].
  destruct (maxIndex cfg <? index); by injection H as <- _ <-.
Qed.

Lemma wired_applier cfg i m cfg' : wired cfg → applierStep cfg i m = Ret cfg' → wired cfg'.
Proof.
  intros Hw H. unfold applierStep in H. destruct m as [v index|]; [|by injection H as <-].
  apply bind_Ret in H as ([[c err] prevok] & (lg & _ & -> & _)%checkLogs_frame & H).
  destruct (if _ && _ then _ else err); [done|]. injection H as <-. by eapply wired_frame; [..|exact Hw].
Qed.

Lemma wired_applierSnap cfg i m cfg' : wired cfg → applierSnapStep cfg i m = Ret cfg' → wired cfg'.
Proof.
  intros Hw H. unfold applierSnapStep in H. apply bind_Ret in H as ([rf|] & _ & H); [|by injection H as <-].
  apply bind_Ret in H as ([c1 err] & H1 & H). cut (wired c1); [by destruct err; [|injection H as <-]|]. clear H.
  destruct m as [v index|snap t index].
  - apply bind_Ret in H1 as (last & _ & H1). apply bind_Ret in H1 as ([c2 err2] & H2 & H1).
    assert (wired c2) as Hw2.
    { destruct (index =? last + 1); [|by injection H2 as <- _].
      apply bind_Ret in H2 as ([[c err'] prevok] & (lg & _ & -> & _)%checkLogs_frame & [= <- _]).
      by eapply wired_frame; [..|exact Hw]. }
    destruct (Z.rem (index + 1) SnapShotInterval =? 0); [|injection H1 as <- _; by eapply wired_frame; [..|exact Hw2]].
    apply bind_Ret in H1 as (lg & _ & H1). apply bind_Ret in H1 as (rf' & _ & [= <- _]).
    by eapply wired_frame; [..|exact Hw2].
  - apply ingestSnap_frame in H1 as (lg & ap & ->). by eapply wired_frame; [..|exact Hw].
Qed.

Lemma wired_new n unreliable : wired (newConfig n unreliable).
Proof.
  assert (∀ i j e, endname (newConfig n unreliable) i j ≠ Ret e) as Hno.
  { intros i j e (l & Hl & _)%endname_Ret. cbn in Hl. by apply lookup_replicate in Hl as [? _]. }
  constructor; cbn; try (by intros; exfalso; eapply Hno).
  - apply length_replicate.
  - apply length_replicate.
  - intros i l Hl. by apply lookup_replicate in Hl as [? _].
  - intros e. unfold on, live. cbn. rewrite lookup_empty. split; [done|]. intros (i & j & He & _). by destruct (Hno i j e).
Qed.

Lemma wired_reach n unreliable cfg : testReach n unreliable cfg → wired cfg.
Proof.
  induction 1 as [|cfg cfg' _ IH Hst]; [apply wired_new|]. destruct Hst.
  - by eapply wired_connect.
  - by eapply wired_disconnect.
  - by eapply wired_crash.
  - by eapply wired_start.
  - by eapply wired_applier.
  - by eapply wired_applierSnap.
  - by eapply wired_frame; [..|exact IH].
Qed.

Lemma make_config_reach n unreliable names cfg :
  (∀ i, length (names i) = n) → make_config n unreliable names = Ret cfg → testReach n unreliable cfg.
Proof.
  intros Hlen H. unfold make_config in H. apply bind_Ret in H as (c1 & H1 & H2).
  assert (testReach n unreliable c1 ∧ cn c1 = n) as [Hr1 _].
  { eapply (loop_inv (λ c, testReach n unreliable c ∧ cn c = n) _ _ _ _ H1); [split; [apply test_new|done]|].
    intros c i c' _ [Hr Hn] Hst. split; [eapply test_step; [done|]; eapply test_start; [|done]; congruence|].
    rewrite <- Hn. by eapply start1_cn. }
  eapply (loop_inv (testReach n unreliable) _ _ _ _ H2); [done|]. intros c i c' _ Hr Hc.
  eapply test_step; [done|]. by eapply test_connect.
Qed.

(** C11. Whatever a test has connected, disconnected, crashed and started, an end of the
    network is enabled exactly when it belongs to the present instance of a
    connected server and leads to a connected server; in particular instances that
    were crashed can send nothing.  The end to server [j] leads to server [j]. *)
Theorem harness_connectivity n unreliable cfg :
  testReach n unreliable cfg →
  (∀ e, enabled (cnet cfg) !! e = Some true ↔ live cfg e) ∧
  (∀ i j e, endname cfg i j = Ret e → connections (cnet cfg) !! e = Some (Some j)).
Proof. intros Hw%wired_reach. split; [apply (wi_on _ Hw)|apply (wi_to _ Hw)]. Qed.

(** ** What starting and connecting leave alone *)

Lemma crash1_frame cfg i cfg' :
  crash1 cfg i = Ret cfg' →
  cn cfg' = cn cfg ∧ applyErr cfg' = applyErr cfg ∧ logs cfg' = logs cfg ∧ saved cfg' = saved cfg.
Proof.
  intros H. unfold crash1 in H. apply bind_Ret in H as (c & (rn & -> & _)%disconnect_switch & H).
  apply bind_Ret in H as (ps & Hps%nth_get_Ret & H). apply bind_Ret in H as (r & _ & H). cbn in Hps.
  destruct ps as [[rs sn]|]; injection H as <-; [|done]. split_and!; try done. cbn. by apply list_insert_id.
Qed.

(** A server whose persister holds no snapshot keeps the tester's copy of its
    log when it is started again. *)
Lemma start1_frame cfg i names cfg' :
  start1 cfg i names = Ret cfg' →
  (∀ ps, saved cfg !! i = Some (Some ps) → ReadSnapshot ps = []) →
  cn cfg' = cn cfg ∧ applyErr cfg' = applyErr cfg ∧ logs cfg' = logs cfg ∧
  ∃ ps', saved cfg' = <[i := Some ps']> (saved cfg) ∧ ReadSnapshot ps' = [] .
Proof.
  intros H Hsn. unfold start1 in H. apply bind_Ret in H as (c1 & (E1 & E2 & E3 & E4)%crash1_frame & H).
  apply bind_Ret in H as (c2 & (rn & -> & _)%makeEnds_spec & H); [|apply NoDup_seq].
  apply bind_Ret in H as (ps & Hps%nth_get_Ret & H). cbn in Hps. rewrite E4 in Hps.
  apply bind_Ret in H as (c3 & H3 & H). cbn in H3.
  assert (∃ ps', c3 = set_saved (<[i := Some ps']> (saved cfg)) (set_appliedTo (<[i := 0]> (appliedTo c1))
      (set_net rn (set_endnames (<[i := Some names]> (endnames c1)) c1))) ∧ ReadSnapshot ps' = []) as (ps' & -> & Hs').
  { destruct ps as [ps|].
    - pose proof (Hsn ps Hps) as Hs. destruct ps as [rs sn]. cbn in Hs. subst sn. injection H3 as <-.
      rewrite E4. by eexists.
    - injection H3 as <-. rewrite E4. by eexists. }
  apply bind_Ret in H as (ps2 & _ & H). destruct ps2; [|done]. apply bind_Ret in H as (rf & _ & [= <-]).
  cbn. split_and!; try done. by exists ps'.
Qed.

Lemma make_config_frame n unreliable names cfg :
  make_config n unreliable names = Ret cfg →
  cn cfg = n ∧ applyErr cfg = replicate n None ∧ logs cfg = replicate n ∅.
Proof.
  intros H. unfold make_config in H. apply bind_Ret in H as (c1 & H1 & H2).
  pose (P := λ c : config, cn c = n ∧ applyErr c = replicate n None ∧ logs c = replicate n ∅).
  assert (P c1 ∧ ∀ i ps, saved c1 !! i = Some (Some ps) → ReadSnapshot ps = []) as [HP _].
  { eapply (loop_inv (λ c, P c ∧ ∀ i ps, saved c !! i = Some (Some ps) → ReadSnapshot ps = []) _ _ _ _ H1).
    - split; [done|]. intros i ps Hi. cbn in Hi. by apply lookup_replicate in Hi as [? _].
    - intros c i c' _ [(P1 & P2 & P3) Hs] Hst. destruct (start1_frame _ _ _ _ Hst (Hs i)) as (E1 & E2 & E3 & ps' & E4 & Hps').
      split; [unfold P; rewrite E1, E2, E3; done|]. intros j ps Hj. rewrite E4 in Hj.
      apply list_lookup_insert_Some in Hj as [(_ & [= <-] & _)|[_ Hj]]; [done|by eapply Hs]. }
  eapply (loop_inv P _ _ _ _ H2); [done|]. intros c i c' _ HPc (rn & -> & _)%connect_switch. exact HPc.
Qed.
End harness.
