(* ===== verification/ServiceHarness.v ===== *)
(** * ServiceHarness: the tester of the key/value and configuration services

    [src/src/kvraft/config.go]; [src/src/shardctrler/config.go] has the same
    operations for its own servers (CtrlerHarness).  The servers are a type [S] with the function
    that starts one, [Kill] and [GetState] of its peer.  A server and its persister
    appear with their contents at the moment of the call, as in RaftHarness;
    a clerk is known by a number in place of its address, and the names drawn by
    [randstring] are arguments.  The operations are those of the goroutine of a test,
    one after the other: [ShutdownServer] and [StartServer], which release [cfg.mu]
    while a server is stopped or started, are one step each.

    [partition_spec]: a partition connects the servers of each part and nothing
    across.  [make_partition_spec]: the parts are a majority and a minority with the
    leader in it, when the number of servers is odd.  [restart_isolates]: a server
    that is shut down and started again has new ends, and its old ones are off. *)

From S2P Require Import Prelude Labgob Persister Labrpc HarnessNet.
Local Open Scope Z_scope.

(** [cfg.endnames[i][j]]. *)
Definition nameAt (names : list (option (list string))) (i j : nat) : outcome string :=
  row ← nth_get names i;
  match row : option (list string) with Some l => nth_get l j | None => Panic end.

Definition switchEnd (yes : bool) names (rn : Network (E := string) (N := nat)) (i j : nat) : outcome Network :=
  e ← nameAt names i j; Ret (Enable rn e yes).

(** Attach server [i] to the servers [to], both ways. *)
Definition connectUnlocked names rn (i : nat) (to : list nat) : outcome Network :=
  rn ← loop (λ rn x, switchEnd true names rn i x) rn to;
  loop (λ rn x, switchEnd true names rn x i) rn to.

(** Detach it. The second loop tests the row of the loop index, not of the server. *)
Definition disconnectUnlocked names rn (i : nat) (from : list nat) : outcome Network :=
  rn ← loop (λ rn x,
      row ← nth_get names i;
      match row : option (list string) with Some _ => switchEnd false names rn i x | None => Ret rn end) rn from;
  loop (λ rn '(j, x),
      row ← nth_get names j;
      match row : option (list string) with Some _ => switchEnd false names rn x i | None => Ret rn end)
    rn (imap pair from).

Section service.
Context {RV SV S : Type}.
Context (startServer : nat → Z → Persister RV SV → outcome S) (killServer : S → S) (serverState : S → Z * bool).
Implicit Types i j : nat.

Record config := mkConfig {
  cn : nat;
  cnet : Network (E := string) (N := nat);
  kvservers : list (option S);
  saved : list (option (Persister RV SV));
  endnames : list (option (list string));
  clerks : gmap nat (list string);
  nextClientId : Z;
  nextServer : nat;
}.
Implicit Types cfg : config.

Definition set_net x cfg : config :=
  mkConfig (cn cfg) x (kvservers cfg) (saved cfg) (endnames cfg) (clerks cfg) (nextClientId cfg) (nextServer cfg).
Definition set_servers x cfg : config :=
  mkConfig (cn cfg) (cnet cfg) x (saved cfg) (endnames cfg) (clerks cfg) (nextClientId cfg) (nextServer cfg).
Definition set_saved x cfg : config :=
  mkConfig (cn cfg) (cnet cfg) (kvservers cfg) x (endnames cfg) (clerks cfg) (nextClientId cfg) (nextServer cfg).
Definition set_endnames x cfg : config :=
  mkConfig (cn cfg) (cnet cfg) (kvservers cfg) (saved cfg) x (clerks cfg) (nextClientId cfg) (nextServer cfg).

Definition All cfg : list nat := seq 0 (cn cfg).

Definition connect cfg i to : outcome config :=
  rn ← connectUnlocked (endnames cfg) (cnet cfg) i to; Ret (set_net rn cfg).

Definition disconnect cfg i from : outcome config :=
  rn ← disconnectUnlocked (endnames cfg) (cnet cfg) i from; Ret (set_net rn cfg).

Definition ConnectAll cfg : outcome config :=
  rn ← loop (λ rn i, connectUnlocked (endnames cfg) rn i (All cfg)) (cnet cfg) (seq 0 (cn cfg));
  Ret (set_net rn cfg).

(** One of the two loops of [partition]. *)
Definition splitOff names rn (p q : list nat) : outcome Network :=
  loop (λ rn a, rn ← disconnectUnlocked names rn a q; connectUnlocked names rn a p) rn p.

Definition partition cfg (p1 p2 : list nat) : outcome config :=
  rn ← splitOff (endnames cfg) (cnet cfg) p1 p2;
  rn ← splitOff (endnames cfg) rn p2 p1;
  Ret (set_net rn cfg).

(** ** Clerks *)

Definition switchClient (yes : bool) cfg (ck : nat) (to : list nat) : outcome config :=
  rn ← loop (λ rn x, s ← nth_get (default [] (clerks cfg !! ck)) x; Ret (Enable rn s yes)) (cnet cfg) to;
  Ret (set_net rn cfg).
Definition ConnectClient := switchClient true.
Definition DisconnectClient := switchClient false.

(** A fresh set of ends, the [j]-th to server [j]. *)
Definition freshEnds (rn : Network (E := string) (N := nat)) (names : list string) : outcome Network :=
  loop (λ rn '(j, e), rn ← MakeEnd rn e; Ret (Connect rn e j)) rn (imap pair names).

Definition makeClient cfg (ck : nat) (names : list string) (to : list nat) : outcome config :=
  rn ← freshEnds (cnet cfg) names;
  ConnectClient (mkConfig (cn cfg) rn (kvservers cfg) (saved cfg) (endnames cfg) (<[ck := names]> (clerks cfg))
                   (nextClientId cfg + 1) (nextServer cfg)) ck to.

Definition deleteClient cfg (ck : nat) : config :=
  mkConfig (cn cfg) (cnet cfg) (kvservers cfg) (saved cfg) (endnames cfg) (delete ck (clerks cfg))
    (nextClientId cfg) (nextServer cfg).

(** ** Servers *)

Definition ShutdownServer cfg i : outcome config :=
  cfg ← disconnect cfg i (All cfg);
  let cfg := set_net (DeleteServer (cnet cfg) i) cfg in
  ps ← nth_get (saved cfg) i;
  let cfg := set_saved (<[i := option_map Copy ps]> (saved cfg)) cfg in
  _ ← nth_get (kvservers cfg) i;
  Ret (set_servers (<[i := None]> (kvservers cfg)) cfg).

Definition StartServer cfg i (names : list string) : outcome config :=
  _ ← nth_get (endnames cfg) i;
  let cfg := set_endnames (<[i := Some names]> (endnames cfg)) cfg in
  rn ← freshEnds (cnet cfg) names;
  let cfg := set_net rn cfg in
  old ← nth_get (saved cfg) i;
  let ps := match old with Some ps => Copy ps | None => MakePersister end in
  let cfg := set_saved (<[i := Some ps]> (saved cfg)) cfg in
  kv ← startServer (cn cfg) (Z.of_nat i) ps;
  let cfg := set_servers (<[i := Some kv]> (kvservers cfg)) cfg in
  Ret (mkConfig (cn cfg) (AddServer (cnet cfg) i (nextServer cfg)) (kvservers cfg) (saved cfg) (endnames cfg)
         (clerks cfg) (nextClientId cfg) (Datatypes.S (nextServer cfg))).

(** The first server that leads; [GetState] of a server that was shut down
    panics. *)
Fixpoint leaderFrom (l : list (option S)) i : outcome (bool * nat) :=
  match l with
  | [] => Ret (false, 0%nat)
  | None :: _ => Panic
  | Some kv :: l => if (serverState kv).2 then Ret (true, i) else leaderFrom l (i + 1)
  end.
Definition Leader cfg : outcome (bool * nat) := leaderFrom (take (cn cfg) (kvservers cfg)) 0.

(** [p1[j] = i], or [p2[j-len(p1)] = i] when [p1] is full. *)
Definition place (l : nat) (st : list nat * list nat * nat) i : outcome (list nat * list nat * nat) :=
  let '(p1, p2, j) := st in
  if decide (i = l) then Ret st else
  if (j <? length p1)%nat then Ret (<[j := i]> p1, p2, (j + 1)%nat) else
  _ ← nth_get p2 (j - length p1);
  Ret (p1, <[(j - length p1)%nat := i]> p2, (j + 1)%nat).

(** The two parts of [n] servers with [l] in the second one. *)
Definition partsAround (n l : nat) : outcome (list nat * list nat) :=
  '(p1, p2, _) ← loop (place l) (replicate (n / 2 + 1) 0%nat, replicate (n / 2) 0%nat, 0%nat) (seq 0 n);
  match p2 with
  | [] => Panic
  | _ => Ret (p1, <[(length p2 - 1)%nat := l]> p2)
  end.

Definition make_partition cfg : outcome (list nat * list nat) :=
  '(_, l) ← Leader cfg; partsAround (cn cfg) l.

Definition newConfig (n : nat) : config :=
  mkConfig n MakeNetwork (replicate n None) (replicate n None) (replicate n None) ∅ (Z.of_nat n + 1000) 0.

Definition make_config (n : nat) (unreliable : bool) (names : nat → list string) : outcome config :=
  cfg ← loop (λ cfg i, StartServer cfg i (names i)) (newConfig n) (seq 0 n);
  cfg ← ConnectAll cfg;
  Ret (set_net (Reliable (cnet cfg) (negb unreliable)) cfg).

Definition cleanup cfg : config :=
  set_net (Cleanup (cnet cfg)) (set_servers (map (option_map killServer) (kvservers cfg)) cfg).

(** The largest of the sizes of the persisters. *)
Definition maxSize (size : Persister RV SV → Z) cfg : outcome Z :=
  loop (λ largest i,
      ps ← nth_get (saved cfg) i;
      match ps with
      | None => Panic
      | Some ps => Ret (if largest <? size ps then size ps else largest)
      end) 0 (seq 0 (cn cfg)).
Definition LogSize `{!GobSize RV} cfg : outcome Z := maxSize RaftStateSize cfg.
Definition SnapshotSize `{!GobSize SV} cfg : outcome Z := maxSize SnapshotSize cfg.

(** ** Statistics *)

Definition rpcTotal cfg : Z := GetTotalCount (cnet cfg).

(** [cfg.rpcs0] and [cfg.ops], which only [begin], [op] and [end] use. *)
Record Stats := mkStats { rpcs0 : Z; ops : Z }.
Definition begin cfg : Stats := mkStats (rpcTotal cfg) 0.
(** [atomic.AddInt32(&cfg.ops, 1)]. *)
Definition op (st : Stats) : Stats := mkStats (rpcs0 st) (ops st + 1).
(** The numbers that [end] prints: peers, RPCs, operations of clerks. *)
Definition end_ cfg (st : Stats) : nat * Z * Z := (cn cfg, rpcTotal cfg - rpcs0 st, ops st).
End service.

(** ** Partitions *)
Section names.
Context (names : list (option (list string))) (n : nat).

(** Every server has its ends, and no two ends have the same name. *)
Record fullNames : Prop := {
  fn_length : length names = n;
  fn_row i : (i < n)%nat → ∃ l, names !! i = Some (Some l) ∧ length l = n;
  fn_inj i j i' j' e : nameAt names i j = Ret e → nameAt names i' j' = Ret e → i = i' ∧ j = j';
}.
Context (Hfull : fullNames).

Lemma nameAt_total i j : (i < n)%nat → (j < n)%nat → is_Ret (nameAt names i j).
Proof.
  intros Hi Hj. destruct (fn_row Hfull i Hi) as (l & Hl & Hlen). rewrite <- Hlen in Hj.
  destruct (lookup_lt_is_Some_2 _ _ Hj) as [e He]. exists e. unfold nameAt.
  rewrite (proj2 (nth_get_Ret _ _ _) Hl). cbn. by apply nth_get_Ret.
Qed.

Lemma switchEnd_total yes rn i j : (i < n)%nat → (j < n)%nat → is_Ret (switchEnd yes names rn i j).
Proof. intros Hi Hj. unfold switchEnd. destruct (nameAt_total i j Hi Hj) as [e ->]. by eexists. Qed.

Lemma switchEnd_switched yes rn i j rn' :
  switchEnd yes names rn i j = Ret rn' → switched yes (λ e, nameAt names i j = Ret e) rn rn'.
Proof.
  unfold switchEnd. intros (e & He & [= <-])%bind_Ret. eapply switched_ext; [apply switched_Enable|].
  intros x. rewrite He. naive_solver.
Qed.

(** The ends between [i] and the servers in [l]. *)
Definition between (i : nat) (l : list nat) (e : string) : Prop :=
  ∃ x, x ∈ l ∧ (nameAt names i x = Ret e ∨ nameAt names x i = Ret e).

Lemma between_split i l e :
  between i l e ↔ (∃ x, x ∈ l ∧ nameAt names i x = Ret e) ∨ (∃ x, x ∈ l ∧ nameAt names x i = Ret e).
Proof. unfold between. naive_solver. Qed.

Lemma connectUnlocked_spec rn i to :
  (i < n)%nat → (∀ x, x ∈ to → (x < n)%nat) →
  ∃ rn', connectUnlocked names rn i to = Ret rn' ∧ switched true (between i to) rn rn'.
Proof.
  intros Hi Hto. unfold connectUnlocked.
  destruct (loop_total (λ rn x, switchEnd true names rn i x) rn to) as [rn1 H1].
  { intros rn0 x Hx. apply switchEnd_total; auto. }
  destruct (loop_total (λ rn x, switchEnd true names rn x i) rn1 to) as [rn2 H2].
  { intros rn0 x Hx. apply switchEnd_total; auto. }
  rewrite H1. cbn. exists rn2. split; [done|]. eapply switched_trans.
  - eapply (loop_switched true); [|exact H1]. intros rn0 x rn' _. apply switchEnd_switched.
  - eapply (loop_switched true); [|exact H2]. intros rn0 x rn' _. apply switchEnd_switched.
  - apply between_split.
Qed.

Lemma disconnectUnlocked_spec rn i from :
  (i < n)%nat → (∀ x, x ∈ from → (x < n)%nat) → (length from <= n)%nat →
  ∃ rn', disconnectUnlocked names rn i from = Ret rn' ∧ switched false (between i from) rn rn'.
Proof.
  intros Hi Hfrom Hlen. unfold disconnectUnlocked.
  destruct (fn_row Hfull i Hi) as (l & Hl & _). rewrite (proj2 (nth_get_Ret _ _ _) Hl). cbn.
  destruct (loop_total (λ rn x, switchEnd false names rn i x) rn from) as [rn1 H1].
  { intros rn0 x Hx. apply switchEnd_total; auto. }
  rewrite H1. cbn.
  assert (∀ j x, (j, x) ∈ imap pair from → x ∈ from ∧ ∃ l, names !! j = Some (Some l)) as Hrow.
  { intros j x [k Hk]%list_elem_of_lookup. rewrite list_lookup_imap in Hk.
    apply fmap_Some in Hk as (y & Hy & [= -> ->]). split; [by eapply list_elem_of_lookup_2|].
    destruct (fn_row Hfull k) as (l' & Hl' & _); [apply lookup_lt_Some in Hy; lia|]. by exists l'. }
  match goal with |- context [loop ?f rn1 _] => set (g := f) end.
  destruct (loop_total g rn1 (imap pair from)) as [rn2 H2].
  { intros rn0 [j x] Hx. destruct (Hrow j x Hx) as (Hin & l' & Hl'). unfold g.
    rewrite (proj2 (nth_get_Ret _ _ _) Hl'). cbn. apply switchEnd_total; auto. }
  exists rn2. split; [done|]. eapply switched_trans.
  - eapply (loop_switched false); [|exact H1]. intros rn0 x rn' _. apply switchEnd_switched.
  - eapply (loop_switched false _ (λ '(_, x) e, nameAt names x i = Ret e)); [|exact H2].
    intros rn0 [j x] rn' Hx. destruct (Hrow j x Hx) as (_ & l' & Hl'). unfold g.
    rewrite (proj2 (nth_get_Ret _ _ _) Hl'). cbn. apply switchEnd_switched.
  - intros e. rewrite between_split. apply or_iff_compat_l. split.
    + intros (x & [k Hk]%list_elem_of_lookup & He). exists (k, x). split; [|done].
      apply list_elem_of_lookup. exists k. by rewrite list_lookup_imap, Hk.
    + intros ([j x] & Hx & He). exists x. split; [by apply (Hrow j x)|done].
Qed.

(** In terms of the servers at the two ends. *)
Lemma between_names i l x y e :
  nameAt names x y = Ret e → between i l e ↔ (x = i ∧ y ∈ l) ∨ (y = i ∧ x ∈ l).
Proof.
  intros He. split.
  - intros (z & Hz & [H|H]); destruct (fn_inj Hfull _ _ _ _ _ He H) as [-> ->]; auto.
  - intros [[-> Hy]|[-> Hx]]; [exists y|exists x]; auto.
Qed.

(** One side of a partition is connected in itself and cut off from the other. *)
Lemma splitOff_spec rn p q :
  (∀ x, x ∈ p → (x < n)%nat) → (∀ x, x ∈ q → (x < n)%nat) → (length q <= n)%nat → (∀ x, x ∈ p → x ∉ q) →
  ∃ rn', splitOff names rn p q = Ret rn' ∧
    ∀ x y e, nameAt names x y = Ret e →
      on rn' e ↔ (x ∈ p ∧ y ∈ p) ∨ (on rn e ∧ ¬ ((x ∈ p ∧ y ∈ q) ∨ (y ∈ p ∧ x ∈ q))).
Proof.
  intros Hp Hq Hlen Hdis.
  assert (∀ l rn, (∀ x, x ∈ l → x ∈ p) → ∃ rn',
    loop (λ rn a, rn ← disconnectUnlocked names rn a q; connectUnlocked names rn a p) rn l = Ret rn' ∧
    ∀ x y e, nameAt names x y = Ret e →
      on rn' e ↔ ((x ∈ l ∧ y ∈ p) ∨ (y ∈ l ∧ x ∈ p)) ∨
                 (on rn e ∧ ¬ ((x ∈ l ∧ y ∈ q) ∨ (y ∈ l ∧ x ∈ q)))) as Hloop.
  { clear rn. induction l as [|a l IH]; intros rn Hl; cbn.
    { exists rn. split; [done|]. intros x y e He. set_solver. }
    assert (a ∈ p) as Ha by (apply Hl; left).
    destruct (disconnectUnlocked_spec rn a q) as (rn1 & -> & S1); [auto..|]. cbn.
    destruct (connectUnlocked_spec rn1 a p) as (rn2 & -> & S2); [auto..|]. cbn.
    destruct (IH rn2) as (rn3 & -> & S3); [intros x Hx; apply Hl; by right|]. exists rn3. split; [done|].
    intros x y e He. rewrite (S3 x y e He), (sw_on _ _ _ _ S2), (sw_on _ _ _ _ S1).
    rewrite !(between_names _ _ _ _ _ He), !elem_of_cons.
    assert (∀ z, z ∈ l → z ∈ p) as Hl' by (intros z Hz; apply Hl; by right).
    pose proof (Hdis x) as Dx. pose proof (Hdis y) as Dy. pose proof (Hl' x) as Lx. pose proof (Hl' y) as Ly.
    destruct (decide (x = a)) as [->|Nx], (decide (y = a)) as [->|Ny]; tauto. }
  destruct (Hloop p rn (λ x H, H)) as (rn' & H & Hon). exists rn'. split; [done|].
  intros x y e He. rewrite (Hon x y e He). tauto.
Qed.
End names.

Section theorems.
Context {RV SV S : Type}.
Implicit Types (cfg : config (RV := RV) (SV := SV) (S := S)) (i j : nat).

(** A partition into disjoint parts succeeds when all servers have been started;
    afterwards two servers of one part reach each other, servers of different parts
    do not, and the ends of servers outside are as before. *)
Theorem partition_spec cfg p1 p2 :
  fullNames (endnames cfg) (cn cfg) → NoDup (p1 ++ p2) → (∀ x, x ∈ p1 ++ p2 → (x < cn cfg)%nat) →
  ∃ cfg', partition cfg p1 p2 = Ret cfg' ∧ endnames cfg' = endnames cfg ∧
    ∀ x y e, nameAt (endnames cfg) x y = Ret e →
      ((x ∈ p1 ∧ y ∈ p1) ∨ (x ∈ p2 ∧ y ∈ p2) → on (cnet cfg') e) ∧
      ((x ∈ p1 ∧ y ∈ p2) ∨ (x ∈ p2 ∧ y ∈ p1) → ¬ on (cnet cfg') e) ∧
      ((x ∉ p1 ++ p2) ∨ (y ∉ p1 ++ p2) → on (cnet cfg') e ↔ on (cnet cfg) e).
Proof.
  intros Hfull (Hnd1 & Hdis & Hnd2)%NoDup_app Hlt. setoid_rewrite elem_of_app in Hlt.
  assert (∀ l, NoDup l → (∀ x, x ∈ l → (x < cn cfg)%nat) → (length l <= cn cfg)%nat) as Hlen.
  { intros l Hnd Hl. rewrite <- (length_seq (cn cfg) 0). apply submseteq_length, NoDup_submseteq; [done|].
    intros x Hx%Hl. apply elem_of_seq. lia. }
  unfold partition.
  destruct (splitOff_spec _ _ Hfull (cnet cfg) p1 p2) as (rn1 & -> & H1); [auto..|]. cbn.
  destruct (splitOff_spec _ _ Hfull rn1 p2 p1) as (rn2 & -> & H2); [auto..|by intros x ? ?%Hdis|]. cbn.
  eexists. split; [done|]. split; [done|]. intros x y e He. cbn. rewrite (H2 x y e He), (H1 x y e He), !not_elem_of_app.
  pose proof (Hdis x). pose proof (Hdis y). tauto.
Qed.

(** ** Choosing the parts *)

(** [p1] and [p2] after the servers [ys] were placed. *)
Definition placed (k : nat) (ys : list nat) : list nat * list nat * nat :=
  (take (k + 1) ys ++ replicate (k + 1 - length ys) 0%nat,
   drop (k + 1) ys ++ replicate (k - (length ys - (k + 1))) 0%nat, length ys).

Lemma place_placed l k ys i :
  i ≠ l → (length ys < 2 * k + 1)%nat → place l (placed k ys) i = Ret (placed k (ys ++ [i])).
Proof.
  intros Hne Hlt. unfold place, placed. rewrite decide_False by done.
  assert (length (take (k + 1) ys ++ replicate (k + 1 - length ys) 0%nat) = (k + 1)%nat) as E1.
  { rewrite length_app, length_take, length_replicate. lia. }
  rewrite E1, !length_app. cbn [length]. destruct (Nat.ltb_spec (length ys) (k + 1)) as [Hs|Hs].
  - do 3 f_equal.
    + rewrite !take_ge by (rewrite ?length_app; cbn; lia). rewrite insert_app_r_alt, Nat.sub_diag by lia.
      replace (k + 1 - length ys)%nat with (Datatypes.S (k + 1 - (length ys + 1)))%nat by lia. cbn. by rewrite <- (assoc_L (++)).
    + rewrite !drop_ge by (rewrite ?length_app; cbn; lia). cbn. do 2 f_equal. lia.
  - assert (length (drop (k + 1) ys) = (length ys - (k + 1))%nat) as E2 by (rewrite length_drop; lia).
    assert (k - (length ys - (k + 1)) = Datatypes.S (k - (length ys + 1 - (k + 1))))%nat as -> by lia. cbn [replicate].
    rewrite (proj2 (nth_get_Ret _ _ 0%nat)) by (rewrite lookup_app_r, E2, Nat.sub_diag by lia; done). cbn.
    do 3 f_equal.
    + rewrite take_app_le by lia. do 2 f_equal. lia.
    + rewrite drop_app_le by lia. rewrite insert_app_r_alt, E2, Nat.sub_diag by lia. cbn. by rewrite <- (assoc_L (++)).
Qed.

Lemma place_skip l st : place l st l = Ret st.
Proof. destruct st as [[p1 p2] j]. unfold place. by rewrite decide_True. Qed.

Lemma placed_nil k : placed k [] = (replicate (k + 1) 0%nat, replicate k 0%nat, 0%nat).
Proof. unfold placed. by rewrite take_nil, drop_nil, Nat.sub_0_r, Nat.sub_0_r. Qed.

Lemma place_loop l k xs ys :
  (length (ys ++ filter (.≠ l) xs) <= 2 * k + 1)%nat →
  loop (place l) (placed k ys) xs = Ret (placed k (ys ++ filter (.≠ l) xs)).
Proof.
  revert ys. induction xs as [|x xs IH]; intros ys Hlen; cbn [loop].
  { by rewrite filter_nil, app_nil_r. }
  destruct (decide (x = l)) as [->|Hne].
  - rewrite filter_cons_False in * by naive_solver. rewrite place_skip. by apply IH.
  - rewrite filter_cons_True in * by done. rewrite length_app in Hlen. cbn in Hlen.
    rewrite place_placed by (done || lia). cbn [mbind outcome_bind]. rewrite IH by (rewrite !length_app; cbn; lia).
    by rewrite <- (assoc_L (++)).
Qed.

(** Of an odd number of servers the first part is a majority; the second one holds
    the others, the given one last. *)
Lemma partsAround_spec n k l :
  n = (2 * k + 1)%nat → (0 < k)%nat → (l < n)%nat →
  ∃ p1 p2, partsAround n l = Ret (p1, p2) ∧
    length p1 = (k + 1)%nat ∧ length p2 = k ∧ p1 ++ p2 ≡ₚ seq 0 n ∧ l ∈ p2.
Proof.
  intros Hn Hk Hl. unfold partsAround.
  set (xs := seq 0 (n)). set (ys := filter (.≠ l) xs).
  assert (l :: ys ≡ₚ xs) as Hperm.
  { unfold ys. assert (l ∈ xs) as Hin by (apply elem_of_seq; lia).
    apply elem_of_Permutation in Hin as [zs Hzs]. assert (l ∉ zs) as Hnot.
    { pose proof (NoDup_seq 0 (n)) as Hnd. fold xs in Hnd. rewrite Hzs in Hnd. by apply NoDup_cons in Hnd as [? _]. }
    rewrite Hzs. f_equiv. rewrite filter_cons_False by naive_solver. rewrite filter_all_in; [done|]. by intros x Hx ->. }
  assert (length ys = (2 * k)%nat) as Hys.
  { apply Permutation_length in Hperm. cbn in Hperm. unfold xs in Hperm. rewrite length_seq in Hperm. lia. }
  assert (n / 2 = k)%nat as -> by (rewrite Hn; symmetry; apply (Nat.div_unique _ 2 k 1); lia).
  pose proof (place_loop l k xs []) as Hloop. rewrite app_nil_l in Hloop. fold ys in Hloop.
  rewrite <- placed_nil, Hloop by lia. unfold placed. cbn [mbind outcome_bind].
  rewrite Hys. replace (k - (2 * k - (k + 1)))%nat with 1%nat by lia. replace (k + 1 - 2 * k)%nat with 0%nat by lia.
  rewrite app_nil_r.
  assert (length (drop (k + 1) ys) = (k - 1)%nat) as Hd by (rewrite length_drop; lia).
  exists (take (k + 1) ys), (drop (k + 1) ys ++ [l]). split_and!.
  - replace (length (drop (k + 1) ys ++ replicate 1 0%nat) - 1)%nat with (length (drop (k + 1) ys) + 0)%nat
      by (rewrite length_app; cbn; lia).
    rewrite insert_app_r. by destruct (drop (k + 1) ys).
  - rewrite length_take. lia.
  - rewrite length_app. cbn. lia.
  - by rewrite (assoc_L (++)), take_drop, Permutation_app_comm.
  - set_solver.
Qed.

(** The leader is in the smaller part. *)
Theorem make_partition_spec (serverState : S → Z * bool) cfg k b l :
  cn cfg = (2 * k + 1)%nat → (0 < k)%nat → Leader serverState cfg = Ret (b, l) → (l < cn cfg)%nat →
  ∃ p1 p2, make_partition serverState cfg = Ret (p1, p2) ∧
    length p1 = (k + 1)%nat ∧ length p2 = k ∧ p1 ++ p2 ≡ₚ seq 0 (cn cfg) ∧ l ∈ p2.
Proof. intros Hn Hk HL Hl. unfold make_partition. rewrite HL. by apply partsAround_spec. Qed.

(** ** Restarts *)
Context (startServer : nat → Z → Persister RV SV → outcome S).

Lemma freshEnds_loop (prs : list (nat * string)) rn rn' :
  loop (λ rn '(j, e), rn ← MakeEnd rn e; Ret (Connect rn e j)) rn prs = Ret rn' →
  NoDup prs.*2 ∧ (∀ e, e ∈ prs.*2 → e ∉ ends rn) ∧ (∀ e, e ∈ ends rn' ↔ e ∈ ends rn ∨ e ∈ prs.*2) ∧
  (∀ e, on rn' e ↔ on rn e ∧ e ∉ prs.*2) ∧
  (∀ j e, (j, e) ∈ prs → connections rn' !! e = Some (Some j)) ∧
  (∀ e, e ∉ prs.*2 → connections rn' !! e = connections rn !! e).
Proof.
  revert rn. induction prs as [|[j e] prs IH]; intros rn H; cbn in H.
  { injection H as <-. split_and!; try done; try constructor; set_solver. }
  apply bind_Ret in H as (rn1 & H1 & H). apply bind_Ret in H1 as (rn2 & Hm & [= <-]). unfold MakeEnd in Hm.
  destruct (decide (e ∈ ends rn)) as [|Hfresh]; [done|]. injection Hm as <-.
  destruct (IH _ H) as (R1 & R2 & R3 & R4 & R5 & R6). cbn in *.
  assert (e ∉ prs.*2) as Hnew by (intros He%R2; set_solver). split_and!.
  - by apply NoDup_cons.
  - intros x [->|Hx]%elem_of_cons; [done|]. apply R2 in Hx. set_solver.
  - intros x. rewrite R3. set_solver.
  - intros x. rewrite R4. unfold on. cbn. rewrite not_elem_of_cons. destruct (decide (x = e)) as [->|Hne].
    + rewrite lookup_insert_eq. naive_solver.
    + rewrite lookup_insert_ne by done. tauto.
  - intros k x [[= -> ->]|Hx]%elem_of_cons; [|by apply R5]. rewrite R6 by done. by rewrite lookup_insert_eq.
  - intros x [Hne Hx]%not_elem_of_cons. rewrite R6 by done. by rewrite !lookup_insert_ne by done.
Qed.

Lemma imap_pair_snd {A} (l : list A) : (imap pair l).*2 = l.
Proof.
  apply list_eq. intros k. rewrite list_lookup_fmap, list_lookup_imap. by destruct (l !! k).
Qed.

Lemma nameAt_Ret rows i j e : nameAt rows i j = Ret e ↔ ∃ l, rows !! i = Some (Some l) ∧ l !! j = Some e.
Proof.
  unfold nameAt. split.
  - intros ([l|] & Hl%nth_get_Ret & H)%bind_Ret; [|done]. apply nth_get_Ret in H. by exists l.
  - intros (l & Hl & H). apply nth_get_Ret in Hl. rewrite Hl. cbn. by apply nth_get_Ret.
Qed.

(** The names of the ends differ, and the network knows them. *)
Record distinctNames (rows : list (option (list string))) (known : gset string) : Prop := {
  dn_inj i j i' j' e : nameAt rows i j = Ret e → nameAt rows i' j' = Ret e → i = i' ∧ j = j';
  dn_known i j e : nameAt rows i j = Ret e → e ∈ known;
}.

Lemma nameAt_insert rows i names a b e :
  (i < length rows)%nat →
  nameAt (<[i := Some names]> rows) a b = Ret e ↔
  (a = i ∧ names !! b = Some e) ∨ (a ≠ i ∧ nameAt rows a b = Ret e).
Proof.
  intros Hi. rewrite !nameAt_Ret. destruct (decide (a = i)) as [->|Hne].
  - rewrite list_lookup_insert_eq by done. naive_solver.
  - rewrite list_lookup_insert_ne by done. naive_solver.
Qed.

Lemma distinctNames_insert rows known i names known' :
  distinctNames rows known → (i < length rows)%nat → NoDup names → (∀ e, e ∈ names → e ∉ known) →
  (∀ e, e ∈ known' ↔ e ∈ known ∨ e ∈ names) → distinctNames (<[i := Some names]> rows) known'.
Proof.
  intros [Hinj Hkn] Hi Hnd Hfresh Hk'.
  assert (∀ b e, names !! b = Some e → e ∈ names) as Hin by (intros b e; apply list_elem_of_lookup_2). constructor.
  - intros a b a' b' e [[-> He]|[Hne He]]%nameAt_insert [[-> He']|[Hne' He']]%nameAt_insert; try done.
    + split; [done|]. by eapply NoDup_lookup.
    + by destruct (Hfresh e (Hin _ _ He) (Hkn _ _ _ He')).
    + by destruct (Hfresh e (Hin _ _ He') (Hkn _ _ _ He)).
    + by eapply Hinj.
  - intros a b e [[-> He]|[Hne He]]%nameAt_insert; [|apply Hk'; left; by eapply Hkn|done]. apply Hk'. right. by eapply Hin.
Qed.

Lemma StartServer_names cfg i names cfg' :
  distinctNames (endnames cfg) (ends (cnet cfg)) → StartServer startServer cfg i names = Ret cfg' →
  cn cfg' = cn cfg ∧ endnames cfg' = <[i := Some names]> (endnames cfg) ∧
  distinctNames (endnames cfg') (ends (cnet cfg')) ∧ (i < length (endnames cfg))%nat ∧
  (∀ e, on (cnet cfg') e ↔ on (cnet cfg) e ∧ e ∉ names) ∧ (∀ e, e ∈ names → e ∉ ends (cnet cfg)) ∧
  (∀ j e, names !! j = Some e → connections (cnet cfg') !! e = Some (Some j)).
Proof.
  intros Hd H. unfold StartServer in H. apply bind_Ret in H as (row & Hrow%nth_get_Ret & H). cbn in H.
  apply bind_Ret in H as (rn & E & H). apply bind_Ret in H as (old & _ & H).
  apply bind_Ret in H as (kv & _ & [= <-]). cbn.
  apply freshEnds_loop in E as (R1 & R2 & R3 & R4 & R5 & R6). rewrite imap_pair_snd in *.
  apply lookup_lt_Some in Hrow. split_and!; try done.
  - by eapply distinctNames_insert.
  - intros j e He. apply R5. apply list_elem_of_lookup. exists j. by rewrite list_lookup_imap, He.
Qed.

(** All servers of a test have their ends. *)
Lemma make_config_full n unreliable names cfg :
  (∀ i, length (names i) = n) → make_config startServer n unreliable names = Ret cfg →
  fullNames (endnames cfg) (cn cfg) ∧ cn cfg = n ∧ distinctNames (endnames cfg) (ends (cnet cfg)).
Proof.
  intros Hlen H. unfold make_config in H. apply bind_Ret in H as (c1 & H1 & H).
  assert (∀ k c, (k <= n)%nat → loop (λ cfg i, StartServer startServer cfg i (names i)) (newConfig n) (seq 0 k) = Ret c →
    cn c = n ∧ length (endnames c) = n ∧ distinctNames (endnames c) (ends (cnet c)) ∧
    ∀ i, (i < k)%nat → ∃ l, endnames c !! i = Some (Some l) ∧ length l = n) as Hloop.
  { induction k as [|k IH]; intros c Hk Hc.
    - injection Hc as <-. split_and!; [done|apply length_replicate| |lia].
      constructor; [intros i j i' j' e|intros i j e]; intros (l & Hl & _)%nameAt_Ret; cbn in Hl; by apply lookup_replicate in Hl as [? _].
    - rewrite seq_S, loop_app in Hc. apply bind_Ret in Hc as (c0 & Hc0 & Hc).
      destruct (IH c0 ltac:(lia) Hc0) as (E1 & E2 & Hd & Hrows). cbn in Hc. apply bind_Ret in Hc as (c2 & Hst & [= ->]).
      destruct (StartServer_names _ _ _ _ Hd Hst) as (F1 & F2 & F3 & F4 & _). rewrite F1, F2, length_insert.
      split_and!; [done|done|by rewrite <- F2|]. intros i Hi. destruct (decide (i = k)) as [->|Hne].
      + exists (names k). by rewrite list_lookup_insert_eq.
      + rewrite list_lookup_insert_ne by done. apply Hrows. lia. }
  destruct (Hloop n c1 ltac:(lia) H1) as (E1 & E2 & Hd & Hrows). clear Hloop H1.
  apply bind_Ret in H as (c2 & H2 & [= <-]). unfold ConnectAll in H2. apply bind_Ret in H2 as (rn & Hrn & [= <-]). cbn.
  assert (fullNames (endnames c1) (cn c1)) as Hfull.
  { rewrite E1. constructor; [done|done|apply Hd]. }
  split_and!; [done|done|].
  assert (ends rn = ends (cnet c1)) as ->; [|done].
  eapply (loop_inv (λ r, ends r = ends (cnet c1)) _ _ _ _ Hrn); [done|]. intros r i r' Hi Hr Hc.
  apply elem_of_seq in Hi. destruct (connectUnlocked_spec _ _ Hfull r i (All c1)) as (r2 & Hr2 & [S1 _ _ _]); [lia| |].
  { intros x Hx. apply elem_of_seq in Hx. lia. }
  rewrite Hr2 in Hc. injection Hc as <-. congruence.
Qed.

(** A server that is shut down and started again gets ends of its own that are not
    enabled; those of the instance before it, and those that lead to the server,
    are disabled, and no name is used twice. *)
Theorem restart_isolates cfg i names cfg1 cfg2 :
  fullNames (endnames cfg) (cn cfg) → distinctNames (endnames cfg) (ends (cnet cfg)) →
  length names = cn cfg → (i < cn cfg)%nat →
  ShutdownServer cfg i = Ret cfg1 → StartServer startServer cfg1 i names = Ret cfg2 →
  fullNames (endnames cfg2) (cn cfg2) ∧
  (∀ j e, nameAt (endnames cfg) i j = Ret e ∨ nameAt (endnames cfg) j i = Ret e → ¬ on (cnet cfg2) e) ∧
  (∀ j e, nameAt (endnames cfg2) i j = Ret e →
     (e ∉ ends (cnet cfg)) ∧ ¬ on (cnet cfg2) e ∧ connections (cnet cfg2) !! e = Some (Some j)).
Proof.
  intros Hfull Hd Hlen Hi H1 H2. unfold ShutdownServer, disconnect in H1.
  destruct (disconnectUnlocked_spec _ _ Hfull (cnet cfg) i (All cfg) Hi) as (rn1 & E1 & [S1 S2 _ S3]).
  { intros x Hx. apply elem_of_seq in Hx. lia. }
  { unfold All. by rewrite length_seq. }
  rewrite E1 in H1. cbn in H1. apply bind_Ret in H1 as (ps & _ & H1). apply bind_Ret in H1 as (kv & _ & [= <-]).
  apply StartServer_names in H2 as (F1 & F2 & F3 & F4 & F5 & F6 & F7); cbn in *; [|by rewrite S1].
  rewrite S1 in F6. rewrite F1, F2. pose proof (fn_length _ _ Hfull) as Hrows. split_and!.
  - constructor.
    + by rewrite length_insert.
    + intros x Hx. destruct (decide (x = i)) as [->|Hne].
      * exists names. by rewrite list_lookup_insert_eq.
      * rewrite list_lookup_insert_ne by done. by apply (fn_row _ _ Hfull).
    + rewrite <- F2. apply F3.
  - intros j e He [Ho _]%F5. apply S3 in Ho as [_ Hno]. apply Hno. exists j. split; [|done]. apply elem_of_seq.
    destruct He as [(l & Hl & Hj)%nameAt_Ret|(l & Hl & Hj)%nameAt_Ret].
    + destruct (fn_row _ _ Hfull i Hi) as (l' & Hl' & Hn). simplify_eq. apply lookup_lt_Some in Hj. lia.
    + apply lookup_lt_Some in Hl. lia.
  - intros j e [[_ He]|[? _]]%nameAt_insert; [|done|done].
    assert (e ∈ names) as Hin by (by eapply list_elem_of_lookup_2). split_and!; [by apply F6| |by apply F7].
    by intros [_ ?]%F5.
Qed.

(** ** A test that has been set up *)

Lemma freshEnds_total (prs : list (nat * string)) (rn : Network (E := string) (N := nat)) :
  NoDup prs.*2 → (∀ e, e ∈ prs.*2 → e ∉ ends rn) →
  is_Ret (loop (λ rn '(j, e), rn ← MakeEnd rn e; Ret (Connect rn e j)) rn prs).
Proof.
  revert rn. induction prs as [|[j e] prs IH]; intros rn Hnd Hf; cbn [loop]; [by eexists|].
  rewrite fmap_cons in Hnd, Hf. apply NoDup_cons in Hnd as [He Hnd].
  assert (e ∉ ends rn) as Hn by (apply Hf; by left). 
  assert (∃ rn1, MakeEnd rn e = Ret rn1 ∧ ends rn1 = {[e]} ∪ ends rn) as (rn1 & -> & E1).
  { unfold MakeEnd. rewrite decide_False by done. by eexists. }
  cbn [mbind outcome_bind]. apply IH; [done|]. intros x Hx. cbn. rewrite E1, not_elem_of_union, not_elem_of_singleton.
  split; [by intros ->|apply Hf; by right].
Qed.

(** All ends are switched on, nothing else changes. *)
Lemma ConnectAll_on cfg :
  fullNames (endnames cfg) (cn cfg) →
  ∃ rn, ConnectAll cfg = Ret (set_net rn cfg) ∧ connections rn = connections (cnet cfg) ∧ servers rn = servers (cnet cfg) ∧
    ∀ i j e, nameAt (endnames cfg) i j = Ret e → on rn e.
Proof.
  intros Hfull. unfold ConnectAll. set (f := λ rn i, connectUnlocked (endnames cfg) rn i (All cfg)).
  assert (∀ rn i, i ∈ seq 0 (cn cfg) → ∃ rn', f rn i = Ret rn' ∧ switched true (between (endnames cfg) i (All cfg)) rn rn') as Hf.
  { intros rn i Hi%elem_of_seq. apply (connectUnlocked_spec _ _ Hfull); [lia|]. intros x Hx%elem_of_seq. lia. }
  destruct (loop_total f (cnet cfg) (seq 0 (cn cfg))) as [rn Hrn].
  { intros rn i Hi. destruct (Hf rn i Hi) as (rn' & -> & _). by eexists. }
  rewrite Hrn. exists rn. split; [done|].
  pose proof (loop_switched true f (λ i, between (endnames cfg) i (All cfg)) (cnet cfg) (seq 0 (cn cfg)) rn) as [S1 S2 S3 S4]; [|done|].
  { intros r i r' Hi Hr. destruct (Hf r i Hi) as (r2 & Hr2 & Hsw). unfold f in *. congruence. }
  split_and!; [done..|]. intros i j e He. apply S4. right. pose proof He as (l & Hl & Hj)%nameAt_Ret.
  assert (i < cn cfg)%nat as Hi by (rewrite <- (fn_length _ _ Hfull); by eapply lookup_lt_Some).
  destruct (fn_row _ _ Hfull i Hi) as (l' & Hl' & Hlen). assert (l' = l) as -> by congruence.
  apply lookup_lt_Some in Hj. exists i. split; [apply elem_of_seq; lia|]. exists j. split; [apply elem_of_seq; lia|by left].
Qed.

(** The first [k] servers have been started. *)
Definition startedUpTo n (names : nat → list string) k cfg : Prop :=
  cn cfg = n ∧ distinctNames (endnames cfg) (ends (cnet cfg)) ∧ length (endnames cfg) = n ∧ length (saved cfg) = n ∧
  length (kvservers cfg) = n ∧ (∀ i, (k <= i < n)%nat → saved cfg !! i = Some None) ∧
  (∀ e, e ∈ ends (cnet cfg) → ∃ i j, (i < k)%nat ∧ names i !! j = Some e) ∧
  (∀ i, (i < k)%nat → endnames cfg !! i = Some (Some (names i)) ∧ is_Some (serverAt (cnet cfg) i)) ∧
  (∀ i j e, (i < k)%nat → names i !! j = Some e → connections (cnet cfg) !! e = Some (Some j)).

Lemma freshEnds_frame (rn rn' : Network (E := string) (N := nat)) names :
  freshEnds rn names = Ret rn' → servers rn' = servers rn.
Proof.
  intros H. unfold freshEnds in H.
  eapply (loop_inv (λ r, servers r = servers rn)) in H; [done|done|].
  intros r [j e] r' _ Hr (r2 & Hm & [= <-])%bind_Ret. unfold MakeEnd in Hm. case_decide; [done|]. by injection Hm as <-.
Qed.

Lemma StartServer_ready n names k cfg :
  (∀ me, is_Ret (startServer n me MakePersister)) →
  (∀ i j i' j' e, names i !! j = Some e → names i' !! j' = Some e → i = i' ∧ j = j') →
  (k < n)%nat → startedUpTo n names k cfg →
  ∃ cfg', StartServer startServer cfg k (names k) = Ret cfg' ∧ startedUpTo n names (Datatypes.S k) cfg'.
Proof.
  intros Hst Hinj Hk (En & Hd & L1 & L2 & L3 & Hsv & Hends & Hrows & Hconn). unfold StartServer.
  destruct (lookup_lt_is_Some_2 (endnames cfg) k) as [row Hrow]; [lia|]. rewrite (proj2 (nth_get_Ret _ _ _) Hrow). cbn.
  assert (∀ e, e ∈ names k → e ∉ ends (cnet cfg)) as Hfresh.
  { intros e [j Hj]%list_elem_of_lookup (i & j' & Hi & He)%Hends. destruct (Hinj _ _ _ _ _ Hj He). lia. }
  assert (is_Ret (freshEnds (cnet cfg) (names k))) as [rn Hrn].
  { apply freshEnds_total; rewrite imap_pair_snd; [|done]. apply NoDup_alt. intros a b e Ha Hb. by apply (Hinj k a k b e). }
  rewrite Hrn. cbn. rewrite (proj2 (nth_get_Ret _ _ _) (Hsv k ltac:(lia))). cbn.
  rewrite En. destruct (Hst (Z.of_nat k)) as [kv Hkv]. rewrite Hkv. cbn. eexists. split; [done|].
  pose proof (freshEnds_frame _ _ _ Hrn) as Es.
  apply freshEnds_loop in Hrn as (R1 & R2 & R3 & R4 & R5 & R6). rewrite imap_pair_snd in *.
  split_and!; cbn; rewrite ?length_insert; try done; try congruence.
  - by eapply distinctNames_insert; [done|lia|..].
  - intros i Hi. rewrite list_lookup_insert_ne by lia. apply Hsv. lia.
  - intros e [He|[j Hj]%list_elem_of_lookup]%R3; [|exists k, j; auto with lia].
    destruct (Hends e He) as (i & j & ? & ?). exists i, j. auto with lia.
  - intros i Hi. unfold serverAt. cbn. destruct (decide (i = k)) as [->|Hne].
    + rewrite list_lookup_insert_eq, lookup_insert_eq by lia. by eauto.
    + rewrite list_lookup_insert_ne, lookup_insert_ne, Es by done. apply Hrows. lia.
  - intros i j e Hi He. destruct (decide (i = k)) as [->|Hne].
    + apply R5, list_elem_of_lookup. exists j. by rewrite list_lookup_imap, He.
    + rewrite R6; [apply (Hconn i); [lia|done]|]. intros [j' Hj']%list_elem_of_lookup.
      by destruct (Hinj _ _ _ _ _ He Hj').
Qed.

(** A test is set up when servers start on an empty persister and no name is drawn
    twice; then every server reaches every server. *)
Lemma make_config_ready n unreliable names :
  (∀ me, is_Ret (startServer n me MakePersister)) → (∀ i, length (names i) = n) →
  (∀ i j i' j' e, names i !! j = Some e → names i' !! j' = Some e → i = i' ∧ j = j') →
  ∃ cfg, make_config startServer n unreliable names = Ret cfg ∧ fullNames (endnames cfg) (cn cfg) ∧ cn cfg = n ∧
    ∀ i j, (i < n)%nat → (j < n)%nat → ∃ e a, nameAt (endnames cfg) i j = Ret e ∧
      (readEndnameInfo (cnet cfg) e).1.1 = (true, Some j, Some a).
Proof.
  intros Hst Hlen Hinj. unfold make_config.
  destruct (loop_seq_total (startedUpTo n names) (λ cfg i, StartServer startServer cfg i (names i)) (newConfig n) n)
    as (c1 & H1 & En & Hd & L1 & _ & _ & _ & _ & Hrows & Hconn).
  - split_and!; cbn; rewrite ?length_replicate; try done; try lia.
    + constructor; [intros i j i' j' e|intros i j e]; intros (l & Hl & _)%nameAt_Ret; by apply lookup_replicate in Hl as [? _].
    + intros i Hi. apply lookup_replicate_2. lia.
  - intros k c Hk. by apply StartServer_ready.
  - rewrite H1. cbn.
    assert (fullNames (endnames c1) (cn c1)) as Hfull.
    { rewrite En. constructor; [done| |apply Hd]. intros i Hi. exists (names i). by split; [apply Hrows|]. }
    destruct (ConnectAll_on c1 Hfull) as (rn & -> & E1 & E2 & Hon). cbn. eexists. split_and!; [done..|].
    intros i j Hi Hj. destruct (lookup_lt_is_Some_2 (names i) j) as [e He]; [by rewrite Hlen|].
    assert (nameAt (endnames c1) i j = Ret e) as Hn.
    { apply nameAt_Ret. exists (names i). by split; [apply Hrows|]. }
    destruct (Hrows j Hj) as [_ [a Ha]]. exists e, a. split; [done|]. unfold readEndnameInfo, serverAt in *. cbn.
    rewrite E1, (Hconn i j e Hi He). cbn. rewrite E2, Ha. rewrite (Hon i j e Hn). done.
Qed.
End theorems.
