(* ===== verification/ShardHarness.v ===== *)
(** * ShardHarness: the tester of the sharded key/value store

    [src/src/shardkv/config.go]: three groups of servers and a configuration service
    of three servers on one simulated network.  Shard servers are a type [Srv] with
    the function that starts one, configuration servers a type [Ctl]; a server and
    its persister appear with their contents at the moment of the call, a clerk is
    known by a number in place of its address, and the names drawn by [randstring]
    are arguments.  A row of names that was not made yet ([nil]) is empty; the
    groups that [make_config] has not made yet are missing from the list, where the
    code has [nil], since both make an access panic.

    [StartServer] and [ShutdownServer] release [cfg.mu] in the middle; they are runs of
    their pieces ([startRun], [shutdownRun]) between which the goroutines of a test make
    and delete clerks and the servers make ends ([beside]).

    [servername_eq]: no two servers have the same name on the network.
    [announced_reachable]: in every state the tester gets to, a server can be called
    under the name that [join] announces exactly when it is running.
    [shutdown_spec]: which ends [ShutdownServer] turns off, and which it does not.
    [tester_needs_three]: with more than three servers in a group [make_config] panics,
    with fewer [makeClient] does. *)

From stdpp Require Import pretty.
From S2P Require Import Prelude GoStrings Labgob Persister Labrpc HarnessNet ShardCtrler ShardConfigs.
Local Open Scope Z_scope.

(** [a[i] = x]. *)
Definition nth_set {A} (l : list A) (i : nat) (x : A) : outcome (list A) :=
  if (i <? length l)%nat then Ret (<[i := x]> l) else Panic.

Definition ctrlername (i : nat) : string := "ctrler" +:+ pretty i.
Definition servername (gid : Z) (i : nat) : string := "server-" +:+ pretty gid +:+ "-" +:+ pretty i.

Abbreviation Net := (Network (E := string) (N := string)).

(** A new end to a server, enabled: what [make_end] does, and every loop that
    makes ends. *)
Definition openEnd (rn : Net) (name server : string) : outcome Net :=
  rn ← MakeEnd rn name;
  Ret (Enable (Connect rn name server) name true).

(** The loop that makes [k] ends, the [j]-th to the [j]-th of the servers. *)
Definition openEnds (rn : Net) (names : nat → string) (server : nat → string) (k : nat) : outcome Net :=
  loop (λ (rn : Net) (j : nat), openEnd rn (names j) (server j)) rn (seq 0 k).

Definition disableAll (rn : Net) (l : list string) : Net := foldl (λ rn name, Enable rn name false) rn l.

Section config.
Context {RV SV Srv Ctl : Type} `{!GobSize RV} `{!GobSize SV}.
(** [StartServer(servers, me, persister, maxraftstate, gid)] of shardkv, and
    [StartServer(servers, me, persister)] of shardctrler. *)
Context (startServer : nat → Z → Persister RV SV → Z → Z → outcome Srv).
Context (startCtrler : nat → Z → outcome Ctl) (killCtrler : Ctl → Ctl).

Record group := mkGroup {
  gid : Z;
  gservers : list (option Srv);
  saved : list (option (Persister RV SV));
  endnames : list (list string);
  mendnames : list (list string);
}.

Record config := mkConfig {
  cnet : Net;
  nctrlers : nat;
  ctrlerservers : list (option Ctl);
  mck : option Clerk;
  ngroups : nat;
  cn : nat;
  groups : list group;
  clerks : gmap nat (list string);
  nextClientId : Z;
  cmaxraftstate : Z;
  nextServer : nat;
}.
Implicit Types (cfg : config) (gg : group) (gi i j : nat).

Definition set_net rn cfg : config :=
  mkConfig rn (nctrlers cfg) (ctrlerservers cfg) (mck cfg) (ngroups cfg) (cn cfg) (groups cfg) (clerks cfg)
    (nextClientId cfg) (cmaxraftstate cfg) (nextServer cfg).
Definition set_groups ggs cfg : config :=
  mkConfig (cnet cfg) (nctrlers cfg) (ctrlerservers cfg) (mck cfg) (ngroups cfg) (cn cfg) ggs (clerks cfg)
    (nextClientId cfg) (cmaxraftstate cfg) (nextServer cfg).
Definition set_ctrlers cs cfg : config :=
  mkConfig (cnet cfg) (nctrlers cfg) cs (mck cfg) (ngroups cfg) (cn cfg) (groups cfg) (clerks cfg)
    (nextClientId cfg) (cmaxraftstate cfg) (nextServer cfg).
Definition set_mck ck cfg : config :=
  mkConfig (cnet cfg) (nctrlers cfg) (ctrlerservers cfg) (Some ck) (ngroups cfg) (cn cfg) (groups cfg) (clerks cfg)
    (nextClientId cfg) (cmaxraftstate cfg) (nextServer cfg).
Definition set_clerks cks next cfg : config :=
  mkConfig (cnet cfg) (nctrlers cfg) (ctrlerservers cfg) (mck cfg) (ngroups cfg) (cn cfg) (groups cfg) cks
    next (cmaxraftstate cfg) (nextServer cfg).
(** [labrpc.MakeServer] and [net.AddServer]: the server gets an address. *)
Definition addServer name cfg : config :=
  mkConfig (AddServer (cnet cfg) name (nextServer cfg)) (nctrlers cfg) (ctrlerservers cfg) (mck cfg) (ngroups cfg)
    (cn cfg) (groups cfg) (clerks cfg) (nextClientId cfg) (cmaxraftstate cfg) (S (nextServer cfg)).

(** ** Servers of a group *)

(** [gg.saved[i].Copy()], or a new persister. *)
Definition freshPersister (old : option (Persister RV SV)) : Persister RV SV :=
  match old with Some ps => Copy ps | None => MakePersister end.

(** [StartServer] releases [cfg.mu] before it starts the instance: the section under the
    lock, the assignment of [gg.servers[i]], and [cfg.net.AddServer]. *)
Definition startLocked cfg gi i (names mnames : nat → string) : outcome config :=
  gg ← nth_get (groups cfg) gi;
  es ← nth_set (endnames gg) i (names <$> seq 0 (cn cfg));
  rn ← openEnds (cnet cfg) names (servername (gid gg)) (cn cfg);
  ms ← nth_set (mendnames gg) i (mnames <$> seq 0 (nctrlers cfg));
  rn ← openEnds rn mnames ctrlername (nctrlers cfg);
  old ← nth_get (saved gg) i;
  let gg := mkGroup (gid gg) (gservers gg) (<[i := Some (freshPersister old)]> (saved gg)) es ms in
  Ret (set_groups (<[gi := gg]> (groups cfg)) (set_net rn cfg)).

Definition startInstance cfg gi i : outcome config :=
  gg ← nth_get (groups cfg) gi;
  ps ← nth_get (saved gg) i;
  match ps with
  | None => Panic
  | Some ps =>
      kv ← startServer (cn cfg) (Z.of_nat i) ps (cmaxraftstate cfg) (gid gg);
      ss ← nth_set (gservers gg) i (Some kv);
      Ret (set_groups (<[gi := mkGroup (gid gg) ss (saved gg) (endnames gg) (mendnames gg)]> (groups cfg)) cfg)
  end.

Definition registerServer cfg gi i : outcome config :=
  gg ← nth_get (groups cfg) gi; Ret (addServer (servername (gid gg) i) cfg).

Definition StartServer cfg gi i (names mnames : nat → string) : outcome config :=
  cfg ← startLocked cfg gi i names mnames; cfg ← startInstance cfg gi i; registerServer cfg gi i.

(** [ShutdownServer] releases [cfg.mu] while it kills the instance: the section before,
    whose first loop indexes the row of the server for each server of the group, and
    [gg.servers[i] = nil]. *)
Definition shutdownCut cfg gi i : outcome config :=
  gg ← nth_get (groups cfg) gi;
  rn ← loop (λ (rn : Net) (j : nat),
         row ← nth_get (endnames gg) i;
         name ← nth_get row j;
         Ret (Enable rn name false)) (cnet cfg) (seq 0 (length (gservers gg)));
  mrow ← nth_get (mendnames gg) i;
  let rn := disableAll rn mrow in
  let rn := DeleteServer rn (servername (gid gg) i) in
  old ← nth_get (saved gg) i;
  let gg := mkGroup (gid gg) (gservers gg) (<[i := option_map Copy old]> (saved gg)) (endnames gg) (mendnames gg) in
  Ret (set_groups (<[gi := gg]> (groups cfg)) (set_net rn cfg)).

Definition shutdownNil cfg gi i : outcome config :=
  gg ← nth_get (groups cfg) gi;
  ss ← nth_set (gservers gg) i None;
  Ret (set_groups (<[gi := mkGroup (gid gg) ss (saved gg) (endnames gg) (mendnames gg)]> (groups cfg)) cfg).

Definition ShutdownServer cfg gi i : outcome config :=
  cfg ← shutdownCut cfg gi i; shutdownNil cfg gi i.

Definition ShutdownGroup cfg gi : outcome config :=
  loop (λ cfg i, ShutdownServer cfg gi i) cfg (seq 0 (cn cfg)).

Definition StartGroup cfg gi (names mnames : nat → nat → string) : outcome config :=
  loop (λ cfg i, StartServer cfg gi i (names i) (mnames i)) cfg (seq 0 (cn cfg)).

(** ** The configuration service *)

Definition StartCtrlerserver cfg i (names : nat → string) : outcome config :=
  rn ← openEnds (cnet cfg) names ctrlername (nctrlers cfg);
  sc ← startCtrler (nctrlers cfg) (Z.of_nat i);
  cs ← nth_set (ctrlerservers cfg) i (Some sc);
  Ret (addServer (ctrlername i) (set_ctrlers cs (set_net rn cfg))).

Definition shardclerk cfg (names : nat → string) (id : Z) : outcome (config * Clerk) :=
  rn ← openEnds (cnet cfg) names ctrlername (nctrlers cfg);
  Ret (set_net rn cfg, MakeClerk (Z.of_nat (nctrlers cfg)) id).

(** The argument of [cfg.mck.Join]: the names of the servers of the groups. *)
Definition joinArgs cfg (gis : list nat) : outcome (gmap Z (list string)) :=
  loop (λ m g, gg ← nth_get (groups cfg) g; Ret (<[gid gg := servername (gid gg) <$> seq 0 (cn cfg)]> m)) ∅ gis.

Definition leaveArgs cfg (gis : list nat) : outcome (list Z) :=
  loop (λ gids g, gg ← nth_get (groups cfg) g; Ret (gids ++ [gid gg])) [] gis.

(** [cfg.mck] while it is set. *)
Definition withClerk {B} cfg (f : Clerk → outcome (option B * Clerk)) : outcome (option B * config) :=
  match mck cfg with
  | None => Panic
  | Some ck => '(r, ck) ← f ck; Ret (r, set_mck ck cfg)
  end.

Definition joinm (call : nat → Z → JoinArgs → option JoinReply) (fuel : nat) cfg gis :=
  m ← joinArgs cfg gis; withClerk cfg (λ ck, Join call fuel ck m).
Definition join call fuel cfg gi := joinm call fuel cfg [gi].

Definition leavem (call : nat → Z → LeaveArgs → option JoinReply) (fuel : nat) cfg gis :=
  gids ← leaveArgs cfg gis; withClerk cfg (λ ck, Leave call fuel ck gids).
Definition leave call fuel cfg gi := leavem call fuel cfg [gi].

(** ** Clerks *)

(** [endnames] has a place for each server of a group, and the loop fills one for
    each configuration server. *)
Definition makeClient cfg (ck : nat) (names : nat → string) : outcome config :=
  '(es, rn) ← loop (λ '(es, rn) (j : nat),
      es ← nth_set es j (names j);
      rn ← openEnd rn (names j) (ctrlername j);
      Ret (es, rn)) (replicate (cn cfg) ""%string, cnet cfg) (seq 0 (nctrlers cfg));
  Ret (set_clerks (<[ck := es]> (clerks cfg)) (nextClientId cfg + 1) (set_net rn cfg)).

(** [make_end], as given to clerks and servers. *)
Definition make_end cfg (name servername : string) : outcome config :=
  rn ← openEnd (cnet cfg) name servername; Ret (set_net rn cfg).

(** [os.Remove] of the names of the ends removes no file: they are not files. *)
Definition deleteClient cfg (ck : nat) : config :=
  set_clerks (delete ck (clerks cfg)) (nextClientId cfg) cfg.

(** ** A test *)

Definition checklog (maxraftstate : Z) (ps : option (Persister RV SV)) : outcome unit :=
  match ps with
  | None => Panic
  | Some ps =>
      if (0 <=? maxraftstate) && (8 * maxraftstate <? RaftStateSize ps) then Fatal else
      if (maxraftstate <? 0) && (0 <? SnapshotSize ps) then Fatal else Ret tt
  end.

Definition checklogs cfg : outcome unit :=
  loop (λ _ gi, loop (λ _ i, gg ← nth_get (groups cfg) gi; ps ← nth_get (saved gg) i; checklog (cmaxraftstate cfg) ps)
                  tt (seq 0 (cn cfg))) tt (seq 0 (ngroups cfg)).

(** [Kill] of a server that was never started panics. *)
Definition cleanup cfg : outcome config :=
  cfg ← loop ShutdownGroup cfg (seq 0 (ngroups cfg));
  cs ← loop (λ cs i,
      sc ← nth_get cs i;
      match sc : option Ctl with Some c => nth_set cs i (Some (killCtrler c)) | None => Panic end)
    (ctrlerservers cfg) (seq 0 (nctrlers cfg));
  Ret (set_net (Cleanup (cnet cfg)) (set_ctrlers cs cfg)).

(** The names that a test draws. *)
Record draws := mkDraws {
  d_ctrler : nat → nat → string;
  d_clerk : nat → string;
  d_server : nat → nat → nat → string;
  d_mserver : nat → nat → nat → string;
}.

Definition newGroup cfg gi : group :=
  mkGroup (100 + Z.of_nat gi) (replicate (cn cfg) None) (replicate (cn cfg) None) (replicate (cn cfg) [])
    (replicate (nctrlers cfg) []).

Definition makeGroup (d : draws) cfg gi : outcome config :=
  StartGroup (set_groups (groups cfg ++ [newGroup cfg gi]) cfg) gi (d_server d gi) (d_mserver d gi).

(** The fields before the first server is started. *)
Definition newConfig (n : nat) (maxraftstate : Z) : config :=
  mkConfig MakeNetwork 3 (replicate 3 None) None 3 n [] ∅ (Z.of_nat n + 1000) maxraftstate 0.

Definition make_config (n : nat) (unreliable : bool) (maxraftstate id : Z) (d : draws) : outcome config :=
  let cfg := newConfig n maxraftstate in
  cfg ← loop (λ cfg i, StartCtrlerserver cfg i (d_ctrler d i)) cfg (seq 0 (nctrlers cfg));
  '(cfg, ck) ← shardclerk cfg (d_clerk d) id;
  let cfg := set_mck ck cfg in
  cfg ← loop (makeGroup d) cfg (seq 0 (ngroups cfg));
  Ret (set_net (Reliable (cnet cfg) (negb unreliable)) cfg).
End config.
Arguments config : clear implicits.
Arguments group : clear implicits.

(** ** Names *)

Lemma ctrlername_inj i i' : ctrlername i = ctrlername i' → i = i'.
Proof. intros H%append_inj_r. by apply (inj pretty) in H. Qed.

Lemma servername_eq g i g' i' : servername g i = servername g' i' → g = g' ∧ i = i'.
Proof.
  intros H%append_inj_r. apply last_dash in H as [Hg Hi]; [|apply noDash_pretty..].
  apply (inj pretty) in Hg. by apply (inj pretty) in Hi.
Qed.

Lemma servername_ctrlername g i j : servername g i ≠ ctrlername j.
Proof. done. Qed.

(** ** New ends *)

(** [k] new ends, the [j]-th connected to [server j] and enabled; nothing else
    changes. *)
Record opened (names server : nat → string) (k : nat) (rn rn' : Net) : Prop := {
  op_servers : servers rn' = servers rn;
  op_fresh j : (j < k)%nat → names j ∉ ends rn;
  op_inj j j' : (j < k)%nat → (j' < k)%nat → names j = names j' → j = j';
  op_ends e : e ∈ ends rn' ↔ e ∈ ends rn ∨ ∃ j, (j < k)%nat ∧ e = names j;
  op_new j : (j < k)%nat → on rn' (names j) ∧ connections rn' !! names j = Some (Some (server j));
  op_old e : (∀ j, (j < k)%nat → e ≠ names j) →
    enabled rn' !! e = enabled rn !! e ∧ connections rn' !! e = connections rn !! e;
}.

Lemma openEnd_Ret rn name server rn' :
  openEnd rn name server = Ret rn' ↔
  (name ∉ ends rn) ∧ rn' = mkNetwork (reliable rn) (longDelays rn) (longReordering rn) ({[name]} ∪ ends rn)
    (<[name := true]> (<[name := false]> (enabled rn))) (servers rn)
    (<[name := Some server]> (<[name := None]> (connections rn))) (done rn) (count rn) (bytes rn).
Proof.
  unfold openEnd, MakeEnd. case_decide; cbn; [by split; [|intros [? _]]|]. split; [by intros [= <-]|by intros [_ ->]].
Qed.

Lemma openEnd_total rn name server : (name ∉ ends rn) → is_Ret (openEnd rn name server).
Proof. intros Hn. unfold openEnd, MakeEnd. rewrite decide_False by done. by eexists. Qed.

Lemma openEnds_opened rn names server k rn' : openEnds rn names server k = Ret rn' → opened names server k rn rn'.
Proof.
  unfold openEnds. revert rn'. induction k as [|k IH]; intros rn' H.
  { injection H as <-. constructor; try done; [lia..| |lia]. intros e. split; [by left|]. intros [?|(j & ? & _)]; [done|lia]. }
  rewrite seq_S, loop_app in H. apply bind_Ret in H as (r & Hr & H). apply IH in Hr as [O1 O2 O3 O4 O5 O6]. cbn in H.
  apply bind_Ret in H as (r2 & Hr2 & [= <-]). apply openEnd_Ret in Hr2 as [Hnew ->].
  assert (∀ j, (j < k)%nat → names j ≠ names k) as Hne.
  { intros j Hj E. apply Hnew, O4. right. by exists j. }
  constructor; cbn.
  - done.
  - intros j Hj. destruct (decide (j = k)) as [->|]; [|apply O2; lia]. intros ?. apply Hnew, O4. by left.
  - intros j j' Hj Hj' E. destruct (decide (j = k)) as [->|], (decide (j' = k)) as [->|]; [done|..|apply O3; lia || done].
    + symmetry in E. apply Hne in E; [done|lia].
    + apply Hne in E; [done|lia].
  - intros e. rewrite elem_of_union, elem_of_singleton, O4. split.
    + intros [->|[?|(j & ? & ->)]]; [right; exists k; auto with lia|by left|right; exists j; auto with lia].
    + intros [?|(j & Hj & ->)]; [auto|]. destruct (decide (j = k)) as [->|]; [by left|].
      right; right. exists j. auto with lia.
  - intros j Hj. unfold on. cbn. destruct (decide (j = k)) as [->|].
    + by rewrite !lookup_insert_eq.
    + rewrite !lookup_insert_ne by (apply not_eq_sym, Hne; lia). apply O5. lia.
  - intros e He. rewrite !lookup_insert_ne by (apply not_eq_sym, He; lia). apply O6. intros j Hj. apply He. lia.
Qed.

Lemma openEnds_total rn names server k :
  (∀ j, (j < k)%nat → names j ∉ ends rn) → (∀ j j', (j < k)%nat → (j' < k)%nat → names j = names j' → j = j') →
  is_Ret (openEnds rn names server k).
Proof.
  intros Hfresh Hinj. unfold openEnds. induction k as [|k IH]; [by eexists|].
  destruct IH as [r Hr]; [intros j Hj; apply Hfresh; lia|intros j j' Hj Hj'; apply Hinj; lia|].
  rewrite seq_S, loop_app, Hr. cbn. apply openEnds_opened in Hr as [_ _ _ O4 _ _].
  destruct (openEnd_total r (names k) (server k)) as [r2 ->]; [|by eexists].
  intros [He|(j & Hj & E)]%O4; [by apply (Hfresh k) in He; [|lia]|]. apply Hinj in E; lia.
Qed.

(** What was there stays as it was. *)
Record grows (rn rn' : Net) : Prop := {
  gr_servers : servers rn' = servers rn;
  gr_ends e : e ∈ ends rn → e ∈ ends rn';
  gr_old e : e ∈ ends rn → enabled rn' !! e = enabled rn !! e ∧ connections rn' !! e = connections rn !! e;
}.

Lemma opened_grows names server k rn rn' : opened names server k rn rn' → grows rn rn'.
Proof.
  intros [O1 O2 O3 O4 O5 O6]. constructor; [done|intros e He; apply O4; by left|].
  intros e He. apply O6. intros j Hj ->. by apply (O2 j Hj).
Qed.

Lemma growsTo_trans rn1 rn2 rn3 : grows rn1 rn2 → grows rn2 rn3 → grows rn1 rn3.
Proof.
  intros [A1 A2 A3] [B1 B2 B3]. constructor; [congruence|auto|]. intros e He.
  destruct (A3 e He) as [<- <-]. by apply B3, A2.
Qed.

(** ** The states of a test *)
Section invariant.
Context {RV SV Srv Ctl : Type}.
Context (startServer : nat → Z → Persister RV SV → Z → Z → outcome Srv) (startCtrler : nat → Z → outcome Ctl).
Implicit Types (cfg : config RV SV Srv Ctl) (gg : group RV SV Srv) (gi i j : nat).

Definition running gg i : Prop := ∃ kv, gservers gg !! i = Some (Some kv).

(** The name of the [j]-th end of server [i]: to the servers of its group, or
    ([m]) to the configuration servers. *)
Definition rowName gg i (m : bool) j : option string :=
  row ← (if m then mendnames gg else endnames gg) !! i; row !! j.
Definition endTo gg (m : bool) j : string := if m then ctrlername j else servername (gid gg) j.

Definition groupOk cfg gi gg : Prop :=
  gid gg = 100 + Z.of_nat gi ∧ length (gservers gg) = cn cfg ∧ length (saved gg) = cn cfg ∧
  length (endnames gg) = cn cfg ∧ length (mendnames gg) = nctrlers cfg ∧
  (∀ i j e, rowName gg i false j = Some e → (j < cn cfg)%nat).

Record hinv cfg : Prop := {
  hi_groups gi gg : groups cfg !! gi = Some gg → groupOk cfg gi gg;
  hi_running gi gg i : groups cfg !! gi = Some gg →
    running gg i ↔ is_Some (serverAt (cnet cfg) (servername (gid gg) i));
  hi_ctrlers i : (∃ sc, ctrlerservers cfg !! i = Some (Some sc)) ↔ is_Some (serverAt (cnet cfg) (ctrlername i));
  hi_others g i : is_Some (serverAt (cnet cfg) (servername g i)) → ∃ gi gg, groups cfg !! gi = Some gg ∧ gid gg = g;
  hi_addr s x : serverAt (cnet cfg) s = Some x → (x < nextServer cfg)%nat;
  hi_addr_inj s s' x : serverAt (cnet cfg) s = Some x → serverAt (cnet cfg) s' = Some x → s = s';
  hi_inj gi gg i m j gi' gg' i' m' j' e :
    groups cfg !! gi = Some gg → rowName gg i m j = Some e →
    groups cfg !! gi' = Some gg' → rowName gg' i' m' j' = Some e → gi = gi' ∧ i = i' ∧ m = m' ∧ j = j';
  hi_ends gi gg i m j e : groups cfg !! gi = Some gg → rowName gg i m j = Some e →
    e ∈ ends (cnet cfg) ∧ connections (cnet cfg) !! e = Some (Some (endTo gg m j)) ∧
    (on (cnet cfg) e ↔ running gg i);
}.

(** A step in which nothing but the network grows. *)
Lemma hinv_grows cfg cfg' :
  hinv cfg → grows (cnet cfg) (cnet cfg') → groups cfg' = groups cfg → ctrlerservers cfg' = ctrlerservers cfg →
  cn cfg' = cn cfg → nctrlers cfg' = nctrlers cfg → nextServer cfg' = nextServer cfg → hinv cfg'.
Proof.
  intros [H1 H2 H3 H4 H5 H6 H7 H8] [G1 G2 G3] Eg Ec En Ek Es.
  assert (∀ s, serverAt (cnet cfg') s = serverAt (cnet cfg) s) as Eat by (intros s; unfold serverAt; by rewrite G1).
  constructor; rewrite ?Eg, ?Ec, ?Es; try (by setoid_rewrite Eat).
  - intros gi gg Hg. unfold groupOk. rewrite En, Ek. by apply H1.
  - done.
  - intros gi gg i m j e Hg He. destruct (H8 _ _ _ _ _ _ Hg He) as (K1 & K2 & K3).
    destruct (G3 e K1) as [E1 E2]. unfold on in *. rewrite E1, E2. auto.
Qed.

(** A step that changes server [i] of group [gi], its ends and what the network
    knows under its name. *)
Lemma hinv_update cfg cfg' gi gg gg' i :
  hinv cfg → groups cfg !! gi = Some gg → groups cfg' = <[gi := gg']> (groups cfg) →
  ctrlerservers cfg' = ctrlerservers cfg → cn cfg' = cn cfg → nctrlers cfg' = nctrlers cfg →
  (nextServer cfg <= nextServer cfg')%nat → gid gg' = gid gg → groupOk cfg gi gg' →
  (∀ i', i' ≠ i → (running gg' i' ↔ running gg i') ∧ ∀ m j, rowName gg' i' m j = rowName gg i' m j) →
  (∀ s, s ≠ servername (gid gg) i → serverAt (cnet cfg') s = serverAt (cnet cfg) s) →
  running gg' i ↔ is_Some (serverAt (cnet cfg') (servername (gid gg) i)) →
  (∀ x, serverAt (cnet cfg') (servername (gid gg) i) = Some x → x = nextServer cfg ∧ (x < nextServer cfg')%nat) →
  (∀ m j e, rowName gg' i m j = Some e →
     e ∈ ends (cnet cfg') ∧ connections (cnet cfg') !! e = Some (Some (endTo gg m j)) ∧ (on (cnet cfg') e ↔ running gg' i)) →
  (∀ m j m' j' e, rowName gg' i m j = Some e → rowName gg' i m' j' = Some e → m = m' ∧ j = j') →
  (∀ gi0 gg0 i0 m0 j0 e, (gi0, i0) ≠ (gi, i) → groups cfg !! gi0 = Some gg0 → rowName gg0 i0 m0 j0 = Some e →
     (∀ m j, rowName gg' i m j ≠ Some e) ∧ e ∈ ends (cnet cfg') ∧
     connections (cnet cfg') !! e = connections (cnet cfg) !! e ∧ (on (cnet cfg') e ↔ on (cnet cfg) e)) →
  hinv cfg'.
Proof.
  clear startServer startCtrler.
  intros [H1 H2 H3 H4 H5 H6 H7 H8] Hg Eg Ec En Ek Hle Egid Hok Hoth Hsrv Hrun Haddr Hnew Hself Hold.
  assert (∀ k x, groups cfg' !! k = Some x → (k = gi ∧ x = gg') ∨ (k ≠ gi ∧ groups cfg !! k = Some x)) as Hlk.
  { intros k x. rewrite Eg, list_lookup_insert_Some. intros [(<- & -> & _)|[? ?]]; [by left|right; split; congruence]. }
  assert (∀ k x i0 m j e, groups cfg' !! k = Some x → rowName x i0 m j = Some e →
    (k = gi ∧ i0 = i ∧ x = gg') ∨
    ((k, i0) ≠ (gi, i) ∧ ∃ y, groups cfg !! k = Some y ∧ rowName y i0 m j = Some e ∧ gid y = gid x ∧
       (running x i0 ↔ running y i0))) as Hrow.
  { intros k x i0 m j e [[-> ->]|[Hne Hx]]%Hlk He.
    - destruct (decide (i0 = i)) as [->|Hne]; [by left|right]. destruct (Hoth i0 Hne) as [R1 R2].
      split; [congruence|]. exists gg. by rewrite <- R2.
    - right. split; [congruence|]. by exists x. }
  constructor.
  - intros k x [[-> ->]|[_ Hx]]%Hlk; unfold groupOk; rewrite En, Ek; [done|by apply H1].
  - intros k x i0 [[-> ->]|[Hne Hx]]%Hlk.
    + rewrite Egid. destruct (decide (i0 = i)) as [->|Hi]; [done|]. rewrite (proj1 (Hoth i0 Hi)), Hsrv.
      * by apply H2 with gi.
      * by intros [_ ?]%servername_eq.
    + rewrite Hsrv; [by apply H2 with k|]. intros [E _]%servername_eq.
      destruct (H1 _ _ Hx) as [E1 _], (H1 _ _ Hg) as [E2 _]. apply Hne. lia.
  - intros k. rewrite Ec, Hsrv; [apply H3|]. by intros E%eq_sym%servername_ctrlername.
  - intros g i0 Hs. destruct (decide (servername g i0 = servername (gid gg) i)) as [E|Hne].
    + apply servername_eq in E as [-> ->]. exists gi, gg'. rewrite Eg.
      split; [apply list_lookup_insert_eq; by eapply lookup_lt_Some|done].
    + rewrite Hsrv in Hs by done. destruct (H4 g i0 Hs) as (k & x & Hx & <-). rewrite Eg.
      destruct (decide (k = gi)) as [->|]; [exists gi, gg'|exists k, x; by rewrite list_lookup_insert_ne].
      simplify_eq. split; [apply list_lookup_insert_eq; by eapply lookup_lt_Some|done].
  - intros s x Hs. destruct (decide (s = servername (gid gg) i)) as [->|Hne]; [by apply Haddr|].
    rewrite Hsrv in Hs by done. apply H5 in Hs. lia.
  - intros s s' x Hs Hs'.
    destruct (decide (s = servername (gid gg) i)) as [->|Hne], (decide (s' = servername (gid gg) i)) as [->|Hne']; [done|..].
    + apply Haddr in Hs as [-> _]. rewrite Hsrv in Hs' by done. apply H5 in Hs'. lia.
    + apply Haddr in Hs' as [-> _]. rewrite Hsrv in Hs by done. apply H5 in Hs. lia.
    + rewrite Hsrv in Hs, Hs' by done. by eapply H6.
  - intros k x i0 m j k' x' i0' m' j' e Hx He Hx' He'.
    destruct (Hrow _ _ _ _ _ _ Hx He) as [(-> & -> & ->)|(Hne & y & Hy & Hye & _)],
      (Hrow _ _ _ _ _ _ Hx' He') as [(-> & -> & ->)|(Hne' & y' & Hy' & Hye' & _)].
    + destruct (Hself _ _ _ _ _ He He') as [-> ->]. done.
    + by destruct (proj1 (Hold _ _ _ _ _ _ Hne' Hy' Hye') m j).
    + by destruct (proj1 (Hold _ _ _ _ _ _ Hne Hy Hye) m' j').
    + by eapply H7.
  - intros k x i0 m j e Hx He. destruct (Hrow _ _ _ _ _ _ Hx He) as [(-> & -> & ->)|(Hne & y & Hy & Hye & Ey & Ry)].
    + unfold endTo. rewrite Egid. by apply Hnew.
    + destruct (Hold _ _ _ _ _ _ Hne Hy Hye) as (_ & K1 & K2 & K3), (H8 _ _ _ _ _ _ Hy Hye) as (L1 & L2 & L3).
      unfold endTo in *. rewrite K2, K3, <- Ey, Ry. done.
Qed.

Lemma nth_set_Ret {A} (l : list A) i x l' : nth_set l i x = Ret l' ↔ (i < length l)%nat ∧ l' = <[i := x]> l.
Proof. unfold nth_set. destruct (Nat.ltb_spec i (length l)); split; [by intros [= <-]|by intros [_ ->]|done|lia]. Qed.

Lemma insert_running gg ss sv es ms i x i0 :
  (i < length (gservers gg))%nat → ss = <[i := x]> (gservers gg) →
  running (mkGroup (gid gg) ss sv es ms) i0 ↔ if decide (i0 = i) then is_Some x else running gg i0.
Proof.
  intros Hi ->. unfold running. cbn. case_decide as Hd; [subst|by rewrite list_lookup_insert_ne].
  rewrite list_lookup_insert_eq by done. split; [by intros (kv & [= ->])|]. intros [kv ->]. by exists kv.
Qed.

(** *** What other goroutines do meanwhile *)

(** Clients and servers make ends, and tests make and delete clients, while a server is
    being started or shut down. *)
Inductive beside cfg : config RV SV Srv Ctl → Prop :=
  | b_end name server cfg' : make_end cfg name server = Ret cfg' → beside cfg cfg'
  | b_client ck names cfg' : makeClient cfg ck names = Ret cfg' → beside cfg cfg'
  | b_delete ck : beside cfg (deleteClient cfg ck).

(** [StartServer] and [ShutdownServer] with that in the gaps. *)
Definition startRun cfg gi i (names mnames : nat → string) cfg' : Prop :=
  ∃ c1 c2 c3 c4, startLocked cfg gi i names mnames = Ret c1 ∧ rtc beside c1 c2 ∧
    startInstance startServer c2 gi i = Ret c3 ∧ rtc beside c3 c4 ∧ registerServer c4 gi i = Ret cfg'.
Definition shutdownRun cfg gi i cfg' : Prop :=
  ∃ c1 c2, shutdownCut cfg gi i = Ret c1 ∧ rtc beside c1 c2 ∧ shutdownNil c2 gi i = Ret cfg'.

Lemma StartServer_run cfg gi i names mnames cfg' :
  StartServer startServer cfg gi i names mnames = Ret cfg' → startRun cfg gi i names mnames cfg'.
Proof.
  intros (c1 & H1 & (c3 & H3 & H)%bind_Ret)%bind_Ret. exists c1, c1, c3, c3. by split_and!.
Qed.

Lemma ShutdownServer_run cfg gi i cfg' : ShutdownServer cfg gi i = Ret cfg' → shutdownRun cfg gi i cfg'.
Proof. intros (c1 & H1 & H)%bind_Ret. exists c1, c1. by split_and!. Qed.

(** Nothing but the network and the clerks differs, and the network only grows. *)
Record framed cfg cfg' : Prop := {
  fr_net : grows (cnet cfg) (cnet cfg');
  fr_groups : groups cfg' = groups cfg;
  fr_ctrlers : ctrlerservers cfg' = ctrlerservers cfg;
  fr_sizes : (cn cfg', nctrlers cfg', ngroups cfg') = (cn cfg, nctrlers cfg, ngroups cfg);
  fr_next : nextServer cfg' = nextServer cfg;
  fr_limit : cmaxraftstate cfg' = cmaxraftstate cfg;
}.

Lemma grows_refl rn : grows rn rn.
Proof. by constructor. Qed.

Lemma grows_openEnd rn name server rn' : openEnd rn name server = Ret rn' → grows rn rn'.
Proof.
  intros [Hn ->]%openEnd_Ret. constructor; cbn; [done|set_solver|].
  intros e He. rewrite !lookup_insert_ne by (by intros ->). done.
Qed.

Lemma makeClient_grows cfg ck names cfg' :
  makeClient cfg ck names = Ret cfg' →
  ∃ es rn, grows (cnet cfg) rn ∧ (nctrlers cfg <= cn cfg)%nat ∧
    cfg' = set_clerks (<[ck := es]> (clerks cfg)) (nextClientId cfg + 1) (set_net rn cfg).
Proof.
  unfold makeClient. intros ([es rn] & H & [= <-])%bind_Ret. exists es, rn.
  eapply (loop_seq (λ j '(es, rn), grows (cnet cfg) rn ∧ length es = cn cfg ∧ (j <= cn cfg)%nat)) in H as (G & _ & Hle).
  - done.
  - split_and!; [apply grows_refl|apply length_replicate|lia].
  - intros j [es0 rn0] [es1 rn1] _ (G & El & Hle) Hst.
    apply bind_Ret in Hst as (es2 & [Hj ->]%nth_set_Ret & Hst). apply bind_Ret in Hst as (rn2 & G2%grows_openEnd & [= <- <-]).
    split_and!; [by eapply growsTo_trans|by rewrite length_insert|lia].
Qed.

Lemma beside_framed cfg cfg' : beside cfg cfg' → framed cfg cfg'.
Proof.
  intros [name server c H|ck names c H|ck].
  - apply bind_Ret in H as (rn & G%grows_openEnd & [= <-]). by constructor.
  - apply makeClient_grows in H as (es & rn & G & _ & ->). by constructor.
  - constructor; [apply grows_refl|done..].
Qed.

Lemma rtc_beside_framed cfg cfg' : rtc beside cfg cfg' → framed cfg cfg'.
Proof.
  induction 1 as [c|c1 c2 c3 Hb%beside_framed _ IH]; [by constructor; [apply grows_refl|..]|].
  destruct Hb as [A1 A2 A3 A4 A5 A6], IH as [B1 B2 B3 B4 B5 B6].
  constructor; [by eapply growsTo_trans|congruence..].
Qed.

(** *** Starting a server *)

Definition startedGroup cfg gg i (names mnames : nat → string) ps kv : group RV SV Srv :=
  mkGroup (gid gg) (<[i := Some kv]> (gservers gg)) (<[i := Some ps]> (saved gg))
    (<[i := names <$> seq 0 (cn cfg)]> (endnames gg)) (<[i := mnames <$> seq 0 (nctrlers cfg)]> (mendnames gg)).

Lemma startRun_Ret cfg gi i names mnames cfg' :
  startRun cfg gi i names mnames cfg' →
  ∃ gg rn1 rn2 rn3 ps kv, groups cfg !! gi = Some gg ∧
    opened names (servername (gid gg)) (cn cfg) (cnet cfg) rn1 ∧ opened mnames ctrlername (nctrlers cfg) rn1 rn2 ∧
    grows rn2 rn3 ∧
    (i < length (endnames gg))%nat ∧ (i < length (mendnames gg))%nat ∧ (i < length (gservers gg))%nat ∧
    cnet cfg' = AddServer rn3 (servername (gid gg) i) (nextServer cfg) ∧
    groups cfg' = <[gi := startedGroup cfg gg i names mnames ps kv]> (groups cfg) ∧
    ctrlerservers cfg' = ctrlerservers cfg ∧ (cn cfg', nctrlers cfg', ngroups cfg') = (cn cfg, nctrlers cfg, ngroups cfg) ∧
    nextServer cfg' = S (nextServer cfg).
Proof.
  intros (c1 & c2 & c3 & c4 & H1 & [A1 A2 A3 A4 A5 A6]%rtc_beside_framed & H3 & [B1 B2 B3 B4 B5 B6]%rtc_beside_framed & H5).
  apply bind_Ret in H1 as (gg & Hg%nth_get_Ret & H).
  apply bind_Ret in H as (es & [Hes ->]%nth_set_Ret & H). apply bind_Ret in H as (rn1 & O1%openEnds_opened & H).
  apply bind_Ret in H as (ms & [Hms ->]%nth_set_Ret & H). apply bind_Ret in H as (rn2 & O2%openEnds_opened & H).
  apply bind_Ret in H as (old & _ & [= <-]). pose proof (lookup_lt_Some _ _ _ Hg) as Hlt. cbn in *.
  apply bind_Ret in H3 as (gg1 & Hg1%nth_get_Ret & H). rewrite A2, list_lookup_insert_eq in Hg1 by done. injection Hg1 as <-.
  apply bind_Ret in H as (ps & _ & H). destruct ps as [ps|]; [|done]. apply bind_Ret in H as (kv & _ & H). cbn in H.
  apply bind_Ret in H as (ss & [Hss ->]%nth_set_Ret & [= <-]). cbn in *. rewrite A2, list_insert_insert_eq in B2.
  apply bind_Ret in H5 as (gg2 & Hg2%nth_get_Ret & [= <-]). rewrite B2, list_lookup_insert_eq in Hg2 by done. injection Hg2 as <-.
  cbn in *. exists gg, rn1, rn2, (cnet c4), (freshPersister old), kv.
  split_and!; try done; [by eapply growsTo_trans|congruence..].
Qed.

Lemma drawn_lookup (names : nat → string) k j e : (names <$> seq 0 k) !! j = Some e ↔ (j < k)%nat ∧ e = names j.
Proof.
  rewrite list_lookup_fmap_Some. split.
  - by intros (x & -> & [-> ?]%lookup_seq).
  - intros [Hj ->]. exists j. split; [done|]. by apply lookup_seq.
Qed.

Lemma started_rows cfg gg i names mnames ps kv i0 m j e :
  (i < length (endnames gg))%nat → (i < length (mendnames gg))%nat →
  rowName (startedGroup cfg gg i names mnames ps kv) i0 m j = Some e ↔
  if decide (i0 = i)
  then (j < if m then nctrlers cfg else cn cfg)%nat ∧ e = (if m then mnames else names) j
  else rowName gg i0 m j = Some e.
Proof.
  intros He Hm. unfold rowName. cbn. case_decide as Hd; [subst|by destruct m; rewrite list_lookup_insert_ne].
  destruct m; rewrite list_lookup_insert_eq by done; cbn; apply drawn_lookup.
Qed.

Lemma startRun_hinv cfg gi i names mnames cfg' :
  hinv cfg → startRun cfg gi i names mnames cfg' → hinv cfg'.
Proof.
  intros Hinv (gg & rn1 & rn2 & rn3 & ps & kv & Hg & O1 & O2 & O3 & Hes & Hms & Hss & Enet & Egs & Ect & Esz & Enx)%startRun_Ret.
  injection Esz as Ecn Enc _.
  pose proof (growsTo_trans _ _ _ (opened_grows _ _ _ _ _ O2) O3) as [_ U2 U3].
  pose proof (growsTo_trans _ _ _ (growsTo_trans _ _ _ (opened_grows _ _ _ _ _ O1) (opened_grows _ _ _ _ _ O2)) O3) as [G1 G2 G3].
  set (gg' := startedGroup cfg gg i names mnames ps kv).
  assert (∀ i0, running gg' i0 ↔ if decide (i0 = i) then is_Some (Some kv) else running gg i0) as Hrun
    by (intros i0; by apply insert_running).
  pose proof (λ i0 m j e, started_rows cfg gg i names mnames ps kv i0 m j e Hes Hms) as Hrows. fold gg' in Hrows.
  pose proof (hi_groups _ Hinv _ _ Hg) as (K1 & K2 & K3 & K4 & K5 & K6).
  assert (∀ m j e, rowName gg' i m j = Some e → e ∉ ends (cnet cfg)) as Hfresh.
  { intros m j e He Hin. apply Hrows in He. rewrite decide_True in He by done. destruct He as [Hj ->], m.
    - apply (op_fresh _ _ _ _ _ O2 j Hj). apply (op_ends _ _ _ _ _ O1). by left.
    - by apply (op_fresh _ _ _ _ _ O1 j Hj). }
  eapply (hinv_update cfg _ gi gg gg' i Hinv Hg); rewrite ?Enet, ?Enx; try done; try lia.
  - split_and!; cbn; rewrite ?length_insert; try done.
    intros i0 j e He. apply Hrows in He. case_decide; [by destruct He|]. by eapply K6.
  - intros i0 Hne. rewrite Hrun, decide_False by done. split; [done|]. intros m j. apply option_eq. intros e.
    by rewrite Hrows, decide_False.
  - intros s Hs. unfold serverAt. cbn. by rewrite lookup_insert_ne, G1.
  - rewrite Hrun, decide_True by done. unfold serverAt. cbn. rewrite lookup_insert_eq. split; by eexists.
  - intros x. unfold serverAt. cbn. rewrite lookup_insert_eq. intros [= <-]. lia.
  - intros m j e He. apply Hrows in He. rewrite decide_True in He by done. destruct He as [Hj ->]. rewrite Hrun, decide_True by done.
    assert (on rn3 ((if m then mnames else names) j) ∧ connections rn3 !! (if m then mnames else names) j = Some (Some (endTo gg m j))
      ∧ (if m then mnames else names) j ∈ ends rn3) as (T1 & T2 & T3); [|split_and!; [done|done|by split; [eexists|]]].
    destruct m; cbn.
    + destruct (op_new _ _ _ _ _ O2 j Hj) as [T1 T2].
      assert (mnames j ∈ ends rn2) as Hin by (apply (op_ends _ _ _ _ _ O2); right; by exists j).
      destruct O3 as [_ W2 W3]. destruct (W3 _ Hin) as [V1 V2]. unfold on in *. rewrite V1, V2. auto.
    + destruct (op_new _ _ _ _ _ O1 j Hj) as [T1 T2].
      assert (names j ∈ ends rn1) as Hin by (apply (op_ends _ _ _ _ _ O1); right; by exists j).
      destruct (U3 _ Hin) as [V1 V2]. unfold on in *. rewrite V1, V2. auto.
  - intros m j m' j' e He He'. apply Hrows in He, He'. rewrite decide_True in He, He' by done.
    destruct He as [Hj ->], He' as [Hj' E].
    assert (∀ a b, (a < cn cfg)%nat → (b < nctrlers cfg)%nat → names a ≠ mnames b) as Hdis.
    { intros a b Ha Hb Eab. apply (op_fresh _ _ _ _ _ O2 b Hb), (op_ends _ _ _ _ _ O1). right. by exists a. }
    destruct m, m'.
    + split; [done|]. by apply (op_inj _ _ _ _ _ O2).
    + by destruct (Hdis j' j).
    + by destruct (Hdis j j').
    + split; [done|]. by apply (op_inj _ _ _ _ _ O1).
  - intros gi0 gg0 i0 m0 j0 e Hne Hg0 He. destruct (hi_ends _ Hinv _ _ _ _ _ _ Hg0 He) as (L1 & L2 & L3).
    destruct (G3 e L1) as [E1 E2]. unfold on. cbn. rewrite E1, E2. split_and!; auto.
    intros m j Hn. by apply Hfresh in Hn.
Qed.

(** *** Shutting a server down *)

Lemma disableAll_spec (rn : Net) l :
  switched false (λ e, e ∈ l) rn (disableAll rn l).
Proof.
  revert rn. induction l as [|name l IH]; intros rn.
  { apply switched_none. set_solver. }
  change (disableAll rn (name :: l)) with (disableAll (Enable rn name false) l).
  eapply switched_trans; [apply switched_Enable|apply IH|]. intros e. set_solver.
Qed.

Definition stoppedGroup gg i old : group RV SV Srv :=
  mkGroup (gid gg) (<[i := None]> (gservers gg)) (<[i := option_map Copy old]> (saved gg)) (endnames gg) (mendnames gg).

Lemma shutdownRun_Ret cfg gi i cfg' :
  shutdownRun cfg gi i cfg' →
  ∃ gg rn old, groups cfg !! gi = Some gg ∧
    switched false (λ e, ∃ m j, rowName gg i m j = Some e ∧ (m = false → (j < length (gservers gg))%nat)) (cnet cfg) rn ∧
    saved gg !! i = Some old ∧ (i < length (gservers gg))%nat ∧
    grows (DeleteServer rn (servername (gid gg) i)) (cnet cfg') ∧
    groups cfg' = <[gi := stoppedGroup gg i old]> (groups cfg) ∧
    ctrlerservers cfg' = ctrlerservers cfg ∧ (cn cfg', nctrlers cfg', ngroups cfg') = (cn cfg, nctrlers cfg, ngroups cfg) ∧
    nextServer cfg' = nextServer cfg.
Proof.
  intros (c1 & c2 & H1 & [A1 A2 A3 A4 A5 A6]%rtc_beside_framed & H2).
  apply bind_Ret in H1 as (gg & Hg%nth_get_Ret & H). apply bind_Ret in H as (rn & Hloop & H).
  apply bind_Ret in H as (mrow & Hm%nth_get_Ret & H). apply bind_Ret in H as (old & Hold%nth_get_Ret & [= <-]). cbn in *.
  pose proof (lookup_lt_Some _ _ _ Hg) as Hlt.
  apply bind_Ret in H2 as (gg1 & Hg1%nth_get_Ret & H). rewrite A2, list_lookup_insert_eq in Hg1 by done. injection Hg1 as <-.
  apply bind_Ret in H as (ss & [Hi ->]%nth_set_Ret & [= <-]). cbn in *.
  pose proof (disableAll_spec rn mrow) as S2. exists gg, (disableAll rn mrow), old.
  split_and!; try done; [|by rewrite A2, list_insert_insert_eq].
  eapply switched_trans; [eapply (loop_switched false _ (λ j e, rowName gg i false j = Some e)); [|exact Hloop]|exact S2|].
  + intros r j r' _ (row & Hrow%nth_get_Ret & (name & Hn%nth_get_Ret & [= <-])%bind_Ret)%bind_Ret.
    eapply switched_ext; [apply switched_Enable|]. intros e. unfold rowName. rewrite Hrow. cbn. rewrite Hn. naive_solver.
  + intros e. split.
    * intros ([] & j & He & Hj).
      -- right. unfold rowName in He. rewrite Hm in He. by eapply list_elem_of_lookup_2.
      -- left. exists j. split; [|done]. apply elem_of_seq. specialize (Hj eq_refl). lia.
    * intros [(j & Hj%elem_of_seq & He)|[j Hj]%list_elem_of_lookup].
      -- exists false, j. split; [done|]. lia.
      -- exists true, j. split; [|done]. unfold rowName. by rewrite Hm.
Qed.

(** What the network lets through afterwards. *)
Lemma shutdown_ends cfg gi gg i cfg' :
  hinv cfg → shutdownRun cfg gi i cfg' → groups cfg !! gi = Some gg →
  (∀ e, e ∈ ends (cnet cfg) →
     (on (cnet cfg') e ↔ on (cnet cfg) e ∧ ∀ m j, rowName gg i m j ≠ Some e) ∧
     e ∈ ends (cnet cfg') ∧ connections (cnet cfg') !! e = connections (cnet cfg) !! e) ∧
  serverAt (cnet cfg') (servername (gid gg) i) = None ∧
  (∀ s, s ≠ servername (gid gg) i → serverAt (cnet cfg') s = serverAt (cnet cfg) s).
Proof.
  intros Hinv (gg0 & rn & old & Hg & [S1 S2 Es S3] & Hold & Hi & [G1 G2 G3] & _)%shutdownRun_Ret Hg'.
  assert (gg0 = gg) as -> by congruence. cbn in G1, G2, G3.
  pose proof (hi_groups _ Hinv _ _ Hg) as (K1 & K2 & K3 & K4 & K5 & K6). split_and!.
  - intros e He. rewrite <- S1 in He. destruct (G3 e He) as [E1 E2]. split_and!; [|by apply G2|by rewrite E2, S2].
    unfold on at 1. rewrite E1. fold (on rn e). rewrite (S3 e).
    apply and_iff_compat_l. split; [|intros Hn (m & j & Hr & _); by eapply Hn]. intros Hn m j Hr. apply Hn. exists m, j.
    split; [done|]. intros ->. rewrite K2. by eapply K6.
  - unfold serverAt. rewrite G1. by rewrite lookup_insert_eq.
  - intros s Hs. unfold serverAt. by rewrite G1, lookup_insert_ne, Es.
Qed.

Lemma shutdownRun_hinv cfg gi i cfg' : hinv cfg → shutdownRun cfg gi i cfg' → hinv cfg'.
Proof.
  intros Hinv H. pose proof H as (gg & rn & old & Hg & _ & Hold & Hi & _ & Egs & Ect & Esz & Enx)%shutdownRun_Ret.
  injection Esz as Ecn Enc _.
  destruct (shutdown_ends _ _ _ _ _ Hinv H Hg) as (T1 & T4 & T5).
  pose proof (hi_groups _ Hinv _ _ Hg) as (K1 & K2 & K3 & K4 & K5 & K6).
  assert (∀ i0, running (stoppedGroup gg i old) i0 ↔ if decide (i0 = i) then is_Some (@None Srv) else running gg i0) as Hrun
    by (intros i0; by apply insert_running).
  eapply (hinv_update cfg cfg' gi gg (stoppedGroup gg i old) i Hinv Hg); try done; [by rewrite Enx|..].
  - split_and!; cbn; rewrite ?length_insert; done.
  - intros i0 Hne. rewrite Hrun, decide_False by done. done.
  - rewrite Hrun, decide_True, T4 by done. split; intros H0; by apply is_Some_None in H0.
  - rewrite T4. done.
  - intros m j e He. change (rowName gg i m j = Some e) in He. destruct (hi_ends _ Hinv _ _ _ _ _ _ Hg He) as (L1 & L2 & L3).
    destruct (T1 e L1) as (U1 & U2 & U3). rewrite U3, U1, Hrun, decide_True by done. split_and!; [done..|].
    split; [by intros [_ Hn]; destruct (Hn m j)|by intros []].
  - intros m j m' j' e He He'. by destruct (hi_inj _ Hinv _ _ _ _ _ _ _ _ _ _ _ Hg He Hg He') as (_ & _ & -> & ->).
  - intros gi0 gg0 i0 m0 j0 e Hne Hg0 He.
    assert (∀ m j, rowName gg i m j ≠ Some e) as Hn.
    { intros m j He'. destruct (hi_inj _ Hinv _ _ _ _ _ _ _ _ _ _ _ Hg0 He Hg He') as (-> & -> & _). done. }
    destruct (hi_ends _ Hinv _ _ _ _ _ _ Hg0 He) as (L1 & _). destruct (T1 e L1) as (U1 & U2 & U3).
    split_and!; [done..|]. tauto.
Qed.

(** *** The configuration servers and new groups *)

Definition dims cfg : nat * nat * nat * nat := (cn cfg, nctrlers cfg, ngroups cfg, length (groups cfg)).

Lemma startRun_dims cfg gi i names mnames cfg' : startRun cfg gi i names mnames cfg' → dims cfg' = dims cfg.
Proof.
  intros (? & ? & ? & ? & ? & ? & ? & ? & ? & ? & ? & ? & ? & ? & E & ? & [= E1 E2 E3] & ?)%startRun_Ret. unfold dims.
  by rewrite E, E1, E2, E3, length_insert.
Qed.

Lemma shutdownRun_dims cfg gi i cfg' : shutdownRun cfg gi i cfg' → dims cfg' = dims cfg.
Proof.
  intros (? & ? & ? & ? & ? & ? & ? & ? & E & ? & [= E1 E2 E3] & ?)%shutdownRun_Ret. unfold dims.
  by rewrite E, E1, E2, E3, length_insert.
Qed.

Lemma StartCtrlerserver_hinv cfg i names cfg' :
  hinv cfg → StartCtrlerserver startCtrler cfg i names = Ret cfg' →
  hinv cfg' ∧ dims cfg' = dims cfg ∧ groups cfg' = groups cfg.
Proof.
  intros Hinv. unfold StartCtrlerserver. intros (rn & [G1 G2 G3]%openEnds_opened%opened_grows & H)%bind_Ret.
  apply bind_Ret in H as (sc & _ & H). apply bind_Ret in H as (cs & [Hi ->]%nth_set_Ret & [= <-]).
  destruct Hinv as [H1 H2 H3 H4 H5 H6 H7 H8]. split; [|done].
  assert (∀ s, serverAt (AddServer rn (ctrlername i) (nextServer cfg)) s =
    if decide (s = ctrlername i) then Some (nextServer cfg) else serverAt (cnet cfg) s) as Eat.
  { intros s. unfold serverAt. cbn. case_decide; [subst; by rewrite lookup_insert_eq|by rewrite lookup_insert_ne, G1]. }
  constructor; cbn; try done.
  - intros gi gg i0 Hg. rewrite Eat, decide_False by done. by eapply H2.
  - intros j. rewrite Eat. destruct (decide (j = i)) as [->|Hne].
    + rewrite decide_True, list_lookup_insert_eq by done. split; intros _; by eexists.
    + rewrite decide_False, list_lookup_insert_ne by (done || by intros ?%ctrlername_inj). apply H3.
  - intros g i0. rewrite Eat, decide_False by done. apply H4.
  - intros s x. rewrite Eat. case_decide; [intros [= <-]; lia|]. intros Hx%H5. lia.
  - intros s s' x. rewrite !Eat. do 2 case_decide; [congruence|..].
    + intros [= <-] Hx%H5. lia.
    + intros Hx%H5 [= <-]. lia.
    + apply H6.
  - intros gi gg i0 m j e Hg He. destruct (H8 _ _ _ _ _ _ Hg He) as (K1 & K2 & K3).
    destruct (G3 e K1) as [E1 E2]. unfold on in *. cbn. rewrite E1, E2. auto.
Qed.

Lemma newGroup_rows cfg gi i m j : rowName (newGroup cfg gi) i m j = None.
Proof.
  unfold rowName, newGroup. cbn. destruct m; destruct (replicate _ _ !! i) as [row|] eqn:E; try done;
    by apply lookup_replicate in E as [-> _].
Qed.

Lemma newGroup_hinv cfg :
  hinv cfg → hinv (set_groups (groups cfg ++ [newGroup cfg (length (groups cfg))]) cfg).
Proof.
  intros [H1 H2 H3 H4 H5 H6 H7 H8]. set (gg := newGroup cfg (length (groups cfg))).
  assert (∀ k x, (groups cfg ++ [gg]) !! k = Some x → groups cfg !! k = Some x ∨ (k = length (groups cfg) ∧ x = gg)) as Hlk.
  { intros k x [?|[Hk Hx]]%lookup_app_Some; [by left|right]. apply list_lookup_singleton_Some in Hx as [? <-].
    split; [lia|done]. }
  assert (∀ k x i m j e, (groups cfg ++ [gg]) !! k = Some x → rowName x i m j = Some e → groups cfg !! k = Some x) as Hrow.
  { intros k x i m j e [?|[-> ->]]%Hlk He; [done|]. unfold gg in He. by rewrite newGroup_rows in He. }
  constructor; cbn; try done.
  - intros k x [?|[-> ->]]%Hlk; [by apply H1|]. unfold groupOk, gg, newGroup. cbn. rewrite !length_replicate.
    split_and!; try done. intros i j e He. change (rowName gg i false j = Some e) in He. unfold gg in He.
    by rewrite newGroup_rows in He.
  - intros k x i [?|[-> ->]]%Hlk; [by eapply H2|]. split.
    + intros [kv Hkv]. by apply lookup_replicate in Hkv as [? _].
    + intros (k & y & Hy & E)%H4. destruct (H1 _ _ Hy) as [E' _]. apply lookup_lt_Some in Hy. rewrite E' in E. cbn in E. lia.
  - intros g i (k & x & Hx & E)%H4. exists k, x. split; [by apply lookup_app_l_Some|done].
  - intros. eapply H7; by eauto.
  - intros. eapply H8; by eauto.
Qed.

(** The ends of server [i] of group [gi] have been made. *)
Definition fullRow cfg gi i : Prop :=
  ∃ gg, groups cfg !! gi = Some gg ∧ ∀ m, ∃ row, (if m : bool then mendnames gg else endnames gg) !! i = Some row ∧
    length row = if m then nctrlers cfg else cn cfg.

Lemma startRun_full cfg gi i names mnames cfg' gi' i' :
  startRun cfg gi i names mnames cfg' →
  (gi' = gi ∧ i' = i) ∨ fullRow cfg gi' i' → fullRow cfg' gi' i'.
Proof.
  intros (gg & rn1 & rn2 & rn3 & ps & kv & Hg & _ & _ & _ & Hes & Hms & _ & _ & Egs & _ & [= E1 E2 _] & _)%startRun_Ret Hor.
  unfold fullRow. rewrite Egs, E1, E2.
  pose proof (lookup_lt_Some _ _ _ Hg) as Hlt.
  destruct (decide (gi' = gi)) as [->|Hne].
  - eexists. split; [by apply list_lookup_insert_eq|]. intros m. cbn.
    destruct (decide (i' = i)) as [->|Hni].
    + destruct m; rewrite list_lookup_insert_eq by done; (eexists; split; [done|]); by rewrite length_fmap, length_seq.
    + destruct Hor as [[_ ?]|(gg1 & Hg1 & Hm)]; [done|]. assert (gg1 = gg) as -> by congruence.
      destruct (Hm m) as (row & Hr & Hl). exists row. by destruct m; rewrite list_lookup_insert_ne.
  - destruct Hor as [[? _]|(gg1 & Hg1 & Hm)]; [done|]. exists gg1. by rewrite list_lookup_insert_ne.
Qed.

Lemma shutdownRun_full cfg gi i cfg' gi' i' :
  shutdownRun cfg gi i cfg' → fullRow cfg gi' i' → fullRow cfg' gi' i'.
Proof.
  intros (gg & rn & old & Hg & _ & _ & _ & _ & Egs & _ & [= E1 E2 _] & _)%shutdownRun_Ret (gg1 & Hg1 & Hm).
  unfold fullRow. rewrite Egs, E1, E2.
  destruct (decide (gi' = gi)) as [->|Hne].
  - eexists. split; [apply list_lookup_insert_eq; by eapply lookup_lt_Some|]. cbn. by simplify_eq.
  - exists gg1. by rewrite list_lookup_insert_ne.
Qed.

(** A server whose ends have been made can be shut down. *)
Lemma ShutdownServer_total cfg gi i :
  hinv cfg → fullRow cfg gi i → (i < cn cfg)%nat → is_Ret (ShutdownServer cfg gi i).
Proof.
  intros Hinv (gg & Hg & Hrow) Hi. pose proof (hi_groups _ Hinv _ _ Hg) as (K1 & K2 & K3 & K4 & K5 & K6).
  destruct (Hrow false) as (row & Hr & Hlen), (Hrow true) as (mrow & Hm & _). unfold ShutdownServer, shutdownCut, nth_get.
  rewrite Hg. cbn [mbind outcome_bind]. rewrite Hr. cbn [mbind outcome_bind].
  match goal with |- context [loop ?f ?a ?l] => destruct (loop_total f a l) as [rn ->] end.
  { intros rn j Hj%elem_of_seq. destruct (lookup_lt_is_Some_2 row j) as [name ->]; [lia|]. by eexists. }
  cbn [mbind outcome_bind]. rewrite Hm. cbn [mbind outcome_bind].
  destruct (lookup_lt_is_Some_2 (saved gg) i) as [old ->]; [lia|]. cbn [mbind outcome_bind]. unfold shutdownNil, nth_get. cbn.
  rewrite list_lookup_insert_eq by (by eapply lookup_lt_Some). cbn.
  unfold nth_set. rewrite (proj2 (Nat.ltb_lt _ _)) by lia. by eexists.
Qed.

(** *** [make_config] *)

(** [k] groups have been made, with all their servers. *)
Definition made n k cfg : Prop :=
  hinv cfg ∧ dims cfg = (n, 3%nat, 3%nat, k) ∧ ∀ gi i, (gi < k)%nat → (i < n)%nat → fullRow cfg gi i.

Lemma makeGroup_made n d gi cfg cfg' :
  made n gi cfg → makeGroup startServer d cfg gi = Ret cfg' → made n (S gi) cfg' ∧ (n <= 3)%nat.
Proof.
  intros (Hinv & Hd & Hfull) H. unfold dims in Hd. injection Hd as En Ek Eg El.
  unfold makeGroup, StartGroup in H.
  assert (hinv (set_groups (groups cfg ++ [newGroup cfg gi]) cfg)) as Hnew by (rewrite <- El; by apply newGroup_hinv).
  eapply (loop_seq (λ j c, hinv c ∧ dims c = (n, 3%nat, 3%nat, S gi) ∧
    (∀ g i, (g < gi)%nat → (i < n)%nat → fullRow c g i) ∧ (∀ i, (i < j)%nat → fullRow c gi i) ∧ (j <= 3)%nat)) in H.
  - cbn in H. rewrite En in H. destruct H as (P1 & P2 & P3 & P4 & P5). split; [|done]. split_and!; [done..|].
    intros g i Hg Hi. destruct (decide (g = gi)) as [->|]; [by apply P4|]. apply P3; [lia|done].
  - split_and!; [done|unfold dims; cbn; rewrite length_app, El; cbn; f_equal; congruence || lia| |lia..].
    intros g i Hg Hi. destruct (Hfull g i Hg Hi) as (gg & Hgg & Hr). exists gg. split; [|done]. cbn.
    by apply lookup_app_l_Some.
  - intros j c c' Hj (P1 & P2 & P3 & P4 & P5) Hst%StartServer_run. split_and!.
    + by eapply startRun_hinv.
    + by rewrite (startRun_dims _ _ _ _ _ _ Hst).
    + intros g i Hg Hi. eapply startRun_full; [done|]. right. by apply P3.
    + intros i Hi. eapply startRun_full; [done|]. destruct (decide (i = j)) as [->|]; [by left|right]. apply P4. lia.
    + apply startRun_Ret in Hst as (gg & ? & ? & ? & ? & ? & Hgg & _ & _ & _ & _ & Hm & _).
      destruct (hi_groups _ P1 _ _ Hgg) as (_ & _ & _ & _ & K5 & _). unfold dims in P2. injection P2 as _ Ek' _ _. lia.
Qed.

Lemma newConfig_hinv n mrs : hinv (newConfig (RV := RV) (SV := SV) (Srv := Srv) (Ctl := Ctl) n mrs).
Proof.
  constructor; cbn; try done.
  - intros i. split; [|by intros []]. intros [sc Hsc]. by destruct i as [|[|[|i]]].
  - by intros g i [].
Qed.

Lemma make_config_made n unreliable mrs id d cfg :
  make_config startServer startCtrler n unreliable mrs id d = Ret cfg → made n 3 cfg ∧ (n <= 3)%nat.
Proof.
  unfold make_config. intros (c1 & H1 & H)%bind_Ret.
  eapply (loop_inv (λ c, hinv c ∧ dims c = (n, 3, 3, 0)%nat)) in H1 as [P1 P2].
  2: { split; [apply newConfig_hinv|done]. }
  2: { intros c i c' _ [Hi Hd] Hs. apply StartCtrlerserver_hinv in Hs as (? & -> & _); done. }
  apply bind_Ret in H as ([c2 ck] & H2 & H). unfold shardclerk in H2.
  apply bind_Ret in H2 as (rn & G%openEnds_opened%opened_grows & [= <- <-]).
  apply bind_Ret in H as (c3 & H3 & [= <-]). unfold dims in P2. injection P2 as E1 E2 E3 E4.
  assert (ngroups (set_mck (MakeClerk (Z.of_nat (nctrlers c1)) id) (set_net rn c1)) = 3%nat) as Eng by done.
  rewrite Eng in H3. eapply (loop_seq (λ k c, made n k c ∧ ((0 < k)%nat → (n <= 3)%nat))) in H3 as [(Q1 & Q2 & Q3) Q4].
  - split; [|by apply Q4; lia]. split_and!; [|done|done]. by eapply hinv_grows.
  - split; [|lia]. split_and!; [|unfold dims; cbn; congruence|lia]. by eapply hinv_grows.
  - intros j c c' Hj [Hm _] Hs. destruct (makeGroup_made _ _ _ _ _ Hm Hs). done.
Qed.

(** *** What a test does with its configuration *)

Inductive hstep cfg : config RV SV Srv Ctl → Prop :=
  | h_start gi i names mnames cfg' : startRun cfg gi i names mnames cfg' → hstep cfg cfg'
  | h_shutdown gi i cfg' : shutdownRun cfg gi i cfg' → hstep cfg cfg'
  | h_client ck names cfg' : makeClient cfg ck names = Ret cfg' → hstep cfg cfg'
  | h_delete ck : hstep cfg (deleteClient cfg ck)
  | h_end name server cfg' : make_end cfg name server = Ret cfg' → hstep cfg cfg'
  | h_clerk names id cfg' ck : shardclerk cfg names id = Ret (cfg', ck) → hstep cfg cfg'
  | h_join call fuel gis r cfg' : joinm call fuel cfg gis = Ret (r, cfg') → hstep cfg cfg'
  | h_leave call fuel gis r cfg' : leavem call fuel cfg gis = Ret (r, cfg') → hstep cfg cfg'
  | h_reliable yes : hstep cfg (set_net (Reliable (cnet cfg) yes) cfg)
  | h_reordering yes : hstep cfg (set_net (LongReordering (cnet cfg) yes) cfg)
  | h_delays yes : hstep cfg (set_net (LongDelays (cnet cfg) yes) cfg).

Inductive hreach (n : nat) : config RV SV Srv Ctl → Prop :=
  | hreach_init unreliable mrs id d cfg :
      make_config startServer startCtrler n unreliable mrs id d = Ret cfg → hreach n cfg
  | hreach_step cfg cfg' : hreach n cfg → hstep cfg cfg' → hreach n cfg'.

Lemma made_grows n cfg cfg' :
  made n 3 cfg → grows (cnet cfg) (cnet cfg') → groups cfg' = groups cfg → ctrlerservers cfg' = ctrlerservers cfg →
  dims cfg' = dims cfg → nextServer cfg' = nextServer cfg → made n 3 cfg'.
Proof.
  intros (Hinv & Hd & Hfull) G Eg Ec Ed Es. pose proof Ed as Ed'. unfold dims in Ed'. injection Ed' as E1 E2 _ _.
  split_and!; [by eapply hinv_grows|congruence|]. intros gi i Hg Hi. unfold fullRow. rewrite Eg, E1, E2. by apply Hfull.
Qed.

Lemma withClerk_frame {B} cfg (f : Clerk → outcome (option B * Clerk)) r cfg' :
  withClerk cfg f = Ret (r, cfg') → ∃ ck, cfg' = set_mck ck cfg.
Proof.
  unfold withClerk. destruct (mck cfg) as [ck|]; [|done]. intros ([r' ck'] & _ & [= _ <-])%bind_Ret. by exists ck'.
Qed.

Lemma hstep_made n cfg cfg' : made n 3 cfg → hstep cfg cfg' → made n 3 cfg'.
Proof.
  intros Hm Hst. destruct Hst as [gi i names mnames cfg' H|gi i cfg' H|ck names cfg' H|ck|name server cfg' H
    |names id cfg' ck H|call fuel gis r cfg' H|call fuel gis r cfg' H|yes|yes|yes].
  - destruct Hm as (Hinv & Hd & Hfull). split_and!; [by eapply startRun_hinv|by rewrite (startRun_dims _ _ _ _ _ _ H)|].
    intros gi' i' Hg Hi. eapply startRun_full; [done|]. right. by apply Hfull.
  - destruct Hm as (Hinv & Hd & Hfull). split_and!; [by eapply shutdownRun_hinv|by rewrite (shutdownRun_dims _ _ _ _ H)|].
    intros gi' i' Hg Hi. eapply shutdownRun_full; [done|]. by apply Hfull.
  - apply makeClient_grows in H as (es & rn & G & _ & ->). by eapply made_grows.
  - eapply made_grows; [done|apply grows_refl|done..].
  - unfold make_end in H. apply bind_Ret in H as (rn & G%grows_openEnd & [= <-]). by eapply made_grows.
  - unfold shardclerk in H. apply bind_Ret in H as (rn & G%openEnds_opened%opened_grows & [= <- _]). by eapply made_grows.
  - unfold joinm in H. apply bind_Ret in H as (m & _ & [ck' ->]%withClerk_frame). eapply made_grows; [done|apply grows_refl|done..].
  - unfold leavem in H. apply bind_Ret in H as (m & _ & [ck' ->]%withClerk_frame). eapply made_grows; [done|apply grows_refl|done..].
  - eapply made_grows; [done|by constructor|done..].
  - eapply made_grows; [done|by constructor|done..].
  - eapply made_grows; [done|by constructor|done..].
Qed.

Lemma hreach_made n cfg : hreach n cfg → made n 3 cfg.
Proof. induction 1 as [? ? ? ? ? H|? ? _ IH Hst]; [by apply make_config_made in H as [? _]|by eapply hstep_made]. Qed.

Lemma joinArgs_lookup cfg gis m g l :
  joinArgs cfg gis = Ret m → m !! g = Some l →
  ∃ gi gg, gi ∈ gis ∧ groups cfg !! gi = Some gg ∧ gid gg = g ∧ l = servername g <$> seq 0 (cn cfg).
Proof.
  unfold joinArgs. intros H. revert g l.
  apply (loop_inv (λ m, ∀ g l, m !! g = Some l →
    ∃ gi gg, gi ∈ gis ∧ groups cfg !! gi = Some gg ∧ gid gg = g ∧ l = servername g <$> seq 0 (cn cfg)) _ _ _ _ H); [done|].
  intros m0 x m1 Hx Hm (gg & Hg%nth_get_Ret & [= <-])%bind_Ret g l Hl.
  destruct (decide (g = gid gg)) as [->|Hne].
  - rewrite lookup_insert_eq in Hl. injection Hl as <-. by exists x, gg.
  - rewrite lookup_insert_ne in Hl by done. by apply Hm.
Qed.

(** C12. Between two operations of a test, in every state that the tester of the sharded
    store gets to, the names that [join] announces for a group are the names of its
    servers: an end that a clerk or another group makes to the i-th name is, at the moment
    it is made, enabled and leads to server i of the group and to no other while that
    server is running, and to nothing while it is shut down. *)
Theorem announced_reachable n cfg gis m g l i s e cfg' :
  hreach n cfg → joinArgs cfg gis = Ret m → m !! g = Some l → l !! i = Some s → make_end cfg e s = Ret cfg' →
  ∃ gi gg server, gi ∈ gis ∧ groups cfg !! gi = Some gg ∧ gid gg = g ∧ s = servername g i ∧
    readEndnameInfo (cnet cfg') e =
      (true, Some s, server, reliable (cnet cfg), longReordering (cnet cfg)) ∧
    (is_Some server ↔ running gg i) ∧
    (∀ s' a, server = Some a → serverAt (cnet cfg') s' = Some a → s' = s).
Proof.
  intros (Hinv & _)%hreach_made Hm Hg Hl H. destruct (joinArgs_lookup _ _ _ _ _ Hm Hg) as (gi & gg & Hin & Hgg & <- & ->).
  apply drawn_lookup in Hl as [_ ->]. unfold make_end in H. apply bind_Ret in H as (rn & [Hn ->]%openEnd_Ret & [= <-]).
  exists gi, gg, (serverAt (cnet cfg) (servername (gid gg) i)). split_and!; try done.
  - unfold readEndnameInfo. cbn. by rewrite !lookup_insert_eq.
  - symmetry. by eapply hi_running.
  - intros s' a Ha Hs'. by eapply (hi_addr_inj _ Hinv).
Qed.

(** In every state of a test any server can be shut down.  When that is done, whatever
    other goroutines did meanwhile, its ends to its group and to the configuration
    service are disabled and it cannot be called under its name; every other end that
    there was (also one that this server made with [make_end]) is as before, and so are
    all other servers. *)
Theorem shutdown_spec n cfg gi i :
  hreach n cfg → (gi < 3)%nat → (i < n)%nat →
  ∃ gg, groups cfg !! gi = Some gg ∧ is_Ret (ShutdownServer cfg gi i) ∧
    ∀ cfg', shutdownRun cfg gi i cfg' →
      (∀ m j e, rowName gg i m j = Some e → ¬ on (cnet cfg') e) ∧
      (∀ e, e ∈ ends (cnet cfg) → (∀ m j, rowName gg i m j ≠ Some e) → on (cnet cfg') e ↔ on (cnet cfg) e) ∧
      serverAt (cnet cfg') (servername (gid gg) i) = None ∧
      (∀ s, s ≠ servername (gid gg) i → serverAt (cnet cfg') s = serverAt (cnet cfg) s).
Proof.
  intros (Hinv & Hd & Hfull)%hreach_made Hgi Hi. unfold dims in Hd. injection Hd as En _ _ _.
  pose proof (Hfull gi i Hgi Hi) as Hrow. pose proof (ShutdownServer_total cfg gi i Hinv Hrow) as Htot.
  destruct Hrow as (gg & Hg & _). exists gg. split; [done|]. split; [apply Htot; lia|]. intros cfg' H.
  destruct (shutdown_ends _ _ _ _ _ Hinv H Hg) as (T1 & T4 & T5). split_and!; try done.
  - intros m j e He. destruct (hi_ends _ Hinv _ _ _ _ _ _ Hg He) as [L1 _]. rewrite (proj1 (T1 e L1)).
    intros [_ Hn]. by apply (Hn m j).
  - intros e Hin He. rewrite (proj1 (T1 e Hin)). tauto.
Qed.
End invariant.

(** ** The size of a group *)
Section sizes.
Context {RV SV Srv Ctl : Type}.
Context (startServer : nat → Z → Persister RV SV → Z → Z → outcome Srv) (startCtrler : nat → Z → outcome Ctl).
(** Servers start on empty persisters. *)
Context (Hstart : ∀ k me mrs g, is_Ret (startServer k me MakePersister mrs g)) (Hctrl : ∀ k me, is_Ret (startCtrler k me)).
Implicit Types (cfg : config RV SV Srv Ctl) (gi i j : nat).

Inductive drawKey := DC (i j : nat) | DK (j : nat) | DS (gi i j : nat) | DM (gi i j : nat).
Definition drawn (d : draws) (k : drawKey) : string :=
  match k with DC i j => d_ctrler d i j | DK j => d_clerk d j | DS gi i j => d_server d gi i j | DM gi i j => d_mserver d gi i j end.

Context (d : draws) (Hinj : Inj (=) (=) (drawn d)).

(** All ends have been drawn already. *)
Definition drawnFrom (seen : drawKey → Prop) cfg : Prop := ∀ e, e ∈ ends (cnet cfg) → ∃ k, seen k ∧ e = drawn d k.

Lemma drawnFrom_fresh seen cfg k : drawnFrom seen cfg → ¬ seen k → drawn d k ∉ ends (cnet cfg).
Proof using Hinj. intros Hd Hk (k' & Hk' & E)%Hd. apply (inj (drawn d)) in E. by subst. Qed.

Lemma drawnFrom_opened (seen seen' : drawKey → Prop) cfg cfg' names server k rn :
  drawnFrom seen cfg → opened names server k (cnet cfg) rn → ends (cnet cfg') = ends rn →
  (∀ x, seen x → seen' x) → (∀ j, (j < k)%nat → ∃ x, seen' x ∧ names j = drawn d x) → drawnFrom seen' cfg'.
Proof.
  intros Hd O E Hs Hn e. rewrite E. intros [(x & Hx & ->)%Hd|(j & Hj & ->)]%(op_ends _ _ _ _ _ O); [by exists x; auto|].
  by apply Hn.
Qed.

(** The configuration servers before [i], the clerk, the groups before [gi] and the
    servers of group [gi] before [i]. *)
Definition seenCtrl (i : nat) (k : drawKey) : Prop := match k with DC i' _ => (i' < i)%nat | _ => False end.
Definition seenGroup (gi i : nat) (k : drawKey) : Prop :=
  match k with
  | DC _ _ | DK _ => True
  | DS gi' i' _ | DM gi' i' _ => (gi' < gi)%nat ∨ (gi' = gi ∧ (i' < i)%nat)
  end.

Lemma StartCtrlerserver_drawn cfg i :
  drawnFrom (seenCtrl i) cfg → (i < length (ctrlerservers cfg))%nat →
  ∃ cfg', StartCtrlerserver startCtrler cfg i (d_ctrler d i) = Ret cfg' ∧ drawnFrom (seenCtrl (S i)) cfg' ∧
    length (ctrlerservers cfg') = length (ctrlerservers cfg).
Proof using Hctrl Hinj.
  intros Hd Hi. unfold StartCtrlerserver.
  destruct (openEnds_total (cnet cfg) (d_ctrler d i) ctrlername (nctrlers cfg)) as [rn Hrn].
  { intros j _. apply (drawnFrom_fresh _ _ (DC i j) Hd). cbn. lia. }
  { intros j j' _ _ E. apply (inj (drawn d) (DC i j) (DC i j')) in E. congruence. }
  rewrite Hrn. cbn. destruct (Hctrl (nctrlers cfg) (Z.of_nat i)) as [sc ->]. cbn.
  rewrite (proj2 (nth_set_Ret _ _ _ _) (conj Hi eq_refl)). cbn. eexists. split; [done|]. split; [|apply length_insert].
  eapply drawnFrom_opened; [done|apply (openEnds_opened _ _ _ _ _ Hrn)|done| |].
  - intros []; cbn; lia || done.
  - intros j _. exists (DC i j). split; [cbn; lia|done].
Qed.

Lemma StartServer_drawn cfg gi i gg :
  hinv cfg → groups cfg !! gi = Some gg → (i < cn cfg)%nat → (i < nctrlers cfg)%nat → saved gg !! i = Some None →
  drawnFrom (seenGroup gi i) cfg →
  ∃ cfg', StartServer startServer cfg gi i (d_server d gi i) (d_mserver d gi i) = Ret cfg' ∧
    drawnFrom (seenGroup gi (S i)) cfg' ∧
    ∃ gg', groups cfg' !! gi = Some gg' ∧ ∀ i', i' ≠ i → saved gg' !! i' = saved gg !! i'.
Proof using Hstart Hinj.
  intros Hinv Hg Hi Hi3 Hsv Hd. pose proof (hi_groups _ Hinv _ _ Hg) as (K1 & K2 & K3 & K4 & K5 & K6).
  unfold StartServer, startLocked. rewrite (proj2 (nth_get_Ret _ _ _) Hg). cbn [mbind outcome_bind].
  rewrite (proj2 (nth_set_Ret (endnames gg) _ _ _)) by (split; [lia|done]). cbn [mbind outcome_bind].
  destruct (openEnds_total (cnet cfg) (d_server d gi i) (servername (gid gg)) (cn cfg)) as [rn1 H1].
  { intros j _. apply (drawnFrom_fresh _ _ (DS gi i j) Hd). cbn. lia. }
  { intros j j' _ _ E. apply (inj (drawn d) (DS gi i j) (DS gi i j')) in E. congruence. }
  rewrite H1. cbn [mbind outcome_bind]. apply openEnds_opened in H1.
  set (seen1 := λ k, seenGroup gi i k ∨ ∃ j, k = DS gi i j).
  assert (drawnFrom seen1 (set_net rn1 cfg)) as Hd1.
  { eapply drawnFrom_opened; [exact Hd|exact H1|done|by left|]. intros j _. exists (DS gi i j). split; [right; by exists j|done]. }
  rewrite (proj2 (nth_set_Ret (mendnames gg) _ _ _)) by (split; [lia|done]). cbn [mbind outcome_bind].
  destruct (openEnds_total rn1 (d_mserver d gi i) ctrlername (nctrlers cfg)) as [rn2 H2].
  { intros j _. apply (drawnFrom_fresh _ _ (DM gi i j) Hd1). intros [Hs|[? ?]]; [cbn in Hs; lia|done]. }
  { intros j j' _ _ E. apply (inj (drawn d) (DM gi i j) (DM gi i j')) in E. congruence. }
  rewrite H2. cbn [mbind outcome_bind]. apply openEnds_opened in H2.
  rewrite (proj2 (nth_get_Ret _ _ _) Hsv). cbn [mbind outcome_bind].
  pose proof (lookup_lt_Some _ _ _ Hg) as Hlt. pose proof (lookup_lt_Some _ _ _ Hsv) as Hlsv.
  unfold startInstance, nth_get. cbn. rewrite list_lookup_insert_eq by done. cbn. rewrite list_lookup_insert_eq by done. cbn.
  destruct (Hstart (cn cfg) (Z.of_nat i) (cmaxraftstate cfg) (gid gg)) as [kv Hkv]. rewrite Hkv. cbn [mbind outcome_bind].
  rewrite (proj2 (nth_set_Ret (gservers gg) _ _ _)) by (split; [lia|done]). cbn [mbind outcome_bind].
  unfold registerServer, nth_get. cbn. rewrite list_insert_insert_eq, list_lookup_insert_eq by done. cbn.
  eexists. split; [done|]. split.
  - eapply (drawnFrom_opened seen1); [exact Hd1|exact H2|done| |].
    + intros k [Hk|[j ->]]; [|cbn; lia]. destruct k; cbn in *; lia || done.
    + intros j _. exists (DM gi i j). cbn. split; [lia|done].
  - eexists. split; [cbn; apply list_lookup_insert_eq; by eapply lookup_lt_Some|]. cbn. intros i' Hne.
    by rewrite list_lookup_insert_ne.
Qed.

(** The list of the names of the ends to the configuration service has three places. *)
Lemma StartServer_panics cfg gi i gg :
  hinv cfg → groups cfg !! gi = Some gg → (i < cn cfg)%nat → (nctrlers cfg <= i)%nat →
  drawnFrom (seenGroup gi i) cfg → StartServer startServer cfg gi i (d_server d gi i) (d_mserver d gi i) = Panic.
Proof using Hinj.
  intros Hinv Hg Hi Hi3 Hd. pose proof (hi_groups _ Hinv _ _ Hg) as (K1 & K2 & K3 & K4 & K5 & K6).
  unfold StartServer, startLocked. rewrite (proj2 (nth_get_Ret _ _ _) Hg). cbn [mbind outcome_bind].
  rewrite (proj2 (nth_set_Ret (endnames gg) _ _ _)) by (split; [lia|done]). cbn [mbind outcome_bind].
  destruct (openEnds_total (cnet cfg) (d_server d gi i) (servername (gid gg)) (cn cfg)) as [rn1 ->].
  { intros j _. apply (drawnFrom_fresh _ _ (DS gi i j) Hd). cbn. lia. }
  { intros j j' _ _ E. apply (inj (drawn d) (DS gi i j) (DS gi i j')) in E. congruence. }
  cbn [mbind outcome_bind]. unfold nth_set. by rewrite (proj2 (Nat.ltb_ge _ _)) by lia.
Qed.

(** The first [k] servers of a new group. *)
Definition groupUpTo (n gi j : nat) cfg : Prop :=
  hinv cfg ∧ dims cfg = (n, 3, 3, S gi)%nat ∧ drawnFrom (seenGroup gi j) cfg ∧
  ∃ gg, groups cfg !! gi = Some gg ∧ ∀ i, (j <= i < n)%nat → saved gg !! i = Some None.

Lemma startUpTo n gi k cfg :
  made n gi cfg → drawnFrom (seenGroup gi 0) cfg → (k <= n)%nat → (k <= 3)%nat →
  ∃ c, loop (λ c i, StartServer startServer c gi i (d_server d gi i) (d_mserver d gi i))
         (set_groups (groups cfg ++ [newGroup cfg gi]) cfg) (seq 0 k) = Ret c ∧ groupUpTo n gi k c.
Proof using Hstart Hinj.
  intros (Hinv & Hd & _) Hs Hkn Hk3. unfold dims in Hd. injection Hd as En Ek Eg El.
  apply (loop_seq_total (groupUpTo n gi)).
  - split_and!; [rewrite <- El; by apply newGroup_hinv| |done|].
    + unfold dims. cbn. rewrite length_app, El, En, Ek, Eg. cbn. f_equal. lia.
    + exists (newGroup cfg gi). split; [cbn; by apply list_lookup_middle|]. intros i Hi. cbn. rewrite En.
      apply lookup_replicate_2. lia.
  - intros j c Hj (P1 & P2 & P3 & gg & Hg & Hsv). pose proof P2 as P2'. unfold dims in P2'. injection P2' as F1 F2 _ _.
    destruct (StartServer_drawn c gi j gg) as (c' & Hst & Hdr & gg' & Hg' & Hsv'); try done; [lia|lia|apply Hsv; lia|].
    exists c'. split; [done|]. pose proof (StartServer_run _ _ _ _ _ _ _ Hst) as Hrun.
    split_and!; [by eapply startRun_hinv|by rewrite (startRun_dims _ _ _ _ _ _ _ Hrun)|done|].
    exists gg'. split; [done|]. intros i Hi. rewrite Hsv' by lia. apply Hsv. lia.
Qed.

Lemma makeGroup_drawn n cfg gi :
  made n gi cfg → (n <= 3)%nat → drawnFrom (seenGroup gi 0) cfg →
  ∃ cfg', makeGroup startServer d cfg gi = Ret cfg' ∧ drawnFrom (seenGroup (S gi) 0) cfg'.
Proof using Hstart Hinj.
  intros Hm Hn Hs. pose proof Hm as (_ & Hd & _). unfold dims in Hd. injection Hd as En Ek Eg El.
  unfold makeGroup, StartGroup. change (cn (set_groups (groups cfg ++ [newGroup cfg gi]) cfg)) with (cn cfg). rewrite En.
  destruct (startUpTo n gi n cfg Hm Hs) as (c & Hc & _ & _ & Hdr & _); [lia..|].
  exists c. split; [done|]. intros e (k & Hk & ->)%Hdr. exists k. split; [|done]. destruct k; cbn in *; lia || done.
Qed.

(** A fourth server cannot be started. *)
Lemma makeGroup_panics n cfg gi :
  made n gi cfg → (3 < n)%nat → drawnFrom (seenGroup gi 0) cfg → makeGroup startServer d cfg gi = Panic.
Proof using Hstart Hinj.
  intros Hm Hn Hs. pose proof Hm as (_ & Hd & _). unfold dims in Hd. injection Hd as En Ek Eg El.
  unfold makeGroup, StartGroup. change (cn (set_groups (groups cfg ++ [newGroup cfg gi]) cfg)) with (cn cfg). rewrite En.
  destruct (startUpTo n gi 3 cfg Hm Hs) as (c & Hc & P1 & P2 & P3 & gg & Hg & _); [lia..|].
  replace n with (3 + S (n - 4))%nat by lia. rewrite seq_app, loop_app, Hc. cbn.
  unfold dims in P2. injection P2 as F1 F2 _ _. rewrite (StartServer_panics c gi 3 gg); try done; lia.
Qed.

(** The configuration servers and the clerk, before the first group. *)
Lemma make_config_start n unreliable mrs id :
  ∃ c, made n 0 c ∧ drawnFrom (seenGroup 0 0) c ∧
    make_config startServer startCtrler n unreliable mrs id d =
      (cfg ← loop (makeGroup startServer d) c (seq 0 3); Ret (set_net (Reliable (cnet cfg) (negb unreliable)) cfg)).
Proof using Hstart Hctrl Hinj.
  unfold make_config.
  destruct (loop_seq_total (λ i c, hinv c ∧ dims c = (n, 3, 3, 0)%nat ∧ drawnFrom (seenCtrl i) c ∧ length (ctrlerservers c) = 3%nat)
    (λ c i, StartCtrlerserver startCtrler c i (d_ctrler d i)) (newConfig n mrs) 3) as (c1 & H1 & P1 & P2 & P3 & _).
  - split_and!; [apply newConfig_hinv|done| |done]. intros e. cbn. set_solver.
  - intros i c Hi (Q1 & Q2 & Q3 & Q4). destruct (StartCtrlerserver_drawn c i Q3) as (c' & Hc & Hd & El); [lia|].
    exists c'. split; [done|]. destruct (StartCtrlerserver_hinv _ _ _ _ _ Q1 Hc) as (? & Ed & _).
    split_and!; [done|congruence|done|congruence].
  - cbn zeta. change (nctrlers (newConfig n mrs)) with 3%nat. rewrite H1. cbn [mbind outcome_bind].
    pose proof P2 as P2'. unfold dims in P2'. injection P2' as F1 F2 F3 F4. unfold shardclerk.
    destruct (openEnds_total (cnet c1) (d_clerk d) ctrlername (nctrlers c1)) as [rn Hrn].
    { intros j _. apply (drawnFrom_fresh _ _ (DK j) P3). intros []. }
    { intros j j' _ _ E. apply (inj (drawn d) (DK j) (DK j')) in E. congruence. }
    rewrite Hrn. cbn [mbind outcome_bind]. apply openEnds_opened in Hrn.
    set (c2 := set_mck (MakeClerk (Z.of_nat (nctrlers c1)) id) (set_net rn c1)).
    change (ngroups c2) with (ngroups c1). rewrite F3. exists c2. split; [|split; [|done]].
    + split_and!; [|unfold dims; cbn; congruence|lia]. eapply hinv_grows; [exact P1|by eapply opened_grows|done..].
    + eapply drawnFrom_opened; [exact P3|exact Hrn|done| |]; [by intros []|]. intros j _. by exists (DK j).
Qed.

(** With at most three servers in a group the test can be set up. *)
Lemma make_config_total n unreliable mrs id :
  (n <= 3)%nat →
  ∃ cfg, make_config startServer startCtrler n unreliable mrs id d = Ret cfg ∧ drawnFrom (λ _, True) cfg.
Proof using Hstart Hctrl Hinj.
  intros Hn. destruct (make_config_start n unreliable mrs id) as (c2 & Hm2 & Hd2 & ->).
  destruct (loop_seq_total (λ k c, made n k c ∧ drawnFrom (seenGroup k 0) c) (makeGroup startServer d) c2 3)
    as (c3 & -> & _ & Hd3).
  - done.
  - intros k c _ [Hm Hd]. destruct (makeGroup_drawn n c k Hm Hn Hd) as (c' & Hc & Hd'). exists c'.
    split; [done|]. split; [by eapply makeGroup_made|done].
  - cbn [mbind outcome_bind]. eexists. split; [done|]. intros e He. destruct (Hd3 e He) as (k & _ & ->). by exists k.
Qed.

Lemma make_config_panics n unreliable mrs id :
  (3 < n)%nat → make_config startServer startCtrler n unreliable mrs id d = Panic.
Proof using Hstart Hctrl Hinj.
  intros Hn. destruct (make_config_start n unreliable mrs id) as (c2 & Hm2 & Hd2 & ->).
  cbn [seq loop]. by rewrite (makeGroup_panics n).
Qed.

(** The names of a clerk's ends have room for [cn cfg] of the [nctrlers cfg] that are drawn. *)
Lemma makeClient_upTo cfg (names : nat → string) k :
  Inj (=) (=) names → (∀ j, names j ∉ ends (cnet cfg)) → (k <= cn cfg)%nat →
  ∃ es rn, loop (λ '(es, rn) (j : nat), es ← nth_set es j (names j); rn ← openEnd rn (names j) (ctrlername j); Ret (es, rn))
    (replicate (cn cfg) ""%string, cnet cfg) (seq 0 k) = Ret (es, rn) ∧ length es = cn cfg.
Proof.
  intros Hni Hnd Hk.
  destruct (loop_seq_total (λ j '(es, rn), length es = cn cfg ∧ ∀ i, (j <= i)%nat → names i ∉ ends rn)
    (λ '(es, rn) (j : nat), es ← nth_set es j (names j); rn ← openEnd rn (names j) (ctrlername j); Ret (es, rn))
    (replicate (cn cfg) ""%string, cnet cfg) k) as ([es rn] & Hl & Hlen & _).
  - split; [apply length_replicate|done].
  - intros j [es rn] Hj [El Hf]. destruct (openEnd_total rn (names j) (ctrlername j)) as [rn' Hrn]; [by apply Hf|].
    exists (<[j := names j]> es, rn'). rewrite (proj2 (nth_set_Ret es _ _ _)) by (split; [lia|done]). cbn [mbind outcome_bind].
    rewrite Hrn. split; [done|]. rewrite length_insert. split; [done|]. apply openEnd_Ret in Hrn as [_ ->]. cbn.
    intros i Hi. rewrite not_elem_of_union, not_elem_of_singleton. split; [intros E%(inj names); lia|apply Hf; lia].
  - by exists es, rn.
Qed.

(** C37. The tester works for groups of three servers only.  With more, [make_config] panics:
    the list of the names of the ends to the configuration service has no place for the
    fourth server.  With fewer, [make_config] returns and [makeClient] panics: the list
    of the names of a clerk's ends has no place for the third configuration server.
    With three, both return. *)
Theorem tester_needs_three n unreliable mrs id ck (names : nat → string) :
  Inj (=) (=) names → (∀ j k, names j ≠ drawn d k) →
  ((3 < n)%nat → make_config startServer startCtrler n unreliable mrs id d = Panic) ∧
  ((n <= 3)%nat → ∃ cfg, make_config startServer startCtrler n unreliable mrs id d = Ret cfg ∧
     if decide (n = 3%nat) then is_Ret (makeClient cfg ck names) else makeClient cfg ck names = Panic).
Proof using Hstart Hctrl Hinj.
  intros Hni Hnd. split; [by apply make_config_panics|]. intros Hn.
  destruct (make_config_total n unreliable mrs id Hn) as (cfg & Hc & Hd). exists cfg. split; [done|].
  destruct (make_config_made _ _ _ _ _ _ _ _ Hc) as [(_ & Hdim & _) _]. unfold dims in Hdim. injection Hdim as En Ek _ _.
  assert (∀ j, names j ∉ ends (cnet cfg)) as Hfresh by (intros j (k & _ & E)%Hd; by apply Hnd in E).
  unfold makeClient. rewrite Ek. case_decide as E3.
  - destruct (makeClient_upTo cfg names 3 Hni Hfresh) as (es & rn & -> & _); [lia|]. cbn. by eexists.
  - destruct (makeClient_upTo cfg names (cn cfg) Hni Hfresh) as (es & rn & Hl & Hlen); [lia|].
    replace 3%nat with (cn cfg + S (2 - cn cfg))%nat at 1 by lia. rewrite seq_app, loop_app, Hl. cbn.
    unfold nth_set. by rewrite (proj2 (Nat.ltb_ge _ _)) by lia.
Qed.
End sizes.
