(* ===== verification/CtrlerHarness.v ===== *)
(** * CtrlerHarness: the tester of the configuration service

    [src/src/shardctrler/config.go] is the code of [src/src/kvraft/config.go] with
    configuration servers in place of key/value servers, except that [Leader] passes
    over servers that were shut down.  The operations are therefore those of
    ServiceHarness at these servers; [Leader] and what calls it are given here.

    [ctrl_tester_ready]: a test can be set up, and then every server reaches every
    server.  [ctrl_leader_spec]: what [Leader] finds.  [ctrl_partition_leader]: the
    parts that [make_partition] chooses can be made, and cut the leader off from a
    majority. *)

From S2P Require Import Prelude Labgob Persister RaftState RaftRpc RaftService Labrpc HarnessNet ServiceHarness ShardCtrler.
Local Open Scope Z_scope.

Section ctrler.
Context `{!GobSize (RaftGob Op)}.

Definition Server : Type := ShardCtrler (Raft Op unit).
Definition config : Type := ServiceHarness.config (RV := RaftGob Op) (SV := unit) (S := Server).
Implicit Types (cfg : config) (i : nat).

Definition startServer (n : nat) (me : Z) (ps : Persister (RaftGob Op) unit) : outcome Server :=
  ShardCtrler.StartServer n me ps.
(** [cfg.servers[i].rf.GetState()]. *)
Definition serverState (sc : Server) : Z * bool := GetState (sc_rf sc).

Definition All cfg : list nat := ServiceHarness.All cfg.
Definition connect cfg i (to : list nat) : outcome config := ServiceHarness.connect cfg i to.
Definition disconnect cfg i (from : list nat) : outcome config := ServiceHarness.disconnect cfg i from.
Definition ConnectAll cfg : outcome config := ServiceHarness.ConnectAll cfg.
Definition partition cfg (p1 p2 : list nat) : outcome config := ServiceHarness.partition cfg p1 p2.
Definition ConnectClient cfg (ck : nat) (to : list nat) : outcome config := ServiceHarness.ConnectClient cfg ck to.
Definition DisconnectClient cfg (ck : nat) (from : list nat) : outcome config :=
  ServiceHarness.DisconnectClient cfg ck from.
Definition makeClient cfg (ck : nat) (names : list string) (to : list nat) : outcome config :=
  ServiceHarness.makeClient cfg ck names to.
Definition deleteClient cfg (ck : nat) : config := ServiceHarness.deleteClient cfg ck.
Definition ShutdownServer cfg i : outcome config := ServiceHarness.ShutdownServer cfg i.
Definition StartServer cfg i (names : list string) : outcome config := ServiceHarness.StartServer startServer cfg i names.
Definition cleanup cfg : config := ServiceHarness.cleanup Kill cfg.
Definition LogSize cfg : outcome Z := ServiceHarness.LogSize cfg.
Definition make_config (n : nat) (unreliable : bool) (names : nat → list string) : outcome config :=
  ServiceHarness.make_config startServer n unreliable names.

(** The first server that is running and leads. *)
Fixpoint leaderFrom (l : list (option Server)) i : bool * nat :=
  match l with
  | [] => (false, 0%nat)
  | None :: l => leaderFrom l (i + 1)
  | Some sc :: l => if (serverState sc).2 then (true, i) else leaderFrom l (i + 1)
  end.
Definition Leader cfg : bool * nat := leaderFrom (take (cn cfg) (kvservers cfg)) 0.

Definition make_partition cfg : outcome (list nat * list nat) :=
  let '(_, l) := Leader cfg in partsAround (cn cfg) l.

(** ** What they do *)

Definition leads cfg i : Prop := ∃ sc, kvservers cfg !! i = Some (Some sc) ∧ (serverState sc).2 = true.

(** [r] is the place of the first leader in [l], counted from [i]. *)
Definition found (l : list (option Server)) i (r : bool * nat) : Prop :=
  if r.1 then (i <= r.2)%nat ∧ (∃ sc, l !! (r.2 - i)%nat = Some (Some sc) ∧ (serverState sc).2 = true) ∧
         ∀ j sc, (j < r.2 - i)%nat → l !! j = Some (Some sc) → (serverState sc).2 = false
  else r.2 = 0%nat ∧ ∀ j sc, l !! j = Some (Some sc) → (serverState sc).2 = false.

Lemma found_cons (x : option Server) l i r :
  (∀ sc, x = Some sc → (serverState sc).2 = false) → found l (i + 1) r → found (x :: l) i r.
Proof.
  intros Hx. destruct r as [[] k]; unfold found; cbn [fst snd].
  - intros (H1 & H2 & H3). split_and!; [lia| |].
    + by replace (k - i)%nat with (Datatypes.S (k - (i + 1))) by lia.
    + intros [|j] sc Hj E; cbn in E; [injection E; auto|]. apply (H3 j); [lia|done].
  - intros [H1 H2]. split; [done|]. intros [|j] sc E; cbn in E; [injection E; auto|by eapply H2].
Qed.

Lemma leaderFrom_spec l i : found l i (leaderFrom l i).
Proof.
  revert i. induction l as [|[sc|] l IH]; intros i; cbn [leaderFrom].
  - done.
  - destruct ((serverState sc).2) eqn:E; [|apply found_cons; [by intros ? [= <-]|done]].
    split_and!; cbn; [lia| |lia]. exists sc. by rewrite Nat.sub_diag.
  - by apply found_cons.
Qed.

(** [Leader] gives the first server that leads, whichever servers are shut down, and
    answers false when there is none. *)
Theorem ctrl_leader_spec cfg :
  match Leader cfg with
  | (true, l) => leads cfg l ∧ (l < cn cfg)%nat ∧ ∀ i, (i < l)%nat → ¬ leads cfg i
  | (false, l) => l = 0%nat ∧ ∀ i, (i < cn cfg)%nat → ¬ leads cfg i
  end.
Proof.
  pose proof (leaderFrom_spec (take (cn cfg) (kvservers cfg)) 0) as E. fold (Leader cfg) in E.
  destruct (Leader cfg) as [[] l]; unfold found in E; cbn [fst snd] in E; rewrite ?Nat.sub_0_r in E.
  - destruct E as (_ & (sc & [Hl Hlt]%lookup_take_Some & Ht) & Hbefore). split_and!; [by exists sc|done|].
    intros i Hi (sc' & Hs' & Ht'). rewrite (Hbefore i sc') in Ht'; [done|done|]. apply lookup_take_Some. split; [done|lia].
  - destruct E as [-> Hnone]. split; [done|]. intros i Hi (sc & Hs & Ht). rewrite (Hnone i sc) in Ht; [done|].
    by apply lookup_take_Some.
Qed.

Lemma leader_lt cfg : (0 < cn cfg)%nat → ((Leader cfg).2 < cn cfg)%nat.
Proof.
  intros Hn. pose proof (leaderFrom_spec (take (cn cfg) (kvservers cfg)) 0) as E. fold (Leader cfg) in E.
  destruct (Leader cfg) as [[] l]; unfold found in E; cbn [fst snd] in E |- *; rewrite ?Nat.sub_0_r in E.
  - destruct E as (_ & (sc & [_ Hlt]%lookup_take_Some & _) & _). lia.
  - by destruct E as [-> _].
Qed.

(** With an odd number of servers, [make_partition] always chooses a majority and a rest
    that holds the leader, and [partition] can be called with them; after it the leader
    reaches no server of the majority and none of them reaches the leader. *)
Theorem ctrl_partition_leader cfg k :
  fullNames (endnames cfg) (cn cfg) → cn cfg = (2 * k + 1)%nat → (0 < k)%nat →
  ∃ p1 p2 cfg', make_partition cfg = Ret (p1, p2) ∧ partition cfg p1 p2 = Ret cfg' ∧
    length p1 = (k + 1)%nat ∧ p1 ++ p2 ≡ₚ seq 0 (cn cfg) ∧ (Leader cfg).2 ∈ p2 ∧
    (∀ x e, x ∈ p1 → nameAt (endnames cfg) (Leader cfg).2 x = Ret e ∨ nameAt (endnames cfg) x (Leader cfg).2 = Ret e →
       ¬ on (cnet cfg') e) ∧
    (∀ x y e, x ∈ p1 → y ∈ p1 → nameAt (endnames cfg) x y = Ret e → on (cnet cfg') e).
Proof.
  intros Hfull Hn Hk. pose proof (leader_lt cfg ltac:(lia)) as Hl.
  destruct (partsAround_spec (cn cfg) k (Leader cfg).2 Hn Hk Hl) as (p1 & p2 & Hp & E1 & _ & Hperm & Hin).
  destruct (partition_spec cfg p1 p2 Hfull) as (cfg' & Hpart & _ & Hon).
  - rewrite Hperm. apply NoDup_seq.
  - intros x. rewrite Hperm, elem_of_seq. lia.
  - exists p1, p2, cfg'. split_and!; try done.
    + unfold make_partition. by destruct (Leader cfg).
    + intros x e Hx [He|He]; apply (proj1 (proj2 (Hon _ _ _ He))); auto.
    + intros x y e Hx Hy He. apply (proj1 (Hon _ _ _ He)). auto.
Qed.

(** When no name is drawn twice the test is set up, with all servers running, and every
    server reaches every server. *)
Theorem ctrl_tester_ready n unreliable (names : nat → list string) :
  (∀ i, length (names i) = n) → (∀ i j i' j' e, names i !! j = Some e → names i' !! j' = Some e → i = i' ∧ j = j') →
  ∃ cfg, make_config n unreliable names = Ret cfg ∧ fullNames (endnames cfg) (cn cfg) ∧ cn cfg = n ∧
    ∀ i j, (i < n)%nat → (j < n)%nat → ∃ e a, nameAt (endnames cfg) i j = Ret e ∧
      (readEndnameInfo (cnet cfg) e).1.1 = (true, Some j, Some a).
Proof.
  intros Hlen Hinj. destruct (make_config_ready startServer n unreliable names) as (cfg & H & Hf & En & Hr); [|done|done|].
  - intros me. by eexists.
  - by exists cfg.
Qed.
End ctrler.
