(* ===== verification/RaftOracle.v ===== *)
(** * RaftOracle: what the checks of the Raft tester mean

    [applier_exact]: the readers of [applyCh] accept a sequence of deliveries exactly
    when all servers got the same commands and no server left out an index.
    [nCommitted_spec], [one_spec] and [checkOneLeader_spec]: what a test knows when
    [nCommitted], [one] and [checkOneLeader] return. *)

From S2P Require Import Prelude Labgob Persister RaftState RaftRpc RaftLeader Labrpc HarnessNet RaftHarness.
Local Open Scope Z_scope.

Section oracle.
Context {C : Type} `{!EqDecision C}.
Implicit Types (cfg : config (C := C)) (i j : nat) (index : Z) (v : option C).

(** Server and message, in the order in which the readers handle them. *)
Implicit Types (d : nat * ApplyMsg C (HarnessGob C)) (ds : list (nat * ApplyMsg C (HarnessGob C))).

Definition deliverAll cfg ds : outcome config := loop (λ cfg d, applierStep cfg d.1 d.2) cfg ds.

(** After [ds], the command is the one every other server got at its index, and
    the server has got the command before it. *)
Definition fits ds d : Prop :=
  match d.2 with
  | SnapshotMsg _ _ _ => True
  | CommandMsg v index =>
      (∀ j v', (j, CommandMsg v' index) ∈ ds → v' = v) ∧
      (1 < index → ∃ v', (d.1, CommandMsg v' (index - 1)) ∈ ds)
  end.

Definition consistent ds : Prop := ∀ k d, ds !! k = Some d → fits (take k ds) d.

Lemma consistent_snoc ds d : consistent (ds ++ [d]) ↔ consistent ds ∧ fits ds d.
Proof.
  split.
  - intros H. split.
    + intros k x Hk. specialize (H k x). rewrite take_app_le in H by (apply lookup_lt_Some in Hk; lia).
      apply H. by apply lookup_app_l_Some.
    + specialize (H (length ds) d). rewrite take_app_length in H. apply H. by apply list_lookup_middle.
  - intros [H1 H2] k x [Hk|[Hk Hx]]%lookup_app_Some.
    + rewrite take_app_le by (apply lookup_lt_Some in Hk; lia). by apply H1.
    + apply list_lookup_singleton_Some in Hx as [Hk0 <-].
      replace k with (length ds) by lia. by rewrite take_app_length.
Qed.

(** The tester's copies of the logs hold what was delivered. *)
Definition recorded cfg ds : Prop :=
  ∀ j lg index v, logs cfg !! j = Some lg → lg !! index = Some v ↔ (j, CommandMsg v index) ∈ ds.

Lemma checkLogs_error (l : list (nat * gmap Z (option C))) index v (mk : nat → applyError) err :
  foldl (λ err '(j, lg),
      match lg !! index with
      | Some old => if decide (old = v) then err else Some (mk j)
      | None => err
      end) err l = None ↔ err = None ∧ ∀ j lg old, (j, lg) ∈ l → lg !! index = Some old → old = v.
Proof.
  revert err. induction l as [|[j lg] l IH]; intros err; cbn.
  { split; [intros ->; split; [done|set_solver]|by intros [-> _]]. }
  rewrite IH. setoid_rewrite elem_of_cons. destruct (lg !! index) as [old|] eqn:E; [case_decide|]; naive_solver.
Qed.

Lemma checkLogs_spec cfg i index v lg :
  logs cfg !! i = Some lg →
  ∃ err, checkLogs cfg i index v =
    Ret (set_maxIndex (if maxIndex cfg <? index then index else maxIndex cfg)
           (set_logs (<[i := <[index := v]> lg]> (logs cfg)) cfg), err,
         bool_decide (is_Some (lg !! (index - 1)))) ∧
    (err = None ↔ ∀ j lg' old, logs cfg !! j = Some lg' → lg' !! index = Some old → old = v).
Proof.
  intros Hlg. unfold checkLogs. set (err := foldl _ _ _). exists err. split.
  - apply nth_get_Ret in Hlg. rewrite Hlg. cbn. by destruct (maxIndex cfg <? index), cfg.
  - subst err. rewrite (checkLogs_error _ index v (DifferentValue index i)). split.
    + intros [_ H] j lg' old Hj. apply (H j). apply list_elem_of_lookup. exists j. by rewrite list_lookup_imap, Hj.
    + intros H. split; [done|]. intros j lg' old [k Hk]%list_elem_of_lookup. rewrite list_lookup_imap in Hk.
      apply fmap_Some in Hk as (x & Hx & [= -> ->]). by apply (H k).
Qed.

(** The servers of the deliveries exist. *)
Definition inRange cfg ds : Prop := ∀ d, d ∈ ds → (d.1 < length (logs cfg))%nat.

Lemma recorded_command cfg ds i index v lg mi :
  recorded cfg ds → logs cfg !! i = Some lg → (∀ v', (i, CommandMsg v' index) ∈ ds → v' = v) →
  recorded (set_maxIndex mi (set_logs (<[i := <[index := v]> lg]> (logs cfg)) cfg)) (ds ++ [(i, CommandMsg v index)]).
Proof.
  intros Hrec Hlg Hsame j lg' x y Hj. cbn in Hj. rewrite elem_of_app, list_elem_of_singleton.
  apply list_lookup_insert_Some in Hj as [(<- & <- & _)|[Hne Hj]].
  - rewrite <- (Hrec i lg x y Hlg). rewrite lookup_insert_Some. split.
    + intros [[<- <-]|[_ ?]]; [by right|by left].
    + intros [Hx|[= -> ->]]; [|by left]. destruct (decide (index = x)) as [<-|]; [left; split; [done|]|by right].
      symmetry. apply Hsame. by apply (Hrec i lg).
  - rewrite (Hrec j lg' x y Hj). naive_solver.
Qed.

(** One delivery: accepted exactly when it fits, and recorded. *)
Lemma applierStep_spec cfg ds d :
  recorded cfg ds → inRange cfg ds → (d.1 < length (logs cfg))%nat →
  (fits ds d ∧ ∃ cfg', applierStep cfg d.1 d.2 = Ret cfg' ∧ recorded cfg' (ds ++ [d]) ∧
     length (logs cfg') = length (logs cfg)) ∨
  (¬ fits ds d ∧ applierStep cfg d.1 d.2 = Fatal).
Proof.
  intros Hrec Hin Hi. destruct d as [i m]. cbn in *. destruct m as [v index|snap t index]; cbn.
  2: { left. split; [done|]. exists cfg. split_and!; [done| |done]. intros j lg x v Hj.
       rewrite (Hrec j lg x v Hj). set_solver. }
  destruct (lookup_lt_is_Some_2 _ _ Hi) as [lg Hlg].
  destruct (checkLogs_spec cfg i index v lg Hlg) as (err & -> & Herr). cbn.
  assert ((∀ j v', (j, CommandMsg v' index) ∈ ds → v' = v) ↔ err = None) as Hsame.
  { rewrite Herr. split.
    - intros H j lg' old Hj Ho. apply (H j). by apply (Hrec j lg').
    - intros H j v' Hv'. destruct (lookup_lt_is_Some_2 _ _ (Hin _ Hv')) as [lg' Hj]. apply (H j lg'); [done|].
      by apply (Hrec j lg'). }
  assert ((∃ v', (i, CommandMsg v' (index - 1)) ∈ ds) ↔ bool_decide (is_Some (lg !! (index - 1))) = true) as Hprev.
  { rewrite bool_decide_eq_true. split; intros [v' Hv']; exists v'; by apply (Hrec i lg). }
  unfold fits. cbn. rewrite Hsame, Hprev.
  destruct (bool_decide _); rewrite ?andb_false_r, ?andb_true_r; cbn.
  - destruct err; [right; split; [by intros [? _]|done]|left]. split; [done|]. eexists. split_and!; [done| |].
    + apply recorded_command; [done..|]. intros v'. by apply Hsame.
    + cbn. apply length_insert.
  - destruct (Z.ltb_spec 1 index); [right; split; [|done]; intros [_ ?]; auto with lia|].
    destruct err; [right; split; [by intros [? _]|done]|left]. split; [split; [done|lia]|]. eexists. split_and!; [done| |].
    + apply recorded_command; [done..|]. intros v'. by apply Hsame.
    + cbn. apply length_insert.
Qed.

Lemma deliverAll_spec cfg ds :
  (∀ lg, lg ∈ logs cfg → lg = ∅) → inRange cfg ds →
  (consistent ds ∧ ∃ cfg', deliverAll cfg ds = Ret cfg' ∧ recorded cfg' ds ∧ length (logs cfg') = length (logs cfg)) ∨
  (¬ consistent ds ∧ deliverAll cfg ds = Fatal).
Proof.
  intros Hempty. induction ds as [|d ds IH] using rev_ind; intros Hin.
  { left. split; [by intros k d|]. exists cfg. split_and!; [done| |done]. intros j lg x v Hj.
    rewrite (Hempty lg) by (by eapply list_elem_of_lookup_2). rewrite lookup_empty. set_solver. }
  unfold deliverAll in *. rewrite loop_app, consistent_snoc.
  destruct IH as [(Hc & cfg1 & -> & Hrec & Hlen)|[Hc ->]]; [set_solver| |right; split; [by intros [? _]|done]]. cbn.
  destruct (applierStep_spec cfg1 ds d Hrec) as [(Hf & cfg2 & -> & Hrec2 & Hlen2)|[Hf ->]].
  - intros x Hx. rewrite Hlen. apply Hin. set_solver.
  - rewrite Hlen. apply Hin. set_solver.
  - left. split; [done|]. exists cfg2. split_and!; [done..|congruence].
  - right. split; [by intros [_ ?]|done].
Qed.

(** C10. The readers of [applyCh], started with empty logs, accept a sequence of
    deliveries exactly when at every index all servers got one command and no
    server was given an index, 1 apart, before the index below it; otherwise they
    stop the test. *)
Theorem applier_exact cfg ds :
  (∀ lg, lg ∈ logs cfg → lg = ∅) → inRange cfg ds →
  (is_Ret (deliverAll cfg ds) ↔ consistent ds) ∧ (deliverAll cfg ds = Fatal ↔ ¬ consistent ds).
Proof.
  intros He Hin. destruct (deliverAll_spec cfg ds He Hin) as [(Hc & cfg' & -> & _)|[Hc ->]].
  - split; [split; [done|by eexists]|split; done].
  - split; [split; [by intros [? ?]|done]|done].
Qed.

(** ** How many servers have an index *)

Definition holders cfg index : list (gmap Z (option C)) :=
  filter (λ lg, is_Some (lg !! index)) (logs cfg).

(** The loop of [nCommitted] after [k] servers. *)
Lemma nCommitted_loop cfg index k r :
  nCommitted (mkConfig (finished cfg) (cnet cfg) (cn cfg) (take k (rafts cfg)) (applyErr cfg) (connected cfg)
                (saved cfg) (endnames cfg) (logs cfg) (appliedTo cfg) (maxIndex cfg) (maxIndex0 cfg) (nextServer cfg)) index = Ret r →
  (k <= length (rafts cfg))%nat →
  r.1 = zlen (filter (λ lg, is_Some (lg !! index)) (take k (logs cfg))) ∧
  ∀ lg v, lg ∈ take k (logs cfg) → lg !! index = Some v → v = r.2.
Proof.
  unfold nCommitted. cbn. intros H Hk. rewrite length_take, Nat.min_l in H by done. clear Hk. revert r H.
  induction k as [|k IH]; intros r H.
  { injection H as <-. split; [done|]. intros lg v Hlg. by apply not_elem_of_nil in Hlg. }
  rewrite seq_S, loop_app in H. apply bind_Ret in H as ([count cmd] & H1 & H). cbn in H.
  destruct (IH _ H1) as [Hcount Hall]. cbn in Hcount, Hall.
  apply bind_Ret in H as (r' & H & [= ->]). apply bind_Ret in H as (e & _ & H). destruct e; [done|].
  apply bind_Ret in H as (lg & Hlg%nth_get_Ret & H). rewrite (take_S_r _ _ _ Hlg), filter_app.
  setoid_rewrite elem_of_app. setoid_rewrite list_elem_of_singleton.
  destruct (lg !! index) as [cmd1|] eqn:E.
  - rewrite filter_cons_True, filter_nil by (by eexists).
    destruct ((0 <? count) && negb (bool_decide (cmd = cmd1))) eqn:Eb; [done|]. injection H as <-. cbn.
    split; [autorewrite with zlen; rewrite Hcount; done|].
    intros lg' v [Hlg'| ->] Hv; [|congruence]. rewrite (Hall _ _ Hlg' Hv).
    assert (0 < count) as Hpos.
    { rewrite Hcount. assert (lg' ∈ filter (λ lg, is_Some (lg !! index)) (take k (logs cfg))) as Hf
        by (apply list_elem_of_filter; split; [by eexists|done]).
      destruct (filter _ _); [by apply not_elem_of_nil in Hf|]. unfold zlen. cbn. lia. }
    rewrite (proj2 (Z.ltb_lt _ _) Hpos) in Eb. cbn in Eb. by apply negb_false_iff, bool_decide_eq_true in Eb.
  - rewrite filter_cons_False, filter_nil, app_nil_r by (by intros [? ?]; congruence). injection H as <-. cbn.
    split; [done|]. intros lg' v [Hlg'| ->] Hv; [by eapply Hall|congruence].
Qed.

(** [nCommitted] counts the servers that applied something at the index, and
    returns the one command that they applied. *)
Theorem nCommitted_spec cfg index count cmd :
  length (rafts cfg) = length (logs cfg) → nCommitted cfg index = Ret (count, cmd) →
  count = zlen (holders cfg index) ∧ ∀ lg v, lg ∈ logs cfg → lg !! index = Some v → v = cmd.
Proof.
  intros Hlen H. destruct (nCommitted_loop cfg index (length (rafts cfg)) (count, cmd)) as [H1 H2]; [|done|].
  - rewrite firstn_all. by destruct cfg.
  - rewrite Hlen, firstn_all in H1, H2. done.
Qed.

(** ** Agreement on a command *)

Lemma poll_true looks index cmd n :
  poll looks index cmd n = Ret true → ∃ cfg, cfg ∈ looks ∧ agreed cfg index cmd n = Ret true.
Proof.
  induction looks as [|cfg looks IH]; [done|]. cbn. intros (b & Hb & H)%bind_Ret. destruct b.
  - exists cfg. split; [left|done].
  - destruct (IH H) as (c & Hc & ?). exists c. split; [by right|done].
Qed.

(** When [one] returns an index, at some moment it looked at least the expected
    number of servers, and at least one, had applied the command there, and no
    server anything else; it returns -1 only when the test was finished. *)
Theorem one_spec rounds done_ cmd n retry starts index :
  (∀ cfg looks c, (cfg, looks) ∈ rounds → c ∈ looks → length (rafts c) = length (logs c)) →
  one rounds done_ cmd n retry starts = Ret index →
  (done_ = true ∧ index = -1) ∨
  ∃ cfg looks c, (cfg, looks) ∈ rounds ∧ c ∈ looks ∧ 0 < zlen (holders c index) ∧ n <= zlen (holders c index) ∧
    ∀ lg v, lg ∈ logs c → lg !! index = Some v → v = Some cmd.
Proof.
  revert starts. induction rounds as [|[cfg looks] rounds IH]; intros starts Hlen H; cbn in H.
  { destruct done_; [injection H as <-; by left|done]. }
  apply bind_Ret in H as ([[c1 starts1] [i|]] & _ & H).
  - apply bind_Ret in H as (b & Hb & H). destruct b.
    + injection H as ->. right. apply poll_true in Hb as (c & Hc & Ha). exists cfg, looks, c.
      split; [left|]. split; [done|]. unfold agreed in Ha. apply bind_Ret in Ha as ([nd cmd1] & Hn & [= Ha]).
      apply andb_prop in Ha as [[Hpos%Z.ltb_lt Hge%Z.leb_le]%andb_prop ->%bool_decide_eq_true].
      apply nCommitted_spec in Hn as [-> Hall]; [done|]. eapply Hlen; [left|done].
    + destruct retry; [|done]. destruct (IH starts1) as [?|(a & b & c & Hin & ?)]; [|done|by left|].
      * intros a b c Hab. eapply Hlen. by right.
      * right. exists a, b, c. split; [by right|done].
  - destruct (IH starts1) as [?|(a & b & c & Hin & ?)]; [|done|by left|].
    + intros a b c Hab. eapply Hlen. by right.
    + right. exists a, b, c. split; [by right|done].
Qed.

(** ** Leaders *)

Lemma leadersOf_snoc reads r :
  leadersOf (reads ++ [r]) =
  match r with
  | Some (term, true) => <[term := default [] (leadersOf reads !! term) ++ [length reads]]> (leadersOf reads)
  | _ => leadersOf reads
  end.
Proof.
  unfold leadersOf. rewrite imap_app, foldl_app. cbn. by rewrite Nat.add_0_r.
Qed.

Lemma leadersOf_spec reads :
  (∀ t l, leadersOf reads !! t = Some l → l ≠ [] ∧ NoDup l ∧ ∀ i, i ∈ l ↔ reads !! i = Some (Some (t, true))) ∧
  (∀ t i, reads !! i = Some (Some (t, true)) → is_Some (leadersOf reads !! t)).
Proof.
  induction reads as [|r reads [IH1 IH2]] using rev_ind.
  { split; [intros t l H; cbn in H; by rewrite lookup_empty in H|done]. }
  rewrite leadersOf_snoc.
  assert (∀ i x, (reads ++ [r]) !! i = Some x ↔ reads !! i = Some x ∨ (i = length reads ∧ r = x)) as Hl.
  { intros i x. rewrite lookup_app_Some, list_lookup_singleton_Some. naive_solver lia. }
  assert (∀ i x, reads !! i = Some x → i ≠ length reads) as Hne.
  { intros i x Hi%lookup_lt_Some. lia. }
  setoid_rewrite Hl. destruct r as [[term []]|]; [|split; naive_solver..].
  split.
  - intros t l Ht. apply lookup_insert_Some in Ht as [[<- <-]|[Hd Ht]].
    + destruct (leadersOf reads !! term) as [l0|] eqn:E; cbn.
      * destruct (IH1 _ _ E) as (_ & Hnd & Hin). split_and!.
        { by destruct l0. }
        { apply NoDup_app. split_and!; [done| |apply NoDup_singleton].
          intros x Hx%Hin ->%list_elem_of_singleton. by apply Hne in Hx. }
        { intros i. rewrite elem_of_app, list_elem_of_singleton, Hin. naive_solver. }
      * split_and!; [done|apply NoDup_singleton|]. intros i. rewrite list_elem_of_singleton. split; [naive_solver|].
        intros [Hi|[? _]]; [|done]. destruct (IH2 _ _ Hi). congruence.
    + destruct (IH1 _ _ Ht) as (? & ? & Hin). split_and!; [done..|]. intros i. rewrite Hin. naive_solver.
  - intros t i [Hi|[_ [= <-]]].
    + destruct (decide (term = t)) as [<-|]; [rewrite lookup_insert_eq; by eexists|].
      rewrite lookup_insert_ne by done. by eapply IH2.
    + rewrite lookup_insert_eq. by eexists.
Qed.

Lemma lastTermOf_Ret order last0 last :
  loop (λ last '(term, leaders),
      if (1 <? length (leaders : list nat))%nat then Fatal else Ret (if last <? term then term else last)) last0 order = Ret last →
  last0 <= last ∧ (last = last0 ∨ ∃ l, (last, l) ∈ order) ∧
  ∀ t l, (t, l) ∈ order → t <= last ∧ (length l <= 1)%nat.
Proof.
  revert last0. induction order as [|[t l] order IH]; intros last0 H; cbn -[Nat.ltb] in H.
  { injection H as <-. split_and!; [lia|by left|]. intros t l Hin. by apply not_elem_of_nil in Hin. }
  apply bind_Ret in H as (last1 & H1 & H). destruct (Nat.ltb_spec 1 (length l)); [done|]. injection H1 as <-.
  destruct (IH _ H) as (Hle & Hor & Hall). split_and!.
  - destruct (Z.ltb_spec last0 t); lia.
  - destruct Hor as [->|[l' Hl']]; [|right; exists l'; by right].
    destruct (Z.ltb_spec last0 t); [right; exists l; by left|by left].
  - intros t' l' [[= -> ->]|Hin]%elem_of_cons; [|auto]. split; [destruct (Z.ltb_spec last0 t); lia|lia].
Qed.

(** [l] is, of the servers that said they lead, the one with the latest term, and no
    other server said it leads that term. *)
Definition topLeader (reads : list (option (Z * bool))) (l : nat) : Prop :=
  ∃ term, reads !! l = Some (Some (term, true)) ∧
    ∀ i t, reads !! i = Some (Some (t, true)) → t <= term ∧ (t = term → i = l).

Lemma leaderRound_Ret reads order r :
  order ≡ₚ map_to_list (leadersOf reads) → leaderRound reads order = Ret r →
  (∀ i j t, reads !! i = Some (Some (t, true)) → reads !! j = Some (Some (t, true)) → i = j) ∧
  match r with
  | Some l => (∀ i t b, reads !! i = Some (Some (t, b)) → 0 <= t) → topLeader reads l
  | None => ∀ i t, reads !! i ≠ Some (Some (t, true))
  end.
Proof.
  intros Hord H. unfold leaderRound in H. apply bind_Ret in H as (last & (_ & Hor & Hall)%lastTermOf_Ret & H).
  destruct (leadersOf_spec reads) as [L1 L2].
  assert (∀ t l, (t, l) ∈ order ↔ leadersOf reads !! t = Some l) as Hin.
  { intros t l. by rewrite Hord, elem_of_map_to_list. }
  assert (∀ i j t, reads !! i = Some (Some (t, true)) → reads !! j = Some (Some (t, true)) → i = j) as Huniq.
  { intros i j t Hi Hj. destruct (L2 _ _ Hi) as [l Hl]. destruct (L1 _ _ Hl) as (_ & _ & He).
    apply He in Hi, Hj. apply Hin, Hall in Hl as [_ Hle]. destruct l as [|x [|y l]]; cbn in Hle; [|set_solver|lia].
    by apply not_elem_of_nil in Hi. }
  split; [done|]. destruct (decide (leadersOf reads = ∅)) as [E|E].
  { injection H as <-. intros i t Hi. destruct (L2 _ _ Hi) as [l Hl]. by rewrite E, lookup_empty in Hl. }
  apply bind_Ret in H as (l & Hl%nth_get_Ret & [= <-]). intros Hpos. exists last.
  destruct (leadersOf reads !! last) as [ls|] eqn:El; [|done]. cbn in Hl.
  destruct (L1 _ _ El) as (_ & _ & He). apply list_elem_of_lookup_2, He in Hl. split; [done|].
  intros i t Hi. split; [|intros ->; by eapply Huniq]. destruct (L2 _ _ Hi) as [l' Hl'%Hin]. by apply Hall in Hl' as [? _].
Qed.

(** When [checkOneLeader] returns a server, in its last round that server was the
    leader of the latest term among the connected servers, and no two of them
    led the same term.  Maps are visited in any order. *)
Theorem checkOneLeader_spec rounds l :
  (∀ moments order reads, (moments, order) ∈ rounds → readAll (C := C) moments = Ret reads →
     order ≡ₚ map_to_list (leadersOf reads) ∧ ∀ i t b, reads !! i = Some (Some (t, b)) → 0 <= t) →
  checkOneLeader rounds = Ret l →
  ∃ moments order reads, (moments, order) ∈ rounds ∧ readAll moments = Ret reads ∧ topLeader reads l ∧
    ∀ i j t, reads !! i = Some (Some (t, true)) → reads !! j = Some (Some (t, true)) → i = j.
Proof.
  intros Hok H. induction rounds as [|[moments order] rounds IH]; [done|]. cbn in H.
  apply bind_Ret in H as (reads & Hr & H). apply bind_Ret in H as (r & Hround & H).
  destruct (Hok moments order reads) as [Hord Hpos]; [left|done|].
  destruct (leaderRound_Ret _ _ _ Hord Hround) as [Hu Hl]. destruct r as [l'|].
  - injection H as ->. exists moments, order, reads. split; [left|auto].
  - destruct IH as (m & o & r & Hin & ?); [|done|].
    + intros m o r Hin. apply Hok. by right.
    + exists m, o, r. split; [by right|done].
Qed.

(** It does not stop a test over two leaders when there are none. *)
Lemma leaderRound_total reads order :
  order ≡ₚ map_to_list (leadersOf reads) → (∀ i t b, reads !! i = Some (Some (t, b)) → 0 <= t) →
  (∀ i j t, reads !! i = Some (Some (t, true)) → reads !! j = Some (Some (t, true)) → i = j) →
  is_Ret (leaderRound reads order).
Proof.
  intros Hord Hpos Huniq. destruct (leadersOf_spec reads) as [L1 L2].
  assert (∀ t l, (t, l) ∈ order → (length l <= 1)%nat) as Hlen.
  { intros t l. rewrite Hord, elem_of_map_to_list. intros (_ & Hnd & He)%L1. destruct l as [|x [|y l]]; cbn; [lia..|].
    assert (x = y) as <- by (apply (Huniq x y t); apply He; set_solver). apply NoDup_cons in Hnd as [? _]. set_solver. }
  assert (∀ last0, is_Ret (loop (λ last '(term, leaders),
      if (1 <? length (leaders : list nat))%nat then Fatal else Ret (if last <? term then term else last)) last0 order)) as Hloop.
  { clear Hord. induction order as [|[t l] order IH]; intros last0; cbn -[Nat.ltb]; [by eexists|].
    destruct (Nat.ltb_spec 1 (length l)) as [Hlt|_].
    - pose proof (Hlen t l ltac:(left)). lia.
    - cbn. apply IH. intros t' l' Hin. apply (Hlen t'). by right. }
  unfold leaderRound, lastTermOf. destruct (Hloop (-1)) as [last E]. rewrite E. cbn.
  apply lastTermOf_Ret in E as (_ & Hor & Hall). destruct (decide (leadersOf reads = ∅)) as [|Hne]; [by eexists|].
  assert (∃ l, (last, l) ∈ order) as [l Hl].
  { destruct Hor as [->|?]; [|done]. apply map_choose in Hne as (t & l & Hl). destruct (L1 _ _ Hl) as (Hn & _ & He).
    destruct l as [|x l]; [done|]. pose proof (Hpos x t true (proj1 (He x) ltac:(left))).
    destruct (Hall t (x :: l)); [by rewrite Hord, elem_of_map_to_list|lia]. }
  rewrite Hord, elem_of_map_to_list in Hl. rewrite Hl. cbn. destruct (L1 _ _ Hl) as (Hn & _).
  destruct l; [done|]. by eexists.
Qed.

(** ** Snapshots of the tester's service *)

(** A server that takes in a snapshot has the commands up to its index that the
    server that took it had, and nothing else; position 0 holds nil. *)
Theorem snapshot_roundtrip cfg i index lg :
  0 <= index → (i < length (logs cfg))%nat → (i < length (appliedTo cfg))%nat → lg !! 0 = None →
  (∀ x, 0 < x <= index → is_Some (lg !! x)) →
  ∃ cfg' lg', ingestSnap cfg i (xlogOf lg index) index = Ret (cfg', None) ∧ logs cfg' !! i = Some lg' ∧
    appliedTo cfg' !! i = Some index ∧ lg' !! 0 = Some None ∧
    (∀ x, 0 < x <= index → lg' !! x = lg !! x) ∧ (∀ x, x < 0 ∨ index < x → lg' !! x = None).
Proof.
  intros Hidx Hi Hj H0 Hall. unfold ingestSnap, xlogOf. rewrite Z.eqb_refl, andb_false_r.
  destruct (lookup_lt_is_Some_2 _ _ Hi) as [lg0 Hlg0]. rewrite (proj2 (nth_get_Ret _ _ _) Hlg0). cbn.
  set (xlog := (λ j : Z, default None (lg !! j)) <$> seqZ 0 (index + 1)).
  set (lg' := list_to_map _). eexists _, lg'. split; [done|]. cbn.
  split; [by apply list_lookup_insert_eq|]. split; [by apply list_lookup_insert_eq|].
  assert (∀ x v, lg' !! x = Some v ↔ 0 <= x <= index ∧ v = default None (lg !! x)) as Hlg'.
  { intros x v. unfold lg'. rewrite <- elem_of_list_to_map.
    - rewrite list_elem_of_lookup. setoid_rewrite list_lookup_imap. unfold xlog. setoid_rewrite fmap_Some.
      setoid_rewrite list_lookup_fmap_Some. setoid_rewrite lookup_seqZ. split.
      + intros (k & y & (z & -> & -> & Hz) & [= -> ->]). rewrite Z.add_0_l. split; [lia|done].
      + intros [Hx ->]. exists (Z.to_nat x). eexists. split; [exists x; split; [done|lia]|]. f_equal. lia.
    - apply NoDup_alt. intros a b y Ha Hb. rewrite list_lookup_fmap, list_lookup_imap in Ha, Hb.
      destruct (xlog !! a), (xlog !! b); cbn in *; simplify_eq. lia. }
  split_and!.
  - apply Hlg'. rewrite H0. split; [lia|done].
  - intros x Hx. destruct (Hall x Hx) as [v Hv]. rewrite Hv. apply Hlg'. rewrite Hv. split; [lia|done].
  - intros x Hx. apply eq_None_not_Some. intros [v [? _]%Hlg']. lia.
Qed.
End oracle.
