(* ===== verification/RaftTested.v ===== *)
(** * RaftTested: the tester on a Raft cluster

    The cluster of RaftReplication, with the readers of [applyCh] of the tester
    ([applier] of [src/src/raft/config.go]) at the ends of its feeds.  Whatever the
    tester disconnects is a loss of messages, which the cluster allows anyway; a
    server is crashed and started in one step.

    [tester_accepts]: no reader stops a test, and [nCommitted] always answers.
    [oneLeader_accepted]: [checkOneLeader] does not find two leaders of a term. *)

From S2P Require Import Prelude Labgob Persister RaftState RaftRpc RaftLeader RaftPeer RaftCluster RaftLinks RaftReplication RaftQuorums RaftInvariant RaftSteps RaftAppends RaftSafety RaftApply RaftFeed Labrpc HarnessNet RaftHarness RaftOracle.
Local Open Scope Z_scope.

Section tested.
Context {C : Type} `{!EqDecision C}.

Record TestRun := mkTestRun {
  tr_raft : World C (HarnessGob C);
  tr_cfg : config (C := C);
  tr_feeds : list (Feed C (HarnessGob C));
}.

Inductive tlabel :=
  | TRaft (l : rlabel C (HarnessGob C))
  | TCheck (p : nat)
  | TBegin (p : nat)
  | TReceive (p : nat)
  | TApply (p : nat)
  | TEnd (p : nat)
  | TStart (p : nat) (names : list string)
  | TConnect (p : nat)
  | TDisconnect (p : nat).

(** The steps of the cluster that are not refined here. *)
Definition tkept (l : rlabel C (HarnessGob C)) : bool :=
  match l with
  | RRestart _ | RCluster (LNode _ OpApplyCheck) | RCluster (LNode _ (OpApplyEnd _)) => false
  | _ => true
  end.

(** [cfg.rafts] and [cfg.saved] are the peers of the cluster and their persisters. *)
Definition seen (w : World C (HarnessGob C)) (cfg : config) : config :=
  set_saved (Some ∘ persister <$> nodes (cl w)) (set_rafts (Some <$> nodes (cl w)) cfg).

Definition tstep (l : tlabel) (s : TestRun) : option TestRun :=
  let '(mkTestRun w cfg fs) := s in
  match l with
  | TRaft l => if tkept l then w' ← rstep l w; Some (mkTestRun w' (seen w' cfg) fs) else None
  | TCheck p =>
      f ← fs !! p;
      rf ← nodes (cl w) !! p;
      if feedIdle f then
        '(_, next) ← returned (applyCheck rf);
        w' ← rstep (RCluster (LNode p OpApplyCheck)) w;
        Some (mkTestRun w' (seen w' cfg) (<[p := feedCheck next f]> fs))
      else None
  | TBegin p =>
      f ← fs !! p;
      rf ← nodes (cl w) !! p;
      next ← f_next f;
      batch ← returned (applyBegin rf next);
      Some (mkTestRun w cfg (<[p := feedBegin next batch f]> fs))
  | TReceive p => f ← fs !! p; f' ← feedReceive f; Some (mkTestRun w cfg (<[p := f']> fs))
  | TApply p =>
      f ← fs !! p;
      m ← f_inbox f;
      cfg' ← returned (applierStep cfg p m);
      Some (mkTestRun w cfg' (<[p := feedTake f]> fs))
  | TEnd p =>
      f ← fs !! p;
      match f_batch f, f_msgs f with
      | Some es, [] =>
          w' ← rstep (RCluster (LNode p (OpApplyEnd es))) w;
          Some (mkTestRun w' (seen w' cfg) (<[p := feedEnd f]> fs))
      | _, _ => None
      end
  | TStart p names =>
      w' ← rstep (RRestart p) w;
      cfg' ← returned (start1 (seen w cfg) p names);
      Some (mkTestRun w' (seen w' cfg') (<[p := idleFeed]> fs))
  | TConnect p => cfg' ← returned (connect cfg p); Some (mkTestRun w cfg' fs)
  | TDisconnect p => cfg' ← returned (disconnect cfg p); Some (mkTestRun w cfg' fs)
  end.

Definition tbenign (l : tlabel) (s : TestRun) : Prop :=
  match l with TRaft l => sbenign l (tr_raft s) | _ => True end.

(** A test of [n] servers, from [make_config]. *)
Inductive treach (n : nat) : TestRun → Prop :=
  | treach_init unreliable names cfg :
      make_config n unreliable names = Ret cfg →
      treach n (mkTestRun (initWorld n (λ _, [])) (seen (initWorld n (λ _, [])) cfg) (replicate n idleFeed))
  | treach_step l s s' : treach n s → tbenign l s → tstep l s = Some s' → treach n s'.

(** ** The invariant *)
Implicit Types (w : World C (HarnessGob C)) (wn : Wins) (rf : Raft C (HarnessGob C)) (cfg : config (C := C)).
Implicit Types (f : Feed C (HarnessGob C)) (fs : list (Feed C (HarnessGob C))) (lg : gmap Z (option C)) (k : Z).

(** The server has applied the commands up to [k] since it was started, and so have
    its earlier instances. *)
Definition readerOk w wn rf lg f : Prop :=
  ∃ k, 0 <= k ∧ feedOk w wn rf k f ∧ ∀ x, 0 < x <= k → is_Some (lg !! x).

Record tinv w wn cfg fs : Prop := {
  ti_raft : sinv w wn;
  ti_rafts : length (rafts cfg) = length (nodes (cl w));
  ti_logs : length (logs cfg) = length (nodes (cl w));
  ti_errs : applyErr cfg = replicate (length (nodes (cl w))) None;
  ti_feeds : length fs = length (nodes (cl w));
  ti_chosen lg x v : lg ∈ logs cfg → lg !! x = Some v → chosen w wn x v;
  ti_reader p rf lg f : nodes (cl w) !! p = Some rf → logs cfg !! p = Some lg → fs !! p = Some f →
    readerOk w wn rf lg f;
}.

(** A step of the cluster, in which feeds may change. *)
Lemma tinv_world w wn cfg fs l w' cfg' fs' :
  tinv w wn cfg fs → sbenign l w → rstep l w = Some w' →
  logs cfg' = logs cfg → applyErr cfg' = applyErr cfg → length fs' = length fs →
  (∀ wn' p rf' lg f', later w wn w' wn' → nodes (cl w') !! p = Some rf' → logs cfg !! p = Some lg →
     fs' !! p = Some f' → readerOk w' wn' rf' lg f') →
  ∃ wn', tinv w' wn' (seen w' cfg') fs'.
Proof.
  intros [Hs Hr Hl He Hf Hc _] Hb H El Ee Ef Hok.
  destruct (sinv_step _ _ _ _ Hs Hb H) as (wn' & Hlt & Hs'). pose proof (lt_length _ _ _ _ Hlt) as Hn.
  exists wn'. constructor; cbn; rewrite ?El, ?Ee, ?length_fmap, ?Hn; try done; [congruence| |].
  - intros lg x v Hlg Hx. eapply chosen_later; [done|]. by eapply Hc.
  - intros p rf lg f. by apply Hok.
Qed.

(** A feed that does not notice the step. *)
Lemma readerOk_served w wn w' wn' rf rf' lg f :
  later w wn w' wn' → served rf rf' → readerOk w wn rf lg f → readerOk w' wn' rf' lg f.
Proof. intros Hl Hs (k & Hk & Hf & Hx). exists k. split_and!; [done| |done]. by eapply feedOk_served. Qed.

Lemma readerOk_step w wn cfg fs l w' wn' p rf' lg f :
  tinv w wn cfg fs → sbenign l w → servedLabel l = true → rstep l w = Some w' → later w wn w' wn' →
  nodes (cl w') !! p = Some rf' → logs cfg !! p = Some lg → fs !! p = Some f → readerOk w' wn' rf' lg f.
Proof.
  intros Ht Hb Hl H Hlt Hp' Hlg Hf.
  destruct (rstep_served _ _ _ _ _ _ (ti_raft _ _ _ _ Ht) Hb Hl H Hp') as (rf & Hp & Hsv).
  eapply readerOk_served; [done..|]. by eapply ti_reader.
Qed.

Lemma tkept_served l : tkept l = true → servedLabel l = true.
Proof. by destruct l as [[? []| | | | | | |]| | | | | | | | | | | | | | | | |]. Qed.

Lemma tinv_check w wn cfg fs p f rf r next w' :
  tinv w wn cfg fs → fs !! p = Some f → nodes (cl w) !! p = Some rf → feedIdle f = true →
  applyCheck rf = Ret (r, next) → rstep (RCluster (LNode p OpApplyCheck)) w = Some w' →
  ∃ wn', tinv w' wn' (seen w' cfg) (<[p := feedCheck next f]> fs).
Proof.
  intros Ht Hf Hp Hi Ha H. assert (sbenign (RCluster (LNode p OpApplyCheck)) w) as Hb by (by destruct w).
  eapply tinv_world; [done..|apply length_insert|]. intros wn' q rf' lg f1 Hlt Hq Hlg Hf1.
  apply list_lookup_insert_Some in Hf1 as [(<- & <- & _)|[_ Hf1]]; [|by eapply readerOk_step].
  destruct (rstep_served _ _ _ _ _ _ (ti_raft _ _ _ _ Ht) Hb eq_refl H Hq) as (rf0 & Hp0 & Hsv). simplify_eq.
  destruct (ti_reader _ _ _ _ Ht p _ lg f Hp Hlg Hf) as (k & Hk & Hfo & Hx). exists k. split_and!; [done| |done].
  by eapply feedOk_check.
Qed.

Lemma tinv_end w wn cfg fs p f es w' :
  tinv w wn cfg fs → fs !! p = Some f → f_batch f = Some es → f_msgs f = [] →
  rstep (RCluster (LNode p (OpApplyEnd es))) w = Some w' →
  ∃ wn', tinv w' wn' (seen w' cfg) (<[p := feedEnd f]> fs).
Proof.
  intros Ht Hf Eb Em H.
  eapply (tinv_world _ _ _ _ (RCluster (LNode p (OpApplyEnd es)))); [done|by destruct w|done..|apply length_insert|].
  intros wn' q rf' lg f1 Hlt Hq Hlg Hf1. destruct (rstep_applyEnd _ _ _ _ H) as (rf & Hp & E). rewrite E in Hq.
  destruct (nodes_update (cl w) p rf (applyEnd rf es) q rf' Hp Hq) as [[-> ->]|[Hne Hq']].
  - rewrite list_lookup_insert_eq in Hf1 by (by eapply lookup_lt_Some). injection Hf1 as <-.
    destruct (ti_reader _ _ _ _ Ht p rf lg f Hp Hlg Hf) as (k & Hk & Hfo & Hx). exists k.
    split_and!; [done| |done]. by eapply feedOk_end.
  - rewrite list_lookup_insert_ne in Hf1 by done. eapply readerOk_served; [done|apply served_refl|]. by eapply ti_reader.
Qed.

Lemma tinv_start w wn cfg fs p names cfg' w' :
  tinv w wn cfg fs → rstep (RRestart p) w = Some w' → start1 (seen w cfg) p names = Ret cfg' →
  ∃ wn', tinv w' wn' (seen w' cfg') (<[p := idleFeed]> fs).
Proof.
  intros Ht H Hst. destruct (rstep_restart _ _ _ H) as (rf & r & Hp & Hr & E).
  destruct (lookup_lt_is_Some_2 (logs cfg) p) as [lg Hlg].
  { rewrite (ti_logs _ _ _ _ Ht). by eapply lookup_lt_Some. }
  destruct (lookup_lt_is_Some_2 fs p) as [f Hf].
  { rewrite (ti_feeds _ _ _ _ Ht). by eapply lookup_lt_Some. }
  destruct (ti_reader _ _ _ _ Ht p rf lg f Hp Hlg Hf) as (k & Hk & Hfo & Hx).
  destruct (start1_frame _ _ _ _ Hst) as (E1 & E2 & E3 & _).
  { intros ps Hps. cbn in Hps. rewrite list_lookup_fmap, Hp in Hps. injection Hps as <-. apply Hfo. }
  eapply (tinv_world _ _ _ _ (RRestart p)); [done|by destruct w|done..|apply length_insert|].
  intros wn' q rf' lg' f1 Hlt Hq Hlg' Hf1. rewrite E in Hq.
  destruct (nodes_update (cl w) p rf r q rf' Hp Hq) as [[-> ->]|[Hne Hq']].
  - rewrite list_lookup_insert_eq in Hf1 by (by eapply lookup_lt_Some). injection Hf1 as <-.
    exists 0. split_and!; [done| |lia]. by eapply feedOk_restart; [apply (ti_raft _ _ _ _ Ht)|..].
  - rewrite list_lookup_insert_ne in Hf1 by done. eapply readerOk_served; [done|apply served_refl|]. by eapply ti_reader.
Qed.

(** Only the logs and the errors matter of the tester. *)
Lemma tinv_cfg w wn cfg cfg' fs :
  rafts cfg' = rafts cfg → logs cfg' = logs cfg → applyErr cfg' = applyErr cfg → tinv w wn cfg fs → tinv w wn cfg' fs.
Proof. intros Er El Ee [H1 H2 H3 H4 H5 H6 H7]. constructor; rewrite ?Er, ?El, ?Ee; done. Qed.

(** The next message of a reader is the next chosen command. *)
Lemma tinv_inbox w wn cfg fs p f m :
  tinv w wn cfg fs → fs !! p = Some f → f_inbox f = Some m →
  ∃ rf lg c k, nodes (cl w) !! p = Some rf ∧ logs cfg !! p = Some lg ∧ m = CommandMsg c (k + 1) ∧
    chosen w wn (k + 1) c ∧ 0 <= k ∧ (∀ x, 0 < x <= k → is_Some (lg !! x)) ∧ feedOk w wn rf (k + 1) (feedTake f).
Proof.
  intros Ht Hf Hm. pose proof (lookup_lt_Some _ _ _ Hf) as Hlt. rewrite (ti_feeds _ _ _ _ Ht) in Hlt.
  destruct (lookup_lt_is_Some_2 _ _ Hlt) as [rf Hp]. rewrite <- (ti_logs _ _ _ _ Ht) in Hlt.
  destruct (lookup_lt_is_Some_2 _ _ Hlt) as [lg Hlg].
  destruct (ti_reader _ _ _ _ Ht p rf lg f Hp Hlg Hf) as (k & Hk & Hfo & Hx).
  destruct (feedOk_take _ _ _ _ _ _ Hm Hfo) as (c & -> & Hc & Hfo'). by exists rf, lg, c, k.
Qed.

Lemma tinv_apply w wn cfg fs p f m :
  tinv w wn cfg fs → fs !! p = Some f → f_inbox f = Some m →
  ∃ cfg', applierStep cfg p m = Ret cfg' ∧ tinv w wn cfg' (<[p := feedTake f]> fs).
Proof.
  intros Ht Hf Hm. destruct (tinv_inbox _ _ _ _ _ _ _ Ht Hf Hm) as (rf & lg & c & k & Hp & Hlg & -> & Hc & Hk & Hx & Hfo).
  destruct (checkLogs_spec cfg p (k + 1) c lg Hlg) as (err & Hcl & Herr). cbn. rewrite Hcl. cbn.
  rewrite (proj2 Herr).
  2: { intros j lg' old Hj Ho. apply (chosen_fun w wn (k + 1)); [apply (ti_raft _ _ _ _ Ht)| |done].
       eapply ti_chosen; [done| |done]. by eapply list_elem_of_lookup_2. }
  assert ((1 <? k + 1) && negb (bool_decide (is_Some (lg !! (k + 1 - 1)))) = false) as ->.
  { destruct (Z.ltb_spec 1 (k + 1)); [|done]. rewrite bool_decide_true; [done|]. apply Hx. lia. }
  eexists. split; [done|]. destruct Ht as [H1 H2 H3 H4 H5 H6 H7].
  constructor; cbn; rewrite ?length_insert; try done.
  - intros lg' x v [j Hj]%list_elem_of_lookup Hv.
    apply list_lookup_insert_Some in Hj as [(<- & <- & _)|[_ Hj]]; [|by eapply H6; [eapply list_elem_of_lookup_2|]].
    apply lookup_insert_Some in Hv as [[<- <-]|[_ Hv]]; [done|]. by eapply H6; [eapply list_elem_of_lookup_2|].
  - intros q rf' lg' f' Hq Hl Hf'.
    apply list_lookup_insert_Some in Hl as [(<- & <- & _)|[Hne Hl]].
    + rewrite list_lookup_insert_eq in Hf' by (by eapply lookup_lt_Some). simplify_eq. exists (k + 1).
      split_and!; [lia|done|]. intros x Hr. destruct (decide (x = k + 1)) as [->|]; [rewrite lookup_insert_eq; by eexists|].
      rewrite lookup_insert_ne by done. apply Hx. lia.
    + rewrite list_lookup_insert_ne in Hf' by done. by eapply H7.
Qed.

(** Only a feed changes. *)
Lemma tinv_feed w wn cfg fs p f f' :
  tinv w wn cfg fs → fs !! p = Some f →
  (∀ rf k, nodes (cl w) !! p = Some rf → feedOk w wn rf k f → feedOk w wn rf k f') →
  tinv w wn cfg (<[p := f']> fs).
Proof.
  intros [H1 H2 H3 H4 H5 H6 H7] Hf Hr. constructor; rewrite ?length_insert; try done.
  intros q rf lg g Hq Hlg Hg. apply list_lookup_insert_Some in Hg as [(<- & <- & _)|[_ Hg]]; [|by eapply H7].
  destruct (H7 _ _ _ _ Hq Hlg Hf) as (k & Hk & Hfo & Hx). exists k. split_and!; [done|by apply Hr|done].
Qed.

Lemma tinv_step l s wn s' :
  tinv (tr_raft s) wn (tr_cfg s) (tr_feeds s) → tbenign l s → tstep l s = Some s' →
  ∃ wn', tinv (tr_raft s') wn' (tr_cfg s') (tr_feeds s').
Proof.
  intros Ht Hb H. destruct s as [w cfg fs]. cbn in Ht, Hb. unfold tstep in H. destruct l.
  - destruct (tkept l) eqn:Hk; [|done]. apply tkept_served in Hk. apply bind_Some in H as (w' & H & [= <-]).
    eapply tinv_world; [done..|]. intros. by eapply readerOk_step.
  - apply bind_Some in H as (f & Hf & H). apply bind_Some in H as (rf & Hp & H).
    destruct (feedIdle f) eqn:Ef; [|done].
    destruct (applyCheck rf) as [[r next]| | |] eqn:Ha; cbn -[rstep] in H; try done.
    apply bind_Some in H as (w' & H & [= <-]). by eapply tinv_check.
  - apply bind_Some in H as (f & Hf & H). apply bind_Some in H as (rf & Hp & H).
    apply bind_Some in H as (next & Hn & H).
    destruct (applyBegin rf next) as [batch| | |] eqn:Ha; cbn in H; try done. injection H as <-.
    exists wn. eapply tinv_feed; [done..|]. intros r k Hr. cbn in Hr. simplify_eq.
    by eapply feedOk_begin; [apply (ti_raft _ _ _ _ Ht)|..].
  - apply bind_Some in H as (f & Hf & H). apply bind_Some in H as (f' & Hr & [= <-]). exists wn.
    eapply tinv_feed; [done..|]. intros rf k _. by apply feedOk_receive.
  - apply bind_Some in H as (f & Hf & H). apply bind_Some in H as (m & Hm & H).
    destruct (tinv_apply _ _ _ _ _ _ _ Ht Hf Hm) as (cfg' & E & Ht'). rewrite E in H. injection H as <-. by exists wn.
  - apply bind_Some in H as (f & Hf & H). destruct (f_batch f) as [es|] eqn:Eb; [|done].
    destruct (f_msgs f) eqn:Em; [|done]. apply bind_Some in H as (w' & H & [= <-]). by eapply tinv_end.
  - apply bind_Some in H as (w' & H & Hst). destruct (start1 _ _ _) as [cfg'| | |] eqn:E; cbn in Hst; try done.
    injection Hst as <-. by eapply tinv_start.
  - destruct (connect cfg p) as [cfg'| | |] eqn:E; cbn in H; try done. injection H as <-. exists wn.
    apply connect_switch in E as (rn & -> & _). by eapply tinv_cfg; [..|exact Ht].
  - destruct (disconnect cfg p) as [cfg'| | |] eqn:E; cbn in H; try done. injection H as <-. exists wn.
    apply disconnect_switch in E as (rn & -> & _). by eapply tinv_cfg; [..|exact Ht].
Qed.

Lemma tinv_reach n s : treach n s → ∃ wn, tinv (tr_raft s) wn (tr_cfg s) (tr_feeds s).
Proof.
  induction 1 as [u names cfg Hm|l s s' _ [wn Ht] Hb H]; [|by eapply tinv_step]. exists ∅.
  apply make_config_frame in Hm as (_ & He & Hl). constructor; cbn; rewrite ?He, ?Hl, ?length_fmap, ?length_replicate, ?length_seq; try done.
  - apply sinv_init.
  - intros lg x v [-> _]%elem_of_replicate Hv. by rewrite lookup_empty in Hv.
  - intros p rf lg f Hp Hlg Hf. apply list_lookup_fmap_Some in Hp as (x & -> & _).
    apply lookup_replicate in Hf as [-> _]. exists 0. split_and!; [done|by apply feedOk_init|lia].
Qed.

(** [nCommitted] answers when the copies of the logs agree. *)
Lemma nCommitted_total cfg index :
  length (rafts cfg) = length (logs cfg) → applyErr cfg = replicate (length (logs cfg)) None →
  (∀ lg lg' v v', lg ∈ logs cfg → lg' ∈ logs cfg → lg !! index = Some v → lg' !! index = Some v' → v = v') →
  is_Ret (nCommitted cfg index).
Proof.
  intros Hlen Herr Hagree. unfold nCommitted. rewrite Hlen.
  assert (∀ n, (n <= length (logs cfg))%nat → ∃ count cmd,
    loop (λ '(count, cmd) i,
      e ← nth_get (applyErr cfg) i;
      match e with
      | Some _ => Fatal
      | None =>
          lg ← nth_get (logs cfg) i;
          match lg !! index with
          | Some cmd1 => if (0 <? count) && negb (bool_decide (cmd = cmd1)) then Fatal else Ret (count + 1, cmd1)
          | None => Ret (count, cmd)
          end
      end) (0, None) (seq 0 n) = Ret (count, cmd) ∧ (0 < count → ∃ lg, lg ∈ logs cfg ∧ lg !! index = Some cmd)) as Hall.
  { induction n as [|n IH]; intros Hn; [by exists 0, None|].
    destruct IH as (count & cmd & E & Hcmd); [lia|]. rewrite seq_S, loop_app, E. cbn.
    assert (applyErr cfg !! n = Some None) as He by (rewrite Herr; apply lookup_replicate; split; [done|lia]).
    rewrite (proj2 (nth_get_Ret _ _ _) He). cbn.
    destruct (lookup_lt_is_Some_2 (logs cfg) n) as [lg Hlg]; [lia|]. rewrite (proj2 (nth_get_Ret _ _ _) Hlg). cbn.
    apply list_elem_of_lookup_2 in Hlg. destruct (lg !! index) as [cmd1|] eqn:E1; [|by exists count, cmd].
    assert ((0 <? count) && negb (bool_decide (cmd = cmd1)) = false) as ->.
    { destruct (Z.ltb_spec 0 count) as [Hpos|]; [|done]. destruct (Hcmd Hpos) as (lg' & Hl' & Hv').
      rewrite bool_decide_true; [done|]. exact (Hagree _ _ _ _ Hl' Hlg Hv' E1). }
    exists (count + 1), cmd1. split; [done|]. intros _. by exists lg. }
  destruct (Hall (length (logs cfg)) ltac:(lia)) as (count & cmd & E & _). rewrite E. by eexists.
Qed.

(** C9. On a Raft cluster, with lost, delayed and repeated messages, elections, restarts
    and whatever a test connects and disconnects, the readers of [applyCh] in the tester
    (those of the tests without snapshots) accept every command they are given, and
    [nCommitted] always answers.  The run takes no snapshots and leaves out the
    interleavings that are reported as defects of Raft: an election that a peer starts
    although it has meanwhile become leader, and commit counts, commit writes and
    heartbeat replies that a peer handles after it has stopped leading their term.  The
    findings raft.go:979 and 1297 are about these conditions. *)
Theorem tester_accepts n s :
  treach n s →
  (∀ p f m, tr_feeds s !! p = Some f → f_inbox f = Some m → is_Ret (applierStep (tr_cfg s) p m)) ∧
  ∀ index, is_Ret (nCommitted (tr_cfg s) index).
Proof.
  intros [wn Ht]%tinv_reach. split.
  - intros p f m Hf Hm. destruct (tinv_apply _ _ _ _ _ _ _ Ht Hf Hm) as (cfg' & E & _). by exists cfg'.
  - intros index. apply nCommitted_total.
    + by rewrite (ti_rafts _ _ _ _ Ht), (ti_logs _ _ _ _ Ht).
    + by rewrite (ti_errs _ _ _ _ Ht), (ti_logs _ _ _ _ Ht).
    + intros lg lg' v v' Hl Hl' Hv Hv'. 
      exact (chosen_fun _ _ index v v' (proj1 (proj2 (proj2 (ti_raft _ _ _ _ Ht))))
        (ti_chosen _ _ _ _ Ht lg _ _ Hl Hv) (ti_chosen _ _ _ _ Ht lg' _ _ Hl' Hv')).
Qed.

(** ** Leaders *)

(** [reads] are states of the peers, peer [i] read in the [i]-th of the clusters. *)
Definition sampled (cs : list (Cluster C (HarnessGob C))) (reads : list (option (Z * bool))) : Prop :=
  ∀ i r, reads !! i = Some (Some r) → ∃ c rf, cs !! i = Some c ∧ nodes c !! i = Some rf ∧ r = GetState rf.

(** A round of [checkOneLeader] does not stop the test: of the states it reads, each
    at a moment of its own, no two lead the same term. *)
Theorem oneLeader_accepted n cs reads order :
  (∀ i c, cs !! i = Some c → benignRun (initCluster n (λ _, [])) c) →
  (∀ i j c c', (i <= j)%nat → cs !! i = Some c → cs !! j = Some c' → benignRun c c') →
  sampled cs reads → order ≡ₚ map_to_list (leadersOf reads) →
  is_Ret (leaderRound reads order).
Proof.
  intros Hinit Hrun Hs Hord.
  assert (∀ i c, cs !! i = Some c → cinv c) as Hc.
  { intros i c Hi. exact (cinv_run _ _ (Hinit i c Hi) (cinv_init n (λ _, []))). }
  assert (∀ i t, reads !! i = Some (Some (t, true)) → ∃ c, cs !! i = Some c ∧ leads c i t) as Hleads.
  { intros i t Hi. destruct (Hs i _ Hi) as (c & rf & Hci & Hn & [= Ht Hl]). exists c. split; [done|].
    exists rf. split_and!; [done| |done]. unfold isState in Hl. by apply (bool_decide_eq_true _), eq_sym. }
  apply leaderRound_total; [done| |].
  - intros i t b Hi. destruct (Hs i _ Hi) as (c & rf & Hci & Hn & [= -> _]).
    destruct (inv_node _ (Hc i c Hci) _ _ Hn) as (Hwf & _). apply Hwf.
  - intros i j t Hi Hj. destruct (Hleads i t Hi) as (c & Hci & Hl), (Hleads j t Hj) as (c' & Hcj & Hl').
    destruct (decide (i <= j)%nat).
    + exact (leads_agree c c' i j t (Hc i c Hci) (Hrun i j c c' ltac:(lia) Hci Hcj) Hl Hl').
    + symmetry. exact (leads_agree c' c j i t (Hc j c' Hcj) (Hrun j i c' c ltac:(lia) Hcj Hci) Hl' Hl).
Qed.
End tested.
