(* ===== verification/RaftTestedExamples.v ===== *)
(** * RaftTestedExamples: the tester at work

    A test of three servers: leader 0 commits a command with server 1, both
    readers accept it, server 1 is crashed, started again and applies it again. *)

From S2P Require Import Prelude Labgob Persister RaftState RaftRpc RaftLeader RaftPeer RaftCluster RaftLinks RaftReplication RaftSteps RaftFeed RaftReplExamples RaftSafetyExamples Labrpc HarnessNet RaftHarness RaftOracle RaftTested.
Local Open Scope Z_scope.

Definition tcalm (l : tlabel (C := string)) (s : TestRun) : bool :=
  match l with TRaft l => scalm l (tr_raft s) | _ => true end.

Fixpoint tcheck (ls : list (tlabel (C := string))) (s : TestRun) : option TestRun :=
  match ls with
  | [] => Some s
  | l :: ls => if tcalm l s then s' ← tstep l s; tcheck ls s' else None
  end.

Lemma tcheck_sound n ls s s' : treach n s → tcheck ls s = Some s' → treach n s'.
Proof.
  revert s. induction ls as [|l ls IH]; intros s Hr H; cbn -[tcalm tstep] in H.
  - by injection H as <-.
  - destruct (tcalm l s) eqn:E; [|done]. apply bind_Some in H as (s1 & Hs & H).
    eapply (IH s1); [|done]. eapply treach_step; [done| |done]. destruct l; try done. by apply scalm_sound.
Qed.

(** The end of generation [g] from server [i] to server [j]. *)
Definition name3 (g : string) (i j : nat) : string :=
  String.append g (String (Ascii.ascii_of_nat (65 + i)) (String (Ascii.ascii_of_nat (65 + j)) "")).
Definition names3 (g : string) (i : nat) : list string := name3 g i <$> seq 0 3.

Definition config3 : option (config (C := string)) :=
  Eval vm_compute in returned (make_config 3 false (names3 "a")).

Definition test3 : list (tlabel (C := string)) :=
  (TRaft <$> elect 0 [1%nat]) ++
  (TRaft <$> ([RStart 0 "x"; RBroadcast 0; RCallAppend 0; RAppend 0; RAppendReply 0] ++ scan 0 1 1)) ++
  [TCheck 0; TBegin 0; TReceive 0; TApply 0; TEnd 0] ++
  (TRaft <$> [RHeartbeat 0; RBeat 0; RAppend 0]) ++
  [TCheck 1; TBegin 1; TReceive 1; TApply 1; TEnd 1; TDisconnect 1; TStart 1 (names3 "b" 1); TConnect 1;
   TRaft (RAppend 0); TCheck 1; TBegin 1; TReceive 1].

Definition tested3 : option (TestRun (C := string)) :=
  Eval vm_compute in
    config3 ≫= λ cfg, tcheck test3 (mkTestRun (initWorld 3 (λ _, [])) (seen (initWorld 3 (λ _, [])) cfg) (replicate 3 idleFeed)).

Lemma config3_made cfg : config3 = Some cfg → make_config 3 false (names3 "a") = Ret cfg.
Proof.
  assert (returned (make_config 3 false (names3 "a")) = config3) as <- by (vm_compute; reflexivity).
  intros H. by destruct (make_config 3 false (names3 "a")); [injection H as ->|..].
Qed.

Lemma tested3_reach s : tested3 = Some s → treach 3 s.
Proof.
  assert ((config3 ≫= λ cfg, tcheck test3 (mkTestRun (initWorld 3 (λ _, []))
    (seen (initWorld 3 (λ _, [])) cfg) (replicate 3 idleFeed))) = tested3) as <- by (vm_compute; reflexivity).
  intros (cfg & Hc & H)%bind_Some. eapply tcheck_sound; [|done]. eapply treach_init. by apply config3_made.
Qed.

(** The tester's copies of the logs, and the message for the restarted server 1. *)
Example tested3_result :
  (λ s, (map_to_list <$> logs (tr_cfg s), f_inbox <$> tr_feeds s)) <$> tested3 =
  Some ([[(1, Some "x")]; [(1, Some "x")]; []], [None; Some (CommandMsg (Some "x") 1); None]).
Proof. reflexivity. Qed.

Lemma tester_accepts_witness :
  ∃ s f m, tested3 = Some s ∧ tr_feeds s !! 1%nat = Some f ∧ f_inbox f = Some m ∧
    is_Ret (applierStep (tr_cfg s) 1 m) ∧ is_Ret (nCommitted (tr_cfg s) 1).
Proof.
  destruct tested3 as [s|] eqn:E; [|discriminate E].
  destruct (tr_feeds s !! 1%nat) as [f|] eqn:Ef; [|injection E as <-; discriminate Ef].
  destruct (f_inbox f) as [m|] eqn:Em; [|injection E as <-; injection Ef as <-; discriminate Em].
  exists s, f, m. do 3 (split; [done|]). destruct (tester_accepts 3 s (tested3_reach s E)) as [H1 H2].
  split; [exact (H1 1%nat f m Ef Em)|exact (H2 1)].
Defined.

Definition newThree : config (C := string) := newConfig 3 false.

(** Two servers that differ at index 1, which the tester finds. *)
Lemma applier_exact_witness :
  let ds := [(0%nat, CommandMsg (Some "x") 1); (1%nat, CommandMsg (Some "y") 1)] in
  deliverAll newThree ds = Fatal ∧ ¬ consistent ds.
Proof.
  intros ds. assert (deliverAll newThree ds = Fatal) as E by (vm_compute; reflexivity). split; [exact E|].
  refine (proj1 (proj2 (applier_exact newThree ds _ _)) E); clear E.
  - intros lg Hlg. by apply elem_of_replicate in Hlg as [-> _].
  - intros d Hd. apply elem_of_cons in Hd as [->|Hd]; [cbn; lia|]. apply list_elem_of_singleton in Hd as ->. cbn. lia.
Defined.

Definition split3 : option (config (C := string)) :=
  Eval vm_compute in config3 ≫= λ cfg, returned (disconnect cfg 1).

Lemma split3_reach cfg : split3 = Some cfg → testReach 3 false cfg.
Proof.
  assert ((config3 ≫= λ cfg, returned (disconnect cfg 1)) = split3) as <- by (vm_compute; reflexivity).
  intros (cfg0 & H0 & H)%bind_Some. destruct (disconnect cfg0 1) as [cfg1| | |] eqn:E; try done. injection H as <-.
  eapply test_step; [|by eapply test_disconnect].
  apply (make_config_reach _ _ (names3 "a")); [done|by apply config3_made].
Qed.

(** Server 1 is disconnected: its end to server 0 is off, the end from 0 to 2 is on. *)
Lemma harness_connectivity_witness :
  ∃ cfg, split3 = Some cfg ∧
    (∀ e, enabled (cnet cfg) !! e = Some true ↔ live cfg e) ∧
    enabled (cnet cfg) !! name3 "a" 1 0 = Some false ∧ live cfg (name3 "a" 0 2).
Proof.
  destruct split3 as [cfg|] eqn:E; [|discriminate E].
  destruct (harness_connectivity 3 false cfg (split3_reach cfg E)) as [H _].
  exists cfg. do 2 (split; [done|]). rewrite <- H. injection E as <-. split; vm_compute; reflexivity.
Defined.
