(* ===== verification/ServiceHarnessExamples.v ===== *)
(** * ServiceHarnessExamples: the tester of the key/value service at work *)

From S2P Require Import Prelude Labgob Persister RaftState RaftRpc RaftLeader RaftService KvServer KvExamples Labrpc HarnessNet RaftTestedExamples ServiceHarness.
Local Open Scope Z_scope.

(** The servers of kvraft, without snapshots. *)
Definition startKv (n : nat) (id : Z) (ps : Persister (RaftGob Op) KvGob) : outcome (KVServer (Raft Op KvGob)) :=
  StartKVServer n id ps (-1).
Definition stateKv (kv : KVServer (Raft Op KvGob)) : Z * bool := GetState (kv_rf kv).

Definition kvConfig3 : option (config (RV := RaftGob Op) (SV := KvGob) (S := KVServer (Raft Op KvGob))) :=
  Eval vm_compute in returned (make_config startKv 3 false (names3 "k")).

Lemma kvConfig3_made cfg : kvConfig3 = Some cfg → make_config startKv 3 false (names3 "k") = Ret cfg.
Proof.
  assert (returned (make_config startKv 3 false (names3 "k")) = kvConfig3) as <- by (vm_compute; reflexivity).
  intros H. by destruct (make_config startKv 3 false (names3 "k")); [injection H as ->|..].
Qed.

Lemma kvConfig3_full cfg :
  kvConfig3 = Some cfg → fullNames (endnames cfg) (cn cfg) ∧ cn cfg = 3%nat ∧ distinctNames (endnames cfg) (ends (cnet cfg)).
Proof. intros H%kvConfig3_made. by apply (make_config_full startKv 3 false (names3 "k")). Qed.

(** Nobody leads yet, so that server 0 is taken for the leader. *)
Lemma make_partition_spec_witness :
  ∃ cfg p1 p2, kvConfig3 = Some cfg ∧ make_partition stateKv cfg = Ret (p1, p2) ∧
    length p1 = 2%nat ∧ length p2 = 1%nat ∧ p1 ++ p2 ≡ₚ seq 0 (cn cfg) ∧ 0%nat ∈ p2.
Proof.
  destruct kvConfig3 as [cfg|] eqn:E; [|discriminate E].
  assert (Leader stateKv cfg = Ret (false, 0%nat)) as HL by (injection E as <-; vm_compute; reflexivity).
  destruct (kvConfig3_full cfg E) as (_ & Hn & _).
  destruct (make_partition_spec stateKv cfg 1 false 0) as (p1 & p2 & H); [done|lia|done|lia|].
  by exists cfg, p1, p2.
Defined.

(** Servers 1 and 2 on one side. *)
Lemma partition_spec_witness :
  ∃ cfg cfg', kvConfig3 = Some cfg ∧ partition cfg [1; 2]%nat [0%nat] = Ret cfg' ∧
    on (cnet cfg') (name3 "k" 1 2) ∧ ¬ on (cnet cfg') (name3 "k" 1 0).
Proof.
  destruct kvConfig3 as [cfg|] eqn:E; [|discriminate E].
  destruct (kvConfig3_full cfg E) as (Hf & Hn & _).
  assert (nameAt (endnames cfg) 1 2 = Ret (name3 "k" 1 2) ∧ nameAt (endnames cfg) 1 0 = Ret (name3 "k" 1 0)) as [N1 N2]
    by (injection E as <-; split; vm_compute; reflexivity).
  destruct (partition_spec cfg [1; 2]%nat [0%nat] Hf) as (cfg' & Hp & _ & H).
  - repeat (apply NoDup_cons; split; [by rewrite ?elem_of_cons, elem_of_nil; lia|]). constructor.
  - intros x Hx. rewrite Hn. cbn in Hx. rewrite !elem_of_cons, elem_of_nil in Hx. lia.
  - exists cfg, cfg'. split; [done|]. split; [done|]. split.
    + apply (proj1 (H 1%nat 2%nat _ N1)). left. by rewrite !elem_of_cons; auto.
    + apply (proj1 (proj2 (H 1%nat 0%nat _ N2))). left. by rewrite !elem_of_cons; auto.
Defined.

(** With an even number of servers [make_partition] puts server 0 on both sides:
    one of the places of the second part is never filled. *)
Definition even4 : config (RV := Z) (SV := Z) (S := bool) :=
  mkConfig 4 MakeNetwork [Some false; Some false; Some false; Some true] [] [] ∅ 0 0.

Example even_partition_overlaps :
  make_partition (λ leads, (0, leads)) even4 = Ret ([0; 1; 2], [0; 3])%nat.
Proof. reflexivity. Qed.

(** [disconnectUnlocked] tests the ends of the server at the loop index: while
    server 2 is not started, detaching server 0 from it panics. *)
Example disconnect_unstarted_panics :
  disconnectUnlocked [Some ["a"; "b"; "c"]; Some ["d"; "e"; "f"]; None] (MakeNetwork (N := nat)) 0 [2%nat] = Panic.
Proof. reflexivity. Qed.
