(* ===== verification/ShardHarnessExamples.v ===== *)
(** * ShardHarnessExamples: the testers of the configuration service and of the sharded
    store at work *)

From stdpp Require Import pretty.
From S2P Require Import Prelude GoStrings Labgob Persister RaftState RaftRpc RaftService Labrpc HarnessNet ShardCtrler ShardKv ServiceHarness CtrlerHarness ShardHarness.
Local Open Scope Z_scope.

(** Any sizes will do. *)
#[local] Instance opSize : GobSize (RaftGob LogOp) := {| gob_size _ := 1; gob_size_pos _ := eq_refl |}.
#[local] Instance ctrlSize : GobSize (RaftGob ShardCtrler.Op) := {| gob_size _ := 1; gob_size_pos _ := eq_refl |}.

Definition startShard (n : nat) (me : Z) (ps : Persister (RaftGob LogOp) SkvGob) (mrs g : Z) :
    outcome (ShardKV (Raft LogOp SkvGob)) := ShardKv.StartServer n me ps mrs g.
Definition startCtrl (n : nat) (me : Z) : outcome Server := CtrlerHarness.startServer n me MakePersister.

(** Names that tell what they are drawn for. *)
Definition dash (s : string) (i : nat) : string := s +:+ "-" +:+ pretty i.
Definition draws3 : draws := mkDraws
  (λ i j, dash (dash "c" i) j) (λ j, dash "k" j)
  (λ gi i j, dash (dash (dash "s" gi) i) j) (λ gi i j, dash (dash (dash "m" gi) i) j).

Lemma dash_inj s i s' i' : dash s i = dash s' i' → s = s' ∧ i = i'.
Proof. intros [-> E]%last_dash; [|apply noDash_pretty..]. split; [done|]. by apply (inj pretty). Qed.

#[local] Instance draws3_inj : Inj (=) (=) (drawn draws3).
Proof.
  intros [] [] E; try done; cbn [drawn draws3 d_ctrler d_clerk d_server d_mserver] in E;
    repeat match goal with H : dash _ _ = dash _ _ |- _ => apply dash_inj in H as [H ->] end; done.
Qed.

Lemma startShard_total k me mrs g : is_Ret (startShard k me MakePersister mrs g).
Proof. by eexists. Qed.
Lemma startCtrl_total k me : is_Ret (startCtrl k me).
Proof. by eexists. Qed.

(** Two, three and five servers in a group. *)
Lemma tester_needs_three_witness :
  (∃ cfg, make_config startShard startCtrl 2 true 1000 7 draws3 = Ret cfg ∧ makeClient cfg 0 (dash "n") = Panic) ∧
  (∃ cfg, make_config startShard startCtrl 3 true 1000 7 draws3 = Ret cfg ∧ is_Ret (makeClient cfg 0 (dash "n"))) ∧
  make_config startShard startCtrl 5 true 1000 7 draws3 = Panic.
Proof.
  assert (Inj (=) (=) (dash "n")) as Hn by (intros i j [_ E]%dash_inj; exact E).
  assert (∀ j k, dash "n" j ≠ drawn draws3 k) as Hd by (intros j []; discriminate).
  pose proof (λ n, tester_needs_three startShard startCtrl startShard_total startCtrl_total draws3 draws3_inj n true 1000 7 0 (dash "n") Hn Hd) as H.
  split; [|split].
  - destruct (H 2%nat) as [_ H2]. apply H2. lia.
  - destruct (H 3%nat) as [_ H3]. apply H3. lia.
  - destruct (H 5%nat) as [H5 _]. apply H5. lia.
Defined.

(** ** A test of the sharded store *)

Abbreviation ShardConfig := (ShardHarness.config (RaftGob LogOp) SkvGob (ShardKV (Raft LogOp SkvGob)) Server).

(** A test that has been set up, and a name that has not been drawn. *)
Lemma shard3_made :
  ∃ cfg : ShardConfig, make_config startShard startCtrl 3 false 1000 7 draws3 = Ret cfg ∧ made 3 3 cfg ∧ "x" ∉ ends (cnet cfg).
Proof.
  destruct (make_config_total startShard startCtrl startShard_total startCtrl_total draws3 draws3_inj 3 false 1000 7) as (cfg & H & Hd); [lia|].
  exists cfg. split; [done|]. split; [by apply (make_config_made startShard startCtrl 3 false 1000 7 draws3)|].
  intros ([] & _ & E)%Hd; discriminate E.
Qed.

(** The second group is announced, and an end is made to its server 1 (name "x"). *)
Lemma announced_reachable_witness :
  ∃ (cfg cfg' : ShardConfig), make_config startShard startCtrl 3 false 1000 7 draws3 = Ret cfg ∧
    make_end cfg "x" "server-101-1" = Ret cfg' ∧
    ∃ gg server, groups cfg !! 1%nat = Some gg ∧
      readEndnameInfo (cnet cfg') "x" = (true, Some "server-101-1"%string, server, reliable (cnet cfg), longReordering (cnet cfg)) ∧
      (is_Some server ↔ running gg 1).
Proof.
  destruct shard3_made as (cfg & Hmk & (Hinv & Hd & Hfull) & Hx).
  destruct (Hfull 1%nat 1%nat) as (gg & Hg & _); [lia..|]. destruct (hi_groups _ Hinv _ _ Hg) as [Egid _].
  unfold dims in Hd. injection Hd as En _ _ _.
  assert (joinArgs cfg [1%nat] = Ret {[ 101 := servername 101 <$> seq 0 3 ]}) as Hj.
  { unfold joinArgs, nth_get. cbn. rewrite Hg. cbn. by rewrite Egid, En. }
  destruct (openEnd_total (cnet cfg) "x" "server-101-1" Hx) as [rn Hrn].
  assert (make_end cfg "x" "server-101-1" = Ret (set_net rn cfg)) as He by (unfold make_end; by rewrite Hrn).
  destruct (announced_reachable startShard startCtrl 3 cfg [1%nat] {[ 101 := servername 101 <$> seq 0 3 ]} 101
    (servername 101 <$> seq 0 3) 1 "server-101-1" "x" (set_net rn cfg)) as (gi & gg' & server & Hin & Hg' & _ & _ & Hinfo & Hrun & _).
  - exact (hreach_init _ _ _ _ _ _ _ _ Hmk).
  - exact Hj.
  - apply lookup_singleton_eq.
  - reflexivity.
  - exact He.
  - apply list_elem_of_singleton in Hin as ->. exists cfg, (set_net rn cfg). split; [exact Hmk|].
    split; [exact He|]. exists gg', server. exact (conj Hg' (conj Hinfo Hrun)).
Defined.

(** An end that the server of group 100 made to group 101 stays enabled when it is shut
    down, although the loops are there to prevent it from sending. *)
Lemma shutdown_spec_witness :
  ∃ (cfg cfg1 cfg2 : ShardConfig), make_config startShard startCtrl 3 false 1000 7 draws3 = Ret cfg ∧
    make_end cfg "x" "server-101-0" = Ret cfg1 ∧ ShutdownServer cfg1 0 2 = Ret cfg2 ∧
    on (cnet cfg2) "x" ∧ serverAt (cnet cfg2) "server-100-2" = None.
Proof.
  destruct shard3_made as (cfg & Hmk & (Hinv & Hd & Hfull) & Hx).
  destruct (openEnd_total (cnet cfg) "x" "server-101-0" Hx) as [rn Hrn].
  assert (make_end cfg "x" "server-101-0" = Ret (set_net rn cfg)) as He by (unfold make_end; by rewrite Hrn).
  destruct (shutdown_spec startShard startCtrl 3 (set_net rn cfg) 0 2) as (gg & Hg & [cfg' Hs] & Hall).
  - eapply hreach_step; [exact (hreach_init _ _ _ _ _ _ _ _ Hmk)|]. exact (h_end _ _ _ _ _ He).
  - lia.
  - lia.
  - destruct (Hall cfg' (ShutdownServer_run _ _ _ _ Hs)) as (_ & Hsame & Hnone & _).
    destruct (hi_groups _ Hinv _ _ Hg) as [Egid _]. rewrite Egid in Hnone.
    exists cfg, (set_net rn cfg), cfg'. split; [exact Hmk|]. split; [exact He|]. split; [exact Hs|]. split; [|exact Hnone].
    apply openEnd_Ret in Hrn as [_ ->]. apply Hsame.
    + apply elem_of_union_l, elem_of_singleton_2. reflexivity.
    + intros m j Hj. destruct (hi_ends _ Hinv _ _ _ _ _ _ Hg Hj) as [Hin _]. exact (Hx Hin).
    + unfold on. cbn. apply lookup_insert_eq.
Defined.

(** ** A test of the configuration service *)

Definition ctrlNames (i : nat) : list string := dash (dash "e" i) <$> seq 0 3.

Lemma ctrlNames_inj i j i' j' e : ctrlNames i !! j = Some e → ctrlNames i' !! j' = Some e → i = i' ∧ j = j'.
Proof.
  intros [_ ->]%drawn_lookup [_ E]%drawn_lookup. apply dash_inj in E as [E ->]. by apply dash_inj in E as [_ ->].
Qed.

Lemma ctrl_tester_ready_witness :
  ∃ cfg e a, CtrlerHarness.make_config 3 true ctrlNames = Ret cfg ∧
    nameAt (ServiceHarness.endnames cfg) 1 2 = Ret e ∧ (readEndnameInfo (ServiceHarness.cnet cfg) e).1.1 = (true, Some 2%nat, Some a).
Proof.
  destruct (ctrl_tester_ready 3 true ctrlNames) as (cfg & H & _ & _ & Hr); [done|apply ctrlNames_inj|].
  destruct (Hr 1%nat 2%nat) as (e & a & He); [lia..|]. exists cfg, e, a. exact (conj H He).
Defined.

Lemma ctrl_partition_leader_witness :
  ∃ cfg cfg' p1 p2, CtrlerHarness.make_config 3 true ctrlNames = Ret cfg ∧
    CtrlerHarness.make_partition cfg = Ret (p1, p2) ∧ CtrlerHarness.partition cfg p1 p2 = Ret cfg' ∧ length p1 = 2%nat.
Proof.
  destruct (make_config_ready CtrlerHarness.startServer 3 true ctrlNames) as (cfg & H & Hfull & Hn & _);
    [by eexists|done|apply ctrlNames_inj|].
  destruct (ctrl_partition_leader cfg 1 Hfull) as (p1 & p2 & cfg' & H1 & H2 & H3 & _); [done|lia|].
  exists cfg, cfg', p1, p2. exact (conj H (conj H1 (conj H2 H3))).
Defined.

(** The key/value tester's [Leader] panics when server 0 is shut down, the one of the
    configuration service finds the leader. *)
Definition downThenLeader : ServiceHarness.config (RV := Z) (SV := Z) (S := bool) :=
  ServiceHarness.mkConfig 2 MakeNetwork [None; Some true] [] [] ∅ 0 0.

Example kv_leader_panics_on_shutdown : ServiceHarness.Leader (λ b, (0, b)) downThenLeader = Panic.
Proof. reflexivity. Qed.
