(* ===== verification/LabrpcExamples.v ===== *)
(** * LabrpcExamples: one call on the network

    A counter service: the method [C.Add] adds its argument and replies with the
    new value. *)

From S2P Require Import Prelude Labrpc.
Local Open Scope Z_scope.

Definition add (a n : Z) : Z * Z := (a + n, a + n).
Definition counter : Server (A := Z) (P := Z) := AddService MakeServer (mkService "C" {[ "Add"%string := add ]}).
Definition one : Z → Z := λ _, 1.

Abbreviation Net := (@Network Z Z _ _ _ _).
Abbreviation Call_ := (@CallState Z Z Z).
Abbreviation ZLab := (@Lab Z Z Z Z _ _ _ _).

(** End 5 is connected to server 7, which is counter 0. *)
Definition connected : Net :=
  Enable (Connect (AddServer (default MakeNetwork (returned (MakeEnd MakeNetwork 5))) 7 0) 5 7) 5 true.
Definition request : reqMsg := mkReqMsg 5 "C.Add" 3.
Definition fresh : Call_ := mkCallState request Sending NoHandler [].
Definition info : EndInfo := mkEndInfo 7 0 true false.
Definition reply13 : replyMsg := mkReplyMsg true (Some 13).
Definition counter1 : Server (A := Z) (P := Z) := mkServer (services counter) 1.

(** A world with one call. *)
Definition world (rn : Net) (rs : Server) (a : Z) (c : Call_) : ZLab := mkLab rn [rs] a {[ 0%nat := c ]}.

Definition sent : Net := addCount one connected 3.
Definition answered_ : Net := addBytes one sent 13.

Lemma world_step rn rs a c rn' rs' a' c' :
  callStep one (rn, [rs], a, c) (rn', [rs'], a', c') → lab_step one (world rn rs a c) (world rn' rs' a' c').
Proof.
  intros H. pose proof (lab_call one rn [rs] a {[ 0%nat := c ]} 0 c rn' [rs'] a' c' (lookup_singleton_eq _ _) H) as Hs.
  by rewrite insert_singleton_eq in Hs.
Qed.

Lemma fresh_reach : lab_reach one (world connected counter 10 fresh).
Proof.
  eapply lab_next; [eapply lab_next; [eapply lab_next; [eapply lab_next; [eapply lab_next;
    [apply (lab_init one [counter] 10)|apply lab_net, (net_end _ 5); reflexivity]|apply lab_net, (net_add _ 7 0)]|
    apply lab_net, (net_connect _ 5 7)]|apply lab_net, (net_enable _ 5 true)]|].
  by apply (lab_new one _ _ _ ∅ 0%nat request).
Qed.

(** The handler has replied and [processReq] is about to check the server. *)
Definition closing : Call_ := mkCallState request (Closing info (Some reply13)) (Drained reply13) [13].

Lemma closing_reach : lab_reach one (world sent counter1 13 closing).
Proof.
  eapply lab_next; [eapply lab_next; [eapply lab_next; [eapply lab_next; [eapply lab_next; [apply fresh_reach|]|]|]|]|];
    apply world_step.
  - apply call_received.
  - by apply (call_started one _ _ _ _ _ _ 7 0 true false).
  - apply call_spawn.
  - by apply (call_handle one _ [counter] 10 request (Waiting info) [] 0 counter counter1 13 13).
  - apply call_reply.
Qed.

Definition answered : Call_ := mkCallState request (Answered reply13) (Drained reply13) [13].
Definition returned_ : Call_ := mkCallState request (Returned (Some 13)) (Drained reply13) [13].

Lemma answer_step : lab_step one (world sent counter1 13 closing) (world answered_ counter1 13 answered).
Proof. apply world_step. by apply (call_answer one). Qed.

Lemma returned_reach : lab_reach one (world answered_ counter1 13 returned_).
Proof.
  eapply lab_next; [eapply lab_next; [apply closing_reach|apply answer_step]|]. apply world_step. apply call_return.
Qed.

Lemma labrpc_at_most_once_witness : (length (ran returned_) <= 1)%nat ∧ ran returned_ = [13].
Proof.
  destruct (labrpc_at_most_once one (world answered_ counter1 13 returned_) 0 returned_ returned_reach eq_refl) as [H1 H2].
  exact (conj H1 (H2 13 eq_refl)).
Defined.

Lemma labrpc_alive_witness :
  ∃ sn s, servedBy closing = Some (sn, s) ∧ serverAt sent sn = Some s ∧ enabled sent !! 5 = Some true.
Proof.
  apply (labrpc_alive one (world sent counter1 13 closing) (world answered_ counter1 13 answered) 0 closing answered
    closing_reach answer_step eq_refl eq_refl).
  - intros (a & H & _). discriminate H.
  - by exists reply13.
Defined.

Lemma connected_good : good request 7 0 (world connected counter 10 fresh).
Proof.
  split; [by exists false|]. split; [done|]. exists counter. split; [done|]. intros a.
  exists counter1, (a + 3), (a + 3). reflexivity.
Qed.

Lemma labrpc_reliable_witness :
  ∃ c, calls (world connected counter 10 fresh) !! 0%nat = Some c ∧
    ((∃ p, phase c = Returned (Some p) ∧ ran c = [p]) ∨
     ∃ w2 c2, lab_step one (world connected counter 10 fresh) w2 ∧ calls w2 !! 0%nat = Some c2 ∧ c2 ≠ c).
Proof.
  apply (labrpc_reliable one request 7 0 (world connected counter 10 fresh) (world connected counter 10 fresh) 0).
  - apply connected_good.
  - reflexivity.
  - apply rtc_refl.
Defined.

(** False does not mean that nothing happened: here the server is deleted after
    its handler ran, and the call returns false. *)
Example false_but_executed :
  ∃ (w : ZLab) (c : Call_), lab_reach one w ∧ calls w !! 0%nat = Some c ∧ phase c = Returned None ∧ ran c = [13].
Proof.
  exists (world (DeleteServer sent 7) counter1 13 (mkCallState request (Returned None) (Drained reply13) [13])).
  eexists. split; [|split; [reflexivity|done]].
  eapply lab_next; [eapply lab_next; [eapply lab_next; [apply closing_reach|apply lab_net, (net_delete _ 7)]|]|].
  - apply world_step. apply (call_dead one (DeleteServer sent 7)). by right.
  - apply world_step. exact (call_return one _ _ _ request (Drained reply13) [13] failed).
Qed.
