(* ===== verification/PorcBitset.v ===== *)
(** * PorcBitset: sets of operation numbers as 64-bit words

    [src/src/porcupine/bitset.go].  A [bitset] is the list of its words, each a
    [uint64] as a [Z] in [0, 2^64) ([bitsetOk]); positions are [uint]s.  [bit]
    is the abstraction: the bitset as the characteristic function of a set of
    positions. *)

From S2P Require Import Prelude.
Local Open Scope Z_scope.

Abbreviation bitset := (list Z).

Definition newBitset (bits : Z) : bitset :=
  let extra := if negb (bits mod 64 =? 0) then 1 else 0 in
  let chunks := bits / 64 + extra in
  replicate (Z.to_nat chunks) 0.

(** A fresh slice with the same words. *)
Definition clone (b : bitset) : bitset := b.

Definition bitsetIndex (pos : Z) : Z * Z := (pos / 64, pos mod 64).

Definition bset (b : bitset) (pos : Z) : outcome bitset :=
  let '(major, minor) := bitsetIndex pos in
  w ← slice_get b major;
  slice_set b major (Z.lor w (Z.shiftl 1 minor)).

Definition bclear (b : bitset) (pos : Z) : outcome bitset :=
  let '(major, minor) := bitsetIndex pos in
  w ← slice_get b major;
  slice_set b major (Z.ldiff w (Z.shiftl 1 minor)).

Definition bget (b : bitset) (pos : Z) : outcome bool :=
  let '(major, minor) := bitsetIndex pos in
  w ← slice_get b major;
  Ret (negb (Z.land w (Z.shiftl 1 minor) =? 0)).

(** [bits.OnesCount64]. *)
Definition OnesCount64 (w : Z) : Z :=
  foldr (λ i n, (if Z.testbit w i then 1 else 0) + n) 0 (seqZ 0 64).

Definition popcnt (b : bitset) : Z := foldl (λ total v, total + OnesCount64 v) 0 b.

Definition hash (b : bitset) : Z := foldl (λ h v, Z.lxor h v) (popcnt b) b.

Definition equals (b b2 : bitset) : bool :=
  if negb (zlen b =? zlen b2) then false
  else forallb (λ '(w, w2), w =? w2) (zip b b2).

(** ** The set a bitset stands for *)

Definition bit (b : bitset) (pos : Z) : bool :=
  Z.testbit (default 0 (b !! Z.to_nat (pos / 64))) (pos mod 64).

(** A bitset with room for the positions below [n], its words 64 bits wide. *)
Definition bitsetOk (n : Z) (b : bitset) : Prop :=
  zlen b = (n + 63) / 64 ∧ Forall (λ w, 0 <= w < 2 ^ 64) b.

Lemma chunk_bound n pos : 0 <= pos < n → 0 <= pos / 64 < (n + 63) / 64.
Proof. intros ?. pose proof (Z.div_mod pos 64). pose proof (Z.div_mod (n + 63) 64).
  pose proof (Z.mod_pos_bound pos 64). pose proof (Z.mod_pos_bound (n + 63) 64). lia. Qed.

Lemma newBitset_ok n : 0 <= n → bitsetOk n (newBitset n).
Proof.
  intros Hn. pose proof (Z.div_mod n 64). pose proof (Z.mod_pos_bound n 64).
  pose proof (Z.div_mod (n + 63) 64). pose proof (Z.mod_pos_bound (n + 63) 64).
  split; [|apply Forall_replicate; lia]. unfold newBitset, zlen. rewrite length_replicate.
  destruct (Z.eqb_spec (n mod 64) 0); cbn; lia.
Qed.

Lemma newBitset_bit n pos : bit (newBitset n) pos = false.
Proof.
  unfold bit, newBitset. cbv zeta.
  destruct (_ !! _) as [w|] eqn:Hw; cbn; [|apply Z.testbit_0_l].
  apply lookup_replicate in Hw as [-> _]. apply Z.testbit_0_l.
Qed.

(** An update of one word changes the bits of that word only. *)
Lemma bit_update b pos w' pos' :
  0 <= pos → 0 <= pos' → pos / 64 < zlen b →
  bit (<[Z.to_nat (pos / 64) := w']> b) pos' =
  if pos' / 64 =? pos / 64 then Z.testbit w' (pos' mod 64) else bit b pos'.
Proof.
  intros H1 H2 Hl. unfold bit. pose proof (Z.div_pos pos 64). pose proof (Z.div_pos pos' 64).
  destruct (Z.eqb_spec (pos' / 64) (pos / 64)) as [->|Hne].
  - rewrite list_lookup_insert_eq; [done|]. unfold zlen in Hl. lia.
  - rewrite list_lookup_insert_ne; [done|]. lia.
Qed.

Lemma same_position pos pos' :
  (pos' / 64 =? pos / 64) && (pos' mod 64 =? pos mod 64) = (pos' =? pos).
Proof.
  pose proof (Z.div_mod pos 64). pose proof (Z.div_mod pos' 64).
  destruct (Z.eqb_spec (pos' / 64) (pos / 64)), (Z.eqb_spec (pos' mod 64) (pos mod 64)),
    (Z.eqb_spec pos' pos); subst; cbn; lia.
Qed.

Lemma bit_1 pos i : 0 <= i → Z.testbit (Z.shiftl 1 (pos mod 64)) i = (i =? pos mod 64).
Proof.
  intros Hi. pose proof (Z.mod_pos_bound pos 64). rewrite Z.shiftl_1_l, Z.pow2_bits_eqb by lia.
  apply Z.eqb_sym.
Qed.

Lemma word_get n b pos :
  bitsetOk n b → 0 <= pos < n →
  ∃ w, slice_get b (pos / 64) = Ret w ∧ default 0 (b !! Z.to_nat (pos / 64)) = w ∧ 0 <= w < 2 ^ 64.
Proof.
  intros [Hl Hb] Hp. destruct (slice_get_in_range b (pos / 64)) as [w Hw].
  { rewrite Hl. by apply chunk_bound. }
  exists w. split; [done|]. apply slice_get_Ret in Hw as [_ Hw]. rewrite Hw. split; [done|].
  rewrite Forall_lookup in Hb. eauto.
Qed.

Lemma word_bits w : 0 <= w < 2 ^ 64 ↔ (0 <= w ∧ ∀ i, 64 <= i → Z.testbit w i = false).
Proof.
  split.
  - intros Hw. split; [lia|]. intros i Hi. destruct (decide (w = 0)) as [->|]; [apply Z.testbit_0_l|].
    apply Z.bits_above_log2; [lia|]. apply Z.log2_lt_pow2; [lia|].
    apply Z.lt_le_trans with (2 ^ 64); [lia|]. apply Z.pow_le_mono_r; lia.
  - intros [H0 Hb]. split; [done|]. destruct (decide (w = 0)) as [->|]; [lia|].
    apply Z.log2_lt_pow2; [lia|]. destruct (Z.lt_ge_cases (Z.log2 w) 64) as [|Hge]; [done|].
    pose proof (Hb _ Hge) as Hf. rewrite Z.bit_log2 in Hf by lia. done.
Qed.

(** An in-range update keeps the shape. *)
Lemma bitsetOk_insert n b k w : bitsetOk n b → 0 <= w < 2 ^ 64 → bitsetOk n (<[k := w]> b).
Proof.
  intros [Hl Hb] Hw. split; [unfold zlen in *; by rewrite length_insert|]. by apply Forall_insert.
Qed.

Lemma bset_spec n b pos :
  bitsetOk n b → 0 <= pos < n →
  ∃ b', bset b pos = Ret b' ∧ bitsetOk n b' ∧ ∀ p, 0 <= p → bit b' p = (p =? pos) || bit b p.
Proof.
  intros Hb Hp. destruct (word_get n b pos Hb Hp) as (w & Hg & Hw & Hr).
  pose proof (chunk_bound _ _ Hp) as Hc. rewrite <- (proj1 Hb) in Hc. pose proof (Z.mod_pos_bound pos 64).
  eexists. unfold bset, bitsetIndex. rewrite Hg. cbn [mbind outcome_bind].
  split; [by apply slice_set_Ret|]. split.
  - apply bitsetOk_insert; [done|]. apply word_bits. apply word_bits in Hr as [H0 Hr]. split.
    + apply Z.lor_nonneg. split; [done|]. by apply Z.shiftl_nonneg.
    + intros i Hi. rewrite Z.lor_spec, bit_1, Hr by lia. cbn. lia.
  - intros p Hp0. rewrite bit_update by lia. rewrite <- (same_position pos p). pose proof (Z.mod_pos_bound p 64).
    destruct (Z.eqb_spec (p / 64) (pos / 64)) as [He|]; [|done]. cbn [andb].
    rewrite Z.lor_spec, bit_1 by lia. rewrite orb_comm. f_equal. unfold bit. by rewrite He, Hw.
Qed.

Lemma bclear_spec n b pos :
  bitsetOk n b → 0 <= pos < n →
  ∃ b', bclear b pos = Ret b' ∧ bitsetOk n b' ∧ ∀ p, 0 <= p → bit b' p = negb (p =? pos) && bit b p.
Proof.
  intros Hb Hp. destruct (word_get n b pos Hb Hp) as (w & Hg & Hw & Hr).
  pose proof (chunk_bound _ _ Hp) as Hc. rewrite <- (proj1 Hb) in Hc. pose proof (Z.mod_pos_bound pos 64).
  eexists. unfold bclear, bitsetIndex. rewrite Hg. cbn [mbind outcome_bind].
  split; [by apply slice_set_Ret|]. split.
  - apply bitsetOk_insert; [done|]. apply word_bits. apply word_bits in Hr as [H0 Hr]. split.
    + apply Z.ldiff_nonneg. by left.
    + intros i Hi. by rewrite Z.ldiff_spec, Hr.
  - intros p Hp0. rewrite bit_update by lia. rewrite <- (same_position pos p). pose proof (Z.mod_pos_bound p 64).
    destruct (Z.eqb_spec (p / 64) (pos / 64)) as [He|]; [|done]. cbn [andb].
    rewrite Z.ldiff_spec, bit_1 by lia. rewrite andb_comm. f_equal. unfold bit. by rewrite He, Hw.
Qed.

Lemma bget_spec n b pos : bitsetOk n b → 0 <= pos < n → bget b pos = Ret (bit b pos).
Proof.
  intros Hb Hp. destruct (word_get n b pos Hb Hp) as (w & Hg & Hw & Hr). pose proof (Z.mod_pos_bound pos 64).
  unfold bget, bitsetIndex. rewrite Hg. cbn [mbind outcome_bind]. f_equal. unfold bit. rewrite Hw.
  destruct (Z.testbit w (pos mod 64)) eqn:Ht.
  - apply negb_true_iff, Z.eqb_neq. intros H0. assert (Z.testbit (Z.land w (Z.shiftl 1 (pos mod 64))) (pos mod 64) = false) as Hf
      by (rewrite H0; apply Z.testbit_0_l).
    rewrite Z.land_spec, Ht, bit_1, Z.eqb_refl in Hf by lia. done.
  - apply negb_false_iff, Z.eqb_eq. apply Z.bits_inj'. intros i Hi.
    rewrite Z.land_spec, bit_1, Z.testbit_0_l by lia.
    destruct (Z.eqb_spec i (pos mod 64)) as [->|]; [by rewrite Ht|]. by rewrite andb_false_r.
Qed.

Lemma equals_eq b b2 : equals b b2 = true ↔ b = b2.
Proof.
  unfold equals. destruct (Z.eqb_spec (zlen b) (zlen b2)) as [Hl|Hl]; cbn; [|split; congruence].
  revert b2 Hl. induction b as [|w b IH]; intros [|w2 b2] Hl; try done. autorewrite with zlen in Hl.
  cbn. rewrite andb_true_iff, Z.eqb_eq, IH by lia. naive_solver.
Qed.

(** Two bitsets of one size are equal when they stand for the same set. *)
Lemma bits_determine n b b2 :
  0 <= n → bitsetOk n b → bitsetOk n b2 → (∀ pos, 0 <= pos → bit b pos = bit b2 pos) → b = b2.
Proof.
  intros Hn [Hl Hb] [Hl2 Hb2] Heq. apply list_eq_same_length with (length b); [unfold zlen in *; lia|done|].
  intros i w w2 Hi Hw Hw2. rewrite Forall_lookup in Hb, Hb2.
  pose proof (proj1 (word_bits w) (Hb _ _ Hw)) as [_ Hz]. pose proof (proj1 (word_bits w2) (Hb2 _ _ Hw2)) as [_ Hz2].
  apply Z.bits_inj'. intros j Hj. destruct (Z.lt_ge_cases j 64) as [Hlt|Hge]; [|by rewrite Hz, Hz2].
  specialize (Heq (Z.of_nat i * 64 + j)). unfold bit in Heq.
  rewrite Z.div_add_l, (Z.div_small j), Z.add_0_r, Nat2Z.id, Hw, Hw2 in Heq by lia.
  rewrite Z.add_comm, Z.mod_add, Z.mod_small in Heq by lia. apply Heq. lia.
Qed.
