(* ===== verification/PorcModel.v ===== *)
(** * PorcModel: models, histories and the lists of entries they become

    [src/src/porcupine/model.go] and the first part of
    [src/src/porcupine/checker.go].  Go's [interface{}] values are typed here:
    a history has inputs in [I] and outputs in [O], the value of an entry or
    of a node is one of the two ([I + O]), and the type assertions with which a
    model's [Step] starts are made by the caller ([asInput], [asOutput]).  A
    [nil] function of a [Model] is [None].

    [linearizable] is the specification of the checker: a history is
    linearizable when its operations can be put in an order that the model
    accepts and in which no operation comes after one that was called only
    after the first had returned. *)

From S2P Require Import Prelude.
Local Open Scope Z_scope.

Record Operation (I O : Type) := mkOperation {
  op_ClientId : Z; op_Input : I; op_Call : Z; op_Output : O; op_Return : Z
}.
Arguments mkOperation {I O}.
Arguments op_ClientId {I O}.
Arguments op_Input {I O}.
Arguments op_Call {I O}.
Arguments op_Output {I O}.
Arguments op_Return {I O}.

Inductive EventKind := CallEvent | ReturnEvent.
#[export] Instance EventKind_eq_dec : EqDecision EventKind.
Proof. solve_decision. Defined.

Record Event (I O : Type) := mkEvent {
  ev_ClientId : Z; ev_Kind : EventKind; ev_Value : I + O; ev_Id : Z
}.
Arguments mkEvent {I O}.
Arguments ev_ClientId {I O}.
Arguments ev_Kind {I O}.
Arguments ev_Value {I O}.
Arguments ev_Id {I O}.

(** The two functions that describe operations and states for the
    visualization are left out. *)
Record Model (I O S : Type) := mkModel {
  Partition : option (list (Operation I O) → list (list (Operation I O)));
  PartitionEvent : option (list (Event I O) → list (list (Event I O)));
  Init : S;
  Step : S → I → O → bool * S;
  Equal : option (S → S → bool)
}.
Arguments mkModel {I O S}.
Arguments Partition {I O S}.
Arguments PartitionEvent {I O S}.
Arguments Init {I O S}.
Arguments Step {I O S}.
Arguments Equal {I O S}.

Definition NoPartition {I O} (history : list (Operation I O)) : list (list (Operation I O)) := [history].

Definition NoPartitionEvent {I O} (history : list (Event I O)) : list (list (Event I O)) := [history].

(** [==] on states of a comparable type. *)
Definition ShallowEqual {S} `{EqDecision S} (state1 state2 : S) : bool := bool_decide (state1 = state2).

Inductive CheckResult := Unknown | Ok | Illegal.
#[export] Instance CheckResult_eq_dec : EqDecision CheckResult.
Proof. solve_decision. Defined.

Definition fillDefault {I O S} `{EqDecision S} (model : Model I O S) : Model I O S :=
  mkModel
    (Some (default NoPartition (Partition model)))
    (Some (default NoPartitionEvent (PartitionEvent model)))
    (Init model) (Step model)
    (Some (default ShallowEqual (Equal model))).

(** ** Entries *)

Inductive entryKind := callEntry | returnEntry.
#[export] Instance entryKind_eq_dec : EqDecision entryKind.
Proof. solve_decision. Defined.

Record entry (I O : Type) := mkEntry {
  e_kind : entryKind; e_value : I + O; e_id : Z; e_time : Z; e_clientId : Z
}.
Arguments mkEntry {I O}.
Arguments e_kind {I O}.
Arguments e_value {I O}.
Arguments e_id {I O}.
Arguments e_time {I O}.
Arguments e_clientId {I O}.

Definition asInput {I O} (v : I + O) : outcome I :=
  match v with inl i => Ret i | inr _ => Panic end.
Definition asOutput {I O} (v : I + O) : outcome O :=
  match v with inr o => Ret o | inl _ => Panic end.

Section entries.
Context {I O : Type}.
Local Abbreviation Operation := (Operation I O).
Local Abbreviation Event := (Event I O).
Local Abbreviation entry := (entry I O).
Implicit Types (e : entry) (l es : list entry).

Definition Less (a b : entry) : bool :=
  if negb (e_time a =? e_time b) then e_time a <? e_time b
  else bool_decide (e_kind a = callEntry) && bool_decide (e_kind b = returnEntry).

(** [sort.Sort(byTime(entries))]: a permutation in which no entry is [Less]
    than one before it; nothing is promised about entries that compare equal. *)
Class TimeSort := {
  sortByTime : list entry → list entry;
  sortByTime_perm es : sortByTime es ≡ₚ es;
  sortByTime_sorted es : StronglySorted (λ a b, Less b a = false) (sortByTime es);
}.

Fixpoint entriesFrom (id : Z) (history : list Operation) : list entry :=
  match history with
  | [] => []
  | elem :: rest =>
      mkEntry callEntry (inl (op_Input elem)) id (op_Call elem) (op_ClientId elem) ::
      mkEntry returnEntry (inr (op_Output elem)) id (op_Return elem) (op_ClientId elem) ::
      entriesFrom (id + 1) rest
  end.

Definition makeEntries {TS : TimeSort} (history : list Operation) : list entry :=
  sortByTime (entriesFrom 0 history).

Fixpoint renumberLoop (m : gmap Z Z) (id : Z) (events : list Event) : list Event :=
  match events with
  | [] => []
  | v :: rest =>
      match m !! ev_Id v with
      | Some r => mkEvent (ev_ClientId v) (ev_Kind v) (ev_Value v) r :: renumberLoop m id rest
      | None =>
          mkEvent (ev_ClientId v) (ev_Kind v) (ev_Value v) id ::
          renumberLoop (<[ev_Id v := id]> m) (id + 1) rest
      end
  end.

Definition renumber (events : list Event) : list Event := renumberLoop ∅ 0 events.

Fixpoint convertFrom (i : Z) (events : list Event) : list entry :=
  match events with
  | [] => []
  | elem :: rest =>
      mkEntry (if decide (ev_Kind elem = ReturnEvent) then returnEntry else callEntry)
        (ev_Value elem) (ev_Id elem) i (ev_ClientId elem) :: convertFrom (i + 1) rest
  end.

Definition convertEntries (events : list Event) : list entry := convertFrom 0 events.
End entries.
Arguments TimeSort : clear implicits.

(** ** Linearizability *)

Section linearizable.
Context {I O S : Type} (model : Model I O S).
Implicit Types (h : list (Operation I O)) (s : S).

(** The model accepts the operations one after the other. *)
Fixpoint accepts s h : Prop :=
  match h with
  | [] => True
  | op :: h =>
      (Step model s (op_Input op) (op_Output op)).1 = true ∧
      accepts (Step model s (op_Input op) (op_Output op)).2 h
  end.

Definition realTime (x y : Operation I O) : Prop := ¬ op_Return y < op_Call x.

Definition linearizable h : Prop :=
  ∃ h', h' ≡ₚ h ∧ StronglySorted realTime h' ∧ accepts (Init model) h'.

(** A history the checker is meant for: operations return after they are
    called. *)
Definition wellTimed h : Prop := Forall (λ op, op_Call op <= op_Return op) h.

(** What [Equal] has to promise: states it identifies accept the same
    operations. *)
Class EqualOk (eqb : S → S → bool) := {
  sim : relation S;
  sim_equiv :: Equivalence sim;
  sim_equal s1 s2 : eqb s1 s2 = true → sim s1 s2;
  sim_step s1 s2 i o : sim s1 s2 →
    (Step model s1 i o).1 = (Step model s2 i o).1 ∧ sim (Step model s1 i o).2 (Step model s2 i o).2;
}.
End linearizable.
Arguments sim {I O S} model eqb {_}.
Arguments sim_equal {I O S} model eqb {_}.
Arguments sim_step {I O S} model eqb {_}.

(** Equality of states is always such a promise. *)
#[export] Instance ShallowEqual_ok {I O S} `{EqDecision S} (model : Model I O S) :
  EqualOk model ShallowEqual.
Proof.
  refine {| sim := eq |}.
  - intros s1 s2 H. by apply bool_decide_eq_true in H.
  - by intros s1 s2 i o ->.
Defined.
