(* ===== verification/PorcList.v ===== *)
(** * PorcList: the doubly linked list of entries

    The nodes of [src/src/porcupine/checker.go] (62-90, 121-138, 159-177).
    The heap is the list of the nodes allocated so far, a pointer the number of
    a node, [nil] is [None]; following [nil] panics.  [seg] is the
    representation predicate: the nodes of a heap that form a chain, with the
    pointers that enter and leave it.  [lift] takes an operation's two nodes
    out of the chain and [unlift] puts them back: after [lift], [unlift] gives
    back the very heap there was before ([lift_spec]), which is what lets the
    search of [PorcSearch] backtrack. *)

From S2P Require Import Prelude PorcModel.
Local Open Scope Z_scope.

Record node (V : Type) := mkNode {
  n_value : option V; n_match : option nat; n_id : Z; n_next : option nat; n_prev : option nat
}.
Arguments mkNode {V}.
Arguments n_value {V}.
Arguments n_match {V}.
Arguments n_id {V}.
Arguments n_next {V}.
Arguments n_prev {V}.

Section list.
Context {V : Type}.
Local Abbreviation node := (node V).
Local Abbreviation heap := (list node).
Implicit Types (h : heap) (a b c : nat) (p q : option nat) (n : node) (l : list nat).

Definition set_next q n : node := mkNode (n_value n) (n_match n) (n_id n) q (n_prev n).
Definition set_prev q n : node := mkNode (n_value n) (n_match n) (n_id n) (n_next n) q.

(** [p.field], and an assignment to a field of [*p]. *)
Definition load h p : outcome node :=
  match p with
  | None => Panic
  | Some a => match h !! a with Some n => Ret n | None => Panic end
  end.

Definition store h p (f : node → node) : outcome heap :=
  match p with
  | None => Panic
  | Some a => match h !! a with Some n => Ret (<[a := f n]> h) | None => Panic end
  end.

Definition insertBefore h (n mark : option nat) : outcome heap :=
  match mark with
  | None => Ret h
  | Some _ =>
      mk ← load h mark;
      let beforeMark := n_prev mk in
      h ← store h mark (set_prev n);
      h ← store h n (set_next mark);
      match beforeMark with
      | None => Ret h
      | Some _ =>
          h ← store h n (set_prev beforeMark);
          store h beforeMark (set_next n)
      end
  end.

(** The number of nodes from [p] on; [fuel] turns of the loop. *)
Fixpoint lengthLoop (fuel : nat) h p (k : Z) : outcome Z :=
  match p with
  | None => Ret k
  | Some _ =>
      match fuel with
      | O => Block
      | S fuel => n ← load h p; lengthLoop fuel h (n_next n) (k + 1)
      end
  end.

Definition length_ h p : outcome Z := lengthLoop (length h) h p 0.

Definition lift h (entry : option nat) : outcome heap :=
  e ← load h entry;
  h ← store h (n_prev e) (set_next (n_next e));
  e ← load h entry;
  h ← store h (n_next e) (set_prev (n_prev e));
  e ← load h entry;
  let match_ := n_match e in
  m ← load h match_;
  h ← store h (n_prev m) (set_next (n_next m));
  m ← load h match_;
  match n_next m with
  | None => Ret h
  | Some _ => store h (n_next m) (set_prev (n_prev m))
  end.

Definition unlift h (entry : option nat) : outcome heap :=
  e ← load h entry;
  let match_ := n_match e in
  m ← load h match_;
  h ← store h (n_prev m) (set_next match_);
  m ← load h match_;
  h ← match n_next m with
      | None => Ret h
      | Some _ => store h (n_next m) (set_prev match_)
      end;
  e ← load h entry;
  h ← store h (n_prev e) (set_next entry);
  e ← load h entry;
  store h (n_next e) (set_prev entry).

(** ** Chains *)

(** The nodes [l] form a chain whose first node points back to [p] and whose
    last one points on to [q]. *)
Fixpoint seg h p l q : Prop :=
  match l with
  | [] => True
  | a :: l' =>
      (∃ n, h !! a = Some n ∧ n_prev n = p ∧ n_next n = match l' with [] => q | b :: _ => Some b end) ∧
      seg h (Some a) l' q
  end.

Definition firstOr l q : option nat := match l with [] => q | a :: _ => Some a end.

Lemma seg_cons h p a l q :
  seg h p (a :: l) q ↔
  (∃ n, h !! a = Some n ∧ n_prev n = p ∧ n_next n = firstOr l q) ∧ seg h (Some a) l q.
Proof. done. Qed.

Lemma seg_app h p l1 l2 q :
  seg h p (l1 ++ l2) q ↔ seg h p l1 (firstOr l2 q) ∧ seg h (from_option Some p (last l1)) l2 q.
Proof.
  revert p. induction l1 as [|b l1 IH]; intros p; [cbn; naive_solver|].
  rewrite <- app_comm_cons, !seg_cons, IH, last_cons. destruct l1 as [|c l1]; cbn [app firstOr].
  - cbn. naive_solver.
  - destruct (last (c :: l1)) eqn:E; [cbn; naive_solver|]. by apply last_None in E.
Qed.

(** A chain only depends on its own nodes. *)
Lemma seg_frame h p l q a n : a ∉ l → seg (<[a := n]> h) p l q ↔ seg h p l q.
Proof.
  revert p. induction l as [|b l IH]; intros p Ha; [done|].
  apply not_elem_of_cons in Ha as [Hb Ha]. rewrite !seg_cons, IH by done.
  by rewrite list_lookup_insert_ne by done.
Qed.

Lemma load_Some h a n : h !! a = Some n → load h (Some a) = Ret n.
Proof. cbn. by intros ->. Qed.

Lemma store_Some h a n f : h !! a = Some n → store h (Some a) f = Ret (<[a := f n]> h).
Proof. cbn. by intros ->. Qed.

(** Taking one node out of a chain, and putting it back: what [lift] and
    [unlift] do to each of the two nodes. *)
Definition unlink h a : outcome heap :=
  e ← load h (Some a);
  h ← store h (n_prev e) (set_next (n_next e));
  e ← load h (Some a);
  match n_next e with
  | None => Ret h
  | Some _ => store h (n_next e) (set_prev (n_prev e))
  end.

Definition relink h a : outcome heap :=
  e ← load h (Some a);
  h ← store h (n_prev e) (set_next (Some a));
  e ← load h (Some a);
  match n_next e with
  | None => Ret h
  | Some _ => store h (n_next e) (set_prev (Some a))
  end.

(** The fields no operation changes. *)
Definition data n : option V * option nat * Z := (n_value n, n_match n, n_id n).
Definition sameData h h' : Prop := ∀ a, data <$> h !! a = data <$> h' !! a.

Lemma sameData_insert h a n n' : h !! a = Some n → data n' = data n → sameData h (<[a := n']> h).
Proof.
  intros Ha Hn b. destruct (decide (b = a)) as [->|].
  - rewrite list_lookup_insert_eq by eauto using lookup_lt_Some. rewrite Ha. cbn. by rewrite Hn.
  - by rewrite list_lookup_insert_ne.
Qed.

#[local] Instance sameData_trans : Transitive sameData.
Proof. intros h1 h2 h3 H12 H23 a. by rewrite H12. Qed.

Lemma insert_undo h a n n' : h !! a = Some n → <[a := n]> (<[a := n']> h) = h.
Proof. intros Ha. by rewrite list_insert_insert_eq, list_insert_id. Qed.

Lemma set_next_back q r n : n_next n = r → set_next r (set_next q n) = n.
Proof. intros <-. by destruct n. Qed.

Lemma set_prev_back q r n : n_prev n = r → set_prev r (set_prev q n) = n.
Proof. intros <-. by destruct n. Qed.

Lemma lookup_insert_at h a n n' : h !! a = Some n → (<[a := n']> h) !! a = Some n'.
Proof. intros Ha. apply list_lookup_insert_eq. by eapply lookup_lt_Some. Qed.

(** The last node of a chain. *)
Lemma unlink_last h l1 b a :
  NoDup (l1 ++ [b; a]) → seg h None (l1 ++ [b; a]) None →
  ∃ h', unlink h a = Ret h' ∧ seg h' None (l1 ++ [b]) None ∧ relink h' a = Ret h ∧
    h' !! a = h !! a ∧ sameData h h'.
Proof.
  intros (Hd1 & Hd2 & Hd3)%NoDup_app Hs. apply seg_app in Hs as [Hs1 Hs2]. cbn [firstOr] in Hs1.
  apply seg_cons in Hs2 as ((nb & Hb & Hbp & Hbn) & ((na & Ha & Hap & Han) & _)). cbn in Hbn.
  assert (a ≠ b) as Hab by (apply NoDup_cons in Hd3 as [Hd3 _]; set_solver).
  assert (b ∉ l1) as Hb1 by (intros Hin; apply (Hd2 _ Hin); set_solver).
  exists (<[b := set_next None nb]> h). split; [|split; [|split; [|split]]].
  - unfold unlink. rewrite (load_Some _ _ _ Ha). cbn [mbind outcome_bind]. rewrite Hap, Han.
    rewrite (store_Some _ _ _ _ Hb). cbn [mbind outcome_bind].
    rewrite (load_Some _ a na) by (by rewrite list_lookup_insert_ne). cbn [mbind outcome_bind]. by rewrite Han.
  - apply seg_app. rewrite seg_frame by done. split; [done|]. cbn. split; [|done].
    eexists. split; [by eapply lookup_insert_at|]. done.
  - unfold relink. rewrite (load_Some _ a na) by (by rewrite list_lookup_insert_ne). cbn [mbind outcome_bind].
    rewrite Hap, (store_Some _ b (set_next None nb)) by (by eapply lookup_insert_at). cbn [mbind outcome_bind].
    rewrite (set_next_back _ _ _ Hbn), insert_undo by done.
    rewrite (load_Some _ _ _ Ha). cbn [mbind outcome_bind]. by rewrite Han.
  - by rewrite list_lookup_insert_ne.
  - by apply (sameData_insert _ _ nb).
Qed.

(** A node between two others. *)
Lemma unlink_inner h l1 b a c l2 :
  NoDup (l1 ++ b :: a :: c :: l2) → seg h None (l1 ++ b :: a :: c :: l2) None →
  ∃ h', unlink h a = Ret h' ∧ seg h' None (l1 ++ b :: c :: l2) None ∧ relink h' a = Ret h ∧
    h' !! a = h !! a ∧ sameData h h'.
Proof.
  intros (Hd1 & Hd2 & Hd3)%NoDup_app Hs. apply seg_app in Hs as [Hs1 Hs2]. cbn [firstOr] in Hs1.
  apply seg_cons in Hs2 as ((nb & Hb & Hbp & Hbn) & Hs2). cbn in Hbn.
  apply seg_cons in Hs2 as ((na & Ha & Hap & Han) & Hs2). cbn in Han.
  apply seg_cons in Hs2 as ((nc & Hc & Hcp & Hcn) & Hs2).
  apply NoDup_cons in Hd3 as [Hnb [Hna [Hnc _]%NoDup_cons]%NoDup_cons].
  assert ((b ∉ l1) ∧ (c ∉ l1)) as [Hb1 Hc1] by (split; intros Hin; apply (Hd2 _ Hin); set_solver).
  assert (a ≠ b ∧ a ≠ c ∧ b ≠ c ∧ b ∉ l2) as (Hab & Hac & Hbc & Hb2) by set_solver.
  set (h1 := <[b := set_next (Some c) nb]> h).
  assert (h1 !! a = Some na) as Ha1 by (unfold h1; by rewrite list_lookup_insert_ne).
  assert (h1 !! c = Some nc) as Hc1' by (unfold h1; by rewrite list_lookup_insert_ne).
  assert (h1 !! b = Some (set_next (Some c) nb)) as Hb1' by (by eapply lookup_insert_at).
  exists (<[c := set_prev (Some b) nc]> h1). split; [|split; [|split; [|split]]].
  - unfold unlink. rewrite (load_Some _ _ _ Ha). cbn [mbind outcome_bind]. rewrite Hap, Han.
    rewrite (store_Some _ _ _ _ Hb). fold h1. cbn [mbind outcome_bind].
    rewrite (load_Some _ _ _ Ha1). cbn [mbind outcome_bind]. by rewrite Han, Hap, (store_Some _ _ _ _ Hc1').
  - apply seg_app. rewrite seg_frame by done. unfold h1 at 1. rewrite seg_frame by done.
    split; [done|]. apply seg_cons. split; [|apply seg_cons; split].
    + exists (set_next (Some c) nb). rewrite list_lookup_insert_ne by done. done.
    + eexists. split; [by eapply lookup_insert_at|]. done.
    + rewrite seg_frame by done. unfold h1. by rewrite seg_frame.
  - unfold relink. rewrite (load_Some _ a na) by (by rewrite list_lookup_insert_ne). cbn [mbind outcome_bind].
    rewrite Hap, (store_Some _ b (set_next (Some c) nb)) by (by rewrite list_lookup_insert_ne).
    cbn [mbind outcome_bind]. rewrite (set_next_back _ _ _ Hbn), list_insert_insert_ne by done.
    unfold h1. rewrite insert_undo by done.
    rewrite (load_Some _ a na) by (by rewrite list_lookup_insert_ne). cbn [mbind outcome_bind].
    rewrite Han, (store_Some _ c (set_prev (Some b) nc)) by (by eapply lookup_insert_at).
    by rewrite (set_prev_back _ _ _ Hcp), insert_undo.
  - by rewrite list_lookup_insert_ne, Ha1 by done.
  - transitivity h1; [by apply (sameData_insert h b nb)|by apply (sameData_insert h1 c nc)].
Qed.

(** Both, with the predecessor given by the chain. *)
Lemma unlink_spec h b l1 a l2 :
  NoDup (b :: l1 ++ a :: l2) → seg h None (b :: l1 ++ a :: l2) None →
  ∃ h', unlink h a = Ret h' ∧ seg h' None (b :: l1 ++ l2) None ∧ relink h' a = Ret h ∧
    h' !! a = h !! a ∧ sameData h h'.
Proof.
  destruct (exists_last (l := b :: l1)) as (l0 & b' & E); [done|].
  rewrite !app_comm_cons, E, <- !app_assoc. cbn [app]. destruct l2 as [|c l2].
  - apply unlink_last.
  - apply unlink_inner.
Qed.

Lemma lift_unlink h a n b c m h' :
  h !! a = Some n → n_prev n = Some b → b ≠ a → n_next n = Some c → n_match n = Some m →
  unlink h a = Ret h' → h' !! a = Some n → lift h (Some a) = unlink h' m.
Proof.
  intros Ha Hp Hba Hn Hm Hu Ha'. unfold lift. unfold unlink in Hu. rewrite (load_Some _ _ _ Ha) in Hu |- *.
  cbn [mbind outcome_bind] in Hu |- *. rewrite Hp in Hu |- *.
  apply bind_Ret in Hu as (h1 & Hs & Hu). rewrite Hs. cbn [mbind outcome_bind].
  assert (h1 !! a = Some n) as Ha1.
  { cbn in Hs. destruct (h !! b); [|done]. injection Hs as <-. by rewrite list_lookup_insert_ne. }
  rewrite (load_Some _ _ _ Ha1) in Hu |- *. cbn [mbind outcome_bind] in Hu |- *. rewrite Hn in Hu |- *.
  rewrite Hp in Hu |- *. rewrite Hu. cbn [mbind outcome_bind]. rewrite (load_Some _ _ _ Ha').
  cbn [mbind outcome_bind]. by rewrite Hm.
Qed.

Lemma unlift_relink h a n n' b c m h' :
  h !! a = Some n → n_match n = Some m → relink h m = Ret h' →
  h' !! a = Some n' → n_prev n' = Some b → b ≠ a → n_next n' = Some c →
  unlift h (Some a) = relink h' a.
Proof.
  intros Ha Hm Hr Ha' Hp Hba Hn. unfold unlift. rewrite (load_Some _ _ _ Ha). cbn [mbind outcome_bind].
  rewrite Hm. unfold relink in Hr. apply bind_Ret in Hr as (e & He & Hr). rewrite He. cbn [mbind outcome_bind].
  apply bind_Ret in Hr as (h1 & Hs & Hr). rewrite Hs. cbn [mbind outcome_bind].
  apply bind_Ret in Hr as (e1 & He1 & Hr). rewrite He1. cbn [mbind outcome_bind]. rewrite Hr.
  cbn [mbind outcome_bind]. unfold relink. rewrite (load_Some _ _ _ Ha'). cbn [mbind outcome_bind]. rewrite Hp.
  destruct (store h' (Some b) (set_next (Some a))) as [h2| | |] eqn:E; [|done..]. cbn [mbind outcome_bind].
  rewrite (load_Some h2 a n'); [cbn [mbind outcome_bind]; by rewrite Hn|].
  cbn in E. destruct (h' !! b); [|done]. injection E as <-. by rewrite list_lookup_insert_ne.
Qed.

(** Lifting an operation takes its two nodes out of the chain, and unlifting
    it then restores the heap. *)
Lemma lift_spec h hd l1 a l2 m l3 n :
  NoDup (hd :: l1 ++ a :: l2 ++ m :: l3) → seg h None (hd :: l1 ++ a :: l2 ++ m :: l3) None →
  h !! a = Some n → n_match n = Some m →
  ∃ h', lift h (Some a) = Ret h' ∧ seg h' None (hd :: l1 ++ l2 ++ l3) None ∧
    unlift h' (Some a) = Ret h ∧ sameData h h'.
Proof.
  intros Hd Hs Ha Hm.
  assert (∃ b c, n_prev n = Some b ∧ b ≠ a ∧ n_next n = Some c) as (b & c & Hp & Hba & Hn).
  { rewrite app_comm_cons in Hs, Hd. apply seg_app in Hs as [_ ((n' & Ha' & Hp & Hn) & _)]. simplify_eq.
    destruct (last (hd :: l1)) as [b|] eqn:Hl; [|by apply last_None in Hl]. exists b. rewrite Hp, Hn. cbn.
    destruct (l2 ++ m :: l3) as [|c l] eqn:Hc; [by destruct l2|]. exists c. split; [done|]. split; [|done].
    apply NoDup_app in Hd as (_ & Hd & _). intros ->. apply (Hd a); [|apply list_elem_of_here].
    apply last_Some in Hl as [l' ->]. set_solver. }
  destruct (unlink_spec h hd l1 a (l2 ++ m :: l3) Hd Hs) as (h1 & Hu & Hs1 & Hr1 & Ha1 & Hd1).
  rewrite app_assoc in Hs1. destruct (unlink_spec h1 hd (l1 ++ l2) m l3) as (h2 & Hu2 & Hs2 & Hr2 & _ & Hd2).
  - rewrite <- app_assoc. clear -Hd. apply (NoDup_app (hd :: l1)) in Hd as (H1 & H2 & H3).
    apply NoDup_cons in H3 as [_ H3]. apply (NoDup_app (hd :: l1)). split; [done|]. split; [|done]. set_solver.
  - done.
  - exists h2. assert (h1 !! a = Some n) as Hn1 by (by rewrite Ha1).
    rewrite (lift_unlink h a n b c m h1) by done. rewrite <- app_assoc in Hs2.
    pose proof (Hd2 a) as Hda. rewrite Hn1 in Hda. destruct (h2 !! a) as [n2|] eqn:Hn2; [|done].
    split; [done|]. split; [done|]. split.
    + rewrite (unlift_relink h2 a n2 n b c m h1); try done. injection Hda as _ Hda _. by rewrite <- Hda.
    + by transitivity h1.
Qed.

(** A new node in front of a chain. *)
Lemma insertBefore_front h l a n :
  seg h None l None → NoDup l → a ∉ l → h !! a = Some n → n_next n = None → n_prev n = None →
  ∃ h', insertBefore h (Some a) (firstOr l None) = Ret h' ∧ seg h' None (a :: l) None ∧
    sameData h h' ∧ length h' = length h.
Proof.
  intros Hs Hd Hal Ha Hn Hp. destruct l as [|b l]; cbn [firstOr].
  { exists h. cbn. split; [done|]. split; [|done]. split; [|done]. by exists n. }
  apply not_elem_of_cons in Hal as [Hab Hal]. apply NoDup_cons in Hd as [Hbl _].
  apply seg_cons in Hs as [(nb & Hb & Hbp & Hbn) Hs].
  set (h1 := <[b := set_prev (Some a) nb]> h).
  assert (h1 !! a = Some n) as Ha1 by (unfold h1; by rewrite list_lookup_insert_ne).
  exists (<[a := set_next (Some b) n]> h1). split; [|split; [|split]].
  - unfold insertBefore. rewrite (load_Some _ _ _ Hb). cbn [mbind outcome_bind]. rewrite Hbp.
    rewrite (store_Some _ _ _ _ Hb). fold h1. cbn [mbind outcome_bind].
    by rewrite (store_Some _ _ _ _ Ha1).
  - apply seg_cons. split; [|apply seg_cons; split].
    + eexists. split; [by eapply lookup_insert_at|]. done.
    + eexists. rewrite list_lookup_insert_ne by done. split; [by eapply lookup_insert_at|]. done.
    + rewrite seg_frame by done. unfold h1. by rewrite seg_frame.
  - transitivity h1; [by apply (sameData_insert h b nb)|by apply (sameData_insert h1 a n)].
  - unfold h1. by rewrite !length_insert.
Qed.

(** A chain survives the allocation of a node. *)
Lemma seg_alloc h n p l q : seg h p l q → seg (h ++ [n]) p l q.
Proof.
  revert p. induction l as [|a l IH]; intros p; [done|]. intros [(m & Hm & ?) Hs].
  apply seg_cons. split; [|by apply IH]. exists m. split; [by apply lookup_app_l_Some|done].
Qed.

Lemma lengthLoop_spec h p l q k fuel :
  seg h p l None → (length l <= fuel)%nat → (l = [] → q = None) → (∀ a l', l = a :: l' → q = Some a) →
  lengthLoop fuel h q k = Ret (k + zlen l).
Proof.
  revert p q k fuel. induction l as [|a l IH]; intros p q k fuel Hs Hf Hq0 Hq.
  - rewrite Hq0 by done. destruct fuel; cbn; f_equal; unfold zlen; cbn; lia.
  - rewrite (Hq a l) by done. cbn [length] in Hf. destruct fuel as [|fuel]; [lia|].
    apply seg_cons in Hs as [(n & Hn & _ & Hnx) Hs]. cbn [lengthLoop].
    rewrite (load_Some _ _ _ Hn). cbn [mbind outcome_bind].
    rewrite (IH (Some a)); [autorewrite with zlen; f_equal; lia|done|lia|..].
    + by intros ->.
    + by intros b l' ->.
Qed.
End list.

(** ** The list of a history *)

Section linked.
Context {I O : Type}.
Local Abbreviation entry := (entry I O).
Local Abbreviation heap := (list (node (I + O))).
Implicit Types (es : list entry) (h : heap) (e r : entry) (a m : nat) (cs : list (nat * entry)).

(** The loop of [makeLinkedEntries], which runs from the last entry to the
    first: the heap, the root and the map from ids to return nodes. *)
Fixpoint linkFrom es : outcome (heap * option nat * gmap Z nat) :=
  match es with
  | [] => Ret ([], None, ∅)
  | elem :: rest =>
      '(h, root, mt) ← linkFrom rest;
      let entry := length h in
      match e_kind elem with
      | returnEntry =>
          h ← insertBefore (h ++ [mkNode (Some (e_value elem)) None (e_id elem) None None]) (Some entry) root;
          Ret (h, Some entry, <[e_id elem := entry]> mt)
      | callEntry =>
          h ← insertBefore (h ++ [mkNode (Some (e_value elem)) (mt !! e_id elem) (e_id elem) None None])
                (Some entry) root;
          Ret (h, Some entry, mt)
      end
  end.

Definition makeLinkedEntries es : outcome (heap * option nat) :=
  '(h, root, _) ← linkFrom es; Ret (h, root).

(** The entries with the numbers of their nodes. *)
Fixpoint cellsOf es : list (nat * entry) :=
  match es with
  | [] => []
  | e :: rest => (length rest, e) :: cellsOf rest
  end.

(** Node [a] of the heap is the node of entry [e], and if [e] is a call its
    match is the node of its return. *)
Definition nodeFor h cs a e : Prop :=
  ∃ n, h !! a = Some n ∧ n_value n = Some (e_value e) ∧ n_id n = e_id e ∧
    match e_kind e with
    | returnEntry => n_match n = None
    | callEntry => ∃ m r, n_match n = Some m ∧ (m, r) ∈ cs ∧ e_kind r = returnEntry ∧ e_id r = e_id e
    end.

(** Every call has its return later in the list. *)
Fixpoint answered es : Prop :=
  match es with
  | [] => True
  | e :: rest =>
      (e_kind e = callEntry → ∃ r, r ∈ rest ∧ e_kind r = returnEntry ∧ e_id r = e_id e) ∧ answered rest
  end.

Lemma cellsOf_snd es : (cellsOf es).*2 = es.
Proof. induction es as [|e es IH]; cbn; [done|]. by rewrite IH. Qed.

Lemma cellsOf_fst_lt es a : a ∈ (cellsOf es).*1 → (a < length es)%nat.
Proof.
  induction es as [|e es IH]; cbn; [by intros ?%elem_of_nil|].
  intros [->|H]%elem_of_cons; [lia|]. apply IH in H. lia.
Qed.

Lemma cellsOf_fst_NoDup es : NoDup (cellsOf es).*1.
Proof.
  induction es as [|e es IH]; cbn; [constructor|]. constructor; [|done].
  intros H%cellsOf_fst_lt. lia.
Qed.

Lemma nodeFor_mono h h' cs cs' a e :
  sameData h h' → cs ⊆ cs' → nodeFor h cs a e → nodeFor h' cs' a e.
Proof.
  intros Hd Hcs (n & Hn & Hv & Hi & Hm). specialize (Hd a). rewrite Hn in Hd.
  destruct (h' !! a) as [n'|] eqn:E; [|done]. injection Hd as Hd1 Hd2 Hd3. exists n'.
  rewrite <- Hd1, <- Hd2, <- Hd3. split; [done|]. split; [done|]. split; [done|].
  destruct (e_kind e); [|done]. destruct Hm as (m & r & ? & ? & ?). exists m, r. set_solver.
Qed.

Lemma nodeFor_alloc h n cs a e : nodeFor h cs a e → nodeFor (h ++ [n]) cs a e.
Proof.
  intros (n' & Hn & H). exists n'. split; [by apply lookup_app_l_Some|done].
Qed.

(** One turn of the loop. *)
Lemma link_one h es e (mt : option nat) :
  length h = length es → seg h None (cellsOf es).*1 None →
  (∀ a x, (a, x) ∈ cellsOf es → nodeFor h (cellsOf es) a x) →
  match e_kind e with
  | returnEntry => mt = None
  | callEntry => ∃ m r, mt = Some m ∧ (m, r) ∈ cellsOf es ∧ e_kind r = returnEntry ∧ e_id r = e_id e
  end →
  ∃ h', insertBefore (h ++ [mkNode (Some (e_value e)) mt (e_id e) None None]) (Some (length h))
          (firstOr (cellsOf es).*1 None) = Ret h' ∧
    length h' = length (e :: es) ∧ seg h' None (cellsOf (e :: es)).*1 None ∧
    ∀ a x, (a, x) ∈ cellsOf (e :: es) → nodeFor h' (cellsOf (e :: es)) a x.
Proof.
  intros Hl Hs Hn Hm. set (n := mkNode _ mt _ _ _).
  assert ((h ++ [n]) !! length h = Some n) as Hnew by (by apply list_lookup_middle).
  destruct (insertBefore_front (h ++ [n]) (cellsOf es).*1 (length h) n) as (h' & Hi & Hs' & Hd & Hl');
    [by apply seg_alloc|apply cellsOf_fst_NoDup|rewrite Hl; intros ?%cellsOf_fst_lt; lia|done..|].
  exists h'. split; [done|]. split; [rewrite Hl', length_app; cbn; lia|].
  split; [cbn; by rewrite <- Hl|]. intros a x [[= -> ->]|Hx]%elem_of_cons.
  - eapply nodeFor_mono; [done|apply list_subseteq_skip; reflexivity|]. rewrite <- Hl. exists n. split; [done|].
    split; [done|]. split; [done|]. cbn. destruct (e_kind e); [|done].
    destruct Hm as (m & r & ? & ? & ?). exists m, r. set_solver.
  - eapply nodeFor_mono; [done| |by apply nodeFor_alloc, Hn]. set_solver.
Qed.

Lemma linkFrom_spec es :
  answered es →
  ∃ h mt, linkFrom es = Ret (h, firstOr (cellsOf es).*1 None, mt) ∧
    length h = length es ∧ seg h None (cellsOf es).*1 None ∧
    (∀ a e, (a, e) ∈ cellsOf es → nodeFor h (cellsOf es) a e) ∧
    (∀ i m, mt !! i = Some m → ∃ r, (m, r) ∈ cellsOf es ∧ e_kind r = returnEntry ∧ e_id r = i) ∧
    (∀ r, r ∈ es → e_kind r = returnEntry → is_Some (mt !! e_id r)).
Proof.
  induction es as [|e es IH]; cbn [answered].
  { intros _. exists [], ∅. split; [done|]. split; [done|]. split; [done|]. split; [by intros ?? ?%elem_of_nil|].
    split; [done|]. by intros r ?%elem_of_nil. }
  intros [Ha (h & mt & Hlk & Hl & Hs & Hn & Hmt & Hret)%IH]. cbn [linkFrom]. rewrite Hlk.
  cbn [mbind outcome_bind]. destruct (e_kind e) eqn:Hk.
  - destruct Ha as (r & Hr & Hrk & Hri); [done|]. destruct (Hret r Hr Hrk) as [m Hm]. rewrite Hri in Hm.
    destruct (link_one h es e (mt !! e_id e)) as (h' & Hi & Hl' & Hs' & Hn'); [done..| |].
    { rewrite Hk. destruct (Hmt _ _ Hm) as (r' & ?). by exists m, r'. }
    rewrite Hi. cbn [mbind outcome_bind]. exists h', mt. rewrite Hl. split; [done|]. split; [done|].
    split; [done|]. split; [done|]. split.
    + intros i m' (r' & ? & ?)%Hmt. exists r'. set_solver.
    + intros r' [->|Hr']%elem_of_cons; [congruence|eauto].
  - destruct (link_one h es e None) as (h' & Hi & Hl' & Hs' & Hn'); [done..|by rewrite Hk|].
    rewrite Hi. cbn [mbind outcome_bind]. exists h', (<[e_id e := length h]> mt). rewrite Hl. split; [done|].
    split; [done|]. split; [done|]. split; [done|]. split.
    + intros i m' [[<- <-]|[_ (r' & ? & ?)%Hmt]]%lookup_insert_Some; [exists e|exists r']; set_solver.
    + intros r' [->|Hr']%elem_of_cons Hk'; [rewrite lookup_insert_eq; by eexists|].
      destruct (decide (e_id e = e_id r')) as [->|]; [rewrite lookup_insert_eq; by eexists|].
      rewrite lookup_insert_ne by done. eauto.
Qed.
End linked.
