(* ===== verification/PorcPath.v ===== *)
(** * PorcPath: linearizations of a list of entries

    Between the declarative definition of [PorcModel.linearizable] and the
    search of [PorcSearch] stands [path], which executes one operation after
    the other and may choose any operation whose call comes before the first
    return left in the list.  [path_linearization] says that the complete paths
    are the linearizations of the list; [PorcHistory] relates those to the
    linearizations of a history. *)

From S2P Require Import Prelude PorcModel PorcList.
Local Open Scope Z_scope.

Section path.
Context {I O S : Type} (model : Model I O S).
Local Abbreviation entry := (entry I O).
Implicit Types (l pre post : list entry) (e c r : entry) (s : S) (i : Z) (ids : list Z).

Definition isCall e : Prop := e_kind e = callEntry.
Definition isReturn e : Prop := e_kind e = returnEntry.
#[export] Instance isCall_dec e : Decision (isCall e).
Proof. unfold isCall. apply _. Defined.
Definition removeOp i l : list entry := filter (λ e, e_id e ≠ i) l.

Inductive path : list entry → S → list Z → list entry → S → Prop :=
  | path_nil l s : path l s [] l s
  | path_cons pre c post r inp out s s1 ids l' s' :
      Forall isCall pre → isCall c → r ∈ post → isReturn r → e_id r = e_id c →
      e_value c = inl inp → e_value r = inr out → Step model s inp out = (true, s1) →
      path (removeOp (e_id c) (pre ++ c :: post)) s1 ids l' s' →
      path (pre ++ c :: post) s (e_id c :: ids) l' s'.

Definition canFinish l s : Prop := ∃ ids s', path l s ids [] s'.

(** A list of entries as a history gives it: one call and one later return
    for each id, with values of their types. *)
Record wfEntries l : Prop := {
  wf_nodup : NoDup ((λ e, (e_kind e, e_id e)) <$> l);
  wf_answered : answered l;
  wf_called r : r ∈ l → isReturn r → ∃ c, c ∈ l ∧ isCall c ∧ e_id c = e_id r;
  wf_call c : c ∈ l → isCall c → ∃ inp, e_value c = inl inp;
  wf_return r : r ∈ l → isReturn r → ∃ out, e_value r = inr out;
}.

Lemma kind_cases e : isCall e ∨ isReturn e.
Proof. unfold isCall, isReturn. destruct (e_kind e); auto. Qed.

Lemma wf_unique l e e' : wfEntries l → e ∈ l → e' ∈ l → e_kind e = e_kind e' → e_id e = e_id e' → e = e'.
Proof.
  intros [Hd _ _ _ _] [j Hj]%list_elem_of_lookup [j' Hj']%list_elem_of_lookup Hk Hi.
  assert (j = j') as ->; [|congruence]. eapply NoDup_lookup; [done|..]; rewrite list_lookup_fmap.
  - rewrite Hj. done.
  - rewrite Hj'. cbn. by rewrite Hk, Hi.
Qed.

Lemma answered_remove i l : answered l → answered (removeOp i l).
Proof.
  induction l as [|e l IH]; [done|]. intros [He Hl]. unfold removeOp. rewrite filter_cons.
  case_decide; [|by apply IH]. split; [|by apply IH]. intros Hk. destruct (He Hk) as (r & Hr & Hrk & Hri).
  exists r. split; [|done]. apply list_elem_of_filter. split; [by rewrite Hri|done].
Qed.

Lemma wf_remove i l : wfEntries l → wfEntries (removeOp i l).
Proof.
  intros [Hd Ha Hc Hv Ho]. unfold removeOp. constructor.
  - eapply sublist_NoDup; [done|]. apply fmap_sublist, sublist_filter.
  - by apply answered_remove.
  - intros r [Hi Hr]%list_elem_of_filter Hk. destruct (Hc r Hr Hk) as (c & ? & ? & Hci). exists c.
    split; [|done]. apply list_elem_of_filter. by rewrite Hci.
  - intros c [_ ?]%list_elem_of_filter. by apply Hv.
  - intros r [_ ?]%list_elem_of_filter. by apply Ho.
Qed.

Lemma answered_app pre c post :
  answered (pre ++ c :: post) → isCall c → ∃ r, r ∈ post ∧ isReturn r ∧ e_id r = e_id c.
Proof.
  induction pre as [|e pre IH]; [by intros [? _]|]. intros [_ ?]. by apply IH.
Qed.

Lemma removeOp_length l i c : c ∈ l → e_id c = i → (length (removeOp i l) < length l)%nat.
Proof. intros Hc <-. unfold removeOp. apply length_filter_lt with c; [done|]. naive_solver. Qed.

Lemma path_app l s ids1 l1 s1 ids2 l2 s2 :
  path l s ids1 l1 s1 → path l1 s1 ids2 l2 s2 → path l s (ids1 ++ ids2) l2 s2.
Proof. intros H1 H2. induction H1; [done|]. cbn. econstructor; eauto. Qed.

(** The next operation of a complete path. *)
Lemma canFinish_inv l s :
  canFinish l s → l = [] ∨ ∃ pre c post r inp out s1,
    l = pre ++ c :: post ∧ Forall isCall pre ∧ isCall c ∧ r ∈ post ∧ isReturn r ∧ e_id r = e_id c ∧
    e_value c = inl inp ∧ e_value r = inr out ∧ Step model s inp out = (true, s1) ∧
    canFinish (removeOp (e_id c) l) s1.
Proof.
  intros (ids & s' & H). inversion H; subst; [by left|right].
  eexists _, _, _, _, _, _, _. repeat (split; [done|]). by eexists _, _.
Qed.

(** ** States that [Equal] identifies *)

Section equal.
Context (eqb : S → S → bool) {EO : EqualOk model eqb}.

Lemma path_sim l s1 s2 ids l' s1' :
  path l s1 ids l' s1' → sim model eqb s1 s2 → ∃ s2', path l s2 ids l' s2' ∧ sim model eqb s1' s2'.
Proof.
  intros H. revert s2. induction H as [|pre c post r inp out s s1 ids l' s' ? ? ? ? ? ? ? Hs _ IH]; intros s2 Hsim.
  - exists s2. split; [constructor|done].
  - destruct (sim_step model eqb s s2 inp out Hsim) as [Hb Hn]. rewrite Hs in Hb, Hn. cbn in Hb, Hn.
    destruct (IH _ Hn) as (s2' & Hp & ?). exists s2'. split; [|done]. econstructor; eauto.
    by destruct (Step model s2 inp out); cbn in Hb |- *; subst.
Qed.

#[export] Instance canFinish_proper : Proper (eq ==> sim model eqb ==> iff) canFinish.
Proof.
  intros l ? <- s1 s2 Hs. split; intros (ids & s' & H).
  - destruct (path_sim _ _ s2 _ _ _ H Hs) as (s2' & ? & _). by exists ids, s2'.
  - destruct (path_sim _ _ s1 _ _ _ H) as (s1' & ? & _); [by symmetry|]. by exists ids, s1'.
Qed.
End equal.

(** ** Paths and linearizations *)

(** The return of [a] comes before the call of [b]. *)
Fixpoint precedes l (a b : Z) : Prop :=
  match l with
  | [] => False
  | e :: l => (isReturn e ∧ e_id e = a ∧ ∃ c, c ∈ l ∧ isCall c ∧ e_id c = b) ∨ precedes l a b
  end.

Definition callValue l i (inp : I) : Prop := ∃ e, e ∈ l ∧ isCall e ∧ e_id e = i ∧ e_value e = inl inp.
Definition returnValue l i (out : O) : Prop := ∃ e, e ∈ l ∧ isReturn e ∧ e_id e = i ∧ e_value e = inr out.

Fixpoint acceptsIds l s ids : Prop :=
  match ids with
  | [] => True
  | i :: ids =>
      ∃ inp out, callValue l i inp ∧ returnValue l i out ∧
        (Step model s inp out).1 = true ∧ acceptsIds l (Step model s inp out).2 ids
  end.

Definition idsOf l : list Z := e_id <$> filter isCall l.

Definition linearization l s ids : Prop :=
  ids ≡ₚ idsOf l ∧ StronglySorted (λ x y, ¬ precedes l y x) ids ∧ acceptsIds l s ids.

Lemma precedes_remove l i a b : precedes (removeOp i l) a b ↔ precedes l a b ∧ a ≠ i ∧ b ≠ i.
Proof.
  induction l as [|e l IH]; [cbn; naive_solver|]. unfold removeOp. rewrite filter_cons. fold (removeOp i l).
  case_decide as He; cbn [precedes]; rewrite IH.
  - assert ((∃ c, c ∈ removeOp i l ∧ isCall c ∧ e_id c = b) ↔ (∃ c, c ∈ l ∧ isCall c ∧ e_id c = b) ∧ b ≠ i) as ->.
    { unfold removeOp. setoid_rewrite list_elem_of_filter. naive_solver. }
    naive_solver.
  - naive_solver.
Qed.

Lemma precedes_app l1 l2 a b :
  precedes (l1 ++ l2) a b ↔
  precedes l1 a b ∨ precedes l2 a b ∨
  ((∃ r, r ∈ l1 ∧ isReturn r ∧ e_id r = a) ∧ ∃ c, c ∈ l2 ∧ isCall c ∧ e_id c = b).
Proof.
  induction l1 as [|e l1 IH]; cbn [precedes app].
  - setoid_rewrite elem_of_nil. naive_solver.
  - rewrite IH. setoid_rewrite elem_of_app. setoid_rewrite elem_of_cons. split.
    + intros [(He & Ha & c & [Hc|Hc] & Hk & Hb)|[H1|[H2|((r & Hr & Hk & Ha) & H3)]]]; eauto 10.
      right. right. split; [by exists e; auto|eauto].
    + intros [[(He & Ha & c & Hc & Hk & Hb)|H1]|[H2|((r & [->|Hr] & Hk & Ha) & c & Hc & Hck & Hb)]]; eauto 10.
      right. right. right. eauto 10.
Qed.

Lemma idsOf_remove l i : idsOf (removeOp i l) = filter (λ j, j ≠ i) (idsOf l).
Proof.
  induction l as [|e l IH]; [done|]. unfold removeOp, idsOf. rewrite filter_cons. fold (removeOp i l).
  destruct (decide (isCall e)) as [Hc|Hc].
  - rewrite (filter_cons_True isCall) by done. cbn [fmap list_fmap]. rewrite filter_cons.
    case_decide; [rewrite filter_cons_True by done; cbn; f_equal|]; apply IH.
  - rewrite (filter_cons_False isCall) by done. case_decide; [rewrite filter_cons_False by done|]; apply IH.
Qed.

Lemma elem_of_idsOf l i : i ∈ idsOf l ↔ ∃ c, c ∈ l ∧ isCall c ∧ e_id c = i.
Proof. unfold idsOf. rewrite list_elem_of_fmap. setoid_rewrite list_elem_of_filter. naive_solver. Qed.

Lemma idsOf_NoDup l : wfEntries l → NoDup (idsOf l).
Proof.
  intros Hwf. unfold idsOf. apply NoDup_fmap_2_strong.
  - intros e e' [? ?]%list_elem_of_filter [? ?]%list_elem_of_filter Hi.
    apply (wf_unique l); try done. unfold isCall in *. congruence.
  - apply NoDup_filter. eapply NoDup_fmap_1, wf_nodup, Hwf.
Qed.

Lemma callValue_remove l i j inp : j ≠ i → callValue (removeOp i l) j inp ↔ callValue l j inp.
Proof. intros Hj. unfold callValue, removeOp. setoid_rewrite list_elem_of_filter. naive_solver. Qed.

Lemma returnValue_remove l i j out : j ≠ i → returnValue (removeOp i l) j out ↔ returnValue l j out.
Proof. intros Hj. unfold returnValue, removeOp. setoid_rewrite list_elem_of_filter. naive_solver. Qed.

Lemma acceptsIds_remove l i s ids : i ∉ ids → acceptsIds (removeOp i l) s ids ↔ acceptsIds l s ids.
Proof.
  revert s. induction ids as [|j ids IH]; intros s; [done|]. intros [Hj Hi]%not_elem_of_cons. cbn.
  setoid_rewrite IH; [|done]. setoid_rewrite callValue_remove; [|done]. setoid_rewrite returnValue_remove; done.
Qed.

Lemma perm_remove (L : list Z) i : NoDup L → i ∈ L → L ≡ₚ i :: filter (λ j, j ≠ i) L.
Proof.
  intros Hd Hi. apply NoDup_Permutation; [done| |].
  - constructor; [|by apply NoDup_filter]. rewrite list_elem_of_filter. naive_solver.
  - intros x. rewrite elem_of_cons, list_elem_of_filter. destruct (decide (x = i)); naive_solver.
Qed.

Lemma removed_linearization l s c ids :
  wfEntries l → c ∈ l → isCall c → (∀ y, ¬ precedes l y (e_id c)) →
  ids ≡ₚ idsOf (removeOp (e_id c) l) →
  StronglySorted (λ x y, ¬ precedes (removeOp (e_id c) l) y x) ids →
  e_id c :: ids ≡ₚ idsOf l ∧ StronglySorted (λ x y, ¬ precedes l y x) (e_id c :: ids).
Proof.
  intros Hwf Hc Hk Hfirst Hp Hs. rewrite idsOf_remove in Hp.
  assert (e_id c ∈ idsOf l) as Hi by (apply elem_of_idsOf; eauto). split.
  - rewrite Hp. symmetry. by apply perm_remove; [apply idsOf_NoDup|].
  - constructor; [|apply Forall_forall; eauto]. eapply StronglySorted_impl_in; [|done].
    intros x y Hx Hy Hxy Hpr. apply Hxy. rewrite Hp in Hx, Hy.
    apply list_elem_of_filter in Hx as [? _], Hy as [? _]. by apply precedes_remove.
Qed.

(** The call that a path takes next is preceded by nothing. *)
Lemma first_call pre c post :
  wfEntries (pre ++ c :: post) → Forall isCall pre → isCall c → ∀ y, ¬ precedes (pre ++ c :: post) y (e_id c).
Proof.
  intros Hwf Hpre Hc y [H|[H|((r & Hr & Hk & _) & _)]]%precedes_app.
  - clear Hwf. induction Hpre as [|e pre He Hpre IH]; [done|]. destruct H as [(Hr & _)|H]; [|eauto].
    unfold isCall, isReturn in *. congruence.
  - destruct H as [(Hr & _)|H]; [unfold isCall, isReturn in *; congruence|].
    destruct Hwf as [Hd _ _ _ _]. rewrite fmap_app, fmap_cons in Hd. apply NoDup_app in Hd as (_ & _ & [Hd _]%NoDup_cons).
    apply Hd. clear -H Hc. induction post as [|e post IH]; [done|]. destruct H as [(_ & _ & c' & Hc' & Hk & Hi)|H].
    + right. apply list_elem_of_fmap. exists c'. unfold isCall in *. rewrite Hk, Hc, Hi. done.
    + right. eauto.
  - rewrite Forall_forall in Hpre. pose proof (Hpre _ Hr). unfold isCall, isReturn in *. congruence.
Qed.

Lemma path_is_linearization l s ids s' :
  wfEntries l → path l s ids [] s' → linearization l s ids.
Proof.
  intros Hwf Hp. remember [] as l' eqn:El. revert Hwf.
  induction Hp as [l s|pre c post r inp out s s1 ids l' s' Hpre Hc Hr Hrk Hri Hci Hro Hs _ IH]; intros Hwf.
  - subst. split; [done|]. split; [constructor|done].
  - destruct IH as (Hp & Hso & Ha); [done|by apply wf_remove|].
    assert (e_id c ∉ ids) as Hni by (rewrite Hp, idsOf_remove, list_elem_of_filter; naive_solver).
    rewrite acceptsIds_remove in Ha by done.
    destruct (removed_linearization (pre ++ c :: post) s c ids) as [H1 H2]; try done; [set_solver|by apply first_call|].
    split; [done|]. split; [done|]. exists inp, out. split; [exists c; set_solver|].
    split; [exists r; set_solver|]. by rewrite Hs.
Qed.

Lemma callValue_unique l c inp :
  wfEntries l → c ∈ l → isCall c → callValue l (e_id c) inp → e_value c = inl inp.
Proof.
  intros Hwf Hc Hk (e & He & Hek & Hi & <-). f_equal. apply (wf_unique l); try done.
  unfold isCall in *. congruence.
Qed.

Lemma returnValue_unique l r out :
  wfEntries l → r ∈ l → isReturn r → returnValue l (e_id r) out → e_value r = inr out.
Proof.
  intros Hwf Hr Hk (e & He & Hek & Hi & <-). f_equal. apply (wf_unique l); try done.
  unfold isReturn in *. congruence.
Qed.

Lemma idsOf_nil l : wfEntries l → idsOf l = [] → l = [].
Proof.
  intros Hwf Hn. destruct l as [|e l]; [done|]. exfalso.
  assert (∃ c, c ∈ e :: l ∧ isCall c ∧ e_id c = e_id e) as Hin%elem_of_idsOf.
  { destruct (kind_cases e); [exists e; set_solver|]. apply Hwf; [set_solver|done]. }
  rewrite Hn in Hin. by apply elem_of_nil in Hin.
Qed.

(** An operation that may come first in a linearization is one a path may
    take: no return stands before its call. *)
Lemma nothing_before pre c post ids :
  wfEntries (pre ++ c :: post) → isCall c → e_id c :: ids ≡ₚ idsOf (pre ++ c :: post) →
  Forall (λ y, ¬ precedes (pre ++ c :: post) y (e_id c)) ids → Forall isCall pre.
Proof.
  intros Hwf Hc Hp Hs. apply Forall_forall. intros e He. destruct (kind_cases e) as [|Hr]; [done|]. exfalso.
  destruct (wf_called _ Hwf e) as (c' & Hc' & Hk' & Hi'); [set_solver|done|].
  assert (e_id e ∈ e_id c :: ids) as Hin by (rewrite Hp; apply elem_of_idsOf; eauto).
  apply elem_of_cons in Hin as [Hec|Hin].
  - destruct (answered_app pre c post (wf_answered _ Hwf) Hc) as (r & Hr' & Hrk & Hri).
    assert (e = r) as ->.
    { apply (wf_unique (pre ++ c :: post)); [done|set_solver|set_solver|unfold isReturn in *; congruence|congruence]. }
    destruct Hwf as [Hd _ _ _ _]. apply NoDup_fmap_1, NoDup_app in Hd as (_ & Hd & _). apply (Hd r); set_solver.
  - rewrite Forall_forall in Hs. apply (Hs _ Hin). apply precedes_app. right. right.
    split; [by exists e|exists c; set_solver].
Qed.

Lemma linearization_is_path l s ids :
  wfEntries l → linearization l s ids → ∃ s', path l s ids [] s'.
Proof.
  revert l s. induction ids as [|i ids IH]; intros l s Hwf (Hp & Hs & Ha).
  - apply Permutation_nil in Hp. apply idsOf_nil in Hp; [|done]. subst. exists s. constructor.
  - assert (i ∈ idsOf l) as (c & Hc & Hk & <-)%elem_of_idsOf by (rewrite <- Hp; apply list_elem_of_here).
    apply StronglySorted_inv in Hs as [Hs Hf]. destruct Ha as (inp & out & Hinp & Hout & Hst & Ha).
    assert (e_id c ∉ ids) as Hni.
    { pose proof (idsOf_NoDup l Hwf) as Hd. rewrite <- Hp in Hd. by apply NoDup_cons in Hd as [? _]. }
    destruct (IH (removeOp (e_id c) l) (Step model s inp out).2) as [s' Hpath]; [by apply wf_remove| |].
    { split; [|split].
      - rewrite idsOf_remove. apply (Permutation_cons_inv (a := e_id c)). rewrite Hp.
        apply perm_remove; [by apply idsOf_NoDup|]. apply elem_of_idsOf. eauto.
      - eapply StronglySorted_impl_in; [|done]. intros x y _ _ Hxy [? _]%precedes_remove. done.
      - by apply acceptsIds_remove. }
    pose proof (callValue_unique l c inp Hwf Hc Hk Hinp) as Hcv.
    apply list_elem_of_split in Hc as (pre & post & ->).
    destruct (answered_app pre c post (wf_answered _ Hwf) Hk) as (r & Hr & Hrk & Hri).
    exists s'. econstructor; try done; [by eapply nothing_before| |].
    + rewrite <- Hri in Hout. eapply returnValue_unique; [done|set_solver|done|done].
    + rewrite (surjective_pairing (Step model s inp out)). by rewrite Hst.
Qed.

Lemma path_linearization l s :
  wfEntries l → canFinish l s ↔ ∃ ids, linearization l s ids.
Proof.
  intros Hwf. split.
  - intros (ids & s' & H). exists ids. by eapply path_is_linearization.
  - intros [ids [s' H]%linearization_is_path]; [|done]. by exists ids, s'.
Qed.
End path.
