(* ===== verification/PorcSearch.v ===== *)
(** * PorcSearch: the search for a linearization

    [checkSingle] of [src/src/porcupine/checker.go] (140-157, 179-253): a
    depth-first search over the linked list of [PorcList], with a stack of
    calls made so far and a cache of (set of operations, state) pairs already
    tried.  [loopStep] is one turn of the loop, [loop] runs it; [kill k] is what
    the [k]-th read of the kill flag returns.  A pointer to a slice of ids
    ([&seq]) is a number, fresh for each slice, with the slice's contents.

    [path] is the search tree as a relation: which operations may be executed
    next.  [search_spec] runs the loop on a part of the tree and is proved by
    induction on the operations left; from it follow termination, soundness
    and completeness at once. *)

From S2P Require Import Prelude PorcBitset PorcModel PorcList PorcPath.
Local Open Scope Z_scope.

Record cacheEntry (S : Type) := mkCacheEntry { linearized : bitset; c_state : S }.
Arguments mkCacheEntry {S}.
Arguments linearized {S}.
Arguments c_state {S}.

(** [longest]: for each id [nil] or a pointer to a list of ids. *)
Abbreviation Longest := (list (option (nat * list Z))).

(** The variables of the loop. *)
Record Search (V S : Type) := mkSearch {
  s_heap : list (node V);
  s_entry : option nat;
  s_state : S;
  s_linearized : bitset;
  s_cache : gmap Z (list (cacheEntry S));
  s_calls : list (nat * S);
  s_longest : Longest;
  s_seqs : nat
}.
Arguments mkSearch {V S}.
Arguments s_heap {V S}.
Arguments s_entry {V S}.
Arguments s_state {V S}.
Arguments s_linearized {V S}.
Arguments s_cache {V S}.
Arguments s_calls {V S}.
Arguments s_longest {V S}.
Arguments s_seqs {V S}.

Section checkSingle.
Context {I O S : Type} (model : Model I O S).
Local Abbreviation heap := (list (node (I + O))).
Local Abbreviation Search := (Search (I + O) S).
Local Abbreviation cacheEntry := (cacheEntry S).
Implicit Types (h : heap) (st : Search).

(** [model.Equal(s1, s2)]; calling a [nil] function panics. *)
Definition callEqual (s1 s2 : S) : outcome bool :=
  match Equal model with Some f => Ret (f s1 s2) | None => Panic end.

Fixpoint containsLoop (elems : list cacheEntry) (entry : cacheEntry) : outcome bool :=
  match elems with
  | [] => Ret false
  | elem :: rest =>
      same ← if equals (linearized entry) (linearized elem)
             then callEqual (c_state entry) (c_state elem) else Ret false;
      if same : bool then Ret true else containsLoop rest entry
  end.

Definition cacheContains (cache : gmap Z (list cacheEntry)) (entry : cacheEntry) : outcome bool :=
  containsLoop (default [] (cache !! hash (linearized entry))) entry.

(** [cache[hash] = append(cache[hash], entry)]. *)
Definition cacheAdd (cache : gmap Z (list cacheEntry)) (entry : cacheEntry) : gmap Z (list cacheEntry) :=
  <[hash (linearized entry) := default [] (cache !! hash (linearized entry)) ++ [entry]]> cache.

(** The ids of the calls on the stack, in order. *)
Fixpoint callIds h (calls : list (nat * S)) : outcome (list Z) :=
  match calls with
  | [] => Ret []
  | c :: rest => n ← load h (Some c.1); ids ← callIds h rest; Ret (n_id n :: ids)
  end.

(** The loop over the calls that updates [longest]. *)
Fixpoint noteLongest (ptr : nat) (seq ids : list Z) (longest : Longest) : outcome Longest :=
  match ids with
  | [] => Ret longest
  | id :: rest =>
      cur ← slice_get longest id;
      longest ← if match cur with None => true | Some (_, old) => zlen old <? zlen seq end
                then slice_set longest id (Some (ptr, seq)) else Ret longest;
      noteLongest ptr seq rest longest
  end.

Definition loopStep (computePartial killed : bool) (headEntry : nat) st : outcome (Search + (bool * Longest)) :=
  let '(mkSearch h entry state lin cache calls longest seqs) := st in
  hd ← load h (Some headEntry);
  match n_next hd with
  | None =>
      seq ← callIds h calls;
      Ret (inr (true, (λ _, Some (seqs, seq)) <$> longest))
  | Some _ =>
      if killed then Ret (inr (false, longest)) else
      e ← load h entry;
      match n_match e with
      | Some _ =>
          matching ← load h (n_match e);
          input ← from_option asInput Panic (n_value e);
          output ← from_option asOutput Panic (n_value matching);
          let '(ok, newState) := Step model state input output in
          if ok : bool then
            newLinearized ← bset (clone lin) (n_id e);
            let newCacheEntry := mkCacheEntry newLinearized newState in
            found ← cacheContains cache newCacheEntry;
            if negb found then
              lin ← bset lin (n_id e);
              let calls := calls ++ [(default 0%nat entry, state)] in
              h ← lift h entry;
              hd ← load h (Some headEntry);
              Ret (inl (mkSearch h (n_next hd) newState lin (cacheAdd cache newCacheEntry) calls longest seqs))
            else Ret (inl (mkSearch h (n_next e) state lin cache calls longest seqs))
          else Ret (inl (mkSearch h (n_next e) state lin cache calls longest seqs))
      | None =>
          match last calls with
          | None => Ret (inr (false, longest))
          | Some callsTop =>
              longest ← if computePartial then ids ← callIds h calls; noteLongest seqs ids ids longest
                        else Ret longest;
              let entry := Some callsTop.1 in
              e ← load h entry;
              lin ← bclear lin (n_id e);
              h ← unlift h entry;
              e ← load h entry;
              Ret (inl (mkSearch h (n_next e) callsTop.2 lin cache (take (length calls - 1) calls) longest
                         (Datatypes.S seqs)))
          end
      end
  end.

Fixpoint loop (computePartial : bool) (kill : nat → bool) (fuel headEntry : nat) st : outcome (bool * Longest) :=
  match fuel with
  | 0%nat => Block
  | Datatypes.S fuel =>
      r ← loopStep computePartial (kill 0%nat) headEntry st;
      match r with
      | inl st => loop computePartial (λ k, kill (Datatypes.S k)) fuel headEntry st
      | inr result => Ret result
      end
  end.

(** [checkSingle] up to its loop: the variables and the head node. *)
Definition startSearch (history : list (entry I O)) : outcome (Search * nat) :=
  '(h, entry) ← makeLinkedEntries history;
  len ← length_ h entry;
  let n := len / 2 in
  let headEntry := length h in
  h ← insertBefore (h ++ [mkNode None None (-1) None None]) (Some headEntry) entry;
  Ret (mkSearch h entry (Init model) (newBitset n) ∅ [] (replicate (Z.to_nat n) None) 0, headEntry).

Definition checkSingle (kill : nat → bool) (fuel : nat) (history : list (entry I O)) (computePartial : bool) :
    outcome (bool * Longest) :=
  '(st, headEntry) ← startSearch history;
  loop computePartial kill fuel headEntry st.
End checkSingle.

(** ** The cache *)

Section cache.
Context {I O S : Type} (model : Model I O S) (eqb : S → S → bool) (Heq : Equal model = Some eqb).
Implicit Types (x y : cacheEntry S) (cache : gmap Z (list (cacheEntry S))).

Definition inCache cache x : Prop := ∃ l, cache !! hash (linearized x) = Some l ∧ x ∈ l.

Lemma containsLoop_spec elems x :
  ∃ b, containsLoop model elems x = Ret b ∧
    (b = true ↔ ∃ y, y ∈ elems ∧ linearized y = linearized x ∧ eqb (c_state x) (c_state y) = true).
Proof.
  induction elems as [|y elems (b & Hb & IH)]; cbn [containsLoop].
  { exists false. split; [done|]. split; [done|]. by intros (y & ?%elem_of_nil & _). }
  setoid_rewrite elem_of_cons. unfold callEqual. rewrite Heq.
  destruct (equals (linearized x) (linearized y)) eqn:E.
  - apply equals_eq in E. cbn [mbind outcome_bind]. destruct (eqb (c_state x) (c_state y)) eqn:Es.
    + exists true. split; [done|]. split; [|done]. intros _. exists y. auto.
    + exists b. split; [done|]. rewrite IH. split; [intros (y' & ? & ?); eauto|].
      intros (y' & [->|?] & ? & ?); [congruence|eauto].
  - cbn [mbind outcome_bind]. exists b. split; [done|]. rewrite IH. split; [intros (y' & ? & ?); eauto|].
    intros (y' & [->|Hy'] & Hl & Hs); [|eauto]. rewrite <- Hl in E.
    by rewrite (proj2 (equals_eq _ _) eq_refl) in E.
Qed.

(** A pair is found exactly when it, or one the model calls equal, was added. *)
Lemma cacheContains_spec cache x :
  ∃ b, cacheContains model cache x = Ret b ∧
    (b = true ↔ ∃ y, inCache cache y ∧ linearized y = linearized x ∧ eqb (c_state x) (c_state y) = true).
Proof.
  unfold cacheContains. destruct (containsLoop_spec (default [] (cache !! hash (linearized x))) x) as (b & Hb & H).
  exists b. split; [done|]. rewrite H. unfold inCache. split.
  - intros (y & Hy & Hl & Hs). exists y. split; [|done]. rewrite Hl.
    destruct (cache !! _) as [l|]; [by exists l|by apply elem_of_nil in Hy].
  - intros (y & (l & Hc & Hy) & Hl & Hs). exists y. rewrite Hl in Hc. by rewrite Hc.
Qed.

Lemma inCache_add cache x y : inCache (cacheAdd cache x) y ↔ inCache cache y ∨ y = x.
Proof.
  unfold inCache, cacheAdd. destruct (decide (hash (linearized y) = hash (linearized x))) as [E|E].
  - rewrite E, lookup_insert_eq. split.
    + intros (l & [= <-] & [Hy| ->%list_elem_of_singleton]%elem_of_app); [|by right].
      left. destruct (cache !! _) as [l|]; [by exists l|by apply elem_of_nil in Hy].
    + intros Hy. eexists. split; [done|]. apply elem_of_app.
      destruct Hy as [(l & -> & Hy)| ->]; [by left|right; apply list_elem_of_here].
  - rewrite lookup_insert_ne by done. naive_solver.
Qed.
End cache.

(** ** The search *)

Section search.
Context {I O S : Type} (model : Model I O S) (eqb : S → S → bool).
Context (Heq : Equal model = Some eqb) {EO : EqualOk model eqb}.
Local Abbreviation heap := (list (node (I + O))).
Local Abbreviation Search := (Search (I + O) S).
Local Abbreviation cacheEntry := (cacheEntry S).
Local Abbreviation cell := (nat * entry I O)%type.

(** The operations searched: the cells of a well-formed list of entries, a
    head node, ids that fit the bitset. *)
Context (cells : list cell) (headEntry : nat) (n : Z) (computePartial : bool).
Context (Hwf : wfEntries cells.*2) (Hnodes : NoDup (headEntry :: cells.*1)).
Context (Hids : ∀ a e, (a, e) ∈ cells → 0 <= e_id e < n).
Implicit Types (h : heap) (a m : nat) (e r : entry I O) (cs pre suf : list cell) (lin : bitset) (x : cacheEntry).

(** The cells of the operations that are not in a bitset. *)
Definition left_ lin : list cell := filter (λ c, bit lin (e_id c.2) = false) cells.

Definition rep h cs : Prop :=
  seg h None (headEntry :: cs.*1) None ∧ ∀ a e, (a, e) ∈ cells → nodeFor h cells a e.

(** A pair of the cache from which no linearization can be completed. *)
Definition dead x : Prop := ¬ canFinish model (left_ (linearized x)).*2 (c_state x).

Definition extends lin lin' : Prop :=
  (∀ p, 0 <= p → bit lin p = true → bit lin' p = true) ∧ ∃ p, 0 <= p ∧ bit lin' p = true ∧ bit lin p = false.

(** What [longest] may hold. *)
Definition longestOk (longest : Longest) : Prop :=
  zlen longest = n ∧
  ∀ i ptr seq, longest !! i = Some (Some (ptr, seq)) →
    Z.of_nat i ∈ seq ∧ ∃ l' s', path model cells.*2 (Init model) seq l' s'.

Lemma cell_unique a e a' e' :
  (a, e) ∈ cells → (a', e') ∈ cells → e_kind e = e_kind e' → e_id e = e_id e' → a = a' ∧ e = e'.
Proof.
  intros [j Hj]%list_elem_of_lookup [j' Hj']%list_elem_of_lookup Hk Hi.
  assert (j = j') as ->; [|by simplify_eq]. eapply NoDup_lookup; [apply (wf_nodup _ Hwf)|..];
    rewrite !list_lookup_fmap.
  - by rewrite Hj.
  - rewrite Hj'. cbn. by rewrite Hk, Hi.
Qed.

Lemma left_cells lin c : c ∈ left_ lin ↔ bit lin (e_id c.2) = false ∧ c ∈ cells.
Proof. unfold left_. by rewrite list_elem_of_filter. Qed.

Lemma left_NoDup lin : NoDup (headEntry :: (left_ lin).*1).
Proof.
  eapply sublist_NoDup; [exact Hnodes|]. apply sublist_skip, fmap_sublist, sublist_filter.
Qed.

Lemma left_set lin lin' i :
  (∀ p, 0 <= p → bit lin' p = (p =? i) || bit lin p) →
  left_ lin' = filter (λ c, e_id c.2 ≠ i) (left_ lin).
Proof.
  intros Hb. unfold left_. rewrite list_filter_filter. apply filter_iff_in. intros [a e] Hc. cbn.
  rewrite Hb by (eapply Hids; done). rewrite orb_false_iff, Z.eqb_neq. naive_solver.
Qed.

Lemma filter_snd (i : Z) cs : (filter (λ c, e_id c.2 ≠ i) cs).*2 = removeOp i cs.*2.
Proof.
  induction cs as [|[a e] cs IH]; [done|]. unfold removeOp. rewrite fmap_cons, !filter_cons. cbn.
  case_decide; cbn; [f_equal|]; apply IH.
Qed.

Lemma left_wf lin : wfEntries (left_ lin).*2.
Proof.
  destruct Hwf as [Hd Ha Hc Hv Ho].
  assert (∀ e, e ∈ (left_ lin).*2 ↔ bit lin (e_id e) = false ∧ e ∈ cells.*2) as Hl.
  { intros e. rewrite !list_elem_of_fmap. setoid_rewrite left_cells. naive_solver. }
  constructor.
  - eapply sublist_NoDup; [done|]. do 2 apply fmap_sublist. apply sublist_filter.
  - clear -Ha. unfold left_. induction cells as [|[a e] l IH]; [done|]. destruct Ha as [He Ha].
    rewrite filter_cons. cbn. case_decide; [|by apply IH]. split; [|by apply IH]. intros Hk.
    destruct (He Hk) as (r & Hr & Hrk & Hri). exists r. split; [|done].
    apply list_elem_of_fmap in Hr as ([m r'] & -> & Hr). apply list_elem_of_fmap. exists (m, r'). split; [done|].
    apply list_elem_of_filter. cbn in *. by rewrite Hri.
  - intros r [Hb Hr]%Hl Hk. destruct (Hc r Hr Hk) as (c & ? & ? & Hci). exists c. split; [|done].
    apply Hl. by rewrite Hci.
  - intros c [_ ?]%Hl. by apply Hv.
  - intros r [_ ?]%Hl. by apply Ho.
Qed.

(** What the code reads from the heap. *)
Lemma rep_head h cs : rep h cs → ∃ nd, h !! headEntry = Some nd ∧ n_next nd = firstOr cs.*1 None.
Proof. intros [Hs _]. apply seg_cons in Hs as [(nd & Hnd & _ & Hn) _]. eauto. Qed.

Lemma rep_next h pre a e suf :
  rep h (pre ++ (a, e) :: suf) → ∃ nd, h !! a = Some nd ∧ n_next nd = firstOr suf.*1 None.
Proof.
  intros [Hs _]. rewrite fmap_app, fmap_cons, app_comm_cons in Hs.
  apply seg_app in Hs as [_ [(nd & Hnd & _ & Hn) _]%seg_cons]. eauto.
Qed.

Lemma rep_call h cs a e :
  rep h cs → (a, e) ∈ cells → isCall e →
  ∃ nd m r nm inp out, h !! a = Some nd ∧ n_id nd = e_id e ∧ n_match nd = Some m ∧ n_value nd = Some (inl inp) ∧
    e_value e = inl inp ∧ (m, r) ∈ cells ∧ isReturn r ∧ e_id r = e_id e ∧ h !! m = Some nm ∧
    n_value nm = Some (inr out) ∧ e_value r = inr out.
Proof.
  intros [_ Hn] He Hk. destruct (Hn a e He) as (nd & Hnd & Hv & Hi & Hm). rewrite Hk in Hm.
  destruct Hm as (m & r & Hm & Hr & Hrk & Hri). destruct (Hn m r Hr) as (nm & Hnm & Hvm & _).
  destruct (wf_call _ Hwf e) as [inp Hinp]; [by apply (list_elem_of_fmap_2 snd _ (a, e))|done|].
  destruct (wf_return _ Hwf r) as [out Hout]; [by apply (list_elem_of_fmap_2 snd _ (m, r))|done|].
  rewrite Hinp in Hv. rewrite Hout in Hvm. by exists nd, m, r, nm, inp, out.
Qed.

Lemma rep_return h cs a e : rep h cs → (a, e) ∈ cells → isReturn e → ∃ nd, h !! a = Some nd ∧ n_match nd = None.
Proof.
  intros [_ Hn] He Hk. destruct (Hn a e He) as (nd & Hnd & _ & _ & Hm). rewrite Hk in Hm. eauto.
Qed.

(** The cells of one operation. *)
Lemma cells_of_op a e m r c :
  (a, e) ∈ cells → isCall e → (m, r) ∈ cells → isReturn r → e_id r = e_id e →
  c ∈ cells → e_id c.2 = e_id e → c.1 = a ∨ c.1 = m.
Proof.
  intros He Hk Hr Hrk Hri Hc Hi. destruct c as [b x]. cbn in *.
  destruct (kind_cases x) as [Hxk|Hxk]; unfold isCall, isReturn in *.
  - left. apply (cell_unique b x a e); congruence.
  - right. apply (cell_unique b x m r); congruence.
Qed.

Lemma filter_two (P : cell → Prop) `{!∀ c, Decision (P c)} pre a e l2 m r l3 :
  NoDup (pre ++ (a, e) :: l2 ++ (m, r) :: l3).*1 → ¬ P (a, e) → ¬ P (m, r) →
  (∀ c, c ∈ pre ++ (a, e) :: l2 ++ (m, r) :: l3 → c.1 ≠ a → c.1 ≠ m → P c) →
  filter P (pre ++ (a, e) :: l2 ++ (m, r) :: l3) = pre ++ l2 ++ l3.
Proof.
  intros Hd Ha Hm Hall. rewrite !fmap_app, fmap_cons, fmap_app, fmap_cons in Hd. cbn [fst] in Hd.
  apply NoDup_app in Hd as (_ & Hd1 & [Hd2 (_ & Hd3 & [Hd4 _]%NoDup_cons)%NoDup_app]%NoDup_cons).
  rewrite filter_app, filter_cons_False, filter_app, filter_cons_False by done.
  rewrite !filter_all_in; [done|..]; intros c Hc; apply Hall;
    apply (list_elem_of_fmap_2 fst) in Hc as Hb; set_solver.
Qed.

(** The return of a call that is left stands behind it, and the operation's
    two cells are all that goes when it is executed. *)
Lemma split_return lin pre a e suf m r :
  left_ lin = pre ++ (a, e) :: suf → isCall e → (m, r) ∈ cells → isReturn r → e_id r = e_id e →
  ∃ l2 l3, suf = l2 ++ (m, r) :: l3 ∧ filter (λ c : cell, e_id c.2 ≠ e_id e) (left_ lin) = pre ++ l2 ++ l3.
Proof.
  intros Hl Hk Hm Hr Hi. pose proof (left_wf lin) as Hw. rewrite Hl, fmap_app, fmap_cons in Hw.
  destruct (answered_app _ _ _ (wf_answered _ Hw) Hk) as (r' & Hr' & Hrk & Hri).
  apply list_elem_of_fmap in Hr' as ([m' r2] & -> & Hin). cbn in Hrk, Hri.
  assert (∀ c, c ∈ left_ lin → c ∈ cells) as Hsub by (intros c [_ ?]%left_cells; done).
  assert ((a, e) ∈ cells) as He by (apply Hsub; rewrite Hl; set_solver).
  destruct (cell_unique m' r2 m r) as [-> ->]; [apply Hsub; rewrite Hl; set_solver|done|..|congruence|].
  { unfold isReturn in *. congruence. }
  apply list_elem_of_split in Hin as (l2 & l3 & ->). exists l2, l3. split; [done|].
  pose proof (left_NoDup lin) as Hd. apply NoDup_cons in Hd as [_ Hd]. rewrite Hl in Hsub, Hd |- *.
  apply filter_two; [done|cbn; auto|cbn; rewrite Hi; auto|].
  intros c Hc Ha1 Hm1 Hid. destruct (cells_of_op a e m r c); auto.
Qed.

(** Lifting the call at the cursor. *)
Lemma lift_left h lin pre a e suf :
  rep h (left_ lin) → left_ lin = pre ++ (a, e) :: suf → isCall e →
  ∃ h', lift h (Some a) = Ret h' ∧ unlift h' (Some a) = Ret h ∧ sameData h h' ∧
    ∀ lin', (∀ p, 0 <= p → bit lin' p = (p =? e_id e) || bit lin p) → rep h' (left_ lin').
Proof.
  intros Hr Hl Hk. assert ((a, e) ∈ cells) as He by (eapply left_cells; rewrite Hl; set_solver).
  destruct (rep_call h _ a e Hr He Hk) as (nd & m & r & nm & inp & out & Hnd & _ & Hm & _ & _ & Hmr & Hrk & Hri & _).
  destruct (split_return lin pre a e suf m r) as (l2 & l3 & -> & Hf); try done.
  destruct Hr as [Hs Hn]. pose proof (left_NoDup lin) as Hd.
  rewrite Hl, fmap_app, fmap_cons, fmap_app, fmap_cons in Hs, Hd.
  destruct (lift_spec h headEntry pre.*1 a l2.*1 m l3.*1 nd) as (h' & Hlift & Hs' & Hun & Hsame); try done.
  exists h'. split; [done|]. split; [done|]. split; [done|]. intros lin' Hb. split.
  - by rewrite (left_set _ _ _ Hb), Hf, !fmap_app.
  - intros b x Hx. eapply nodeFor_mono; [done|reflexivity|eauto].
Qed.

(** The stack. *)
Lemma callIds_data h h' (calls : list (nat * S)) ids :
  sameData h h' → callIds h calls = Ret ids → callIds h' calls = Ret ids.
Proof.
  intros Hd. revert ids. induction calls as [|[a s] calls IH]; intros ids H; [done|].
  cbn [callIds] in H |- *. apply bind_Ret in H as (nd & Hnd & (ids' & Hids' & [= <-])%bind_Ret).
  specialize (Hd a). cbn in Hnd |- *. destruct (h !! a) as [nd1|]; [|done]. injection Hnd as ->.
  destruct (h' !! a) as [nd2|]; [|done]. injection Hd as _ _ Hi. cbn [mbind outcome_bind].
  rewrite (IH _ Hids'). cbn. by rewrite Hi.
Qed.

Lemma callIds_snoc h (calls : list (nat * S)) ids a s nd :
  callIds h calls = Ret ids → h !! a = Some nd → callIds h (calls ++ [(a, s)]) = Ret (ids ++ [n_id nd]).
Proof.
  intros H Hnd. revert ids H. induction calls as [|[b s'] calls IH]; intros ids H.
  - injection H as <-. cbn. by rewrite Hnd.
  - cbn [callIds app] in H |- *. apply bind_Ret in H as (nd' & -> & (ids' & Hids' & [= <-])%bind_Ret).
    cbn [mbind outcome_bind]. by rewrite (IH _ Hids').
Qed.

Lemma path_ids l s ids l' s' i : path model l s ids l' s' → i ∈ ids → ∃ e, e ∈ l ∧ e_id e = i.
Proof.
  induction 1 as [|pre c post r inp out s s1 ids l' s' ? ? ? ? ? ? ? ? ? IH]; [by intros ?%elem_of_nil|].
  intros [->|Hi]%elem_of_cons; [exists c; set_solver|]. destruct (IH Hi) as (e & He & Hei).
  exists e. split; [|done]. by apply list_elem_of_filter in He as [_ He].
Qed.

Lemma path_range ids l' s' i : path model cells.*2 (Init model) ids l' s' → i ∈ ids → 0 <= i < n.
Proof.
  intros Hp Hi. destruct (path_ids _ _ _ _ _ _ Hp Hi) as (e & He & <-).
  apply list_elem_of_fmap in He as ([a e'] & -> & He). eauto.
Qed.

Lemma noteLongest_spec ptr seq ids longest :
  longestOk longest → (∃ l' s', path model cells.*2 (Init model) seq l' s') → (∀ i, i ∈ ids → i ∈ seq) →
  ∃ longest', noteLongest ptr seq ids longest = Ret longest' ∧ longestOk longest'.
Proof.
  intros Hl Hp. revert longest Hl. induction ids as [|i ids IH]; intros longest Hl Hsub; [by exists longest|].
  assert (0 <= i < n) as Hi by (destruct Hp as (l' & s' & Hp); eapply path_range; [done|]; apply Hsub; by constructor).
  destruct (slice_get_in_range longest i) as [cur Hcur]; [by rewrite (proj1 Hl)|].
  cbn [noteLongest]. rewrite Hcur. cbn [mbind outcome_bind].
  assert (∀ j, j ∈ ids → j ∈ seq) as Hsub' by (intros; apply Hsub; by constructor).
  destruct (match cur with None => true | Some (_, old) => zlen old <? zlen seq end); cbn [mbind outcome_bind]; [|eauto].
  rewrite (proj2 (slice_set_Ret longest i (Some (ptr, seq)) _)) by (rewrite (proj1 Hl); split; [done|reflexivity]).
  cbn [mbind outcome_bind]. apply IH; [|done]. destruct Hl as [Hlen Hl]. split.
  - unfold zlen in *. by rewrite length_insert.
  - intros j ptr' seq' [(<- & [= <- <-] & _)|[_ Hj]]%list_lookup_insert_Some; [|eauto].
    split; [|done]. rewrite Z2Nat.id by lia. apply Hsub. by constructor.
Qed.

(** ** Turns of the loop *)

Definition step (st st' : Search) : Prop := loopStep model computePartial false headEntry st = Ret (inl st').

Lemma left_not_nil lin pre c suf : left_ lin = pre ++ c :: suf → ∃ a, firstOr (left_ lin).*1 None = Some a.
Proof. intros ->. destruct pre as [|[a e] pre]; cbn; eauto. Qed.

Lemma step_call h state lin cache calls longest seqs pre a e suf :
  bitsetOk n lin → rep h (left_ lin) → left_ lin = pre ++ (a, e) :: suf → isCall e →
  ∃ r inp out ok s1, r ∈ suf.*2 ∧ isReturn r ∧ e_id r = e_id e ∧ e_value e = inl inp ∧ e_value r = inr out ∧
    Step model state inp out = (ok, s1) ∧
    ∃ st', step (mkSearch h (Some a) state lin cache calls longest seqs) st' ∧
    ((ok = false ∧ st' = mkSearch h (firstOr suf.*1 None) state lin cache calls longest seqs) ∨
     ok = true ∧ ∃ lin', bitsetOk n lin' ∧ (∀ p, 0 <= p → bit lin' p = (p =? e_id e) || bit lin p) ∧
       ((st' = mkSearch h (firstOr suf.*1 None) state lin cache calls longest seqs ∧
         ∃ y, inCache cache y ∧ linearized y = lin' ∧ eqb s1 (c_state y) = true) ∨
        ∃ h', lift h (Some a) = Ret h' ∧
          st' = mkSearch h' (firstOr (left_ lin').*1 None) s1 lin' (cacheAdd cache (mkCacheEntry lin' s1))
                  (calls ++ [(a, state)]) longest seqs)).
Proof.
  intros Hb Hr Hl Hk. assert ((a, e) ∈ cells) as He by (eapply left_cells; rewrite Hl; set_solver).
  destruct (rep_call h _ a e Hr He Hk) as (nd & m & r & nm & inp & out & Hnd & Hid & Hm & Hv & Hinp & Hmr & Hrk & Hri & Hnm & Hvm & Hout).
  destruct (split_return lin pre a e suf m r) as (l2 & l3 & Hsuf & _); try done.
  destruct (rep_head h _ Hr) as (nh & Hnh & Hnhn). destruct (left_not_nil _ _ _ _ Hl) as [f Hf]. rewrite Hf in Hnhn.
  assert (n_next nd = firstOr suf.*1 None) as Hnx.
  { rewrite Hl in Hr. destruct (rep_next h pre a e suf Hr) as (nd' & ? & ?). congruence. }
  destruct (bset_spec n lin (e_id e) Hb (Hids _ _ He)) as (lin' & Hbs & Hb' & Hbits).
  destruct (Step model state inp out) as [ok s1] eqn:Est.
  exists r, inp, out, ok, s1. split; [rewrite Hsuf, fmap_app; set_solver|]. do 5 (split; [done|]).
  unfold step, loopStep. rewrite (load_Some _ _ _ Hnh). cbn [mbind outcome_bind]. rewrite Hnhn.
  rewrite (load_Some _ _ _ Hnd). cbn [mbind outcome_bind]. rewrite Hm, (load_Some _ _ _ Hnm).
  cbn [mbind outcome_bind]. rewrite Hv, Hvm. cbn [mbind outcome_bind from_option asInput asOutput]. rewrite Est, Hnx.
  destruct ok; [|eexists; split; [reflexivity|]; auto].
  rewrite Hid. unfold clone. rewrite Hbs. cbn [mbind outcome_bind].
  destruct (cacheContains_spec model eqb Heq cache (mkCacheEntry lin' s1)) as (b & Hc & Hcb). rewrite Hc.
  cbn [mbind outcome_bind]. destruct b; cbn [negb].
  - eexists; split; [reflexivity|]. right. split; [done|]. exists lin'. split; [done|]. split; [done|].
    left. split; [done|]. by apply Hcb.
  - destruct (lift_left h lin pre a e suf) as (h' & Hlift & _ & _ & Hrep); try done. rewrite Hlift.
    cbn [mbind outcome_bind]. destruct (rep_head h' _ (Hrep lin' Hbits)) as (nh' & Hnh' & Hnhn').
    rewrite (load_Some _ _ _ Hnh'). cbn [mbind outcome_bind default].
    eexists; split; [reflexivity|]. right. split; [done|]. exists lin'. split; [done|]. split; [done|].
    right. exists h'. split; [done|]. by rewrite Hnhn'.
Qed.

(** At a return entry the last call is taken back. *)
Lemma step_pop h h' state s1 lin lin' cache calls longest seqs ids pre a e suf pre' b r suf' :
  bitsetOk n lin → rep h (left_ lin) → left_ lin = pre ++ (a, e) :: suf → isCall e →
  bitsetOk n lin' → (∀ p, 0 <= p → bit lin' p = (p =? e_id e) || bit lin p) → lift h (Some a) = Ret h' →
  left_ lin' = pre' ++ (b, r) :: suf' → isReturn r →
  callIds h' (calls ++ [(a, state)]) = Ret ids → (∃ l' s', path model cells.*2 (Init model) ids l' s') →
  longestOk longest →
  ∃ longest', longestOk longest' ∧
    step (mkSearch h' (Some b) s1 lin' cache (calls ++ [(a, state)]) longest seqs)
         (mkSearch h (firstOr suf.*1 None) state lin cache calls longest' (Datatypes.S seqs)).
Proof.
  intros Hb Hr Hl Hk Hb' Hbits Hlift Hl' Hrk Hcalls Hpath Hlo.
  destruct (lift_left h lin pre a e suf) as (h2 & Hlift2 & Hun & Hsame & Hrep); try done.
  rewrite Hlift in Hlift2. injection Hlift2 as <-. specialize (Hrep lin' Hbits).
  assert ((b, r) ∈ cells) as Hbr by (eapply left_cells; rewrite Hl'; set_solver).
  assert (bit lin (e_id e) = false ∧ (a, e) ∈ cells) as [Hbit He] by (apply (left_cells lin (a, e)); rewrite Hl; set_solver).
  destruct (rep_head h' _ Hrep) as (nh & Hnh & Hnhn). destruct (left_not_nil _ _ _ _ Hl') as [f Hf]. rewrite Hf in Hnhn.
  destruct (rep_return h' _ b r Hrep Hbr Hrk) as (nr & Hnr & Hnrm).
  destruct (rep_call h' _ a e Hrep He Hk) as (nd & _ & _ & _ & _ & _ & Hnd & Hid & _).
  assert (∃ na, h !! a = Some na ∧ n_next na = firstOr suf.*1 None) as (na & Hna & Hnx).
  { rewrite Hl in Hr. by apply (rep_next h pre a e suf). }
  destruct (bclear_spec n lin' (e_id e) Hb' (Hids _ _ He)) as (lin2 & Hcl & Hb2 & Hbits2).
  assert (lin2 = lin) as ->.
  { apply (bits_determine n); [pose proof (Hids _ _ He); lia|done|done|]. intros p Hp.
    rewrite Hbits2, Hbits by done. destruct (Z.eqb_spec p (e_id e)) as [->|]; cbn; [done|].
    done. }
  unfold step, loopStep. rewrite (load_Some _ _ _ Hnh). cbn [mbind outcome_bind]. rewrite Hnhn.
  rewrite (load_Some _ _ _ Hnr). cbn [mbind outcome_bind]. rewrite Hnrm, last_snoc. cbn [fst snd].
  rewrite Hcalls. cbn [mbind outcome_bind].
  assert (∃ longest', longestOk longest' ∧
    (if computePartial then noteLongest seqs ids ids longest else Ret longest) = Ret longest') as (longest' & Hlo' & ->).
  { destruct computePartial; [|by exists longest].
    destruct (noteLongest_spec seqs ids ids longest) as (lg & ? & ?); try done. by exists lg. }
  exists longest'. split; [done|]. cbn [mbind outcome_bind]. rewrite (load_Some _ _ _ Hnd). cbn [mbind outcome_bind].
  rewrite Hid, Hcl. cbn [mbind outcome_bind]. rewrite Hun. cbn [mbind outcome_bind].
  rewrite (load_Some _ _ _ Hna). cbn [mbind outcome_bind]. rewrite Hnx, length_app. cbn [length].
  by rewrite Nat.add_sub, take_app_length.
Qed.

(** No call from the cursor to the next return leads to a linearization. *)
Definition stuck suf (l : list (entry I O)) (s : S) : Prop :=
  ∀ p a e q r inp out s1, suf = p ++ (a, e) :: q → Forall isCall p.*2 → isCall e →
    r ∈ q.*2 → isReturn r → e_id r = e_id e → e_value e = inl inp → e_value r = inr out →
    Step model s inp out = (true, s1) → ¬ canFinish model (removeOp (e_id e) l) s1.

Lemma stuck_return a e suf l s : isReturn e → stuck ((a, e) :: suf) l s.
Proof.
  intros Hk [|[b x] p] a' e' q r inp out s1 E Hp Hc; simplify_eq/=.
  - unfold isCall, isReturn in *. congruence.
  - inversion Hp. unfold isCall, isReturn in *. congruence.
Qed.

Lemma stuck_call a e suf l s :
  (∀ r inp out s1, r ∈ suf.*2 → isReturn r → e_id r = e_id e → e_value e = inl inp → e_value r = inr out →
    Step model s inp out = (true, s1) → ¬ canFinish model (removeOp (e_id e) l) s1) →
  stuck suf l s → stuck ((a, e) :: suf) l s.
Proof.
  intros He Hs [|[b x] p] a' e' q r inp out s1 E Hp Hc; simplify_eq/=; [by apply He|].
  inversion Hp. by apply (Hs p a' e' q).
Qed.

Lemma stuck_dead lin s : left_ lin ≠ [] → stuck (left_ lin) (left_ lin).*2 s → ¬ canFinish model (left_ lin).*2 s.
Proof.
  intros Hne Hs Hc. apply canFinish_inv in Hc as [Hn|(pre & c & post & r & inp & out & s1 & El & Hpre & Hc & Hr & Hrk & Hri & Hi & Ho & Hst & Hf)].
  - by apply fmap_nil_inv in Hn.
  - apply fmap_app_inv in El as (p & q' & -> & Hq & El).
    symmetry in Hq. apply fmap_cons_inv in Hq as ([a e] & q & -> & -> & ->). cbn in *.
    by apply (Hs p a e q r inp out s1).
Qed.

(** ** The search from a node of the tree *)

Definition finished (st : Search) : Prop :=
  rep (s_heap st) [] ∧ zlen (s_longest st) = n ∧
  ∃ ids s', callIds (s_heap st) (s_calls st) = Ret ids ∧ path model cells.*2 (Init model) ids [] s'.

Definition exhausted h state lin cache calls suf (st : Search) : Prop :=
  ∃ pre b r q cache' longest' seqs',
    st = mkSearch h (Some b) state lin cache' calls longest' seqs' ∧
    left_ lin = pre ++ (b, r) :: q ∧ isReturn r ∧ longestOk longest' ∧
    (∀ x, inCache cache' x → inCache cache x ∨ dead x) ∧ stuck suf (left_ lin).*2 state.

(** An execution of the call at the cursor extends the path. *)
Lemma path_take lin lin' ids pre a e suf r inp out s s1 :
  left_ lin = pre ++ (a, e) :: suf → (∀ p, 0 <= p → bit lin' p = (p =? e_id e) || bit lin p) →
  Forall isCall pre.*2 → isCall e → r ∈ suf.*2 → isReturn r → e_id r = e_id e → e_value e = inl inp →
  e_value r = inr out → Step model s inp out = (true, s1) →
  path model cells.*2 (Init model) ids (left_ lin).*2 s →
  path model cells.*2 (Init model) (ids ++ [e_id e]) (left_ lin').*2 s1.
Proof.
  intros Hl Hbits Hpre Hk Hr Hrk Hri Hi Ho Hs Hp. eapply path_app; [done|].
  rewrite (left_set _ _ _ Hbits), filter_snd, Hl, fmap_app, fmap_cons.
  econstructor; try done. constructor.
Qed.

Lemma extends_set lin lin' i :
  0 <= i → bit lin i = false → (∀ p, 0 <= p → bit lin' p = (p =? i) || bit lin p) → extends lin lin'.
Proof.
  intros Hi Hb Hbits. split.
  - intros p Hp H. rewrite Hbits, H by done. apply orb_true_r.
  - exists i. rewrite Hbits, Z.eqb_refl by done. done.
Qed.

Lemma extends_trans lin lin' lin2 : extends lin lin' → extends lin' lin2 → extends lin lin2.
Proof.
  intros [H1 (p & Hp & Hp1 & Hp2)] [H2 _]. split; [eauto|]. exists p. eauto.
Qed.

(** The call at the cursor leads nowhere. *)
Definition failsAt lin s e suf : Prop :=
  ∀ r inp out s1, r ∈ suf.*2 → isReturn r → e_id r = e_id e → e_value e = inl inp → e_value r = inr out →
    Step model s inp out = (true, s1) → ¬ canFinish model (removeOp (e_id e) (left_ lin).*2) s1.

(** The return of a call is the only one of its id. *)
Lemma failsAt_one lin s pre a e suf r inp out ok s1 :
  left_ lin = pre ++ (a, e) :: suf → r ∈ suf.*2 → isReturn r → e_id r = e_id e →
  e_value e = inl inp → e_value r = inr out → Step model s inp out = (ok, s1) →
  (ok = true → ¬ canFinish model (removeOp (e_id e) (left_ lin).*2) s1) → failsAt lin s e suf.
Proof.
  intros Hl Hr Hrk Hri Hi Ho Hs Hf r' inp' out' s1' Hr' Hrk' Hri' Hi' Ho' Hs'.
  assert (r' = r) as ->.
  { apply (wf_unique _ _ _ (left_wf lin)); [rewrite Hl, fmap_app, fmap_cons; set_solver..| |congruence].
    unfold isReturn in *. congruence. }
  rewrite Hi in Hi'. rewrite Ho in Ho'. injection Hi' as <-. injection Ho' as <-. rewrite Hs in Hs'.
  injection Hs' as -> ->. by apply Hf.
Qed.

Section inner.
Context (lin : bitset) (h : heap) (state : S) (calls : list (nat * S)) (ids : list Z).
Context (Hb : bitsetOk n lin) (Hr : rep h (left_ lin)) (Hcalls : callIds h calls = Ret ids).
Context (Hpath : path model cells.*2 (Init model) ids (left_ lin).*2 state).

Definition deadAbove (cache : gmap Z (list cacheEntry)) : Prop :=
  ∀ x, inCache cache x → extends lin (linearized x) → dead x.

(** What is proved of the loop, at the cursor [suf]. *)
Definition explores pre suf : Prop :=
  ∀ cache longest seqs, deadAbove cache → longestOk longest →
  left_ lin = pre ++ suf → Forall isCall pre.*2 → suf ≠ [] →
  ∃ st', rtc step (mkSearch h (firstOr suf.*1 None) state lin cache calls longest seqs) st' ∧
    (finished st' ∨ exhausted h state lin cache calls suf st').

(** Moving the cursor past a call that leads nowhere. *)
Lemma skip_call pre a e suf cache cache' longest seqs :
  explores (pre ++ [(a, e)]) suf → deadAbove cache → longestOk longest →
  left_ lin = pre ++ (a, e) :: suf → Forall isCall pre.*2 → isCall e → suf ≠ [] →
  failsAt lin state e suf → (∀ x, inCache cache' x → inCache cache x ∨ dead x) →
  ∃ st', rtc step (mkSearch h (firstOr suf.*1 None) state lin cache' calls longest seqs) st' ∧
    (finished st' ∨ exhausted h state lin cache calls ((a, e) :: suf) st').
Proof.
  intros IH Hda Hlo Hl Hpre Hk Hne Hf Hc.
  destruct (IH cache' longest seqs) as (st' & Hst & Hcase); try done.
  - intros x Hx Hex. destruct (Hc x Hx); [by apply Hda|done].
  - by rewrite <- app_assoc.
  - rewrite fmap_app. apply Forall_app. split; [done|]. by apply Forall_singleton.
  - exists st'. split; [done|]. destruct Hcase as [|(p & b & r & q & c2 & lo & sq & -> & Hl2 & Hrk & Hlo2 & Hc2 & Hs)]; [by left|].
    right. exists p, b, r, q, c2, lo, sq. do 4 (split; [done|]). split; [|by apply stuck_call].
    intros x Hx. destruct (Hc2 x Hx); auto.
Qed.

(** Executing a call, searching below it, and taking it back. *)
Lemma try_call pre a e suf r inp out s1 lin' h' cache longest seqs :
  (∀ pre' suf', (length (left_ lin') < length (left_ lin))%nat →
     callIds h' (calls ++ [(a, state)]) = Ret (ids ++ [e_id e]) →
     path model cells.*2 (Init model) (ids ++ [e_id e]) (left_ lin').*2 s1 → rep h' (left_ lin') →
     (∀ x, inCache (cacheAdd cache (mkCacheEntry lin' s1)) x → extends lin' (linearized x) → dead x) →
     left_ lin' = pre' ++ suf' → Forall isCall pre'.*2 → suf' ≠ [] →
     ∃ st', rtc step (mkSearch h' (firstOr suf'.*1 None) s1 lin' (cacheAdd cache (mkCacheEntry lin' s1))
                        (calls ++ [(a, state)]) longest seqs) st' ∧
       (finished st' ∨
        exhausted h' s1 lin' (cacheAdd cache (mkCacheEntry lin' s1)) (calls ++ [(a, state)]) suf' st')) →
  explores (pre ++ [(a, e)]) suf → deadAbove cache → longestOk longest →
  left_ lin = pre ++ (a, e) :: suf → Forall isCall pre.*2 → isCall e →
  r ∈ suf.*2 → isReturn r → e_id r = e_id e → e_value e = inl inp → e_value r = inr out →
  Step model state inp out = (true, s1) → bitsetOk n lin' →
  (∀ p, 0 <= p → bit lin' p = (p =? e_id e) || bit lin p) → lift h (Some a) = Ret h' →
  ∃ st', rtc step (mkSearch h' (firstOr (left_ lin').*1 None) s1 lin' (cacheAdd cache (mkCacheEntry lin' s1))
                     (calls ++ [(a, state)]) longest seqs) st' ∧
    (finished st' ∨ exhausted h state lin cache calls ((a, e) :: suf) st').
Proof.
  intros IH IHsuf Hda Hlo Hl Hpre Hk Hin Hrk Hri Hi Ho Hs Hb' Hbits Hlift.
  assert (bit lin (e_id e) = false ∧ (a, e) ∈ cells) as [Hbit He] by (apply (left_cells lin (a, e)); rewrite Hl; set_solver).
  destruct (lift_left h lin pre a e suf) as (h2 & Hlift2 & Hun & Hsame & Hrep); try done.
  rewrite Hlift in Hlift2. injection Hlift2 as <-. specialize (Hrep lin' Hbits).
  assert (path model cells.*2 (Init model) (ids ++ [e_id e]) (left_ lin').*2 s1) as Hpath' by (by eapply path_take).
  assert (callIds h' (calls ++ [(a, state)]) = Ret (ids ++ [e_id e])) as Hcalls'.
  { destruct (rep_call h' _ a e Hrep He Hk) as (nd & _ & _ & _ & _ & _ & Hnd & <- & _).
    apply callIds_snoc; [by eapply callIds_data|done]. }
  destruct (decide (left_ lin' = [])) as [Hnil|Hne].
  { eexists. split; [apply rtc_refl|]. left. rewrite Hnil in Hrep, Hpath'. split; [done|]. split; [apply Hlo|]. eauto. }
  destruct (IH [] (left_ lin')) as (st1 & Hst1 & Hcase); try done.
  { rewrite (left_set _ _ _ Hbits). eapply length_filter_lt; [rewrite Hl; apply elem_of_app; right; apply list_elem_of_here|auto]. }
  { intros x [Hx| ->]%inCache_add Hex; [|destruct Hex as [_ (p & _ & ? & ?)]; cbn in *; congruence].
    apply Hda; [done|]. eapply extends_trans; [|done]. eapply extends_set; [|done|done]. by eapply Hids. }
  destruct Hcase as [Hfin|(pre' & b & r' & q & cache1 & lo1 & sq1 & -> & Hl' & Hrk' & Hlo1 & Hc1 & Hstuck)]; [eauto|].
  destruct (step_pop h h' state s1 lin lin' cache1 calls lo1 sq1 (ids ++ [e_id e]) pre a e suf pre' b r' q)
    as (lo2 & Hlo2 & Hpop); try done; [by eauto|].
  assert (¬ canFinish model (left_ lin').*2 s1) as Hdead by (by apply stuck_dead).
  destruct (skip_call pre a e suf cache cache1 lo2 (Datatypes.S sq1)) as (st' & Hst' & Hcase'); try done.
  - intros ->. by apply elem_of_nil in Hin.
  - eapply failsAt_one; try done. intros _. by rewrite <- filter_snd, <- (left_set _ _ _ Hbits).
  - intros x [Hx|]%Hc1; [|by right]. apply inCache_add in Hx as [?| ->]; [by left|by right].
  - exists st'. split; [|done]. etrans; [exact Hst1|]. eapply rtc_l; [exact Hpop|done].
Qed.
End inner.

(** The loop, started at a node of the tree, finds a linearization below it
    or comes back to the first return with everything below the node refuted. *)
Lemma search_spec k lin h state calls ids pre suf :
  (length (left_ lin) <= k)%nat → bitsetOk n lin → rep h (left_ lin) → callIds h calls = Ret ids →
  path model cells.*2 (Init model) ids (left_ lin).*2 state → explores lin h state calls pre suf.
Proof.
  revert lin h state calls ids pre suf.
  induction k as [|k IHk]; intros lin h state calls ids pre suf Hk Hb Hr Hcalls Hpath.
  { intros cache longest seqs _ _ Hl _ Hne. destruct (left_ lin); [|cbn in Hk; lia].
    by destruct pre, suf. }
  revert pre. induction suf as [|[a e] suf IHsuf]; intros pre cache longest seqs Hda Hlo Hl Hpre Hne; [done|].
  cbn [firstOr fmap list_fmap fst]. destruct (kind_cases e) as [Hc|Hret].
  2: { eexists. split; [apply rtc_refl|]. right. exists pre, a, e, suf, cache, longest, seqs.
       do 4 (split; [done|]). split; [auto|by apply stuck_return]. }
  destruct (step_call h state lin cache calls longest seqs pre a e suf) as
    (r & inp & out & ok & s1 & Hin & Hrk & Hri & Hi & Ho & Hs & st1 & Hst1 & Hcase); try done.
  assert (suf ≠ []) as Hne' by (intros ->; by apply elem_of_nil in Hin).
  destruct Hcase as [[-> ->]|(-> & lin' & Hb' & Hbits & [(-> & y & Hy & Hlin & Hey)|(h' & Hlift & ->)])].
  - destruct (skip_call lin h state calls pre a e suf cache cache longest seqs) as (st' & ? & ?); try done; [ |auto| ].
    + eapply failsAt_one; done.
    + exists st'. split; [by eapply rtc_l|done].
  - destruct (skip_call lin h state calls pre a e suf cache cache longest seqs) as (st' & ? & ?); try done; [ |auto| ].
    + eapply failsAt_one; try done. intros _.
      rewrite <- filter_snd, <- (left_set _ _ _ Hbits), (canFinish_proper model eqb _ _ eq_refl _ _ (sim_equal model eqb _ _ Hey)).
      rewrite <- Hlin. apply Hda; [done|]. rewrite Hlin.
      assert (bit lin (e_id e) = false ∧ (a, e) ∈ cells) as [Hbit He] by (apply (left_cells lin (a, e)); rewrite Hl; set_solver).
      eapply extends_set; [|done|done]. by eapply Hids.
    + exists st'. split; [by eapply rtc_l|done].
  - destruct (try_call lin h state calls ids Hb Hr Hcalls Hpath pre a e suf r inp out s1 lin' h' cache longest seqs)
      as (st' & ? & ?); try done.
    + intros pre' suf' Hlt Hc' Hp' Hr' Hd' Hl' Hpre' Hne2.
      eapply (IHk lin' h' s1 _ _ pre' suf'); try done. lia.
    + exists st'. split; [by eapply rtc_l|done].
Qed.
End search.

(** ** [checkSingle] *)

Section correct.
Context {I O S : Type} (model : Model I O S) (eqb : S → S → bool).
Context (Heq : Equal model = Some eqb) {EO : EqualOk model eqb}.
Implicit Types (es : list (entry I O)).

Lemma loop_runs computePartial headEntry st st' :
  rtc (step model headEntry computePartial) st st' →
  ∃ k, ∀ fuel, loop model computePartial (λ _, false) (k + fuel) headEntry st =
               loop model computePartial (λ _, false) fuel headEntry st'.
Proof.
  induction 1 as [st|st st1 st' Hs _ [k IH]]; [by exists 0%nat|].
  exists (Datatypes.S k). intros fuel. cbn [loop Nat.add]. rewrite Hs. cbn [mbind outcome_bind]. apply IH.
Qed.

(** The ids of a list of entries number its operations. *)
Definition numbered es : Prop := ∀ e, e ∈ es → 0 <= e_id e < zlen es / 2.

Lemma startSearch_spec es :
  wfEntries es →
  ∃ h, startSearch model es =
      Ret (mkSearch h (firstOr (cellsOf es).*1 None) (Init model) (newBitset (zlen es / 2)) ∅ []
             (replicate (Z.to_nat (zlen es / 2)) None) 0, length es) ∧
    rep (cellsOf es) (length es) h (cellsOf es).
Proof.
  intros Hwf. destruct (linkFrom_spec es (wf_answered _ Hwf)) as (h & mt & Hlk & Hl & Hs & Hn & _).
  assert (length_ h (firstOr (cellsOf es).*1 None) = Ret (zlen es)) as Hlen.
  { unfold length_. rewrite (lengthLoop_spec h None (cellsOf es).*1); [|done| | |].
    - unfold zlen. rewrite length_fmap. rewrite <- (cellsOf_snd es) at 2. by rewrite length_fmap.
    - rewrite length_fmap, Hl. rewrite <- (cellsOf_snd es) at 2. by rewrite length_fmap.
    - by intros ->.
    - by intros a l ->. }
  set (nd := mkNode None None (-1) None None : node (I + O)).
  destruct (insertBefore_front (h ++ [nd]) (cellsOf es).*1 (length h) nd) as (h' & Hi & Hs' & Hd & _);
    [by apply seg_alloc|apply cellsOf_fst_NoDup|rewrite Hl; intros ?%cellsOf_fst_lt; lia|by apply list_lookup_middle|done..|].
  exists h'. split.
  - unfold startSearch, makeLinkedEntries. rewrite Hlk. cbn [mbind outcome_bind]. rewrite Hlen.
    cbn [mbind outcome_bind]. fold nd. rewrite Hi. cbn [mbind outcome_bind]. by rewrite Hl.
  - rewrite Hl in Hs'. split; [done|]. intros a e He.
    eapply nodeFor_mono; [done|reflexivity|]. by apply nodeFor_alloc, Hn.
Qed.

(** What the search returns. *)
Definition verdict es (b : bool) (longest : Longest) : Prop :=
  if b then ∃ ids ptr, linearization model es (Init model) ids ∧
              longest = replicate (Z.to_nat (zlen es / 2)) (Some (ptr, ids))
  else ¬ canFinish model es (Init model) ∧ longestOk model (cellsOf es) (zlen es / 2) longest.

Lemma left_all es : left_ (cellsOf es) (newBitset (zlen es / 2)) = cellsOf es.
Proof. apply filter_all_in. intros c _. apply newBitset_bit. Qed.

Lemma replicate_map {A B} (x : B) (l : list A) : (λ _, x) <$> l = replicate (length l) x.
Proof. induction l; cbn; congruence. Qed.

(** The last turn. *)
Lemma finished_verdict computePartial es st :
  wfEntries es → finished model (cellsOf es) (length es) (zlen es / 2) st →
  ∃ longest, loopStep model computePartial false (length es) st = Ret (inr (true, longest)) ∧ verdict es true longest.
Proof.
  intros Hwf (Hr & Hlo & ids & s' & Hcalls & Hp). rewrite cellsOf_snd in Hp.
  destruct (rep_head _ _ _ _ Hr) as (nd & Hnd & Hnx). destruct st as [h en state lin cache calls longest seqs].
  cbn in Hnd, Hcalls, Hlo, Hnx. unfold loopStep. rewrite (load_Some _ _ _ Hnd). cbn [mbind outcome_bind]. rewrite Hnx.
  rewrite Hcalls. cbn [mbind outcome_bind]. eexists. split; [done|]. exists ids, seqs.
  split; [by eapply path_is_linearization|]. rewrite replicate_map, <- Hlo. unfold zlen. by rewrite Nat2Z.id.
Qed.

Lemma exhausted_verdict computePartial es h cache st :
  wfEntries es → numbered es → rep (cellsOf es) (length es) h (cellsOf es) →
  exhausted model (cellsOf es) (zlen es / 2) h (Init model) (newBitset (zlen es / 2)) cache [] (cellsOf es) st →
  ∃ longest, loopStep model computePartial false (length es) st = Ret (inr (false, longest)) ∧
    verdict es false longest.
Proof.
  intros Hwf Hnum Hr (pre & b & r & q & cache' & longest & seqs & -> & Hl & Hrk & Hlo & _ & Hstuck).
  rewrite left_all in Hl, Hstuck.
  assert ((b, r) ∈ cellsOf es) as Hbr by (rewrite Hl; set_solver).
  destruct (rep_head _ _ _ _ Hr) as (nh & Hnh & Hnhn). destruct (rep_return _ _ _ _ b r Hr Hbr Hrk) as (nr & Hnr & Hnrm).
  assert (∃ f, n_next nh = Some f) as [f Hf] by (rewrite Hnhn, Hl; destruct pre as [|[? ?] ?]; cbn; eauto).
  exists longest. split.
  - unfold loopStep. rewrite (load_Some _ _ _ Hnh). cbn [mbind outcome_bind]. rewrite Hf, (load_Some _ _ _ Hnr).
    cbn [mbind outcome_bind]. by rewrite Hnrm.
  - split; [|done]. rewrite <- (cellsOf_snd es), <- (left_all es) at 1. apply stuck_dead.
    + rewrite left_all, Hl. by destruct pre.
    + by rewrite left_all.
Qed.

(** The search of a history with operations, from the start. *)
Lemma search_all es computePartial h :
  let n := zlen es / 2 in
  wfEntries es → numbered es → es ≠ [] → rep (cellsOf es) (length es) h (cellsOf es) →
  ∃ st, rtc (step model (length es) computePartial)
      (mkSearch h (firstOr (cellsOf es).*1 None) (Init model) (newBitset n) ∅ [] (replicate (Z.to_nat n) None) 0) st ∧
    (finished model (cellsOf es) (length es) n st ∨
     exhausted model (cellsOf es) n h (Init model) (newBitset n) ∅ [] (cellsOf es) st).
Proof.
  intros n Hwf Hnum Hne Hr.
  assert (0 <= n) as Hn by (apply Z.div_pos; [apply zlen_nonneg|lia]).
  pose proof (left_all es : left_ (cellsOf es) (newBitset n) = cellsOf es) as Hall.
  eapply (search_spec model eqb Heq (cellsOf es) (length es) n computePartial) with (ids := []) (pre := []);
    rewrite ?Hall, ?cellsOf_snd; try done.
  - constructor; [|apply cellsOf_fst_NoDup]. intros ?%cellsOf_fst_lt. lia.
  - intros a e He. apply Hnum. rewrite <- (cellsOf_snd es). by apply (list_elem_of_fmap_2 snd _ (a, e)).
  - by apply newBitset_ok.
  - constructor.
  - intros x (l & Hl & _). by rewrite lookup_empty in Hl.
  - split; [unfold zlen; rewrite length_replicate; lia|]. intros i ptr seq [? _]%lookup_replicate. done.
  - by destruct es.
Qed.

Lemma checkSingle_decides es computePartial :
  wfEntries es → numbered es →
  ∃ b longest, verdict es b longest ∧
    ∃ k, ∀ fuel, (k <= fuel)%nat → checkSingle model (λ _, false) fuel es computePartial = Ret (b, longest).
Proof.
  intros Hwf Hnum. destruct (startSearch_spec es Hwf) as (h & Hst & Hr).
  set (st0 := mkSearch h _ _ _ _ _ _ _) in Hst.
  assert (∃ st b longest, rtc (step model (length es) computePartial) st0 st ∧
    loopStep model computePartial false (length es) st = Ret (inr (b, longest)) ∧ verdict es b longest)
    as (st & b & longest & Hrun & Hlast & Hv).
  { destruct (decide (es = [])) as [->|Hne].
    - destruct (finished_verdict computePartial [] st0) as (longest & ? & ?); [done| |exists st0, true, longest; split; [apply rtc_refl|done]].
      split; [done|]. split; [done|]. exists [], (Init model). split; [done|constructor].
    - destruct (search_all es computePartial h) as (st & Hrun & [Hf|He]); try done.
      + destruct (finished_verdict computePartial es st Hwf Hf) as (longest & ? & ?). by exists st, true, longest.
      + destruct (exhausted_verdict computePartial es h ∅ st Hwf Hnum Hr He) as (longest & ? & ?).
        by exists st, false, longest. }
  exists b, longest. split; [done|]. destruct (loop_runs _ _ _ _ Hrun) as [k Hk]. exists (k + 1)%nat.
  intros fuel Hf. unfold checkSingle. rewrite Hst. cbn [mbind outcome_bind].
  replace fuel with (k + Datatypes.S (fuel - k - 1))%nat by lia. rewrite Hk. cbn [loop]. by rewrite Hlast.
Qed.

(** More fuel does not change a result. *)
Lemma loop_more computePartial kill f f' headEntry st r :
  (f <= f')%nat → loop model computePartial kill f headEntry st = Ret r →
  loop model computePartial kill f' headEntry st = Ret r.
Proof.
  revert f' kill st. induction f as [|f IH]; intros [|f'] kill st Hf; cbn [loop]; try done; [lia|].
  intros ([st'|r'] & -> & H)%bind_Ret; cbn [mbind outcome_bind]; [|done]. apply IH; [lia|done].
Qed.

(** Only what is read from the kill flag matters. *)
Lemma loop_ext computePartial kill kill' f headEntry st :
  (∀ k, kill k = kill' k) →
  loop model computePartial kill f headEntry st = loop model computePartial kill' f headEntry st.
Proof.
  revert kill kill' st. induction f as [|f IH]; intros kill kill' st Hk; cbn [loop]; [done|]. rewrite Hk.
  destruct (loopStep model computePartial (kill' 0%nat) headEntry st) as [[st'|r]| | |]; [|done..].
  cbn [mbind outcome_bind]. apply IH. intros k. apply Hk.
Qed.

Lemma checkSingle_ext kill kill' f es computePartial :
  (∀ k, kill k = kill' k) → checkSingle model kill f es computePartial = checkSingle model kill' f es computePartial.
Proof.
  intros Hk. unfold checkSingle. destruct (startSearch model es) as [[st hd]| | |]; [|done..].
  cbn [mbind outcome_bind]. by apply loop_ext.
Qed.

(** The kill flag only ever turns an answer into [false]. *)
Lemma loopStep_kill computePartial b headEntry st r :
  loopStep model computePartial b headEntry st = Ret r →
  r = inr (false, s_longest st) ∨ loopStep model computePartial false headEntry st = Ret r.
Proof.
  destruct b; [|auto]. destruct st as [h en state lin cache calls longest seqs]. unfold loopStep.
  destruct (load h (Some headEntry)) as [nd| | |]; [|done..]. cbn [mbind outcome_bind].
  destruct (n_next nd); [|auto]. intros [= <-]. by left.
Qed.

Lemma loop_kill computePartial kill f headEntry st longest :
  loop model computePartial kill f headEntry st = Ret (true, longest) →
  loop model computePartial (λ _, false) f headEntry st = Ret (true, longest).
Proof.
  revert kill st. induction f as [|f IH]; intros kill st; cbn [loop]; [done|].
  intros (r & [->| ->]%loopStep_kill & H)%bind_Ret; [done|]. cbn [mbind outcome_bind].
  destruct r; [by eapply IH|done].
Qed.

Lemma checkSingle_sound kill fuel es computePartial longest :
  wfEntries es → numbered es →
  checkSingle model kill fuel es computePartial = Ret (true, longest) → canFinish model es (Init model).
Proof.
  intros Hwf Hnum H. destruct (checkSingle_decides es computePartial Hwf Hnum) as (b & lg & Hv & k & Hk).
  specialize (Hk (max k fuel) ltac:(lia)). unfold checkSingle in *. apply bind_Ret in H as ([st hd] & Hs & H).
  rewrite Hs in Hk. cbn [mbind outcome_bind] in Hk. apply loop_kill in H.
  apply (loop_more _ _ _ (max k fuel)) in H; [|lia]. rewrite H in Hk. injection Hk as <- <-.
  destruct Hv as (ids & ptr & Hlin & _). apply path_linearization; eauto.
Qed.
End correct.
