(* ===== verification/PorcHistory.v ===== *)
(** * PorcHistory: histories of operations

    The entries that [makeEntries] makes of a history of operations form a
    well-formed list whose linearizations are those of the history
    ([entries_linearizable]). *)

From S2P Require Import Prelude PorcModel PorcList PorcPath PorcSearch.
Local Open Scope Z_scope.

Section operations.
Context {I O S : Type} (model : Model I O S).
Local Abbreviation Operation := (Operation I O).
Local Abbreviation entry := (entry I O).
Implicit Types (H : list Operation) (op : Operation) (e : entry) (es : list entry).

Definition callOf (id : Z) op : entry :=
  mkEntry callEntry (inl (op_Input op)) id (op_Call op) (op_ClientId op).
Definition returnOf (id : Z) op : entry :=
  mkEntry returnEntry (inr (op_Output op)) id (op_Return op) (op_ClientId op).

(** The operations with their ids. *)
Fixpoint withIds (k : Z) H : list (Z * Operation) :=
  match H with [] => [] | op :: H => (k, op) :: withIds (k + 1) H end.

Lemma withIds_snd k H : (withIds k H).*2 = H.
Proof. revert k. induction H as [|op H IH]; intros k; cbn; [done|]. by rewrite IH. Qed.

Lemma withIds_fst k H i : i ∈ (withIds k H).*1 → k <= i < k + zlen H.
Proof.
  revert k. induction H as [|op H IH]; intros k; cbn; [by intros ?%elem_of_nil|].
  autorewrite with zlen. pose proof (zlen_nonneg H).
  intros [->|Hi%IH]%elem_of_cons; lia.
Qed.

Lemma withIds_NoDup k H : NoDup (withIds k H).*1.
Proof.
  revert k. induction H as [|op H IH]; intros k; cbn; constructor; [|done].
  intros Hin%withIds_fst. lia.
Qed.

Lemma withIds_unique k H i op op' : (i, op) ∈ withIds k H → (i, op') ∈ withIds k H → op = op'.
Proof.
  intros [j Hj]%list_elem_of_lookup [j' Hj']%list_elem_of_lookup.
  assert (j = j') as ->; [|congruence].
  eapply (NoDup_lookup _ _ _ i (withIds_NoDup k H)); rewrite list_lookup_fmap; [by rewrite Hj|by rewrite Hj'].
Qed.

Lemma elem_of_entriesFrom k H e :
  e ∈ entriesFrom k H ↔ ∃ i op, (i, op) ∈ withIds k H ∧ (e = callOf i op ∨ e = returnOf i op).
Proof.
  revert k. induction H as [|op H IH]; intros k; cbn [entriesFrom withIds].
  - setoid_rewrite elem_of_nil. naive_solver.
  - rewrite !elem_of_cons, IH. setoid_rewrite elem_of_cons. unfold callOf, returnOf. naive_solver.
Qed.

Lemma entriesFrom_length k H : zlen (entriesFrom k H) = 2 * zlen H.
Proof.
  revert k. induction H as [|op H IH]; intros k; cbn [entriesFrom]; [done|].
  autorewrite with zlen. rewrite IH. lia.
Qed.

Lemma entriesFrom_NoDup k H : NoDup ((λ e, (e_kind e, e_id e)) <$> entriesFrom k H).
Proof.
  revert k. induction H as [|op H IH]; intros k; cbn; [constructor|].
  assert (∀ kd, (kd, k) ∉ (λ e, (e_kind e, e_id e)) <$> entriesFrom (k + 1) H) as Hnew.
  { intros kd (e & He & (i & op' & Hi & Hc)%elem_of_entriesFrom)%list_elem_of_fmap.
    apply (list_elem_of_fmap_2 fst) in Hi. apply withIds_fst in Hi. cbn in Hi.
    assert (e_id e = i) by (by destruct Hc as [->| ->]). injection He as _ He. lia. }
  constructor; [|constructor; [done|apply IH]]. rewrite elem_of_cons. intros [?|?]; [done|by eapply Hnew].
Qed.

Section sorted.
Context {TS : TimeSort I O} (H : list Operation) (Ht : wellTimed H).
Local Abbreviation es := (makeEntries H).

Lemma elem_of_es e : e ∈ es ↔ ∃ i op, (i, op) ∈ withIds 0 H ∧ (e = callOf i op ∨ e = returnOf i op).
Proof. rewrite <- elem_of_entriesFrom. unfold makeEntries. by rewrite sortByTime_perm. Qed.

Lemma es_NoDup : NoDup ((λ e, (e_kind e, e_id e)) <$> es).
Proof. unfold makeEntries. rewrite sortByTime_perm. apply entriesFrom_NoDup. Qed.

Lemma es_length : zlen es = 2 * zlen H.
Proof. unfold makeEntries, zlen. rewrite sortByTime_perm. apply entriesFrom_length. Qed.

(** Of two entries in order the second is not [Less]. *)
Lemma es_order pre x post y : es = pre ++ x :: post → y ∈ post → Less y x = false.
Proof.
  intros E Hy. pose proof (sortByTime_sorted (entriesFrom 0 H)) as Hs.
  change (sortByTime (entriesFrom 0 H)) with es in Hs. rewrite E in Hs. clear E.
  induction pre as [|z pre IH]; apply StronglySorted_inv in Hs as [Hs Hf]; [|by apply IH].
  rewrite Forall_forall in Hf. by apply Hf.
Qed.

Lemma Less_call_return i op j op' : op_Call op <= op_Return op' → Less (callOf i op) (returnOf j op') = true.
Proof.
  intros Hle. unfold Less, callOf, returnOf. cbn. destruct (Z.eqb_spec (op_Call op) (op_Return op')); cbn; [done|].
  apply Z.ltb_lt. lia.
Qed.

Lemma Less_return_call i op j op' : Less (returnOf i op) (callOf j op') = (op_Return op <? op_Call op').
Proof.
  unfold Less, callOf, returnOf. cbn. destruct (Z.eqb_spec (op_Return op) (op_Call op')) as [->|]; cbn; [|done].
  symmetry. apply Z.ltb_irrefl.
Qed.

Lemma answered_intro (l : list entry) :
  (∀ pre c post, l = pre ++ c :: post → isCall c → ∃ r, r ∈ post ∧ e_kind r = returnEntry ∧ e_id r = e_id c) →
  answered l.
Proof.
  induction l as [|e l IH]; intros Hl; [done|]. split; [by apply (Hl [])|].
  apply IH. intros pre c post ->. by apply (Hl (e :: pre)).
Qed.

Lemma es_wf : wfEntries es.
Proof.
  constructor.
  - apply es_NoDup.
  - apply answered_intro. intros pre c post E Hc.
    assert (c ∈ es) as (i & op & Hi & [->| ->])%elem_of_es by (rewrite E; set_solver); [|done].
    exists (returnOf i op). split; [|done].
    assert (returnOf i op ∈ es) as Hr by (apply elem_of_es; eauto). rewrite E in Hr.
    apply elem_of_app in Hr as [Hr|[?|?]%elem_of_cons]; [|done..]. exfalso.
    apply list_elem_of_split in Hr as (l1 & l2 & ->). rewrite <- app_assoc in E. cbn in E.
    pose proof (es_order _ _ _ (callOf i op) E) as Hl. rewrite Less_call_return in Hl.
    + discriminate Hl. set_solver.
    + unfold wellTimed in Ht. rewrite Forall_forall in Ht. apply Ht. rewrite <- (withIds_snd 0 H).
      by apply (list_elem_of_fmap_2 snd _ (i, op)).
  - intros r (i & op & Hi & [->| ->])%elem_of_es Hk; [done|]. exists (callOf i op). split; [|done].
    apply elem_of_es. eauto.
  - intros c (i & op & Hi & [->| ->])%elem_of_es Hk; [by eexists|done].
  - intros c (i & op & Hi & [->| ->])%elem_of_es Hk; [done|by eexists].
Qed.

Lemma es_numbered : numbered es.
Proof.
  intros e (i & op & Hi & He)%elem_of_es. rewrite es_length, Z.mul_comm, Z.div_mul by done.
  apply (list_elem_of_fmap_2 fst) in Hi. apply withIds_fst in Hi. cbn in Hi.
  destruct He as [->| ->]; cbn; lia.
Qed.

(** The entries of an operation. *)
Lemma es_call i op e : (i, op) ∈ withIds 0 H → e ∈ es → isCall e → e_id e = i → e = callOf i op.
Proof.
  intros Hi He Hk Hei. apply (wf_unique es); [apply es_wf|done|apply elem_of_es; eauto|done|done].
Qed.

Lemma es_return i op e : (i, op) ∈ withIds 0 H → e ∈ es → isReturn e → e_id e = i → e = returnOf i op.
Proof.
  intros Hi He Hk Hei. apply (wf_unique es); [apply es_wf|done|apply elem_of_es; eauto|done|done].
Qed.

Lemma precedes_split (l : list entry) a b :
  precedes l a b →
  ∃ pre r post c, l = pre ++ r :: post ∧ c ∈ post ∧ isReturn r ∧ e_id r = a ∧ isCall c ∧ e_id c = b.
Proof.
  induction l as [|e l IH]; [done|]. intros [(He & <- & c & Hc & Hk & <-)|Hp]; [exists [], e, l, c; auto 10|].
  destruct (IH Hp) as (pre & r & post & c & -> & ?). by exists (e :: pre), r, post, c.
Qed.

(** The order of returns and calls in the list is the real-time order. *)
Lemma precedes_es a opa b opb :
  (a, opa) ∈ withIds 0 H → (b, opb) ∈ withIds 0 H → precedes es a b ↔ op_Return opa < op_Call opb.
Proof.
  intros Ha Hb.
  assert (callOf b opb ∈ es ∧ returnOf a opa ∈ es) as [Hcb Hra] by (split; apply elem_of_es; eauto).
  split.
  - intros (pre & r & post & c & E & Hc & Hr & Hra' & Hck & Hcb')%precedes_split.
    rewrite (es_return a opa r Ha) in E by (done || rewrite E; set_solver).
    rewrite (es_call b opb c Hb) in Hc by (done || rewrite E; set_solver).
    pose proof (es_order _ _ _ _ E Hc) as Hl. destruct (Z.lt_ge_cases (op_Return opa) (op_Call opb)); [done|].
    by rewrite Less_call_return in Hl.
  - intros Hlt. apply list_elem_of_split in Hcb as (l1 & l2 & E). rewrite E in Hra.
    apply elem_of_app in Hra as [Hra|[?|Hra]%elem_of_cons]; [|done|].
    + rewrite E. apply precedes_app. right. right. split; [by exists (returnOf a opa)|exists (callOf b opb); set_solver].
    + pose proof (es_order _ _ _ _ E Hra) as Hl. rewrite Less_return_call in Hl. by apply Z.ltb_ge, Z.le_ngt in Hl.
Qed.

Lemma values_es i op :
  (i, op) ∈ withIds 0 H → callValue es i (op_Input op) ∧ returnValue es i (op_Output op).
Proof.
  intros Hi. split; [exists (callOf i op)|exists (returnOf i op)]; (split; [apply elem_of_es; eauto|done]).
Qed.

(** A sequence of numbered operations is accepted by its ids as it is by its
    operations. *)
Lemma accepts_es s (P : list (Z * Operation)) :
  (∀ x, x ∈ P → x ∈ withIds 0 H) → acceptsIds model es s P.*1 ↔ accepts model s P.*2.
Proof.
  revert s. induction P as [|[i op] P IH]; intros s HP; [done|]. cbn.
  assert ((i, op) ∈ withIds 0 H) as Hi by (apply HP; by constructor).
  destruct (values_es i op Hi) as [Hc Hr]. setoid_rewrite IH; [|intros; apply HP; by constructor]. split.
  - intros (inp & out & (e & He & Hek & Hei & Hv) & (e' & He' & Hek' & Hei' & Hv') & H1 & H2).
    rewrite (es_call i op e Hi) in Hv by done. rewrite (es_return i op e' Hi) in Hv' by done.
    by simplify_eq/=.
  - intros [H1 H2]. eauto 10.
Qed.

Lemma idsOf_es : idsOf es ≡ₚ (withIds 0 H).*1.
Proof.
  apply NoDup_Permutation; [apply idsOf_NoDup, es_wf|apply withIds_NoDup|]. intros i. rewrite elem_of_idsOf. split.
  - intros (c & (j & op & Hj & [->| ->])%elem_of_es & Hk & <-); [|done]. by apply (list_elem_of_fmap_2 fst _ (j, op)).
  - intros ([j op] & -> & Hj)%list_elem_of_fmap. exists (callOf j op). split; [apply elem_of_es; eauto|done].
Qed.

Lemma sorted_es (P : list (Z * Operation)) :
  (∀ x, x ∈ P → x ∈ withIds 0 H) →
  StronglySorted (λ x y, ¬ precedes es y x) P.*1 ↔ StronglySorted realTime P.*2.
Proof.
  induction P as [|[i op] P IH]; intros HP; [split; constructor|]. cbn [fmap list_fmap fst snd].
  rewrite !StronglySorted_cons, IH by (intros; apply HP; by constructor). f_equiv.
  assert ((i, op) ∈ withIds 0 H) as Hi by (apply HP; by constructor).
  rewrite !Forall_fmap, !Forall_forall. split; intros Hall [j op'] Hj.
  - intros Hlt. apply (Hall _ Hj). cbn. apply (precedes_es j op' i op); [apply HP; by constructor|done|done].
  - cbn. rewrite (precedes_es j op' i op); [|apply HP; by constructor|done]. apply (Hall _ Hj).
Qed.

Lemma entries_linearizable : canFinish model es (Init model) ↔ linearizable model H.
Proof.
  rewrite path_linearization by apply es_wf. split.
  - intros (ids & Hp & Hs & Ha). rewrite idsOf_es in Hp.
    apply Permutation_map_inv in Hp as (P & -> & HP).
    assert (∀ x, x ∈ P → x ∈ withIds 0 H) as Hsub by (intros x; by rewrite HP).
    exists P.*2. split; [rewrite <- HP; by rewrite withIds_snd|]. split; [by apply sorted_es|by apply accepts_es].
  - intros (h' & Hp & Hs & Ha). rewrite <- (withIds_snd 0 H) in Hp.
    apply Permutation_map_inv in Hp as (P & -> & HP).
    assert (∀ x, x ∈ P → x ∈ withIds 0 H) as Hsub by (intros x; by rewrite HP).
    exists P.*1. split; [rewrite idsOf_es; by rewrite HP|]. split; [by apply sorted_es|by apply accepts_es].
Qed.
End sorted.
End operations.
