(* ===== verification/PorcEvents.v ===== *)
(** * PorcEvents: histories of events

    [renumber] gives the operations of a history of events the ids
    [0, 1, ...] in the order of their first events, as the bitsets of the search
    need them.  It is a renaming, and renaming ids changes nothing about
    linearizability ([renumbered_entries]). *)

From S2P Require Import Prelude PorcModel PorcList PorcPath PorcSearch.
Local Open Scope Z_scope.

Section relabel.
Context {I O S : Type} (model : Model I O S).
Local Abbreviation entry := (entry I O).
Implicit Types (l : list entry) (e : entry) (f g : Z → Z).

Definition relabel f e : entry := mkEntry (e_kind e) (e_value e) (f (e_id e)) (e_time e) (e_clientId e).

(** [g] undoes [f] on the ids of [l]. *)
Definition undoes g f l : Prop := ∀ e, e ∈ l → g (f (e_id e)) = e_id e.

Lemma undoes_remove g f l i : undoes g f l → undoes g f (removeOp i l).
Proof. intros H e [_ He]%list_elem_of_filter. by apply H. Qed.

Lemma undoes_inj g f l e e' : undoes g f l → e ∈ l → e' ∈ l → f (e_id e) = f (e_id e') → e_id e = e_id e'.
Proof. intros H He He' Hf. rewrite <- (H e He), Hf. by apply H. Qed.

Lemma removeOp_relabel g f l c :
  undoes g f l → c ∈ l → removeOp (f (e_id c)) (relabel f <$> l) = relabel f <$> removeOp (e_id c) l.
Proof.
  intros Hg Hc. unfold removeOp.
  assert (∀ l', (∀ e, e ∈ l' → e ∈ l) → filter (λ e, e_id e ≠ f (e_id c)) (relabel f <$> l') =
    relabel f <$> filter (λ e, e_id e ≠ e_id c) l') as Hgen; [|by apply Hgen].
  induction l' as [|e l' IH]; intros Hsub; [done|]. rewrite fmap_cons, !filter_cons, IH by set_solver.
  assert (e_id (relabel f e) ≠ f (e_id c) ↔ e_id e ≠ e_id c) as Hiff.
  { cbn. split; intros Hne E; apply Hne; [by rewrite E|]. eapply undoes_inj; [done|set_solver|done|done]. }
  repeat case_decide; cbn; tauto.
Qed.

Lemma path_relabel g f l s ids l' s' :
  undoes g f l → path model l s ids l' s' → path model (relabel f <$> l) s (f <$> ids) (relabel f <$> l') s'.
Proof.
  intros Hg Hp. revert Hg.
  induction Hp as [|pre c post r inp out s s1 ids l' s' Hpre Hc Hr Hrk Hri Hi Ho Hs _ IH]; intros Hg; [constructor|].
  specialize (IH (undoes_remove _ _ _ _ Hg)).
  rewrite <- (removeOp_relabel g) in IH by (done || set_solver).
  rewrite fmap_app, !fmap_cons in IH |- *. change (f (e_id c)) with (e_id (relabel f c)) in IH |- *.
  eapply (path_cons model (relabel f <$> pre) (relabel f c) (relabel f <$> post) (relabel f r)); try done.
  - apply Forall_fmap. by eapply Forall_impl.
  - by apply list_elem_of_fmap_2.
  - cbn. by rewrite Hri.
Qed.

Lemma relabel_back g f l : undoes g f l → relabel g <$> (relabel f <$> l) = l.
Proof.
  intros Hg. rewrite <- list_fmap_compose. rewrite <- (list_fmap_id l) at 2.
  apply list_fmap_ext. intros i e He%list_elem_of_lookup_2%Hg. destruct e. unfold relabel. cbn in *. by rewrite He.
Qed.

Lemma canFinish_relabel g f l s : undoes g f l → canFinish model (relabel f <$> l) s ↔ canFinish model l s.
Proof.
  intros Hg. split; intros (ids & s' & Hp).
  - exists (g <$> ids), s'. rewrite <- (relabel_back g f l Hg). eapply (path_relabel f) in Hp; [exact Hp|].
    intros e (e' & -> & He')%list_elem_of_fmap. cbn. by rewrite Hg.
  - exists (f <$> ids), s'. by eapply (path_relabel g) in Hp.
Qed.

Lemma wf_relabel g f l : undoes g f l → wfEntries l → wfEntries (relabel f <$> l).
Proof.
  intros Hg [Hd Ha Hc Hv Ho]. constructor.
  - rewrite <- list_fmap_compose. apply NoDup_fmap_2_strong; [|by eapply NoDup_fmap_1].
    intros e e' He He' [= Hk Hi]. eapply undoes_inj in Hi; [|done..].
    apply list_elem_of_lookup in He as [j Hj], He' as [j' Hj'].
    assert (j = j') as ->; [|congruence].
    eapply NoDup_lookup; [done|..]; rewrite list_lookup_fmap; [by rewrite Hj|rewrite Hj'; cbn; by rewrite Hk, Hi].
  - clear -Ha. induction l as [|e l IH]; [done|]. destruct Ha as [He Ha]. split; [|by apply IH].
    intros Hk. destruct (He Hk) as (r & Hr & Hrk & Hri). exists (relabel f r).
    split; [by apply list_elem_of_fmap_2|]. cbn. by rewrite Hri.
  - intros r (r' & -> & Hr)%list_elem_of_fmap Hk. destruct (Hc r' Hr Hk) as (c & Hcl & Hck & Hci).
    exists (relabel f c). split; [by apply list_elem_of_fmap_2|]. cbn. by rewrite Hci.
  - intros c (c' & -> & Hcl)%list_elem_of_fmap Hk. by apply (Hv c').
  - intros c (c' & -> & Hcl)%list_elem_of_fmap Hk. by apply (Ho c').
Qed.

(** A call and a return for each id. *)
Lemma wf_length l : wfEntries l → length l = (2 * length (idsOf l))%nat.
Proof.
  intros Hwf. pose proof (idsOf_NoDup l Hwf) as Hd.
  assert (((λ e, (e_kind e, e_id e)) <$> l) ≡ₚ
          ((λ i, (callEntry, i)) <$> idsOf l) ++ ((λ i, (returnEntry, i)) <$> idsOf l)) as Hp.
  { apply NoDup_Permutation; [apply Hwf| |].
    - apply NoDup_app. split; [by apply NoDup_fmap_2; [intros ?? [=]|]|]. split; [|by apply NoDup_fmap_2; [intros ?? [=]|]].
      intros x (i & -> & _)%list_elem_of_fmap (j & Hj & _)%list_elem_of_fmap. done.
    - intros [k i]. rewrite elem_of_app, !list_elem_of_fmap. setoid_rewrite elem_of_idsOf. split.
      + intros (e & [= -> ->] & He). destruct (kind_cases e) as [Hk|Hk]; [left|right]; exists (e_id e).
        * rewrite Hk. eauto.
        * rewrite Hk. split; [done|]. by apply (wf_called _ Hwf).
      + intros [(j & [= -> ->] & c & Hc & Hk & <-)|(j & [= -> ->] & c & Hc & Hk & <-)].
        * exists c. by rewrite Hk.
        * apply list_elem_of_split in Hc as (pre & post & ->).
          destruct (answered_app pre c post (wf_answered _ Hwf) Hk) as (r & Hr & Hrk & Hri).
          exists r. rewrite Hrk, Hri. set_solver. }
  apply Permutation_length in Hp. rewrite length_app, !length_fmap in Hp. lia.
Qed.
End relabel.

Section renumber.
Context {I O S : Type} (model : Model I O S).
Local Abbreviation Event := (Event I O).
Implicit Types (ev : list Event) (v : Event) (seen : list Z).

(** [m] numbers the ids of [seen] by their positions. *)
Definition numbers (m : gmap Z Z) seen : Prop :=
  ∀ x k, m !! x = Some k ↔ 0 <= k ∧ seen !! Z.to_nat k = Some x.

Lemma numbers_snoc m seen x :
  numbers m seen → m !! x = None → numbers (<[x := zlen seen]> m) (seen ++ [x]).
Proof.
  intros Hn Hx y k. rewrite lookup_insert_Some, (Hn y k). unfold zlen. split.
  - intros [[<- <-]|[Hne [Hk Hl]]].
    + split; [lia|]. rewrite Nat2Z.id. by apply list_lookup_middle.
    + split; [done|]. by apply lookup_app_l_Some.
  - intros [Hk [Hl|[Hge [Hl ->]%list_lookup_singleton_Some]]%lookup_app_Some].
    + right. split; [|done]. intros <-. assert (m !! x = Some k) by (by apply Hn). congruence.
    + left. split; [done|]. lia.
Qed.

(** The event with the id at position [k] of [final] in place of [k]. *)
Definition renumbered (final : list Z) v v' : Prop :=
  ev_ClientId v' = ev_ClientId v ∧ ev_Kind v' = ev_Kind v ∧ ev_Value v' = ev_Value v ∧
  0 <= ev_Id v' ∧ final !! Z.to_nat (ev_Id v') = Some (ev_Id v).

Lemma renumberLoop_spec m seen ev :
  NoDup seen → numbers m seen →
  ∃ final, seen `prefix_of` final ∧ NoDup final ∧ (∀ x, x ∈ final ↔ x ∈ seen ∨ x ∈ ev_Id <$> ev) ∧
    Forall2 (renumbered final) ev (renumberLoop m (zlen seen) ev).
Proof.
  revert m seen. induction ev as [|v ev IH]; intros m seen Hd Hn.
  { exists seen. split; [done|]. split; [done|]. split; [|constructor]. intros x. cbn. rewrite elem_of_nil. tauto. }
  cbn [renumberLoop]. destruct (m !! ev_Id v) as [r|] eqn:Hm.
  - destruct (IH m seen Hd Hn) as (final & Hpre & Hnd & Hel & Hf). exists final. split; [done|]. split; [done|].
    pose proof (proj1 (Hn _ _) Hm) as [Hr Hrl].
    assert (final !! Z.to_nat r = Some (ev_Id v)) as Hfr by (by eapply prefix_lookup_Some).
    split; [|constructor; done]. intros x. rewrite Hel. cbn. rewrite elem_of_cons.
    split; [tauto|]. intros [?|[->|?]]; [auto| |auto]. left. by eapply list_elem_of_lookup_2.
  - destruct (IH (<[ev_Id v := zlen seen]> m) (seen ++ [ev_Id v])) as (final & Hpre & Hnd & Hel & Hf).
    + apply NoDup_app. split; [done|]. split; [|by apply NoDup_singleton].
      intros x [k Hk]%list_elem_of_lookup ->%list_elem_of_singleton.
      assert (m !! ev_Id v = Some (Z.of_nat k)) by (apply Hn; rewrite Nat2Z.id; split; [lia|done]). congruence.
    + by apply numbers_snoc.
    + autorewrite with zlen in Hf. exists final. split; [by eapply prefix_app_l|]. split; [done|]. split.
      * intros x. rewrite Hel, elem_of_app, list_elem_of_singleton. cbn. rewrite elem_of_cons. tauto.
      * constructor; [|done]. split; [done|]. split; [done|]. split; [done|]. cbn. split; [apply zlen_nonneg|].
        eapply prefix_lookup_Some; [|done]. unfold zlen. rewrite Nat2Z.id. by apply list_lookup_middle.
Qed.

Lemma elem_of_convert k ev e : e ∈ convertFrom k ev → ∃ v, v ∈ ev ∧ e_id e = ev_Id v.
Proof.
  revert k. induction ev as [|v ev IH]; intros k; cbn; [by intros ?%elem_of_nil|].
  intros [->|He]%elem_of_cons; [exists v; set_solver|]. destruct (IH _ He) as (v' & ? & ?). exists v'. set_solver.
Qed.

Lemma convert_renumbered final ev ev' k :
  Forall2 (renumbered final) ev ev' →
  convertFrom k ev = relabel (λ i, default 0 (final !! Z.to_nat i)) <$> convertFrom k ev'.
Proof.
  intros Hf. revert k. induction Hf as [|v v' ev ev' (Hc & Hk & Hv & _ & Hl) _ IH]; intros k; [done|].
  cbn. unfold relabel at 1. cbn. rewrite Hl, Hc, Hk, Hv. cbn. f_equal. apply IH.
Qed.

(** Position of an id. *)
Definition position (final : list Z) (x : Z) : Z := Z.of_nat (from_option fst 0%nat (list_find (x =.) final)).

Lemma position_lookup final k x : NoDup final → final !! k = Some x → position final x = Z.of_nat k.
Proof.
  intros Hd Hk. unfold position. destruct (list_find_elem_of (x =.) final x) as [[k' y] Hf]; [by eapply list_elem_of_lookup_2|done|].
  rewrite Hf. apply list_find_Some in Hf as (Hk' & <- & _). cbn. f_equal. by eapply NoDup_lookup.
Qed.

(** The entries of the renumbered events are those of the events under an
    invertible renaming onto the first numbers. *)
Lemma renumber_relabel ev :
  ∃ f g (final : list Z), NoDup final ∧ (∀ x, x ∈ final ↔ x ∈ ev_Id <$> ev) ∧
    convertEntries (renumber ev) = relabel f <$> convertEntries ev ∧ undoes g f (convertEntries ev) ∧
    ∀ e, e ∈ convertEntries (renumber ev) → 0 <= e_id e < zlen final.
Proof.
  destruct (renumberLoop_spec ∅ [] ev) as (final & _ & Hd & Hel & Hf); [constructor| |].
  { intros x k. rewrite lookup_empty. split; [done|]. by intros [_ ?]. }
  change (zlen []) with 0 in Hf. fold (renumber ev) in Hf.
  set (g := λ i, default 0 (final !! Z.to_nat i)).
  assert (convertEntries ev = relabel g <$> convertEntries (renumber ev)) as Hcv by (by apply convert_renumbered).
  assert (∀ e, e ∈ convertEntries (renumber ev) → ∃ x, 0 <= e_id e ∧ final !! Z.to_nat (e_id e) = Some x) as Hin.
  { intros e (v' & [j Hj]%list_elem_of_lookup & ->)%elem_of_convert.
    destruct (Forall2_lookup_r _ _ _ _ _ Hf Hj) as (v & _ & (_ & _ & _ & H0 & Hx)). eauto. }
  assert (undoes (position final) g (convertEntries (renumber ev))) as Hu.
  { intros e (x & H0 & Hx)%Hin. unfold g. rewrite Hx. cbn. rewrite (position_lookup _ _ _ Hd Hx). lia. }
  exists (position final), g, final. split; [done|]. split; [intros x; rewrite Hel; set_solver|].
  split; [by rewrite Hcv, relabel_back|]. split.
  - rewrite Hcv. intros e (e' & -> & He')%list_elem_of_fmap. cbn. by rewrite Hu.
  - intros e (x & H0 & Hx)%Hin. apply lookup_lt_Some in Hx. unfold zlen. lia.
Qed.

Lemma convert_ids k ev x : x ∈ ev_Id <$> ev ↔ x ∈ e_id <$> convertFrom k ev.
Proof. revert k. induction ev as [|v ev IH]; intros k; cbn; [done|]. rewrite !elem_of_cons, <- IH. done. Qed.

(** Renumbering is harmless. *)
Lemma renumbered_entries ev s :
  wfEntries (convertEntries ev) →
  wfEntries (convertEntries (renumber ev)) ∧ numbered (convertEntries (renumber ev)) ∧
  (canFinish model (convertEntries (renumber ev)) s ↔ canFinish model (convertEntries ev) s).
Proof.
  intros Hwf. destruct (renumber_relabel ev) as (f & g & final & Hd & Hel & Hcv & Hu & Hr).
  assert (length (convertEntries (renumber ev)) = length (convertEntries ev)) as Hlen by (by rewrite Hcv, length_fmap).
  assert (final ≡ₚ idsOf (convertEntries ev)) as Hp.
  { apply NoDup_Permutation; [done|by apply idsOf_NoDup|]. intros x. rewrite Hel, (convert_ids 0), elem_of_idsOf. split.
    - intros (e & -> & He)%list_elem_of_fmap. destruct (kind_cases e); [eauto|]. by apply (wf_called _ Hwf).
    - intros (c & Hc & _ & <-). by apply list_elem_of_fmap_2. }
  apply Permutation_length in Hp. pose proof (wf_length _ Hwf) as Hl.
  split; [rewrite Hcv; by eapply wf_relabel|]. split; [|rewrite Hcv; by eapply canFinish_relabel].
  intros e He. unfold zlen. rewrite Hlen, Hl, <- Hp, Nat2Z.inj_mul, Z.mul_comm, Z.div_mul by done.
  by apply Hr.
Qed.
End renumber.
