(* ===== verification/PorcCheck.v ===== *)
(** * PorcCheck: the checks of a whole history

    [checkParallel], [checkOperations] and [checkEvents] of
    [src/src/porcupine/checker.go] (274-373) and the exported functions of
    [src/src/porcupine/porcupine.go].  One goroutine searches each partition; in
    which order their results arrive, whether the timeout comes first, when a
    goroutine sees the kill flag and in which order a map is visited is the
    [Schedule].  The kill flag is stored only when the select loop is left, so
    a result that the loop receives is that of a search that never saw it.

    The theorems say that without a timeout the answer comes and is [Ok]
    exactly for the histories whose partitions are all linearizable, and that
    with a timeout an answer other than [Unknown] is still right. *)

From S2P Require Import Prelude PorcModel PorcList PorcPath PorcSearch PorcHistory PorcEvents.
Local Open Scope Z_scope.

Record Schedule := mkSchedule {
  (** what the select loop receives: the result of a goroutine, or the timeout *)
  arrivals : list (option nat);
  (** what goroutine [i] reads from the kill flag the [k]-th time *)
  kills : nat → nat → bool;
  (** the order in which the [set] of pointers is visited *)
  visit : list (list Z) → list (list Z);
}.

Record linearizationInfo (I O : Type) := mkInfo {
  info_history : list (list (entry I O));
  partialLinearizations : list (list (list Z));
}.
Arguments mkInfo {I O}.
Arguments info_history {I O}.
Arguments partialLinearizations {I O}.

Section check.
Context {I O S : Type} `{EqDecision S} {TS : TimeSort I O}.
Local Abbreviation Model := (Model I O S).
Local Abbreviation entry := (entry I O).
Local Abbreviation linearizationInfo := (linearizationInfo I O).
Implicit Types (model : Model) (history : list (list entry)) (sched : Schedule).

(** The goroutine of partition [i]. *)
Definition run model (kill : nat → bool) (fuel : nat) history (computeInfo : bool) (i : nat) :
    outcome (bool * Longest) :=
  match history !! i with
  | Some subhistory => checkSingle model kill fuel subhistory computeInfo
  | None => Panic
  end.

(** The select loop: [ok] and [timedOut] when it is left.  When nothing more
    arrives it blocks; a [nil] timeout channel is never ready. *)
Fixpoint selectLoop (result_ : nat → outcome (bool * Longest)) (computeInfo : bool) (timeout total count : Z)
    (ok : bool) (arr : list (option nat)) : outcome (bool * bool) :=
  match arr with
  | [] => Block
  | Some i :: rest =>
      '(result, _) ← result_ i;
      let count := count + 1 in
      let ok := ok && result in
      if negb ok && negb computeInfo then Ret (ok, false)
      else if total <=? count then Ret (ok, false)
      else selectLoop result_ computeInfo timeout total count ok rest
  | None :: rest =>
      if 0 <? timeout then Ret (ok, true)
      else selectLoop result_ computeInfo timeout total count ok rest
  end.

(** The pointers in [longest], each once, with what they point to. *)
Fixpoint pointers (longest : Longest) : list (nat * list Z) :=
  match longest with
  | [] => []
  | None :: rest => pointers rest
  | Some (ptr, seq) :: rest => (ptr, seq) :: filter (λ p, p.1 ≠ ptr) (pointers rest)
  end.

Fixpoint allLongest model sched (fuel : nat) history (i : nat) (subs : list (list entry)) :
    outcome (list Longest) :=
  match subs with
  | [] => Ret []
  | _ :: subs =>
      '(_, longest) ← run model (kills sched i) fuel history true i;
      rest ← allLongest model sched fuel history (Datatypes.S i) subs;
      Ret (longest :: rest)
  end.

Definition checkParallel model sched (fuel : nat) history (computeInfo : bool) (timeout : Z) :
    outcome (CheckResult * linearizationInfo) :=
  '(ok, timedOut) ← selectLoop (run model (λ _, false) fuel history computeInfo) computeInfo timeout
                      (zlen history) 0 true (arrivals sched);
  info ← if computeInfo
         then longest ← allLongest model sched fuel history 0 history;
              Ret (mkInfo history ((λ l, visit sched (pointers l).*2) <$> longest))
         else Ret (mkInfo [] []);
  Ret (if negb ok then Illegal else if timedOut : bool then Unknown else Ok, info).

Definition checkEvents model sched (fuel : nat) (history : list (Event I O)) (verbose : bool) (timeout : Z) :
    outcome (CheckResult * linearizationInfo) :=
  let model := fillDefault model in
  match PartitionEvent model with
  | None => Panic
  | Some partition =>
      let l := (λ subhistory, convertEntries (renumber subhistory)) <$> partition history in
      checkParallel model sched fuel l verbose timeout
  end.

Definition checkOperations model sched (fuel : nat) (history : list (Operation I O)) (verbose : bool) (timeout : Z) :
    outcome (CheckResult * linearizationInfo) :=
  let model := fillDefault model in
  match Partition model with
  | None => Panic
  | Some partition =>
      let l := makeEntries <$> partition history in
      checkParallel model sched fuel l verbose timeout
  end.

Definition CheckOperations model sched fuel (history : list (Operation I O)) : outcome bool :=
  '(res, _) ← checkOperations model sched fuel history false 0;
  Ret (bool_decide (res = Ok)).

Definition CheckOperationsTimeout model sched fuel (history : list (Operation I O)) (timeout : Z) : outcome CheckResult :=
  '(res, _) ← checkOperations model sched fuel history false timeout;
  Ret res.

Definition CheckOperationsVerbose model sched fuel (history : list (Operation I O)) (timeout : Z) :
    outcome (CheckResult * linearizationInfo) :=
  checkOperations model sched fuel history true timeout.

Definition CheckEvents model sched fuel (history : list (Event I O)) : outcome bool :=
  '(res, _) ← checkEvents model sched fuel history false 0;
  Ret (bool_decide (res = Ok)).

Definition CheckEventsTimeout model sched fuel (history : list (Event I O)) (timeout : Z) : outcome CheckResult :=
  '(res, _) ← checkEvents model sched fuel history false timeout;
  Ret res.

Definition CheckEventsVerbose model sched fuel (history : list (Event I O)) (timeout : Z) :
    outcome (CheckResult * linearizationInfo) :=
  checkEvents model sched fuel history true timeout.
End check.

(** ** The select loop *)

Section select.
Context (result_ : nat → outcome (bool * Longest)) (total : nat).
Implicit Types (arr : list (option nat)) (seen : list nat) (ok : bool) (computeInfo : bool).

(** The goroutines whose results arrive. *)
Definition received arr : list nat := omap id arr.

(** When all results arrive and no timeout does, the loop is left. *)
Lemma selectLoop_total computeInfo timeout seen count ok arr :
  (∀ i, (i < total)%nat → ∃ b l, result_ i = Ret (b, l)) → ((0 <? timeout) = true → None ∉ arr) →
  seen ++ received arr ≡ₚ seq 0 total → count = zlen seen → (length seen < total)%nat →
  ∃ ok', selectLoop result_ computeInfo timeout (Z.of_nat total) count ok arr = Ret (ok', false).
Proof.
  intros Hres. revert seen count ok. induction arr as [|[i|] arr IH]; intros seen count ok Ht Hp -> Hlt; cbn [selectLoop].
  - apply Permutation_length in Hp. rewrite app_nil_r, length_seq in Hp. lia.
  - change (received (Some i :: arr)) with ([i] ++ received arr) in Hp.
    destruct (Hres i) as (b & l & ->).
    { assert (i ∈ seq 0 total) as Hi by (rewrite <- Hp; set_solver). apply elem_of_seq in Hi. lia. }
    cbn [mbind outcome_bind]. destruct (negb (ok && b) && negb computeInfo); [by eexists|].
    destruct (Z.leb_spec (Z.of_nat total) (zlen seen + 1)); [by eexists|].
    apply (IH (seen ++ [i])); [intros; set_solver|by rewrite <- app_assoc|autorewrite with zlen; lia|].
    unfold zlen in *. rewrite length_app. cbn. lia.
  - destruct (0 <? timeout); [exfalso; apply Ht; [done|constructor]|]. by apply (IH seen).
Qed.

Context (P : nat → Prop) (HP : ∀ i b l, result_ i = Ret (b, l) → (b = true ↔ P i)).

(** Any answer but [Unknown] is right, whatever arrives. *)
Lemma selectLoop_sound computeInfo timeout seen count ok arr ok' timedOut :
  NoDup (seen ++ received arr) → (∀ i, i ∈ seen ++ received arr → (i < total)%nat) →
  count = zlen seen → (ok = true → ∀ i, i ∈ seen → P i) → (ok = false → ∃ i, (i < total)%nat ∧ ¬ P i) →
  selectLoop result_ computeInfo timeout (Z.of_nat total) count ok arr = Ret (ok', timedOut) →
  (ok' = false → ∃ i, (i < total)%nat ∧ ¬ P i) ∧
  (ok' = true → timedOut = false → ∀ i, (i < total)%nat → P i).
Proof.
  revert seen count ok. induction arr as [|[i|] arr IH]; intros seen count ok Hd Hlt -> Hok Hno; cbn [selectLoop]; [done|..].
  2: { destruct (0 <? timeout); [intros [= <- <-]; done|]. by apply (IH seen). }
  intros ([b l] & Hr & H)%bind_Ret. apply HP in Hr as Hb. change (received (Some i :: arr)) with ([i] ++ received arr) in Hd, Hlt.
  rewrite app_assoc in Hd, Hlt.
  assert (zlen seen + 1 = zlen (seen ++ [i])) as Hc by (autorewrite with zlen; lia). rewrite Hc in H.
  assert ((ok && b = true → ∀ j, j ∈ seen ++ [i] → P j) ∧ (ok && b = false → ∃ j, (j < total)%nat ∧ ¬ P j)) as [Hok' Hno'].
  { split.
    - intros [-> ->]%andb_true_iff j [Hj| ->%list_elem_of_singleton]%elem_of_app; [by apply Hok|by apply Hb].
    - intros [->| ->]%andb_false_iff; [by apply Hno|]. exists i. split; [apply Hlt; set_solver|].
      intros ?%Hb. done. }
  destruct (negb (ok && b) && negb computeInfo) eqn:E; [|destruct (Z.leb_spec (Z.of_nat total) (zlen (seen ++ [i])))].
  - injection H as <- <-. apply andb_true_iff in E as [E%negb_true_iff _]. rewrite E. split; [auto|done].
  - injection H as <- <-. split; [done|]. intros Hb' _ j Hj. apply (Hok' Hb').
    apply NoDup_app in Hd as (Hd & _ & _). apply dec_stable. intros Hnj.
    assert ((j :: seen ++ [i]) ⊆+ seq 0 total) as Hsub%submseteq_length.
    { apply NoDup_submseteq; [by constructor|]. intros x [->|Hx]%elem_of_cons; apply elem_of_seq; [lia|].
      assert (x < total)%nat by (apply Hlt; set_solver). lia. }
    rewrite length_seq in Hsub. unfold zlen in *. cbn in Hsub. lia.
  - exact (IH (seen ++ [i]) _ _ Hd Hlt eq_refl Hok' Hno' H).
Qed.
End select.

(** ** The answers *)

Section answers.
Context {I O S : Type} `{EqDecision S} {TS : TimeSort I O}.
Context (model : Model I O S) (eqb : S → S → bool) (Heq : Equal model = Some eqb) {EO : EqualOk model eqb}.
Local Abbreviation entry := (entry I O).
Implicit Types (history : list (list entry)) (sched : Schedule).

Definition searchable (es : list entry) : Prop := wfEntries es ∧ numbered es.

Lemma verdict_canFinish es b longest :
  wfEntries es → verdict model es b longest → (b = true ↔ canFinish model es (Init model)).
Proof.
  intros Hwf Hv. destruct b; cbn in Hv.
  - destruct Hv as (ids & ptr & Hl & _). split; [|done]. intros _. apply path_linearization; eauto.
  - destruct Hv as [Hn _]. by split.
Qed.

Lemma checkSingle_result fuel es computeInfo b longest :
  searchable es → checkSingle model (λ _, false) fuel es computeInfo = Ret (b, longest) → verdict model es b longest.
Proof.
  intros [Hwf Hnum] Hc. destruct (checkSingle_decides model eqb Heq es computeInfo Hwf Hnum) as (b' & lg & Hv & k & Hk).
  specialize (Hk (max k fuel) ltac:(lia)). unfold checkSingle in *. apply bind_Ret in Hc as ([st hd] & Hs & Hc).
  rewrite Hs in Hk. cbn [mbind outcome_bind] in Hk.
  apply (loop_more _ _ _ _ (max k fuel)) in Hc; [|lia]. rewrite Hc in Hk. by injection Hk as -> ->.
Qed.

Lemma run_verdict fuel history computeInfo i b longest :
  Forall searchable history → run model (λ _, false) fuel history computeInfo i = Ret (b, longest) →
  ∃ es, history !! i = Some es ∧ verdict model es b longest.
Proof.
  intros Hs. unfold run. destruct (history !! i) as [es|] eqn:Hi; [|done]. intros Hc. exists es. split; [done|].
  rewrite Forall_lookup in Hs. by eapply checkSingle_result; [eapply Hs|].
Qed.

Lemma runs_end history computeInfo :
  Forall searchable history →
  ∃ k, ∀ fuel i, (k <= fuel)%nat → (i < length history)%nat →
    ∃ b l, run model (λ _, false) fuel history computeInfo i = Ret (b, l).
Proof.
  intros Hs. assert (∃ k, ∀ fuel es, (k <= fuel)%nat → es ∈ history →
    ∃ b l, checkSingle model (λ _, false) fuel es computeInfo = Ret (b, l)) as [k Hk].
  { induction Hs as [|es history [Hwf Hnum] _ [k IH]]; [exists 0%nat; intros ? ? _ ?%elem_of_nil; done|].
    destruct (checkSingle_decides model eqb Heq es computeInfo Hwf Hnum) as (b & lg & _ & k' & Hk').
    exists (max k k'). intros fuel es' Hf [->|He]%elem_of_cons; [exists b, lg; apply Hk'; lia|apply IH; [lia|done]]. }
  exists k. intros fuel i Hf Hi. unfold run. destruct (lookup_lt_is_Some_2 history i Hi) as [es Hes]. rewrite Hes.
  apply Hk; [done|by eapply list_elem_of_lookup_2].
Qed.

(** What the goroutines are asked. *)
Definition partOk history (i : nat) : Prop := ∃ es, history !! i = Some es ∧ canFinish model es (Init model).

Lemma partOk_all history : (∀ i, (i < length history)%nat → partOk history i) ↔ Forall (λ es, canFinish model es (Init model)) history.
Proof.
  rewrite Forall_lookup. split.
  - intros Hall i es Hi. destruct (Hall i) as (es' & Hi' & ?); [by eapply lookup_lt_Some|]. congruence.
  - intros Hall i Hi. destruct (lookup_lt_is_Some_2 history i Hi) as [es Hes]. exists es. eauto.
Qed.

Lemma run_partOk fuel history computeInfo i b l :
  Forall searchable history → run model (λ _, false) fuel history computeInfo i = Ret (b, l) →
  (b = true ↔ partOk history i).
Proof.
  intros Hs Hr. destruct (run_verdict _ _ _ _ _ _ Hs Hr) as (es & Hi & Hv).
  rewrite Forall_lookup in Hs. rewrite (verdict_canFinish es b l); [|by eapply Hs|done].
  unfold partOk. rewrite Hi. naive_solver.
Qed.

(** A schedule in which each partition's result arrives at most once. *)
Definition plausible sched (total : nat) : Prop :=
  NoDup (received (arrivals sched)) ∧ ∀ i, i ∈ received (arrivals sched) → (i < total)%nat.

(** A schedule in which all results arrive, and no timeout when there is one;
    then no goroutine that is waited for sees the kill flag. *)
Definition complete sched (computeInfo : bool) (timeout : Z) (total : nat) : Prop :=
  received (arrivals sched) ≡ₚ seq 0 total ∧ ((0 <? timeout) = true → None ∉ arrivals sched) ∧
  (computeInfo = true → ∀ i k, kills sched i k = false).

Lemma checkParallel_sound sched fuel history computeInfo timeout r info :
  Forall searchable history → plausible sched (length history) →
  checkParallel model sched fuel history computeInfo timeout = Ret (r, info) →
  (r = Ok → Forall (λ es, canFinish model es (Init model)) history) ∧
  (r = Illegal → ¬ Forall (λ es, canFinish model es (Init model)) history).
Proof.
  intros Hs [Hd Hlt] Hc. unfold checkParallel in Hc. apply bind_Ret in Hc as ([ok timedOut] & Hsel & Hc).
  apply bind_Ret in Hc as (info' & _ & [= <- _]).
  destruct (selectLoop_sound (run model (λ _, false) fuel history computeInfo) (length history) (partOk history)
    ltac:(intros; by eapply run_partOk) computeInfo timeout [] 0 true (arrivals sched) ok timedOut) as [Hno Hyes]; try done.
  { intros _ i ?%elem_of_nil. done. }
  rewrite <- partOk_all. split.
  - destruct ok, timedOut; try done. intros _. by apply Hyes.
  - destruct ok; [by destruct timedOut|]. intros _ Hall. destruct (Hno eq_refl) as (i & Hi & Hn). by apply Hn, Hall.
Qed.

Lemma pointers_in (longest : Longest) seq :
  seq ∈ (pointers longest).*2 → ∃ j ptr, longest !! j = Some (Some (ptr, seq)).
Proof.
  intros ([ptr seq'] & -> & Hp)%list_elem_of_fmap. cbn.
  assert (Some (ptr, seq') ∈ longest) as [j Hj]%list_elem_of_lookup; [|eauto].
  induction longest as [|[[ptr2 seq2]|] longest IH]; cbn in Hp; [by apply elem_of_nil in Hp|..].
  - apply elem_of_cons in Hp as [[= <- <-]|[_ Hp]%list_elem_of_filter]; [by constructor|constructor; auto].
  - constructor. auto.
Qed.

(** Every list of ids in [longest] can be executed. *)
Lemma verdict_partial es b longest j ptr seq :
  wfEntries es → verdict model es b longest → longest !! j = Some (Some (ptr, seq)) →
  ∃ l' s', path model es (Init model) seq l' s'.
Proof.
  intros Hwf Hv Hj. destruct b; cbn in Hv.
  - destruct Hv as (ids & ptr' & Hl & ->). apply lookup_replicate in Hj as [[= _ ->] _].
    apply linearization_is_path in Hl as [s' Hl]; [|done]. eauto.
  - destruct Hv as [_ [_ Hv]]. destruct (Hv _ _ _ Hj) as [_ Hp]. by rewrite cellsOf_snd in Hp.
Qed.

Lemma allLongest_spec sched fuel history i subs :
  (∀ j k, kills sched j k = false) → Forall searchable history →
  (∀ j, (j < length history)%nat → ∃ b l, run model (λ _, false) fuel history true j = Ret (b, l)) →
  (i + length subs = length history)%nat →
  ∃ ls, allLongest model sched fuel history i subs = Ret ls ∧ length ls = length subs ∧
    ∀ j lg, ls !! j = Some lg → ∃ b es, history !! (i + j)%nat = Some es ∧ verdict model es b lg.
Proof.
  intros Hk Hs Hend. revert i. induction subs as [|sub subs IH]; intros i Hl; cbn [allLongest].
  { by exists []. }
  cbn in Hl. assert (run model (kills sched i) fuel history true i = run model (λ _, false) fuel history true i) as ->.
  { unfold run. destruct (history !! i); [|done]. by apply checkSingle_ext. }
  destruct (Hend i) as (b & l & Hr); [lia|]. rewrite Hr. cbn [mbind outcome_bind].
  destruct (IH (Datatypes.S i)) as (ls & -> & Hlen & Hls); [lia|]. cbn [mbind outcome_bind].
  exists (l :: ls). split; [done|]. split; [cbn; by rewrite Hlen|]. intros [|j] lg Hj.
  - injection Hj as <-. destruct (run_verdict _ _ _ _ _ _ Hs Hr) as (es & Hi & Hv). rewrite Nat.add_0_r. eauto.
  - rewrite Nat.add_succ_r. by apply (Hls j).
Qed.

(** The information has one set of partial linearizations for each partition,
    and these can be executed. *)
Definition infoOk history (info : linearizationInfo I O) : Prop :=
  info_history info = history ∧ length (partialLinearizations info) = length history ∧
  ∀ i es ps p, history !! i = Some es → partialLinearizations info !! i = Some ps → p ∈ ps →
    ∃ l' s', path model es (Init model) p l' s'.

Lemma checkParallel_total sched history computeInfo timeout :
  Forall searchable history → history ≠ [] → complete sched computeInfo timeout (length history) →
  (∀ l, visit sched l ⊆ l) →
  ∃ k, ∀ fuel, (k <= fuel)%nat →
    ∃ r info, checkParallel model sched fuel history computeInfo timeout = Ret (r, info) ∧
      r ≠ Unknown ∧ (computeInfo = true → infoOk history info).
Proof.
  intros Hs Hne (Hp & Ht & Hk) Hv. destruct (runs_end history computeInfo Hs) as [k Hend].
  exists k. intros fuel Hf. specialize (Hend fuel).
  destruct (selectLoop_total (run model (λ _, false) fuel history computeInfo) (length history)
    computeInfo timeout [] 0 true (arrivals sched)) as [ok Hok]; try done; [auto|destruct history; [done|cbn; lia]|].
  unfold checkParallel. fold (zlen history) in Hok. rewrite Hok. cbn [mbind outcome_bind].
  destruct computeInfo.
  - destruct (allLongest_spec sched fuel history 0 history) as (ls & -> & Hlen & Hls); [auto|done|auto|done|].
    cbn [mbind outcome_bind]. eexists _, _. split; [done|]. split; [by destruct ok|]. intros _.
    split; [done|]. split; [cbn; by rewrite length_fmap|].
    intros i es ps p Hi Hps Hin. cbn in Hps. rewrite list_lookup_fmap in Hps.
    destruct (ls !! i) as [lg|] eqn:Hlg; [|done]. injection Hps as <-. apply Hv in Hin.
    destruct (Hls _ _ Hlg) as (b & es' & Hi' & Hver). cbn in Hi'. rewrite Hi in Hi'. injection Hi' as <-.
    apply pointers_in in Hin as (j & ptr & Hj). rewrite Forall_lookup in Hs.
    eapply verdict_partial; [by apply (Hs _ _ Hi)|done|done].
  - cbn [mbind outcome_bind]. eexists _, _. split; [done|]. by destruct ok.
Qed.
End answers.

(** ** The exported functions *)

Section exported.
Context {I O S : Type} `{EqDecision S} {TS : TimeSort I O} (model : Model I O S).
Context {EO : EqualOk model (default ShallowEqual (Equal model))}.
Implicit Types (sched : Schedule).

#[local] Instance fillDefault_ok : EqualOk (fillDefault model) (default ShallowEqual (Equal model)).
Proof.
  refine {| sim := sim model (default ShallowEqual (Equal model)) |}.
  - exact (sim_equal model (default ShallowEqual (Equal model))).
  - exact (sim_step model (default ShallowEqual (Equal model))).
Defined.

Definition partitions (history : list (Operation I O)) : list (list (Operation I O)) :=
  default NoPartition (Partition model) history.
Definition eventPartitions (history : list (Event I O)) : list (list (Event I O)) :=
  default NoPartitionEvent (PartitionEvent model) history.

Lemma searchable_operations parts :
  Forall wellTimed parts → Forall searchable (makeEntries <$> parts : list (list (entry I O))).
Proof.
  intros Hw. apply Forall_fmap. eapply Forall_impl; [exact Hw|]. intros p Hp. split; [by apply es_wf|apply es_numbered].
Qed.

Lemma linearizable_operations parts :
  Forall wellTimed parts →
  Forall (λ es, canFinish (fillDefault model) es (Init model)) (makeEntries <$> parts) ↔
  Forall (linearizable model) parts.
Proof.
  intros Hw. rewrite Forall_fmap, !Forall_forall. rewrite Forall_forall in Hw.
  split; intros Hall p Hp; apply (entries_linearizable (fillDefault model) p (Hw _ Hp)), Hall; done.
Qed.

(** Every answer is right, with a timeout too. *)
Lemma answers_sound parts sched fuel verbose timeout r info :
  Forall wellTimed parts → plausible sched (length parts) →
  checkParallel (fillDefault model) sched fuel (makeEntries <$> parts) verbose timeout = Ret (r, info) →
  (r = Ok → Forall (linearizable model) parts) ∧ (r = Illegal → ¬ Forall (linearizable model) parts).
Proof.
  intros Hw Hp Hr. rewrite <- (linearizable_operations parts Hw).
  refine (checkParallel_sound (fillDefault model) _ eq_refl _ _ _ _ _ _ _ (searchable_operations _ Hw) _ Hr).
  by rewrite length_fmap.
Qed.

Lemma complete_plausible sched verbose timeout total : complete sched verbose timeout total → plausible sched total.
Proof.
  intros [Hc _]. split; [rewrite Hc; apply NoDup_seq|]. intros i. rewrite Hc, elem_of_seq. lia.
Qed.

Lemma check_operations_total sched history verbose timeout :
  Forall wellTimed (partitions history) → partitions history ≠ [] →
  complete sched verbose timeout (length (partitions history)) → (∀ l, visit sched l ⊆ l) →
  ∃ k, ∀ fuel, (k <= fuel)%nat →
    ∃ r info, checkOperations model sched fuel history verbose timeout = Ret (r, info) ∧
      (r = Ok ↔ Forall (linearizable model) (partitions history)) ∧
      (r = Illegal ↔ ¬ Forall (linearizable model) (partitions history)) ∧
      (verbose = true → infoOk (fillDefault model) (makeEntries <$> partitions history) info).
Proof.
  intros Hw Hne Hc Hv.
  destruct (checkParallel_total (fillDefault model) _ eq_refl sched (makeEntries <$> partitions history) verbose timeout)
    as [k Hk]; [by apply searchable_operations|by intros ?%fmap_nil_inv|by rewrite length_fmap|done|].
  exists k. intros fuel Hf. destruct (Hk fuel Hf) as (r & info & Hr & Hu & Hi). exists r, info.
  split; [exact Hr|]. destruct (answers_sound _ _ _ _ _ _ _ Hw (complete_plausible _ _ _ _ Hc) Hr) as [Hok Hill].
  destruct r; [done|naive_solver..].
Qed.

(** C22. For any model whose [Equal] identifies only states that accept the same
    operations, and a history that the model partitions into at least one part (with none
    the checker blocks, finding checker.go:292) in which operations return after they are
    called: if all results arrive and no timeout fires (otherwise the answer can be
    [Unknown]), the checker terminates with [Ok] exactly when every partition is
    linearizable and with [Illegal] otherwise, and the partial linearizations it reports
    can be executed. *)
Theorem check_operations_correct sched history verbose timeout :
  Forall wellTimed (partitions history) → partitions history ≠ [] →
  complete sched verbose timeout (length (partitions history)) → (∀ l, visit sched l ⊆ l) →
  ∃ k, ∀ fuel, (k <= fuel)%nat →
    ∃ r info, checkOperations model sched fuel history verbose timeout = Ret (r, info) ∧
      (r = Ok ↔ Forall (linearizable model) (partitions history)) ∧
      (r = Illegal ↔ ¬ Forall (linearizable model) (partitions history)) ∧
      (verbose = true → infoOk (fillDefault model) (makeEntries <$> partitions history) info).
Proof. apply check_operations_total. Qed.

(** When a timeout may come first, an answer other than [Unknown] is still
    right, on every schedule. *)
Theorem check_timeout_sound sched fuel history timeout r :
  Forall wellTimed (partitions history) → plausible sched (length (partitions history)) →
  CheckOperationsTimeout model sched fuel history timeout = Ret r →
  (r = Ok → Forall (linearizable model) (partitions history)) ∧
  (r = Illegal → ¬ Forall (linearizable model) (partitions history)).
Proof.
  intros Hw Hp ([r' info] & Hr & [= <-])%bind_Ret. exact (answers_sound _ _ _ _ _ _ _ Hw Hp Hr).
Qed.

(** *** Events *)

(** An event history is well formed when each id has one call event and one
    later return event, and linearizable when its operations are. *)
Definition wfEvents (history : list (Event I O)) : Prop := wfEntries (convertEntries history).
Definition linearizableEvents (history : list (Event I O)) : Prop :=
  ∃ ids, linearization model (convertEntries history) (Init model) ids.

Lemma searchable_events parts :
  Forall wfEvents parts →
  Forall searchable ((λ p, convertEntries (renumber p)) <$> parts) ∧
  (Forall (λ es, canFinish (fillDefault model) es (Init model)) ((λ p, convertEntries (renumber p)) <$> parts) ↔
   Forall linearizableEvents parts).
Proof.
  intros Hw. rewrite Forall_forall in Hw. rewrite !Forall_fmap, !Forall_forall. split.
  - intros p Hp. destruct (renumbered_entries (fillDefault model) p (Init model) (Hw p Hp)) as (? & ? & _). by split.
  - assert (∀ p, p ∈ parts → canFinish (fillDefault model) (convertEntries (renumber p)) (Init model) ↔ linearizableEvents p) as Heq.
    { intros p Hp. destruct (renumbered_entries (fillDefault model) p (Init model) (Hw p Hp)) as (_ & _ & ->).
      apply (path_linearization (fillDefault model)). by apply Hw. }
    split; intros Hall p Hp; by apply Heq, Hall.
Qed.

(** The same for histories of events, whose ids may be any numbers. *)
Theorem check_events_correct sched history :
  Forall wfEvents (eventPartitions history) → eventPartitions history ≠ [] →
  complete sched false 0 (length (eventPartitions history)) → (∀ l, visit sched l ⊆ l) →
  ∃ k, ∀ fuel, (k <= fuel)%nat →
    ∃ b, CheckEvents model sched fuel history = Ret b ∧
      (b = true ↔ Forall linearizableEvents (eventPartitions history)).
Proof.
  intros Hw Hne Hc Hv. destruct (searchable_events _ Hw) as [Hs Hlin].
  destruct (checkParallel_total (fillDefault model) _ eq_refl sched _ false 0 Hs)
    as [k Hk]; [by intros ?%fmap_nil_inv|by rewrite length_fmap|done|].
  exists k. intros fuel Hf. destruct (Hk fuel Hf) as (r & info & Hr & Hu & _). exists (bool_decide (r = Ok)).
  change (checkEvents model sched fuel history false 0 = Ret (r, info)) in Hr.
  split; [unfold CheckEvents; by rewrite Hr|].
  change (checkParallel (fillDefault model) sched fuel ((λ p, convertEntries (renumber p)) <$> eventPartitions history)
    false 0 = Ret (r, info)) in Hr.
  destruct (checkParallel_sound (fillDefault model) _ eq_refl _ _ _ _ _ _ _ Hs
    ltac:(rewrite length_fmap; by eapply complete_plausible) Hr) as [Hok Hill].
  rewrite Hlin in Hok, Hill. rewrite bool_decide_eq_true. destruct r; [done|naive_solver..].
Qed.
End exported.
