(* ===== verification/PorcVisual.v ===== *)
(** * PorcVisual: the data of the visualization

    [computeVisualizationData] of [src/src/porcupine/visualization.go].  It
    executes every partial linearization again and panics when the model
    refuses a step; [visual_total] says that this never happens to what the
    verbose check reports.  [describeOperation] and [describeState] are the
    model's functions of these names; [sort.Slice] is any function that permutes
    ([LengthSort]).  JSON and the HTML template are left out. *)

From S2P Require Import Prelude PorcModel PorcList PorcPath PorcSearch PorcHistory PorcEvents PorcCheck.
Local Open Scope Z_scope.

Record historyElement := mkHistoryElement {
  he_ClientId : Z; he_Start : Z; he_End : Z; he_Description : string
}.
Record linearizationStep := mkLinearizationStep { ls_Index : Z; ls_StateDescription : string }.
Record partitionVisualizationData := mkPartitionData {
  pv_History : list historyElement;
  pv_PartialLinearizations : list (list linearizationStep);
  pv_Largest : gmap Z Z;
}.

(** [sort.Slice(partials, longer first)]. *)
Class LengthSort := {
  sortLonger : list (list Z) → list (list Z);
  sortLonger_perm l : sortLonger l ≡ₚ l;
  sortLonger_sorted l : StronglySorted (λ a b, length b <= length a)%nat (sortLonger l);
}.

Section visual.
Context {I O S : Type} `{EqDecision S} {TS : TimeSort I O} {LS : LengthSort}.
Context (describeOperation : I → O → string) (describeState : S → string).
Local Abbreviation Model := (Model I O S).
Local Abbreviation entry := (entry I O).
Implicit Types (model : Model) (es pre post : list entry) (c r e : entry) (hist : list historyElement).

(** [callValue[id]]: a missing key gives [nil], on which the type assertion of
    the model's functions panics. *)
Definition inputAt (callValue : gmap Z (I + O)) (id : Z) : outcome I :=
  match callValue !! id with Some v => asInput v | None => Panic end.
Definition outputAt (returnValue : gmap Z (I + O)) (id : Z) : outcome O :=
  match returnValue !! id with Some v => asOutput v | None => Panic end.

(** The loop over the entries of a partition. *)
Fixpoint historyLoop es hist (callValue returnValue : gmap Z (I + O)) :
    outcome (list historyElement * gmap Z (I + O) * gmap Z (I + O)) :=
  match es with
  | [] => Ret (hist, callValue, returnValue)
  | elem :: rest =>
      x ← slice_get hist (e_id elem);
      match e_kind elem with
      | callEntry =>
          hist ← slice_set hist (e_id elem)
                   (mkHistoryElement (e_clientId elem) (e_time elem) (he_End x) (he_Description x));
          historyLoop rest hist (<[e_id elem := e_value elem]> callValue) returnValue
      | returnEntry =>
          input ← inputAt callValue (e_id elem);
          output ← asOutput (e_value elem);
          hist ← slice_set hist (e_id elem)
                   (mkHistoryElement (he_ClientId x) (he_Start x) (e_time elem) (describeOperation input output));
          historyLoop rest hist callValue (<[e_id elem := e_value elem]> returnValue)
      end
  end.

(** The loop over one partial linearization, the [i]-th: the steps and the two
    maps of largest linearizations. *)
Fixpoint partialLoop model (callValue returnValue : gmap Z (I + O)) (i len : Z) (partial : list Z) (state : S)
    (largestIndex largestSize : gmap Z Z) : outcome (list linearizationStep * gmap Z Z * gmap Z Z) :=
  match partial with
  | [] => Ret ([], largestIndex, largestSize)
  | histId :: rest =>
      input ← inputAt callValue histId;
      output ← outputAt returnValue histId;
      let '(ok, state) := Step model state input output in
      if negb ok then Panic else
      let '(largestIndex, largestSize) :=
        if default 0 (largestSize !! histId) <? len
        then (<[histId := i]> largestIndex, <[histId := len]> largestSize)
        else (largestIndex, largestSize) in
      '(steps, largestIndex, largestSize) ←
        partialLoop model callValue returnValue i len rest state largestIndex largestSize;
      Ret (mkLinearizationStep histId (describeState state) :: steps, largestIndex, largestSize)
  end.

Fixpoint partialsLoop model (callValue returnValue : gmap Z (I + O)) (i : Z) (partials : list (list Z))
    (largestIndex largestSize : gmap Z Z) : outcome (list (list linearizationStep) * gmap Z Z * gmap Z Z) :=
  match partials with
  | [] => Ret ([], largestIndex, largestSize)
  | partial :: rest =>
      '(steps, largestIndex, largestSize) ←
        partialLoop model callValue returnValue i (zlen partial) partial (Init model) largestIndex largestSize;
      '(more, largestIndex, largestSize) ←
        partialsLoop model callValue returnValue (i + 1) rest largestIndex largestSize;
      Ret (steps :: more, largestIndex, largestSize)
  end.

Definition partitionData model es (partials : list (list Z)) : outcome partitionVisualizationData :=
  let n := zlen es / 2 in
  '(history, callValue, returnValue) ← historyLoop es (replicate (Z.to_nat n) (mkHistoryElement 0 0 0 "")) ∅ ∅;
  '(linearizations, largestIndex, _) ←
    partialsLoop model callValue returnValue 0 (sortLonger partials) ∅ ∅;
  Ret (mkPartitionData history linearizations largestIndex).

(** [info.partialLinearizations[partition]] panics when it is missing. *)
Fixpoint dataLoop model (history : list (list entry)) (partials : list (list (list Z))) :
    outcome (list partitionVisualizationData) :=
  match history, partials with
  | [], _ => Ret []
  | es :: history, ps :: partials =>
      d ← partitionData model es ps;
      ds ← dataLoop model history partials;
      Ret (d :: ds)
  | _ :: _, [] => Panic
  end.

Definition computeVisualizationData model (info : linearizationInfo I O) : outcome (list partitionVisualizationData) :=
  dataLoop (fillDefault model) (info_history info) (partialLinearizations info).

(** ** The histories *)

(** What the loop over the entries has recorded of the entries seen. *)
Record recorded es hist (callValue returnValue : gmap Z (I + O)) : Prop := {
  rec_call c : c ∈ es → isCall c → callValue !! e_id c = Some (e_value c);
  rec_return r : r ∈ es → isReturn r → returnValue !! e_id r = Some (e_value r);
  rec_start c : c ∈ es → isCall c →
    ∃ x, hist !! Z.to_nat (e_id c) = Some x ∧ he_ClientId x = e_clientId c ∧ he_Start x = e_time c;
  rec_end c r inp out : c ∈ es → r ∈ es → isCall c → isReturn r → e_id r = e_id c →
    e_value c = inl inp → e_value r = inr out →
    ∃ x, hist !! Z.to_nat (e_id r) = Some x ∧ he_End x = e_time r ∧ he_Description x = describeOperation inp out;
}.

(** A return comes after its call. *)
Lemma call_before pre r post :
  wfEntries (pre ++ r :: post) → isReturn r → ∃ c, c ∈ pre ∧ isCall c ∧ e_id c = e_id r.
Proof.
  intros Hwf Hr. destruct (wf_called _ Hwf r) as (c & Hc & Hk & Hi); [set_solver|done|].
  exists c. split; [|done]. apply elem_of_app in Hc as [|[->|Hc]%elem_of_cons]; [done|unfold isCall, isReturn in *; congruence|].
  exfalso. apply list_elem_of_split in Hc as (p1 & p2 & ->).
  pose proof (wf_answered _ Hwf) as Ha. rewrite app_comm_cons, app_assoc in Ha.
  destruct (answered_app _ c p2 Ha Hk) as (r' & Hr' & Hrk & Hri).
  assert (r' = r) as ->.
  { apply (wf_unique _ _ _ Hwf); [set_solver|set_solver|unfold isReturn in *; congruence|congruence]. }
  destruct Hwf as [Hd _ _ _ _]. apply NoDup_fmap_1, NoDup_app in Hd as (_ & _ & [Hd _]%NoDup_cons). set_solver.
Qed.

Lemma wf_split pre e post x : wfEntries (pre ++ e :: post) → x ∈ pre → x ≠ e.
Proof.
  intros [Hd _ _ _ _] Hx ->. apply NoDup_fmap_1, NoDup_app in Hd as (_ & Hd & _). apply (Hd e); set_solver.
Qed.

(** Nothing of an operation comes before its call. *)
Lemma fresh_call pre c post e : wfEntries (pre ++ c :: post) → isCall c → e ∈ pre → e_id e ≠ e_id c.
Proof.
  intros Hwf Hk He Hi. destruct (kind_cases e) as [Hek|Hek].
  - apply (wf_split _ _ _ _ Hwf He), (wf_unique _ _ _ Hwf); [set_solver|set_solver|unfold isCall in *; congruence|done].
  - apply list_elem_of_split in He as (p1 & p2 & ->). pose proof Hwf as Hwf'. rewrite <- app_assoc in Hwf'.
    destruct (call_before p1 e _ Hwf' Hek) as (c' & Hc' & Hck & Hci).
    apply (wf_split _ _ _ c' Hwf); [set_solver|].
    apply (wf_unique _ _ _ Hwf); [set_solver|set_solver|unfold isCall in *; congruence|congruence].
Qed.

Lemma recorded_call pre c post hist cv rv x :
  wfEntries (pre ++ c :: post) → (∀ e, e ∈ pre ++ c :: post → 0 <= e_id e) →
  isCall c → recorded pre hist cv rv → hist !! Z.to_nat (e_id c) = Some x →
  recorded (pre ++ [c]) (<[Z.to_nat (e_id c) := mkHistoryElement (e_clientId c) (e_time c) (he_End x) (he_Description x)]> hist)
    (<[e_id c := e_value c]> cv) rv.
Proof.
  intros Hwf Hn Hk [H1 H2 H3 H4] Hx.
  assert (∀ e, e ∈ pre → Z.to_nat (e_id c) ≠ Z.to_nat (e_id e)) as Hne.
  { intros e He Hi. apply (fresh_call _ _ _ _ Hwf Hk He).
    assert (0 <= e_id e ∧ 0 <= e_id c) as [? ?] by (split; apply Hn; set_solver). lia. }
  constructor.
  - intros c' [Hc'| ->%list_elem_of_singleton]%elem_of_app Hk'; [|by rewrite lookup_insert_eq].
    rewrite lookup_insert_ne; [by apply H1|]. intros E. by apply (fresh_call _ _ _ _ Hwf Hk Hc').
  - intros r [Hr| ->%list_elem_of_singleton]%elem_of_app Hrk; [by apply H2|unfold isCall, isReturn in *; congruence].
  - intros c' [Hc'| ->%list_elem_of_singleton]%elem_of_app Hk'.
    + rewrite list_lookup_insert_ne by (by apply Hne). by apply H3.
    + rewrite list_lookup_insert_eq by (by eapply lookup_lt_Some). by eexists.
  - intros c' r inp out Hc' Hr Hck Hrk Hri Hi Ho.
    apply elem_of_app in Hr as [Hr| ->%list_elem_of_singleton]; [|unfold isCall, isReturn in *; congruence].
    apply elem_of_app in Hc' as [Hc'| ->%list_elem_of_singleton]; [|by destruct (fresh_call _ _ _ _ Hwf Hk Hr)].
    rewrite list_lookup_insert_ne by (by apply Hne). by apply (H4 c' r inp out).
Qed.

Lemma recorded_return pre c r post hist cv rv x inp out :
  wfEntries (pre ++ r :: post) → (∀ e, e ∈ pre ++ r :: post → 0 <= e_id e) →
  isReturn r → c ∈ pre → isCall c → e_id c = e_id r → e_value c = inl inp → e_value r = inr out →
  recorded pre hist cv rv → hist !! Z.to_nat (e_id r) = Some x →
  recorded (pre ++ [r]) (<[Z.to_nat (e_id r) := mkHistoryElement (he_ClientId x) (he_Start x) (e_time r) (describeOperation inp out)]> hist)
    cv (<[e_id r := e_value r]> rv).
Proof.
  intros Hwf Hn Hk Hc Hck Hci Hinp Hout [H1 H2 H3 H4] Hx.
  assert (∀ r', r' ∈ pre → isReturn r' → e_id r' ≠ e_id r) as Hnew.
  { intros r' Hr' Hrk Hi. apply (wf_split _ _ _ _ Hwf Hr'), (wf_unique _ _ _ Hwf);
      [set_solver|set_solver|unfold isReturn in *; congruence|done]. }
  assert (hist !! Z.to_nat (e_id r) = Some x → (Z.to_nat (e_id r) < length hist)%nat) as Hlt by apply lookup_lt_Some.
  constructor.
  - intros c' [Hc'| ->%list_elem_of_singleton]%elem_of_app Hk'; [by apply H1|unfold isCall, isReturn in *; congruence].
  - intros r' [Hr'| ->%list_elem_of_singleton]%elem_of_app Hrk; [|by rewrite lookup_insert_eq].
    rewrite lookup_insert_ne; [by apply H2|]. intros E. by apply (Hnew r').
  - intros c' [Hc'| ->%list_elem_of_singleton]%elem_of_app Hk'; [|unfold isCall, isReturn in *; congruence].
    destruct (H3 c' Hc' Hk') as (x' & Hx' & ? & ?).
    destruct (decide (Z.to_nat (e_id c') = Z.to_nat (e_id r))) as [E|E].
    + rewrite E in Hx' |- *. rewrite list_lookup_insert_eq by auto. eexists. split; [done|]. by simplify_eq/=.
    + rewrite list_lookup_insert_ne by done. by exists x'.
  - intros c' r' inp' out' Hc' Hr Hck' Hrk Hri Hi Ho.
    apply elem_of_app in Hc' as [Hc'| ->%list_elem_of_singleton]; [|unfold isCall, isReturn in *; congruence].
    apply elem_of_app in Hr as [Hr| ->%list_elem_of_singleton].
    + destruct (H4 c' r' inp' out' Hc' Hr Hck' Hrk Hri Hi Ho) as (x' & ? & ?). exists x'. split; [|done].
      rewrite list_lookup_insert_ne; [done|]. intros E. apply (Hnew r' Hr Hrk).
      assert (0 <= e_id r' ∧ 0 <= e_id r) as [? ?] by (split; apply Hn; set_solver). lia.
    + rewrite list_lookup_insert_eq by auto. eexists. split; [done|]. split; [done|]. cbn.
      assert (c' = c) as -> by (apply (wf_unique _ _ _ Hwf); [set_solver|set_solver|unfold isCall in *; congruence|congruence]).
      congruence.
Qed.

Lemma historyLoop_spec pre post hist cv rv n :
  wfEntries (pre ++ post) → (∀ e, e ∈ pre ++ post → 0 <= e_id e < n) → zlen hist = n →
  recorded pre hist cv rv →
  ∃ hist' cv' rv', historyLoop post hist cv rv = Ret (hist', cv', rv') ∧ zlen hist' = n ∧
    recorded (pre ++ post) hist' cv' rv'.
Proof.
  revert pre hist cv rv. induction post as [|e post IH]; intros pre hist cv rv Hwf Hn Hl Hrec; cbn [historyLoop].
  { rewrite app_nil_r. eauto 10. }
  assert (0 <= e_id e < n) as He by (apply Hn; set_solver).
  assert (∀ e', e' ∈ pre ++ e :: post → 0 <= e_id e') as Hn' by (intros e' [? _]%Hn; done).
  destruct (slice_get_in_range hist (e_id e)) as [x Hx]; [lia|]. rewrite Hx. cbn [mbind outcome_bind].
  apply slice_get_Ret in Hx as [_ Hx].
  assert (∀ y cv' rv', recorded (pre ++ [e]) (<[Z.to_nat (e_id e) := y]> hist) cv' rv' →
    ∃ hist' cv2 rv2, (hist0 ← slice_set hist (e_id e) y; historyLoop post hist0 cv' rv') = Ret (hist', cv2, rv2) ∧
      zlen hist' = n ∧ recorded (pre ++ e :: post) hist' cv2 rv2) as Hgo.
  { intros y cv' rv' Hrec'. rewrite (proj2 (slice_set_Ret hist (e_id e) y _)) by (split; [lia|reflexivity]).
    cbn [mbind outcome_bind]. replace (pre ++ e :: post) with ((pre ++ [e]) ++ post) in * by (by rewrite <- app_assoc).
    apply IH; [done|done|unfold zlen in *; by rewrite length_insert|done]. }
  destruct (e_kind e) eqn:Hk.
  - apply Hgo. by eapply recorded_call.
  - destruct (call_before pre e post Hwf Hk) as (c & Hc & Hck & Hci).
    destruct (wf_call _ Hwf c) as [inp Hinp]; [set_solver|done|].
    destruct (wf_return _ Hwf e) as [out Hout]; [set_solver|done|].
    unfold inputAt. rewrite <- Hci, (rec_call _ _ _ _ Hrec c Hc Hck), Hinp, Hout. cbn [mbind outcome_bind asInput asOutput].
    rewrite Hci. apply Hgo. rewrite <- Hout. by eapply recorded_return.
Qed.

(** ** The partial linearizations *)

Definition indices (steps : list linearizationStep) : list Z := ls_Index <$> steps.

Lemma partialLoop_spec model cv rv i len l s ids l' s' li lz :
  path model l s ids l' s' →
  (∀ c, c ∈ l → isCall c → cv !! e_id c = Some (e_value c)) →
  (∀ r, r ∈ l → isReturn r → rv !! e_id r = Some (e_value r)) →
  ∃ steps li' lz', partialLoop model cv rv i len ids s li lz = Ret (steps, li', lz') ∧ indices steps = ids ∧
    ∀ x, (li' !! x, lz' !! x) =
      if decide (x ∈ ids ∧ default 0 (lz !! x) < len) then (Some i, Some len) else (li !! x, lz !! x).
Proof.
  intros Hp. revert li lz. induction Hp as [l s|pre c post r inp out s s1 ids l' s' _ Hk Hr Hrk Hri Hi Ho Hs _ IH];
    intros li lz Hcv Hrv.
  { exists [], li, lz. split; [done|]. split; [done|]. intros x. rewrite decide_False; [done|].
    by intros [?%elem_of_nil _]. }
  cbn [partialLoop]. unfold inputAt, outputAt. rewrite (Hcv c), <- Hri, (Hrv r), Hi, Ho by (done || set_solver).
  cbn [mbind outcome_bind asInput asOutput]. rewrite Hs, Hri. cbn [negb].
  set (lp := if default 0 (lz !! e_id c) <? len then (<[e_id c := i]> li, <[e_id c := len]> lz) else (li, lz)).
  destruct (IH lp.1 lp.2) as (steps & li' & lz' & Hl & Hst & Hmap).
  - intros c' [_ Hc']%list_elem_of_filter. by apply Hcv.
  - intros r' [_ Hr']%list_elem_of_filter. by apply Hrv.
  - assert (lp = (lp.1, lp.2)) as -> by (by destruct lp). rewrite Hl. cbn [mbind outcome_bind].
    eexists _, li', lz'. split; [done|]. split; [cbn; f_equal; exact Hst|]. intros x. rewrite Hmap. unfold lp.
    destruct (Z.ltb_spec (default 0 (lz !! e_id c)) len) as [Hlt|Hge]; cbn [fst snd].
    + destruct (decide (x = e_id c)) as [->|Hx].
      * rewrite !lookup_insert_eq. rewrite (decide_True (P := e_id c ∈ e_id c :: ids ∧ _)) by (split; [constructor|done]).
        by case_decide.
      * rewrite !lookup_insert_ne by done. apply decide_ext. rewrite elem_of_cons. naive_solver.
    + apply decide_ext. rewrite elem_of_cons. split; [naive_solver|]. intros [[->|?] ?]; [lia|done].
Qed.

(** [largestIndex] points to a longest linearization with the id. *)
Definition largestOk (partials : list (list Z)) (li lz : gmap Z Z) : Prop :=
  ∀ x, (∃ i p, li !! x = Some i ∧ lz !! x = Some (zlen p) ∧ 0 <= i ∧ partials !! Z.to_nat i = Some p ∧ x ∈ p ∧
          ∀ p', p' ∈ partials → x ∈ p' → zlen p' <= zlen p) ∨
       (li !! x = None ∧ lz !! x = None ∧ ∀ p, p ∈ partials → x ∉ p).

Lemma largestOk_snoc partials p li lz li' lz' :
  largestOk partials li lz →
  (∀ x, (li' !! x, lz' !! x) =
     if decide (x ∈ p ∧ default 0 (lz !! x) < zlen p) then (Some (zlen partials), Some (zlen p)) else (li !! x, lz !! x)) →
  largestOk (partials ++ [p]) li' lz'.
Proof.
  intros Hok Hx x. specialize (Hx x). case_decide as Hd; injection Hx as -> ->.
  - left. exists (zlen partials), p. split; [done|]. split; [done|]. split; [apply zlen_nonneg|].
    split; [unfold zlen; rewrite Nat2Z.id; by apply list_lookup_middle|]. split; [by destruct Hd|].
    intros p' [Hp'| ->%list_elem_of_singleton]%elem_of_app Hxp'; [|done].
    destruct (Hok x) as [(i & q & _ & Hz & _ & _ & _ & Hmax)|(_ & _ & Hno)]; [|by destruct (Hno p')].
    rewrite Hz in Hd. cbn in Hd. specialize (Hmax p' Hp' Hxp'). lia.
  - destruct (Hok x) as [(i & q & Hi & Hz & H0 & Hq & Hxq & Hmax)|(Hi & Hz & Hno)]; [left|right].
    + exists i, q. split; [done|]. split; [done|]. split; [done|]. split; [by apply lookup_app_l_Some|]. split; [done|].
      intros p' [Hp'| ->%list_elem_of_singleton]%elem_of_app Hxp'; [auto|]. rewrite Hz in Hd. cbn in Hd.
      destruct (Z.le_gt_cases (zlen p) (zlen q)); [done|]. exfalso. apply Hd. split; [done|lia].
    + split; [done|]. split; [done|]. intros p' [Hp'| ->%list_elem_of_singleton]%elem_of_app; [auto|].
      intros Hxp. apply Hd. split; [done|]. rewrite Hz. cbn. destruct p; [by apply elem_of_nil in Hxp|].
      autorewrite with zlen. pose proof (zlen_nonneg p). lia.
Qed.

Lemma partialsLoop_spec model cv rv es done_ partials li lz :
  (∀ p, p ∈ partials → ∃ l' s', path model es (Init model) p l' s') →
  (∀ c, c ∈ es → isCall c → cv !! e_id c = Some (e_value c)) →
  (∀ r, r ∈ es → isReturn r → rv !! e_id r = Some (e_value r)) →
  largestOk done_ li lz →
  ∃ ls li' lz', partialsLoop model cv rv (zlen done_) partials li lz = Ret (ls, li', lz') ∧
    indices <$> ls = partials ∧ largestOk (done_ ++ partials) li' lz'.
Proof.
  intros Hp Hcv Hrv. revert done_ li lz. induction partials as [|p partials IH]; intros done_ li lz Hok; cbn [partialsLoop].
  { exists [], li, lz. by rewrite app_nil_r. }
  destruct (Hp p) as (l' & s' & Hpath); [constructor|].
  destruct (partialLoop_spec model cv rv (zlen done_) (zlen p) es (Init model) p l' s' li lz Hpath Hcv Hrv)
    as (steps & li1 & lz1 & -> & Hst & Hmap). cbn [mbind outcome_bind].
  destruct (IH ltac:(intros; apply Hp; by constructor) (done_ ++ [p]) li1 lz1) as (ls & li' & lz' & Hl & Hls & Hok').
  { by eapply largestOk_snoc. }
  assert (zlen (done_ ++ [p]) = zlen done_ + 1) as E by (by autorewrite with zlen). rewrite E in Hl.
  rewrite Hl. cbn [mbind outcome_bind].
  eexists _, _, _. split; [done|]. rewrite <- app_assoc in Hok'. split; [cbn; by rewrite Hst, Hls|done].
Qed.

(** ** What is shown *)

Definition shownOperation (op : Operation I O) : historyElement :=
  mkHistoryElement (op_ClientId op) (op_Call op) (op_Return op) (describeOperation (op_Input op) (op_Output op)).

Definition shows (p : list (Operation I O)) (partials : list (list Z)) (d : partitionVisualizationData) : Prop :=
  pv_History d = shownOperation <$> p ∧
  indices <$> pv_PartialLinearizations d = sortLonger partials ∧
  ∃ lz, largestOk (sortLonger partials) (pv_Largest d) lz.

Lemma withIds_lookup k (p : list (Operation I O)) i :
  withIds k p !! i = (λ op, (k + Z.of_nat i, op)) <$> p !! i.
Proof.
  revert k i. induction p as [|op p IH]; intros k [|i]; cbn [withIds lookup list_lookup]; [done..| |].
  - cbn. by rewrite Z.add_0_r.
  - change (withIds (k + 1) p !! i = (λ op, (k + Z.of_nat (Datatypes.S i), op)) <$> p !! i).
    rewrite IH. destruct (p !! i); cbn; [|done]. do 2 f_equal. lia.
Qed.

Lemma shown_history p hist cv rv :
  wellTimed p → zlen hist = zlen p → recorded (makeEntries p) hist cv rv → hist = shownOperation <$> p.
Proof.
  intros Hw Hl Hr. apply list_eq_same_length with (length p); [by rewrite length_fmap|unfold zlen in Hl; lia|].
  intros i x y Hi Hx Hy. rewrite list_lookup_fmap in Hy. destruct (p !! i) as [op|] eqn:Hop; [|done]. injection Hy as <-.
  assert ((Z.of_nat i, op) ∈ withIds 0 p) as Hin.
  { apply list_elem_of_lookup. exists i. by rewrite withIds_lookup, Hop. }
  assert (callOf (Z.of_nat i) op ∈ makeEntries p ∧ returnOf (Z.of_nat i) op ∈ makeEntries p) as [Hc Hre]
    by (split; apply elem_of_es; eauto).
  destruct (rec_start _ _ _ _ Hr _ Hc) as (x1 & Hx1 & H1 & H2); [done|].
  destruct (rec_end _ _ _ _ Hr _ _ (op_Input op) (op_Output op) Hc Hre) as (x2 & Hx2 & H3 & H4); [done..|].
  cbn in Hx1, Hx2. rewrite Nat2Z.id, Hx in Hx1. rewrite Nat2Z.id, Hx in Hx2. injection Hx1 as <-. injection Hx2 as <-.
  destruct x. cbn in *. by subst.
Qed.

Lemma partitionData_spec model p partials :
  wellTimed p → (∀ q, q ∈ partials → ∃ l' s', path model (makeEntries p) (Init model) q l' s') →
  ∃ d, partitionData model (makeEntries p) partials = Ret d ∧ shows p partials d.
Proof.
  intros Hw Hp. unfold partitionData. set (n := zlen (makeEntries p) / 2).
  assert (n = zlen p) as Hn by (unfold n; rewrite es_length, Z.mul_comm, Z.div_mul; done).
  destruct (historyLoop_spec [] (makeEntries p) (replicate (Z.to_nat n) (mkHistoryElement 0 0 0 "")) ∅ ∅ n)
    as (hist & cv & rv & -> & Hl & Hrec).
  - by apply es_wf.
  - apply es_numbered.
  - unfold zlen. rewrite length_replicate, Hn. unfold zlen. lia.
  - by constructor; intros ? ?%elem_of_nil || intros ? ? ? ? ?%elem_of_nil.
  - cbn [mbind outcome_bind app] in *.
    destruct (partialsLoop_spec model cv rv (makeEntries p) [] (sortLonger partials) ∅ ∅) as (ls & li & lz & Hps & Hls & Hok).
    + intros q. rewrite sortLonger_perm. apply Hp.
    + apply Hrec.
    + apply Hrec.
    + intros x. right. rewrite !lookup_empty. split; [done|]. split; [done|]. by intros ? ?%elem_of_nil.
    + change (zlen []) with 0 in Hps. rewrite Hps. cbn [mbind outcome_bind]. eexists. split; [done|].
      split; [|split; [done|by exists lz]]. apply (shown_history p hist cv rv); [done|congruence|done].
Qed.

Lemma dataLoop_spec model parts partials :
  Forall wellTimed parts → length partials = length parts →
  (∀ i es ps q, (makeEntries <$> parts) !! i = Some es → partials !! i = Some ps → q ∈ ps →
     ∃ l' s', path model es (Init model) q l' s') →
  ∃ ds, dataLoop model (makeEntries <$> parts) partials = Ret ds ∧ length ds = length parts ∧
    ∀ i p ps d, parts !! i = Some p → partials !! i = Some ps → ds !! i = Some d → shows p ps d.
Proof.
  intros Hw. revert partials. induction Hw as [|p parts Hp _ IH]; intros [|ps partials] Hl Hpath; try done; cbn in Hl |- *.
  { by exists []. }
  destruct (partitionData_spec model p ps Hp) as (d & -> & Hd).
  { intros q Hq. by apply (Hpath 0%nat _ ps). }
  destruct (IH partials) as (ds & Hds & Hlen & Hall); [lia|intros i; apply (Hpath (Datatypes.S i))|].
  cbn [mbind outcome_bind]. change (list_fmap _ _ makeEntries parts) with (makeEntries <$> parts). rewrite Hds.
  cbn [mbind outcome_bind]. exists (d :: ds). split; [done|]. split; [cbn; lia|].
  intros [|i] p' ps' d'; cbn; [by intros [= <-] [= <-] [= <-]|apply Hall].
Qed.

(** The visualization accepts what the verbose check reports: it does not
    panic, shows every operation as it is in the history, executes the reported
    partial linearizations, longest first, and points for every operation to a
    longest one that contains it. *)
Theorem visual_total (model : Model) {EO : EqualOk model (default ShallowEqual (Equal model))} sched history timeout :
  Forall wellTimed (partitions model history) → partitions model history ≠ [] →
  complete sched true timeout (length (partitions model history)) → (∀ l, visit sched l ⊆ l) →
  ∃ k, ∀ fuel, (k <= fuel)%nat →
    ∃ res info data, CheckOperationsVerbose model sched fuel history timeout = Ret (res, info) ∧
      computeVisualizationData model info = Ret data ∧ length data = length (partitions model history) ∧
      ∀ i p ps d, partitions model history !! i = Some p → partialLinearizations info !! i = Some ps →
        data !! i = Some d → shows p ps d.
Proof.
  intros Hw Hne Hc Hv. destruct (check_operations_total model sched history true timeout Hw Hne Hc Hv) as [k Hk].
  exists k. intros fuel Hf. destruct (Hk fuel Hf) as (res & info & Hr & _ & _ & Hinfo).
  destruct (Hinfo eq_refl) as (Hh & Hl & Hp). rewrite length_fmap in Hl.
  destruct (dataLoop_spec (fillDefault model) _ _ Hw Hl Hp) as (ds & Hds & Hlen & Hall).
  exists res, info, ds. split; [exact Hr|]. split; [|done]. unfold computeVisualizationData. by rewrite Hh.
Qed.
End visual.
