(* ===== verification/PorcKv.v ===== *)
(** * PorcKv: the key/value model of the tests

    [src/src/models/kv.go].  The tests check each key on its own: [KvModel]
    describes one key's value and its [Partition] splits a history by key.
    [kvSpec] is the whole map, with the reference operations that the servers of
    [KvServer] are proved to refine.  Checking key by key is enough
    ([kv_locality]): the linearizations of the keys are merged by giving every
    operation a point in time between its call and its return. *)

From S2P Require Import Prelude KvServer KvReplica PorcModel PorcList PorcPath PorcSearch PorcHistory PorcEvents PorcCheck.
Local Open Scope Z_scope.

(** [Op]: 0 is get, 1 is put, 2 is append. *)
Record KvInput := mkKvInput { in_Op : Z; in_Key : string; in_Value : string }.
Record KvOutput := mkKvOutput { out_Value : string }.

Abbreviation KvOperation := (Operation KvInput KvOutput).

Definition opKey (op : KvOperation) : string := in_Key (op_Input op).

(** [m[key] = append(m[key], v)] for every operation. *)
Definition groupByKey (history : list KvOperation) : gmap string (list KvOperation) :=
  foldl (λ m v, <[opKey v := default [] (m !! opKey v) ++ [v]]> m) ∅ history.

(** The keys of the map in any order, sorted: the order does not matter, since
    keys are distinct. *)
Definition sortedKeys (m : gmap string (list KvOperation)) : list string :=
  merge_sort String.le (map_to_list m).*1.

Definition kvPartition (history : list KvOperation) : list (list KvOperation) :=
  let m := groupByKey history in
  (λ k, default [] (m !! k)) <$> sortedKeys m.

Definition kvStep (st : string) (inp : KvInput) (out : KvOutput) : bool * string :=
  if in_Op inp =? 0 then (bool_decide (out_Value out = st), st)
  else if in_Op inp =? 1 then (true, in_Value inp)
  else (true, st +:+ in_Value inp).

(** [DescribeOperation], which the visualization shows. *)
Definition kvDescribe (inp : KvInput) (out : KvOutput) : string :=
  if in_Op inp =? 0 then "get('" +:+ in_Key inp +:+ "') -> '" +:+ out_Value out +:+ "'" else
  if in_Op inp =? 1 then "put('" +:+ in_Key inp +:+ "', '" +:+ in_Value inp +:+ "')" else
  if in_Op inp =? 2 then "append('" +:+ in_Key inp +:+ "', '" +:+ in_Value inp +:+ "')"
  else "<invalid>".

Definition KvModel : Model KvInput KvOutput string :=
  mkModel (Some kvPartition) None ""%string kvStep None.

(** ** The map as a whole *)

Definition toOp (inp : KvInput) : Op :=
  mkOp (if in_Op inp =? 0 then GET else if in_Op inp =? 1 then PUT else APPEND) (in_Key inp) (in_Value inp) 0 0.

Definition kvSpec : Model KvInput KvOutput (gmap string string) :=
  mkModel None None ∅
    (λ st inp out,
       (if in_Op inp =? 0 then bool_decide (out_Value out = (plainReply st (toOp inp)).2) else true,
        plainStep st (toOp inp)))
    None.

(** The map accepts a sequence exactly when every key accepts its part. *)
Lemma accepts_by_key st (h : list KvOperation) :
  accepts kvSpec st h ↔
  ∀ k, accepts KvModel (default ""%string (st !! k)) (filter (λ op, opKey op = k) h).
Proof.
  revert st. induction h as [|op h IH]; intros st; [done|]. cbn [accepts]. rewrite IH.
  set (inp := op_Input op). set (out := op_Output op).
  assert (∀ k, k ≠ opKey op → default ""%string (plainStep st (toOp inp) !! k) = default ""%string (st !! k)) as Hne.
  { intros k Hk. unfold plainStep, toOp. cbn. repeat destruct (_ =? _); cbn; rewrite ?lookup_insert_ne by done; done. }
  assert ((Step kvSpec st inp out).1 = (kvStep (default ""%string (st !! opKey op)) inp out).1 ∧
    default ""%string (plainStep st (toOp inp) !! opKey op) = (kvStep (default ""%string (st !! opKey op)) inp out).2) as [H1 H2].
  { unfold kvStep. cbn. unfold plainReply, plainStep, toOp. cbn. change (in_Key inp) with (opKey op).
    destruct (in_Op inp =? 0); cbn; [by destruct (st !! opKey op)|]. destruct (in_Op inp =? 1); cbn; by rewrite lookup_insert_eq. }
  cbn [Step kvSpec snd] in *. rewrite H1. split.
  - intros [Hok Hall] k. destruct (decide (opKey op = k)) as [<-|Hk].
    + rewrite filter_cons_True by done. split; [done|]. change (Step KvModel) with kvStep.
      fold inp out. rewrite <- H2. apply Hall.
    + rewrite filter_cons_False by done. rewrite <- Hne by done. apply Hall.
  - intros Hall. split.
    + specialize (Hall (opKey op)). rewrite filter_cons_True in Hall by done. apply Hall.
    + intros k. destruct (decide (opKey op = k)) as [<-|Hk].
      * specialize (Hall (opKey op)). rewrite filter_cons_True in Hall by done. rewrite H2. apply Hall.
      * rewrite Hne by done. specialize (Hall k). by rewrite filter_cons_False in Hall by done.
Qed.

(** ** The partition *)

Lemma groupByKey_lookup history k :
  groupByKey history !! k =
  match filter (λ op, opKey op = k) history with [] => None | l => Some l end.
Proof.
  unfold groupByKey. rewrite <- (rev_involutive history). induction (rev history) as [|op l IH]; [done|].
  cbn [rev]. rewrite foldl_app, filter_app, filter_cons, filter_nil. cbn [foldl].
  destruct (decide (opKey op = k)) as [<-|Hk].
  - rewrite lookup_insert_eq, IH. by destruct (filter _ (rev l)).
  - rewrite lookup_insert_ne, IH by done. by rewrite app_nil_r.
Qed.

Lemma elem_of_sortedKeys history k : k ∈ sortedKeys (groupByKey history) ↔ ∃ op, op ∈ history ∧ opKey op = k.
Proof.
  unfold sortedKeys. rewrite merge_sort_Permutation, list_elem_of_fmap. split.
  - intros ([k' l] & -> & Hl%elem_of_map_to_list). cbn. rewrite groupByKey_lookup in Hl.
    destruct (filter _ history) as [|op l'] eqn:E; [done|].
    assert (op ∈ op :: l') as Hop by constructor. rewrite <- E in Hop.
    apply list_elem_of_filter in Hop as [? ?]. eauto.
  - intros (op & Hop & <-). exists (opKey op, filter (λ o, opKey o = opKey op) history). split; [done|].
    apply elem_of_map_to_list. rewrite groupByKey_lookup.
    destruct (filter _ history) eqn:E; [|done].
    by apply (filter_nil_not_elem_of _ _ op) in E.
Qed.

Lemma sortedKeys_NoDup m : NoDup (sortedKeys m).
Proof. unfold sortedKeys. rewrite merge_sort_Permutation. apply NoDup_fst_map_to_list. Qed.

Lemma kvPartition_eq history :
  kvPartition history = (λ k, filter (λ op, opKey op = k) history) <$> sortedKeys (groupByKey history).
Proof.
  unfold kvPartition. apply list_fmap_ext. intros i k _. rewrite groupByKey_lookup. by destruct (filter _ history).
Qed.

(** ** Points in time *)

Abbreviation pointed := (Z * KvOperation)%type.

(** Insertion by point, before those with the same point. *)
Fixpoint insertPoint (x : pointed) (l : list pointed) : list pointed :=
  match l with
  | [] => [x]
  | y :: l' => if x.1 <=? y.1 then x :: l else y :: insertPoint x l'
  end.
Definition byPoint (l : list pointed) : list pointed := foldr insertPoint [] l.

Abbreviation pointLe := (λ x y : pointed, x.1 <= y.1).

Lemma insertPoint_perm x l : insertPoint x l ≡ₚ x :: l.
Proof.
  induction l as [|y l IH]; cbn; [done|]. destruct (x.1 <=? y.1); [done|]. rewrite IH. apply Permutation_swap.
Qed.

Lemma byPoint_perm l : byPoint l ≡ₚ l.
Proof. induction l as [|x l IH]; cbn; [done|]. by rewrite insertPoint_perm, IH. Qed.

Lemma insertPoint_sorted x l : StronglySorted pointLe l → StronglySorted pointLe (insertPoint x l).
Proof.
  induction 1 as [|y l Hs IH Hy]; cbn; [repeat constructor|]. destruct (Z.leb_spec x.1 y.1) as [Hle|Hlt].
  - constructor; [by constructor|]. constructor; [done|]. eapply Forall_impl; [done|]. cbn. lia.
  - constructor; [done|]. rewrite Forall_forall in Hy |- *. intros z. rewrite insertPoint_perm.
    intros [->|Hz]%elem_of_cons; [lia|by apply Hy].
Qed.

Lemma byPoint_sorted l : StronglySorted pointLe (byPoint l).
Proof. induction l as [|x l IH]; cbn; [constructor|by apply insertPoint_sorted]. Qed.

Lemma byPoint_id l : StronglySorted pointLe l → byPoint l = l.
Proof.
  induction 1 as [|x l Hs IH Hx]; [done|]. change (byPoint (x :: l)) with (insertPoint x (byPoint l)). rewrite IH. destruct l as [|y l]; [done|]. cbn.
  apply Forall_cons in Hx as [Hx _]. by rewrite (proj2 (Z.leb_le _ _) Hx).
Qed.

(** The sort is stable: it commutes with taking one key's operations. *)
Lemma filter_insertPoint (P : pointed → Prop) `{!∀ x, Decision (P x)} x l :
  StronglySorted pointLe l →
  filter P (insertPoint x l) = if decide (P x) then insertPoint x (filter P l) else filter P l.
Proof.
  induction 1 as [|y l Hs IH Hy]; [done|].
  cbn [insertPoint]. destruct (Z.leb_spec x.1 y.1) as [Hle|Hlt].
  - rewrite (filter_cons _ x). case_decide; [|done].
    destruct (filter P (y :: l)) as [|z fl] eqn:E; [done|]. cbn [insertPoint].
    assert (z ∈ y :: l) as Hz.
    { assert (z ∈ z :: fl) as Hz by constructor. rewrite <- E in Hz. by apply list_elem_of_filter in Hz as [_ Hz]. }
    assert (x.1 <= z.1) as Hxz.
    { apply elem_of_cons in Hz as [->|Hz]; [done|]. rewrite Forall_forall in Hy. apply Hy in Hz. lia. }
    by rewrite (proj2 (Z.leb_le _ _) Hxz).
  - rewrite !(filter_cons _ y), IH. destruct (decide (P y)), (decide (P x)); try done.
    cbn [insertPoint]. by rewrite (proj2 (Z.leb_gt _ _) Hlt).
Qed.

Lemma filter_byPoint (P : pointed → Prop) `{!∀ x, Decision (P x)} l :
  filter P (byPoint l) = byPoint (filter P l).
Proof.
  induction l as [|x l IH]; [done|]. change (byPoint (x :: l)) with (insertPoint x (byPoint l)).
  rewrite filter_insertPoint by apply byPoint_sorted. rewrite filter_cons, IH. by case_decide.
Qed.

(** The point of an operation: the latest call so far. *)
Fixpoint withPoints (t : Z) (h : list KvOperation) : list pointed :=
  match h with
  | [] => []
  | op :: h => (Z.max t (op_Call op), op) :: withPoints (Z.max t (op_Call op)) h
  end.

Lemma withPoints_snd t h : (withPoints t h).*2 = h.
Proof. revert t. induction h as [|op h IH]; intros t; cbn; [done|]. by rewrite IH. Qed.

Lemma withPoints_ge t h x : x ∈ withPoints t h → t <= x.1 ∧ op_Call x.2 <= x.1.
Proof.
  revert t. induction h as [|op h IH]; intros t; cbn; [by intros ?%elem_of_nil|].
  intros [->|Hx%IH]%elem_of_cons; cbn; lia.
Qed.

Lemma withPoints_sorted t h : StronglySorted pointLe (withPoints t h).
Proof.
  revert t. induction h as [|op h IH]; intros t; cbn; constructor; [done|].
  apply Forall_forall. intros x [? _]%withPoints_ge. done.
Qed.

(** In a linearization every operation's point comes before its return. *)
Lemma withPoints_return t h x :
  StronglySorted realTime h → wellTimed h → (∀ op, op ∈ h → t <= op_Return op) →
  x ∈ withPoints t h → x.1 <= op_Return x.2.
Proof.
  intros Hs. revert t. induction Hs as [|op h Hs IH Hop]; intros t Hw Ht; cbn; [by intros ?%elem_of_nil|].
  apply Forall_cons in Hw as [Hc Hw]. rewrite Forall_forall in Hop.
  intros [->|Hx]%elem_of_cons; cbn.
  - assert (t <= op_Return op) by (apply Ht; by constructor). lia.
  - eapply (IH (Z.max t (op_Call op))); [done| |done]. intros op' Hin.
    assert (t <= op_Return op') by (apply Ht; by constructor). specialize (Hop _ Hin). unfold realTime in Hop. lia.
Qed.

(** ** Locality *)

(** The lists of distinct keys, one after the other. *)
Lemma filter_bind_key {A} (key : A → string) (g : string → list A) (keys : list string) k :
  NoDup keys → (∀ k' x, k' ∈ keys → x ∈ g k' → key x = k') →
  filter (λ x, key x = k) (keys ≫= g) = if decide (k ∈ keys) then g k else [].
Proof.
  induction 1 as [|k' keys Hk' _ IH]; intros Hg.
  { rewrite decide_False; [done|]. by intros ?%elem_of_nil. }
  rewrite bind_cons, filter_app, IH by (intros; eapply Hg; [by constructor|done]).
  destruct (decide (k' = k)) as [->|Hne].
  - rewrite filter_all_in by (intros; eapply Hg; [by constructor|done]).
    rewrite (decide_False (P := k ∈ keys)), (decide_True (P := k ∈ k :: keys)) by (done || constructor).
    apply app_nil_r.
  - rewrite (filter_iff_in _ (λ _, False)).
    2: { intros x Hx. rewrite (Hg k' x) by (done || constructor). done. }
    assert (filter (λ _ : A, False) (g k') = []) as -> by (clear; induction (g k'); done).
    cbn. destruct (decide (k ∈ keys)) as [Hin|Hin].
    + rewrite decide_True; [done|]. by constructor.
    + rewrite decide_False; [done|]. intros [?|?]%elem_of_cons; congruence.
Qed.

Lemma bind_filter_keys {A} (key : A → string) (keys : list string) (l : list A) :
  NoDup keys → (∀ x, x ∈ l → key x ∈ keys) → keys ≫= (λ k, filter (λ x, key x = k) l) ≡ₚ l.
Proof.
  intros Hd Hl. transitivity (filter (λ x, key x ∈ keys) l); [clear Hl|by rewrite filter_all_in].
  induction Hd as [|k keys Hk _ IH]; cbn.
  { induction l as [|x l IHl]; [done|]. rewrite filter_cons_False; [done|]. by intros ?%elem_of_nil. }
  rewrite IH. clear IH. induction l as [|x l IHl]; [done|]. rewrite !filter_cons.
  destruct (decide (key x = k)) as [<-|Hx].
  - rewrite (decide_False (P := key x ∈ keys)), (decide_True (P := key x ∈ key x :: keys)) by (done || constructor).
    cbn. by rewrite IHl.
  - destruct (decide (key x ∈ keys)) as [Hin|Hin].
    + rewrite decide_True by (by constructor). rewrite <- Permutation_middle. by rewrite IHl.
    + rewrite decide_False; [done|]. intros [?|?]%elem_of_cons; congruence.
Qed.

Lemma filter_snd_key (l : list pointed) k :
  (filter (λ x, opKey x.2 = k) l).*2 = filter (λ op, opKey op = k) l.*2.
Proof.
  induction l as [|[t op] l IH]; [done|]. rewrite fmap_cons, !filter_cons. cbn. case_decide; cbn; by rewrite IH.
Qed.

Lemma call_bound (h : list KvOperation) : ∃ t, ∀ op, op ∈ h → t <= op_Call op.
Proof.
  induction h as [|op h [t IH]]; [exists 0; by intros ? ?%elem_of_nil|].
  exists (Z.min t (op_Call op)). intros op' [->|Hop%IH]%elem_of_cons; lia.
Qed.

(** Linearizations of the keys, merged. *)
Definition isLinearization (h' h : list KvOperation) : Prop :=
  h' ≡ₚ h ∧ StronglySorted realTime h' ∧ accepts KvModel (Init KvModel) h'.

Lemma choose_linearizations (history : list KvOperation) (keys : list string) :
  NoDup keys →
  (∀ k, k ∈ keys → linearizable KvModel (filter (λ op, opKey op = k) history)) →
  ∃ f, ∀ k, k ∈ keys → isLinearization (f k) (filter (λ op, opKey op = k) history).
Proof.
  induction 1 as [|k keys Hk _ IH]; intros Hl; [exists (λ _, []); by intros ? ?%elem_of_nil|].
  destruct IH as [f Hf]; [intros; apply Hl; by constructor|]. destruct (Hl k) as (h' & Hh'); [constructor|].
  exists (λ k', if decide (k' = k) then h' else f k'). intros k' [->|Hin]%elem_of_cons.
  - by rewrite decide_True.
  - rewrite decide_False by (by intros ->). by apply Hf.
Qed.

Section merge.
Context (history : list KvOperation) (Hw : wellTimed history) (keys : list string) (Hkeys : NoDup keys).
Context (Hcover : ∀ op, op ∈ history → opKey op ∈ keys).
Context (f : string → list KvOperation).
Context (Hf : ∀ k, k ∈ keys → isLinearization (f k) (filter (λ op, opKey op = k) history)).
Context (t : Z) (Ht : ∀ op, op ∈ history → t <= op_Call op).

Definition merged : list pointed := byPoint (keys ≫= λ k, withPoints t (f k)).

Lemma part_elem k op : k ∈ keys → op ∈ f k → op ∈ history ∧ opKey op = k.
Proof. intros Hk Hop. destruct (Hf k Hk) as [Hp _]. rewrite Hp, list_elem_of_filter in Hop. tauto. Qed.

Lemma merged_perm : merged.*2 ≡ₚ history.
Proof.
  unfold merged. rewrite byPoint_perm.
  etrans; [|by apply (bind_filter_keys opKey keys history)].
  clear Hcover Hkeys. induction keys as [|k ks IH]; [done|]. rewrite !bind_cons, fmap_app, withPoints_snd.
  rewrite (proj1 (Hf k ltac:(constructor))), IH; [done|]. intros; apply Hf; by constructor.
Qed.

Lemma merged_key k : filter (λ op, opKey op = k) merged.*2 = if decide (k ∈ keys) then f k else [].
Proof.
  rewrite <- filter_snd_key. unfold merged. rewrite filter_byPoint, (filter_bind_key (λ x, opKey x.2)) by
    (done || (intros k' x Hk' Hx%(list_elem_of_fmap_2 snd); rewrite withPoints_snd in Hx; by eapply part_elem)).
  case_decide; [|done]. rewrite byPoint_id by apply withPoints_sorted. apply withPoints_snd.
Qed.

Lemma merged_points x : x ∈ merged → op_Call x.2 <= x.1 <= op_Return x.2.
Proof.
  unfold merged. rewrite byPoint_perm, list_elem_of_bind. intros (k & Hx & Hk).
  destruct (Hf k Hk) as (Hp & Hs & _).
  assert (∀ op, op ∈ f k → op ∈ history) as Hsub by (intros op Hop; by eapply part_elem).
  assert (wellTimed (f k)) as Hwk.
  { unfold wellTimed in *. rewrite Forall_forall in Hw |- *. auto. }
  split; [by eapply withPoints_ge|]. eapply withPoints_return; [done|done| |done].
  intros op Hop. unfold wellTimed in Hw. rewrite Forall_forall in Hw.
  pose proof (Ht _ (Hsub _ Hop)). specialize (Hw _ (Hsub _ Hop)). cbn in Hw. lia.
Qed.

Lemma merged_linearization : linearizable kvSpec history.
Proof.
  exists merged.*2. split; [apply merged_perm|]. split.
  - assert (StronglySorted pointLe merged) as Hs by apply byPoint_sorted.
    pose proof merged_points as Hp. induction Hs as [|x l Hs IH Hx]; cbn; constructor.
    + apply IH. intros; apply Hp. by constructor.
    + apply Forall_fmap. rewrite Forall_forall in Hx |- *. intros y Hy. unfold realTime. cbn.
      pose proof (Hp x ltac:(constructor)). pose proof (Hp y ltac:(by constructor)). specialize (Hx _ Hy). cbn in Hx. lia.
  - apply accepts_by_key. intros k. rewrite merged_key. case_decide as Hk; [|done]. by destruct (Hf k Hk) as (_ & _ & ?).
Qed.
End merge.

Lemma kv_locality history :
  wellTimed history → linearizable kvSpec history ↔ Forall (linearizable KvModel) (kvPartition history).
Proof.
  intros Hw. rewrite kvPartition_eq, Forall_fmap, Forall_forall. split.
  - intros (h' & Hp & Hs & Ha) k Hk. exists (filter (λ op, opKey op = k) h'). split; [by rewrite Hp|]. split.
    + clear Hp Ha. induction Hs as [|x l Hs IH Hx]; [constructor|]. rewrite filter_cons. case_decide; [|done].
      constructor; [done|]. rewrite Forall_forall in Hx |- *. intros y [_ ?]%list_elem_of_filter. by apply Hx.
    + rewrite accepts_by_key in Ha. apply (Ha k).
  - intros Hall. destruct (choose_linearizations history _ (sortedKeys_NoDup _) Hall) as [f Hf].
    destruct (call_bound history) as [t Ht].
    eapply (merged_linearization history Hw _ (sortedKeys_NoDup (groupByKey history))); [|exact Hf|exact Ht].
    intros op Hop. apply elem_of_sortedKeys. eauto.
Qed.

(** ** The checker on the key/value model *)

#[export] Instance KvModel_ok : EqualOk KvModel (default ShallowEqual (Equal KvModel)) := ShallowEqual_ok KvModel.

Lemma kvParts_wellTimed history : wellTimed history → Forall wellTimed (partitions KvModel history).
Proof.
  intros Hw. apply Forall_forall. cbn. rewrite kvPartition_eq. intros p (k & -> & _)%list_elem_of_fmap.
  unfold wellTimed in *. rewrite Forall_forall in Hw |- *. intros op [_ ?]%list_elem_of_filter. auto.
Qed.

Lemma kvParts_nonempty history : history ≠ [] → partitions KvModel history ≠ [].
Proof.
  intros Hne. cbn. destruct history as [|op history]; [done|]. rewrite kvPartition_eq. intros E%fmap_nil_inv.
  assert (opKey op ∈ sortedKeys (groupByKey (op :: history))) as Hin by (apply elem_of_sortedKeys; eexists; split; [constructor|done]).
  rewrite E in Hin. by apply elem_of_nil in Hin.
Qed.

(** C17. The check of the tests, [CheckOperationsVerbose] with the key/value model, is
    exact on a history that is not empty and whose operations return after they are
    called: on every schedule of its goroutines, an answer [Ok] or [Illegal] is given
    only for a history that is, or is not, linearizable with respect to the map as a
    whole, the map the servers are proved to refine; and if the timeout does not come
    first, such an answer is given.  [CheckOperations], which has no timeout, answers
    [true] exactly for the linearizable ones. *)
Theorem kv_check_correct {TS : TimeSort KvInput KvOutput} history :
  wellTimed history → history ≠ [] →
  (∀ sched fuel timeout r info, plausible sched (length (kvPartition history)) →
     CheckOperationsVerbose KvModel sched fuel history timeout = Ret (r, info) →
     (r = Ok → linearizable kvSpec history) ∧ (r = Illegal → ¬ linearizable kvSpec history)) ∧
  (∀ sched timeout, complete sched true timeout (length (kvPartition history)) → (∀ l, visit sched l ⊆ l) →
     ∃ k, ∀ fuel, (k <= fuel)%nat →
       ∃ r info, CheckOperationsVerbose KvModel sched fuel history timeout = Ret (r, info) ∧ r ≠ Unknown) ∧
  (∀ sched, complete sched false 0 (length (kvPartition history)) → (∀ l, visit sched l ⊆ l) →
     ∃ k, ∀ fuel, (k <= fuel)%nat →
       ∃ b, CheckOperations KvModel sched fuel history = Ret b ∧ (b = true ↔ linearizable kvSpec history)).
Proof.
  intros Hw Hne. pose proof (kvParts_wellTimed history Hw) as Hp. pose proof (kvParts_nonempty history Hne) as Hn.
  pose proof (kv_locality history Hw) as Hloc. split_and!.
  - intros sched fuel timeout r info Hs Hr.
    destruct (answers_sound KvModel _ sched fuel true timeout r info Hp Hs Hr) as [Hok Hill].
    split; intros E; rewrite Hloc; [by apply Hok|by apply Hill].
  - intros sched timeout Hc Hv. destruct (check_operations_total KvModel sched history true timeout Hp Hn Hc Hv) as [k Hk].
    exists k. intros fuel Hf. destruct (Hk fuel Hf) as (r & info & Hr & Hok & Hill & _). exists r, info. split; [exact Hr|].
    intros ->. assert (¬ Forall (linearizable KvModel) (partitions KvModel history)) as [=]%Hill. by intros [=]%Hok.
  - intros sched Hc Hv. destruct (check_operations_total KvModel sched history false 0 Hp Hn Hc Hv) as [k Hk].
    exists k. intros fuel Hf. destruct (Hk fuel Hf) as (r & info & Hr & Hok & _).
    exists (bool_decide (r = Ok)). unfold CheckOperations. rewrite Hr. split; [done|].
    rewrite bool_decide_eq_true, Hok. by symmetry.
Qed.

(** No partition, no result: on the empty history the check waits for ever. *)
Theorem kv_check_empty_hangs {TS : TimeSort KvInput KvOutput} sched fuel :
  plausible sched 0 → CheckOperations KvModel sched fuel [] = Block.
Proof.
  intros [_ Hp]. unfold CheckOperations, checkOperations. cbn. unfold checkParallel. cbn.
  assert (∀ arr, (∀ i, i ∈ received arr → (i < 0)%nat) →
    selectLoop (run (fillDefault KvModel) (λ _, false) fuel [] false) false 0 (zlen (@nil (list (entry KvInput KvOutput)))) 0 true arr = Block) as Hb.
  { induction arr as [|[i|] arr IH]; intros Hi; cbn [selectLoop]; [done| |by apply IH].
    specialize (Hi i ltac:(by constructor)). lia. }
  rewrite Hb; [done|]. exact Hp.
Qed.
