(* ===== verification/PorcExamples.v ===== *)
(** * PorcExamples: the checker at concrete histories *)

From S2P Require Import Prelude PorcBitset PorcModel PorcList PorcPath PorcSearch PorcHistory PorcEvents PorcCheck PorcVisual PorcKv.
Local Open Scope Z_scope.

(** A sort by time, as [sort.Sort] may be. *)
Section sort.
Context {I O : Type}.
Implicit Types (a b c : entry I O).

Definition notAfter a b : Prop := Less b a = false.
#[local] Instance notAfter_dec : RelDecision notAfter.
Proof. intros a b. unfold notAfter. apply _. Defined.

Lemma notAfter_iff a b :
  notAfter a b ↔ e_time a < e_time b ∨ e_time a = e_time b ∧ (e_kind b = callEntry → e_kind a = callEntry).
Proof.
  unfold notAfter, Less. destruct (Z.eqb_spec (e_time b) (e_time a)) as [E|E]; cbn.
  - destruct (e_kind a), (e_kind b); cbn; naive_solver lia.
  - rewrite Z.ltb_ge. lia.
Qed.

#[local] Instance notAfter_trans : Transitive notAfter.
Proof. intros a b c. rewrite !notAfter_iff. intros [?|[? ?]] [?|[? ?]]; [left; lia..|]. right. split; [lia|auto]. Qed.

#[local] Instance notAfter_total : Total notAfter.
Proof.
  intros a b. rewrite !notAfter_iff. destruct (Z.lt_total (e_time a) (e_time b)) as [?|[?|?]]; [auto| |auto].
  destruct (e_kind a); [left; right; auto|]. right; right. split; [done|]. done.
Qed.

Definition mergeByTime : TimeSort I O := {|
  sortByTime := merge_sort notAfter;
  sortByTime_perm es := merge_sort_Permutation notAfter es;
  sortByTime_sorted es := StronglySorted_merge_sort notAfter es |}.
End sort.
#[local] Existing Instance mergeByTime.

Definition put (client call ret : Z) (k v : string) : KvOperation :=
  mkOperation client (mkKvInput 1 k v) call (mkKvOutput "") ret.
Definition append (client call ret : Z) (k v : string) : KvOperation :=
  mkOperation client (mkKvInput 2 k v) call (mkKvOutput "") ret.
Definition get (client call ret : Z) (k v : string) : KvOperation :=
  mkOperation client (mkKvInput 0 k "") call (mkKvOutput v) ret.

(** Results arrive in the order of the list; nobody is killed. *)
Definition inOrder (arr : list (option nat)) : Schedule := mkSchedule arr (λ _ _, false) (λ l, l).

(** Two clients on x, one on y: the get overlaps the append and sees it. *)
Definition goodHistory : list KvOperation :=
  [put 0 0 2 "x" "a"; append 1 3 9 "x" "b"; get 0 4 6 "x" "ab"; put 2 1 5 "y" "c"].

(** The put had returned before the get was called, which misses it. *)
Definition staleHistory : list KvOperation := [put 0 0 1 "x" "a"; get 1 2 3 "x" ""; put 2 0 9 "y" "c"].

Definition twoParts : Schedule := inOrder [Some 1%nat; Some 0%nat].

Example good_checks : CheckOperations KvModel twoParts 20 goodHistory = Ret true.
Proof. vm_compute. reflexivity. Qed.

Example stale_checks : CheckOperations KvModel twoParts 20 staleHistory = Ret false.
Proof. vm_compute. reflexivity. Qed.

Lemma twoParts_complete verbose : complete twoParts verbose 0 2.
Proof. split; [cbn; apply Permutation_swap|]. split; [done|]. done. Qed.

(** The stale history: the verbose check, with a timeout that does not come, says that
    it is not linearizable, and the theorem that it is right. *)
Lemma kv_check_correct_witness :
  (∃ info, CheckOperationsVerbose KvModel twoParts 20 staleHistory 1 = Ret (Illegal, info)) ∧
  ¬ linearizable kvSpec staleHistory.
Proof.
  destruct (kv_check_correct staleHistory) as (Hs & _ & _); [repeat constructor; cbn; lia|done|].
  assert (∃ info, CheckOperationsVerbose KvModel twoParts 20 staleHistory 1 = Ret (Illegal, info)) as [info Hr]
    by (eexists; vm_compute; reflexivity).
  split; [by exists info|]. apply (Hs twoParts 20%nat 1 Illegal info); [|exact Hr|reflexivity].
  split; [apply (bool_decide_unpack _); vm_compute; exact I|].
  intros i [->|[->|?%elem_of_nil]%elem_of_cons]%elem_of_cons; [vm_compute; lia..|done].
Defined.

Lemma check_timeout_sound_witness : Forall (linearizable KvModel) (partitions KvModel goodHistory).
Proof.
  refine (proj1 (check_timeout_sound KvModel (inOrder [Some 0%nat; Some 1%nat; None]) 20 goodHistory 5 Ok _ _ _) eq_refl).
  - apply (bool_decide_unpack _). vm_compute. exact I.
  - split; [apply (bool_decide_unpack _); vm_compute; exact I|].
    intros i [->|[->|?%elem_of_nil]%elem_of_cons]%elem_of_cons; [vm_compute; lia..|done].
  - vm_compute. reflexivity.
Defined.

Lemma kv_check_empty_hangs_witness : CheckOperations KvModel (inOrder []) 100 [] = Block.
Proof.
  apply (kv_check_empty_hangs (inOrder []) 100). split; [constructor|]. by intros i ?%elem_of_nil.
Defined.

(** With the partial linearizations. *)
Lemma check_operations_correct_witness :
  ∃ k, ∀ fuel, (k <= fuel)%nat →
    ∃ r info, checkOperations KvModel twoParts fuel staleHistory true 0 = Ret (r, info) ∧
      (r = Ok ↔ Forall (linearizable KvModel) (partitions KvModel staleHistory)) ∧
      (r = Illegal ↔ ¬ Forall (linearizable KvModel) (partitions KvModel staleHistory)) ∧
      (true = true → infoOk (fillDefault KvModel) (makeEntries <$> partitions KvModel staleHistory) info).
Proof.
  apply (check_operations_correct KvModel twoParts staleHistory true 0).
  - apply (bool_decide_unpack _). vm_compute. exact I.
  - done.
  - apply twoParts_complete.
  - done.
Defined.

Example stale_partials :
  (λ '(r, info), (r, partialLinearizations info)) <$> returned (checkOperations KvModel twoParts 20 staleHistory true 0) =
  Some (Illegal, [[[0]]; [[0]]]).
Proof. vm_compute. reflexivity. Qed.

(** Two overlapping operations with the ids 10 and 7. *)
Definition eventHistory : list (Event KvInput KvOutput) :=
  [mkEvent 0 CallEvent (inl (mkKvInput 1 "x" "a")) 10; mkEvent 1 CallEvent (inl (mkKvInput 0 "x" "")) 7;
   mkEvent 1 ReturnEvent (inr (mkKvOutput "a")) 7; mkEvent 0 ReturnEvent (inr (mkKvOutput "")) 10].

Lemma eventHistory_wf : wfEvents eventHistory.
Proof.
  constructor.
  - apply (bool_decide_unpack _). vm_compute. exact I.
  - cbn. split; [intros _; eexists; split; [right; right; left|]; done|]. split; [intros _; eexists; split; [left|]; done|]. done.
  - intros r Hr Hk. unfold convertEntries in *. cbn in *. rewrite !elem_of_cons in Hr.
    destruct Hr as [->|[->|[->|[->|?%elem_of_nil]]]]; try done.
    + eexists. split; [right; left|]. done.
    + eexists. split; [left|]. done.
  - intros r Hr Hk. cbn in *. rewrite !elem_of_cons in Hr.
    destruct Hr as [->|[->|[->|[->|?%elem_of_nil]]]]; try done; by eexists.
  - intros r Hr Hk. cbn in *. rewrite !elem_of_cons in Hr.
    destruct Hr as [->|[->|[->|[->|?%elem_of_nil]]]]; try done; by eexists.
Qed.

Lemma check_events_correct_witness :
  ∃ k, ∀ fuel, (k <= fuel)%nat →
    ∃ b, CheckEvents KvModel (inOrder [Some 0%nat]) fuel eventHistory = Ret b ∧
      (b = true ↔ Forall (linearizableEvents KvModel) [eventHistory]).
Proof.
  apply (check_events_correct KvModel (inOrder [Some 0%nat]) eventHistory).
  - apply Forall_singleton, eventHistory_wf.
  - done.
  - split; [done|]. split; [done|]. done.
  - done.
Defined.

Example events_check : CheckEvents KvModel (inOrder [Some 0%nat]) 20 eventHistory = Ret true.
Proof. vm_compute. reflexivity. Qed.

(** ** The visualization *)

Definition notShorter (a b : list Z) : Prop := (length b <= length a)%nat.
#[local] Instance notShorter_dec : RelDecision notShorter.
Proof. intros a b. unfold notShorter. apply _. Defined.
#[local] Instance notShorter_trans : Transitive notShorter.
Proof. intros a b c. unfold notShorter. lia. Qed.
#[local] Instance notShorter_total : Total notShorter.
Proof. intros a b. unfold notShorter. lia. Qed.

Definition mergeByLength : LengthSort := {|
  sortLonger := merge_sort notShorter;
  sortLonger_perm l := merge_sort_Permutation notShorter l;
  sortLonger_sorted l := StronglySorted_merge_sort notShorter l |}.
#[local] Existing Instance mergeByLength.

Definition describeKv (inp : KvInput) (out : KvOutput) : string :=
  if in_Op inp =? 0 then "get" +:+ in_Key inp +:+ out_Value out else "write" +:+ in_Key inp +:+ in_Value inp.

Lemma visual_total_witness :
  ∃ k, ∀ fuel, (k <= fuel)%nat →
    ∃ res info data, CheckOperationsVerbose KvModel twoParts fuel staleHistory 0 = Ret (res, info) ∧
      computeVisualizationData describeKv id KvModel info = Ret data ∧ length data = 2%nat ∧
      ∀ i p ps d, partitions KvModel staleHistory !! i = Some p → partialLinearizations info !! i = Some ps →
        data !! i = Some d → shows describeKv p ps d.
Proof.
  apply (visual_total describeKv id KvModel twoParts staleHistory 0).
  - apply (bool_decide_unpack _). vm_compute. exact I.
  - done.
  - apply twoParts_complete.
  - done.
Defined.

(** The stale read is in no partial linearization. *)
Definition shownStale : outcome (list partitionVisualizationData) :=
  '(_, info) ← checkOperations KvModel twoParts 20 staleHistory true 0;
  computeVisualizationData describeKv id KvModel info.

Definition summary (d : partitionVisualizationData) : nat * list (list Z) * list (Z * Z) :=
  (length (pv_History d), map indices (pv_PartialLinearizations d), map_to_list (pv_Largest d)).

Example stale_shown :
  map summary (default [] (returned shownStale)) = [(2%nat, [[0]], [(0, 0)]); (1%nat, [[0]], [(0, 0)])].
Proof. vm_compute. reflexivity. Qed.
